(* ===== verification/_CoqProject ===== *)
-Q . S2P
Prelude.v
Domain.v
Coroutines.v
TigerBeetle.v
TBRef.v
Ids.v
Transfers.v
Accounts.v
LedgerProps.v
Postgres.v
World.v
ActivitiesTB.v
ActivitiesTBProps.v
AllocationProps.v
ActivitiesPG.v
AccountingWorkflow.v
AccountingProps.v
CreditProps.v
LoopProps.v
Meter.v
WorkflowWitnesses.v
Interleaving.v
InterleavingProps.v
InterleavingClaims.v
InterleavingNumbers.v
InterleavingProgress.v
RunAlone.v
InterleavingWitnesses.v
Overdraft.v
Provisioning.v
ProvisioningProps.v
Floats.v
Dedup.v
Streams.v
Latency.v
Heartbeat.v
HeartbeatProps.v
HeartbeatWitnesses.v
CivilTime.v
ProvisioningHandler.v
Onboarding.v
AdminHandler.v
AdminProps.v
AdminWitnesses.v
Server.v
ServerProps.v
Startup.v
WebUI.v
WebUIProps.v
Format.v
Scenario.v
Screen.v
View.v
Rpc.v
Simulator.v
SimulatorProps.v
SimulatorClaims.v
ScreenProps.v
