(* ===== verification/Prelude.v ===== *)
(** * Cloud credit system: verification library (root file)

    ** The program

    The service meters the usage of clusters against the prepaid credits of
    tenants.  Clusters send heartbeats to the gateway (internal/gateway), which
    drops the ones it has seen, finds the tenant that owns the cluster and signals
    the tenant's accounting workflow (internal/accounting), a Temporal workflow
    that collects heartbeats in batches and charges each batch through an activity
    to TigerBeetle (internal/ledger).  A tenant has per resource a quota account
    that must not be overdrawn; usage flows from it to a sink account and credits
    flow into it from an operator account.  Every transfer ID is a hash of what the
    transfer is for, so that repeating a request is harmless.  After a batch the
    workflow reads the balances and projects them to PostgreSQL (internal/db),
    from where the gateway answers heartbeats, the admin RPCs and the web UI
    (internal/webui).  Provisioning RPCs create tenants and clusters by two more
    workflows.  The server process (cmd/server) puts these together; the simulator
    (cmd/simulator) drives a demo against it.

    ** Files and components

    - [Prelude]: Go's machine integers, the state-and-error monad [M] ([Ok], [Err],
      [Panic]), loops over slices and maps ([GoRange]: every [range] over a map
      chooses an order), strings, automation.
    - [Coroutines]: programs that wait for activities, as a free monad, and the
      rely-guarantee rule for invariants of interleaved programs.
    - [Domain]: internal/domain.
    - [TigerBeetle], [TBRef]: the TigerBeetle client as a class with its laws, and an
      executable instance for concrete runs.
    - [Ids], [Transfers], [Accounts], [LedgerProps]: internal/ledger (ids.go,
      transfers.go, accounts.go; client.go is in [Startup]).
    - [Postgres]: internal/db/sqlcgen and the constraints of
      sql/migrations/001_initial.sql, one operation per generated query.
    - [World]: ledger, database and log together, and Temporal's activities.
    - [ActivitiesTB], [ActivitiesPG], [ActivitiesTBProps], [AllocationProps]:
      internal/accounting/activities_tb.go and activities_pg.go.
    - [AccountingWorkflow], [AccountingProps], [CreditProps], [LoopProps], [Meter],
      [WorkflowWitnesses]: workflow_accounting.go.  [TenantAccountingState]
      is the record of the workflow; [on_heartbeat], [on_register], [on_timer] and [on_credit] are its
      handlers, [flushBatch] and [flushAdjustment] what they call, [loop_step] one
      turn of the main loop, [continue_as_new] the hand-over to the next run.  Here a
      handler runs to its end.
    - [Interleaving], [InterleavingProps], [InterleavingClaims], [InterleavingNumbers],
      [InterleavingProgress], [RunAlone], [InterleavingWitnesses], [Overdraft]: the
      same workflow as it really executes.  The handlers are coroutines
      ([flushBatch_co], [on_credit_co], ...) that wait at every activity; [Conf] is the
      main coroutine, the credit updates in flight, the timers and the activities
      that somebody still executes for a coroutine that gave up or was abandoned, and
      [conf_step] lets any of them go on.
    - [Provisioning], [ProvisioningProps]: workflow_provisioning.go.
    - [Floats], [CivilTime]: float64 rounding and the text form of timestamps, as
      far as the handlers use them.
    - [Dedup], [Streams], [Latency], [Heartbeat], [HeartbeatProps],
      [HeartbeatWitnesses]: dedup.go, stream_manager.go and heartbeat_handler.go;
      the goroutines of a stream are the steps of [stream_step].
    - [ProvisioningHandler], [Onboarding], [AdminHandler], [AdminProps],
      [AdminWitnesses]: provisioning_handler.go and admin_handler.go.
    - [Server], [ServerProps]: cmd/server/main.go (routes, connection loops),
      internal/config, internal/db/migrate.go.
    - [Startup]: [main] of cmd/server and cmd/worker from the configuration to the
      last deferred call, with ledger/client.go, db/postgres.go and
      accounting/worker.go.
    - [Rpc]: the generated clients and handlers (gen/.../creditsystemv1connect) and
      the clients of the simulator.
    - [WebUI], [WebUIProps]: internal/webui.
    - [Scenario], [Simulator], [SimulatorProps], [SimulatorClaims]: the scenario, the
      agents and the driver of cmd/simulator.
    - [Format], [Screen], [View], [ScreenProps]: its terminal screen (ui.go), with the
      verbs of fmt that it uses.

    ** Parameters

    Code outside the repository is a class of operations; a second class names the
    documented behaviour that the code relies on.  The theorems are proved against
    the classes, and concrete runs instantiate them.
    - [TigerBeetle], [TigerBeetleLaws]: accounts and transfers; instance [TBRef].
    - [Blake3]: the hash; no law, what is proved is about the hashed bytes.
    - [PGServer]: clock, row order, collation and generated UUIDs of PostgreSQL;
      every query may fail, before or after it took effect.
    - [Temporal], [TemporalLaws]: activities run at least once, attempt after
      attempt, other parties acting in between ([others]).
    - [TemporalServer], [WorkflowClient], [UpdateClient]: starting, signalling,
      querying and updating workflows.
    - [UUIDPkg] (github.com/google/uuid), [Valkey] (sorted sets), [Clients] (the answers
      that the simulator gets), [ConnectRPC] (what a connect client sends).
    - [Widgets], [WidgetLaws]: progress bar, viewport and layout of the terminal
      library; [LocalZone]: the time zone.
    - [Net], [NetLaws]: IP addresses and the resolver.
    The calls to [uuid.New], clocks, random numbers, the environment variables, the
    attempts to connect and the cancellation of contexts are arguments or oracles.

    ** What is proved

    - Money: usage is charged at most once and credits exactly once whatever is
      retried, and a quota account is never overdrawn, from its creation on and through every
      interleaving ([ActivitiesTBProps], [CreditProps], [LedgerProps], [Overdraft]); the IDs of different requests hash different
      bytes ([Ids]); the results reported for a batch are those of the ledger.
    - The workflow: with credits interleaved at every await it refines an abstract
      meter that counts every heartbeat once, in order, or loses a whole batch
      ([Meter], [InterleavingClaims]); the batch that the ledger got is the one that is
      applied; requests in flight together have different numbers
      ([InterleavingNumbers]); no coroutine panics or stands still, a turn ends, the
      state keeps its types and the timers their bounds ([InterleavingProgress]); a
      coroutine that runs alone is the handler of [AccountingWorkflow] ([RunAlone]), of
      which more is proved: a heartbeat that waits is counted when the timer fires, a
      flush is all or nothing, Continue-As-New hands over the state
      ([AccountingProps], [LoopProps]).
    - Projection and alerts: a soft limit alerts once; reported balances are those
      of the ledger; the views of the quota agree with each other.
    - Provisioning: a registered tenant has a funded wallet and a running workflow,
      a failed provisioning starts nothing, a registered cluster is served.
    - Gateway: a heartbeat reaches the owner of its cluster, a stream delivers in
      order, both deduplicators call no new number a duplicate (the Valkey one up to
      2^53), percentiles are those of the recorded window.
    - Server: no protected route is served without the bearer token, every call of a
      generated client reaches the method that it names, the server serves exactly
      when all it needs is there and releases it in the opposite order, connecting
      gives up after its attempts, migrations run in the order of their names.
    - Simulator: an agent refines a small specification of what it sends, replays
      do not pass the gateway, the screen never panics and shows the latest events, bars
      that agree with the printed percentages and numbers rounded to a tenth.
    Several theorems state behaviour that differs from what a comment intends, among
    them [failed_heartbeat_is_not_resent], [credit_timer_is_not_awaited],
    [late_refusal_overrides_credit], [exhaust_step_ignores_kill],
    [report_misses_heartbeats] and [deregistered_cluster_still_metered].

    ** Bounds and fuel

    Integers are [Z] with the conversions [u64], [i64] and [u32] where the code
    converts.  Loops over data are structural.  Loops of the code with a counter use
    it as fuel, exactly: the connection loops (30 attempts), the retries of
    [resolveTenantID] and of the stream's dispatch, the 20 lines of the event log.
    [strings.TrimSpace] gets the length of the string, which bounds its iterations
    ([trim_left_blank]).  An activity has five attempts; a turn of the interleaved loop
    takes at most 56 steps of its own ([turn_terminates]), eight activities with five
    attempts, an answer and a resumption each; the runs themselves are not bounded.

    ** Not modelled

    - Log lines, the pprof routes, the compression adapter (it renames a method of a
      library), the [Unimplemented] handlers that nothing uses.
    - Encoding and decoding of JSON and protobuf messages.
    - The operations of a stream cover a message without a cluster ID; the steps of
      [stream_step], and so the theorem on its order, are those of messages with one. *)

From stdpp Require Export base list gmap strings vector numbers.
From Stdlib Require Import ZArith Lia.

#[global] Open Scope Z_scope.

(** ** Automation shared by the components *)

Create HintDb credit discriminated.
Create Rewrite HintDb credit.

(** [case_step H] exposes the next scrutinee of a [match] in [H]. *)
Ltac case_step H :=
  match type of H with
  | context [match ?x with _ => _ end] =>
      let E := fresh "E" in destruct x eqn:E; simplify_eq/=
  end.

(** ** Machine integers of Go *)

(** The conversions [uint64(x)], [int64(x)], [uint32(x)] and [uint16(x)]:
    reduction modulo the width, into the range of the target type. *)
Definition u64 (z : Z) : Z := z mod 2 ^ 64.
Definition u32 (z : Z) : Z := z mod 2 ^ 32.
Definition i64 (z : Z) : Z := (z + 2 ^ 63) mod 2 ^ 64 - 2 ^ 63.

Definition in_u64 (z : Z) : Prop := 0 ≤ z < 2 ^ 64.
Definition in_u32 (z : Z) : Prop := 0 ≤ z < 2 ^ 32.
Definition in_i64 (z : Z) : Prop := - 2 ^ 63 ≤ z < 2 ^ 63.
Definition in_i32 (z : Z) : Prop := - 2 ^ 31 ≤ z < 2 ^ 31.

#[export] Instance in_u64_dec z : Decision (in_u64 z).
Proof. unfold in_u64. apply _. Defined.
#[export] Instance in_i64_dec z : Decision (in_i64 z).
Proof. unfold in_i64. apply _. Defined.

Lemma u64_range z : in_u64 (u64 z).
Proof. unfold in_u64, u64. apply Z.mod_pos_bound. lia. Qed.

Lemma u64_id z : in_u64 z → u64 z = z.
Proof. unfold in_u64, u64. intros. by apply Z.mod_small. Qed.

Lemma i64_range z : in_i64 (i64 z).
Proof.
  unfold in_i64, i64.
  pose proof (Z.mod_pos_bound (z + 2 ^ 63) (2 ^ 64) ltac:(lia)). lia.
Qed.

Lemma i64_id z : in_i64 z → i64 z = z.
Proof. unfold in_i64, i64. intros. rewrite Z.mod_small by lia. lia. Qed.

(** A negative [int64] converted to [uint64] lands in the upper half. *)
Lemma u64_neg z : in_i64 z → z < 0 → u64 z = z + 2 ^ 64.
Proof.
  unfold in_i64, u64. intros. rewrite <- (Z.mod_small (z + 2 ^ 64) (2 ^ 64)) by lia.
  rewrite <- Zplus_mod_idemp_r, Z.mod_same by lia. f_equal. lia.
Qed.

Lemma i64_u64 z : in_i64 z → i64 (u64 z) = z.
Proof.
  intros H. destruct (Z.ltb_spec z 0) as [Hn|Hp].
  - rewrite u64_neg by done. unfold i64, in_i64 in *.
    replace (z + 2 ^ 64 + 2 ^ 63) with (z + 2 ^ 63 + 1 * 2 ^ 64) by lia.
    rewrite Z_mod_plus_full, Z.mod_small; lia.
  - unfold in_i64 in H. rewrite u64_id by (unfold in_u64; lia). apply i64_id. done.
Qed.

#[export] Hint Resolve u64_range i64_range : credit.

(** ** Bytes, byte arrays and little-endian encoding

    A byte is an 8-bit [Z].  A Go array [[n]byte] is a vector of length [n],
    a slice [[]byte] a list. *)

Abbreviation byte := Z (only parsing).
Abbreviation bytes16 := (vec Z 16).
Abbreviation bytes32 := (vec Z 32).

(** [copy(dst[:], src)] into a zeroed array of length [n]: a longer source is
    cut, a shorter one leaves the tail zero. *)
Fixpoint copy_bytes (n : nat) (src : list Z) : vec Z n :=
  match n with
  | O => [#]
  | S n =>
      match src with
      | [] => 0 ::: copy_bytes n []
      | b :: src => b ::: copy_bytes n src
      end
  end.

Definition zero16 : bytes16 := copy_bytes 16 [].

Lemma copy_bytes_to_list n src :
  length src = n → vec_to_list (copy_bytes n src) = src.
Proof.
  revert src. induction n as [|n IH]; intros [|b src] H; simplify_eq/=; [done|].
  f_equal. by apply IH.
Qed.

Lemma copy_bytes_vec {n} (v : vec Z n) : copy_bytes n (vec_to_list v) = v.
Proof. induction v as [|b n v IH]; [done|]. simpl. by rewrite IH. Qed.

(** Byte arrays as map keys, with an encoding that computes. *)
#[export] Instance bytes_countable n : Countable (vec Z n).
Proof.
  refine (inj_countable vec_to_list (λ l, Some (copy_bytes n l)) _).
  intros v. by rewrite copy_bytes_vec.
Defined.

(** Byte [i] is bits [8i .. 8i+7] of the value. *)
Fixpoint le_split (n : nat) (w : Z) : list Z :=
  match n with
  | O => []
  | S n => w mod 256 :: le_split n (w / 256)
  end.

(** The number that a slice of bytes stands for; each entry counts as a byte. *)
Fixpoint le_combine (bs : list Z) : Z :=
  match bs with
  | [] => 0
  | b :: bs => b mod 256 + 256 * le_combine bs
  end.

Lemma le_split_length n w : length (le_split n w) = n.
Proof. revert w. induction n as [|n IH]; intros w; simpl; [done|]. by rewrite IH. Qed.

Lemma le_combine_split n w :
  le_combine (le_split n w) = w mod 256 ^ Z.of_nat n.
Proof.
  revert w. induction n as [|n IH]; intros w.
  - simpl. by rewrite Z.mod_1_r.
  - cbn [le_split le_combine]. rewrite IH, Nat2Z.inj_succ, Z.pow_succ_r by lia.
    rewrite Z.rem_mul_r, Zmod_mod by lia. lia.
Qed.

Lemma le_combine_app l1 l2 :
  le_combine (l1 ++ l2) = le_combine l1 + 256 ^ Z.of_nat (length l1) * le_combine l2.
Proof.
  induction l1 as [|b l1 IH]; cbn [app le_combine length].
  - rewrite Z.pow_0_r. lia.
  - rewrite IH, Nat2Z.inj_succ, Z.pow_succ_r by lia. lia.
Qed.

Lemma le_combine_range l : 0 ≤ le_combine l < 256 ^ Z.of_nat (length l).
Proof.
  induction l as [|b l IH]; cbn [le_combine length].
  - rewrite Z.pow_0_r. lia.
  - rewrite Nat2Z.inj_succ, Z.pow_succ_r by lia.
    pose proof (Z.mod_pos_bound b 256 ltac:(lia)). lia.
Qed.

Lemma le_split_inj n w1 w2 :
  0 ≤ w1 < 256 ^ Z.of_nat n → 0 ≤ w2 < 256 ^ Z.of_nat n →
  le_split n w1 = le_split n w2 → w1 = w2.
Proof.
  intros H1 H2 H. apply (f_equal le_combine) in H.
  rewrite !le_combine_split, !Z.mod_small in H by done. done.
Qed.

Lemma le_split_byte n w b : b ∈ le_split n w → 0 ≤ b < 256.
Proof.
  revert w. induction n as [|n IH]; intros w; cbn [le_split]; [by intros ?%elem_of_nil|].
  intros [->|H]%elem_of_cons; [apply Z.mod_pos_bound; lia | by eapply IH].
Qed.

(** ** Errors, panics and the state monad of the effectful code

    A Go function with an [error] result returns [Ok] or [Err]; a run-time
    panic is [Panic].  Error texts are kept by their format string, wrapped
    causes ([%w]) by [EWrap]; the sentinels the code tests with [errors.Is]
    and [errors.As] are constructors of their own. *)

Inductive error : Type :=
  | EMsg (msg : string)
  | EWrap (ctx : string) (cause : error)
  | ErrNoRows
  | ErrAlreadyStarted
  | ErrCanceled
  | EExternal (code : Z).

#[export] Instance error_eq_dec : EqDecision error.
Proof. solve_decision. Defined.

(** [errors.Is(err, target)] for the sentinel errors: follows the wrapping. *)
Fixpoint errors_Is (target : error) (e : error) : bool :=
  bool_decide (e = target) ||
  match e with
  | EWrap _ cause => errors_Is target cause
  | _ => false
  end.

Inductive outcome (A : Type) : Type :=
  | Ok (a : A)
  | Err (e : error)
  | Panic (msg : string).
Arguments Ok {A} _.
Arguments Err {A} _.
Arguments Panic {A} _.

#[export] Instance outcome_ret : MRet outcome := λ A, Ok.
#[export] Instance outcome_bind : MBind outcome := λ A B k o,
  match o with
  | Ok a => k a
  | Err e => Err e
  | Panic p => Panic p
  end.

(** Effects performed before an error persist: the state is threaded through
    every outcome. *)
Definition M (S A : Type) : Type := S → outcome A * S.

#[export] Instance M_ret {S} : MRet (M S) := λ A a s, (Ok a, s).
#[export] Instance M_bind {S} : MBind (M S) := λ A B k m s,
  match m s with
  | (Ok a, s') => k a s'
  | (Err e, s') => (Err e, s')
  | (Panic p, s') => (Panic p, s')
  end.

Definition fail {S A} (e : error) : M S A := λ s, (Err e, s).
Definition panic {S A} (msg : string) : M S A := λ s, (Panic msg, s).
Definition lift {S A} (o : outcome A) : M S A := λ s, (o, s).
Definition gets {S A} (f : S → A) : M S A := λ s, (Ok (f s), s).
Definition modify {S} (f : S → S) : M S unit := λ s, (Ok tt, f s).

(** [if err != nil { return fmt.Errorf("ctx: %w", err) }] *)
Definition wrap_err {S A} (ctx : string) (m : M S A) : M S A := λ s,
  match m s with
  | (Err e, s') => (Err (EWrap ctx e), s')
  | r => r
  end.

(** [x, err := m]: the error becomes a value the caller inspects. *)
Definition try {S A} (m : M S A) : M S (error + A) := λ s,
  match m s with
  | (Ok a, s') => (Ok (inr a), s')
  | (Err e, s') => (Ok (inl e), s')
  | (Panic p, s') => (Panic p, s')
  end.

(** A loop [for _, x := range l] whose body updates an accumulator and may
    leave the function. *)
Fixpoint foldM {S A B} (f : B → A → M S B) (b : B) (l : list A) : M S B :=
  match l with
  | [] => mret b
  | x :: l => b' ← f b x; foldM f b' l
  end.

(** Run a computation on a component of the state. *)
Definition zoom {S T A} (get : S → T) (put : T → S → S) (m : M T A) : M S A := λ s,
  let '(r, t) := m (get s) in (r, put t s).

Section monad_lemmas.
Context {S A B : Type}.
Implicit Types (m : M S A) (k : A → M S B) (s : S).

Lemma bind_Ok_inv m k s b s' :
  (m ≫= k) s = (Ok b, s') → ∃ a s1, m s = (Ok a, s1) ∧ k a s1 = (Ok b, s').
Proof.
  unfold mbind, M_bind. destruct (m s) as [[a|e|p] s1]; intros; simplify_eq; eauto.
Qed.

Lemma bind_cases m k s :
  (m ≫= k) s =
  match m s with
  | (Ok a, s') => k a s'
  | (Err e, s') => (Err e, s')
  | (Panic p, s') => (Panic p, s')
  end.
Proof. done. Qed.

Lemma bind_Ok m k s a s1 : m s = (Ok a, s1) → (m ≫= k) s = k a s1.
Proof. unfold mbind, M_bind. by intros ->. Qed.

Lemma bind_Err m k s e s1 : m s = (Err e, s1) → (m ≫= k) s = (Err e, s1).
Proof. unfold mbind, M_bind. by intros ->. Qed.

Lemma bind_assoc {C} m k (h : B → M S C) s :
  ((m ≫= k) ≫= h) s = (m ≫= (λ a, k a ≫= h)) s.
Proof. unfold mbind, M_bind. by destruct (m s) as [[] ?]. Qed.

End monad_lemmas.

Lemma wrap_Ok {S A} ctx (m : M S A) s a s' :
  wrap_err ctx m s = (Ok a, s') ↔ m s = (Ok a, s').
Proof. unfold wrap_err. destruct (m s) as [[] ?]; naive_solver. Qed.

Section foldM_lemmas.
Context {S A B : Type}.

Lemma foldM_app (f : B → A → M S B) b l1 l2 s :
  foldM f b (l1 ++ l2) s = (foldM f b l1 ≫= λ b', foldM f b' l2) s.
Proof.
  revert b s. induction l1 as [|x l1 IH]; intros b s; [done|]. simpl.
  rewrite bind_assoc. unfold mbind, M_bind.
  destruct (f b x s) as [[b'| |] s1]; [|done..]. apply IH.
Qed.

(** Loop invariant for a loop that runs to its end. *)
Lemma foldM_inv (I : B → S → Prop) (f : B → A → M S B) b l s b' s' :
  I b s →
  (∀ b x s b1 s1, x ∈ l → I b s → f b x s = (Ok b1, s1) → I b1 s1) →
  foldM f b l s = (Ok b', s') → I b' s'.
Proof.
  revert b s. induction l as [|x l IH]; intros b s Hb Hf H; simpl in H.
  - by inv H.
  - apply bind_Ok_inv in H as (b1 & s1 & H1 & H2).
    eapply IH; [| |exact H2].
    + eapply Hf; [|done..]. left.
    + intros. eapply Hf; [|done..]. by right.
Qed.
End foldM_lemmas.

Lemma outcome_bind_Ok {A B} (o : outcome A) (k : A → outcome B) b :
  o ≫= k = Ok b ↔ ∃ a, o = Ok a ∧ k a = Ok b.
Proof. destruct o; naive_solver. Qed.

(** A loop whose body only computes. *)
Lemma mapM_pure {S A B} (f : A → M S B) (g : A → outcome B) l s :
  (∀ x s, x ∈ l → f x s = (g x, s)) → mapM f l s = (mapM g l, s).
Proof.
  induction l as [|x l IH]; intros H; [done|].
  assert (f x s = (g x, s)) as Hx by (apply H; left).
  assert (mapM f l s = (mapM g l, s)) as Hl by (apply IH; intros; apply H; by right).
  simpl. rewrite (bind_cases (f x)), Hx. destruct (g x) as [y| |]; [|done..].
  rewrite bind_cases, Hl. by destruct (mapM g l).
Qed.

Lemma mapM_lift {S A B} (g : A → outcome B) l (s : S) :
  mapM (λ x, lift (g x)) l s = (mapM g l, s).
Proof. by apply mapM_pure. Qed.

Lemma mapM_Ok {A B} (g : A → outcome B) l ys :
  mapM g l = Ok ys ↔ Forall2 (λ x y, g x = Ok y) l ys.
Proof.
  revert ys. induction l as [|x l IH]; intros ys; simpl.
  - split; [intros H; inv H; constructor|]. by inversion 1.
  - rewrite outcome_bind_Ok. setoid_rewrite outcome_bind_Ok. split.
    + intros (y & Hx & ys' & Hl & H). inv H. constructor; [done|]. by apply IH.
    + inversion 1 as [|? y ? ys' Hx Hl]; simplify_eq. exists y. split; [done|].
      exists ys'. split; [by apply IH|done].
Qed.

(** A loop that runs to its end visited every element. *)
Lemma mapM_Ok_inv {S A B} (f : A → M S B) l s ys s' :
  mapM f l s = (Ok ys, s') → length ys = length l.
Proof.
  revert s ys. induction l as [|x l IH]; intros s ys H; simpl in H; [by inv H|].
  apply bind_Ok_inv in H as (y & s1 & _ & H).
  apply bind_Ok_inv in H as (ys' & s2 & H2 & H). inv H. simpl. f_equal. by eapply IH.
Qed.

(** ** Frame conditions

    [keeps R m]: whatever [m] returns, its final state is related to the
    initial one by [R].  The rules below follow the structure of the code. *)

Definition keeps {S A} (R : relation S) (m : M S A) : Prop :=
  ∀ s o s', m s = (o, s') → R s s'.

Section keeps.
Context {S : Type} (R : relation S) `{!PreOrder R}.

Lemma keeps_ret {A} (a : A) : keeps R (mret a : M S A).
Proof. intros s o s' H. by inv H. Qed.

Lemma keeps_lift {A} (o : outcome A) : keeps R (lift o).
Proof. intros s o' s' H. by inv H. Qed.

Lemma keeps_fail {A} e : keeps R (fail e : M S A).
Proof. intros s o' s' H. by inv H. Qed.

Lemma keeps_panic {A} p : keeps R (panic p : M S A).
Proof. intros s o' s' H. by inv H. Qed.

Lemma keeps_gets {A} (f : S → A) : keeps R (gets f).
Proof. intros s o' s' H. by inv H. Qed.

Lemma keeps_bind {A B} (m : M S A) (k : A → M S B) :
  keeps R m → (∀ a, keeps R (k a)) → keeps R (m ≫= k).
Proof.
  intros Hm Hk s o s' H. rewrite bind_cases in H. destruct (m s) as [r s1] eqn:E.
  apply Hm in E. destruct r; [|by inv H..]. etrans; [exact E|]. by eapply Hk.
Qed.

Lemma keeps_wrap {A} ctx (m : M S A) : keeps R m → keeps R (wrap_err ctx m).
Proof.
  intros Hm s o s' H. unfold wrap_err in H. destruct (m s) as [[] s1] eqn:E; inv H; by eapply Hm.
Qed.

Lemma keeps_try {A} (m : M S A) : keeps R m → keeps R (try m).
Proof.
  intros Hm s o s' H. unfold try in H. destruct (m s) as [[] s1] eqn:E; inv H; by eapply Hm.
Qed.

Lemma keeps_mapM {A B} (f : A → M S B) l : (∀ x, keeps R (f x)) → keeps R (mapM f l).
Proof.
  intros Hf. induction l as [|x l IH]; simpl; [apply keeps_ret|].
  apply keeps_bind; [apply Hf|]. intros y. apply keeps_bind; [apply IH|]. intros. apply keeps_ret.
Qed.

Lemma keeps_foldM {A B} (f : B → A → M S B) b l :
  (∀ b x, keeps R (f b x)) → keeps R (foldM f b l).
Proof.
  intros Hf. revert b. induction l as [|x l IH]; intros b; simpl; [apply keeps_ret|].
  apply keeps_bind; [apply Hf|done].
Qed.
End keeps.

Lemma keeps_zoom {S T A} (R : relation S) (R' : relation T) get put (m : M T A) :
  (∀ s t, R' (get s) t → R s (put t s)) → keeps R' m → keeps R (zoom get put m).
Proof.
  intros Hg Hm s o s' H. unfold zoom in H. destruct (m (get s)) as [r t] eqn:E. inv H.
  apply Hg. by eapply Hm.
Qed.

(** Walks through the code of a computation; leaves the primitive calls. *)
Ltac keeps_step :=
  lazymatch goal with
  | |- keeps _ (_ ≫= _) => apply keeps_bind; [try apply _| |intros]
  | |- keeps _ (mret _) => apply keeps_ret; apply _
  | |- keeps _ (lift _) => apply keeps_lift; apply _
  | |- keeps _ (fail _) => apply keeps_fail; apply _
  | |- keeps _ (panic _) => apply keeps_panic; apply _
  | |- keeps _ (gets _) => apply keeps_gets; apply _
  | |- keeps _ (wrap_err _ _) => apply keeps_wrap; [try apply _..|]
  | |- keeps _ (try _) => apply keeps_try; [try apply _..|]
  | |- keeps _ (mapM _ _) => apply keeps_mapM; [try apply _..|intros]
  | |- keeps _ (foldM _ _ _) => apply keeps_foldM; [try apply _..|intros]
  | |- keeps _ (match ?x with _ => _ end) => destruct x
  | |- keeps _ (if ?x then _ else _) => destruct x
  end.
Ltac keeps_tac := repeat keeps_step; eauto with credit.

(** [mstep H] splits a successful run of a bind in [H] into its two parts. *)
Ltac mstep H :=
  let a := fresh "a" in let s := fresh "s" in
  let H1 := fresh H in
  apply bind_Ok_inv in H as (a & s & H1 & H).

(** ** Lists and maps *)

(** Key-value pairs of a map in the order a Go [range] visits them: any order
    is possible, and each execution of a loop draws a fresh one. *)
Class GoRange := {
  range_order : nat → ∀ {A}, gmap string A → list (string * A);
  range_order_perm : ∀ n A (m : gmap string A), range_order n m ≡ₚ map_to_list m;
}.

(** A loop over a map that fills another map entry by entry. *)
Lemma foldl_insert_lookup {A B} (f : A → B) (kvs : list (string * A)) (m0 : gmap string B) k :
  NoDup kvs.*1 →
  foldl (λ out '(k, v), <[k := f v]> out) m0 kvs !! k =
  match list_to_map (M := gmap string A) kvs !! k with Some v => Some (f v) | None => m0 !! k end.
Proof.
  revert m0. induction kvs as [|[k' v] kvs IH]; intros m0 Hnd; simpl; [by rewrite lookup_empty|].
  inv Hnd. rewrite IH by done. destruct (decide (k = k')) as [->|Hne].
  - rewrite lookup_insert_eq, not_elem_of_list_to_map_1, lookup_insert_eq by done. done.
  - by rewrite !lookup_insert_ne by done.
Qed.

Lemma range_collect {A B} (f : A → B) (m : gmap string A) kvs :
  kvs ≡ₚ map_to_list m → foldl (λ out '(k, v), <[k := f v]> out) ∅ kvs = f <$> m.
Proof.
  intros Hp. assert (NoDup kvs.*1) as Hnd by (rewrite Hp; apply NoDup_fst_map_to_list).
  apply map_eq. intros k. rewrite foldl_insert_lookup by done.
  rewrite (list_to_map_proper _ _ Hnd Hp), list_to_map_to_list, lookup_fmap, lookup_empty.
  by destruct (m !! k).
Qed.

(** Enumeration with indices, [for i, x := range l]. *)
Definition enumerate {A} (l : list A) : list (nat * A) := imap pair l.

Lemma enumerate_lookup {A} (l : list A) i :
  enumerate l !! i = pair i <$> l !! i.
Proof. unfold enumerate. by rewrite list_lookup_imap. Qed.

Lemma enumerate_snd {A} (l : list A) : (enumerate l).*2 = l.
Proof.
  apply list_eq. intros i. rewrite list_lookup_fmap, enumerate_lookup.
  by destruct (l !! i).
Qed.

Lemma enumerate_length {A} (l : list A) : length (enumerate l) = length l.
Proof. apply length_imap. Qed.

Lemma enumerate_NoDup {A} (l : list A) : NoDup (enumerate l).*1.
Proof.
  apply NoDup_alt. intros i j x. rewrite !list_lookup_fmap, !enumerate_lookup.
  destruct (l !! i), (l !! j); simpl; congruence.
Qed.

Lemma forallb_True_iff {A} (f : A → bool) l : forallb f l = true ↔ ∀ x, x ∈ l → f x = true.
Proof. rewrite forallb_forall. by setoid_rewrite list_elem_of_In. Qed.

Lemma forallb_decide {A} (P : A → Prop) `{!∀ x, Decision (P x)} l :
  forallb (λ x, bool_decide (P x)) l = true → ∀ x, x ∈ l → P x.
Proof.
  intros Hf x Hx. eapply bool_decide_eq_true. by apply (proj1 (forallb_True_iff _ l) Hf).
Qed.

Lemma length_omap_le {A B} (f : A → option B) l : (length (omap f l) ≤ length l)%nat.
Proof.
  induction l as [|x l IH]; [done|].
  change (omap f (x :: l)) with (match f x with Some y => y :: omap f l | None => omap f l end).
  destruct (f x); cbn [length]; lia.
Qed.

Lemma imap_const_id {A} (l : list A) : imap (λ _ x, x) l = l.
Proof. apply list_eq. intros i. rewrite list_lookup_imap. by destruct (l !! i). Qed.

(** Lists of equal length split at the same point. *)
Lemma app_inj_length {A} (l1 l2 k1 k2 : list A) :
  length l1 = length k1 → l1 ++ l2 = k1 ++ k2 → l1 = k1 ∧ l2 = k2.
Proof. intros. by apply app_inj_1. Qed.

(** ** Strings *)

Lemma string_app_cons a (s t : string) : String a s +:+ t = String a (s +:+ t).
Proof. done. Qed.

Lemma string_app_assoc (s1 s2 s3 : string) : s1 +:+ (s2 +:+ s3) = (s1 +:+ s2) +:+ s3.
Proof. induction s1 as [|a s1 IH]; [done|]. by rewrite !string_app_cons, IH. Qed.

Lemma string_app_nil_r (s : string) : s +:+ "" = s.
Proof. induction s as [|a s IH]; [done|]. by rewrite string_app_cons, IH. Qed.

Lemma string_length_app (s1 s2 : string) :
  String.length (s1 +:+ s2) = (String.length s1 + String.length s2)%nat.
Proof.
  induction s1 as [|a s1 IH]; [done|]. rewrite string_app_cons. cbn [String.length]. lia.
Qed.
