(* ===== verification/Domain.v ===== *)
(** * Domain constants (internal/domain)

    Resource types with their TigerBeetle ledger IDs, account roles and the
    transfer codes.  [ResourceType] and [AccountType] are Go string types, so
    every string inhabits them and the partial conversions panic outside the
    declared constants. *)

From S2P Require Import Prelude.

Abbreviation ResourceType := string (only parsing).
Abbreviation AccountType := string (only parsing).

(** ** resource.go *)

Definition ResourceCPUHours : ResourceType := "cpu_hours".
Definition ResourceMemoryGBHours : ResourceType := "memory_gb_hours".
Definition ResourceActiveNodes : ResourceType := "active_nodes".

Definition AllResources : list ResourceType :=
  [ResourceCPUHours; ResourceMemoryGBHours; ResourceActiveNodes].

Definition LedgerID (r : ResourceType) : outcome Z :=
  if decide (r = ResourceCPUHours) then Ok 1
  else if decide (r = ResourceMemoryGBHours) then Ok 2
  else if decide (r = ResourceActiveNodes) then Ok 3
  else Panic ("unknown resource type: " +:+ r).

Definition IsGauge (r : ResourceType) : bool :=
  bool_decide (r = ResourceActiveNodes).

(** The loop of [ResourceTypeFromLedger]: the first resource of the list with
    that ledger ID, and the empty string with [false] when there is none. *)
Fixpoint ResourceTypeFromLedger_loop (rs : list ResourceType) (ledgerID : Z)
    : outcome (ResourceType * bool) :=
  match rs with
  | [] => Ok ("", false)
  | r :: rs =>
      match LedgerID r with
      | Ok l => if decide (l = ledgerID) then Ok (r, true)
                else ResourceTypeFromLedger_loop rs ledgerID
      | Err e => Err e
      | Panic p => Panic p
      end
  end.

Definition ResourceTypeFromLedger (ledgerID : Z) : outcome (ResourceType * bool) :=
  ResourceTypeFromLedger_loop AllResources ledgerID.

(** ** account_codes.go *)

Definition AccountCodeOperator : Z := 1.
Definition AccountCodeTenantQuota : Z := 2.
Definition AccountCodeSink : Z := 3.

Definition AccountTypeOperator : AccountType := "operator".
Definition AccountTypeTenantQuota : AccountType := "tenant_quota".
Definition AccountTypeSink : AccountType := "sink".

Definition AccountCodeFromType (t : AccountType) : outcome Z :=
  if decide (t = AccountTypeOperator) then Ok AccountCodeOperator
  else if decide (t = AccountTypeTenantQuota) then Ok AccountCodeTenantQuota
  else if decide (t = AccountTypeSink) then Ok AccountCodeSink
  else Panic ("unknown account type: " +:+ t).

(** ** transfer_codes.go *)

Definition CodeQuotaAllocation : Z := 100.
Definition CodeQuotaAdjustment : Z := 101.
Definition CodeSurgePackCredit : Z := 102.
Definition CodeUsageRecord : Z := 200.
Definition CodeUsageCorrection : Z := 201.
Definition CodeGaugeReservation : Z := 202.
Definition CodePeriodClose : Z := 300.

(** ** Facts used by the other components *)

Lemma elem_of_AllResources r :
  r ∈ AllResources ↔
  r = ResourceCPUHours ∨ r = ResourceMemoryGBHours ∨ r = ResourceActiveNodes.
Proof. unfold AllResources. by rewrite !elem_of_cons, elem_of_nil, (right_id False or). Qed.

Lemma AllResources_NoDup : NoDup AllResources.
Proof. apply (bool_decide_unpack _). by vm_compute. Qed.

(** The ledger ID of a resource: defined exactly on the declared resources. *)
Lemma LedgerID_total r : r ∈ AllResources → ∃ l, LedgerID r = Ok l ∧ 1 ≤ l ≤ 3.
Proof.
  intros [->|[->| ->]]%elem_of_AllResources; eexists; (split; [reflexivity|lia]).
Qed.

Lemma LedgerID_panic r : r ∉ AllResources → ∃ p, LedgerID r = Panic p.
Proof.
  rewrite elem_of_AllResources. intros Hr. unfold LedgerID.
  repeat case_decide; [exfalso; tauto..|]. eauto.
Qed.

Lemma LedgerID_Ok r l : LedgerID r = Ok l → r ∈ AllResources ∧ 1 ≤ l ≤ 3.
Proof.
  unfold LedgerID. rewrite elem_of_AllResources. intros H.
  repeat case_decide; simplify_eq; split; solve [tauto|lia].
Qed.

Lemma LedgerID_inj r1 r2 l : LedgerID r1 = Ok l → LedgerID r2 = Ok l → r1 = r2.
Proof. unfold LedgerID. intros. repeat case_decide; simplify_eq; congruence. Qed.

#[export] Hint Resolve AllResources_NoDup LedgerID_inj : credit.

(** ** Properties *)

(** The ledger number identifies the resource. [ResourceTypeFromLedger]
    never panics, it answers [(r, true)] exactly on the ledger of a resource
    [r], and answers the empty string with [false] on every other number; in
    particular it inverts [LedgerID] and no two resources share a ledger. *)
Theorem ledger_roundtrip : ∀ ledgerID : Z,
  (∀ r, LedgerID r = Ok ledgerID →
        ResourceTypeFromLedger ledgerID = Ok (r, true)) ∧
  ((∀ r, LedgerID r ≠ Ok ledgerID) →
        ResourceTypeFromLedger ledgerID = Ok ("", false)).
Proof.
  intros l. split.
  - intros r Hr. destruct (LedgerID_Ok r l Hr) as [Hin _].
    apply elem_of_AllResources in Hin.
    destruct Hin as [->|[->| ->]]; vm_compute in Hr; by inv Hr.
  - intros Hno.
    pose proof (Hno ResourceCPUHours). pose proof (Hno ResourceMemoryGBHours).
    pose proof (Hno ResourceActiveNodes).
    change (LedgerID ResourceCPUHours) with (Ok 1) in *.
    change (LedgerID ResourceMemoryGBHours) with (Ok 2) in *.
    change (LedgerID ResourceActiveNodes) with (Ok 3) in *.
    unfold ResourceTypeFromLedger. simpl. by rewrite !decide_False by congruence.
Qed.
