(* ===== verification/Coroutines.v ===== *)
(** * Coroutines that wait for activities

    The code of a workflow runs in coroutines: a coroutine runs without
    interruption until it waits for an activity, and other coroutines of the same
    workflow run while it waits.  [prog] is such code over a shared state [S] with
    activities [E]; [run] is the stretch up to the next wait.  The second half is a
    proof rule in the style of rely and guarantee: an assertion at every wait, a
    relation for every stretch. *)

From S2P Require Import Prelude.

Section coroutines.
Context {S : Type} {E : Type → Type}.

(** Code: a result, a piece of local computation, or the wait for an activity that
    may be attempted [n] times. *)
Inductive prog (A : Type) : Type :=
  | PRet (a : A)
  | PDo {B : Type} (m : M S B) (k : B → prog A)
  | PAct {R : Type} (n : nat) (e : E R) (k : error + R → prog A).

(** A coroutine that does not run: it waits for an activity, the activity has
    answered, or it is at its end. *)
Inductive thread (A : Type) : Type :=
  | Finished (a : A)
  | Blocked {R : Type} (n : nat) (e : E R) (k : error + R → prog A)
  | Ready {R : Type} (e : E R) (r : error + R) (k : error + R → prog A).
End coroutines.

Arguments prog S E A : clear implicits.
Arguments thread S E A : clear implicits.
Arguments PRet {S E A} _.
Arguments PDo {S E A B} _ _.
Arguments PAct {S E A R} _ _ _.
Arguments Finished {S E A} _.
Arguments Blocked {S E A R} _ _ _.
Arguments Ready {S E A R} _ _ _.

#[export] Instance prog_ret {S E} : MRet (prog S E) := λ A, PRet.
#[export] Instance prog_bind {S E} : MBind (prog S E) := λ A B f,
  fix bind (p : prog S E A) : prog S E B :=
    match p with
    | PRet a => f a
    | PDo m k => PDo m (λ b, bind (k b))
    | PAct n e k => PAct n e (λ r, bind (k r))
    end.

(** A piece of local computation, and [workflow.ExecuteActivity(...).Get]. *)
Definition here {S E A} (m : M S A) : prog S E A := PDo m PRet.
Definition await {S E R} (n : nat) (e : E R) : prog S E (error + R) := PAct n e PRet.

(** ** Execution *)

(** The stretch up to the next wait. *)
Fixpoint run {S E A} (p : prog S E A) : M S (thread S E A) :=
  match p with
  | PRet a => mret (Finished a)
  | PDo m k => m ≫= λ b, run (k b)
  | PAct n e k => mret (Blocked n e k)
  end.

(** The whole code, with nobody else in between. *)
Fixpoint run_alone {S E A} (exec : ∀ R, nat → E R → M S R) (p : prog S E A) : M S A :=
  match p with
  | PRet a => mret a
  | PDo m k => m ≫= λ b, run_alone exec (k b)
  | PAct n e k => try (exec _ n e) ≫= λ r, run_alone exec (k r)
  end.

Lemma run_alone_bind {S E A B} exec (p : prog S E A) (f : A → prog S E B) s :
  run_alone exec (p ≫= f) s = (run_alone exec p ≫= λ a, run_alone exec (f a)) s.
Proof.
  revert s. induction p as [a|C m k IH|R n e k IH]; intros s; [done|..];
    cbn [mbind prog_bind run_alone]; rewrite bind_assoc, !bind_cases.
  - destruct (m s) as [[b|er|x] s1]; [apply IH|done..].
  - destruct (try (exec R n e) s) as [[b|er|x] s1]; [apply IH|done..].
Qed.

(** What a coroutine waits for. *)
Definition waits_for {S E A} (t : thread S E A) : option {R : Type & E R} :=
  match t with
  | Blocked n e k => Some (existT _ e)
  | _ => None
  end.

(** ** A proof rule *)

Section rule.
Context {S : Type} {E : Type → Type} (I : S → Prop).
Abbreviation wait := (option {R : Type & E R}).
Context (pre : ∀ R, E R → S → Prop) (G : ∀ R, E R → error + R → wait → relation S).

(** From [s], with the stretch begun at [s0]: the code does not fail, every stretch
    ends in a state that its relation and the invariant allow, and a wait begins
    where its assertion holds.  A stretch that follows a wait may begin in any state
    with the invariant and the assertion. *)
Fixpoint good {A} (Q : A → S → Prop) (G0 : wait → relation S) (p : prog S E A) (s0 s : S) : Prop :=
  match p with
  | PRet a => G0 None s0 s ∧ I s ∧ Q a s
  | PDo m k => ∃ b s', m s = (Ok b, s') ∧ good Q G0 (k b) s0 s'
  | PAct n e k => G0 (Some (existT _ e)) s0 s ∧ I s ∧ pre _ e s ∧
      ∀ r s1, I s1 → pre _ e s1 → good Q (G _ e r) (k r) s1 s1
  end.

(** What is known of a coroutine that does not run. *)
Definition thread_ok {A} (Q : A → S → Prop) (t : thread S E A) (s : S) : Prop :=
  match t with
  | Finished a => Q a s
  | Blocked n e k => pre _ e s ∧ ∀ r s1, I s1 → pre _ e s1 → good Q (G _ e r) (k r) s1 s1
  | Ready e r k => pre _ e s ∧ ∀ s1, I s1 → pre _ e s1 → good Q (G _ e r) (k r) s1 s1
  end.

Lemma good_run {A} (Q : A → S → Prop) G0 (p : prog S E A) s0 s :
  good Q G0 p s0 s →
  ∃ t s', run p s = (Ok t, s') ∧ G0 (waits_for t) s0 s' ∧ I s' ∧ thread_ok Q t s'.
Proof.
  revert s. induction p as [a|B m k IH|R n e k _]; intros s.
  - intros (HG & HI & HQ). by exists (Finished a), s.
  - intros (b & s1 & Em & Hk). cbn [run]. rewrite (bind_Ok _ _ _ _ _ Em). by apply IH.
  - intros (HG & HI & Hp & Hk). by exists (Blocked n e k), s.
Qed.

Lemma good_weaken {A} (Q Q' : A → S → Prop) (G0 G1 : wait → relation S) (p : prog S E A) s0 s1 s :
  (∀ a s, Q a s → Q' a s) → (∀ w s', G0 w s0 s' → G1 w s1 s') → good Q G0 p s0 s → good Q' G1 p s1 s.
Proof.
  intros HQ. revert G0 G1 s0 s1 s. induction p as [a|B m k IH|R n e k IH]; intros G0 G1 s0 s1 s HG.
  - intros (? & ? & ?). split_and!; auto.
  - intros (b & s2 & Em & Hk). exists b, s2. split; [done|]. by eapply IH.
  - intros (? & ? & ? & Hk). split_and!; auto. intros r s2 Hi Hp. eapply IH; [|by apply Hk]. done.
Qed.
End rule.

(** ** Termination *)

(** The code waits for activities with at most [b] events on the way: lost attempts,
    the answer and the resumption count. *)
Fixpoint spends {S E A} (b : nat) (p : prog S E A) : Prop :=
  match p with
  | PRet _ => True
  | PDo m k => ∀ x, spends b (k x)
  | PAct n e k => ∃ b', (n + 2 + b' ≤ b)%nat ∧ ∀ r, spends b' (k r)
  end.

Definition thread_spends {S E A} (b : nat) (t : thread S E A) : Prop :=
  match t with
  | Finished _ => True
  | Blocked n e k => ∃ b', (n + 2 + b' ≤ b)%nat ∧ ∀ r, spends b' (k r)
  | Ready e r k => ∃ b', (1 + b' ≤ b)%nat ∧ spends b' (k r)
  end.

Lemma spends_mono {S E A} b b' (p : prog S E A) : (b ≤ b')%nat → spends b p → spends b' p.
Proof.
  revert b b'. induction p as [a|B m k IH|R n e k IH]; intros b b' Hb; [done|..]; cbn [spends].
  - intros Hk x. by eapply IH.
  - intros (b1 & Hle & Hk). exists b1. split; [lia|done].
Qed.

Lemma spends_bind {S E A B} b1 b2 (p : prog S E A) (f : A → prog S E B) :
  spends b1 p → (∀ a, spends b2 (f a)) → spends (b1 + b2) (p ≫= f).
Proof.
  intros Hp Hf. revert b1 Hp. induction p as [a|C m k IH|R n e k IH]; intros b1 Hp; cbn [spends mbind prog_bind] in *.
  - eapply spends_mono, Hf. lia.
  - intros x. by apply IH.
  - destruct Hp as (b' & Hle & Hk). exists (b' + b2)%nat. split; [lia|]. intros r. by apply IH.
Qed.

Lemma spends_run {S E A} b (p : prog S E A) s t s' :
  spends b p → run p s = (Ok t, s') → thread_spends b t.
Proof.
  revert s. induction p as [a|B m k IH|R n e k _]; intros s Hp; cbn [run].
  - by intros [= <- _].
  - intros (x & s1 & _ & Hr)%bind_Ok_inv. by eapply IH.
  - by intros [= <- _].
Qed.
