(* ===== verification/TigerBeetle.v ===== *)
(** * The TigerBeetle client as an interface

    TigerBeetle and its Go client are not part of the repository.  The ledger
    package reaches them through four calls, the operations of the class
    [TigerBeetle]; the state behind the client is abstract.  [TigerBeetleLaws]
    names the documented behaviour that the ledger and accounting code relies
    on (events of a request are executed in order and independently of each
    other, a committed transfer ID is never committed again, balances move by
    the amount of the transfer, [debits_must_not_exceed_credits]).  The
    theorems of the other files are proved against this interface; the file
    [TBRef] instantiates it. *)

From S2P Require Import Prelude.

(** [types.Uint128] is a 16-byte array; numbers are stored little-endian. *)
Abbreviation Uint128 := bytes16 (only parsing).

Definition u128_val (v : Uint128) : Z := le_combine (vec_to_list v).

Record TransferFlags := {
  Pending : bool;
  VoidPendingTransfer : bool;
}.

(** [types.Transfer], with the fields the ledger package sets. *)
Record Transfer := {
  tr_ID : Uint128;
  tr_DebitAccountID : Uint128;
  tr_CreditAccountID : Uint128;
  tr_Amount : Uint128;
  tr_PendingID : Uint128;
  tr_UserData128 : Uint128;
  tr_UserData64 : Z;
  tr_Ledger : Z;
  tr_Code : Z;
  tr_Flags : TransferFlags;
}.

Record AccountFlags := {
  DebitsMustNotExceedCredits : bool;
  History : bool;
}.

(** [types.Account]. *)
Record Account := {
  ac_ID : Uint128;
  ac_DebitsPending : Uint128;
  ac_DebitsPosted : Uint128;
  ac_CreditsPending : Uint128;
  ac_CreditsPosted : Uint128;
  ac_UserData128 : Uint128;
  ac_Ledger : Z;
  ac_Code : Z;
  ac_Flags : AccountFlags;
}.

(** Result codes: the ones the code names, and the rest by number. *)
Inductive CreateTransferResult :=
  | TransferExceedsCredits
  | TransferExists
  | TransferExistsWithDifferentDebitAccountID
  | TransferExistsWithDifferentCreditAccountID
  | TransferExistsWithDifferentAmount
  | TransferPendingTransferNotFound
  | TransferPendingTransferAlreadyVoided
  | TransferPendingTransferAlreadyPosted
  | TransferOther (code : Z).

Inductive CreateAccountResult :=
  | AccountOK
  | AccountExists
  | AccountOther (code : Z).

#[export] Instance TransferFlags_eq_dec : EqDecision TransferFlags.
Proof. solve_decision. Defined.
#[export] Instance AccountFlags_eq_dec : EqDecision AccountFlags.
Proof. solve_decision. Defined.
#[export] Instance Transfer_eq_dec : EqDecision Transfer.
Proof. solve_decision. Defined.
#[export] Instance CreateTransferResult_eq_dec : EqDecision CreateTransferResult.
Proof. solve_decision. Defined.
#[export] Instance CreateAccountResult_eq_dec : EqDecision CreateAccountResult.
Proof. solve_decision. Defined.

(** [r.Result] of an entry of the result slice, with [r.Index]. *)
Abbreviation EventResult R := (nat * R)%type (only parsing).

(** The client calls, [types.ToUint128] and the ID generator [types.ID] (its
    [n]-th answer). *)
Class TigerBeetle := {
  TBState : Type;
  CreateAccounts : list Account → M TBState (list (EventResult CreateAccountResult));
  CreateTransfers : list Transfer → M TBState (list (EventResult CreateTransferResult));
  LookupAccounts : list Uint128 → M TBState (list Account);
  ToUint128 : Z → Uint128;
  types_ID : nat → Uint128;
}.

(** ** Documented behaviour *)

Lemma u128_val_range v : 0 ≤ u128_val v < 2 ^ 128.
Proof.
  unfold u128_val. pose proof (le_combine_range (vec_to_list v)) as H.
  rewrite length_vec_to_list in H. exact H.
Qed.

(** The four balances of an account, as numbers. *)
Record Balance := {
  debits_pending : Z;
  debits_posted : Z;
  credits_pending : Z;
  credits_posted : Z;
}.

Definition balance_of (a : Account) : Balance := {|
  debits_pending := u128_val (ac_DebitsPending a);
  debits_posted := u128_val (ac_DebitsPosted a);
  credits_pending := u128_val (ac_CreditsPending a);
  credits_posted := u128_val (ac_CreditsPosted a);
|}.

(** What a committed transfer does to the balances of account [id]; [pend] is
    the pending transfer that a void refers to. *)
Definition transfer_effect (pend : option Transfer) (t : Transfer)
    (id : Uint128) (b : Balance) : Balance :=
  let debit (p : Transfer) := bool_decide (id = tr_DebitAccountID p) in
  let credit (p : Transfer) := bool_decide (id = tr_CreditAccountID p) in
  let amount (p : Transfer) (side : bool) :=
    if side then u128_val (tr_Amount p) else 0 in
  if VoidPendingTransfer (tr_Flags t) then
    match pend with
    | Some p => {| b with
        debits_pending := debits_pending b - amount p (debit p);
        credits_pending := credits_pending b - amount p (credit p) |}
    | None => b
    end
  else if Pending (tr_Flags t) then {| b with
      debits_pending := debits_pending b + amount t (debit t);
      credits_pending := credits_pending b + amount t (credit t) |}
  else {| b with
      debits_posted := debits_posted b + amount t (debit t);
      credits_posted := credits_posted b + amount t (credit t) |}.

(** The fields of an account that never change. *)
Definition static_of (a : Account) : Uint128 * Z * Z * AccountFlags :=
  (ac_ID a, ac_Ledger a, ac_Code a, ac_Flags a).

(** A request: its events in order, the failures reported by index. *)
Fixpoint run_events {S E R} (step : E → S → option R * S) (i : nat)
    (es : list E) (s : S) : list (nat * R) * S :=
  match es with
  | [] => ([], s)
  | e :: es =>
      let '(r, s1) := step e s in
      let '(rs, s2) := run_events step (Datatypes.S i) es s1 in
      (match r with Some r => (i, r) :: rs | None => rs end, s2)
  end.

(** The answers that report an ID as taken, among those the code names. *)
Definition exists_results : list CreateTransferResult :=
  [TransferExists; TransferExistsWithDifferentDebitAccountID;
   TransferExistsWithDifferentCreditAccountID; TransferExistsWithDifferentAmount].

Class TigerBeetleLaws (TB : TigerBeetle) := {
  (** A [uint64] survives the conversion to 128 bits. *)
  ToUint128_val z : in_u64 z → u128_val (ToUint128 z) = z;

  (** Observations of the state: committed transfers and accounts. *)
  transfer_at : TBState → Uint128 → option Transfer;
  account_at : TBState → Uint128 → option Account;

  (** One event, and a request as the sequence of its events.  A request that
      fails at the client was either not executed or executed in full. *)
  create_transfer : Transfer → TBState → option CreateTransferResult * TBState;
  CreateTransfers_ok ts s rs s' :
    CreateTransfers ts s = (Ok rs, s') → run_events create_transfer 0 ts s = (rs, s');
  CreateTransfers_err ts s e s' :
    CreateTransfers ts s = (Err e, s') →
    s' = s ∨ s' = (run_events create_transfer 0 ts s).2;
  CreateTransfers_no_panic ts s p s' : CreateTransfers ts s ≠ (Panic p, s');

  (** A committed event: the ID was free and is now taken by this transfer;
      balances move by its effect, under the limit of the debit account. *)
  create_transfer_fresh t s s' :
    create_transfer t s = (None, s') → transfer_at s (tr_ID t) = None;
  create_transfer_commits t s s' id :
    create_transfer t s = (None, s') →
    transfer_at s' id = if decide (id = tr_ID t) then Some t else transfer_at s id;
  create_transfer_moves t s s' id :
    create_transfer t s = (None, s') →
    balance_of <$> account_at s' id =
    transfer_effect (transfer_at s (tr_PendingID t)) t id <$>
      (balance_of <$> account_at s id);
  create_transfer_limit t s s' a :
    create_transfer t s = (None, s') →
    VoidPendingTransfer (tr_Flags t) = false →
    account_at s (tr_DebitAccountID t) = Some a →
    DebitsMustNotExceedCredits (ac_Flags a) = true →
    debits_pending (balance_of a) + debits_posted (balance_of a)
      + u128_val (tr_Amount t) ≤ credits_posted (balance_of a);
  create_transfer_void t s s' :
    create_transfer t s = (None, s') →
    VoidPendingTransfer (tr_Flags t) = true →
    ∃ p, transfer_at s (tr_PendingID t) = Some p ∧ Pending (tr_Flags p) = true;

  (** A rejected event commits nothing; on a taken ID the state is untouched,
      and the very same transfer is answered with [TransferExists]. *)
  create_transfer_rejected t s r s' id :
    create_transfer t s = (Some r, s') →
    transfer_at s' id = transfer_at s id ∧ account_at s' id = account_at s id;
  create_transfer_taken t s t' :
    transfer_at s (tr_ID t) = Some t' → ∃ r, create_transfer t s = (Some r, s);
  create_transfer_exists t s :
    transfer_at s (tr_ID t) = Some t →
    create_transfer t s = (Some TransferExists, s);
  create_transfer_exists_taken t s r s' :
    create_transfer t s = (Some r, s') →
    r ∈ exists_results →
    is_Some (transfer_at s (tr_ID t));
  create_transfer_exceeds t s s' :
    create_transfer t s = (Some TransferExceedsCredits, s') →
    ∃ a, account_at s (tr_DebitAccountID t) = Some a ∧
         DebitsMustNotExceedCredits (ac_Flags a) = true ∧
         credits_posted (balance_of a) <
           debits_pending (balance_of a) + debits_posted (balance_of a)
           + u128_val (tr_Amount t);
  create_transfer_static t s r s' id :
    create_transfer t s = (r, s') →
    static_of <$> account_at s' id = static_of <$> account_at s id;

  (** Account creation: the same request discipline; a new account takes a
      free ID with the fields it was given, a rejected one changes nothing. *)
  create_account : Account → TBState → option CreateAccountResult * TBState;
  CreateAccounts_ok cs s rs s' :
    CreateAccounts cs s = (Ok rs, s') → run_events create_account 0 cs s = (rs, s');
  CreateAccounts_err cs s e s' :
    CreateAccounts cs s = (Err e, s') →
    s' = s ∨ s' = (run_events create_account 0 cs s).2;
  CreateAccounts_no_panic cs s p s' : CreateAccounts cs s ≠ (Panic p, s');
  create_account_commits a s s' id :
    create_account a s = (None, s') →
    account_at s (ac_ID a) = None ∧
    account_at s' id = (if decide (id = ac_ID a) then Some a else account_at s id) ∧
    transfer_at s' id = transfer_at s id;
  create_account_rejected a s r s' id :
    create_account a s = (Some r, s') →
    account_at s' id = account_at s id ∧ transfer_at s' id = transfer_at s id;
  create_account_reports a s r s' : create_account a s = (Some r, s') → r ≠ AccountOK;
  create_account_exists a s s' :
    create_account a s = (Some AccountExists, s') →
    static_of <$> account_at s (ac_ID a) = Some (static_of a);

  (** Accounts are found by ID, in the order asked for, missing ones skipped;
      lookups do not write. *)
  LookupAccounts_ok ids s r s' :
    LookupAccounts ids s = (r, s') →
    s' = s ∧ ∀ l, r = Ok l → l = omap (account_at s) ids;
  account_at_ID s id a : account_at s id = Some a → ac_ID a = id;
}.

(** ** Consequences used by the clients *)

(** The answers to the events of a request, one per event. *)
Fixpoint event_outcomes {S E R} (step : E → S → option R * S) (es : list E) (s : S)
    : list (option R) :=
  match es with
  | [] => []
  | e :: es => let '(r, s1) := step e s in r :: event_outcomes step es s1
  end.

(** The events of a request that were committed, in order. *)
Fixpoint committed {S E R} (step : E → S → option R * S) (es : list E) (s : S) : list E :=
  match es with
  | [] => []
  | e :: es =>
      let '(r, s1) := step e s in
      match r with
      | None => e :: committed step es s1
      | Some _ => committed step es s1
      end
  end.

Definition final_state {S E R} (step : E → S → option R * S) (es : list E) (s : S) : S :=
  (run_events step 0 es s).2.

Section events.
Context {S E R : Type} (step : E → S → option R * S).

Lemma event_outcomes_length es s : length (event_outcomes step es s) = length es.
Proof.
  revert s. induction es as [|e es IH]; intros s; simpl; [done|].
  destruct (step e s) as [r s1]. simpl. by rewrite IH.
Qed.

Lemma run_events_state i j es s : (run_events step i es s).2 = (run_events step j es s).2.
Proof.
  revert i j s. induction es as [|e es IH]; intros i j s; simpl; [done|].
  destruct (step e s) as [r s1]. specialize (IH (Datatypes.S i) (Datatypes.S j) s1).
  by destruct (run_events step (Datatypes.S i) es s1), (run_events step (Datatypes.S j) es s1).
Qed.

Lemma final_state_cons e es s r s1 :
  step e s = (r, s1) → final_state step (e :: es) s = final_state step es s1.
Proof.
  unfold final_state. simpl. intros ->. rewrite (run_events_state 0 1).
  by destruct (run_events step 1 es s1).
Qed.

Lemma final_state_app es1 es2 s :
  final_state step (es1 ++ es2) s = final_state step es2 (final_state step es1 s).
Proof.
  revert s. induction es1 as [|e es1 IH]; intros s; [done|]. simpl app.
  destruct (step e s) as [r s1] eqn:E1.
  by rewrite !(final_state_cons e _ s r s1).
Qed.

Lemma committed_app es1 es2 s :
  committed step (es1 ++ es2) s =
  committed step es1 s ++ committed step es2 (final_state step es1 s).
Proof.
  revert s. induction es1 as [|e es1 IH]; intros s; [done|]. simpl.
  destruct (step e s) as [r s1] eqn:E1.
  rewrite (final_state_cons e es1 s r s1 E1), IH. by destruct r.
Qed.

Lemma committed_sublist es s : committed step es s `sublist_of` es.
Proof.
  revert s. induction es as [|e es IH]; intros s; simpl; [done|].
  destruct (step e s) as [[r|] s1]; by constructor.
Qed.

(** The reported failures are exactly the events with an answer, by index. *)
Lemma run_events_elem i es s rs s' j r :
  run_events step i es s = (rs, s') →
  (j, r) ∈ rs ↔ (i ≤ j)%nat ∧ event_outcomes step es s !! (j - i)%nat = Some (Some r).
Proof.
  revert i s rs s'. induction es as [|e es IH]; intros i s rs s' H; simpl in H.
  { inv H. simpl. rewrite elem_of_nil. naive_solver. }
  simpl. destruct (step e s) as [r0 s1] eqn:E1.
  destruct (run_events step (Datatypes.S i) es s1) as [rs1 s2] eqn:E2.
  specialize (IH _ _ _ _ E2). inv H.
  assert ((j, r) ∈ rs1 ↔ (i < j)%nat ∧
    (r0 :: event_outcomes step es s1) !! (j - i)%nat = Some (Some r)) as HIH.
  { rewrite IH. split; intros [Hle Hl].
    - split; [lia|]. by replace (j - i)%nat with (Datatypes.S (j - Datatypes.S i))%nat by lia.
    - split; [lia|]. by replace (j - i)%nat with (Datatypes.S (j - Datatypes.S i))%nat in Hl by lia. }
  destruct (decide (j = i)) as [->|Hne].
  - rewrite Nat.sub_diag. simpl. destruct r0 as [r1|].
    + rewrite elem_of_cons, HIH. split; [|naive_solver lia].
      intros [|[? _]]; [naive_solver|lia].
    + rewrite HIH. split; [lia|naive_solver].
  - assert ((i ≤ j)%nat ↔ (i < j)%nat) as -> by lia.
    destruct r0 as [r1|]; [rewrite elem_of_cons|]; rewrite HIH; naive_solver lia.
Qed.

Lemma run_events_index i es s rs s' j r :
  run_events step i es s = (rs, s') → (j, r) ∈ rs → (i ≤ j < i + length es)%nat.
Proof.
  intros H Hin. apply (run_events_elem _ _ _ _ _ _ _ H) in Hin as [Hle Hl%lookup_lt_Some].
  rewrite event_outcomes_length in Hl. lia.
Qed.
End events.

(** What a committed transfer adds to one balance of account [id]. *)
Definition adds_debits_posted (id : Uint128) (t : Transfer) : Z :=
  if VoidPendingTransfer (tr_Flags t) || Pending (tr_Flags t) then 0
  else if decide (id = tr_DebitAccountID t) then u128_val (tr_Amount t) else 0.

Definition adds_credits_posted (id : Uint128) (t : Transfer) : Z :=
  if VoidPendingTransfer (tr_Flags t) || Pending (tr_Flags t) then 0
  else if decide (id = tr_CreditAccountID t) then u128_val (tr_Amount t) else 0.

Definition adds_debits_pending (pend : Uint128 → option Transfer) (id : Uint128)
    (t : Transfer) : Z :=
  if VoidPendingTransfer (tr_Flags t) then
    match pend (tr_PendingID t) with
    | Some p => if decide (id = tr_DebitAccountID p) then - u128_val (tr_Amount p) else 0
    | None => 0
    end
  else if Pending (tr_Flags t)
  then if decide (id = tr_DebitAccountID t) then u128_val (tr_Amount t) else 0
  else 0.

Definition sum_Z {A} (f : A → Z) (l : list A) : Z := foldr (λ x n, f x + n) 0 l.

#[global] Arguments sum_Z : simpl never.
#[global] Arguments balance_of : simpl never.

Lemma sum_Z_nil {A} (f : A → Z) : sum_Z f [] = 0.
Proof. done. Qed.

Lemma sum_Z_cons {A} (f : A → Z) x l : sum_Z f (x :: l) = f x + sum_Z f l.
Proof. done. Qed.

Lemma sum_Z_app {A} (f : A → Z) l1 l2 : sum_Z f (l1 ++ l2) = sum_Z f l1 + sum_Z f l2.
Proof. induction l1 as [|x l1 IH]; simpl; rewrite ?sum_Z_nil, ?sum_Z_cons; lia. Qed.

Lemma sum_Z_ext {A} (f g : A → Z) l : (∀ x, x ∈ l → f x = g x) → sum_Z f l = sum_Z g l.
Proof.
  induction l as [|x l IH]; intros H; [done|].
  rewrite !sum_Z_cons, H, IH; [done| |left]. intros. apply H. by right.
Qed.

Lemma sum_Z_nonneg {A} (f : A → Z) l : (∀ x, x ∈ l → 0 ≤ f x) → 0 ≤ sum_Z f l.
Proof.
  induction l as [|x l IH]; intros H; [done|]. rewrite sum_Z_cons.
  specialize (H x ltac:(left)) as Hx. cut (0 ≤ sum_Z f l); [lia|].
  apply IH. intros. apply H. by right.
Qed.

Section requests.
Context `{TL : TigerBeetleLaws}.
Implicit Types (t : Transfer) (ts : list Transfer) (s : TBState).

Lemma final_transfer_at ts s id t :
  transfer_at s id = Some t → transfer_at (final_state create_transfer ts s) id = Some t.
Proof.
  revert s. induction ts as [|t1 ts IH]; intros s H; [done|].
  destruct (create_transfer t1 s) as [[r|] s1] eqn:E1;
    rewrite (final_state_cons _ _ _ _ _ _ E1); apply IH.
  - by destruct (create_transfer_rejected _ _ _ _ id E1) as [-> _].
  - rewrite (create_transfer_commits _ _ _ id E1). case_decide as Hid; [|done]. subst.
    by rewrite (create_transfer_fresh _ _ _ E1) in H.
Qed.

(** A committed transfer took a free ID and is found under it afterwards. *)
Lemma committed_at ts s t :
  t ∈ committed create_transfer ts s →
  transfer_at s (tr_ID t) = None ∧
  transfer_at (final_state create_transfer ts s) (tr_ID t) = Some t.
Proof.
  revert s. induction ts as [|t1 ts IH]; intros s; simpl; [by intros ?%elem_of_nil|].
  destruct (create_transfer t1 s) as [[r|] s1] eqn:E1;
    rewrite (final_state_cons _ _ _ _ _ _ E1); intros H.
  - destruct (IH s1 H) as [Hn Hs]. split; [|done].
    by destruct (create_transfer_rejected _ _ _ _ (tr_ID t) E1) as [<- _].
  - apply elem_of_cons in H as [->|H].
    + split; [by eapply create_transfer_fresh|]. apply final_transfer_at.
      rewrite (create_transfer_commits _ _ _ _ E1). by rewrite decide_True.
    + destruct (IH s1 H) as [Hn Hs]. split; [|done].
      rewrite (create_transfer_commits _ _ _ _ E1) in Hn. by case_decide.
Qed.

(** No ID is committed twice, whatever the requests contain. *)
Lemma committed_NoDup ts s : NoDup (tr_ID <$> committed create_transfer ts s).
Proof.
  revert s. induction ts as [|t1 ts IH]; intros s; simpl; [constructor|].
  destruct (create_transfer t1 s) as [[r|] s1] eqn:E1; [done|]. simpl.
  constructor; [|done]. intros (t & Hid & Ht)%list_elem_of_fmap.
  destruct (committed_at _ _ _ Ht) as [Hn _].
  rewrite (create_transfer_commits _ _ _ _ E1), decide_True in Hn; done.
Qed.

Lemma final_static ts s id :
  static_of <$> account_at (final_state create_transfer ts s) id =
  static_of <$> account_at s id.
Proof.
  revert s. induction ts as [|t1 ts IH]; intros s; [done|].
  destruct (create_transfer t1 s) as [r s1] eqn:E1.
  rewrite (final_state_cons _ _ _ _ _ _ E1), IH. by eapply create_transfer_static.
Qed.

Lemma effect_adds pend t id b :
  let b' := transfer_effect (pend (tr_PendingID t)) t id b in
  debits_posted b' = debits_posted b + adds_debits_posted id t ∧
  credits_posted b' = credits_posted b + adds_credits_posted id t ∧
  debits_pending b' = debits_pending b + adds_debits_pending pend id t.
Proof.
  unfold transfer_effect, adds_debits_posted, adds_credits_posted, adds_debits_pending.
  destruct (VoidPendingTransfer _); simpl.
  - destruct (pend _) as [p|]; simpl; repeat case_decide; repeat case_bool_decide; try congruence; lia.
  - destruct (Pending _); simpl; repeat case_decide; repeat case_bool_decide; try congruence; lia.
Qed.

(** The balances after a request: the sums of the committed transfers. *)
Lemma final_balance ts s id a :
  account_at s id = Some a →
  ∃ a', account_at (final_state create_transfer ts s) id = Some a' ∧
    let cs := committed create_transfer ts s in
    let pend := transfer_at (final_state create_transfer ts s) in
    debits_posted (balance_of a') =
      debits_posted (balance_of a) + sum_Z (adds_debits_posted id) cs ∧
    credits_posted (balance_of a') =
      credits_posted (balance_of a) + sum_Z (adds_credits_posted id) cs ∧
    debits_pending (balance_of a') =
      debits_pending (balance_of a) + sum_Z (adds_debits_pending pend id) cs.
Proof.
  revert s a. induction ts as [|t1 ts IH]; intros s a Ha.
  { exists a. split; [done|]. cbn [committed]. rewrite !sum_Z_nil. lia. }
  cbn [committed]. destruct (create_transfer t1 s) as [[r|] s1] eqn:E1;
    rewrite (final_state_cons _ _ _ _ _ _ E1).
  - apply IH. by destruct (create_transfer_rejected _ _ _ _ id E1) as [_ ->].
  - pose proof (create_transfer_moves _ _ _ id E1) as Hm. rewrite Ha in Hm. simpl in Hm.
    destruct (account_at s1 id) as [a1|] eqn:Ea1; [|done]. simpl in Hm.
    destruct (IH s1 a1 Ea1) as (a' & Ha' & Hd & Hc & Hp).
    exists a'. split; [done|]. cbv zeta in *. rewrite !sum_Z_cons.
    destruct (effect_adds (transfer_at s) t1 id (balance_of a)) as (Ed & Ec & Ep).
    replace (transfer_effect _ _ _ _) with (balance_of a1) in Ed, Ec, Ep by congruence.
    cut (adds_debits_pending (transfer_at s) id t1 =
         adds_debits_pending (transfer_at (final_state create_transfer ts s1)) id t1);
      [intros Heq; rewrite <- Heq; lia|].
    unfold adds_debits_pending. destruct (VoidPendingTransfer (tr_Flags t1)) eqn:Ev; [|done].
    destruct (create_transfer_void _ _ _ E1 Ev) as (p & Hpd & _).
    rewrite Hpd, (final_transfer_at ts s1 (tr_PendingID t1) p); [done|].
    rewrite (create_transfer_commits _ _ _ _ E1). case_decide as Hid; [|done].
    by rewrite Hid, (create_transfer_fresh _ _ _ E1) in Hpd.
Qed.

(** A request whose transfers are all committed already changes nothing. *)
Lemma final_state_taken ts s :
  (∀ t, t ∈ ts → is_Some (transfer_at s (tr_ID t))) →
  final_state create_transfer ts s = s.
Proof.
  induction ts as [|t1 ts IH]; intros H; [done|].
  destruct (H t1 ltac:(left)) as [t' Ht'].
  destruct (create_transfer_taken _ _ _ Ht') as [r E1].
  rewrite (final_state_cons _ _ _ _ _ _ E1). apply IH. intros. apply H. by right.
Qed.

Lemma outcomes_exists ts s :
  (∀ t, t ∈ ts → transfer_at s (tr_ID t) = Some t) →
  event_outcomes create_transfer ts s = replicate (length ts) (Some TransferExists).
Proof.
  induction ts as [|t1 ts IH]; intros H; simpl; [done|].
  rewrite (create_transfer_exists t1 s) by (apply H; left). f_equal. apply IH.
  intros. apply H. by right.
Qed.

(** After a request, a transfer that was committed or found to exist is
    under its ID. *)
Lemma outcome_taken ts s i t o :
  ts !! i = Some t → event_outcomes create_transfer ts s !! i = Some o →
  (o = None → transfer_at (final_state create_transfer ts s) (tr_ID t) = Some t) ∧
  ((∀ r, o = Some r → r ∈ exists_results) →
   is_Some (transfer_at (final_state create_transfer ts s) (tr_ID t))).
Proof.
  revert s i. induction ts as [|t1 ts IH]; intros s i Ht Ho; [done|].
  simpl in Ho. destruct (create_transfer t1 s) as [r s1] eqn:E1.
  rewrite (final_state_cons _ _ _ _ _ _ E1).
  destruct i as [|i]; [|by eapply IH]. simpl in Ht, Ho. simplify_eq.
  assert (∀ t', transfer_at s1 (tr_ID t) = Some t' →
    transfer_at (final_state create_transfer ts s1) (tr_ID t) = Some t') as Hp
    by (intros; by apply final_transfer_at).
  destruct o as [r|].
  - split; [done|]. intros Hr.
    destruct (create_transfer_exists_taken _ _ _ _ E1 (Hr r eq_refl)) as [t' Ht'].
    exists t'. apply Hp. by destruct (create_transfer_rejected _ _ _ _ (tr_ID t) E1) as [-> _].
  - assert (transfer_at s1 (tr_ID t) = Some t) as H1
      by (rewrite (create_transfer_commits _ _ _ _ E1); by rewrite decide_True).
    eauto.
Qed.

(** The state in which an event of a request was executed. *)
Lemma event_outcome_at ts s i t o :
  ts !! i = Some t → event_outcomes create_transfer ts s !! i = Some o →
  ∃ si, (create_transfer t si).1 = o.
Proof.
  revert s i. induction ts as [|t1 ts IH]; intros s i Ht Ho; [done|].
  simpl in Ho. destruct (create_transfer t1 s) as [r s1] eqn:E1.
  destruct i as [|i]; simpl in Ht, Ho; simplify_eq; [|by eapply IH].
  exists s. by rewrite E1.
Qed.

(** A transfer is only refused for lack of credits on a limited account. *)
Lemma outcome_exceeds ts s i t :
  ts !! i = Some t →
  event_outcomes create_transfer ts s !! i = Some (Some TransferExceedsCredits) →
  ∃ a, account_at s (tr_DebitAccountID t) = Some a ∧
       DebitsMustNotExceedCredits (ac_Flags a) = true.
Proof.
  revert s i. induction ts as [|t1 ts IH]; intros s i Ht Ho; [done|].
  simpl in Ho. destruct (create_transfer t1 s) as [r s1] eqn:E1.
  destruct i as [|i]; simpl in Ht, Ho; simplify_eq.
  - destruct (create_transfer_exceeds _ _ _ E1) as (a & Ha & Hf & _). eauto.
  - destruct (IH s1 i Ht Ho) as (a & Ha & Hf).
    pose proof (create_transfer_static _ _ _ _ (tr_DebitAccountID t) E1) as Hs.
    rewrite Ha in Hs. destruct (account_at s _) as [a'|] eqn:Ha'; [|done].
    exists a'. split; [done|]. unfold static_of in Hs. simpl in Hs. congruence.
Qed.

(** Where a new transfer of the ledger comes from. *)
Lemma final_transfer_new ts s id t :
  transfer_at s id = None → transfer_at (final_state create_transfer ts s) id = Some t →
  t ∈ ts ∧ tr_ID t = id.
Proof.
  revert s. induction ts as [|t1 ts IH]; intros s Hn Hf.
  { unfold final_state in Hf. simpl in Hf. congruence. }
  destruct (create_transfer t1 s) as [r s1] eqn:E1.
  rewrite (final_state_cons _ _ _ _ _ _ E1) in Hf.
  destruct (transfer_at s1 id) as [t'|] eqn:Ht'.
  - assert (t' = t) as -> by (apply (final_transfer_at ts) in Ht'; congruence).
    destruct r as [r|].
    + destruct (create_transfer_rejected _ _ _ _ id E1) as [Heq _]. congruence.
    + rewrite (create_transfer_commits _ _ _ id E1) in Ht'. case_decide; [|congruence].
      simplify_eq. split; [left|done].
  - destruct (IH s1 Ht' Hf). split; [by right|done].
Qed.

(** The sum over the committed events, by the answers. *)
Lemma sum_committed (f : Transfer → Z) ts s :
  sum_Z f (committed create_transfer ts s) =
  sum_Z (λ '(t, o), match o with None => f t | Some _ => 0 end)
    (zip ts (event_outcomes create_transfer ts s)).
Proof.
  revert s. induction ts as [|t1 ts IH]; intros s; [done|]. cbn [committed event_outcomes].
  destruct (create_transfer t1 s) as [[r|] s1] eqn:E1; cbn [zip zip_with];
    rewrite !sum_Z_cons, IH; lia.
Qed.

(** The limit of an account with [debits_must_not_exceed_credits]. *)
Definition within_limit s id : Prop :=
  ∀ a, account_at s id = Some a → DebitsMustNotExceedCredits (ac_Flags a) = true →
    debits_pending (balance_of a) + debits_posted (balance_of a) ≤ credits_posted (balance_of a).

Lemma within_limit_step t s r s' id :
  create_transfer t s = (r, s') → within_limit s id → within_limit s' id.
Proof.
  intros E1 Hw a' Ha' Hf. destruct r as [r|].
  { destruct (create_transfer_rejected _ _ _ _ id E1) as [_ Heq]. rewrite Heq in Ha'. by apply Hw. }
  pose proof (create_transfer_static _ _ _ _ id E1) as Hs.
  pose proof (create_transfer_moves _ _ _ id E1) as Hm. rewrite Ha' in Hs, Hm.
  destruct (account_at s id) as [a|] eqn:Ha; [|done]. simpl in Hs, Hm.
  assert (ac_Flags a = ac_Flags a') as Hfl by (unfold static_of in Hs; congruence).
  specialize (Hw a Ha ltac:(congruence)). injection Hm as ->.
  unfold transfer_effect. destruct (VoidPendingTransfer (tr_Flags t)) eqn:Ev.
  - destruct (transfer_at s (tr_PendingID t)) as [p|]; [|done]. cbn.
    pose proof (u128_val_range (tr_Amount p)). repeat case_bool_decide; lia.
  - pose proof (u128_val_range (tr_Amount t)).
    destruct (decide (id = tr_DebitAccountID t)) as [->|Hne].
    + pose proof (create_transfer_limit _ _ _ a E1 Ev Ha ltac:(congruence)).
      rewrite (bool_decide_eq_true_2 (tr_DebitAccountID t = tr_DebitAccountID t)) by done.
      destruct (Pending _); cbn; repeat case_bool_decide; lia.
    + rewrite (bool_decide_eq_false_2 (id = tr_DebitAccountID t)) by done.
      destruct (Pending _); cbn; repeat case_bool_decide; lia.
Qed.

Lemma within_limit_final ts s id :
  within_limit s id → within_limit (final_state create_transfer ts s) id.
Proof.
  revert s. induction ts as [|t1 ts IH]; intros s Hw; [done|].
  destruct (create_transfer t1 s) as [r s1] eqn:E1.
  rewrite (final_state_cons _ _ _ _ _ _ E1). apply IH. by eapply within_limit_step.
Qed.

(** If every event was answered with success, all of them were committed. *)
Lemma committed_all ts s :
  (∀ o, o ∈ event_outcomes create_transfer ts s → o = None) →
  committed create_transfer ts s = ts.
Proof.
  revert s. induction ts as [|t1 ts IH]; intros s H; simpl in *; [done|].
  destruct (create_transfer t1 s) as [r s1] eqn:E1.
  rewrite (H r ltac:(left)). f_equal. apply IH. intros o Ho. apply H. by right.
Qed.
End requests.
