(* ===== verification/TBRef.v ===== *)
(** * A reference instance of the TigerBeetle interface

    A small executable ledger that satisfies [TigerBeetleLaws].  It shows that
    the laws can hold together and lets concrete runs be evaluated; nothing in
    the other files depends on how it is written. *)

From S2P Require Import Prelude TigerBeetle.

Record RefState := {
  rs_accounts : gmap Uint128 Account;
  rs_transfers : gmap Uint128 Transfer;
  rs_voided : gset Uint128;
  rs_failed : gset Uint128;
}.

Definition ref_empty : RefState := {|
  rs_accounts := ∅; rs_transfers := ∅; rs_voided := ∅; rs_failed := ∅ |}.

Definition ref_account_at (s : RefState) (id : Uint128) : option Account :=
  a ← rs_accounts s !! id; if decide (ac_ID a = id) then Some a else None.

Definition ref_transfer_at (s : RefState) (id : Uint128) : option Transfer :=
  rs_transfers s !! id.

Definition ref_ToUint128 (z : Z) : Uint128 := copy_bytes 16 (le_split 16 z).

(** Distinct, non-zero IDs for the first 2^64 calls. *)
Definition ref_types_ID (n : nat) : Uint128 :=
  copy_bytes 16 (le_split 8 (Z.of_nat n) ++ [255]).

Definition u128_ok (z : Z) : bool := bool_decide (0 ≤ z < 2 ^ 128).

(** Change the balances of an account, unless a balance leaves its range. *)
Definition ref_move (f : Balance → Balance) (a : Account) : option Account :=
  let b := f (balance_of a) in
  if u128_ok (debits_pending b) && u128_ok (debits_posted b) &&
     u128_ok (credits_pending b) && u128_ok (credits_posted b) then
    Some {| a with
      ac_DebitsPending := ref_ToUint128 (debits_pending b);
      ac_DebitsPosted := ref_ToUint128 (debits_posted b);
      ac_CreditsPending := ref_ToUint128 (credits_pending b);
      ac_CreditsPosted := ref_ToUint128 (credits_posted b) |}
  else None.

(** Commit [t], moving the balances of the accounts of [on]. *)
Definition ref_commit (t on : Transfer) (s : RefState)
    : option CreateTransferResult * RefState :=
  let d := tr_DebitAccountID on in
  let c := tr_CreditAccountID on in
  let pend := ref_transfer_at s (tr_PendingID t) in
  match ref_account_at s d, ref_account_at s c with
  | Some da, Some ca =>
      if decide (d = c) then (Some (TransferOther 12), s) else
      match ref_move (transfer_effect pend t d) da,
            ref_move (transfer_effect pend t c) ca with
      | Some da', Some ca' =>
          (None, {| s with
             rs_accounts := <[c := ca']> (<[d := da']> (rs_accounts s));
             rs_transfers := <[tr_ID t := t]> (rs_transfers s);
             rs_voided := if VoidPendingTransfer (tr_Flags t)
                          then {[tr_PendingID t]} ∪ rs_voided s else rs_voided s |})
      | _, _ => (Some (TransferOther 49), s)
      end
  | _, _ => (Some (TransferOther 21), s)
  end.

Definition ref_compare (t t' : Transfer) : CreateTransferResult :=
  if decide (t = t') then TransferExists
  else if negb (bool_decide (tr_DebitAccountID t = tr_DebitAccountID t'))
  then TransferExistsWithDifferentDebitAccountID
  else if negb (bool_decide (tr_CreditAccountID t = tr_CreditAccountID t'))
  then TransferExistsWithDifferentCreditAccountID
  else if negb (bool_decide (tr_Amount t = tr_Amount t'))
  then TransferExistsWithDifferentAmount
  else TransferOther 45.

Definition ref_exceeds (t : Transfer) (s : RefState) : bool :=
  match ref_account_at s (tr_DebitAccountID t) with
  | Some a =>
      DebitsMustNotExceedCredits (ac_Flags a) &&
      bool_decide (credits_posted (balance_of a) <
        debits_pending (balance_of a) + debits_posted (balance_of a)
        + u128_val (tr_Amount t))
  | None => false
  end.

(** One event.  An ID whose transfer failed for lack of credits stays failed. *)
Definition ref_create_transfer (t : Transfer) (s : RefState)
    : option CreateTransferResult * RefState :=
  match ref_transfer_at s (tr_ID t) with
  | Some t' => (Some (ref_compare t t'), s)
  | None =>
      if decide (tr_ID t ∈ rs_failed s) then (Some (TransferOther 68), s)
      else if decide (tr_ID t = zero16) then (Some (TransferOther 5), s)
      else if VoidPendingTransfer (tr_Flags t) then
        match ref_transfer_at s (tr_PendingID t) with
        | None => (Some TransferPendingTransferNotFound, s)
        | Some p =>
            if negb (Pending (tr_Flags p)) then (Some (TransferOther 26), s)
            else if decide (tr_PendingID t ∈ rs_voided s)
            then (Some TransferPendingTransferAlreadyVoided, s)
            else ref_commit t p s
        end
      else if ref_exceeds t s
      then (Some TransferExceedsCredits,
            {| s with rs_failed := {[tr_ID t]} ∪ rs_failed s |})
      else ref_commit t t s
  end.

Definition ref_create_account (a : Account) (s : RefState)
    : option CreateAccountResult * RefState :=
  match rs_accounts s !! ac_ID a with
  | Some a' => (Some (if decide (static_of a = static_of a') then AccountExists
                      else AccountOther 15), s)
  | None => (None, {| s with rs_accounts := <[ac_ID a := a]> (rs_accounts s) |})
  end.

#[export] Instance RefTB : TigerBeetle := {|
  TBState := RefState;
  CreateAccounts cs s := let '(rs, s') := run_events ref_create_account 0 cs s in (Ok rs, s');
  CreateTransfers ts s := let '(rs, s') := run_events ref_create_transfer 0 ts s in (Ok rs, s');
  LookupAccounts ids s := (Ok (omap (ref_account_at s) ids), s);
  ToUint128 := ref_ToUint128;
  types_ID := ref_types_ID;
|}.

(** ** The laws hold *)

Lemma u128_val_ref z : u128_ok z = true → u128_val (ref_ToUint128 z) = z.
Proof.
  unfold u128_ok, u128_val, ref_ToUint128. intros H%bool_decide_eq_true.
  rewrite copy_bytes_to_list by apply le_split_length.
  rewrite le_combine_split. by apply Z.mod_small.
Qed.

Lemma ref_move_balance f a a' :
  ref_move f a = Some a' →
  balance_of a' = f (balance_of a) ∧ static_of a' = static_of a ∧ ac_ID a' = ac_ID a.
Proof.
  unfold ref_move. generalize (f (balance_of a)). intros b H.
  case_match eqn:E; [|done]. simplify_eq.
  rewrite !andb_true_iff in E. destruct E as [[[E1 E2] E3] E4]. split; [|done].
  unfold balance_of. cbn [ac_DebitsPending ac_DebitsPosted ac_CreditsPending ac_CreditsPosted].
  rewrite !u128_val_ref by done. by destruct b.
Qed.

(** A committed transfer leaves the balances of other accounts alone. *)
Lemma transfer_effect_other pend t id b :
  (if VoidPendingTransfer (tr_Flags t) then
     ∀ p, pend = Some p → id ≠ tr_DebitAccountID p ∧ id ≠ tr_CreditAccountID p
   else id ≠ tr_DebitAccountID t ∧ id ≠ tr_CreditAccountID t) →
  transfer_effect pend t id b = b.
Proof.
  unfold transfer_effect. destruct (VoidPendingTransfer _).
  - destruct pend as [p|]; [|done]. intros H. destruct (H p eq_refl) as [Hd Hc].
    rewrite !bool_decide_eq_false_2 by done. rewrite !Z.sub_0_r. by destruct b.
  - intros [Hd Hc]. rewrite !bool_decide_eq_false_2 by done.
    rewrite !Z.add_0_r. by destruct (Pending _), b.
Qed.

Lemma ref_account_at_Some s id a :
  ref_account_at s id = Some a ↔ rs_accounts s !! id = Some a ∧ ac_ID a = id.
Proof.
  unfold ref_account_at. destruct (rs_accounts s !! id) as [a'|] eqn:E; simpl; [|naive_solver].
  case_decide; naive_solver.
Qed.

(** The state after a commit, as seen through the observations. *)
Lemma ref_commit_spec t on s r s' :
  ref_commit t on s = (r, s') →
  match r with
  | Some x => s' = s ∧ ∃ c, x = TransferOther c
  | None => ∃ da ca da' ca',
      let pend := ref_transfer_at s (tr_PendingID t) in
      let d := tr_DebitAccountID on in
      let c := tr_CreditAccountID on in
      d ≠ c ∧ ref_account_at s d = Some da ∧ ref_account_at s c = Some ca ∧
      ref_move (transfer_effect pend t d) da = Some da' ∧
      ref_move (transfer_effect pend t c) ca = Some ca' ∧
      rs_transfers s' = <[tr_ID t := t]> (rs_transfers s) ∧
      rs_accounts s' = <[c := ca']> (<[d := da']> (rs_accounts s))
  end.
Proof.
  unfold ref_commit. intros H.
  destruct (ref_account_at s _) as [da|] eqn:Ed; [|inv H; eauto].
  destruct (ref_account_at s (tr_CreditAccountID on)) as [ca|] eqn:Ec; [|inv H; eauto].
  case_decide; [inv H; eauto|].
  destruct (ref_move _ da) as [da'|] eqn:Md; [|inv H; eauto].
  destruct (ref_move _ ca) as [ca'|] eqn:Mc; [|inv H; eauto].
  inv H. naive_solver.
Qed.

(** Looking up an account after a commit. *)
Lemma ref_commit_account t on s s' id :
  ref_commit t on s = (None, s') →
  (∀ b, id ≠ tr_DebitAccountID on → id ≠ tr_CreditAccountID on →
     transfer_effect (ref_transfer_at s (tr_PendingID t)) t id b = b) →
  (balance_of <$> ref_account_at s' id =
   transfer_effect (ref_transfer_at s (tr_PendingID t)) t id <$>
     (balance_of <$> ref_account_at s id)) ∧
  static_of <$> ref_account_at s' id = static_of <$> ref_account_at s id.
Proof.
  intros H%ref_commit_spec Hother.
  destruct H as (da & ca & da' & ca' & Hne & Hd & Hc & Md & Mc & _ & Hacc).
  destruct (ref_move_balance _ _ _ Md) as (Bd & Sd & Id).
  destruct (ref_move_balance _ _ _ Mc) as (Bc & Sc & Ic).
  pose proof Hd as [Ld IDd]%ref_account_at_Some.
  pose proof Hc as [Lc IDc]%ref_account_at_Some.
  destruct (decide (id = tr_CreditAccountID on)) as [->|Hnc].
  { assert (ref_account_at s' (tr_CreditAccountID on) = Some ca') as ->.
    { apply ref_account_at_Some. rewrite Hacc, lookup_insert_eq. split; [done|congruence]. }
    rewrite Hc. simpl. by rewrite Bc, Sc. }
  destruct (decide (id = tr_DebitAccountID on)) as [->|Hnd].
  { assert (ref_account_at s' (tr_DebitAccountID on) = Some da') as ->.
    { apply ref_account_at_Some. rewrite Hacc, lookup_insert_ne, lookup_insert_eq by done.
      split; [done|congruence]. }
    rewrite Hd. simpl. by rewrite Bd, Sd. }
  assert (ref_account_at s' id = ref_account_at s id) as ->.
  { unfold ref_account_at. by rewrite Hacc, !lookup_insert_ne. }
  split; [|done]. destruct (ref_account_at s id) as [a|]; [|done]. simpl.
  by rewrite Hother.
Qed.

(** The shape of a committed event. *)
Lemma ref_create_transfer_None t s s' :
  ref_create_transfer t s = (None, s') →
  ref_transfer_at s (tr_ID t) = None ∧
  (if VoidPendingTransfer (tr_Flags t) then
     ∃ p, ref_transfer_at s (tr_PendingID t) = Some p ∧
          Pending (tr_Flags p) = true ∧ ref_commit t p s = (None, s')
   else ref_exceeds t s = false ∧ ref_commit t t s = (None, s')).
Proof.
  unfold ref_create_transfer. intros H.
  destruct (ref_transfer_at s (tr_ID t)) eqn:E1; [done|]. split; [done|].
  case_decide; [done|]. case_decide; [done|].
  destruct (VoidPendingTransfer _) eqn:Ev.
  - destruct (ref_transfer_at s (tr_PendingID t)) as [p|] eqn:Ep; [|done].
    destruct (Pending (tr_Flags p)) eqn:Epp; [|done]. simpl in H.
    case_decide; [done|]. eauto.
  - destruct (ref_exceeds t s) eqn:Ee; [done|]. done.
Qed.

Lemma ref_create_transfer_Some t s r s' :
  ref_create_transfer t s = (Some r, s') →
  rs_transfers s' = rs_transfers s ∧ rs_accounts s' = rs_accounts s ∧
  (r = TransferExceedsCredits →
   ref_exceeds t s = true ∨ is_Some (ref_transfer_at s (tr_ID t))) ∧
  (r ∈ exists_results →
   is_Some (ref_transfer_at s (tr_ID t))).
Proof.
  unfold exists_results. rewrite !elem_of_cons, elem_of_nil.
  unfold ref_create_transfer. intros H.
  destruct (ref_transfer_at s (tr_ID t)) eqn:E1; [inv H; eauto|].
  case_decide; [inv H; naive_solver|]. case_decide; [inv H; naive_solver|].
  destruct (VoidPendingTransfer _) eqn:Ev.
  - destruct (ref_transfer_at s (tr_PendingID t)) as [p|] eqn:Ep; [|inv H; naive_solver].
    destruct (Pending (tr_Flags p)) eqn:Epp; [|inv H; naive_solver]. simpl in H.
    case_decide; [inv H; naive_solver|].
    apply ref_commit_spec in H as [-> Hr]. naive_solver.
  - destruct (ref_exceeds t s) eqn:Ee; [inv H; naive_solver|].
    apply ref_commit_spec in H as [-> Hr]. naive_solver.
Qed.

Lemma ref_moves t s s' id :
  ref_create_transfer t s = (None, s') →
  (balance_of <$> ref_account_at s' id =
   transfer_effect (ref_transfer_at s (tr_PendingID t)) t id <$>
     (balance_of <$> ref_account_at s id)) ∧
  static_of <$> ref_account_at s' id = static_of <$> ref_account_at s id.
Proof.
  intros [_ H]%ref_create_transfer_None.
  destruct (VoidPendingTransfer (tr_Flags t)) eqn:Ev.
  - destruct H as (p & Hp & _ & Hc). eapply ref_commit_account; [done|].
    intros b Hd Hc'. apply transfer_effect_other. rewrite Ev. intros p' Hp'. naive_solver.
  - destruct H as [_ Hc]. eapply ref_commit_account; [done|].
    intros b Hd Hc'. apply transfer_effect_other. by rewrite Ev.
Qed.

Lemma ref_transfers_after t s s' :
  ref_create_transfer t s = (None, s') →
  rs_transfers s' = <[tr_ID t := t]> (rs_transfers s).
Proof.
  intros [_ H]%ref_create_transfer_None. destruct (VoidPendingTransfer _).
  - destruct H as (p & _ & _ & Hc). apply ref_commit_spec in Hc. naive_solver.
  - destruct H as [_ Hc]. apply ref_commit_spec in Hc. naive_solver.
Qed.

#[export] Instance RefTB_laws : TigerBeetleLaws RefTB.
Proof.
  refine {| transfer_at := ref_transfer_at : TBState → _;
            account_at := ref_account_at : TBState → _;
            create_transfer := ref_create_transfer : _ → TBState → _;
            create_account := ref_create_account : _ → TBState → _ |}.
  - intros z Hz. apply u128_val_ref. unfold u128_ok, in_u64 in *. apply bool_decide_eq_true. lia.
  - intros ts s rs s'. simpl. destruct (run_events _ _ _ _). naive_solver.
  - intros ts s e s'. simpl. by destruct (run_events _ _ _ _).
  - intros ts s p s'. simpl. by destruct (run_events _ _ _ _).
  - intros t s s' H. by apply ref_create_transfer_None in H as [? _].
  - intros t s s' id H. unfold ref_transfer_at. rewrite (ref_transfers_after _ _ _ H).
    case_decide as Hd; [subst; apply lookup_insert_eq | by apply lookup_insert_ne].
  - intros t s s' id H. by destruct (ref_moves _ _ _ id H).
  - intros t s s' a [_ H]%ref_create_transfer_None Hv Ha Hf. rewrite Hv in H.
    destruct H as [He _]. unfold ref_exceeds in He. rewrite Ha, Hf, andb_true_l in He.
    apply bool_decide_eq_false in He. lia.
  - intros t s s' [_ H]%ref_create_transfer_None Hv. rewrite Hv in H. naive_solver.
  - intros t s r s' id H%ref_create_transfer_Some. unfold ref_transfer_at, ref_account_at.
    destruct H as (-> & -> & _). done.
  - intros t s t' H. unfold ref_create_transfer. rewrite H. eauto.
  - intros t s H. unfold ref_create_transfer. rewrite H. unfold ref_compare.
    by rewrite decide_True.
  - intros t s r s' H Hr. apply ref_create_transfer_Some in H. naive_solver.
  - intros t s s' H. pose proof H as (_ & _ & Hx & _)%ref_create_transfer_Some.
    destruct (Hx eq_refl) as [He|[t' Ht]].
    + unfold ref_exceeds in He. case_match; [|done]. apply andb_true_iff in He as [? ?%bool_decide_eq_true].
      eauto.
    + unfold ref_create_transfer in H. rewrite Ht in H. inv H.
      unfold ref_compare in *. repeat case_match; congruence.
  - intros t s [r|] s' id H.
    + apply ref_create_transfer_Some in H. unfold ref_account_at.
      destruct H as (_ & -> & _). done.
    + by destruct (ref_moves _ _ _ id H).
  - intros cs s rs s'. simpl. destruct (run_events _ _ _ _). naive_solver.
  - intros cs s e s'. simpl. by destruct (run_events _ _ _ _).
  - intros cs s p s'. simpl. by destruct (run_events _ _ _ _).
  - intros a s s' id. unfold ref_create_account, ref_account_at, ref_transfer_at.
    destruct (rs_accounts s !! ac_ID a) eqn:E; intros H; inv H. split; [done|]. split; [|done].
    cbn [rs_accounts]. destruct (decide (id = ac_ID a)) as [->|Hid].
    + rewrite lookup_insert_eq. simpl. by rewrite decide_True.
    + by rewrite lookup_insert_ne by congruence.
  - intros a s r s' id. unfold ref_create_account.
    destruct (rs_accounts s !! ac_ID a) eqn:E; intros H; by inv H.
  - intros a s r s'. unfold ref_create_account.
    destruct (rs_accounts s !! ac_ID a); intros H; inv H. by case_decide.
  - intros a s s'. unfold ref_create_account, ref_account_at.
    destruct (rs_accounts s !! ac_ID a) as [a'|] eqn:E; intros H; inv H.
    case_decide as Hs; [|done]. simpl. rewrite decide_True by (unfold static_of in Hs; congruence).
    simpl. congruence.
  - intros ids s r s' H. simpl in H. inv H. split; [done|]. naive_solver.
  - intros s id a. rewrite ref_account_at_Some. naive_solver.
Defined.
