(* ===== verification/Ids.v ===== *)
(** * Deterministic transfer IDs (internal/ledger/ids.go)

    The hash function is the package github.com/zeebo/blake3, a parameter of
    the model: [blake3_sum] is the 32-byte digest of everything written to the
    hasher.  What the code itself decides is the byte layout that is hashed,
    and that layout is what the theorems are about: two ID requests, of the
    same or of different kinds, hash the same bytes only when they are the same
    request. *)

From S2P Require Import Prelude Domain TigerBeetle.

Class Blake3 := { blake3_sum : list Z → bytes32 }.

(** [[]byte(s)] *)
Definition str_bytes (s : string) : list Z :=
  (λ a, Z.of_N (Ascii.N_of_ascii a)) <$> String.list_ascii_of_string s.

(** [copy(id[:], b[:16])]; the slice expression needs 16 bytes, which the type
    of [b] provides. *)
Definition bytesToUint128 {n} (b : vec Z (16 + n)) : Uint128 :=
  copy_bytes 16 (take 16 (vec_to_list b)).

Definition UUIDToUint128 (uuid : bytes16) : Uint128 := bytesToUint128 (n := 0) uuid.

Definition Uint128ToBytes (id : Uint128) : bytes16 := id.

Section derive.
Context `{Blake3}.

Definition DeriveTransferID (clusterID : bytes16) (seq : Z) (ledgerID : Z) : Uint128 :=
  let h := [] in
  let h := h ++ vec_to_list clusterID in
  let seqBuf := le_split 8 seq in
  let h := h ++ seqBuf in
  let ledBuf := le_split 4 ledgerID in
  let h := h ++ ledBuf in
  let sum := blake3_sum h in
  bytesToUint128 (n := 16) sum.

Definition DeriveAllocationTransferID (tenantUUID : bytes16) (seqNo : Z) (ledgerID : Z)
    : Uint128 :=
  let h := [] in
  let h := h ++ str_bytes "alloc" in
  let h := h ++ vec_to_list tenantUUID in
  let seqBuf := le_split 8 seqNo in
  let h := h ++ seqBuf in
  let ledBuf := le_split 4 ledgerID in
  let h := h ++ ledBuf in
  let sum := blake3_sum h in
  bytesToUint128 (n := 16) sum.

Definition DeriveGaugePendingID (tenantUUID : bytes16) (seqNo : Z)
    (clusterUUID : bytes16) (ledgerID : Z) : Uint128 :=
  let h := [] in
  let h := h ++ str_bytes "gauge-pending" in
  let h := h ++ vec_to_list tenantUUID in
  let seqBuf := le_split 8 seqNo in
  let h := h ++ seqBuf in
  let h := h ++ vec_to_list clusterUUID in
  let ledBuf := le_split 4 ledgerID in
  let h := h ++ ledBuf in
  let sum := blake3_sum h in
  bytesToUint128 (n := 16) sum.

Definition DeriveGaugeVoidID (tenantUUID : bytes16) (seqNo : Z)
    (clusterUUID : bytes16) (ledgerID : Z) : Uint128 :=
  let h := [] in
  let h := h ++ str_bytes "gauge-void" in
  let h := h ++ vec_to_list tenantUUID in
  let seqBuf := le_split 8 seqNo in
  let h := h ++ seqBuf in
  let h := h ++ vec_to_list clusterUUID in
  let ledBuf := le_split 4 ledgerID in
  let h := h ++ ledBuf in
  let sum := blake3_sum h in
  bytesToUint128 (n := 16) sum.
End derive.

Lemma UUIDToUint128_id u : UUIDToUint128 u = u.
Proof.
  unfold UUIDToUint128, bytesToUint128. rewrite take_ge.
  - apply copy_bytes_vec.
  - rewrite length_vec_to_list. lia.
Qed.
#[export] Hint Rewrite UUIDToUint128_id : credit.

(** ** The layouts as one type of requests *)

Inductive id_request :=
  | UsageID (clusterID : bytes16) (seq ledgerID : Z)
  | AllocationID (tenantUUID : bytes16) (seqNo ledgerID : Z)
  | GaugePendingID (tenantUUID : bytes16) (seqNo : Z) (clusterUUID : bytes16) (ledgerID : Z)
  | GaugeVoidID (tenantUUID : bytes16) (seqNo : Z) (clusterUUID : bytes16) (ledgerID : Z).

Definition derive_id `{Blake3} (r : id_request) : Uint128 :=
  match r with
  | UsageID c s l => DeriveTransferID c s l
  | AllocationID t s l => DeriveAllocationTransferID t s l
  | GaugePendingID t s c l => DeriveGaugePendingID t s c l
  | GaugeVoidID t s c l => DeriveGaugeVoidID t s c l
  end.

(** The numbers fit the widths of the Go parameters. *)
Definition request_wf (r : id_request) : Prop :=
  match r with
  | UsageID _ s l | AllocationID _ s l
  | GaugePendingID _ s _ l | GaugeVoidID _ s _ l => in_u64 s ∧ in_u32 l
  end.

(** The documented layout of each kind. *)
Definition preimage (r : id_request) : list Z :=
  match r with
  | UsageID c s l => vec_to_list c ++ le_split 8 s ++ le_split 4 l
  | AllocationID t s l => str_bytes "alloc" ++ vec_to_list t ++ le_split 8 s ++ le_split 4 l
  | GaugePendingID t s c l =>
      str_bytes "gauge-pending" ++ vec_to_list t ++ le_split 8 s ++ vec_to_list c ++ le_split 4 l
  | GaugeVoidID t s c l =>
      str_bytes "gauge-void" ++ vec_to_list t ++ le_split 8 s ++ vec_to_list c ++ le_split 4 l
  end.

Definition hash16 `{Blake3} (bs : list Z) : Uint128 := bytesToUint128 (n := 16) (blake3_sum bs).

Lemma derive_id_hash `{Blake3} r : derive_id r = hash16 (preimage r).
Proof.
  destruct r; cbv [derive_id hash16 preimage DeriveTransferID DeriveAllocationTransferID
    DeriveGaugePendingID DeriveGaugeVoidID]; by rewrite <- ?app_assoc.
Qed.

(** The four kinds hash inputs of four different lengths. *)
Lemma preimage_length r :
  length (preimage r) =
  match r with
  | UsageID _ _ _ => 28 | AllocationID _ _ _ => 33
  | GaugePendingID _ _ _ _ => 57 | GaugeVoidID _ _ _ _ => 54
  end%nat.
Proof.
  destruct r; unfold preimage;
    rewrite ?length_app, ?length_vec_to_list, ?le_split_length; reflexivity.
Qed.

(** Splits an equation between two layouts into equations between the fields. *)
Ltac split_layout H :=
  repeat (apply app_inj_length in H as [? H];
          [|by rewrite ?length_vec_to_list, ?le_split_length]).

Lemma preimage_inj r1 r2 :
  request_wf r1 → request_wf r2 → preimage r1 = preimage r2 → r1 = r2.
Proof.
  intros W1 W2 H. pose proof (f_equal length H) as HL. rewrite !preimage_length in HL.
  destruct r1, r2; try discriminate HL; clear HL; cbn [preimage request_wf] in W1, W2, H;
    split_layout H; destruct W1 as [S1 L1], W2 as [S2 L2];
    repeat match goal with
    | E : vec_to_list _ = vec_to_list _ |- _ => apply vec_to_list_inj2 in E
    | E : le_split 8 _ = le_split 8 _ |- _ => apply le_split_inj in E; [|done..]
    | E : le_split 4 _ = le_split 4 _ |- _ => apply le_split_inj in E; [|done..]
    end; by subst.
Qed.

(** ** Properties *)

(** C16: the transfer IDs separate what they must separate. If the IDs derived
    for two well-formed requests (usage record, allocation, gauge reservation,
    gauge void, in any combination) are equal, the requests are the same
    request, or the two distinct byte strings that were hashed are a collision
    of the truncated BLAKE3. *)
Theorem derived_ids_separate `{Blake3} : ∀ r1 r2 : id_request,
  request_wf r1 → request_wf r2 → derive_id r1 = derive_id r2 →
  r1 = r2 ∨
  (preimage r1 ≠ preimage r2 ∧ hash16 (preimage r1) = hash16 (preimage r2)).
Proof.
  intros r1 r2 W1 W2 H0. rewrite !derive_id_hash in H0.
  destruct (decide (preimage r1 = preimage r2)) as [E|E].
  - left. by apply preimage_inj.
  - right. done.
Qed.

(** A digest that keeps the last 16 bytes of its input. *)
Definition demo_blake3 : Blake3 :=
  {| blake3_sum bs := copy_bytes 32 (take 16 (reverse bs)) |}.

Lemma derived_ids_separate_witness :
  let B := demo_blake3 in
  UsageID zero16 7 1 = UsageID (copy_bytes 16 []) 7 1 ∨
  (preimage (UsageID zero16 7 1) ≠ preimage (UsageID (copy_bytes 16 []) 7 1) ∧
   hash16 (preimage (UsageID zero16 7 1)) = hash16 (preimage (UsageID (copy_bytes 16 []) 7 1))).
Proof.
  intros B. apply (@derived_ids_separate B).
  - split; [unfold in_u64|unfold in_u32]; lia.
  - split; [unfold in_u64|unfold in_u32]; lia.
  - vm_compute. reflexivity.
Defined.
