(* ===== verification/Transfers.v ===== *)
(** * Ledger client and transfer submission
    (internal/ledger/client.go, ids.go: RandomID, transfers.go)

    The environment of a ledger call is the state behind the TigerBeetle
    client, the number of IDs drawn from [types.ID] and the number of map
    iterations performed (each Go [range] over a map visits it in an order of
    its own). *)

From S2P Require Import Prelude Domain TigerBeetle Ids.

Record Env `{TigerBeetle} := {
  env_tb : TBState;
  env_ids : nat;
  env_seed : nat;
}.
Arguments Env {_}.
Arguments Build_Env {_} _ _ _.

Section client.
Context `{TigerBeetle}.

(** A call through the [Client] wrapper. *)
Definition tb_call {A} (m : M TBState A) : M Env A :=
  zoom env_tb (λ tb e, {| e with env_tb := tb |}) m.

Definition RandomID : M Env Uint128 := λ e,
  (Ok (types_ID (env_ids e)), {| e with env_ids := S (env_ids e) |}).

(** [for k, v := range m] *)
Definition range `{GoRange} {A} (m : gmap string A) : M Env (list (string * A)) := λ e,
  (Ok (range_order (env_seed e) m), {| e with env_seed := S (env_seed e) |}).
End client.

(** ** Data *)

Record TransferResult := {
  res_Resource : ResourceType;
  res_Accepted : bool;
  res_ExceedsCredits : bool;
  res_Exists : bool;
}.

Record UsageTransfer := {
  ut_Resource : ResourceType;
  ut_OperatorID : Uint128;
  ut_TenantQuotaID : Uint128;
  ut_SinkID : Uint128;
  ut_Amount : Z;
  ut_TransferID : Uint128;
  ut_ClusterUUID : bytes16;
  ut_HeartbeatTsNs : Z;
}.

Record AllocationTransfer := {
  at_Resource : ResourceType;
  at_OperatorID : Uint128;
  at_TenantQuotaID : Uint128;
  at_Amount : Z;
  at_Code : Z;
  at_TenantUUID : bytes16;
  at_PeriodStartNs : Z;
  at_TransferID : Uint128;
}.

Record GaugePendingUpdate := {
  gu_Resource : ResourceType;
  gu_TenantQuotaID : Uint128;
  gu_SinkID : Uint128;
  gu_OldPendingID : option bytes16;
  gu_NewAmount : Z;
  gu_ClusterUUID : bytes16;
  gu_HeartbeatTsNs : Z;
  gu_NewPendingID : Uint128;
  gu_VoidTransferID : Uint128;
}.

Record GaugePendingResult := {
  gr_NewPendingID : Uint128;
  gr_Accepted : bool;
  gr_ExceedsCredits : bool;
}.

Definition no_flags : TransferFlags := {| Pending := false; VoidPendingTransfer := false |}.

(** [xs[i]] *)
Definition index {A} (xs : list A) (i : nat) : outcome A :=
  match xs !! i with
  | Some x => Ok x
  | None => Panic "index out of range"
  end.

(** ** Operations *)

Section transfers.
Context `{TigerBeetle}.

(** The classification of one transfer from the entry of [failed] for its
    index, the loop body at the end of [submitBatch]. *)
Definition classify (res : TransferResult) (tbResult : option CreateTransferResult)
    : outcome TransferResult :=
  match tbResult with
  | None => Ok {| res with res_Accepted := true |}
  | Some TransferExceedsCredits => Ok {| res with res_ExceedsCredits := true |}
  | Some TransferExists
  | Some TransferExistsWithDifferentDebitAccountID
  | Some TransferExistsWithDifferentCreditAccountID
  | Some TransferExistsWithDifferentAmount =>
      Ok {| res with res_Exists := true; res_Accepted := true |}
  | Some _ => Err (EMsg "transfer[%d] for %s: unexpected result %v")
  end.

(** The map [failed] from the index of a transfer to its result code. *)
Definition failed_map (tbResults : list (EventResult CreateTransferResult))
    : gmap Z CreateTransferResult :=
  foldl (λ failed '(idx, r), <[Z.of_nat idx := r]> failed) ∅ tbResults.

Definition submitBatch (transfers : list Transfer) (resourceAt : nat → outcome ResourceType)
    : M Env (list TransferResult) :=
  results ← mapM (λ '(i, _), r ← lift (resourceAt i);
    mret {| res_Resource := r; res_Accepted := false;
            res_ExceedsCredits := false; res_Exists := false |}) (enumerate transfers);
  tbResults ← wrap_err "CreateTransfers" (tb_call (CreateTransfers transfers));
  let failed := failed_map tbResults in
  mapM (λ '(i, res), lift (classify res (failed !! u32 (Z.of_nat i)))) (enumerate results).

Definition SubmitUsageBatch (transfers : list UsageTransfer) : M Env (list TransferResult) :=
  tbTransfers ← mapM (λ t,
    ledger ← lift (LedgerID (ut_Resource t));
    mret {| tr_ID := ut_TransferID t;
            tr_DebitAccountID := ut_TenantQuotaID t;
            tr_CreditAccountID := ut_SinkID t;
            tr_Amount := ToUint128 (ut_Amount t);
            tr_PendingID := zero16;
            tr_UserData128 := UUIDToUint128 (ut_ClusterUUID t);
            tr_UserData64 := ut_HeartbeatTsNs t;
            tr_Ledger := ledger;
            tr_Code := CodeUsageRecord;
            tr_Flags := no_flags |}) transfers;
  submitBatch tbTransfers (λ i,
    match index transfers i with
    | Ok t => Ok (ut_Resource t) | Err e => Err e | Panic p => Panic p
    end).

Definition SubmitAllocations (allocations : list AllocationTransfer)
    : M Env (list TransferResult) :=
  tbTransfers ← mapM (λ a,
    id ← (if decide (at_TransferID a = zero16) then RandomID else mret (at_TransferID a));
    ledger ← lift (LedgerID (at_Resource a));
    mret {| tr_ID := id;
            tr_DebitAccountID := at_OperatorID a;
            tr_CreditAccountID := at_TenantQuotaID a;
            tr_Amount := ToUint128 (at_Amount a);
            tr_PendingID := zero16;
            tr_UserData128 := UUIDToUint128 (at_TenantUUID a);
            tr_UserData64 := at_PeriodStartNs a;
            tr_Ledger := ledger;
            tr_Code := at_Code a;
            tr_Flags := no_flags |}) allocations;
  submitBatch tbTransfers (λ i,
    match index allocations i with
    | Ok t => Ok (at_Resource t) | Err e => Err e | Panic p => Panic p
    end).

(** [meta]: the update a transfer belongs to, and whether it is its void. *)
Abbreviation meta := (nat * bool)%type (only parsing).

(** One iteration of the loop that builds the batch: the void of the old
    reservation first, then the new reservation unless the gauge is zero. *)
Definition gauge_transfers (newPendingIDs : list Uint128)
    (acc : list Transfer * list meta) (iu : nat * GaugePendingUpdate)
    : M Env (list Transfer * list meta) :=
  let '(tbTransfers, metas) := acc in
  let '(i, u) := iu in
  '(tbTransfers, metas) ← (match gu_OldPendingID u with
    | Some old =>
        voidID ← (if decide (gu_VoidTransferID u = zero16) then RandomID
                  else mret (gu_VoidTransferID u));
        ledger ← lift (LedgerID (gu_Resource u));
        mret (tbTransfers ++
                [{| tr_ID := voidID;
                    tr_DebitAccountID := gu_TenantQuotaID u;
                    tr_CreditAccountID := gu_SinkID u;
                    tr_Amount := ToUint128 0;
                    tr_PendingID := UUIDToUint128 old;
                    tr_UserData128 := zero16;
                    tr_UserData64 := 0;
                    tr_Ledger := ledger;
                    tr_Code := CodeGaugeReservation;
                    tr_Flags := {| Pending := false; VoidPendingTransfer := true |} |}],
              metas ++ [(i, true)])
    | None => mret (tbTransfers, metas)
    end);
  if decide (gu_NewAmount u > 0) then
    newID ← lift (index newPendingIDs i);
    ledger ← lift (LedgerID (gu_Resource u));
    mret (tbTransfers ++
            [{| tr_ID := newID;
                tr_DebitAccountID := gu_TenantQuotaID u;
                tr_CreditAccountID := gu_SinkID u;
                tr_Amount := ToUint128 (gu_NewAmount u);
                tr_PendingID := zero16;
                tr_UserData128 := UUIDToUint128 (gu_ClusterUUID u);
                tr_UserData64 := gu_HeartbeatTsNs u;
                tr_Ledger := ledger;
                tr_Code := CodeGaugeReservation;
                tr_Flags := {| Pending := true; VoidPendingTransfer := false |} |}],
          metas ++ [(i, false)])
  else mret (tbTransfers, metas).

(** The [switch] on one reported failure. *)
Definition gauge_classify (metas : list meta) (results : list GaugePendingResult)
    (ir : nat * CreateTransferResult) : outcome (list GaugePendingResult) :=
  let '(idx, r) := ir in
  match index metas idx with
  | Err e => Err e
  | Panic p => Panic p
  | Ok (updateIdx, isVoid) =>
      match r with
      | TransferExceedsCredits =>
          if isVoid then Ok results
          else Ok (alter (λ res, {| res with gr_Accepted := false;
                                             gr_ExceedsCredits := true |}) updateIdx results)
      | TransferExists
      | TransferExistsWithDifferentDebitAccountID
      | TransferExistsWithDifferentCreditAccountID
      | TransferExistsWithDifferentAmount => Ok results
      | TransferPendingTransferNotFound
      | TransferPendingTransferAlreadyVoided
      | TransferPendingTransferAlreadyPosted =>
          if isVoid then Ok results
          else Err (EMsg "gauge transfer[%d]: unexpected result on pending create: %v")
      | TransferOther _ => Err (EMsg "gauge transfer[%d]: unexpected result %v")
      end
  end.

(** The last loop: record the new reservation of every accepted update. *)
Definition gauge_assign (newPendingIDs : list Uint128) (results : list GaugePendingResult)
    (m : meta) : list GaugePendingResult :=
  let '(updateIdx, isVoid) := m in
  match isVoid, results !! updateIdx, newPendingIDs !! updateIdx with
  | false, Some res, Some id =>
      if gr_Accepted res
      then <[updateIdx := {| res with gr_NewPendingID := id |}]> results
      else results
  | _, _, _ => results
  end.

Definition SubmitGaugePendingUpdates (updates : list GaugePendingUpdate)
    : M Env (list GaugePendingResult) :=
  if decide (length updates = 0%nat) then mret [] else
  let results := replicate (length updates)
    {| gr_NewPendingID := zero16; gr_Accepted := true; gr_ExceedsCredits := false |} in
  newPendingIDs ← mapM (λ u,
    if decide (gu_NewPendingID u ≠ zero16) then mret (gu_NewPendingID u) else RandomID) updates;
  '(tbTransfers, metas) ← foldM (gauge_transfers newPendingIDs) ([], []) (enumerate updates);
  if decide (length tbTransfers = 0%nat) then mret results else
  tbResults ← wrap_err "CreateTransfers (gauge pending)" (tb_call (CreateTransfers tbTransfers));
  results ← foldM (λ results ir, lift (gauge_classify metas results ir)) results tbResults;
  mret (foldl (gauge_assign newPendingIDs) results metas).
End transfers.

(** ** How a submission sees the ledger *)

(** The set [failed] built from the reported failures. *)
Lemma failed_lookup rs k :
  failed_map rs !! Z.of_nat k = snd <$> list.last (filter (λ p, p.1 = k) rs).
Proof.
  cut (∀ m : gmap Z CreateTransferResult,
    foldl (λ failed '(idx, r), <[Z.of_nat idx := r]> failed) m rs !! Z.of_nat k =
    match list.last (filter (λ p, p.1 = k) rs) with
    | Some (_, r) => Some r
    | None => m !! Z.of_nat k
    end).
  { intros H. unfold failed_map. rewrite H, lookup_empty. by destruct (list.last _) as [[]|]. } induction rs as [|[i r] rs IH]; intros m; [done|]. simpl.
  rewrite IH, filter_cons. simpl. case_decide as Hik.
  - subst. rewrite last_cons. destruct (list.last (filter _ rs)) as [[]|]; [done|].
    by rewrite lookup_insert_eq.
  - destruct (list.last (filter _ rs)) as [[]|]; [done|].
    rewrite lookup_insert_ne; [done|lia].
Qed.

(** The relation between the ledger's answer to a transfer and the result the
    caller sees for it. *)
Definition classified (o : option CreateTransferResult) (r : TransferResult) : Prop :=
  match o with
  | None => res_Accepted r = true ∧ res_ExceedsCredits r = false ∧ res_Exists r = false
  | Some TransferExceedsCredits =>
      res_Accepted r = false ∧ res_ExceedsCredits r = true ∧ res_Exists r = false
  | Some TransferExists
  | Some TransferExistsWithDifferentDebitAccountID
  | Some TransferExistsWithDifferentCreditAccountID
  | Some TransferExistsWithDifferentAmount =>
      res_Accepted r = true ∧ res_ExceedsCredits r = false ∧ res_Exists r = true
  | Some _ => False
  end.

Lemma classified_cases x r :
  classified (Some x) r → x = TransferExceedsCredits ∨ x ∈ exists_results.
Proof.
  unfold exists_results. rewrite !elem_of_cons, elem_of_nil. destruct x; simpl; intros; tauto.
Qed.

Definition blank_result (r : ResourceType) : TransferResult :=
  {| res_Resource := r; res_Accepted := false; res_ExceedsCredits := false; res_Exists := false |}.

Lemma classify_classified r o res :
  classify (blank_result r) o = Ok res → classified o res ∧ res_Resource res = r.
Proof. unfold classify. intros Hc. destruct o as [[]|]; inv Hc; by repeat split. Qed.

Section submission.
Context `{TL : TigerBeetleLaws}.
Implicit Types (e : Env).

Lemma failed_outcome ts (s : TBState) rs s' k :
  run_events create_transfer 0 ts s = (rs, s') →
  failed_map rs !! Z.of_nat k = event_outcomes create_transfer ts s !! k ≫= id.
Proof.
  intros Hr. rewrite failed_lookup.
  destruct (list.last _) as [[k' r]|] eqn:El.
  - assert ((k', r) ∈ filter (λ p : nat * CreateTransferResult, p.1 = k) rs) as Hin.
    { apply last_Some_elem_of in El. done. }
    apply list_elem_of_filter in Hin as [Hk Hin]. simpl in Hk. subst k'.
    apply (run_events_elem create_transfer _ _ _ _ _ _ _ Hr) in Hin as [_ Hl].
    rewrite Nat.sub_0_r in Hl. by rewrite Hl.
  - simpl. destruct (event_outcomes _ ts s !! k) as [[r|]|] eqn:Eo; [|done..].
    assert ((k, r) ∈ filter (λ p : nat * CreateTransferResult, p.1 = k) rs) as Hin.
    { apply list_elem_of_filter. split; [done|].
      apply (run_events_elem create_transfer _ _ _ _ _ _ _ Hr).
      rewrite Nat.sub_0_r. split; [lia|done]. }
    apply last_None in El. rewrite El in Hin. by apply elem_of_nil in Hin.
Qed.

(** A submission either left the ledger alone or executed the whole request,
    and draws no IDs. *)
Lemma submitBatch_env ts resAt e o e' :
  submitBatch ts resAt e = (o, e') →
  env_ids e' = env_ids e ∧ env_seed e' = env_seed e ∧
  (env_tb e' = env_tb e ∨ env_tb e' = final_state create_transfer ts (env_tb e)).
Proof.
  unfold submitBatch. rewrite bind_cases.
  rewrite (mapM_pure _ (λ '(i, _), r ← resAt i; Ok (blank_result r)))
    by (intros [i t] s _; unfold lift; rewrite bind_cases; by destruct (resAt i)).
  destruct (mapM _ (enumerate ts)) as [results| |]; [|intros Hs; inv Hs; by auto..].
  rewrite bind_cases. unfold wrap_err, tb_call, zoom.
  destruct (CreateTransfers ts (env_tb e)) as [[rs|err|p] s'] eqn:Ec; intros Hs.
  - rewrite mapM_pure with (g := λ '(i, res), classify res
        (failed_map rs !! u32 (Z.of_nat i)))
      in Hs by (by intros [i res] s _).
    inv Hs. simpl. split_and!; [done..|]. right.
    apply CreateTransfers_ok in Ec. unfold final_state. by rewrite Ec.
  - inv Hs. simpl. split_and!; [done..|]. by apply CreateTransfers_err in Ec.
  - by apply CreateTransfers_no_panic in Ec.
Qed.

(** A successful submission: every transfer has one result, in order, and
    the result reports what the ledger did with it. *)
Lemma submitBatch_ok ts resAt e res e' :
  Z.of_nat (length ts) < 2 ^ 32 →
  submitBatch ts resAt e = (Ok res, e') →
  env_tb e' = final_state create_transfer ts (env_tb e) ∧
  Forall2 classified (event_outcomes create_transfer ts (env_tb e)) res ∧
  ∀ i r, res !! i = Some r → resAt i = Ok (res_Resource r).
Proof.
  intros Hlen. unfold submitBatch. rewrite bind_cases.
  rewrite (mapM_pure _ (λ '(i, _), r ← resAt i; Ok (blank_result r)))
    by (intros [i t] s _; unfold lift; rewrite bind_cases; by destruct (resAt i)).
  destruct (mapM _ (enumerate ts)) as [results| |] eqn:Em; [|done..].
  rewrite bind_cases. unfold wrap_err, tb_call, zoom.
  destruct (CreateTransfers ts (env_tb e)) as [[rs|err|p] s'] eqn:Ec; [|done..].
  intros Hs.
  rewrite mapM_pure with (g := λ '(i, res), classify res
      (failed_map rs !! u32 (Z.of_nat i)))
    in Hs by (by intros [i res0] s _).
  inversion Hs as [[Hc He]]. subst e'. clear Hs. simpl.
  apply CreateTransfers_ok in Ec.
  apply mapM_Ok in Em. apply mapM_Ok in Hc.
  pose proof (Forall2_length Em) as HL1. rewrite enumerate_length in HL1.
  pose proof (Forall2_length Hc) as HL2. rewrite enumerate_length in HL2.
  assert (∀ i r, res !! i = Some r → ∃ rr, resAt i = Ok rr ∧
    classify (blank_result rr) (event_outcomes create_transfer ts (env_tb e) !! i ≫= id) = Ok r)
    as Hpt.
  { intros i r Hi. destruct (Forall2_lookup_r _ _ _ _ _ Hc Hi) as ([j b] & Hj & Hcl).
    rewrite enumerate_lookup in Hj. destruct (results !! i) as [b'|] eqn:Hb; inv Hj.
    destruct (Forall2_lookup_r _ _ _ _ _ Em Hb) as ([k t] & Hk & Hbl).
    rewrite enumerate_lookup in Hk. destruct (ts !! j) as [t'|] eqn:Ht; inv Hk.
    apply outcome_bind_Ok in Hbl as (rr & Hrr & Hbl). inv Hbl. exists rr. split; [done|].
    rewrite <- (failed_outcome ts (env_tb e) rs s' k Ec), <- Hcl. do 2 f_equal.
    unfold u32. rewrite Z.mod_small; [done|]. apply lookup_lt_Some in Ht. lia. }
  split_and!.
  - unfold final_state. by rewrite Ec.
  - apply Forall2_same_length_lookup_2; [rewrite event_outcomes_length; lia|].
    intros i o r Ho Hr. destruct (Hpt i r Hr) as (rr & _ & Hcl). rewrite Ho in Hcl.
    by apply classify_classified in Hcl as [? _].
  - intros i r Hr. destruct (Hpt i r Hr) as (rr & Hrr & Hcl).
    apply classify_classified in Hcl as [_ ?]. congruence.
Qed.

(** After a submission whose transfers were all accepted, the ledger holds
    them all, and submitting them again leaves the ledger unchanged. *)
Lemma submitBatch_accepted_taken ts resAt e res e' :
  Z.of_nat (length ts) < 2 ^ 32 →
  submitBatch ts resAt e = (Ok res, e') →
  (∀ r, r ∈ res → res_Accepted r = true) →
  ∀ t, t ∈ ts → is_Some (transfer_at (env_tb e') (tr_ID t)).
Proof.
  intros Hl Hs Hacc t [i Ht]%list_elem_of_lookup.
  destruct (submitBatch_ok _ _ _ _ _ Hl Hs) as (-> & HF & _).
  destruct (lookup_lt_is_Some_2 (event_outcomes create_transfer ts (env_tb e)) i) as [o Ho].
  { rewrite event_outcomes_length. by eapply lookup_lt_Some. }
  destruct (Forall2_lookup_l _ _ _ _ _ HF Ho) as (r & Hr & Hcl).
  eapply outcome_taken; [done..|]. intros x ->.
  specialize (Hacc r (list_elem_of_lookup_2 _ _ _ Hr)).
  destruct x; simpl in Hcl; try done; try (destruct Hcl; congruence); unfold exists_results; set_solver.
Qed.

Lemma submitBatch_fresh_at ts resAt e res e' :
  Z.of_nat (length ts) < 2 ^ 32 →
  submitBatch ts resAt e = (Ok res, e') →
  (∀ r, r ∈ res → res_Accepted r = true ∧ res_Exists r = false) →
  ∀ t, t ∈ ts → transfer_at (env_tb e') (tr_ID t) = Some t.
Proof.
  intros Hl Hs Hacc t [i Ht]%list_elem_of_lookup.
  destruct (submitBatch_ok _ _ _ _ _ Hl Hs) as (-> & HF & _).
  destruct (lookup_lt_is_Some_2 (event_outcomes create_transfer ts (env_tb e)) i) as [o Ho].
  { rewrite event_outcomes_length. by eapply lookup_lt_Some. }
  destruct (Forall2_lookup_l _ _ _ _ _ HF Ho) as (r & Hr & Hcl).
  eapply outcome_taken; [done..|].
  destruct (Hacc r (list_elem_of_lookup_2 _ _ _ Hr)).
  destruct o as [[]|]; simpl in Hcl; try done; destruct Hcl as (?&?&?); congruence.
Qed.

Lemma submitBatch_again ts resAt e o e' :
  (∀ t, t ∈ ts → is_Some (transfer_at (env_tb e) (tr_ID t))) →
  submitBatch ts resAt e = (o, e') → env_tb e' = env_tb e.
Proof.
  intros Ht Hs. destruct (submitBatch_env _ _ _ _ _ Hs) as (_ & _ & [->| ->]); [done|].
  by apply final_state_taken.
Qed.

Lemma submitBatch_again_exists ts resAt e res e' :
  Z.of_nat (length ts) < 2 ^ 32 →
  (∀ t, t ∈ ts → transfer_at (env_tb e) (tr_ID t) = Some t) →
  submitBatch ts resAt e = (Ok res, e') →
  ∀ r, r ∈ res → res_Accepted r = true ∧ res_Exists r = true ∧ res_ExceedsCredits r = false.
Proof.
  intros Hl Ht Hs r [i Hr]%list_elem_of_lookup.
  destruct (submitBatch_ok _ _ _ _ _ Hl Hs) as (_ & HF & _).
  rewrite (outcomes_exists _ _ Ht) in HF.
  destruct (Forall2_lookup_r _ _ _ _ _ HF Hr) as (o & Ho & Hcl).
  apply lookup_replicate in Ho as [-> _]. simpl in Hcl. naive_solver.
Qed.
End submission.

(** ** Usage and allocation batches *)

Section batches.
Context `{TL : TigerBeetleLaws}.

Definition usage_tb (t : UsageTransfer) : outcome Transfer :=
  ledger ← LedgerID (ut_Resource t);
  Ok {| tr_ID := ut_TransferID t; tr_DebitAccountID := ut_TenantQuotaID t;
        tr_CreditAccountID := ut_SinkID t; tr_Amount := ToUint128 (ut_Amount t);
        tr_PendingID := zero16; tr_UserData128 := UUIDToUint128 (ut_ClusterUUID t);
        tr_UserData64 := ut_HeartbeatTsNs t; tr_Ledger := ledger;
        tr_Code := CodeUsageRecord; tr_Flags := no_flags |}.

Lemma SubmitUsageBatch_eq us e :
  SubmitUsageBatch us e =
  match mapM usage_tb us with
  | Ok ts => submitBatch ts (λ i, t ← index us i; Ok (ut_Resource t)) e
  | Err x => (Err x, e)
  | Panic p => (Panic p, e)
  end.
Proof.
  unfold SubmitUsageBatch. rewrite bind_cases.
  rewrite (mapM_pure _ usage_tb); [by destruct (mapM usage_tb us)|].
  intros t s _. unfold usage_tb, lift. rewrite bind_cases. by destruct (LedgerID _).
Qed.

Definition alloc_tb (a : AllocationTransfer) : outcome Transfer :=
  ledger ← LedgerID (at_Resource a);
  Ok {| tr_ID := at_TransferID a; tr_DebitAccountID := at_OperatorID a;
        tr_CreditAccountID := at_TenantQuotaID a; tr_Amount := ToUint128 (at_Amount a);
        tr_PendingID := zero16; tr_UserData128 := UUIDToUint128 (at_TenantUUID a);
        tr_UserData64 := at_PeriodStartNs a; tr_Ledger := ledger;
        tr_Code := at_Code a; tr_Flags := no_flags |}.

(** With deterministic IDs no ID is drawn. *)
Lemma SubmitAllocations_eq allocs e :
  (∀ a, a ∈ allocs → at_TransferID a ≠ zero16) →
  SubmitAllocations allocs e =
  match mapM alloc_tb allocs with
  | Ok ts => submitBatch ts (λ i, t ← index allocs i; Ok (at_Resource t)) e
  | Err x => (Err x, e)
  | Panic p => (Panic p, e)
  end.
Proof.
  intros Hid. unfold SubmitAllocations. rewrite bind_cases.
  rewrite (mapM_pure _ alloc_tb); [by destruct (mapM alloc_tb allocs)|].
  intros a s Ha. rewrite decide_False by auto. rewrite bind_cases. simpl.
  unfold alloc_tb, lift. rewrite bind_cases. by destruct (LedgerID _).
Qed.
End batches.

(** ** Gauge reservations *)

Section gauge.
Context `{TL : TigerBeetleLaws}.

Definition void_tb (u : GaugePendingUpdate) (voidID : Uint128) (old : bytes16) (ledger : Z)
    : Transfer :=
  {| tr_ID := voidID; tr_DebitAccountID := gu_TenantQuotaID u;
     tr_CreditAccountID := gu_SinkID u; tr_Amount := ToUint128 0;
     tr_PendingID := UUIDToUint128 old; tr_UserData128 := zero16; tr_UserData64 := 0;
     tr_Ledger := ledger; tr_Code := CodeGaugeReservation;
     tr_Flags := {| Pending := false; VoidPendingTransfer := true |} |}.

Definition reserve_tb (u : GaugePendingUpdate) (newID : Uint128) (ledger : Z) : Transfer :=
  {| tr_ID := newID; tr_DebitAccountID := gu_TenantQuotaID u;
     tr_CreditAccountID := gu_SinkID u; tr_Amount := ToUint128 (gu_NewAmount u);
     tr_PendingID := zero16; tr_UserData128 := UUIDToUint128 (gu_ClusterUUID u);
     tr_UserData64 := gu_HeartbeatTsNs u; tr_Ledger := ledger;
     tr_Code := CodeGaugeReservation;
     tr_Flags := {| Pending := true; VoidPendingTransfer := false |} |}.

(** What update [i] contributes to the batch. *)
Definition plan (ids : list Uint128) (i : nat) (u : GaugePendingUpdate)
    (add : list (Transfer * (nat * bool))) : Prop :=
  ∃ voidID newID ledger,
    add =
      match gu_OldPendingID u with
      | Some old => [(void_tb u voidID old ledger, (i, true))]
      | None => []
      end ++
      (if decide (gu_NewAmount u > 0) then [(reserve_tb u newID ledger, (i, false))] else []) ∧
    (gu_VoidTransferID u ≠ zero16 → voidID = gu_VoidTransferID u) ∧
    (gu_NewAmount u > 0 → ids !! i = Some newID ∧ LedgerID (gu_Resource u) = Ok ledger).

Lemma RandomID_env e id e' : RandomID e = (Ok id, e') → env_tb e' = env_tb e.
Proof. intros Hr. by inv Hr. Qed.

Lemma gauge_transfers_plan ids ts ms i u e ts' ms' e' :
  gauge_transfers ids (ts, ms) (i, u) e = (Ok (ts', ms'), e') →
  env_tb e' = env_tb e ∧
  ∃ add, plan ids i u add ∧ ts' = ts ++ add.*1 ∧ ms' = ms ++ add.*2.
Proof.
  unfold gauge_transfers. intros Hg.
  apply bind_Ok_inv in Hg as ([ts1 ms1] & e1 & Hv & Hg).
  assert (env_tb e1 = env_tb e ∧ ∃ voidID ledger,
    (∀ old, gu_OldPendingID u = Some old → LedgerID (gu_Resource u) = Ok ledger) ∧
    (gu_VoidTransferID u ≠ zero16 → voidID = gu_VoidTransferID u) ∧
    let add := match gu_OldPendingID u with
               | Some old => [(void_tb u voidID old ledger, (i, true))]
               | None => []
               end in ts1 = ts ++ add.*1 ∧ ms1 = ms ++ add.*2) as 
    (E1 & voidID & ledger & Hl & Hvid & Hts & Hms).
  { destruct (gu_OldPendingID u) as [old|].
    - apply bind_Ok_inv in Hv as (vid & e2 & Hr & Hv).
      apply bind_Ok_inv in Hv as (l & e3 & Hl & Hv). injection Hl as Hl <-.
      injection Hv as <- <- <-.
      destruct (decide (gu_VoidTransferID u = zero16)).
      + split; [exact (RandomID_env _ _ _ Hr)|by exists vid, l].
      + inv Hr. split; [done|by exists (gu_VoidTransferID u), l].
    - inv Hv. split; [done|]. exists (gu_VoidTransferID u), 0. simpl. by rewrite !app_nil_r. }
  case_decide as Hpos.
  - apply bind_Ok_inv in Hg as (newID & e2 & Hn & Hg).
    apply bind_Ok_inv in Hg as (l & e3 & Hl' & Hg).
    injection Hg as <- <- <-. injection Hn as Hn <-. injection Hl' as Hl' <-.
    split; [done|].
    exists (match gu_OldPendingID u with
            | Some old => [(void_tb u voidID old ledger, (i, true))] | None => [] end
            ++ [(reserve_tb u newID l, (i, false))]). split.
    2: { rewrite !fmap_app, !app_assoc. simpl in *. by rewrite <- Hts, <- Hms. }
    exists voidID, newID, l. rewrite decide_True by done. split_and!; [|done|].
    + f_equal. destruct (gu_OldPendingID u) as [old|]; [|done].
      specialize (Hl old eq_refl). congruence.
    + intros _. split; [|done]. unfold index in Hn. by destruct (ids !! i); inv Hn.
  - inv Hg. split; [congruence|]. eexists. split; [|split; reflexivity].
    exists voidID, zero16, ledger. rewrite decide_False by done. by rewrite app_nil_r.
Qed.

Lemma gauge_fold_plan ids l ts ms e ts' ms' e' :
  foldM (gauge_transfers ids) (ts, ms) l e = (Ok (ts', ms'), e') →
  env_tb e' = env_tb e ∧
  ∃ adds, Forall2 (λ iu add, plan ids iu.1 iu.2 add) l adds ∧
    ts' = ts ++ (mjoin adds).*1 ∧ ms' = ms ++ (mjoin adds).*2.
Proof.
  revert ts ms e. induction l as [|[i u] l IH]; intros ts ms e Hf; simpl in Hf.
  { inv Hf. split; [done|]. exists []. simpl. by rewrite !app_nil_r. }
  apply bind_Ok_inv in Hf as ([ts1 ms1] & e1 & Hg & Hf).
  apply gauge_transfers_plan in Hg as (E1 & add & Hp & -> & ->).
  apply IH in Hf as (E2 & adds & HF & -> & ->). split; [congruence|].
  exists (add :: adds). split; [by constructor|]. simpl.
  by rewrite !fmap_app, !app_assoc.
Qed.

(** Every transfer of the batch belongs to one update, as its void or as its
    reservation. *)
Lemma plan_metas ids l adds :
  NoDup l.*1 →
  Forall2 (λ iu add, plan ids iu.1 iu.2 add) l adds →
  NoDup (mjoin adds).*2 ∧ ∀ m, m ∈ (mjoin adds).*2 → m.1 ∈ l.*1.
Proof.
  intros Hnd HF. induction HF as [|[i u] add l adds Hp HF IH]; simpl.
  { split; [constructor|]. by intros m ?%elem_of_nil. }
  inv Hnd. destruct IH as [IHn IHi]; [done|].
  destruct Hp as (voidID & newID & ledger & Hadd & _). simpl in Hadd.
  assert (NoDup add.*2 ∧ ∀ m, m ∈ add.*2 → m.1 = i) as [An Ai].
  { rewrite Hadd, fmap_app. destruct (gu_OldPendingID u), (decide _); simpl;
      split; try set_solver; repeat constructor; set_solver. }
  rewrite fmap_app. split.
  - apply list.NoDup_app. split_and!; [done| |done]. intros m Hm Hm'.
    apply Ai in Hm. apply IHi in Hm'. subst i. done.
  - intros m [Hm|Hm]%elem_of_app; [apply Ai in Hm; subst i; left|right; auto].
Qed.

(** Where the reservation of an update stands in the batch: right after the
    void of the old one. *)
Lemma plan_reserved ids l adds i u :
  Forall2 (λ iu add, plan ids iu.1 iu.2 add) l adds →
  (i, u) ∈ l → gu_NewAmount u > 0 →
  ∃ j newID ledger,
    mjoin adds !! j = Some (reserve_tb u newID ledger, (i, false)) ∧
    ids !! i = Some newID ∧ LedgerID (gu_Resource u) = Ok ledger ∧
    ∀ old, gu_OldPendingID u = Some old → ∃ j' voidID, j = S j' ∧
      (gu_VoidTransferID u ≠ zero16 → voidID = gu_VoidTransferID u) ∧
      mjoin adds !! j' = Some (void_tb u voidID old ledger, (i, true)).
Proof.
  intros HF Hin Hpos. induction HF as [|[i' u'] add l adds Hp HF IH].
  { by apply elem_of_nil in Hin. }
  apply elem_of_cons in Hin as [Heq|Hin].
  - injection Heq as <- <-. destruct Hp as (voidID & newID & ledger & -> & Hv & Hl).
    cbn [fst snd] in *. rewrite decide_True by done. destruct (Hl Hpos) as [Hid Hled].
    destruct (gu_OldPendingID u) as [old|].
    + exists 1%nat, newID, ledger. simpl. split_and!; [done..|].
      intros old' [= <-]. by exists 0%nat, voidID.
    + by exists 0%nat, newID, ledger.
  - destruct (IH Hin) as (j & newID & ledger & Hj & Hid & Hled & Hvoid).
    exists (length add + j)%nat, newID, ledger. simpl. rewrite lookup_app_r by lia.
    replace (length add + j - length add)%nat with j by lia. split_and!; [done..|].
    intros old Hold. destruct (Hvoid old Hold) as (j' & voidID & -> & Hv & Hj').
    exists (length add + j')%nat, voidID. split_and!; [lia|done|].
    rewrite lookup_app_r by lia. by replace (length add + j' - length add)%nat with j' by lia.
Qed.

Lemma plan_released ids l adds i u :
  Forall2 (λ iu add, plan ids iu.1 iu.2 add) l adds →
  NoDup l.*1 → (i, u) ∈ l → gu_NewAmount u ≤ 0 → (i, false) ∉ (mjoin adds).*2.
Proof.
  intros HF Hnd Hin Hle ([t m] & Hm & Hj)%list_elem_of_fmap. simpl in Hm. subst m.
  apply list_elem_of_join in Hj as (add & Hin' & [k Hk]%list_elem_of_lookup).
  destruct (Forall2_lookup_r _ _ _ _ _ HF Hk) as ([i' u'] & Hi & voidID & newID & ledger & -> & _).
  cbn [fst snd] in *. apply elem_of_app in Hin' as [Hx|Hx].
  - destruct (gu_OldPendingID u'); set_solver.
  - case_decide; [|set_solver]. apply list_elem_of_singleton in Hx. injection Hx as _ ->.
    apply list_elem_of_lookup in Hin as [k' Hk'].
    assert (k = k') as ->.
    { eapply (NoDup_lookup _ _ _ i' Hnd); rewrite list_lookup_fmap; [by rewrite Hi|by rewrite Hk']. }
    rewrite Hi in Hk'. injection Hk' as <-. lia.
Qed.

(** The failures that reject the reservation of update [i]. *)
Definition exceeded (metas : list (nat * bool)) (rs : list (nat * CreateTransferResult))
    (i : nat) : bool :=
  existsb (λ '(k, r), bool_decide (r = TransferExceedsCredits) &&
                      bool_decide (metas !! k = Some (i, false))) rs.

Definition reject (b : bool) (r : GaugePendingResult) : GaugePendingResult :=
  if b then {| r with gr_Accepted := false; gr_ExceedsCredits := true |} else r.

Definition gauge_answer_ok (metas : list (nat * bool)) (kr : nat * CreateTransferResult) : Prop :=
  ∃ i b, metas !! kr.1 = Some (i, b) ∧
    (b = false → kr.2 = TransferExceedsCredits ∨ kr.2 ∈ exists_results).

Lemma gauge_classify_reject metas R kr R' :
  gauge_classify metas R kr = Ok R' →
  gauge_answer_ok metas kr ∧ R' = imap (λ i, reject (exceeded metas [kr] i)) R.
Proof.
  destruct kr as [k r]. unfold gauge_classify, gauge_answer_ok, index. intros Hc.
  destruct (metas !! k) as [[i b]|] eqn:Hk; [|done].
  assert (Hskip : (r ≠ TransferExceedsCredits ∨ b = true) →
    R = imap (λ i, reject (exceeded metas [(k, r)] i)) R).
  { intros Hn. apply list_eq. intros j. rewrite list_lookup_imap.
    destruct (R !! j); [|done]. simpl. f_equal. rewrite Hk, orb_false_r, <- bool_decide_and.
    by rewrite bool_decide_eq_false_2 by naive_solver. }
  destruct (decide (r = TransferExceedsCredits ∧ b = false)) as [[-> ->]|Hn].
  2: { assert (R' = R ∧ (b = false → r ∈ exists_results)) as [-> Hr].
       { unfold exists_results. destruct r, b; simplify_eq; split; try done; set_solver. }
       split; [by eauto 6|]. apply Hskip. destruct b; naive_solver. }
  injection Hc as <-. split; [by eauto 6|].
  apply list_eq. intros j. rewrite list_lookup_imap. unfold exceeded. simpl.
  rewrite Hk, orb_false_r. destruct (decide (j = i)) as [->|Hj].
  - rewrite list_lookup_alter_eq. destruct (R !! i); simpl; [|done].
    by rewrite bool_decide_eq_true_2.
  - rewrite list_lookup_alter_ne by done. rewrite bool_decide_eq_false_2 by naive_solver.
    by destruct (R !! j).
Qed.

Lemma reject_app metas R rs1 rs2 :
  imap (λ i, reject (exceeded metas rs2 i)) (imap (λ i, reject (exceeded metas rs1 i)) R) =
  imap (λ i, reject (exceeded metas (rs1 ++ rs2) i)) R.
Proof.
  apply list_eq. intros i. rewrite !list_lookup_imap. destruct (R !! i); [|done]. simpl.
  f_equal. unfold exceeded. rewrite existsb_app. by destruct (existsb _ rs1), (existsb _ rs2).
Qed.

Lemma gauge_classify_fold metas R rs (e : Env) R' e' :
  foldM (λ results ir, lift (gauge_classify metas results ir)) R rs e = (Ok R', e') →
  e' = e ∧ (∀ kr, kr ∈ rs → gauge_answer_ok metas kr) ∧
  R' = imap (λ i, reject (exceeded metas rs i)) R.
Proof.
  revert R. induction rs as [|kr rs IH]; intros R Hf; simpl in Hf.
  { inv Hf. split_and!; [done|by intros ? ?%elem_of_nil|].
    apply list_eq. intros i. rewrite list_lookup_imap. by destruct (R' !! i). }
  apply bind_Ok_inv in Hf as (R1 & e1 & Hc & Hf). injection Hc as Hc <-.
  apply gauge_classify_reject in Hc as [Hok ->].
  apply IH in Hf as (-> & Hoks & ->). split_and!; [done| |].
  - by intros kr' [->|?]%elem_of_cons; auto.
  - by rewrite reject_app.
Qed.

Lemma gauge_assign_fold ids metas R :
  (∀ m, m ∈ metas → m.2 = false → is_Some (ids !! m.1)) →
  foldl (gauge_assign ids) R metas =
  imap (λ i r, if gr_Accepted r && bool_decide ((i, false) ∈ metas)
               then {| r with gr_NewPendingID := default zero16 (ids !! i) |} else r) R.
Proof.
  revert R. induction metas as [|[i b] metas IH]; intros R Hids; simpl.
  { apply list_eq. intros i. rewrite list_lookup_imap. destruct (R !! i) as [r|]; [|done]. simpl.
    by destruct (gr_Accepted r). }
  rewrite IH by (intros; apply Hids; [by right|done]).
  assert (b = false → is_Some (ids !! i)) as Hi by (intros ->; apply (Hids (i, false)); [left|done]).
  assert (∀ j, j ≠ i ∨ b = true →
    bool_decide ((j, false) ∈ (i, b) :: metas) = bool_decide ((j, false) ∈ metas)) as Hext.
  { intros j Hj. apply bool_decide_ext. rewrite elem_of_cons. naive_solver. }
  apply list_eq. intros j. rewrite !list_lookup_imap.
  destruct b; simpl.
  - destruct (R !! j); [|done]. simpl. by rewrite Hext by auto.
  - destruct (Hi eq_refl) as [id Hid]. rewrite Hid.
    destruct (R !! i) as [ri|] eqn:Hri.
    2: { destruct (decide (j = i)) as [->|Hj]; [by rewrite Hri|]. destruct (R !! j); [|done].
         simpl. by rewrite Hext by auto. }
    destruct (decide (j = i)) as [->|Hj].
    + rewrite Hri. simpl. rewrite (bool_decide_eq_true_2 (_ ∈ (i, false) :: _)) by left.
      destruct (gr_Accepted ri) eqn:Ha.
      * rewrite list_lookup_insert_eq by (by eapply lookup_lt_Some). simpl.
        rewrite ?Ha, Hid. by destruct (bool_decide _).
      * rewrite Hri. simpl. by rewrite Ha.
    + assert ((if gr_Accepted ri then <[i := {| ri with gr_NewPendingID := id |}]> R else R) !! j
              = R !! j) as ->.
      { destruct (gr_Accepted ri); [by rewrite list_lookup_insert_ne|done]. }
      destruct (R !! j); [|done]. simpl. by rewrite Hext by auto.
Qed.

Lemma foldl_gauge_assign_length ids metas R :
  length (foldl (gauge_assign ids) R metas) = length R.
Proof.
  revert R. induction metas as [|[i b] metas IH]; intros R; [done|]. simpl. rewrite IH.
  repeat case_match; try done. by rewrite length_insert.
Qed.

Lemma plan_voided ids l adds i u old :
  Forall2 (λ iu add, plan ids iu.1 iu.2 add) l adds →
  (i, u) ∈ l → gu_OldPendingID u = Some old →
  ∃ voidID ledger, (gu_VoidTransferID u ≠ zero16 → voidID = gu_VoidTransferID u) ∧
    void_tb u voidID old ledger ∈ (mjoin adds).*1.
Proof.
  intros HF [k Hk]%list_elem_of_lookup Hold.
  destruct (Forall2_lookup_l _ _ _ _ _ HF Hk) as (add & Hadd & voidID & newID & ledger & -> & Hv & _).
  cbn [fst snd] in *. exists voidID, ledger. split; [done|].
  apply list_elem_of_fmap. exists (void_tb u voidID old ledger, (i, true)). split; [done|].
  apply list_elem_of_join. eexists. split; [|by eapply list_elem_of_lookup_2].
  rewrite Hold. by left.
Qed.

(** IDs of the new reservations: the caller's, or drawn. *)
Lemma gauge_ids us e ids e' :
  mapM (λ u, if decide (gu_NewPendingID u ≠ zero16) then mret (gu_NewPendingID u)
             else RandomID) us e = (Ok ids, e') →
  env_tb e' = env_tb e ∧
  Forall2 (λ u id, gu_NewPendingID u ≠ zero16 → id = gu_NewPendingID u) us ids.
Proof.
  revert e ids. induction us as [|u us IH]; intros e ids Hm; simpl in Hm.
  { inv Hm. by split. }
  apply bind_Ok_inv in Hm as (id & e1 & Hu & Hm).
  apply bind_Ok_inv in Hm as (ids' & e2 & Hm & Hr). inv Hr.
  apply IH in Hm as [E2 HF].
  assert (env_tb e1 = env_tb e ∧ (gu_NewPendingID u ≠ zero16 → id = gu_NewPendingID u)) as [E1 Hid].
  { case_decide; [by inv Hu|]. split; [exact (RandomID_env _ _ _ Hu)|done]. }
  split; [congruence|]. by constructor.
Qed.

Definition held (id : Uint128) : GaugePendingResult :=
  {| gr_NewPendingID := id; gr_Accepted := true; gr_ExceedsCredits := false |}.
Definition rejected : GaugePendingResult :=
  {| gr_NewPendingID := zero16; gr_Accepted := false; gr_ExceedsCredits := true |}.

(** What the caller learns about an update from the ledger's answer to its
    reservation. *)
Definition gauge_reported (o : option CreateTransferResult) (newID : Uint128)
    (r : GaugePendingResult) : Prop :=
  match o with
  | None => r = held newID
  | Some TransferExceedsCredits => r = rejected
  | Some x => x ∈ exists_results ∧ r = held newID
  end.

(** The results of the two loops after the submission. *)
Lemma gauge_result_at ids l adds us i u s rs s' :
  Forall2 (λ iu add, plan ids iu.1 iu.2 add) l adds →
  l = enumerate us → length ids = length us →
  us !! i = Some u →
  run_events create_transfer 0 (mjoin adds).*1 s = (rs, s') →
  (∀ kr, kr ∈ rs → gauge_answer_ok (mjoin adds).*2 kr) →
  let r := if reject (exceeded (mjoin adds).*2 rs i) (held zero16) is
              {| gr_Accepted := true |} then
             (if bool_decide ((i, false) ∈ (mjoin adds).*2)
              then held (default zero16 (ids !! i)) else held zero16)
           else rejected in
  if decide (gu_NewAmount u > 0) then
    ∃ j newID ledger,
      (mjoin adds).*1 !! j = Some (reserve_tb u newID ledger) ∧ ids !! i = Some newID ∧
      LedgerID (gu_Resource u) = Ok ledger ∧
      (∀ old, gu_OldPendingID u = Some old → ∃ j' voidID, j = S j' ∧
        (gu_VoidTransferID u ≠ zero16 → voidID = gu_VoidTransferID u) ∧
        (mjoin adds).*1 !! j' = Some (void_tb u voidID old ledger)) ∧
      gauge_reported (event_outcomes create_transfer (mjoin adds).*1 s !! j ≫= id) newID r
  else r = held zero16.
Proof.
  intros HF -> Hlen Hu Hrun Hok r.
  assert ((i, u) ∈ enumerate us) as Hin.
  { apply (list_elem_of_lookup_2 _ i). by rewrite enumerate_lookup, Hu. }
  destruct (plan_metas _ _ _ (enumerate_NoDup us) HF) as [Hnd _].
  case_decide as Hpos.
  - destruct (plan_reserved _ _ _ _ _ HF Hin Hpos) as (j & newID & ledger & Hj & Hid & Hl & Hv).
    assert ((mjoin adds).*1 !! j = Some (reserve_tb u newID ledger)) as Hj1
      by by rewrite list_lookup_fmap, Hj.
    assert ((mjoin adds).*2 !! j = Some (i, false)) as Hj2 by by rewrite list_lookup_fmap, Hj.
    exists j, newID, ledger. split_and!; [done..| |].
    { intros old Hold. destruct (Hv old Hold) as (j' & voidID & -> & ? & Hj').
      exists j', voidID. by rewrite list_lookup_fmap, Hj'. }
    subst r. rewrite Hid. rewrite (bool_decide_eq_true_2 (_ ∈ _)) by by eapply list_elem_of_lookup_2.
    destruct (lookup_lt_is_Some_2 (event_outcomes create_transfer (mjoin adds).*1 s) j) as [o Ho].
    { rewrite event_outcomes_length. by eapply lookup_lt_Some. }
    rewrite Ho. simpl.
    assert (exceeded (mjoin adds).*2 rs i = bool_decide (o = Some TransferExceedsCredits)) as ->.
    { apply eq_bool_prop_intro. unfold exceeded. rewrite existb_True, bool_decide_spec.
      rewrite list.Exists_exists. split.
      - intros ([k x] & Hk & [->%bool_decide_unpack Hm%bool_decide_unpack]%andb_True).
        apply (run_events_elem _ _ _ _ _ _ _ _ Hrun) in Hk as [_ Hk].
        rewrite Nat.sub_0_r in Hk. rewrite (NoDup_lookup _ _ _ _ Hnd Hm Hj2) in Hk. congruence.
      - intros ->. exists (j, TransferExceedsCredits). split.
        + apply (run_events_elem _ _ _ _ _ _ _ _ Hrun). rewrite Nat.sub_0_r. split; [lia|done].
        + apply andb_True. by split; apply bool_decide_pack. }
    destruct o as [x|]; [|done]. simpl.
    assert ((j, x) ∈ rs) as Hjx.
    { apply (run_events_elem _ _ _ _ _ _ _ _ Hrun). rewrite Nat.sub_0_r. split; [lia|done]. }
    destruct (Hok _ Hjx) as (i' & b' & Hm & Hx). simpl in Hm, Hx.
    rewrite Hj2 in Hm. injection Hm as <- <-. specialize (Hx eq_refl).
    destruct x; simpl; destruct Hx as [Hx|Hx]; try done;
      unfold exists_results in Hx; rewrite !elem_of_cons, elem_of_nil in Hx; naive_solver.
  - subst r. assert ((i, false) ∉ (mjoin adds).*2) as Hni.
    { apply (plan_released _ _ _ _ u HF); [apply enumerate_NoDup|done|lia]. }
    rewrite bool_decide_eq_false_2 by done.
    assert (exceeded (mjoin adds).*2 rs i = false) as ->; [|done].
    apply not_true_iff_false. intros ([k x] & _ & Hm)%existsb_exists.
    apply andb_true_iff in Hm as [_ Hm%bool_decide_eq_true].
    by apply list_elem_of_lookup_2 in Hm.
Qed.

Lemma tb_call_transfers ts ctx (e : Env) rs e' :
  wrap_err ctx (tb_call (CreateTransfers ts)) e = (Ok rs, e') →
  run_events create_transfer 0 ts (env_tb e) = (rs, env_tb e').
Proof.
  unfold wrap_err, tb_call, zoom. destruct (CreateTransfers ts (env_tb e)) as [[rs'|x|x] s] eqn:E;
    intros Hw; inv Hw. by apply CreateTransfers_ok.
Qed.

(** A successful run as a whole. *)
Lemma SubmitGaugePendingUpdates_ok us e res e' :
  SubmitGaugePendingUpdates us e = (Ok res, e') →
  length res = length us ∧
  ∃ ids adds, Forall2 (λ iu add, plan ids iu.1 iu.2 add) (enumerate us) adds ∧
    Forall2 (λ u id, gu_NewPendingID u ≠ zero16 → id = gu_NewPendingID u) us ids ∧
    ∃ rs, run_events create_transfer 0 (mjoin adds).*1 (env_tb e) = (rs, env_tb e') ∧
    (∀ kr, kr ∈ rs → gauge_answer_ok (mjoin adds).*2 kr) ∧
    res = foldl (gauge_assign ids)
            (imap (λ i, reject (exceeded (mjoin adds).*2 rs i)) (replicate (length us) (held zero16)))
            (mjoin adds).*2.
Proof.
  unfold SubmitGaugePendingUpdates. intros Hg. case_decide as Hz.
  { inv Hg. apply nil_length_inv in Hz as ->. split; [done|]. exists [], []. simpl.
    split_and!; [constructor..|]. exists []. split_and!; [done| |done]. by intros ? ?%elem_of_nil. }
  apply bind_Ok_inv in Hg as (ids & e1 & Hids & Hg). apply gauge_ids in Hids as [E1 Hids].
  apply bind_Ok_inv in Hg as ([ts ms] & e2 & Hf & Hg).
  apply gauge_fold_plan in Hf as (E2 & adds & HF & -> & ->). simpl app in Hg.
  case_decide as Hts.
  - injection Hg as <- <-. apply nil_length_inv in Hts.
    assert (mjoin adds = []) as Hnil by (by apply fmap_nil_inv in Hts).
    split; [by rewrite length_replicate|].
    exists ids, adds. split_and!; [done..|].
    exists []. rewrite Hnil. simpl. split_and!; [congruence|by intros ? ?%elem_of_nil|].
    symmetry. apply imap_const_id.
  - apply bind_Ok_inv in Hg as (rs & e3 & Hc & Hg). apply tb_call_transfers in Hc.
    apply bind_Ok_inv in Hg as (R & e4 & HR & Hg).
    apply gauge_classify_fold in HR as (-> & Hok & ->). injection Hg as <- <-.
    split; [by rewrite foldl_gauge_assign_length, length_imap, length_replicate|].
    exists ids, adds. split_and!; [done..|].
    exists rs. split_and!; [rewrite <- E1, <- E2; exact Hc|done|done].
Qed.

Lemma gauge_result_lookup ids adds us i u res r rs :
  Forall2 (λ iu add, plan ids iu.1 iu.2 add) (enumerate us) adds →
  length ids = length us →
  us !! i = Some u → res !! i = Some r →
  res = foldl (gauge_assign ids)
          (imap (λ i, reject (exceeded (mjoin adds).*2 rs i)) (replicate (length us) (held zero16)))
          (mjoin adds).*2 →
  r = (if reject (exceeded (mjoin adds).*2 rs i) (held zero16) is
          {| gr_Accepted := true |} then
         (if bool_decide ((i, false) ∈ (mjoin adds).*2)
          then held (default zero16 (ids !! i)) else held zero16)
       else rejected).
Proof.
  intros HF Hlen Hu Hr ->. rewrite gauge_assign_fold in Hr.
  - rewrite !list_lookup_imap, lookup_replicate_2 in Hr by (by eapply lookup_lt_Some).
    simpl in Hr. injection Hr as <-. unfold reject.
    destruct (exceeded _ _ _); simpl; [done|]. by destruct (bool_decide _).
  - intros m Hm _. destruct (plan_metas _ _ _ (enumerate_NoDup us) HF) as [_ Hmem].
    apply lookup_lt_is_Some. rewrite Hlen. specialize (Hmem m Hm).
    apply list_elem_of_fmap in Hmem as ([k x] & -> & [j Hj]%list_elem_of_lookup).
    rewrite enumerate_lookup in Hj. destruct (us !! j) eqn:E; inv Hj. by eapply lookup_lt_Some.
Qed.
End gauge.
