(* ===== verification/Accounts.v ===== *)
(** * Ledger accounts (internal/ledger/accounts.go)

    Creation of the global and tenant accounts and the balance lookups. *)

From S2P Require Import Prelude Domain TigerBeetle Ids Transfers.

(** ** Data *)

(** [GlobalAccountKey{Resource, AccountType}] *)
Abbreviation GlobalAccountKey := (ResourceType * AccountType)%type (only parsing).

Record BalanceSnapshot := {
  CreditsPosted : Z;
  DebitsPosted : Z;
  DebitsPending : Z;
}.

(** A [types.Account] literal: the balances start at zero. *)
Definition new_account (id : Uint128) (ledger code : Z) (flags : AccountFlags)
    (user : Uint128) : Account :=
  {| ac_ID := id; ac_DebitsPending := zero16; ac_DebitsPosted := zero16;
     ac_CreditsPending := zero16; ac_CreditsPosted := zero16;
     ac_UserData128 := user; ac_Ledger := ledger; ac_Code := code; ac_Flags := flags |}.

Definition no_account_flags : AccountFlags :=
  {| DebitsMustNotExceedCredits := false; History := false |}.
Definition quota_flags : AccountFlags :=
  {| DebitsMustNotExceedCredits := true; History := true |}.

(** [r.Result != types.AccountOK && r.Result != types.AccountExists] *)
Definition account_failed (r : CreateAccountResult) : bool :=
  match r with AccountOK | AccountExists => false | AccountOther _ => true end.

(** ** Operations *)

Definition uint128Lo (v : Uint128) : Z := le_combine (take 8 (vec_to_list v)).

Section accounts.
Context `{TigerBeetle}.

(** The loop over the reported results. *)
Fixpoint check_accounts {K} (ctx : string) (keys : list K)
    (results : list (EventResult CreateAccountResult)) : outcome unit :=
  match results with
  | [] => Ok tt
  | (idx, r) :: results =>
      if account_failed r then
        match index keys idx with
        | Ok _ => Err (EMsg ctx)
        | Err e => Err e
        | Panic p => Panic p
        end
      else check_accounts ctx keys results
  end.

(** The body of the loop over resources and roles. *)
Definition global_account_step (idMap : gmap GlobalAccountKey Uint128)
    (acc : gmap GlobalAccountKey Uint128 * list Account * list GlobalAccountKey) (key : GlobalAccountKey)
    : M Env (gmap GlobalAccountKey Uint128 * list Account * list GlobalAccountKey) :=
  let '(result, accounts, keys) := acc in
  let '(r, at_) := key in
  id ← (match idMap !! key with Some id => mret id | None => RandomID end);
  ledger ← lift (LedgerID r);
  code ← lift (AccountCodeFromType at_);
  mret (<[key := id]> result,
        accounts ++ [new_account id ledger (code mod 2 ^ 16) no_account_flags zero16],
        keys ++ [key]).

Definition CreateGlobalAccounts (idMap : gmap GlobalAccountKey Uint128)
    : M Env (gmap GlobalAccountKey Uint128) :=
  '(result, accounts, keys) ← foldM (global_account_step idMap) (∅, [], [])
    (r ← AllResources; at_ ← [AccountTypeOperator; AccountTypeSink]; [(r, at_)]);
  results ← wrap_err "CreateAccounts (global)" (tb_call (CreateAccounts accounts));
  _ ← lift (check_accounts "global account %v/%v: %v" keys results);
  mret result.

Definition CreateTenantQuotaAccounts (tenantUUID : bytes16)
    (existingIDs : gmap ResourceType Uint128) : M Env (gmap ResourceType Uint128) :=
  let tenantData := UUIDToUint128 tenantUUID in
  '(result, accounts, resources) ← foldM (λ '(result, accounts, resources) r,
      id ← (match existingIDs !! r with Some id => mret id | None => RandomID end);
      ledger ← lift (LedgerID r);
      mret (<[r := id]> result,
            accounts ++ [new_account id ledger (AccountCodeTenantQuota mod 2 ^ 16)
                           quota_flags tenantData],
            resources ++ [r]))
    (∅, [], []) AllResources;
  results ← wrap_err "CreateAccounts (tenant %x)" (tb_call (CreateAccounts accounts));
  _ ← lift (check_accounts "tenant account %v: %v" resources results);
  mret result.

Definition snapshot (acc : Account) : BalanceSnapshot :=
  {| CreditsPosted := uint128Lo (ac_CreditsPosted acc);
     DebitsPosted := uint128Lo (ac_DebitsPosted acc);
     DebitsPending := uint128Lo (ac_DebitsPending acc) |}.

(** The inner loop of [LookupBalances]: the first account with the wanted ID. *)
Fixpoint find_account (accounts : list Account) (wantID : Uint128) : option Account :=
  match accounts with
  | [] => None
  | acc :: accounts =>
      if decide (ac_ID acc = wantID) then Some acc else find_account accounts wantID
  end.

Definition LookupBalances `{GoRange} (accountIDs : gmap string bytes16)
    : M Env (gmap string BalanceSnapshot) :=
  if decide (size accountIDs = 0%nat) then mret ∅ else
  kvs ← range accountIDs;
  let keys := kvs.*1 in
  let ids := UUIDToUint128 <$> kvs.*2 in
  accounts ← wrap_err "LookupAccounts" (tb_call (TigerBeetle.LookupAccounts ids));
  foldM (λ result '(i, wantID),
    match find_account accounts wantID with
    | Some acc => k ← lift (index keys i); mret (<[k := snapshot acc]> result)
    | None => mret result
    end) ∅ (enumerate ids).

Definition LookupAccounts (ids : list Uint128) : M Env (list Account) :=
  wrap_err "LookupAccounts" (tb_call (TigerBeetle.LookupAccounts ids)).

Definition LookupAccount (id : Uint128) : M Env (option Account) :=
  accounts ← wrap_err "LookupAccount" (tb_call (TigerBeetle.LookupAccounts [id]));
  mret (head accounts).
End accounts.

(** ** Reading balances *)

(** A 128-bit value whose upper half is zero. *)
Definition fits64 (v : Uint128) : Prop := u128_val v < 2 ^ 64.

Lemma uint128Lo_mod v : uint128Lo v = u128_val v mod 2 ^ 64.
Proof.
  unfold uint128Lo, u128_val.
  rewrite <- (take_drop 8 (vec_to_list v)) at 2. rewrite le_combine_app.
  assert (length (take 8 (vec_to_list v)) = 8%nat) as Hl
    by (rewrite length_take, length_vec_to_list; lia).
  rewrite Hl. change (256 ^ Z.of_nat 8) with (2 ^ 64).
  rewrite (Z.mul_comm (2 ^ 64)), Z_mod_plus_full. symmetry. apply Z.mod_small.
  pose proof (le_combine_range (take 8 (vec_to_list v))) as Hr.
  rewrite Hl in Hr. exact Hr.
Qed.

Lemma uint128Lo_fits v : fits64 v → uint128Lo v = u128_val v.
Proof.
  intros Hv. rewrite uint128Lo_mod by done. apply Z.mod_small. split; [|done].
  apply le_combine_range.
Qed.

Section lookup.
Context `{TL : TigerBeetleLaws} `{GoRange}.
Implicit Types (e : Env).

Lemma find_account_omap s ids id :
  find_account (omap (account_at s) ids) id =
  if decide (id ∈ ids) then account_at s id else None.
Proof.
  induction ids as [|id' ids IH]; [done|].
  change (omap (account_at s) (id' :: ids)) with
    (match account_at s id' with
     | Some a => a :: omap (account_at s) ids | None => omap (account_at s) ids end).
  destruct (account_at s id') as [a|] eqn:Ha; cbn [find_account]; rewrite IH.
  - pose proof (account_at_ID _ _ _ Ha) as Hid. destruct (decide (ac_ID a = id)) as [Hd|Hd].
    + rewrite decide_True by (rewrite elem_of_cons; left; congruence). congruence.
    + apply decide_ext. rewrite elem_of_cons. naive_solver.
  - destruct (decide (id = id')) as [->|Hne].
    + rewrite Ha. by repeat case_decide.
    + apply decide_ext. rewrite elem_of_cons. naive_solver.
Qed.

Lemma tb_call_lookup ctx ids e o e' :
  wrap_err ctx (tb_call (TigerBeetle.LookupAccounts ids)) e = (o, e') →
  e' = e ∧ ∀ l, o = Ok l → l = omap (account_at (env_tb e)) ids.
Proof.
  unfold wrap_err, tb_call, zoom. destruct (TigerBeetle.LookupAccounts ids (env_tb e)) as [r s] eqn:E.
  apply LookupAccounts_ok in E as [-> Hl].
  destruct e as [tb n sd]. simpl in *.
  destruct r; intros Hw; inv Hw; (split; [done|]); [done|..]; intros ? [=].
Qed.

(** The loop that fills the result of [LookupBalances]. *)
Lemma lookup_loop accounts (kvs : list (string * bytes16)) keys i0 (m : gmap string BalanceSnapshot) e :
  (∀ j kv, kvs !! j = Some kv → keys !! (i0 + j)%nat = Some kv.1) → NoDup kvs.*1 →
  ∃ m', foldM (λ result '(i, wantID),
    match find_account accounts wantID with
    | Some acc => k ← lift (index keys i); mret (<[k := snapshot acc]> result)
    | None => mret result
    end) m (imap (λ j id, ((i0 + j)%nat, id)) kvs.*2) e = (Ok m', e) ∧
  ∀ k, m' !! k = match list_to_map (M := gmap string bytes16) kvs !! k with
                 | Some id => match find_account accounts id with
                              | Some a => Some (snapshot a) | None => m !! k end
                 | None => m !! k
                 end.
Proof.
  revert i0 m. induction kvs as [|[k id] kvs IH]; intros i0 m Hk Hnd; simpl.
  { exists m. split; [done|]. intros k. by rewrite lookup_empty. }
  inv Hnd. pose proof (Hk 0%nat (k, id) eq_refl) as Hk0. simpl in Hk0.
  set (m1 := match find_account accounts id with
             | Some a => <[k := snapshot a]> m | None => m end).
  destruct (IH (S i0) m1) as (m' & Hf & Hm').
  { intros j kv Hj. specialize (Hk (S j) kv Hj). by rewrite Nat.add_succ_r in Hk. }
  { done. }
  exists m'. split.
  - rewrite (bind_Ok _ _ _ m1 e).
    + rewrite <- Hf. f_equal. apply imap_ext. intros j x _. simpl. by rewrite Nat.add_succ_r.
    + subst m1. destruct (find_account accounts id); [|done].
      unfold index. by rewrite Hk0.
  - intros k'. rewrite Hm'. subst m1. destruct (decide (k' = k)) as [->|Hne].
    + rewrite lookup_insert_eq. rewrite not_elem_of_list_to_map_1 by done.
      destruct (find_account accounts id); [by rewrite lookup_insert_eq|done].
    + rewrite lookup_insert_ne by done.
      assert (match find_account accounts id with
              | Some a => <[k := snapshot a]> m | None => m end !! k' = m !! k') as ->; [|done].
      destruct (find_account accounts id); [by rewrite lookup_insert_ne|done].
Qed.

Lemma LookupBalances_spec accountIDs e o e' :
  LookupBalances accountIDs e = (o, e') →
  env_tb e' = env_tb e ∧
  ∀ m, o = Ok m → ∀ k, m !! k = (id ← accountIDs !! k; snapshot <$> account_at (env_tb e) id).
Proof.
  unfold LookupBalances. case_decide as Hz.
  { intros Hl. inv Hl. split; [done|]. intros m [= <-] k.
    apply map_size_empty_inv in Hz as ->. by rewrite lookup_empty. }
  rewrite bind_cases. unfold range.
  set (kvs := range_order (env_seed e) accountIDs).
  set (e1 := {| e with env_seed := S (env_seed e) |}).
  intros Hl. rewrite bind_cases in Hl.
  assert (UUIDToUint128 <$> kvs.*2 = kvs.*2) as Hu.
  { rewrite <- (list_fmap_id kvs.*2) at 2. apply list_fmap_ext. intros. apply UUIDToUint128_id. }
  rewrite Hu in Hl.
  destruct (wrap_err _ _ e1) as [r e2] eqn:Hw. apply tb_call_lookup in Hw as [-> Hacc].
  destruct r as [accounts| |]; [|by inv Hl..].
  specialize (Hacc _ eq_refl). cbn [env_tb e1] in Hacc.
  assert (kvs ≡ₚ map_to_list accountIDs) as Hp by apply range_order_perm.
  assert (NoDup kvs.*1) as Hnd.
  { rewrite Hp. apply NoDup_fst_map_to_list. }
  destruct (lookup_loop accounts kvs kvs.*1 0 ∅ e1) as (m' & Hf & Hm').
  { intros j kv Hj. rewrite Nat.add_0_l, list_lookup_fmap. by rewrite Hj. }
  { done. }
  unfold enumerate in Hl. change (imap pair kvs.*2) with (imap (λ j id, ((0 + j)%nat, id)) kvs.*2) in Hl.
  rewrite Hf in Hl. inv Hl. split; [done|]. intros m [= <-] k. rewrite Hm'.
  assert (list_to_map (M := gmap string bytes16) kvs = accountIDs) as Heq.
  { rewrite (list_to_map_proper _ _ Hnd Hp). apply list_to_map_to_list. }
  rewrite Heq. destruct (accountIDs !! k) as [id|] eqn:Hk; simpl; [|by rewrite lookup_empty].
  rewrite find_account_omap, decide_True.
  - destruct (account_at (env_tb e) id); [done|by rewrite lookup_empty].
  - apply list_elem_of_fmap. exists (k, id). split; [done|]. rewrite Hp. by apply elem_of_map_to_list.
Qed.
End lookup.

(** ** Creating accounts *)

Section creation.
Context `{TL : TigerBeetleLaws}.
Implicit Types (e : Env) (s : TBState).

Lemma accounts_kept i cs s rs s' id a :
  run_events create_account i cs s = (rs, s') →
  account_at s id = Some a → account_at s' id = Some a.
Proof.
  revert i s rs. induction cs as [|c cs IH]; intros i s rs Hr Ha; simpl in Hr; [by inv Hr|].
  destruct (create_account c s) as [r s1] eqn:E1.
  destruct (run_events create_account (S i) cs s1) as [rs1 s2] eqn:E2. inv Hr.
  eapply IH; [exact E2|]. destruct r as [r|].
  - by destruct (create_account_rejected _ _ _ _ id E1) as [-> _].
  - destruct (create_account_commits _ _ _ id E1) as (Hn & -> & _).
    case_decide; [congruence|done].
Qed.

(** When no failure but [AccountExists] is reported, every account of the
    request exists with the fields it was given. *)
Lemma accounts_created i cs s rs s' a :
  run_events create_account i cs s = (rs, s') →
  (∀ kr, kr ∈ rs → account_failed kr.2 = false) →
  a ∈ cs → static_of <$> account_at s' (ac_ID a) = Some (static_of a).
Proof.
  revert i s rs. induction cs as [|c cs IH]; intros i s rs Hr Hok Hin; simpl in Hr;
    [by apply elem_of_nil in Hin|].
  destruct (create_account c s) as [r s1] eqn:E1.
  destruct (run_events create_account (S i) cs s1) as [rs1 s2] eqn:E2. inv Hr.
  apply elem_of_cons in Hin as [->|Hin].
  - destruct r as [r|].
    + assert (r = AccountExists) as ->.
      { specialize (Hok (i, r) ltac:(left)). pose proof (create_account_reports _ _ _ _ E1).
        by destruct r. }
      pose proof (create_account_exists _ _ _ E1) as Hs.
      destruct (account_at s (ac_ID c)) as [a|] eqn:Ha; [|done].
      destruct (create_account_rejected _ _ _ _ (ac_ID c) E1) as [Heq _].
      rewrite Ha in Heq. by rewrite (accounts_kept _ _ _ _ _ _ _ E2 Heq).
    + destruct (create_account_commits _ _ _ (ac_ID c) E1) as (_ & Hc & _).
      rewrite decide_True in Hc by done. by rewrite (accounts_kept _ _ _ _ _ _ _ E2 Hc).
  - eapply IH; [exact E2| |done]. intros kr Hkr. apply Hok. destruct r; [by right|done].
Qed.

Lemma check_accounts_ok {K} ctx (keys : list K) results :
  check_accounts ctx keys results = Ok tt → ∀ kr, kr ∈ results → account_failed kr.2 = false.
Proof.
  induction results as [|[i r] rs IH]; simpl; intros Hc kr Hin; [by apply elem_of_nil in Hin|].
  destruct (account_failed r) eqn:Hr; [by destruct (index keys i)|].
  apply elem_of_cons in Hin as [->|Hin]; auto.
Qed.

Lemma tb_call_accounts cs ctx e rs e' :
  wrap_err ctx (tb_call (CreateAccounts cs)) e = (Ok rs, e') →
  run_events create_account 0 cs (env_tb e) = (rs, env_tb e').
Proof.
  unfold wrap_err, tb_call, zoom. destruct (CreateAccounts cs (env_tb e)) as [[rs'|x|x] s] eqn:E;
    intros Hw; inv Hw. by apply CreateAccounts_ok.
Qed.

(** The loop that builds the request: one account per key. *)
Section request.
Context {K : Type} `{Countable K} (mk : K → Uint128 → Account → Prop).
Abbreviation acc := (gmap K Uint128 * list Account * list K)%type (only parsing).
Context (f : acc → K → M Env acc).
Hypothesis body : ∀ m accs ks k e m' accs' ks' e',
  f (m, accs, ks) k e = (Ok (m', accs', ks'), e') →
  env_tb e' = env_tb e ∧ ∃ id a, m' = <[k := id]> m ∧ accs' = accs ++ [a] ∧ mk k id a.

Lemma request_built l m accs ks e m' accs' ks' e' :
  NoDup l →
  foldM f (m, accs, ks) l e = (Ok (m', accs', ks'), e') →
  env_tb e' = env_tb e ∧ (∀ a, a ∈ accs → a ∈ accs') ∧
  (∀ k, k ∉ l → m' !! k = m !! k) ∧
  ∀ k, k ∈ l → ∃ id a, m' !! k = Some id ∧ a ∈ accs' ∧ mk k id a.
Proof.
  revert m accs ks e. induction l as [|k l IH]; intros m accs ks e Hnd Hf; simpl in Hf.
  { inv Hf. split_and!; [done..|]. by intros k ?%elem_of_nil. }
  inv Hnd. apply bind_Ok_inv in Hf as ([[m1 accs1] ks1] & e1 & Hb & Hf).
  apply body in Hb as (E1 & id & a & -> & -> & Hmk).
  apply IH in Hf as (E2 & Hacc & Hout & Hin); [|done]. split_and!.
  - congruence.
  - intros a' Ha'. apply Hacc. apply elem_of_app. by left.
  - intros k' [Hne Hk']%not_elem_of_cons. by rewrite Hout, lookup_insert_ne by done.
  - intros k' [->|Hk']%elem_of_cons; [|by apply Hin]. exists id, a. split_and!; [| |done].
    + by rewrite Hout, lookup_insert_eq by done.
    + apply Hacc. apply elem_of_app. right. by apply list_elem_of_singleton.
Qed.
End request.
End creation.
