(* ===== verification/LedgerProps.v ===== *)
(** * Properties of the ledger package

    What a usage, allocation or gauge submission does to the ledger and what
    its results tell the caller, retries included; account creation and the
    balance lookups.  Witnesses run the operations on [TBRef]. *)

From S2P Require Import Prelude Domain TigerBeetle TBRef Ids Transfers Accounts.

Section ledger.
Context `{TL : TigerBeetleLaws}.
Implicit Types (e : Env).

(** The ledger only grows: committed transfers stay, and so do the accounts
    with their ledger, code and flags. *)
Definition extends (s s' : TBState) : Prop :=
  (∀ id t, transfer_at s id = Some t → transfer_at s' id = Some t) ∧
  (∀ id a, account_at s id = Some a → static_of <$> account_at s' id = Some (static_of a)).

Lemma extends_refl s : extends s s.
Proof. split; [done|]. by intros id a ->. Qed.

Lemma extends_trans s1 s2 s3 : extends s1 s2 → extends s2 s3 → extends s1 s3.
Proof.
  intros [T1 A1] [T2 A2]. split; [auto|]. intros id a Ha.
  specialize (A1 id a Ha). destruct (account_at s2 id) as [a2|] eqn:E2; [|done].
  rewrite (A2 id a2 E2). exact A1.
Qed.

(** What an operation does to the ledger: some sequence of transfer events. *)
Definition ran : relation Env := λ e e',
  ∃ ts, env_tb e' = final_state create_transfer ts (env_tb e).

#[local] Instance ran_preorder : PreOrder ran.
Proof.
  split.
  - intros e. by exists [].
  - intros e1 e2 e3 [ts1 H1] [ts2 H2]. exists (ts1 ++ ts2).
    by rewrite final_state_app, <- H1, <- H2.
Qed.

Lemma RandomID_ran : keeps ran RandomID.
Proof. intros e o e' He. inv He. by exists []. Qed.

Lemma CreateTransfers_ran ts : keeps ran (tb_call (CreateTransfers ts)).
Proof.
  intros e o e' He. unfold tb_call, zoom in He.
  destruct (CreateTransfers ts (env_tb e)) as [r s] eqn:E. injection He as <- <-. simpl.
  destruct r as [rs|err|p].
  - exists ts. apply CreateTransfers_ok in E. unfold final_state. by rewrite E.
  - apply CreateTransfers_err in E as [->| ->]; [by exists []|by exists ts].
  - by apply CreateTransfers_no_panic in E.
Qed.
#[local] Hint Resolve RandomID_ran CreateTransfers_ran : credit.

Lemma SubmitUsageBatch_ran us : keeps ran (SubmitUsageBatch us).
Proof. unfold SubmitUsageBatch, submitBatch. keeps_tac. Qed.

Lemma SubmitAllocations_ran allocs : keeps ran (SubmitAllocations allocs).
Proof. unfold SubmitAllocations, submitBatch. keeps_tac. Qed.

Lemma SubmitGauge_ran gs : keeps ran (SubmitGaugePendingUpdates gs).
Proof. unfold SubmitGaugePendingUpdates, gauge_transfers. keeps_tac. Qed.

Lemma ran_extends e e' : ran e e' → extends (env_tb e) (env_tb e').
Proof.
  intros [ts ->]. split; [intros id t; apply final_transfer_at|].
  intros id a Ha. by rewrite final_static, Ha.
Qed.

(** A usage record charged by this submission, not found to exist. *)
Definition charged (r : TransferResult) : bool := res_Accepted r && negb (res_Exists r).

Lemma classified_charged o r : classified o r → charged r = bool_decide (o = None).
Proof.
  unfold charged. destruct o as [[]|]; simpl; try done; intros (-> & _ & ->); done.
Qed.

(** Sums over a submission: by the committed transfers and by the results. *)
Lemma submission_sum {U} (f : Transfer → Z) (g : U → Z) (us : list U) ts res s :
  Forall2 (λ u t, g u = f t) us ts →
  Forall2 classified (event_outcomes create_transfer ts s) res →
  sum_Z f (committed create_transfer ts s) =
  sum_Z (λ '(u, r), if charged r then g u else 0) (zip us res).
Proof.
  intros Hg Hc. rewrite sum_committed. revert s res Hc.
  induction Hg as [|u t us ts Hu Hg IH]; intros s res Hc; cbn [event_outcomes] in *.
  { by inv Hc. }
  destruct (create_transfer t s) as [o s1]. inversion Hc as [|? r ? res' Ho Hr]; subst.
  cbn [zip zip_with]. rewrite !sum_Z_cons, (IH s1 res' Hr).
  rewrite (classified_charged _ _ Ho), Hu. by destruct o.
Qed.

(** A usage transfer moves its amount from the quota account to the sink. *)
Lemma usage_tb_adds u t id :
  usage_tb u = Ok t → in_u64 (ut_Amount u) →
  (if decide (id = ut_TenantQuotaID u) then ut_Amount u else 0) = adds_debits_posted id t.
Proof.
  intros (l & _ & Ht)%outcome_bind_Ok Ha. inv Ht. unfold adds_debits_posted. simpl.
  by rewrite ToUint128_val.
Qed.

Lemma alloc_tb_adds a t id :
  alloc_tb a = Ok t → in_u64 (at_Amount a) →
  (if decide (id = at_TenantQuotaID a) then at_Amount a else 0) = adds_credits_posted id t.
Proof.
  intros (l & _ & Ht)%outcome_bind_Ok Ha. inv Ht. unfold adds_credits_posted. simpl.
  by rewrite ToUint128_val.
Qed.

Lemma Forall2_with {A B} (P : A → B → Prop) (Q : A → Prop) l k :
  Forall2 P l k → (∀ x, x ∈ l → Q x) → Forall2 (λ x y, P x y ∧ Q x) l k.
Proof.
  induction 1 as [|x y l k Hp _ IH]; intros HQ; constructor.
  - split; [done|]. apply HQ. left.
  - apply IH. intros. apply HQ. by right.
Qed.

Lemma SubmitUsageBatch_ok us e res e' :
  Z.of_nat (length us) < 2 ^ 32 →
  SubmitUsageBatch us e = (Ok res, e') →
  ∃ ts, Forall2 (λ u t, usage_tb u = Ok t) us ts ∧
    env_tb e' = final_state create_transfer ts (env_tb e) ∧
    Forall2 classified (event_outcomes create_transfer ts (env_tb e)) res ∧
    submitBatch ts (λ i, t ← index us i; Ok (ut_Resource t)) e = (Ok res, e') ∧
    res_Resource <$> res = ut_Resource <$> us.
Proof.
  intros Hl Hs. rewrite SubmitUsageBatch_eq in Hs.
  destruct (mapM usage_tb us) as [ts| |] eqn:Em; [|done..]. apply mapM_Ok in Em.
  pose proof (Forall2_length Em) as Hlen. exists ts.
  destruct (submitBatch_ok _ _ _ _ _ ltac:(rewrite <- Hlen; exact Hl) Hs) as (Hf & HF & Hr).
  split_and!; [done..|]. apply list_eq. intros i. rewrite !list_lookup_fmap.
  pose proof (Forall2_length HF) as Hlen2. rewrite event_outcomes_length in Hlen2.
  destruct (res !! i) as [r|] eqn:Hi.
  - specialize (Hr i r Hi). unfold index in Hr. destruct (us !! i); [|done].
    simpl in *. congruence.
  - apply lookup_ge_None in Hi. rewrite lookup_ge_None_2; [done|lia].
Qed.

(** C13: a usage submission charges exactly what it reports. When
    [SubmitUsageBatch] succeeds there is one result per usage record, in order
    and labelled with its resource, and the posted debits of every account grow
    by exactly the amounts of the records reported as accepted and not already
    existing whose quota account it is: records reported as exceeding the
    credits or as existing charge nothing. *)
Theorem usage_charges_reported : ∀ us e res e' id a,
  Z.of_nat (length us) < 2 ^ 32 →
  (∀ u, u ∈ us → in_u64 (ut_Amount u)) →
  SubmitUsageBatch us e = (Ok res, e') →
  account_at (env_tb e) id = Some a →
  res_Resource <$> res = ut_Resource <$> us ∧
  ∃ a', account_at (env_tb e') id = Some a' ∧
    debits_posted (balance_of a') = debits_posted (balance_of a) +
      sum_Z (λ '(u, r), if charged r then
               (if decide (id = ut_TenantQuotaID u) then ut_Amount u else 0) else 0)
            (zip us res).
Proof.
  intros us e res e' id a Hl Hamt Hs Ha.
  destruct (SubmitUsageBatch_ok _ _ _ _ Hl Hs) as (ts & Hts & Hf & HF & _ & Hr).
  split; [done|]. destruct (final_balance ts _ _ _ Ha) as (a' & Ha' & Hd & _).
  exists a'. rewrite Hf. split; [done|]. rewrite Hd. f_equal.
  apply submission_sum; [|done]. eapply list.Forall2_impl;
    [exact (Forall2_with _ (λ u, in_u64 (ut_Amount u)) _ _ Hts Hamt)|].
  intros u t [Hu Hin]. by apply usage_tb_adds.
Qed.

(** Submitting usage records again is harmless. After a submission whose
    records were all accepted, submitting the same records again, at any later
    time and whatever was committed in between, leaves the ledger exactly as it
    is, whether or not the second submission succeeds. If the first one charged
    every record afresh, the repeated records are reported as accepted and
    existing. *)
Theorem usage_retry_idempotent : ∀ us e res e1 e2 o e3,
  Z.of_nat (length us) < 2 ^ 32 →
  SubmitUsageBatch us e = (Ok res, e1) →
  (∀ r, r ∈ res → res_Accepted r = true) →
  extends (env_tb e1) (env_tb e2) →
  SubmitUsageBatch us e2 = (o, e3) →
  env_tb e3 = env_tb e2 ∧
  ((∀ r, r ∈ res → charged r = true) → ∀ res', o = Ok res' →
   ∀ r, r ∈ res' → res_Accepted r = true ∧ res_Exists r = true).
Proof.
  intros us e res e1 e2 o e3 Hl Hs Hacc Hext Hs'.
  destruct (SubmitUsageBatch_ok _ _ _ _ Hl Hs) as (ts & Hts & _ & _ & Hsub & _).
  rewrite SubmitUsageBatch_eq in Hs'. rewrite (proj2 (mapM_Ok _ _ _) Hts) in Hs'.
  assert (Z.of_nat (length ts) < 2 ^ 32) as Hl' by (by rewrite <- (Forall2_length Hts)).
  split.
  - eapply submitBatch_again; [|done]. intros t Ht.
    destruct (submitBatch_accepted_taken _ _ _ _ _ Hl' Hsub Hacc t Ht) as [t' Ht'].
    exists t'. by apply (proj1 Hext).
  - intros Hch res' -> r Hr.
    assert (∀ t, t ∈ ts → transfer_at (env_tb e2) (tr_ID t) = Some t) as Hat.
    { intros t Ht. apply (proj1 Hext). eapply submitBatch_fresh_at; [done..| |done].
      intros r' Hr'. specialize (Hch r' Hr'). unfold charged in Hch.
      by destruct (res_Accepted r'), (res_Exists r'). }
    by destruct (submitBatch_again_exists _ _ _ _ _ Hl' Hat Hs' r Hr) as (? & ? & _).
Qed.

(** No submission overdraws a quota. If an account that must not exceed its
    credits is within them, it still is after [SubmitUsageBatch],
    [SubmitAllocations] or [SubmitGaugePendingUpdates], whatever the records
    contain and whether or not the call succeeds. *)
Theorem quota_never_overdrawn : ∀ e id o1 e1 o2 e2 o3 e3 us allocs gs,
  within_limit (env_tb e) id →
  SubmitUsageBatch us e = (o1, e1) →
  SubmitAllocations allocs e1 = (o2, e2) →
  SubmitGaugePendingUpdates gs e2 = (o3, e3) →
  within_limit (env_tb e1) id ∧ within_limit (env_tb e2) id ∧ within_limit (env_tb e3) id.
Proof.
  intros e id o1 e1 o2 e2 o3 e3 us allocs gs Hw H1 H2 H3.
  assert (∀ x x', ran x x' → within_limit (env_tb x) id → within_limit (env_tb x') id) as Hr.
  { intros x x' [ts ->] ?. by apply within_limit_final. }
  pose proof (Hr _ _ (SubmitUsageBatch_ran _ _ _ _ H1) Hw) as Hw1.
  pose proof (Hr _ _ (SubmitAllocations_ran _ _ _ _ H2) Hw1) as Hw2.
  by pose proof (Hr _ _ (SubmitGauge_ran _ _ _ _ H3) Hw2) as Hw3.
Qed.

Lemma SubmitAllocations_ok allocs e res e' :
  Z.of_nat (length allocs) < 2 ^ 32 →
  (∀ a, a ∈ allocs → at_TransferID a ≠ zero16) →
  SubmitAllocations allocs e = (Ok res, e') →
  ∃ ts, Forall2 (λ a t, alloc_tb a = Ok t) allocs ts ∧
    env_tb e' = final_state create_transfer ts (env_tb e) ∧
    Forall2 classified (event_outcomes create_transfer ts (env_tb e)) res ∧
    submitBatch ts (λ i, t ← index allocs i; Ok (at_Resource t)) e = (Ok res, e').
Proof.
  intros Hl Hid Hs. rewrite SubmitAllocations_eq in Hs by done.
  destruct (mapM alloc_tb allocs) as [ts| |] eqn:Em; [|done..]. apply mapM_Ok in Em.
  pose proof (Forall2_length Em) as Hlen. exists ts.
  by destruct (submitBatch_ok _ _ _ _ _ ltac:(rewrite <- Hlen; exact Hl) Hs) as (Hf & HF & _).
Qed.

(** C14: an allocation is credited once. With deterministic transfer IDs, a
    successful [SubmitAllocations] raises the posted credits of an account by
    exactly the amounts of the allocations reported as new, and repeating the
    submission after all of them were accepted, at any later time, changes
    nothing in the ledger. *)
Theorem allocation_credited_once : ∀ allocs e res e1 id a,
  Z.of_nat (length allocs) < 2 ^ 32 →
  (∀ al, al ∈ allocs → at_TransferID al ≠ zero16 ∧ in_u64 (at_Amount al)) →
  SubmitAllocations allocs e = (Ok res, e1) →
  account_at (env_tb e) id = Some a →
  (∃ a', account_at (env_tb e1) id = Some a' ∧
    credits_posted (balance_of a') = credits_posted (balance_of a) +
      sum_Z (λ '(al, r), if charged r then
               (if decide (id = at_TenantQuotaID al) then at_Amount al else 0) else 0)
            (zip allocs res)) ∧
  ((∀ r, r ∈ res → res_Accepted r = true) → ∀ e2 o e3,
   extends (env_tb e1) (env_tb e2) →
   SubmitAllocations allocs e2 = (o, e3) → env_tb e3 = env_tb e2).
Proof.
  intros allocs e res e1 id a Hl Hal Hs Ha.
  assert (∀ al, al ∈ allocs → at_TransferID al ≠ zero16) as Hid by (intros al ?; by apply Hal).
  destruct (SubmitAllocations_ok _ _ _ _ Hl Hid Hs) as (ts & Hts & Hf & HF & Hsub). split.
  - destruct (final_balance ts _ _ _ Ha) as (a' & Ha' & _ & Hc & _).
    exists a'. rewrite Hf. split; [done|]. rewrite Hc. f_equal.
    apply submission_sum; [|done]. eapply list.Forall2_impl;
      [exact (Forall2_with _ (λ al, in_u64 (at_Amount al)) _ _ Hts (λ al H, proj2 (Hal al H)))|].
    intros al t [Hu Hin]. by apply alloc_tb_adds.
  - intros Hacc e2 o e3 Hext Hs'. rewrite SubmitAllocations_eq in Hs' by done.
    rewrite (proj2 (mapM_Ok _ _ _) Hts) in Hs'.
    eapply submitBatch_again; [|done]. intros t Ht.
    destruct (submitBatch_accepted_taken _ _ _ _ _
      ltac:(by rewrite <- (Forall2_length Hts)) Hsub Hacc t Ht) as [t' Ht'].
    exists t'. by apply (proj1 Hext).
Qed.

(** C15: what a gauge update reports is what the ledger holds. When
    [SubmitGaugePendingUpdates] succeeds it submitted one batch: every update
    with an old reservation contributes its void, and every update with a
    positive amount its new pending transfer, directly after that void. The
    result of an update with a positive amount is decided by the ledger's answer
    to its pending transfer alone: accepted (with the ID of the pending transfer)
    when it was created or exists, rejected without an ID when it exceeds the
    credits, and nothing else is possible. An update to zero or below is accepted
    without an ID. *)
Theorem gauge_results_report_ledger : ∀ us e res e',
  SubmitGaugePendingUpdates us e = (Ok res, e') →
  length res = length us ∧
  ∃ ts, env_tb e' = final_state create_transfer ts (env_tb e) ∧
  ∀ i u r, us !! i = Some u → res !! i = Some r →
    (∀ old, gu_OldPendingID u = Some old → ∃ voidID ledger,
       (gu_VoidTransferID u ≠ zero16 → voidID = gu_VoidTransferID u) ∧
       void_tb u voidID old ledger ∈ ts) ∧
    if decide (gu_NewAmount u > 0) then
      ∃ j newID ledger,
        ts !! j = Some (reserve_tb u newID ledger) ∧
        LedgerID (gu_Resource u) = Ok ledger ∧
        (gu_NewPendingID u ≠ zero16 → newID = gu_NewPendingID u) ∧
        (∀ old, gu_OldPendingID u = Some old → ∃ j' voidID, j = S j' ∧
           ts !! j' = Some (void_tb u voidID old ledger)) ∧
        gauge_reported (event_outcomes create_transfer ts (env_tb e) !! j ≫= id) newID r
    else r = held zero16.
Proof.
  intros us e res e' Hs. apply SubmitGaugePendingUpdates_ok in Hs
    as (Hlen & ids & adds & HF & Hids & rs & Hrun & Hok & Hres).
  split; [done|]. exists (mjoin adds).*1. split; [unfold final_state; by rewrite Hrun|].
  intros i u r Hu Hr.
  assert ((i, u) ∈ enumerate us) as Hin.
  { apply (list_elem_of_lookup_2 _ i). by rewrite enumerate_lookup, Hu. }
  split; [by intros old Hold; eapply plan_voided|].
  assert (length ids = length us) as Hil by (symmetry; by eapply Forall2_length).
  pose proof (gauge_result_at _ _ _ _ _ _ _ _ _ HF eq_refl Hil Hu Hrun Hok) as Hat.
  rewrite (gauge_result_lookup _ _ _ _ _ _ _ _ HF Hil Hu Hr Hres). cbv zeta in Hat.
  case_decide; [|done]. destruct Hat as (j & newID & ledger & Hj & Hid & Hl & Hv & Hrep).
  exists j, newID, ledger. split_and!; [done..| | |done].
  - exact (Forall2_lookup_lr _ _ _ _ _ _ Hids Hu Hid).
  - intros old Hold. destruct (Hv old Hold) as (j' & voidID & ? & _ & ?). eauto.
Qed.

(** ** Accounts *)

Lemma AccountCodes_16 r c : AccountCodeFromType r = Ok c → c mod 2 ^ 16 = c.
Proof. unfold AccountCodeFromType. intros. repeat case_decide; by simplify_eq. Qed.

(** A tenant gets the accounts its quota needs. When
    [CreateTenantQuotaAccounts] succeeds, its result maps exactly the declared
    resources; the ID of a resource is the one handed in when there was one, and
    under it the ledger holds an account on the resource's ledger, with the
    tenant-quota code and with the flag that forbids debits beyond the credits. *)
Lemma quota_accounts_created : ∀ tenantUUID existingIDs e result e',
  CreateTenantQuotaAccounts tenantUUID existingIDs e = (Ok result, e') →
  dom result = list_to_set (C := gset string) AllResources ∧
  ∀ r id, result !! r = Some id →
    (∀ id', existingIDs !! r = Some id' → id = id') ∧
    ∃ l, LedgerID r = Ok l ∧
      static_of <$> account_at (env_tb e') id =
        Some (id, l, AccountCodeTenantQuota, quota_flags).
Proof.
  intros tenant existing e result e' Hc. unfold CreateTenantQuotaAccounts in Hc.
  apply bind_Ok_inv in Hc as ([[m accs] ks] & e1 & Hf & Hc).
  apply bind_Ok_inv in Hc as (rs & e2 & Hcall & Hc). apply tb_call_accounts in Hcall.
  apply bind_Ok_inv in Hc as ([] & e3 & Hchk & Hc). injection Hchk as Hchk <-. injection Hc as <- <-.
  pose proof (check_accounts_ok _ _ _ Hchk) as Hnone.
  apply (request_built (λ r id a,
    (∀ id', existing !! r = Some id' → id = id') ∧ ac_ID a = id ∧
    ∃ l, LedgerID r = Ok l ∧
         static_of a = (id, l, AccountCodeTenantQuota, quota_flags)))
    in Hf as (E1 & _ & Hout & Hin); [|clear..|apply AllResources_NoDup].
  - split.
    + apply set_eq. intros r. rewrite elem_of_dom, elem_of_list_to_set. split.
      * intros [id Hid]. destruct (decide (r ∈ AllResources)) as [|Hn]; [done|].
        by rewrite Hout, lookup_empty in Hid by done.
      * intros Hr. destruct (Hin r Hr) as (id & _ & Hid & _). eauto.
    + intros r id Hid.
      assert (r ∈ AllResources) as Hr.
      { destruct (decide (r ∈ AllResources)) as [|Hn]; [done|].
        by rewrite Hout, lookup_empty in Hid by done. }
      destruct (Hin r Hr) as (id' & a & Hid' & Ha & Hex & Haid & l & Hl & Hst).
      assert (id' = id) as -> by congruence. split; [done|]. exists l. split; [done|].
      rewrite <- Hst, <- Haid. by eapply accounts_created.
  - intros m accs ks r e m' accs' ks' e' Hb.
    apply bind_Ok_inv in Hb as (id & e1 & Hid & Hb).
    apply bind_Ok_inv in Hb as (l & e2 & Hl & Hb). injection Hl as Hl <-. injection Hb as <- <- <- <-.
    assert (env_tb e1 = env_tb e ∧ ∀ id', existing !! r = Some id' → id = id') as [-> Hex].
    { destruct (existing !! r); inv Hid; by split; [|intros ? [=]]. }
    split; [done|]. exists id. eexists. split_and!; [done..|]. by exists l.
Qed.

(** The operator and sink accounts exist after [CreateGlobalAccounts]. Its
    result maps exactly the pairs of a declared resource with the operator and
    the sink role; the ID is the one handed in when there was one, and the
    ledger holds an unlimited account under it, on the resource's ledger and with
    the code of the role. *)
Lemma global_accounts_created : ∀ idMap e result e',
  CreateGlobalAccounts idMap e = (Ok result, e') →
  ∀ r role, match result !! (r, role) with
  | None => r ∉ AllResources ∨ role ∉ [AccountTypeOperator; AccountTypeSink]
  | Some id =>
      (∀ id', idMap !! (r, role) = Some id' → id = id') ∧
      ∃ l c, LedgerID r = Ok l ∧ AccountCodeFromType role = Ok c ∧
        static_of <$> account_at (env_tb e') id = Some (id, l, c, no_account_flags)
  end.
Proof.
  intros idMap e result e' Hc r role. unfold CreateGlobalAccounts in Hc.
  apply bind_Ok_inv in Hc as ([[m accs] ks] & e1 & Hf & Hc).
  apply bind_Ok_inv in Hc as (rs & e2 & Hcall & Hc). apply tb_call_accounts in Hcall.
  apply bind_Ok_inv in Hc as ([] & e3 & Hchk & Hc). injection Hchk as Hchk <-. injection Hc as <- <-.
  pose proof (check_accounts_ok _ _ _ Hchk) as Hnone.
  apply (request_built (λ k id a,
    (∀ id', idMap !! k = Some id' → id = id') ∧ ac_ID a = id ∧
    ∃ l c, LedgerID k.1 = Ok l ∧ AccountCodeFromType k.2 = Ok c ∧
         static_of a = (id, l, c, no_account_flags)))
    in Hf as (E1 & _ & Hout & Hin); [|clear..|apply (bool_decide_unpack _); by vm_compute].
  - destruct (m !! (r, role)) as [id|] eqn:Hid.
    + assert ((r, role) ∈ (r ← AllResources; at_ ← [AccountTypeOperator; AccountTypeSink]; [(r, at_)])) as Hr.
      { apply dec_stable. intros Hn. by rewrite Hout, lookup_empty in Hid by done. }
      destruct (Hin _ Hr) as (id' & a & Hid' & Ha & Hex & Haid & l & c & Hl & Hcd & Hst).
      assert (id' = id) as -> by congruence. split; [done|]. exists l, c. split_and!; [done..|].
      rewrite <- Hst, <- Haid. by eapply accounts_created.
    + destruct (decide (r ∈ AllResources)) as [Hr|]; [|by left].
      destruct (decide (role ∈ [AccountTypeOperator; AccountTypeSink])) as [Hro|]; [|by right].
      destruct (Hin (r, role)) as (id & _ & Hid' & _); [|congruence].
      apply list_elem_of_bind. exists r. split; [|done]. apply list_elem_of_bind. exists role.
      split; [by left|done].
  - intros m accs ks k e m' accs' ks' e' Hb. destruct k as [kr krole].
    unfold global_account_step in Hb.
    apply bind_Ok_inv in Hb as (id & e1 & Hid & Hb).
    apply bind_Ok_inv in Hb as (l & e2 & Hl & Hb). injection Hl as Hl <-.
    apply bind_Ok_inv in Hb as (c & e2 & Hcd & Hb). injection Hcd as Hcd <-. injection Hb as <- <- <- <-.
    assert (env_tb e1 = env_tb e ∧ ∀ id', idMap !! (kr, krole) = Some id' → id = id') as [-> Hex].
    { destruct (idMap !! (kr, krole)); inv Hid; by split; [|intros ? [=]]. }
    split; [done|]. exists id. eexists. split_and!; [done..|]. exists l, c.
    split_and!; [done..|]. unfold static_of, new_account. simpl. by rewrite (AccountCodes_16 _ _ Hcd).
Qed.

(** Balances are read faithfully. [LookupBalances] writes nothing; when it
    succeeds, a key of the request is in the result exactly when the ledger has
    its account, whatever order the map is visited in, and when the balances fit
    in 64 bits the entry holds the account's balances. *)
Theorem balances_read_faithfully `{GoRange} : ∀ accountIDs e o e',
  LookupBalances accountIDs e = (o, e') →
  env_tb e' = env_tb e ∧
  ∀ m, o = Ok m → ∀ k,
  match accountIDs !! k ≫= account_at (env_tb e) with
  | None => m !! k = None
  | Some a => ∃ b, m !! k = Some b ∧
      (fits64 (ac_CreditsPosted a) → CreditsPosted b = credits_posted (balance_of a)) ∧
      (fits64 (ac_DebitsPosted a) → DebitsPosted b = debits_posted (balance_of a)) ∧
      (fits64 (ac_DebitsPending a) → DebitsPending b = debits_pending (balance_of a))
  end.
Proof.
  intros accountIDs e o e' Hl. apply LookupBalances_spec in Hl as [He Hm]. split; [done|].
  intros m -> k. rewrite (Hm m eq_refl k). destruct (accountIDs !! k) as [id|]; [|done]. simpl.
  destruct (account_at (env_tb e) id) as [a|]; [|done]. simpl.
  eexists. split; [done|]. unfold snapshot. simpl.
  split_and!; intros Hfit; by apply uint128Lo_fits.
Qed.
End ledger.

(** ** Concrete runs on the reference ledger *)

#[export] Instance map_order : GoRange.
Proof. refine {| range_order _ A m := map_to_list m |}. done. Defined.

Definition demo_id (n : Z) : Uint128 := ref_ToUint128 n.

(** A tenant with 100 credits on the CPU ledger and 5 on the node ledger. *)
Definition demo_tb : RefState :=
  let accounts := [
    new_account (demo_id 11) 1 AccountCodeOperator no_account_flags zero16;
    new_account (demo_id 21) 1 AccountCodeTenantQuota quota_flags zero16;
    new_account (demo_id 31) 1 AccountCodeSink no_account_flags zero16;
    new_account (demo_id 13) 3 AccountCodeOperator no_account_flags zero16;
    new_account (demo_id 23) 3 AccountCodeTenantQuota quota_flags zero16;
    new_account (demo_id 33) 3 AccountCodeSink no_account_flags zero16] in
  let allocate n d c amount ledger :=
    {| tr_ID := demo_id n; tr_DebitAccountID := demo_id d; tr_CreditAccountID := demo_id c;
       tr_Amount := demo_id amount; tr_PendingID := zero16; tr_UserData128 := zero16;
       tr_UserData64 := 0; tr_Ledger := ledger; tr_Code := CodeQuotaAllocation;
       tr_Flags := no_flags |} in
  (TigerBeetle.CreateTransfers [allocate 1 11 21 100 1; allocate 2 13 23 5 3]
     (TigerBeetle.CreateAccounts accounts ref_empty).2).2.

Definition demo_env : Env := {| env_tb := demo_tb : TBState; env_ids := 0; env_seed := 0 |}.

Definition demo_usage (n amount : Z) : UsageTransfer :=
  {| ut_Resource := ResourceCPUHours; ut_OperatorID := demo_id 11;
     ut_TenantQuotaID := demo_id 21; ut_SinkID := demo_id 31; ut_Amount := amount;
     ut_TransferID := demo_id n; ut_ClusterUUID := zero16; ut_HeartbeatTsNs := 1 |}.

Definition demo_usages : list UsageTransfer := [demo_usage 501 30; demo_usage 502 12].
Definition demo_over : list UsageTransfer := [demo_usage 501 30; demo_usage 503 80].

Definition demo_alloc : AllocationTransfer :=
  {| at_Resource := ResourceCPUHours; at_OperatorID := demo_id 11;
     at_TenantQuotaID := demo_id 21; at_Amount := 7; at_Code := CodeQuotaAllocation;
     at_TenantUUID := zero16; at_PeriodStartNs := 0; at_TransferID := demo_id 601 |}.

Definition demo_gauge (old : option bytes16) (amount pend void : Z) : GaugePendingUpdate :=
  {| gu_Resource := ResourceActiveNodes; gu_TenantQuotaID := demo_id 23;
     gu_SinkID := demo_id 33; gu_OldPendingID := old; gu_NewAmount := amount;
     gu_ClusterUUID := zero16; gu_HeartbeatTsNs := 1;
     gu_NewPendingID := demo_id pend; gu_VoidTransferID := demo_id void |}.

(** The value of a run that succeeded. *)
Definition value_of {A S} (d : A) (r : outcome A * S) : A :=
  match r.1 with Ok a => a | _ => d end.

Definition succeeds {A S} (r : outcome A * S) : bool :=
  match r.1 with Ok _ => true | _ => false end.

Lemma value_ok {A S} (d : A) (r : outcome A * S) :
  succeeds r = true → r = (Ok (value_of d r), r.2).
Proof. by destruct r as [[] ?]. Qed.

Lemma unit_ok {S} (r : outcome unit * S) : succeeds r = true → r = (Ok tt, r.2).
Proof. by destruct r as [[[]| |] ?]. Qed.

Definition account_of (s : TBState) (id : Uint128) : Account :=
  default (new_account id 0 0 no_account_flags zero16) (account_at s id).

Lemma account_of_ok (s : TBState) id :
  (if account_at s id is Some _ then true else false) = true →
  account_at s id = Some (account_of s id).
Proof. unfold account_of. by destruct (account_at s id). Qed.

Lemma usage_charges_reported_witness :
  let run := SubmitUsageBatch demo_over demo_env in
  charged <$> value_of [] run = [true; false] ∧
  ∃ a', account_at (env_tb run.2) (demo_id 21) = Some a' ∧ debits_posted (balance_of a') = 30.
Proof.
  split; [by vm_compute|].
  destruct (usage_charges_reported demo_over demo_env
    (value_of [] (SubmitUsageBatch demo_over demo_env)) (SubmitUsageBatch demo_over demo_env).2
    (demo_id 21) (account_of demo_tb (demo_id 21))) as (_ & a' & Ha' & Hd).
  - by vm_compute.
  - apply (forallb_decide (λ u, in_u64 (ut_Amount u))). by vm_compute.
  - apply value_ok. by vm_compute.
  - apply account_of_ok. by vm_compute.
  - exists a'. split; [exact Ha'|]. rewrite Hd. by vm_compute.
Defined.

Lemma usage_retry_idempotent_witness :
  let run := SubmitUsageBatch demo_usages demo_env in
  env_tb (SubmitUsageBatch demo_usages run.2).2 = env_tb run.2 ∧
  (∀ r, r ∈ value_of [] (SubmitUsageBatch demo_usages run.2) →
        res_Accepted r = true ∧ res_Exists r = true).
Proof.
  intros run.
  destruct (usage_retry_idempotent demo_usages demo_env (value_of [] run) run.2 run.2
    (SubmitUsageBatch demo_usages run.2).1 (SubmitUsageBatch demo_usages run.2).2) as [H1 H2].
  - by vm_compute.
  - apply value_ok. by vm_compute.
  - apply forallb_True_iff. by vm_compute.
  - apply extends_refl.
  - by destruct (SubmitUsageBatch demo_usages run.2).
  - split; [exact H1|]. apply H2; [|apply (f_equal fst (value_ok [] (SubmitUsageBatch demo_usages run.2) ltac:(by vm_compute)))].
    apply forallb_True_iff. by vm_compute.
Defined.

Lemma within_limit_bool (s : TBState) id :
  match account_at s id with
  | Some a => negb (DebitsMustNotExceedCredits (ac_Flags a)) || bool_decide
      (debits_pending (balance_of a) + debits_posted (balance_of a) ≤ credits_posted (balance_of a))
  | None => true
  end = true → within_limit s id.
Proof.
  intros H a Ha Hf. rewrite Ha, Hf in H. by apply bool_decide_eq_true in H.
Qed.

Lemma quota_never_overdrawn_witness :
  let e1 := (SubmitUsageBatch demo_over demo_env).2 in
  let e2 := (SubmitAllocations [demo_alloc] e1).2 in
  let e3 := (SubmitGaugePendingUpdates [demo_gauge None 9 701 702] e2).2 in
  within_limit (env_tb e3) (demo_id 23).
Proof.
  intros e1 e2 e3.
  apply (quota_never_overdrawn demo_env (demo_id 23) (SubmitUsageBatch demo_over demo_env).1 e1
    (SubmitAllocations [demo_alloc] e1).1 e2
    (SubmitGaugePendingUpdates [demo_gauge None 9 701 702] e2).1 e3
    demo_over [demo_alloc] [demo_gauge None 9 701 702]).
  - apply within_limit_bool. by vm_compute.
  - apply surjective_pairing.
  - apply surjective_pairing.
  - apply surjective_pairing.
Defined.

Lemma allocation_credited_once_witness :
  let run := SubmitAllocations [demo_alloc] demo_env in
  (∃ a', account_at (env_tb run.2) (demo_id 21) = Some a' ∧ credits_posted (balance_of a') = 107) ∧
  env_tb (SubmitAllocations [demo_alloc] run.2).2 = env_tb run.2.
Proof.
  intros run.
  destruct (allocation_credited_once [demo_alloc] demo_env (value_of [] run) run.2
    (demo_id 21) (account_of demo_tb (demo_id 21))) as [(a' & Ha' & Hc) Hagain].
  - by vm_compute.
  - intros al ->%list_elem_of_singleton. split; [apply (bool_decide_unpack _); by vm_compute|].
    unfold in_u64. simpl. lia.
  - apply value_ok. by vm_compute.
  - apply account_of_ok. by vm_compute.
  - split.
    + exists a'. split; [exact Ha'|]. rewrite Hc. by vm_compute.
    + apply (Hagain ltac:(apply forallb_True_iff; by vm_compute)
        run.2 (SubmitAllocations [demo_alloc] run.2).1).
      * apply extends_refl.
      * by destruct (SubmitAllocations [demo_alloc] run.2).
Defined.

Lemma gauge_results_report_ledger_witness :
  let us := [demo_gauge None 2 701 702; demo_gauge None 9 703 704;
             demo_gauge (Some (demo_id 701)) 0 705 706] in
  let run := SubmitGaugePendingUpdates us demo_env in
  value_of [] run = [held (demo_id 701); rejected; held zero16] ∧
  length (value_of [] run) = 3%nat.
Proof.
  intros us run. split; [by vm_compute|].
  apply (gauge_results_report_ledger us demo_env (value_of [] run) run.2).
  apply value_ok. by vm_compute.
Defined.

Lemma balances_read_faithfully_witness :
  let run := LookupBalances {[ "cpu_hours" := demo_id 21; "x" := demo_id 99 ]} demo_env in
  value_of ∅ run !! "x" = None ∧
  ∃ b, value_of ∅ run !! "cpu_hours" = Some b ∧ CreditsPosted b = 100.
Proof.
  intros run.
  destruct (balances_read_faithfully {[ "cpu_hours" := demo_id 21; "x" := demo_id 99 ]}
    demo_env (Ok (value_of ∅ run)) run.2 ltac:(apply value_ok; by vm_compute)) as [_ Hm].
  specialize (Hm _ eq_refl). split.
  - pose proof (Hm "x") as Hx.
    assert (({[ "cpu_hours" := demo_id 21; "x" := demo_id 99 ]} : gmap string bytes16)
              !! "x" ≫= account_at (env_tb demo_env) = None) as Ha by by vm_compute.
    by rewrite Ha in Hx.
  - pose proof (Hm "cpu_hours") as Hx.
    assert (({[ "cpu_hours" := demo_id 21; "x" := demo_id 99 ]} : gmap string bytes16)
              !! "cpu_hours" ≫= account_at (env_tb demo_env)
            = Some (account_of demo_tb (demo_id 21))) as Ha by by vm_compute.
    rewrite Ha in Hx. destruct Hx as (b & Hb & Hc & _).
    exists b. split; [exact Hb|]. rewrite Hc; by vm_compute.
Defined.
