(* ===== verification/Postgres.v ===== *)
(** * The PostgreSQL side (internal/db/sqlcgen, sql/migrations/001_initial.sql)

    The tables of the schema as finite maps keyed by their primary keys, and one
    operation per generated query.  The defaults, checks, foreign keys, generated
    column and conflict clauses are those of the migration and of the SQL text in
    the generated files.  Every call may fail: the database carries an oracle
    that lets the n-th call fail before or after it took effect.  The order of
    rows that a statement does not order, the text collation, the clock and
    [gen_random_uuid] are the server's and are parameters. *)

From stdpp Require Import sorting.
From S2P Require Import Prelude Domain.

Abbreviation UUID := bytes16 (only parsing).

(** ** Rows (models.go) *)

Record CreditAdjustment := {
  ca_ID : UUID;
  ca_TenantID : UUID;
  ca_ResourceType : string;
  ca_Amount : Z;
  ca_Reason : option string;
  ca_TbTransferID : list Z;
  ca_CreatedAt : Z;
}.

Record QuotaConfig := {
  qc_TenantID : UUID;
  qc_ResourceType : string;
  qc_BasePlanID : option UUID;
  qc_HardLimit : Z;
  qc_SoftLimit : option Z;
  qc_BurstCredits : Z;
  qc_BillingPeriod : string;
  qc_SoftLimitAlertSent : bool;
}.

Record QuotaSnapshot := {
  qs_TenantID : UUID;
  qs_ResourceType : string;
  qs_CreditsTotal : Z;
  qs_DebitsPosted : Z;
  qs_DebitsPending : Z;
  qs_Available : option Z;
  qs_SnapshotAt : Z;
}.

Record TbAccountID := {
  ta_TenantID : UUID;
  ta_ResourceType : string;
  ta_AccountType : string;
  ta_TbAccountID : list Z;
  ta_CreatedAt : Z;
}.

Record TbGlobalAccountID := {
  tg_ResourceType : string;
  tg_AccountType : string;
  tg_TbAccountID : list Z;
  tg_CreatedAt : Z;
}.

Record Tenant := {
  tn_ID : UUID;
  tn_Name : string;
  tn_BillingTier : string;
  tn_Status : string;
  tn_CreatedAt : Z;
  tn_DeletedAt : option Z;
}.

Record WorkloadCluster := {
  wc_ID : UUID;
  wc_TenantID : UUID;
  wc_CloudProvider : string;
  wc_Region : string;
  wc_LastHeartbeat : option Z;
  wc_Status : string;
  wc_AgentVersion : option string;
  wc_DeregisteredAt : option Z;
  wc_CreatedAt : Z;
}.

Record Tables := {
  tenants : gmap UUID Tenant;
  workload_clusters : gmap UUID WorkloadCluster;
  quota_configs : gmap (UUID * string) QuotaConfig;
  tb_account_ids : gmap (UUID * string * string) TbAccountID;
  tb_global_account_ids : gmap (string * string) TbGlobalAccountID;
  quota_snapshots : gmap (UUID * string) QuotaSnapshot;
  credit_adjustments : list CreditAdjustment;
}.

Definition empty_tables : Tables :=
  {| tenants := ∅; workload_clusters := ∅; quota_configs := ∅; tb_account_ids := ∅;
     tb_global_account_ids := ∅; quota_snapshots := ∅; credit_adjustments := [] |}.

(** ** Calls *)

(** What the connection does to a call: nothing, an error instead of the
    statement, or an error although the statement was executed. *)
Inductive fault := NoFault | FailBefore (e : error) | FailAfter (e : error).

(** The server's side: row order, collation, clock and generated keys. *)
Class PGServer := {
  rows : nat → ∀ {A}, list A → list A;
  rows_perm : ∀ n A (l : list A), rows n l ≡ₚ l;
  text_le : string → string → bool;
  pg_now : nat → Z;
  gen_random_uuid : nat → UUID;
}.

Record DB := {
  db_tables : Tables;
  db_calls : nat;
  db_fault : nat → fault;
}.

(** One statement: it sees the call number and the tables; a failing statement
    leaves the tables alone. *)
Definition query {A} (stmt : nat → Tables → outcome (A * Tables)) : M DB A := λ d,
  let n := db_calls d in
  let d' := {| d with db_calls := S n |} in
  match db_fault d n with
  | FailBefore e => (Err e, d')
  | NoFault =>
      match stmt n (db_tables d) with
      | Ok (a, t) => (Ok a, {| d' with db_tables := t |})
      | Err e => (Err e, d')
      | Panic p => (Panic p, d')
      end
  | FailAfter e =>
      match stmt n (db_tables d) with
      | Ok (_, t) => (Err e, {| d' with db_tables := t |})
      | _ => (Err e, d')
      end
  end.

(** Violated constraints. *)
Definition ErrUnique : error := EExternal 23505.
Definition ErrForeignKey : error := EExternal 23503.
Definition ErrCheck : error := EExternal 23514.
Definition ErrOutOfRange : error := EExternal 22003.

Definition check (b : bool) (e : error) : outcome unit := if b then Ok tt else Err e.

Definition tenant_exists (t : Tables) (id : UUID) : bool :=
  bool_decide (is_Some (tenants t !! id)).

(** [ORDER BY] a column of numbers or times. *)
Definition by_Z {A} (f : A → Z) : relation A := λ a b, f a ≤ f b.
#[export] Instance by_Z_dec {A} (f : A → Z) : RelDecision (by_Z f).
Proof. intros a b. unfold by_Z. apply _. Defined.

(** ** tenants.sql.go *)

Section queries.
Context `{PGServer}.

Definition DeleteTenant (id : UUID) : M DB unit := query (λ n t,
  Ok (tt, {| t with tenants := alter (λ r, {| r with tn_Status := "deregistered";
                                                     tn_DeletedAt := Some (pg_now n) |})
                                     id (tenants t) |})).

Definition GetTenant (id : UUID) : M DB Tenant := query (λ n t,
  match tenants t !! id with Some r => Ok (r, t) | None => Err ErrNoRows end).

Definition InsertTenant (iD : UUID) (name billingTier : string) : M DB Tenant := query (λ n t,
  _ ← check (bool_decide (billingTier ∈ ["free"; "starter"; "pro"; "enterprise"])) ErrCheck;
  _ ← check (negb (tenant_exists t iD)) ErrUnique;
  let r := {| tn_ID := iD; tn_Name := name; tn_BillingTier := billingTier;
              tn_Status := "active"; tn_CreatedAt := pg_now n; tn_DeletedAt := None |} in
  Ok (r, {| t with tenants := <[iD := r]> (tenants t) |})).

Definition ListTenants : M DB (list Tenant) := query (λ n t,
  let live := filter (λ r, tn_DeletedAt r = None) (map_to_list (tenants t)).*2 in
  Ok (merge_sort (by_Z tn_CreatedAt) (rows n live), t)).

Definition UpdateTenantStatus (iD : UUID) (status : string) : M DB unit := query (λ n t,
  match tenants t !! iD with
  | None => Ok (tt, t)
  | Some r =>
      _ ← check (bool_decide (status ∈ ["active"; "suspended"; "deregistered"])) ErrCheck;
      Ok (tt, {| t with tenants := <[iD := {| r with tn_Status := status |}]> (tenants t) |})
  end).

(** ** clusters.sql.go *)

Definition DeregisterCluster (id : UUID) : M DB unit := query (λ n t,
  Ok (tt, {| t with workload_clusters :=
    alter (λ r, {| r with wc_Status := "deregistered"; wc_DeregisteredAt := Some (pg_now n) |})
          id (workload_clusters t) |})).

Definition GetCluster (id : UUID) : M DB WorkloadCluster := query (λ n t,
  match workload_clusters t !! id with Some r => Ok (r, t) | None => Err ErrNoRows end).

Definition InsertCluster (iD tenantID : UUID) (cloudProvider region : string)
    : M DB WorkloadCluster := query (λ n t,
  _ ← check (bool_decide (cloudProvider ∈ ["aws"; "gcp"; "azure"])) ErrCheck;
  _ ← check (negb (bool_decide (is_Some (workload_clusters t !! iD)))) ErrUnique;
  _ ← check (tenant_exists t tenantID) ErrForeignKey;
  let r := {| wc_ID := iD; wc_TenantID := tenantID; wc_CloudProvider := cloudProvider;
              wc_Region := region; wc_LastHeartbeat := None; wc_Status := "healthy";
              wc_AgentVersion := None; wc_DeregisteredAt := None;
              wc_CreatedAt := pg_now n |} in
  Ok (r, {| t with workload_clusters := <[iD := r]> (workload_clusters t) |})).

Definition ListClustersByTenant (tenantID : UUID) : M DB (list WorkloadCluster) := query (λ n t,
  let live := filter (λ r, wc_TenantID r = tenantID ∧ wc_DeregisteredAt r = None)
                     (map_to_list (workload_clusters t)).*2 in
  Ok (merge_sort (by_Z wc_CreatedAt) (rows n live), t)).

(** [ORDER BY last_heartbeat]: nulls come last. *)
Definition heartbeat_le (a b : WorkloadCluster) : Prop :=
  match wc_LastHeartbeat a, wc_LastHeartbeat b with
  | Some x, Some y => x ≤ y
  | _, None => True
  | None, Some _ => False
  end.
#[local] Instance heartbeat_le_dec : RelDecision heartbeat_le.
Proof. intros a b. unfold heartbeat_le. repeat case_match; apply _. Defined.

Definition stale_since (lastHeartbeat : option Z) (r : WorkloadCluster) : bool :=
  match wc_LastHeartbeat r, lastHeartbeat with
  | None, _ => true
  | Some h, Some l => bool_decide (h < l)
  | Some _, None => false
  end.

Definition ListStaleClusters (lastHeartbeat : option Z) : M DB (list WorkloadCluster) :=
  query (λ n t,
  let stale := filter (λ r, (wc_Status r ∉ ["deregistered"; "suspended"]) ∧
                              stale_since lastHeartbeat r = true) (map_to_list (workload_clusters t)).*2 in
  Ok (merge_sort heartbeat_le (rows n stale), t)).

Definition UpdateClusterHeartbeat (id : UUID) : M DB unit := query (λ n t,
  Ok (tt, {| t with workload_clusters :=
    alter (λ r, {| r with wc_LastHeartbeat := Some (pg_now n); wc_Status := "healthy" |})
          id (workload_clusters t) |})).

Definition UpdateClusterStatus (iD : UUID) (status : string) : M DB unit := query (λ n t,
  match workload_clusters t !! iD with
  | None => Ok (tt, t)
  | Some r =>
      _ ← check (bool_decide (status ∈ ["healthy"; "degraded"; "unreachable"; "suspended";
                                        "deregistered"])) ErrCheck;
      Ok (tt, {| t with workload_clusters :=
                 <[iD := {| r with wc_Status := status |}]> (workload_clusters t) |})
  end).

(** ** quota.sql.go *)

(** [ORDER BY tenant_id, resource_type] *)
Fixpoint bytes_lt (a b : list Z) : bool :=
  match a, b with
  | x :: a, y :: b => bool_decide (x < y) || (bool_decide (x = y) && bytes_lt a b)
  | [], _ :: _ => true
  | _, [] => false
  end.

Definition snapshot_le (a b : QuotaSnapshot) : Prop :=
  bytes_lt (vec_to_list (qs_TenantID a)) (vec_to_list (qs_TenantID b)) = true ∨
  (qs_TenantID a = qs_TenantID b ∧ text_le (qs_ResourceType a) (qs_ResourceType b) = true).
#[local] Instance snapshot_le_dec : RelDecision snapshot_le.
Proof. intros a b. unfold snapshot_le. apply _. Defined.

Definition GetAllQuotaSnapshots : M DB (list QuotaSnapshot) := query (λ n t,
  Ok (merge_sort snapshot_le (rows n (map_to_list (quota_snapshots t)).*2), t)).

Definition GetGlobalTBAccount (resourceType accountType : string) : M DB (list Z) :=
  query (λ n t,
  match tb_global_account_ids t !! (resourceType, accountType) with
  | Some r => Ok (tg_TbAccountID r, t)
  | None => Err ErrNoRows
  end).

Definition GetGlobalTBAccounts : M DB (list TbGlobalAccountID) := query (λ n t,
  Ok (rows n (map_to_list (tb_global_account_ids t)).*2, t)).

Definition GetQuotaSnapshots (tenantID : UUID) : M DB (list QuotaSnapshot) := query (λ n t,
  Ok (rows n (filter (λ r, qs_TenantID r = tenantID) (map_to_list (quota_snapshots t)).*2), t)).

Definition GetTBAccountIDs (tenantID : UUID) : M DB (list TbAccountID) := query (λ n t,
  Ok (rows n (filter (λ r, ta_TenantID r = tenantID) (map_to_list (tb_account_ids t)).*2), t)).

Definition InsertCreditAdjustment (tenantID : UUID) (resourceType : string) (amount : Z)
    (reason : option string) (tbTransferID : list Z) : M DB unit := query (λ n t,
  let id := gen_random_uuid n in
  _ ← check (negb (bool_decide (id ∈ ca_ID <$> credit_adjustments t))) ErrUnique;
  _ ← check (tenant_exists t tenantID) ErrForeignKey;
  Ok (tt, {| t with credit_adjustments := credit_adjustments t ++
    [{| ca_ID := id; ca_TenantID := tenantID; ca_ResourceType := resourceType;
        ca_Amount := amount; ca_Reason := reason; ca_TbTransferID := tbTransferID;
        ca_CreatedAt := pg_now n |}] |})).

Definition InsertGlobalTBAccount (resourceType accountType : string) (tbAccountID : list Z)
    : M DB unit := query (λ n t,
  _ ← check (bool_decide (accountType ∈ ["operator"; "sink"])) ErrCheck;
  let k := (resourceType, accountType) in
  match tb_global_account_ids t !! k with
  | Some _ => Ok (tt, t)
  | None => Ok (tt, {| t with tb_global_account_ids :=
      <[k := {| tg_ResourceType := resourceType; tg_AccountType := accountType;
                tg_TbAccountID := tbAccountID; tg_CreatedAt := pg_now n |}]>
        (tb_global_account_ids t) |})
  end).

Definition InsertQuotaConfig (tenantID : UUID) (resourceType : string) (hardLimit : Z)
    (softLimit : option Z) : M DB unit := query (λ n t,
  let k := (tenantID, resourceType) in
  match quota_configs t !! k with
  | Some _ => Ok (tt, t)
  | None =>
      _ ← check (tenant_exists t tenantID) ErrForeignKey;
      Ok (tt, {| t with quota_configs :=
        <[k := {| qc_TenantID := tenantID; qc_ResourceType := resourceType;
                  qc_BasePlanID := None; qc_HardLimit := hardLimit; qc_SoftLimit := softLimit;
                  qc_BurstCredits := 0; qc_BillingPeriod := "monthly";
                  qc_SoftLimitAlertSent := false |}]> (quota_configs t) |})
  end).

Definition InsertTBAccountMapping (tenantID : UUID) (resourceType accountType : string)
    (tbAccountID : list Z) : M DB unit := query (λ n t,
  _ ← check (bool_decide (accountType ∈ ["operator"; "tenant_quota"; "sink"])) ErrCheck;
  let k := (tenantID, resourceType, accountType) in
  match tb_account_ids t !! k with
  | Some _ => Ok (tt, t)
  | None =>
      _ ← check (tenant_exists t tenantID) ErrForeignKey;
      Ok (tt, {| t with tb_account_ids :=
        <[k := {| ta_TenantID := tenantID; ta_ResourceType := resourceType;
                  ta_AccountType := accountType; ta_TbAccountID := tbAccountID;
                  ta_CreatedAt := pg_now n |}]> (tb_account_ids t) |})
  end).

Definition ListCreditAdjustmentsByTenant (tenantID : UUID) : M DB (list CreditAdjustment) :=
  query (λ n t,
  let mine := filter (λ r, ca_TenantID r = tenantID) (credit_adjustments t) in
  Ok (merge_sort (flip (by_Z ca_CreatedAt)) (rows n mine), t)).

Definition ListQuotaConfigsByTenant (tenantID : UUID) : M DB (list QuotaConfig) := query (λ n t,
  Ok (rows n (filter (λ r, qc_TenantID r = tenantID) (map_to_list (quota_configs t)).*2), t)).

Definition set_alert_sent (b : bool) (tenantID : UUID) (resourceType : string) (t : Tables)
    : Tables :=
  {| t with quota_configs := alter (λ r, {| r with qc_SoftLimitAlertSent := b |})
                                   (tenantID, resourceType) (quota_configs t) |}.

Definition MarkSoftLimitAlertSent (tenantID : UUID) (resourceType : string) : M DB unit :=
  query (λ n t, Ok (tt, set_alert_sent true tenantID resourceType t)).

Definition ResetSoftLimitAlert (tenantID : UUID) (resourceType : string) : M DB unit :=
  query (λ n t, Ok (tt, set_alert_sent false tenantID resourceType t)).

(** The generated column [available], computed in BIGINT. *)
Definition available_of (creditsTotal debitsPosted debitsPending : Z) : outcome Z :=
  let a := creditsTotal - debitsPosted in
  let b := a - debitsPending in
  if bool_decide (in_i64 a) && bool_decide (in_i64 b) then Ok b else Err ErrOutOfRange.

Definition UpsertQuotaSnapshot (tenantID : UUID) (resourceType : string)
    (creditsTotal debitsPosted debitsPending : Z) : M DB unit := query (λ n t,
  available ← available_of creditsTotal debitsPosted debitsPending;
  _ ← check (tenant_exists t tenantID) ErrForeignKey;
  Ok (tt, {| t with quota_snapshots :=
    <[(tenantID, resourceType) :=
       {| qs_TenantID := tenantID; qs_ResourceType := resourceType;
          qs_CreditsTotal := creditsTotal; qs_DebitsPosted := debitsPosted;
          qs_DebitsPending := debitsPending; qs_Available := Some available;
          qs_SnapshotAt := pg_now n |}]> (quota_snapshots t) |})).
End queries.
