(* ===== verification/World.v ===== *)
(** * The world of the accounting service and Temporal's activities

    The activities act on a world made of the ledger environment, the database
    and the warnings logged.  Temporal is not part of the repository: the class
    [Temporal] is its [ExecuteActivity(...).Get], with the documented behaviour
    that the workflows rely on.  An activity is attempted up to the configured
    number of times, one attempt after the other; an attempt may fail, or take
    effect and have its result lost; the value returned to the workflow is the
    value of the last attempt.  Between the attempts other workflows and services
    act on the world, which only adds transfers to the ledger. *)

From S2P Require Import Prelude Domain TigerBeetle TBRef Ids Transfers LedgerProps Postgres.

(** [github.com/google/uuid] *)
Class UUIDPkg := {
  uuid_Parse : string → option UUID;
  uuid_String : UUID → string;
}.
Class UUIDLaws (U : UUIDPkg) := {
  uuid_roundtrip u : uuid_Parse (uuid_String u) = Some u;
}.

Record World `{TigerBeetle} := {
  w_env : Env;
  w_db : DB;
  w_alerts : list (string * string * Z);
}.
Arguments World {_}.
Arguments Build_World {_} _ _ _.

Section world.
Context `{TigerBeetle}.

Definition on_ledger {A} (m : M Env A) : M World A :=
  zoom w_env (λ e w, {| w with w_env := e |}) m.
Definition on_db {A} (m : M DB A) : M World A :=
  zoom w_db (λ d w, {| w with w_db := d |}) m.

(** [uuid.Parse] with the error wrapped. *)
Definition parse_uuid `{UUIDPkg} (what s : string) : M World UUID :=
  match uuid_Parse s with
  | Some u => mret u
  | None => fail (EWrap what (EMsg "invalid UUID"))
  end.
End world.

(** ** Activity execution *)

(** At most [n] attempts of [m]: the final outcome and world.  [others] is what
    the rest of the system does in between. *)
Inductive attempts {S A} (others : relation S) (m : M S A) : nat → S → outcome A → S → Prop :=
  | attempt_gave_up n s e : attempts others m n s (Err e) s
  | attempt_last n s a s1 :
      m s = (Ok a, s1) → attempts others m (Datatypes.S n) s (Ok a) s1
  | attempt_failed n s o1 s1 o s' :
      m s = (o1, s1) → attempts others m n s1 o s' →
      attempts others m (Datatypes.S n) s o s'
  | attempt_others n s s1 o s' :
      others s s1 → attempts others m n s1 o s' → attempts others m n s o s'.

Class Temporal `{TigerBeetle} := {
  ExecuteActivity : ∀ {A}, nat → M World A → M World A;
}.

(** What other parties may do: the ledger keeps its transfers. *)
Definition ledger_grows `{TigerBeetleLaws} : relation World := λ w w',
  extends (env_tb (w_env w)) (env_tb (w_env w')).

#[export] Instance ledger_grows_preorder `{TigerBeetleLaws} : PreOrder ledger_grows.
Proof. split; [intros w; apply extends_refl|]. intros w1 w2 w3. apply extends_trans. Qed.

Class TemporalLaws `{TL : TigerBeetleLaws} (T : Temporal) := {
  others : relation World;
  others_grow w w' : others w w' → ledger_grows w w';
  ExecuteActivity_attempts A n (m : M World A) w o w' :
    ExecuteActivity n m w = (o, w') → attempts others m n w o w';
}.

Section attempts.
Context {S A : Type} (others : relation S) (m : M S A).

(** What every attempt and the others preserve, the execution preserves. *)
Lemma attempts_keeps (R : relation S) `{!PreOrder R} n s o s' :
  keeps R m → (∀ s1 s2, others s1 s2 → R s1 s2) →
  attempts others m n s o s' → R s s'.
Proof.
  intros Hm Ho H. induction H as [n s e|n s a s1 H1|n s o1 s1 o s' H1 H IH|n s s1 o s' H1 H IH].
  - done.
  - by eapply Hm.
  - etrans; [by eapply Hm|done].
  - etrans; [by apply Ho|done].
Qed.

(** A successful execution ended with an attempt that returned the value, from
    a state that everything before it has kept. *)
Lemma attempts_Ok (R : relation S) `{!PreOrder R} n s a s' :
  keeps R m → (∀ s1 s2, others s1 s2 → R s1 s2) →
  attempts others m n s (Ok a) s' → ∃ s0, R s s0 ∧ m s0 = (Ok a, s').
Proof.
  intros Hm Ho H. remember (Ok a) as o eqn:Eo.
  induction H as [n s e|n s a' s1 H1|n s o1 s1 o s' H1 H IH|n s s1 o s' H1 H IH]; simplify_eq.
  - by exists s.
  - destruct (IH eq_refl) as (s0 & HR & H0). exists s0. split; [|done].
    etrans; [by eapply Hm|done].
  - destruct (IH eq_refl) as (s0 & HR & H0). exists s0. split; [|done].
    etrans; [by apply Ho|done].
Qed.

Lemma attempts_no_panic n s p s' : ¬ attempts others m n s (Panic p) s'.
Proof. intros H. remember (Panic p) as o eqn:E. induction H; by simplify_eq. Qed.
End attempts.

Lemma ExecuteActivity_keeps `{TemporalLaws} (R : relation World) `{!PreOrder R} {A} n (m : M World A) :
  keeps R m → (∀ w w', others w w' → R w w') → keeps R (ExecuteActivity n m).
Proof.
  intros Hm Ho w o w' He. eapply attempts_keeps; [apply _|done|exact Ho|].
  by apply ExecuteActivity_attempts.
Qed.

Lemma ExecuteActivity_Ok `{TemporalLaws} (R : relation World) `{!PreOrder R} {A} n
    (m : M World A) w a w' :
  keeps R m → (∀ w w', others w w' → R w w') →
  ExecuteActivity n m w = (Ok a, w') → ∃ w0, R w w0 ∧ m w0 = (Ok a, w').
Proof.
  intros Hm Ho He. eapply attempts_Ok; [apply _|done|exact Ho|].
  by apply ExecuteActivity_attempts.
Qed.

Lemma ExecuteActivity_no_panic `{TemporalLaws} {A} n (m : M World A) w p w' :
  ExecuteActivity n m w ≠ (Panic p, w').
Proof. intros He%ExecuteActivity_attempts. by eapply attempts_no_panic. Qed.
