(* ===== verification/ActivitiesTB.v ===== *)
(** * TigerBeetle activities (internal/accounting/activities_tb.go, signals.go) *)

From S2P Require Import Prelude Domain TigerBeetle TBRef Ids Transfers Accounts LedgerProps.
From S2P Require Import Postgres World.

(** ** signals.go *)

Definition SignalHeartbeat : string := "heartbeat-signal".
Definition SignalRegisterCluster : string := "register-cluster-signal".
Definition QueryLastTBAck : string := "last-tb-ack".
Definition QueryExceededResources : string := "exceeded-resources".
Definition UpdateIssueCredit : string := "issue-credit".

Record HeartbeatSignal := {
  hb_ClusterID : string;
  hb_ClusterUUID : bytes16;
  hb_SequenceNumber : Z;
  hb_CPUMillisecondsDelta : Z;
  hb_MemoryMBSecondsDelta : Z;
  hb_ActiveNodes : Z;
  hb_HeartbeatTimestampNs : Z;
}.

Record QuotaAdjustmentSignal := {
  qa_ResourceType : string;
  qa_Amount : Z;
  qa_Reason : string;
  qa_Code : Z;
}.

Record RegisterClusterSignal := { rg_ClusterID : string }.

(** [QuotaSnapshotData] (activities_pg.go) *)
Record QuotaSnapshotData := {
  sd_CreditsTotal : Z;
  sd_DebitsPosted : Z;
  sd_DebitsPending : Z;
}.

Record IssueCreditResult := { ic_Balances : gmap string QuotaSnapshotData }.

(** ** Inputs and results *)

Abbreviation idmap := (gmap string bytes16).
Abbreviation idmap2 := (gmap string idmap).

Record TBAccountMap := {
  am_OperatorIDs : idmap;
  am_TenantQuotaIDs : idmap;
  am_SinkIDs : idmap;
}.

Record TBBatchInput := {
  bi_TenantID : string;
  bi_TenantUUID : bytes16;
  bi_AccountMap : TBAccountMap;
  bi_Heartbeats : list HeartbeatSignal;
  bi_GlobalOperatorIDs : idmap;
  bi_GlobalSinkIDs : idmap;
  bi_PendingGaugeIDs : idmap2;
  bi_NewGaugePendingIDs : idmap2;
  bi_GaugeVoidIDs : idmap2;
}.

Record ResourceBatchResult := {
  rb_Accepted : bool;
  rb_ExceedsCredits : bool;
  rb_Exists : bool;
}.

Record TBBatchResult := {
  br_PerResource : gmap string ResourceBatchResult;
  br_GaugeUpdates : idmap2;
}.

Record SubmitAllocationInput := {
  ai_TenantUUID : bytes16;
  ai_TenantQuotaIDs : idmap;
  ai_GlobalOperatorIDs : idmap;
  ai_Credits : gmap string Z;
  ai_PeriodStartNs : Z;
  ai_TransferIDs : idmap;
}.

Record CreateTenantTBAccountsInput := { ci_TenantUUID : bytes16 }.
Record CreateTenantTBAccountsResult := { cr_AccountIDs : idmap }.
Record LookupAccountBalancesInput := { li_TenantQuotaIDs : idmap }.
Record LookupAccountBalancesResult := { lr_Balances : gmap string QuotaSnapshotData }.

(** ** Operations *)

Definition heartbeatAmount (hb : HeartbeatSignal) (r : ResourceType) : Z :=
  if decide (r = ResourceCPUHours) then hb_CPUMillisecondsDelta hb
  else if decide (r = ResourceMemoryGBHours) then hb_MemoryMBSecondsDelta hb
  else if decide (r = ResourceActiveNodes) then hb_ActiveNodes hb
  else 0.

(** The latest heartbeat of each cluster, by sequence number. *)
Definition latest_step (m : gmap string HeartbeatSignal) (hb : HeartbeatSignal)
    : gmap string HeartbeatSignal :=
  match m !! hb_ClusterID hb with
  | Some prev =>
      if decide (hb_SequenceNumber hb > hb_SequenceNumber prev)
      then <[hb_ClusterID hb := hb]> m else m
  | None => <[hb_ClusterID hb := hb]> m
  end.
Definition latestByCluster (hbs : list HeartbeatSignal) : gmap string HeartbeatSignal :=
  foldl latest_step ∅ hbs.

(** [m[k1][k2]] of a map of maps. *)
Definition lookup2 (m : idmap2) (k1 k2 : string) : option bytes16 :=
  inner ← m !! k1; inner !! k2.

Section activities.
Context `{TigerBeetle} `{Blake3} `{GoRange}.

(** The body of the first two loops: the usage transfer of one heartbeat and
    one resource, or none. *)
Definition usage_of (input : TBBatchInput) (hb : HeartbeatSignal) (r : ResourceType)
    : outcome (option UsageTransfer) :=
  if IsGauge r then Ok None else
  let amount := heartbeatAmount hb r in
  if decide (amount = 0) then Ok None else
  match bi_GlobalOperatorIDs input !! r, am_TenantQuotaIDs (bi_AccountMap input) !! r,
        bi_GlobalSinkIDs input !! r with
  | Some operatorBytes, Some quotaBytes, Some sinkBytes =>
      ledger ← LedgerID r;
      Ok (Some {| ut_Resource := r;
                  ut_OperatorID := UUIDToUint128 operatorBytes;
                  ut_TenantQuotaID := UUIDToUint128 quotaBytes;
                  ut_SinkID := UUIDToUint128 sinkBytes;
                  ut_Amount := u64 amount;
                  ut_TransferID :=
                    DeriveTransferID (hb_ClusterUUID hb) (hb_SequenceNumber hb) ledger;
                  ut_ClusterUUID := hb_ClusterUUID hb;
                  ut_HeartbeatTsNs := u64 (hb_HeartbeatTimestampNs hb) |})
  | _, _, _ => Ok None
  end.

Definition hb_resources (hbs : list HeartbeatSignal) : list (HeartbeatSignal * ResourceType) :=
  hb ← hbs; r ← AllResources; [(hb, r)].

Definition usage_transfers (input : TBBatchInput) : outcome (list UsageTransfer) :=
  us ← mapM (λ '(hb, r), usage_of input hb r) (hb_resources (bi_Heartbeats input));
  Ok (omap id us).

(** The body of the gauge loops: the update for the latest heartbeat of one
    cluster and one resource, or none. *)
Definition gauge_of (input : TBBatchInput) (clusterID : string) (hb : HeartbeatSignal)
    (r : ResourceType) : option GaugePendingUpdate :=
  if negb (IsGauge r) then None else
  match am_TenantQuotaIDs (bi_AccountMap input) !! r, bi_GlobalSinkIDs input !! r with
  | Some quotaBytes, Some sinkBytes => Some
      {| gu_Resource := r;
         gu_TenantQuotaID := UUIDToUint128 quotaBytes;
         gu_SinkID := UUIDToUint128 sinkBytes;
         gu_OldPendingID := lookup2 (bi_PendingGaugeIDs input) clusterID r;
         gu_NewAmount := u64 (heartbeatAmount hb r);
         gu_ClusterUUID := hb_ClusterUUID hb;
         gu_HeartbeatTsNs := u64 (hb_HeartbeatTimestampNs hb);
         gu_NewPendingID := match lookup2 (bi_NewGaugePendingIDs input) clusterID r with
                            | Some idBytes => UUIDToUint128 idBytes | None => zero16 end;
         gu_VoidTransferID := match lookup2 (bi_GaugeVoidIDs input) clusterID r with
                              | Some idBytes => UUIDToUint128 idBytes | None => zero16 end |}
  | _, _ => None
  end.

Abbreviation gaugeKey := (string * string)%type (only parsing).

Definition gauge_updates (input : TBBatchInput) (latest : list (string * HeartbeatSignal))
    : list (gaugeKey * GaugePendingUpdate) :=
  '(clusterID, hb) ← latest; r ← AllResources;
  match gauge_of input clusterID hb r with
  | Some gu => [((clusterID, r), gu)]
  | None => []
  end.

(** [result.PerResource[transferResources[i]] = ...] *)
Definition record_usage (resources : list string) (per : gmap string ResourceBatchResult)
    (ir : nat * TransferResult) : outcome (gmap string ResourceBatchResult) :=
  let '(i, res) := ir in
  r ← index resources i;
  Ok (<[r := {| rb_Accepted := res_Accepted res;
                rb_ExceedsCredits := res_ExceedsCredits res;
                rb_Exists := res_Exists res |}]> per).

Definition record_gauge (keys : list gaugeKey) (result : TBBatchResult)
    (ir : nat * GaugePendingResult) : outcome TBBatchResult :=
  let '(i, gr) := ir in
  '(clusterID, resource) ← index keys i;
  Ok {| br_PerResource :=
          <[resource := {| rb_Accepted := gr_Accepted gr;
                           rb_ExceedsCredits := gr_ExceedsCredits gr;
                           rb_Exists := false |}]> (br_PerResource result);
        br_GaugeUpdates :=
          <[clusterID := <[resource := Uint128ToBytes (gr_NewPendingID gr)]>
              (default ∅ (br_GaugeUpdates result !! clusterID))]> (br_GaugeUpdates result) |}.

Definition SubmitTBBatch (input : TBBatchInput) : M Env TBBatchResult :=
  transfers ← lift (usage_transfers input);
  let transferResources := ut_Resource <$> transfers in
  per ← (if decide (0 < length transfers)%nat then
           tbResults ← wrap_err "SubmitUsageBatch" (SubmitUsageBatch transfers);
           foldM (λ per ir, lift (record_usage transferResources per ir)) ∅ (enumerate tbResults)
         else mret ∅);
  latest ← range (latestByCluster (bi_Heartbeats input));
  let gus := gauge_updates input latest in
  let result := {| br_PerResource := per; br_GaugeUpdates := ∅ |} in
  if decide (0 < length gus)%nat then
    gaugeResults ← wrap_err "SubmitGaugePendingUpdates" (SubmitGaugePendingUpdates gus.*2);
    foldM (λ result ir, lift (record_gauge gus.*1 result ir)) result (enumerate gaugeResults)
  else mret result.

Definition CreateTenantTBAccounts (input : CreateTenantTBAccountsInput)
    : M Env CreateTenantTBAccountsResult :=
  ids ← wrap_err "CreateTenantQuotaAccounts" (CreateTenantQuotaAccounts (ci_TenantUUID input) ∅);
  kvs ← range ids;
  mret {| cr_AccountIDs := foldl (λ out '(r, id), <[r := Uint128ToBytes id]> out) ∅ kvs |}.

Definition alloc_of (input : SubmitAllocationInput) (r : string) (credits : Z)
    : option AllocationTransfer :=
  match ai_GlobalOperatorIDs input !! r, ai_TenantQuotaIDs input !! r with
  | Some opBytes, Some quotaBytes => Some
      {| at_Resource := r;
         at_OperatorID := UUIDToUint128 opBytes;
         at_TenantQuotaID := UUIDToUint128 quotaBytes;
         at_Amount := u64 credits;
         at_Code := CodeQuotaAllocation;
         at_TenantUUID := ai_TenantUUID input;
         at_PeriodStartNs := u64 (ai_PeriodStartNs input);
         at_TransferID := match ai_TransferIDs input !! r with
                          | Some idBytes => UUIDToUint128 idBytes | None => zero16 end |}
  | _, _ => None
  end.

Definition SubmitAllocationTransfers (input : SubmitAllocationInput) : M Env unit :=
  kvs ← range (ai_Credits input);
  let allocations := omap (λ '(r, credits), alloc_of input r credits) kvs in
  if decide (length allocations = 0%nat) then mret tt else
  _ ← SubmitAllocations allocations;
  mret tt.

Definition LookupAccountBalances (input : LookupAccountBalancesInput)
    : M Env LookupAccountBalancesResult :=
  balances ← wrap_err "LookupBalances" (LookupBalances (li_TenantQuotaIDs input));
  kvs ← range balances;
  mret {| lr_Balances := foldl (λ out '(r, b),
            <[r := {| sd_CreditsTotal := i64 (CreditsPosted b);
                      sd_DebitsPosted := i64 (DebitsPosted b);
                      sd_DebitsPending := i64 (DebitsPending b) |}]> out) ∅ kvs |}.
End activities.
