(* ===== verification/ActivitiesTBProps.v ===== *)
(** * Properties of the TigerBeetle activities *)

From S2P Require Import Prelude Domain TigerBeetle TBRef Ids Transfers Accounts LedgerProps.
From S2P Require Import Postgres World ActivitiesTB.

(** ** The latest heartbeat of a cluster *)

Definition is_latest (hbs : list HeartbeatSignal) (c : string) (hb : HeartbeatSignal) : Prop :=
  hb ∈ hbs ∧ hb_ClusterID hb = c ∧
  ∀ hb', hb' ∈ hbs → hb_ClusterID hb' = c → hb_SequenceNumber hb' ≤ hb_SequenceNumber hb.

Lemma latest_snoc hbs hb : latestByCluster (hbs ++ [hb]) = latest_step (latestByCluster hbs) hb.
Proof. unfold latestByCluster. by rewrite foldl_snoc. Qed.

(** The gauge value of a cluster is that of its newest heartbeat. The map
    built by [SubmitTBBatch] has an entry for exactly the clusters of the batch,
    and the entry of a cluster is a heartbeat of the batch with the highest
    sequence number of that cluster, in whatever order they arrived. *)
Theorem latest_is_newest : ∀ hbs c,
  match latestByCluster hbs !! c with
  | Some hb => is_latest hbs c hb
  | None => ∀ hb, hb ∈ hbs → hb_ClusterID hb ≠ c
  end.
Proof.
  intros hbs c. induction hbs as [|hb hbs IH] using rev_ind.
  { unfold latestByCluster. simpl. rewrite lookup_empty. by intros hb ?%elem_of_nil. }
  rewrite latest_snoc. unfold latest_step.
  assert (∀ x, x ∈ hbs ++ [hb] ↔ x ∈ hbs ∨ x = hb) as Hin.
  { intros x. by rewrite elem_of_app, list_elem_of_singleton. }
  destruct (decide (hb_ClusterID hb = c)) as [<-|Hc].
  - destruct (latestByCluster hbs !! hb_ClusterID hb) as [prev|] eqn:Hp.
    + destruct IH as (Hi & Hpc & Hmax). case_decide as Hgt.
      * rewrite lookup_insert_eq. split_and!; [by apply Hin; right|done|].
        intros hb' [Hh| ->]%Hin Hc'; [specialize (Hmax hb' Hh Hc'); lia|lia].
      * rewrite Hp. split_and!; [by apply Hin; left|done|].
        intros hb' [Hh| ->]%Hin Hc'; [auto|lia].
    + rewrite lookup_insert_eq. split_and!; [by apply Hin; right|done|].
      intros hb' [Hh| ->]%Hin Hc'; [by destruct (IH hb' Hh)|lia].
  - assert (∀ m : gmap string HeartbeatSignal, <[hb_ClusterID hb := hb]> m !! c = m !! c) as Hne
      by (intros; by rewrite lookup_insert_ne).
    assert ((match latestByCluster hbs !! hb_ClusterID hb with
             | Some prev => if decide (hb_SequenceNumber hb > hb_SequenceNumber prev)
                            then <[hb_ClusterID hb := hb]> (latestByCluster hbs)
                            else latestByCluster hbs
             | None => <[hb_ClusterID hb := hb]> (latestByCluster hbs)
             end) !! c = latestByCluster hbs !! c) as ->.
    { repeat case_match; rewrite ?Hne; done. }
    destruct (latestByCluster hbs !! c) as [prev|].
    + destruct IH as (Hi & Hpc & Hmax). split_and!; [by apply Hin; left|done|].
      intros hb' [Hh| ->]%Hin Hc'; [auto|done].
    + intros hb' [Hh| ->]%Hin; [auto|done].
Qed.

(** ** What a batch does to the ledger *)

Section batch.
Context `{TL : TigerBeetleLaws} `{Blake3} `{GoRange}.
Implicit Types (e : Env).

Definition gauge_flagged (t : Transfer) : Prop :=
  Pending (tr_Flags t) = true ∨ VoidPendingTransfer (tr_Flags t) = true.

(** The ledger events of an operation are usage records of [U] and gauge
    transfers. *)
Definition batch_ran (U : UsageTransfer → Prop) : relation Env := λ e e',
  ∃ ts, env_tb e' = final_state create_transfer ts (env_tb e) ∧
    ∀ t, t ∈ ts → (∃ u, U u ∧ usage_tb u = Ok t) ∨ gauge_flagged t.

#[local] Instance batch_ran_preorder U : PreOrder (batch_ran U).
Proof.
  split.
  - intros e. exists []. split; [done|]. by intros t ?%elem_of_nil.
  - intros e1 e2 e3 (ts1 & E1 & H1) (ts2 & E2 & H2). exists (ts1 ++ ts2).
    rewrite final_state_app, <- E1, <- E2. split; [done|].
    intros t [Ht|Ht]%elem_of_app; auto.
Qed.

Lemma batch_ran_mono (U V : UsageTransfer → Prop) e e' :
  (∀ u, U u → V u) → batch_ran U e e' → batch_ran V e e'.
Proof.
  intros HUV (ts & E & Ht). exists ts. split; [done|]. intros t Hin.
  destruct (Ht t Hin) as [(u & Hu & Htb)|]; [left; eauto|by right].
Qed.

Lemma CreateTransfers_batch U ts :
  (∀ t, t ∈ ts → (∃ u, U u ∧ usage_tb u = Ok t) ∨ gauge_flagged t) →
  keeps (batch_ran U) (tb_call (CreateTransfers ts)).
Proof.
  intros Ht e o e' He. unfold tb_call, zoom in He.
  destruct (CreateTransfers ts (env_tb e)) as [r s] eqn:E. injection He as <- <-. simpl.
  assert (batch_ran U e {| e with env_tb := final_state create_transfer ts (env_tb e) |}) as Hall
    by by exists ts.
  destruct r as [rs|err|p].
  - apply CreateTransfers_ok in E. unfold final_state in Hall. by rewrite E in Hall.
  - apply CreateTransfers_err in E as [->| ->]; [|done].
    exists []. split; [done|]. by intros t ?%elem_of_nil.
  - by apply CreateTransfers_no_panic in E.
Qed.

Lemma SubmitUsageBatch_batch us : keeps (batch_ran (λ u, u ∈ us)) (SubmitUsageBatch us).
Proof.
  intros e o e'. rewrite SubmitUsageBatch_eq.
  destruct (mapM usage_tb us) as [ts| |] eqn:Em; [|by intros Hs; inv Hs..].
  apply mapM_Ok in Em. revert e o e'. change (keeps (batch_ran (λ u, u ∈ us))
    (submitBatch ts (λ i, t ← index us i; Ok (ut_Resource t)))).
  unfold submitBatch. keeps_tac. apply CreateTransfers_batch.
  intros t [i Ht]%list_elem_of_lookup. left.
  destruct (Forall2_lookup_r _ _ _ _ _ Em Ht) as (u & Hu & Htb).
  exists u. split; [by eapply list_elem_of_lookup_2|done].
Qed.

Lemma RandomID_batch U : keeps (batch_ran U) RandomID.
Proof. intros e o e' He. inv He. exists []. split; [done|]. by intros t ?%elem_of_nil. Qed.

Lemma range_batch {A} U (m : gmap string A) : keeps (batch_ran U) (range m).
Proof. intros e o e' He. inv He. exists []. split; [done|]. by intros t ?%elem_of_nil. Qed.
#[local] Hint Resolve RandomID_batch range_batch : credit.

Lemma gauge_fold_flagged ids l ts ms e ts' ms' e' :
  foldM (gauge_transfers ids) (ts, ms) l e = (Ok (ts', ms'), e') →
  (∀ t, t ∈ ts → gauge_flagged t) → ∀ t, t ∈ ts' → gauge_flagged t.
Proof.
  intros Hf%gauge_fold_plan Hts t. destruct Hf as (_ & adds & HF & -> & _).
  intros [Ht|Ht]%elem_of_app; [auto|].
  apply list_elem_of_fmap in Ht as ([t' m] & -> & Hj).
  apply list_elem_of_join in Hj as (add & Hin & [k Hk]%list_elem_of_lookup).
  destruct (Forall2_lookup_r _ _ _ _ _ HF Hk) as ([i u] & _ & voidID & newID & ledger & -> & _).
  cbn [fst snd] in *. apply elem_of_app in Hin as [Hin|Hin].
  - destruct (gu_OldPendingID u); [|by apply elem_of_nil in Hin].
    apply list_elem_of_singleton in Hin. inv Hin. by right.
  - case_decide; [|by apply elem_of_nil in Hin].
    apply list_elem_of_singleton in Hin. inv Hin. by left.
Qed.

Lemma SubmitGauge_batch U gs : keeps (batch_ran U) (SubmitGaugePendingUpdates gs).
Proof.
  unfold SubmitGaugePendingUpdates. keeps_step; [keeps_tac|]. keeps_step; [keeps_tac|].
  intros e o e' Hb. rewrite bind_cases in Hb.
  destruct (foldM _ ([], []) (enumerate gs) e) as [r e1] eqn:Ef.
  assert (batch_ran U e e1) as H1.
  { revert Ef. generalize (enumerate gs). intros l.
    assert (keeps (batch_ran U) (foldM (gauge_transfers a) ([], []) l)) as Hk; [|apply Hk].
    unfold gauge_transfers. keeps_tac. }
  destruct r as [[ts ms]| |]; [|by inv Hb..].
  etrans; [exact H1|].
  assert (∀ t, t ∈ ts → gauge_flagged t) as Hfl.
  { eapply gauge_fold_flagged; [exact Ef|]. by intros t ?%elem_of_nil. }
  revert Hb. generalize e1 o e'. change (keeps (batch_ran U)
    (if decide (length ts = 0%nat) then mret (replicate (length gs)
       {| gr_NewPendingID := zero16; gr_Accepted := true; gr_ExceedsCredits := false |}) else
     tbResults ← wrap_err "CreateTransfers (gauge pending)" (tb_call (CreateTransfers ts));
     results ← foldM (λ results ir, lift (gauge_classify ms results ir)) (replicate (length gs)
       {| gr_NewPendingID := zero16; gr_Accepted := true; gr_ExceedsCredits := false |}) tbResults;
     mret (foldl (gauge_assign a) results ms))).
  keeps_tac. apply CreateTransfers_batch. auto.
Qed.

(** The usage records a batch may charge. *)
Definition batch_usage (input : TBBatchInput) (u : UsageTransfer) : Prop :=
  ∃ us, usage_transfers input = Ok us ∧ u ∈ us.

Lemma SubmitTBBatch_batch input : keeps (batch_ran (batch_usage input)) (SubmitTBBatch input).
Proof.
  unfold SubmitTBBatch. intros e o e' Hs. rewrite bind_cases in Hs. unfold lift at 1 in Hs.
  destruct (usage_transfers input) as [us| |] eqn:Eu; [|by inv Hs..].
  revert e o e' Hs. cbv zeta.
  lazymatch goal with |- ∀ e o e', ?m e = _ → _ => change (keeps (batch_ran (batch_usage input)) m) end.
  assert (keeps (batch_ran (batch_usage input)) (SubmitUsageBatch us)) as Hu.
  { intros e o e' Hs. eapply batch_ran_mono; [|by eapply SubmitUsageBatch_batch].
    intros u Hin. by exists us. }
  pose proof (SubmitGauge_batch (batch_usage input)). keeps_tac.
Qed.

(** ** At most one charge per heartbeat and resource *)

Lemma usage_of_Some input hb r u :
  usage_of input hb r = Ok (Some u) →
  IsGauge r = false ∧ heartbeatAmount hb r ≠ 0 ∧ ut_Resource u = r ∧
  ut_Amount u = u64 (heartbeatAmount hb r) ∧
  am_TenantQuotaIDs (bi_AccountMap input) !! r = Some (ut_TenantQuotaID u) ∧
  ∃ l, LedgerID r = Ok l ∧
       ut_TransferID u = DeriveTransferID (hb_ClusterUUID hb) (hb_SequenceNumber hb) l.
Proof.
  unfold usage_of. intros Hu. destruct (IsGauge r); [done|]. case_decide as Ha; [done|].
  destruct (bi_GlobalOperatorIDs input !! r); [|done].
  destruct (am_TenantQuotaIDs _ !! r) eqn:Eq; [|done].
  destruct (bi_GlobalSinkIDs input !! r); [|done].
  apply outcome_bind_Ok in Hu as (l & Hl & Hu). inv Hu. simpl.
  rewrite UUIDToUint128_id. repeat (split; [done|]). exists l. by split.
Qed.

Lemma elem_of_hb_resources hbs hb r :
  (hb, r) ∈ hb_resources hbs ↔ hb ∈ hbs ∧ r ∈ AllResources.
Proof.
  unfold hb_resources. rewrite list_elem_of_bind. setoid_rewrite list_elem_of_bind.
  setoid_rewrite list_elem_of_singleton. naive_solver.
Qed.

Lemma usage_transfers_elem input us u :
  usage_transfers input = Ok us →
  u ∈ us ↔ ∃ hb r, hb ∈ bi_Heartbeats input ∧ r ∈ AllResources ∧
                   usage_of input hb r = Ok (Some u).
Proof.
  intros (os & Hm & Hu)%outcome_bind_Ok. inv Hu. apply mapM_Ok in Hm.
  rewrite list_elem_of_omap. split.
  - intros (o & [i Hi]%list_elem_of_lookup & Ho). unfold id in Ho. subst o.
    destruct (Forall2_lookup_r _ _ _ _ _ Hm Hi) as ([hb r] & Hk & Hu).
    apply list_elem_of_lookup_2, elem_of_hb_resources in Hk as [Hhb Hr]. eauto.
  - intros (hb & r & Hhb & Hr & Hu). exists (Some u). split; [|done].
    assert ((hb, r) ∈ hb_resources (bi_Heartbeats input)) as [i Hi]%list_elem_of_lookup
      by by apply elem_of_hb_resources.
    destruct (Forall2_lookup_l _ _ _ _ _ Hm Hi) as (o & Ho & Hu').
    rewrite Hu in Hu'. injection Hu' as <-. by eapply list_elem_of_lookup_2.
Qed.

(** Building the usage records never fails: the loop only visits declared
    resources. *)
Lemma usage_transfers_total input : ∃ us, usage_transfers input = Ok us.
Proof.
  unfold usage_transfers.
  assert (∃ os, mapM (λ '(hb, r), usage_of input hb r) (hb_resources (bi_Heartbeats input)) = Ok os)
    as [os ->]; [|by eexists].
  assert (∀ p, p ∈ hb_resources (bi_Heartbeats input) → p.2 ∈ AllResources) as Hall.
  { intros [hb r] Hp. by apply elem_of_hb_resources in Hp as [_ Hr]. }
  induction (hb_resources (bi_Heartbeats input)) as [|[hb r] l IH]; [by eexists|].
  destruct IH as [os Hos]; [intros; apply Hall; by right|].
  assert (∃ o, usage_of input hb r = Ok o) as [o Ho].
  { unfold usage_of. destruct (LedgerID_total r (Hall (hb, r) ltac:(left))) as (l' & -> & _).
    repeat case_match; by eexists. }
  exists (o :: os). apply mapM_Ok. apply mapM_Ok in Hos. by constructor.
Qed.

Definition charge (id : Uint128) (u : UsageTransfer) : Z :=
  if decide (id = ut_TenantQuotaID u) then ut_Amount u else 0.

(** The posted debits of a list of events, as usage records. *)
Lemma usage_events (U : UsageTransfer → Prop) ts id :
  (∀ u, U u → in_u64 (ut_Amount u)) →
  (∀ t, t ∈ ts → (∃ u, U u ∧ usage_tb u = Ok t) ∨ gauge_flagged t) →
  ∃ us, (ut_TransferID <$> us) `sublist_of` (tr_ID <$> ts) ∧ (∀ u, u ∈ us → U u) ∧
    sum_Z (adds_debits_posted id) ts = sum_Z (charge id) us.
Proof.
  intros HU. induction ts as [|t ts IH]; intros Hts.
  { exists []. split_and!; [constructor| |done]. by intros u ?%elem_of_nil. }
  destruct IH as (us & Hsub & Hus & Hsum); [intros; apply Hts; by right|].
  destruct (Hts t ltac:(left)) as [(u & Hu & Htb)|Hg].
  - exists (u :: us). split_and!.
    + simpl. pose proof Htb as (l & _ & Heq)%outcome_bind_Ok. inv Heq. simpl. by constructor.
    + intros u' [->|?]%elem_of_cons; auto.
    + rewrite !sum_Z_cons, Hsum. by rewrite <- (usage_tb_adds u t id Htb (HU u Hu)).
  - exists us. split_and!; [simpl; by constructor|done|]. rewrite sum_Z_cons, Hsum.
    unfold adds_debits_posted. destruct Hg as [Hg|Hg]; rewrite Hg; rewrite ?orb_true_r; simpl; lia.
Qed.

(** A sequence of runs of the activity, whatever each of them returns. *)
Definition run_batches (inputs : list TBBatchInput) (e : Env) : Env :=
  foldl (λ e input, (SubmitTBBatch input e).2) e inputs.

Lemma run_batches_ran inputs e :
  batch_ran (λ u, ∃ input, input ∈ inputs ∧ batch_usage input u) e (run_batches inputs e).
Proof.
  revert e. induction inputs as [|input inputs IH]; intros e; simpl.
  { exists []. split; [done|]. by intros t ?%elem_of_nil. }
  etrans.
  - eapply batch_ran_mono; [|by eapply SubmitTBBatch_batch; apply surjective_pairing].
    intros u Hu. exists input. split; [left|done].
  - eapply batch_ran_mono; [|apply IH]. intros u (i & Hi & Hu). exists i. split; [by right|done].
Qed.

(** C1: usage is charged at most once. Take any sequence of runs of
    [SubmitTBBatch], with any inputs (the same batch retried, overlapping
    batches, replayed heartbeats) and whatever each run returns. The posted
    debits of an account grow by the sum of a list of usage records in which no
    transfer ID occurs twice; each of them comes from a heartbeat of one of the
    inputs, with the ID derived from its cluster, its sequence number and its
    resource, and none was in the ledger before. *)
Theorem usage_charged_at_most_once : ∀ inputs e id a,
  account_at (env_tb e) id = Some a →
  ∃ cs a', account_at (env_tb (run_batches inputs e)) id = Some a' ∧
    debits_posted (balance_of a') = debits_posted (balance_of a) + sum_Z (charge id) cs ∧
    NoDup (ut_TransferID <$> cs) ∧
    ∀ u, u ∈ cs →
      transfer_at (env_tb e) (ut_TransferID u) = None ∧
      ∃ input hb l, input ∈ inputs ∧ hb ∈ bi_Heartbeats input ∧
        usage_of input hb (ut_Resource u) = Ok (Some u) ∧
        LedgerID (ut_Resource u) = Ok l ∧
        ut_TransferID u = DeriveTransferID (hb_ClusterUUID hb) (hb_SequenceNumber hb) l.
Proof.
  intros inputs e id a Ha. destruct (run_batches_ran inputs e) as (ts & E & Hts).
  destruct (final_balance ts _ _ _ Ha) as (a' & Ha' & Hd & _).
  set (cs := committed create_transfer ts (env_tb e)) in *.
  assert (∀ u, (∃ input, input ∈ inputs ∧ batch_usage input u) →
    ∃ input hb l, input ∈ inputs ∧ hb ∈ bi_Heartbeats input ∧
        usage_of input hb (ut_Resource u) = Ok (Some u) ∧ LedgerID (ut_Resource u) = Ok l ∧
        ut_TransferID u = DeriveTransferID (hb_ClusterUUID hb) (hb_SequenceNumber hb) l) as Hof.
  { intros u (input & Hi & us & Hus & Hu). apply (usage_transfers_elem _ _ _ Hus) in Hu
      as (hb & r & Hhb & Hr & Hu). pose proof Hu as (_ & _ & -> & _ & _ & l & Hl & Hid)%usage_of_Some.
    by exists input, hb, l. }
  destruct (usage_events (λ u, ∃ input, input ∈ inputs ∧ batch_usage input u) cs id)
    as (us & Hsub & Hus & Hsum).
  { intros u (input & hb & l & _ & _ & Hu & _)%Hof. apply usage_of_Some in Hu as (_ & _ & _ & -> & _).
    apply u64_range. }
  { intros t Ht. apply Hts. eapply elem_of_sublist; [done|]. apply committed_sublist. }
  exists us, a'. rewrite E. split_and!; [done|by rewrite Hd, Hsum| |].
  - eapply sublist_NoDup; [|exact Hsub]. apply committed_NoDup.
  - intros u Hu. split; [|by apply Hof, Hus].
    assert (ut_TransferID u ∈ tr_ID <$> cs) as (t & Hid & Ht)%list_elem_of_fmap.
    { eapply elem_of_sublist; [|exact Hsub]. by apply list_elem_of_fmap_2. }
    rewrite Hid. by apply (committed_at ts).
Qed.

(** ** Allocations *)

Lemma range_env {A} (m : gmap string A) e o e' :
  range m e = (o, e') → env_tb e' = env_tb e ∧ ∃ kvs, o = Ok kvs ∧ kvs ≡ₚ map_to_list m.
Proof. intros Hr. inv Hr. split; [done|]. eexists. split; [done|]. apply range_order_perm. Qed.

(** ** Balances *)

Lemma range_keeps {A} (m : gmap string A) : keeps (λ e e', env_tb e' = env_tb e) (range m).
Proof. intros e o e' Hr. by apply range_env in Hr as [? _]. Qed.

Definition data_of (b : BalanceSnapshot) : QuotaSnapshotData :=
  {| sd_CreditsTotal := i64 (CreditsPosted b); sd_DebitsPosted := i64 (DebitsPosted b);
     sd_DebitsPending := i64 (DebitsPending b) |}.

Lemma LookupAccountBalances_spec input e o e' :
  LookupAccountBalances input e = (o, e') →
  env_tb e' = env_tb e ∧
  ∀ res, o = Ok res → ∀ r, lr_Balances res !! r =
    (id ← li_TenantQuotaIDs input !! r; (data_of ∘ snapshot) <$> account_at (env_tb e) id).
Proof.
  unfold LookupAccountBalances, wrap_err. rewrite bind_cases.
  destruct (LookupBalances (li_TenantQuotaIDs input) e) as [r e1] eqn:El.
  apply LookupBalances_spec in El as [E1 Hm]. destruct r as [m|x|x].
  2-3: intros Hs; inv Hs; by split.
  rewrite bind_cases. destruct (range m e1) as [kvs e2] eqn:Er.
  apply range_env in Er as (E2 & kv & -> & Hp). intros Hs. inv Hs. split; [congruence|].
  intros res [= <-] r. etrans; [exact (f_equal (lookup r) (range_collect data_of m kv Hp))|].
  rewrite lookup_fmap, (Hm m eq_refl r). destruct (li_TenantQuotaIDs input !! r) as [id|]; [|done].
  simpl. by destruct (account_at (env_tb e) id).
Qed.

(** The balances handed to the projection are the ledger's. The activity
    [LookupAccountBalances] writes nothing; when it succeeds it reports exactly
    the resources whose account exists, and when the balances of an account fit
    in a signed 64-bit integer the report holds these balances. *)
Theorem reported_balances_are_the_ledgers : ∀ input e o e',
  LookupAccountBalances input e = (o, e') →
  env_tb e' = env_tb e ∧
  ∀ res, o = Ok res → ∀ r,
  match li_TenantQuotaIDs input !! r ≫= account_at (env_tb e) with
  | None => lr_Balances res !! r = None
  | Some a =>
      credits_posted (balance_of a) < 2 ^ 63 → debits_posted (balance_of a) < 2 ^ 63 →
      debits_pending (balance_of a) < 2 ^ 63 →
      lr_Balances res !! r = Some
        {| sd_CreditsTotal := credits_posted (balance_of a);
           sd_DebitsPosted := debits_posted (balance_of a);
           sd_DebitsPending := debits_pending (balance_of a) |}
  end.
Proof.
  intros input e o e' Hl. apply LookupAccountBalances_spec in Hl as [E Hr]. split; [done|].
  intros res -> r. rewrite (Hr res eq_refl r).
  destruct (li_TenantQuotaIDs input !! r) as [id|]; [|done]. simpl.
  destruct (account_at (env_tb e) id) as [a|]; [|done]. simpl. intros Hc Hd Hp.
  assert (∀ v, u128_val v < 2 ^ 63 → i64 (uint128Lo v) = u128_val v) as Hi.
  { intros v Hv. pose proof (u128_val_range v). rewrite uint128Lo_fits by (unfold fits64; lia).
    apply i64_id. unfold in_i64. lia. }
  unfold data_of, snapshot. simpl. by rewrite !Hi by done.
Qed.
End batch.

(** ** Concrete runs *)

#[export] Instance demo_hash : Blake3 := demo_blake3.

Definition demo_hb (seq cpu nodes : Z) : HeartbeatSignal :=
  {| hb_ClusterID := "c1"; hb_ClusterUUID := zero16; hb_SequenceNumber := seq;
     hb_CPUMillisecondsDelta := cpu; hb_MemoryMBSecondsDelta := 0; hb_ActiveNodes := nodes;
     hb_HeartbeatTimestampNs := 5 |}.

Definition demo_quota : idmap :=
  {[ResourceCPUHours := demo_id 21; ResourceActiveNodes := demo_id 23]}.
Definition demo_operators : idmap :=
  {[ResourceCPUHours := demo_id 11; ResourceActiveNodes := demo_id 13]}.
Definition demo_sinks : idmap :=
  {[ResourceCPUHours := demo_id 31; ResourceActiveNodes := demo_id 33]}.

Definition demo_input (hbs : list HeartbeatSignal) : TBBatchInput :=
  {| bi_TenantID := "t"; bi_TenantUUID := zero16;
     bi_AccountMap := {| am_OperatorIDs := ∅; am_TenantQuotaIDs := demo_quota; am_SinkIDs := ∅ |};
     bi_Heartbeats := hbs; bi_GlobalOperatorIDs := demo_operators; bi_GlobalSinkIDs := demo_sinks;
     bi_PendingGaugeIDs := ∅; bi_NewGaugePendingIDs := ∅; bi_GaugeVoidIDs := ∅ |}.

(** Three runs over overlapping batches charge 10 + 20 + 5 and no more. *)
Lemma usage_charged_at_most_once_witness :
  let inputs := [demo_input [demo_hb 1 10 2; demo_hb 2 20 2]; demo_input [demo_hb 1 10 2; demo_hb 2 20 2];
                 demo_input [demo_hb 2 20 2; demo_hb 3 5 2]] in
  debits_posted (balance_of (account_of (env_tb (run_batches inputs demo_env)) (demo_id 21))) = 35 ∧
  ∃ cs a', account_at (env_tb (run_batches inputs demo_env)) (demo_id 21) = Some a' ∧
    debits_posted (balance_of a') = 0 + sum_Z (charge (demo_id 21)) cs ∧
    NoDup (ut_TransferID <$> cs).
Proof.
  intros inputs. split; [by vm_compute|].
  destruct (usage_charged_at_most_once inputs demo_env (demo_id 21) (account_of demo_tb (demo_id 21)))
    as (cs & a' & Ha' & Hd & Hnd & _).
  - apply account_of_ok. by vm_compute.
  - exists cs, a'. split_and!; [exact Ha'| |exact Hnd]. rewrite Hd. f_equal; by vm_compute.
Defined.

Lemma reported_balances_are_the_ledgers_witness :
  let input := {| li_TenantQuotaIDs := demo_quota |} in
  ∃ b, lr_Balances (value_of {| lr_Balances := ∅ |} (LookupAccountBalances input demo_env))
         !! ResourceCPUHours = Some b ∧ sd_CreditsTotal b = 100.
Proof.
  intros input.
  destruct (reported_balances_are_the_ledgers input demo_env
    (Ok (value_of {| lr_Balances := ∅ |} (LookupAccountBalances input demo_env)))
    (LookupAccountBalances input demo_env).2 ltac:(apply value_ok; by vm_compute)) as [_ Hr].
  specialize (Hr _ eq_refl ResourceCPUHours).
  assert (li_TenantQuotaIDs input !! ResourceCPUHours ≫= account_at (env_tb demo_env)
          = Some (account_of demo_tb (demo_id 21))) as Ha by by vm_compute.
  rewrite Ha in Hr. eexists. split; [apply Hr; by vm_compute|]. by vm_compute.
Defined.

(** ** Findings *)

(** A negative usage delta becomes a huge charge. The proto field is signed
    and [SubmitTBBatch] converts it with [uint64(amount)], so a heartbeat with a
    negative delta produces a usage record of [2^64 + delta] units, which the
    quota limit then rejects or, if the credits allowed it, would charge. *)
Theorem negative_delta_wraps : ∀ input hb r u,
  in_i64 (heartbeatAmount hb r) → heartbeatAmount hb r < 0 →
  usage_of input hb r = Ok (Some u) →
  ut_Amount u = 2 ^ 64 + heartbeatAmount hb r ∧ 2 ^ 63 ≤ ut_Amount u.
Proof.
  intros input hb r u Hi Hn Hu. apply usage_of_Some in Hu as (_ & _ & _ & -> & _).
  rewrite u64_neg by done. unfold in_i64 in Hi. lia.
Qed.

Lemma negative_delta_wraps_witness :
  ∃ u, usage_of (demo_input []) (demo_hb 1 (-5) 0) ResourceCPUHours = Ok (Some u) ∧
       ut_Amount u = 2 ^ 64 - 5.
Proof.
  eexists. split; [reflexivity|].
  apply (negative_delta_wraps (demo_input []) (demo_hb 1 (-5) 0) ResourceCPUHours).
  - apply (bool_decide_unpack _). by vm_compute.
  - by vm_compute.
  - reflexivity.
Defined.

(** The result of a batch remembers one transfer per resource. With 100
    credits, a batch of two heartbeats of the same cluster in which the first
    exceeds the credits and the second is accepted reports the resource as
    accepted and not exceeded: [PerResource] keeps the last transfer only,
    although a resource is meant to count as exceeded when any transfer was
    rejected. *)
Theorem batch_result_keeps_last_transfer :
  match (SubmitTBBatch (demo_input [demo_hb 1 500 0; demo_hb 2 20 0]) demo_env).1 with
  | Ok r => br_PerResource r !! ResourceCPUHours
  | _ => None
  end = Some {| rb_Accepted := true; rb_ExceedsCredits := false; rb_Exists := false |}.
Proof. by vm_compute. Qed.
