(* ===== verification/AllocationProps.v ===== *)
(** * The allocation activity under Temporal's retries

    What SubmitAllocationTransfers (activities_tb.go) leaves in the ledger when
    it is executed as an activity: attempts may be repeated, results lost, and
    other parties act in between.  Shared by the credit update and the
    provisioning workflow. *)

From S2P Require Import Prelude Domain TigerBeetle TBRef Ids Transfers LedgerProps.
From S2P Require Import World ActivitiesTB ActivitiesTBProps.

Lemma on_ledger_Ok `{TigerBeetle} {A} (m : M Env A) w a w' :
  on_ledger m w = (Ok a, w') → m (w_env w) = (Ok a, w_env w') ∧ w_db w' = w_db w.
Proof.
  unfold on_ledger, zoom. destruct (m (w_env w)) as [r e] eqn:E. intros He. by inv He.
Qed.

Section frames.
Context `{TL : TigerBeetleLaws} `{G : GoRange}.

#[local] Existing Instance ran_preorder.

Lemma on_ledger_grows {A} (m : M Env A) : keeps ran m → keeps ledger_grows (on_ledger m).
Proof.
  intros Hm w o w' He. unfold on_ledger, zoom in He. destruct (m (w_env w)) as [r e] eqn:E.
  injection He as <- <-. apply Hm in E. by apply ran_extends in E.
Qed.

Lemma quiet_ran {A} (m : M Env A) :
  (∀ e o e', m e = (o, e') → env_tb e' = env_tb e) → keeps ran m.
Proof. intros Hm e o e' He. exists []. by rewrite (Hm _ _ _ He). Qed.

Lemma range_ran {A} (m : gmap string A) : keeps ran (range m).
Proof. apply quiet_ran. intros e o e' Hr. by apply range_env in Hr as [? _]. Qed.

Lemma SubmitAllocationTransfers_ran input : keeps ran (SubmitAllocationTransfers input).
Proof.
  unfold SubmitAllocationTransfers. pose proof SubmitAllocations_ran. pose proof @range_ran. keeps_tac.
Qed.

End frames.

Section allocation.
Context `{TL : TigerBeetleLaws} `{G : GoRange} (input : SubmitAllocationInput).
Implicit Types (e : Env) (w : World).

#[local] Existing Instance ran_preorder.

(** Every credited resource has a prepared ID of its own, and the operator
    accounts have no limit. *)
Definition allocation_ready e : Prop :=
  Z.of_nat (size (ai_Credits input)) < 2 ^ 32 ∧
  (∀ r credits, ai_Credits input !! r = Some credits →
     ∃ id, ai_TransferIDs input !! r = Some id ∧ id ≠ zero16) ∧
  (∀ r1 r2 id, ai_TransferIDs input !! r1 = Some id → ai_TransferIDs input !! r2 = Some id → r1 = r2) ∧
  (∀ r op a, ai_GlobalOperatorIDs input !! r = Some op → account_at (env_tb e) op = Some a →
     DebitsMustNotExceedCredits (ac_Flags a) = false).

(** The transfer that credits [credits] units. *)
Definition alloc_transfer (credits l : Z) (id op quota : bytes16) : Transfer :=
  {| tr_ID := id; tr_DebitAccountID := op; tr_CreditAccountID := quota;
     tr_Amount := ToUint128 (u64 credits); tr_PendingID := zero16;
     tr_UserData128 := ai_TenantUUID input; tr_UserData64 := u64 (ai_PeriodStartNs input);
     tr_Ledger := l; tr_Code := CodeQuotaAllocation; tr_Flags := no_flags |}.

Lemma alloc_of_fields r credits al :
  alloc_of input r credits = Some al →
  at_Resource al = r ∧
  ai_GlobalOperatorIDs input !! r = Some (at_OperatorID al) ∧
  ai_TenantQuotaIDs input !! r = Some (at_TenantQuotaID al) ∧
  at_TransferID al = default zero16 (ai_TransferIDs input !! r) ∧
  ∀ l, LedgerID r = Ok l → alloc_tb al =
    Ok (alloc_transfer credits l (at_TransferID al) (at_OperatorID al) (at_TenantQuotaID al)).
Proof.
  unfold alloc_of. destruct (ai_GlobalOperatorIDs input !! r); [|done].
  destruct (ai_TenantQuotaIDs input !! r); [|done]. intros [= <-]. unfold alloc_tb. cbn -[UUIDToUint128].
  rewrite !UUIDToUint128_id. split_and!; try done.
  - destruct (ai_TransferIDs input !! r); simpl; [by rewrite UUIDToUint128_id|done].
  - intros l ->. done.
Qed.

(** The records of a submission, in the order the map was walked. *)
Definition records (kvs : list (string * Z)) : list AllocationTransfer :=
  omap (λ '(r, credits), alloc_of input r credits) kvs.

Lemma elem_of_records kvs al :
  kvs ≡ₚ map_to_list (ai_Credits input) →
  al ∈ records kvs ↔ ∃ r credits, ai_Credits input !! r = Some credits ∧ alloc_of input r credits = Some al.
Proof.
  intros Hp. unfold records. rewrite list_elem_of_omap. split.
  - intros ([r c] & Hin & Ha). rewrite Hp in Hin. apply elem_of_map_to_list in Hin. eauto.
  - intros (r & c & Hc & Ha). exists (r, c). split; [|done]. rewrite Hp. by apply elem_of_map_to_list.
Qed.

Lemma records_ids e kvs al :
  allocation_ready e → kvs ≡ₚ map_to_list (ai_Credits input) → al ∈ records kvs → at_TransferID al ≠ zero16.
Proof.
  intros (_ & Hids & _) Hp (r & c & Hc & Ha)%elem_of_records; [|done].
  apply alloc_of_fields in Ha as (_ & _ & _ & -> & _). by destruct (Hids _ _ Hc) as (id & -> & Hnz).
Qed.

(** A submission that returns has every record in the ledger: the only refusal
    that is not an error is a debit limit, which operators do not have. *)
Lemma allocation_lands e e' r credits op quota id :
  allocation_ready e → SubmitAllocationTransfers input e = (Ok tt, e') →
  ai_Credits input !! r = Some credits →
  ai_GlobalOperatorIDs input !! r = Some op → ai_TenantQuotaIDs input !! r = Some quota →
  ai_TransferIDs input !! r = Some id →
  is_Some (transfer_at (env_tb e') id).
Proof.
  intros Hready Hs Hc Ho Hq Hid.
  unfold SubmitAllocationTransfers in Hs. apply bind_Ok_inv in Hs as (kvs & e1 & Hr & Hs).
  apply range_env in Hr as (E1 & ? & [= <-] & Hp). fold (records kvs) in Hs.
  destruct (alloc_of input r credits) as [al|] eqn:Hal.
  2: { unfold alloc_of in Hal. by rewrite Ho, Hq in Hal. }
  assert (al ∈ records kvs) as Hin by (apply elem_of_records; eauto).
  case_decide as Hz. { apply nil_length_inv in Hz. rewrite Hz in Hin. by apply elem_of_nil in Hin. }
  apply bind_Ok_inv in Hs as (res & e2 & Hsub & Hs). inv Hs.
  apply SubmitAllocations_ok in Hsub as (ts & Hts & Hf & HF & _).
  2: { destruct Hready as [Hsz _]. assert (length (records kvs) ≤ size (ai_Credits input))%nat; [|lia].
       rewrite <- length_map_to_list, <- Hp. apply length_omap_le. }
  2: { intros al' Hal'. by eapply records_ids. }
  apply list_elem_of_lookup in Hin as [i Hi].
  destruct (Forall2_lookup_l _ _ _ _ _ Hts Hi) as (t & Ht & Htb).
  pose proof (alloc_of_fields _ _ _ Hal) as (Hre & Hopr & _ & Htid & _).
  apply outcome_bind_Ok in Htb as (l & _ & Htb). injection Htb as <-.
  destruct (lookup_lt_is_Some_2 (event_outcomes create_transfer ts (env_tb e1)) i) as [o Hoi].
  { rewrite event_outcomes_length. by eapply lookup_lt_Some. }
  destruct (Forall2_lookup_l _ _ _ _ _ HF Hoi) as (rr & _ & Hcl).
  destruct (outcome_taken _ _ _ _ _ Ht Hoi) as [_ Htk]. cbn [tr_ID] in Htk.
  rewrite Hid in Htid. simpl in Htid. rewrite Hf, <- Htid. apply Htk. intros x ->.
  destruct (classified_cases _ _ Hcl) as [->|]; [|done].
  destruct (outcome_exceeds _ _ _ _ Ht Hoi) as (a & Ha & Hfl). cbn in Ha. rewrite E1 in Ha.
  destruct Hready as (_ & _ & _ & Hop). by rewrite (Hop _ _ _ Hopr Ha) in Hfl.
Qed.

(** ** What can appear under the prepared IDs *)

Definition prepared (id : bytes16) : Prop :=
  ∃ r, is_Some (ai_Credits input !! r) ∧ ai_TransferIDs input !! r = Some id.

Definition requested (t : Transfer) : Prop :=
  ∃ r credits al, ai_Credits input !! r = Some credits ∧ alloc_of input r credits = Some al ∧
    alloc_tb al = Ok t.

(** Only requested transfers appear under the prepared IDs. *)
Definition wrote : relation World := λ w w', ∀ id t,
  prepared id → transfer_at (env_tb (w_env w')) id = Some t →
  transfer_at (env_tb (w_env w)) id = Some t ∨ (requested t ∧ tr_ID t = id).

#[export] Instance wrote_preorder : PreOrder wrote.
Proof.
  split; [by left|]. intros w1 w2 w3 H1 H2 id t Hid Ht.
  destruct (H2 id t Hid Ht) as [Ht2|]; [by apply H1|by right].
Qed.

(** The ledger events of an allocation submission are its own transfers. *)
Lemma SubmitAllocations_events allocs e o e' :
  (∀ a, a ∈ allocs → at_TransferID a ≠ zero16) →
  SubmitAllocations allocs e = (o, e') →
  ∃ ts, env_tb e' = final_state create_transfer ts (env_tb e) ∧
    ∀ t, t ∈ ts → ∃ a, a ∈ allocs ∧ alloc_tb a = Ok t.
Proof.
  intros Hid Hs. rewrite SubmitAllocations_eq in Hs by done.
  assert (∀ t, t ∈ [] → ∃ a, a ∈ allocs ∧ alloc_tb a = Ok t) as Hnil by by intros t ?%elem_of_nil.
  destruct (mapM alloc_tb allocs) as [ts| |] eqn:Em; [|inv Hs; by exists []..].
  apply submitBatch_env in Hs as (_ & _ & [->| ->]); [by exists []|].
  exists ts. split; [done|]. apply mapM_Ok in Em. intros t [i Ht]%list_elem_of_lookup.
  destruct (Forall2_lookup_r _ _ _ _ _ Em Ht) as (a & Ha & Htb).
  exists a. split; [by eapply list_elem_of_lookup_2|done].
Qed.

Lemma allocation_wrote e0 :
  allocation_ready e0 → keeps wrote (on_ledger (SubmitAllocationTransfers input)).
Proof.
  intros Hready w o w' Hs. unfold on_ledger, zoom in Hs.
  destruct (SubmitAllocationTransfers input (w_env w)) as [o' e'] eqn:He. injection Hs as <- <-.
  unfold SubmitAllocationTransfers in He. rewrite bind_cases in He.
  destruct (range _ (w_env w)) as [r e1] eqn:Er. apply range_env in Er as (E1 & kvs & -> & Hp).
  fold (records kvs) in He. intros id t Hid. cbn [w_env].
  case_decide; [inv He; rewrite E1; by left|].
  rewrite bind_cases in He. destruct (SubmitAllocations (records kvs) e1) as [r e2] eqn:Es.
  assert (e' = e2) as -> by (destruct r; by inv He).
  apply SubmitAllocations_events in Es as (ts & -> & Hts); [|intros; by eapply records_ids].
  rewrite E1. intros Ht. destruct (transfer_at (env_tb (w_env w)) id) as [t'|] eqn:Hold.
  - left. apply (final_transfer_at ts) in Hold. congruence.
  - right. destruct (final_transfer_new _ _ _ _ Hold Ht) as [Hin Heq].
    destruct (Hts t Hin) as (al & (r0 & c & Hc & Ha)%elem_of_records & Htb); [|done].
    split; [by exists r0, c, al|done].
Qed.

(** A requested transfer is determined by its ID. *)
Lemma requested_unique e r credits op quota id l t :
  allocation_ready e → requested t → tr_ID t = id →
  ai_Credits input !! r = Some credits →
  ai_GlobalOperatorIDs input !! r = Some op → ai_TenantQuotaIDs input !! r = Some quota →
  ai_TransferIDs input !! r = Some id → LedgerID r = Ok l →
  t = alloc_transfer credits l id op quota.
Proof.
  intros (_ & Hids & Hinj & _) (r' & c' & al & Hc' & Hal & Htb) Hid Hc Ho Hq Hpre Hl.
  pose proof (alloc_of_fields _ _ _ Hal) as (Hre & Hopr & Hquo & Htid & Htr).
  assert (tr_ID t = at_TransferID al) as Heq.
  { apply outcome_bind_Ok in Htb as (l' & _ & Htb). by inv Htb. }
  destruct (Hids _ _ Hc') as (id' & Hid' & _). rewrite Hid' in Htid. simpl in Htid.
  assert (r' = r) as -> by (eapply Hinj; [exact Hid'|congruence]).
  specialize (Htr l Hl). rewrite Htid in Htr. congruence.
Qed.

Context `{T : !Temporal} `{TeL : !TemporalLaws T}.

Lemma allocation_ready_grows w w' :
  ledger_grows w w' → (∀ r op, ai_GlobalOperatorIDs input !! r = Some op →
     is_Some (account_at (env_tb (w_env w)) op)) →
  allocation_ready (w_env w) → allocation_ready (w_env w').
Proof.
  intros [_ Hst] Hex (Hsz & Hids & Hinj & Hop). split_and!; [done..|].
  intros r op a' Hr Ha'. destruct (Hex r op Hr) as [a Ha]. specialize (Hop r op a Hr Ha).
  specialize (Hst op a Ha). rewrite Ha' in Hst. unfold static_of in Hst. simpl in Hst.
  assert (ac_Flags a' = ac_Flags a) as -> by congruence. done.
Qed.

(** The activity, to its end: after a success the ledger holds the requested
    transfer under the prepared ID, after a failure that one or none. *)
Lemma allocation_executed n w o w' r credits op quota id l :
  allocation_ready (w_env w) →
  (∀ r op, ai_GlobalOperatorIDs input !! r = Some op → is_Some (account_at (env_tb (w_env w)) op)) →
  (∀ w w', others w w' → ∀ id, prepared id → transfer_at (env_tb (w_env w)) id = None →
     transfer_at (env_tb (w_env w')) id = None) →
  transfer_at (env_tb (w_env w)) id = None →
  ai_Credits input !! r = Some credits →
  ai_GlobalOperatorIDs input !! r = Some op → ai_TenantQuotaIDs input !! r = Some quota →
  ai_TransferIDs input !! r = Some id → LedgerID r = Ok l →
  ExecuteActivity n (on_ledger (SubmitAllocationTransfers input)) w = (o, w') →
  match o with
  | Ok _ => transfer_at (env_tb (w_env w')) id = Some (alloc_transfer credits l id op quota)
  | Err _ => transfer_at (env_tb (w_env w')) id = None ∨
             transfer_at (env_tb (w_env w')) id = Some (alloc_transfer credits l id op quota)
  | Panic _ => False
  end.
Proof.
  intros Hready Hops Hothers Hfree Hc Ho Hq Hid Hl Hex.
  assert (prepared id) as Hpre by (exists r; eauto).
  assert (∀ w1 w2, others w1 w2 → wrote w1 w2) as How.
  { intros w1 w2 Hww id' t Hp Ht. left.
    destruct (transfer_at (env_tb (w_env w1)) id') as [t1|] eqn:E.
    - destruct (others_grow _ _ Hww) as [Hg _]. apply Hg in E. congruence.
    - apply (Hothers _ _ Hww _ Hp) in E. congruence. }
  pose proof (ExecuteActivity_keeps wrote n _ (allocation_wrote _ Hready) How _ _ _ Hex) as Hwrote.
  assert (∀ t, transfer_at (env_tb (w_env w')) id = Some t → t = alloc_transfer credits l id op quota) as Huse.
  { intros t Ht. destruct (Hwrote id t Hpre Ht) as [Hold|[Hreq Heq]]; [congruence|].
    by eapply (requested_unique _ r). }
  destruct o as [[]|x|p].
  - pose proof (on_ledger_grows _ (SubmitAllocationTransfers_ran input)) as Hgrow.
    destruct (ExecuteActivity_Ok ledger_grows n _ w tt w' Hgrow others_grow Hex) as (w0 & Hw0 & Hrun).
    apply on_ledger_Ok in Hrun as [Hrun _].
    destruct (allocation_lands _ _ r credits op quota id
      (allocation_ready_grows _ _ Hw0 Hops Hready) Hrun Hc Ho Hq Hid) as [t Ht].
    rewrite Ht. f_equal. by apply Huse.
  - destruct (transfer_at (env_tb (w_env w')) id) as [t|] eqn:Et; [right; f_equal; by apply Huse|by left].
  - by apply ExecuteActivity_no_panic in Hex.
Qed.
End allocation.
