(* ===== verification/ActivitiesPG.v ===== *)
(** * PostgreSQL activities (internal/accounting/activities_pg.go)

    The activities carry the names of the queries they run; the queries are
    referred to by their file, [Postgres]. *)

From S2P Require Import Prelude Domain TigerBeetle TBRef Ids Transfers Accounts LedgerProps.
From S2P Require Postgres.
From S2P Require Import World ActivitiesTB.
Import Postgres(Tables, DB, PGServer, query, db_tables, db_calls, db_fault, fault, NoFault,
  FailBefore, FailAfter, rows, rows_perm, quota_configs, quota_snapshots, tenants,
  workload_clusters, tb_account_ids, tb_global_account_ids, credit_adjustments, tenant_exists,
  QuotaConfig, QuotaSnapshot, qc_TenantID, qc_ResourceType, qc_SoftLimit, qc_SoftLimitAlertSent,
  qs_TenantID, qs_ResourceType, qs_CreditsTotal, qs_DebitsPosted, qs_DebitsPending, qs_Available,
  set_alert_sent).

Abbreviation UUID := bytes16 (only parsing).

(** ** Inputs *)

Record InsertTenantInput := {
  it_TenantID : string;
  it_Name : string;
  it_BillingTier : string;
}.

Record InsertClusterInput := {
  icl_ClusterID : string;
  icl_TenantID : string;
  icl_CloudProvider : string;
  icl_Region : string;
}.

Record InsertTBAccountMappingInput := {
  im_TenantID : string;
  im_AccountMap : idmap;
  im_GlobalMap : idmap2;
}.

(** [LedgerClient] is never read. *)
Record UpdateQuotaSnapshotsInput := {
  us_TenantID : string;
  us_TenantUUID : bytes16;
  us_AccountMap : idmap;
  us_Snapshots : gmap string QuotaSnapshotData;
}.

Record InsertCreditAdjustmentInput := {
  ia_TenantID : string;
  ia_ResourceType : string;
  ia_Amount : Z;
  ia_Reason : string;
  ia_TransferID : bytes16;
}.

Record CheckSoftLimitsInput := {
  cs_TenantID : string;
  cs_Snapshots : gmap string QuotaSnapshotData;
}.

Record ResetSoftLimitAlertInput := {
  rs_TenantID : string;
  rs_ResourceType : string;
}.

Record UpdateClusterStatusInput := {
  uc_ClusterID : string;
  uc_Status : string;
}.

Record DeregisterClusterInput := { dc_ClusterID : string }.
Record DeleteTenantInput := { dt_TenantID : string }.

Section activities.
Context `{TigerBeetle} `{GoRange} `{PGServer} `{UUIDPkg}.

(** A Go [range] over a map inside an activity. *)
Definition range_w {A} (m : gmap string A) : M World (list (string * A)) := on_ledger (range m).

Definition InsertTenant (input : InsertTenantInput) : M World unit :=
  tenantUUID ← parse_uuid "parse tenant UUID" (it_TenantID input);
  _ ← on_db (Postgres.InsertTenant tenantUUID (it_Name input) (it_BillingTier input));
  mret tt.

Definition InsertCluster (input : InsertClusterInput) : M World unit :=
  clusterUUID ← parse_uuid "parse cluster UUID" (icl_ClusterID input);
  tenantUUID ← parse_uuid "parse tenant UUID" (icl_TenantID input);
  _ ← on_db (Postgres.InsertCluster clusterUUID tenantUUID (icl_CloudProvider input)
               (icl_Region input));
  mret tt.

Definition InsertTBAccountMapping (input : InsertTBAccountMappingInput) : M World unit :=
  tenantUUID ← parse_uuid "parse tenant UUID" (im_TenantID input);
  kvs ← range_w (im_AccountMap input);
  foldM (λ _ '(resourceType, idBytes),
    wrap_err "InsertTBAccountMapping %s"
      (on_db (Postgres.InsertTBAccountMapping tenantUUID resourceType "tenant_quota"
                (vec_to_list (idBytes : bytes16))))) tt kvs.

Definition UpdateQuotaSnapshots (input : UpdateQuotaSnapshotsInput) : M World unit :=
  tenantUUID ← parse_uuid "parse tenant UUID" (us_TenantID input);
  kvs ← range_w (us_Snapshots input);
  foldM (λ _ '(resourceType, snap),
    wrap_err "UpsertQuotaSnapshot %s"
      (on_db (Postgres.UpsertQuotaSnapshot tenantUUID resourceType (sd_CreditsTotal snap)
                (sd_DebitsPosted snap) (sd_DebitsPending snap)))) tt kvs.

Definition InsertCreditAdjustment (input : InsertCreditAdjustmentInput) : M World unit :=
  tenantUUID ← parse_uuid "parse tenant UUID" (ia_TenantID input);
  on_db (Postgres.InsertCreditAdjustment tenantUUID (ia_ResourceType input) (ia_Amount input)
           (if decide (ia_Reason input ≠ "") then Some (ia_Reason input) else None)
           (vec_to_list (ia_TransferID input))).

(** The body of the loop over the quota configurations. *)
Definition check_config (input : CheckSoftLimitsInput) (tenantUUID : UUID) (cfg : QuotaConfig)
    : M World unit :=
  match qc_SoftLimit cfg, qc_SoftLimitAlertSent cfg with
  | None, _ | _, true => mret tt
  | Some soft, false =>
      match cs_Snapshots input !! qc_ResourceType cfg with
      | None => mret tt
      | Some snap =>
          let used := i64 (sd_DebitsPosted snap + sd_DebitsPending snap) in
          if decide (soft ≤ used) then
            _ ← modify (λ w, {| w with w_alerts :=
                  w_alerts w ++ [(cs_TenantID input, qc_ResourceType cfg, used)] |});
            wrap_err "MarkSoftLimitAlertSent %s"
              (on_db (Postgres.MarkSoftLimitAlertSent tenantUUID (qc_ResourceType cfg)))
          else mret tt
      end
  end.

Definition CheckSoftLimits (input : CheckSoftLimitsInput) : M World unit :=
  tenantUUID ← parse_uuid "parse tenant UUID" (cs_TenantID input);
  configs ← wrap_err "ListQuotaConfigsByTenant"
              (on_db (Postgres.ListQuotaConfigsByTenant tenantUUID));
  foldM (λ _ cfg, check_config input tenantUUID cfg) tt configs.

Definition ResetSoftLimitAlert (input : ResetSoftLimitAlertInput) : M World unit :=
  tenantUUID ← parse_uuid "parse tenant UUID" (rs_TenantID input);
  on_db (Postgres.ResetSoftLimitAlert tenantUUID (rs_ResourceType input)).

Definition UpdateClusterStatus (input : UpdateClusterStatusInput) : M World unit :=
  clusterUUID ← parse_uuid "parse cluster UUID" (uc_ClusterID input);
  on_db (Postgres.UpdateClusterStatus clusterUUID (uc_Status input)).

Definition DeregisterCluster (input : DeregisterClusterInput) : M World unit :=
  clusterUUID ← parse_uuid "parse cluster UUID" (dc_ClusterID input);
  on_db (Postgres.DeregisterCluster clusterUUID).

Definition DeleteTenant (input : DeleteTenantInput) : M World unit :=
  tenantUUID ← parse_uuid "parse tenant UUID" (dt_TenantID input);
  on_db (Postgres.DeleteTenant tenantUUID).
End activities.

(** ** The projection never touches the ledger *)

Section projection.
Context `{TigerBeetle} `{GoRange} `{PGServer} `{UUIDPkg}.
Implicit Types (w : World).

Definition same_ledger : relation World := λ w w', env_tb (w_env w') = env_tb (w_env w).

#[export] Instance same_ledger_preorder : PreOrder same_ledger.
Proof. split; [by intros w|]. unfold same_ledger. intros w1 w2 w3. congruence. Qed.

Lemma on_db_same_ledger {A} (m : M DB A) : keeps same_ledger (on_db m).
Proof. intros w o w' He. unfold on_db, zoom in He. destruct (m (w_db w)). by inv He. Qed.

Lemma range_w_same_ledger {A} (m : gmap string A) : keeps same_ledger (range_w m).
Proof. intros w o w' He. by inv He. Qed.

Lemma modify_alerts_same_ledger f :
  (∀ w, env_tb (w_env (f w)) = env_tb (w_env w)) → keeps same_ledger (modify f : M World unit).
Proof. intros Hf w o w' He. inv He. by unfold same_ledger. Qed.
#[local] Hint Resolve on_db_same_ledger range_w_same_ledger : credit.

Lemma UpdateQuotaSnapshots_same_ledger input : keeps same_ledger (UpdateQuotaSnapshots input).
Proof. unfold UpdateQuotaSnapshots, parse_uuid. keeps_tac. Qed.

Lemma CheckSoftLimits_same_ledger input : keeps same_ledger (CheckSoftLimits input).
Proof.
  unfold CheckSoftLimits, check_config, parse_uuid. keeps_tac. by apply modify_alerts_same_ledger.
Qed.

Lemma ResetSoftLimitAlert_same_ledger input : keeps same_ledger (ResetSoftLimitAlert input).
Proof. unfold ResetSoftLimitAlert, parse_uuid. keeps_tac. Qed.
End projection.
#[export] Hint Resolve on_db_same_ledger range_w_same_ledger UpdateQuotaSnapshots_same_ledger CheckSoftLimits_same_ledger
  ResetSoftLimitAlert_same_ledger : credit.

(** ** The rows that an activity writes *)

Section rows.
Context `{TigerBeetle} `{GoRange} `{PGServer} `{UUIDPkg}.
Implicit Types (w : World).

Definition tables_of w : Tables := db_tables (w_db w).

Lemma on_db_query {A} (stmt : nat → Tables → outcome (A * Tables)) w a w' :
  on_db (query stmt) w = (Ok a, w') →
  w_alerts w' = w_alerts w ∧ ∃ t, stmt (db_calls (w_db w)) (tables_of w) = Ok (a, t) ∧ tables_of w' = t.
Proof.
  unfold on_db, zoom, query, tables_of.
  destruct (db_fault (w_db w) _); [|intros Hq; inv Hq|].
  - destruct (stmt _ _) as [[a' t]| |]; intros Hq; inv Hq. eauto.
  - by destruct (stmt _ _) as [[a' t]| |].
Qed.

Lemma parse_uuid_Ok what s w u w' :
  parse_uuid what s w = (Ok u, w') → w' = w ∧ uuid_Parse s = Some u.
Proof. unfold parse_uuid. destruct (uuid_Parse s); intros Hp; by inv Hp. Qed.

Lemma range_w_Ok {A} (m : gmap string A) w kvs w' :
  range_w m w = (Ok kvs, w') → w_db w' = w_db w ∧ w_alerts w' = w_alerts w ∧ kvs ≡ₚ map_to_list m.
Proof. intros Hr. inv Hr. split_and!; [done..|]. apply range_order_perm. Qed.

(** The row of quota_snapshots that projects a balance. *)
Definition projects (tenant : UUID) (r : string) (snap : QuotaSnapshotData) (row : QuotaSnapshot)
    : Prop :=
  qs_TenantID row = tenant ∧ qs_ResourceType row = r ∧
  qs_CreditsTotal row = sd_CreditsTotal snap ∧ qs_DebitsPosted row = sd_DebitsPosted snap ∧
  qs_DebitsPending row = sd_DebitsPending snap ∧
  qs_Available row =
    Some (sd_CreditsTotal snap - sd_DebitsPosted snap - sd_DebitsPending snap) ∧
  in_i64 (sd_CreditsTotal snap - sd_DebitsPosted snap) ∧
  in_i64 (sd_CreditsTotal snap - sd_DebitsPosted snap - sd_DebitsPending snap).

Lemma upsert_Ok tenant r c d p w u w' :
  on_db (Postgres.UpsertQuotaSnapshot tenant r c d p) w = (Ok u, w') →
  ∃ row, projects tenant r {| sd_CreditsTotal := c; sd_DebitsPosted := d; sd_DebitsPending := p |} row ∧
    quota_snapshots (tables_of w') = <[(tenant, r) := row]> (quota_snapshots (tables_of w)).
Proof.
  intros (_ & t & Hq & Ht)%on_db_query.
  apply outcome_bind_Ok in Hq as (av & Hav & Hq). apply outcome_bind_Ok in Hq as (_ & _ & Hq).
  injection Hq as _ <-. rewrite Ht. eexists. split; [|reflexivity].
  unfold Postgres.available_of in Hav.
  destruct (bool_decide (in_i64 (c - d)) && _) eqn:Hb; inv Hav.
  apply andb_true_iff in Hb as [Hb1%bool_decide_eq_true Hb2%bool_decide_eq_true]. by unfold projects.
Qed.

Lemma upsert_loop tenant kvs w w' :
  foldM (λ _ '(resourceType, snap),
    wrap_err "UpsertQuotaSnapshot %s"
      (on_db (Postgres.UpsertQuotaSnapshot tenant resourceType (sd_CreditsTotal snap)
                (sd_DebitsPosted snap) (sd_DebitsPending snap)))) tt kvs w = (Ok tt, w') →
  NoDup kvs.*1 →
  (∀ k, (∀ r, r ∈ kvs.*1 → k ≠ (tenant, r)) →
     quota_snapshots (tables_of w') !! k = quota_snapshots (tables_of w) !! k) ∧
  ∀ r snap, (r, snap) ∈ kvs →
    ∃ row, quota_snapshots (tables_of w') !! (tenant, r) = Some row ∧ projects tenant r snap row.
Proof.
  revert w. induction kvs as [|[r0 s0] kvs IH]; intros w Hf Hnd; simpl in Hf.
  { inv Hf. split; [done|]. by intros r snap ?%elem_of_nil. }
  inv Hnd. apply bind_Ok_inv in Hf as ([] & w1 & Hu & Hf). apply wrap_Ok, upsert_Ok in Hu as (row & Hrow & Ht).
  destruct (IH _ Hf) as [Hout Hin]; [done|]. split.
  - intros k Hk. rewrite Hout, Ht, lookup_insert_ne; [done| |].
    + intros <-. by apply (Hk r0); [left|].
    + intros r Hr. apply Hk. by right.
  - intros r snap [Heq|Hr]%elem_of_cons; [|by apply Hin].
    injection Heq as -> ->. exists row. split; [|by destruct s0].
    rewrite Hout, Ht, lookup_insert_eq; [done|]. intros r Hr [= ->]. done.
Qed.

(** The projection writes what it was given: the row of every resource in the
    snapshots holds exactly the given balances and the available amount computed
    from them, all other rows of quota_snapshots are as before, and the ledger is
    untouched. *)
Lemma snapshots_projected : ∀ input w w',
  UpdateQuotaSnapshots input w = (Ok tt, w') →
  ∃ tenant, uuid_Parse (us_TenantID input) = Some tenant ∧
  same_ledger w w' ∧
  (∀ r snap, us_Snapshots input !! r = Some snap →
     ∃ row, quota_snapshots (tables_of w') !! (tenant, r) = Some row ∧ projects tenant r snap row) ∧
  (∀ k, (∀ r, is_Some (us_Snapshots input !! r) → k ≠ (tenant, r)) →
     quota_snapshots (tables_of w') !! k = quota_snapshots (tables_of w) !! k).
Proof.
  intros input w w' Hu. pose proof (UpdateQuotaSnapshots_same_ledger input _ _ _ Hu) as Hl.
  unfold UpdateQuotaSnapshots in Hu. apply bind_Ok_inv in Hu as (tenant & w1 & Hp & Hu).
  apply parse_uuid_Ok in Hp as [-> Hp]. exists tenant. split_and!; [done|done|..].
  all: apply bind_Ok_inv in Hu as (kvs & w2 & Hr & Hf); apply range_w_Ok in Hr as (Hdb & _ & Hperm);
    destruct (upsert_loop _ _ _ _ Hf) as [Hout Hin];
    [rewrite Hperm; apply NoDup_fst_map_to_list|].
  - intros r snap Hs. apply Hin. rewrite Hperm. by apply elem_of_map_to_list.
  - intros k Hk. rewrite Hout; [unfold tables_of; by rewrite Hdb|].
    intros r ([r' snap] & -> & Hr)%list_elem_of_fmap. apply Hk. rewrite Hperm in Hr.
    apply elem_of_map_to_list in Hr. by eexists.
Qed.

(** ** Soft limits *)

(** Rows are stored under their own keys. *)
Definition configs_wf (t : Tables) : Prop :=
  ∀ k r, quota_configs t !! k = Some r → (qc_TenantID r, qc_ResourceType r) = k.

(** A configuration whose alert is due. *)
Definition due (input : CheckSoftLimitsInput) (cfg : QuotaConfig) : bool :=
  match qc_SoftLimit cfg, qc_SoftLimitAlertSent cfg, cs_Snapshots input !! qc_ResourceType cfg with
  | Some soft, false, Some snap =>
      bool_decide (soft ≤ i64 (sd_DebitsPosted snap + sd_DebitsPending snap))
  | _, _, _ => false
  end.

Lemma check_config_not_due input tenant cfg w :
  due input cfg = false → check_config input tenant cfg w = (Ok tt, w).
Proof.
  unfold due, check_config. intros Hd.
  destruct (qc_SoftLimit cfg) as [soft|], (qc_SoftLimitAlertSent cfg), (cs_Snapshots input !! qc_ResourceType cfg)
    as [snap|]; try done.
  by rewrite decide_False by (by apply bool_decide_eq_false in Hd).
Qed.

Lemma check_config_due input tenant cfg w w' :
  due input cfg = true → check_config input tenant cfg w = (Ok tt, w') →
  quota_configs (tables_of w') =
    alter (λ r, {| r with qc_SoftLimitAlertSent := true |}) (tenant, qc_ResourceType cfg)
          (quota_configs (tables_of w)).
Proof.
  unfold due, check_config. intros Hd Hc.
  destruct (qc_SoftLimit cfg) as [soft|], (qc_SoftLimitAlertSent cfg), (cs_Snapshots input !! qc_ResourceType cfg)
    as [snap|]; try done.
  apply bool_decide_eq_true in Hd. rewrite decide_True in Hc by done.
  apply bind_Ok_inv in Hc as ([] & w1 & Hm & Hc). inv Hm. apply wrap_Ok in Hc.
  apply on_db_query in Hc as (_ & t & [= <-] & ->). done.
Qed.

(** After the loop every configuration that was due is marked. *)
Lemma check_loop input tenant cfgs w w' :
  foldM (λ _ cfg, check_config input tenant cfg) tt cfgs w = (Ok tt, w') →
  ∀ k r', quota_configs (tables_of w') !! k = Some r' →
  ∃ r, quota_configs (tables_of w) !! k = Some r ∧
    (r' = r ∨ r' = {| r with qc_SoftLimitAlertSent := true |}) ∧
    (∀ cfg, cfg ∈ cfgs → due input cfg = true → k = (tenant, qc_ResourceType cfg) →
       qc_SoftLimitAlertSent r' = true).
Proof.
  revert w. induction cfgs as [|cfg cfgs IH]; intros w Hf k r' Hk; simpl in Hf.
  { inv Hf. exists r'. split_and!; [done|by left|]. by intros cfg ?%elem_of_nil. }
  apply bind_Ok_inv in Hf as ([] & w1 & Hc & Hf).
  destruct (IH _ Hf k r' Hk) as (r1 & Hr1 & Hor & Hsent).
  destruct (due input cfg) eqn:Hd.
  - pose proof (check_config_due _ _ _ _ _ Hd Hc) as Heq. rewrite Heq in Hr1.
    destruct (decide (k = (tenant, qc_ResourceType cfg))) as [->|Hne].
    + rewrite lookup_alter_eq in Hr1. destruct (quota_configs (tables_of w) !! _) as [r|]; inv Hr1.
      exists r. split_and!; [done|right; by destruct Hor as [->| ->]|].
      intros _ _ _ _. by destruct Hor as [->| ->].
    + rewrite lookup_alter_ne in Hr1 by done. exists r1. split_and!; [done..|].
      intros cfg' [->|Hin]%elem_of_cons Hd' Hk'; [done|by eapply Hsent].
  - rewrite (check_config_not_due _ _ _ _ Hd) in Hc. injection Hc as <-.
    exists r1. split_and!; [done..|].
    intros cfg' [->|Hin]%elem_of_cons Hd' Hk'; [congruence|by eapply Hsent].
Qed.

Lemma quiet_loop input tenant cfgs w :
  (∀ cfg, cfg ∈ cfgs → due input cfg = false) →
  foldM (λ _ cfg, check_config input tenant cfg) tt cfgs w = (Ok tt, w).
Proof.
  induction cfgs as [|cfg cfgs IH]; intros Hd; [done|]. simpl.
  rewrite (bind_Ok _ _ _ tt w) by (apply check_config_not_due, Hd; left).
  apply IH. intros. apply Hd. by right.
Qed.

Lemma list_configs_elem tenant w cfgs w' :
  on_db (Postgres.ListQuotaConfigsByTenant tenant) w = (Ok cfgs, w') →
  w_alerts w' = w_alerts w ∧ tables_of w' = tables_of w ∧
  ∀ cfg, cfg ∈ cfgs ↔ qc_TenantID cfg = tenant ∧ ∃ k, quota_configs (tables_of w) !! k = Some cfg.
Proof.
  intros (Ha & t & [= <- <-] & Ht)%on_db_query. split_and!; [done..|]. intros cfg.
  rewrite rows_perm, list_elem_of_filter, list_elem_of_fmap. apply and_iff_compat_l. split.
  - intros ([k r] & -> & Hin%elem_of_map_to_list). eauto.
  - intros (k & Hk). exists (k, cfg). split; [done|]. by apply elem_of_map_to_list.
Qed.

Lemma due_sent input r : qc_SoftLimitAlertSent r = true → due input r = false.
Proof. unfold due. intros ->. by destruct (qc_SoftLimit r). Qed.

(** The warning logged for a configuration. *)
Definition alert_of (input : CheckSoftLimitsInput) (cfg : QuotaConfig) : string * string * Z :=
  (cs_TenantID input, qc_ResourceType cfg,
   match cs_Snapshots input !! qc_ResourceType cfg with
   | Some snap => i64 (sd_DebitsPosted snap + sd_DebitsPending snap)
   | None => 0
   end).

Lemma check_config_alerts input tenant cfg w w' :
  check_config input tenant cfg w = (Ok tt, w') →
  w_alerts w' = w_alerts w ++ (if due input cfg then [alert_of input cfg] else []).
Proof.
  destruct (due input cfg) eqn:Hd.
  - unfold due, check_config, alert_of in *. intros Hc.
    destruct (qc_SoftLimit cfg) as [soft|], (qc_SoftLimitAlertSent cfg), (cs_Snapshots input !! qc_ResourceType cfg)
      as [snap|]; try done.
    apply bool_decide_eq_true in Hd. rewrite decide_True in Hc by done.
    apply bind_Ok_inv in Hc as ([] & w1 & Hm & Hc). inv Hm. apply wrap_Ok in Hc.
    by apply on_db_query in Hc as (-> & _).
  - rewrite check_config_not_due by done. intros [= <-]. by rewrite app_nil_r.
Qed.

Lemma check_loop_alerts input tenant cfgs w w' :
  foldM (λ _ cfg, check_config input tenant cfg) tt cfgs w = (Ok tt, w') →
  w_alerts w' = w_alerts w ++ (alert_of input <$> filter (λ cfg, due input cfg = true) cfgs).
Proof.
  revert w. induction cfgs as [|cfg cfgs IH]; intros w Hf; simpl in Hf.
  { inv Hf. by rewrite app_nil_r. }
  apply bind_Ok_inv in Hf as ([] & w1 & Hc & Hf).
  rewrite (IH _ Hf), (check_config_alerts _ _ _ _ _ Hc), <- app_assoc. f_equal.
  destruct (due input cfg) eqn:Hd; [by rewrite filter_cons_True|rewrite filter_cons_False; [done|congruence]].
Qed.

(** C19: a soft limit alerts exactly once. On well-formed tables a successful
    [CheckSoftLimits] logs a warning for precisely the configurations of the
    tenant that have a soft limit, have not been alerted and whose use has
    reached the limit; a further [CheckSoftLimits] with the same balances logs no
    warning, whether or not its database calls succeed, because every such
    configuration has been marked. *)
Theorem soft_limit_alerts_once : ∀ input w w1 o w2,
  configs_wf (tables_of w) →
  CheckSoftLimits input w = (Ok tt, w1) →
  (∃ tenant alerts, uuid_Parse (cs_TenantID input) = Some tenant ∧
     w_alerts w1 = w_alerts w ++ alerts ∧
     ∀ a, a ∈ alerts ↔ ∃ cfg, due input cfg = true ∧ a = alert_of input cfg ∧
       qc_TenantID cfg = tenant ∧ ∃ k, quota_configs (tables_of w) !! k = Some cfg) ∧
  (CheckSoftLimits input w1 = (o, w2) → w_alerts w2 = w_alerts w1).
Proof.
  intros input w w1 o w2 Hwf H1'. unfold CheckSoftLimits in *.
  apply bind_Ok_inv in H1' as (tenant & w0 & Hp & H1'). apply parse_uuid_Ok in Hp as [-> Hp].
  apply bind_Ok_inv in H1' as (cfgs & w0 & Hl & Hf). apply wrap_Ok, list_configs_elem in Hl as (Ha0 & Ht & Hin).
  split.
  { exists tenant, (alert_of input <$> filter (λ cfg, due input cfg = true) cfgs). split_and!; [done| |].
    - by rewrite (check_loop_alerts _ _ _ _ _ Hf), Ha0.
    - intros a. rewrite list_elem_of_fmap. apply exist_proper. intros cfg.
      rewrite list_elem_of_filter, Hin. naive_solver. }
  intros H2'. unfold parse_uuid in H2'. rewrite Hp in H2'. rewrite bind_cases in H2'. simpl in H2'.
  rewrite bind_cases in H2'. unfold wrap_err in H2' at 1.
  destruct (on_db (Postgres.ListQuotaConfigsByTenant tenant) w1) as [r w3] eqn:El.
  assert (w_alerts w3 = w_alerts w1) as Ha.
  { unfold on_db, zoom in El. destruct (Postgres.ListQuotaConfigsByTenant _ _). by inv El. }
  destruct r as [cfgs2| |]; [|by inv H2'..].
  apply list_configs_elem in El as (_ & Ht2 & Hin2).
  rewrite quiet_loop in H2'; [by inv H2'|].
  intros cfg (Htn & k & Hk)%Hin2.
  destruct (check_loop _ _ _ _ _ Hf k cfg Hk) as (r0 & Hr0 & Hor & Hsent).
  rewrite Ht in Hr0. pose proof (Hwf k r0 Hr0) as Hkey.
  destruct Hor as [->| ->]; [|by apply due_sent].
  destruct (due input r0) eqn:Hd; [|done].
  rewrite (due_sent input r0) in Hd; [done|]. apply (Hsent r0); [|done|congruence].
  apply Hin. split; [done|]. by exists k.
Qed.
End rows.

(** ** Concrete runs *)

#[export] Instance demo_server : PGServer.
Proof.
  refine {| Postgres.rows n A l := l; Postgres.text_le a b := true;
            Postgres.pg_now n := Z.of_nat n; Postgres.gen_random_uuid n := ref_types_ID n |}.
  done.
Defined.

(** A printer and a parser that invert each other: the key of the value in
    binary. *)
Fixpoint pos_string (p : positive) : string :=
  match p with
  | xH => EmptyString
  | xO p => String Ascii.zero (pos_string p)
  | xI p => String Ascii.one (pos_string p)
  end.
Fixpoint string_pos (s : string) : positive :=
  match s with
  | EmptyString => xH
  | String c s => if decide (c = Ascii.one) then xI (string_pos s) else xO (string_pos s)
  end.

Lemma string_pos_string p : string_pos (pos_string p) = p.
Proof. induction p as [p IH|p IH|]; simpl; by rewrite ?IH. Qed.

#[export] Instance demo_uuids : UUIDPkg :=
  {| uuid_Parse s := decode (string_pos s); uuid_String u := pos_string (encode u) |}.

#[export] Instance demo_uuids_laws : UUIDLaws demo_uuids.
Proof. split. intros u. simpl. by rewrite string_pos_string, decode_encode. Qed.

Definition demo_tenant : string := uuid_String (demo_id 77).

(** A tenant with a soft limit of 50 on CPU, in a database without faults. *)
Definition demo_tables : Tables :=
  {| Postgres.empty_tables with
     tenants := {[demo_id 77 := {| Postgres.tn_ID := demo_id 77; Postgres.tn_Name := "acme";
       Postgres.tn_BillingTier := "pro"; Postgres.tn_Status := "active";
       Postgres.tn_CreatedAt := 0; Postgres.tn_DeletedAt := None |}]};
     quota_configs := {[(demo_id 77, "cpu_hours") :=
       {| Postgres.qc_TenantID := demo_id 77; Postgres.qc_ResourceType := "cpu_hours";
          Postgres.qc_BasePlanID := None; Postgres.qc_HardLimit := 100;
          Postgres.qc_SoftLimit := Some 50; Postgres.qc_BurstCredits := 0;
          Postgres.qc_BillingPeriod := "monthly"; Postgres.qc_SoftLimitAlertSent := false |}]} |}.

Definition demo_db : DB := {| db_tables := demo_tables; db_calls := 0; db_fault _ := NoFault |}.
Definition demo_world : World := {| w_env := demo_env; w_db := demo_db; w_alerts := [] |}.

Definition demo_snapshots : gmap string QuotaSnapshotData :=
  {["cpu_hours" := {| sd_CreditsTotal := 100; sd_DebitsPosted := 60; sd_DebitsPending := 0 |}]}.

Lemma soft_limit_alerts_once_witness :
  let input := {| cs_TenantID := demo_tenant; cs_Snapshots := demo_snapshots |} in
  let w1 := (CheckSoftLimits input demo_world).2 in
  w_alerts w1 = [(demo_tenant, "cpu_hours", 60)] ∧
  w_alerts (CheckSoftLimits input w1).2 = w_alerts w1.
Proof.
  intros input w1. split; [by vm_compute|].
  eapply (soft_limit_alerts_once input demo_world w1 (CheckSoftLimits input w1).1).
  - apply (bool_decide_unpack (map_Forall (λ k r, (qc_TenantID r, qc_ResourceType r) = k)
      (quota_configs (tables_of demo_world)))). by vm_compute.
  - apply unit_ok. by vm_compute.
  - apply surjective_pairing.
Defined.
