(* ===== verification/AccountingWorkflow.v ===== *)
(** * The tenant accounting workflow (internal/accounting/workflow_accounting.go)

    The workflow state is the record the workflow keeps; the handlers are state
    computations over it and the world.  An activity is a call of [Temporal].
    The main loop is the function [loop_step]: the selector picks one ready case
    (a heartbeat, a registration or the timer), the credit update runs between
    two cases, and after each case the loop may continue as new.  Handlers run
    one after the other here; other workflows act while a handler waits for an
    activity, through [others].  [Interleaving] has the same handlers with the credit
    updates interleaved at these points. *)

From S2P Require Import Prelude Domain TigerBeetle TBRef Ids Transfers Accounts LedgerProps.
From S2P Require Import World ActivitiesTB ActivitiesPG.
From S2P Require Postgres.
Import Postgres(PGServer).

(** Durations in nanoseconds. *)
Definition second : Z := 1000000000.
Definition baseFlushInterval : Z := 2 * second.
Definition maxFlushInterval : Z := 60 * second.
Definition batchSizeThreshold : Z := 150.
Definition TaskQueueAccounting : string := "tenant-accounting".

Record TenantAccountingState := {
  TenantID : string;
  TenantUUID : bytes16;
  ProcessedSeqs : gmap string Z;
  AccountMap : idmap;
  GlobalOperatorIDs : idmap;
  GlobalSinkIDs : idmap;
  CurBatch : list HeartbeatSignal;
  LastAck : Z;
  CurrentFlushInterval : Z;
  PendingGaugeIDs : idmap2;
  ExceededResources : gmap string bool;
  FlushSeqNo : Z;
}.

Record TenantAccountingInput := {
  in_TenantID : string;
  in_TenantUUID : bytes16;
  in_AccountMap : idmap;
  in_GlobalOperatorIDs : idmap;
  in_GlobalSinkIDs : idmap;
  CarryProcessedSeqs : gmap string Z;
  CarryPendingGaugeIDs : idmap2;
  CarryExceededResources : gmap string bool;
  CarryLastAck : Z;
  CarryFlushSeqNo : Z;
}.

(** The running workflow: its state, the duration of the armed flush timer and
    the world. *)
Record Sys `{TigerBeetle} := {
  sys_state : TenantAccountingState;
  sys_timer : Z;
  sys_world : World;
}.
Arguments Sys {_}.
Arguments Build_Sys {_} _ _ _.

(** The state built when the workflow starts, or restarts with carried state. *)
Definition initial_state (input : TenantAccountingInput) : TenantAccountingState :=
  {| TenantID := in_TenantID input;
     TenantUUID := in_TenantUUID input;
     ProcessedSeqs := CarryProcessedSeqs input;
     AccountMap := in_AccountMap input;
     GlobalOperatorIDs := in_GlobalOperatorIDs input;
     GlobalSinkIDs := in_GlobalSinkIDs input;
     CurBatch := [];
     LastAck := CarryLastAck input;
     CurrentFlushInterval := baseFlushInterval;
     PendingGaugeIDs := CarryPendingGaugeIDs input;
     ExceededResources := CarryExceededResources input;
     FlushSeqNo := CarryFlushSeqNo input |}.

(** ** Pure parts of flushBatch *)

(** The deterministic gauge IDs of a flush. *)
Definition gauge_ids_step `{Blake3} (tenantUUID : bytes16) (seqNo : Z)
    (acc : idmap2 * idmap2) (hr : HeartbeatSignal * ResourceType) : outcome (idmap2 * idmap2) :=
  let '(newGaugePendingIDs, gaugeVoidIDs) := acc in
  let '(hb, r) := hr in
  if negb (IsGauge r) then Ok acc else
  ledger ← LedgerID r;
  let c := hb_ClusterID hb in
  let '(news, voids) :=
    match newGaugePendingIDs !! c with
    | None => (∅, ∅)
    | Some news => (news, default ∅ (gaugeVoidIDs !! c))
    end in
  Ok (<[c := <[r := Uint128ToBytes (DeriveGaugePendingID tenantUUID seqNo (hb_ClusterUUID hb) ledger)]> news]>
        newGaugePendingIDs,
      <[c := <[r := Uint128ToBytes (DeriveGaugeVoidID tenantUUID seqNo (hb_ClusterUUID hb) ledger)]> voids]>
        gaugeVoidIDs).

Fixpoint gauge_ids_loop `{Blake3} (tenantUUID : bytes16) (seqNo : Z) (acc : idmap2 * idmap2)
    (hrs : list (HeartbeatSignal * ResourceType)) : outcome (idmap2 * idmap2) :=
  match hrs with
  | [] => Ok acc
  | hr :: hrs => acc ← gauge_ids_step tenantUUID seqNo acc hr;
                 gauge_ids_loop tenantUUID seqNo acc hrs
  end.

(** [ExceededResources] after one entry of [result.PerResource]. *)
Definition exceeded_step (m : gmap string bool) (kv : string * ResourceBatchResult)
    : gmap string bool :=
  let '(resourceType, rr) := kv in
  if rb_ExceedsCredits rr then <[resourceType := true]> m
  else if rb_Accepted rr then delete resourceType m else m.

(** [PendingGaugeIDs[clusterID]] after one entry of its updates. *)
Definition pending_step (m : idmap) (kv : string * bytes16) : idmap :=
  let '(resource, id) := kv in
  if decide (id = zero16) then delete resource m else <[resource := id]> m.

(** [ProcessedSeqs] and [LastAck] after one heartbeat of the batch. *)
Definition processed_step (acc : gmap string Z * Z) (hb : HeartbeatSignal) : gmap string Z * Z :=
  let '(seqs, ack) := acc in
  let seqs := match seqs !! hb_ClusterID hb with
              | Some prev => if decide (hb_SequenceNumber hb > prev)
                             then <[hb_ClusterID hb := hb_SequenceNumber hb]> seqs else seqs
              | None => <[hb_ClusterID hb := hb_SequenceNumber hb]> seqs
              end in
  (seqs, if decide (hb_SequenceNumber hb > ack) then hb_SequenceNumber hb else ack).

(** ** Handlers *)

Section workflow.
Context `{TigerBeetle} `{Blake3} `{GoRange} `{PGServer} `{UUIDPkg} `{!Temporal}.

Definition activity {A} (n : nat) (m : M World A) : M Sys A :=
  zoom sys_world (λ w s, {| s with sys_world := w |}) (ExecuteActivity n m).
Definition range_s {A} (m : gmap string A) : M Sys (list (string * A)) :=
  zoom sys_world (λ w s, {| s with sys_world := w |}) (range_w m).
Definition update (f : TenantAccountingState → TenantAccountingState) : M Sys unit :=
  modify (λ s, {| s with sys_state := f (sys_state s) |}).
Definition resetTimer : M Sys unit :=
  modify (λ s, {| s with sys_timer := CurrentFlushInterval (sys_state s) |}).

(** [MaximumAttempts: 5] *)
Definition maximumAttempts : nat := 5.

(** The input of the batch activity. *)
Definition batch_input (state : TenantAccountingState) (ids : idmap2 * idmap2) : TBBatchInput := {|
  bi_TenantID := TenantID state;
  bi_TenantUUID := TenantUUID state;
  bi_AccountMap := {| am_OperatorIDs := ∅; am_TenantQuotaIDs := AccountMap state;
                      am_SinkIDs := ∅ |};
  bi_Heartbeats := CurBatch state;
  bi_GlobalOperatorIDs := GlobalOperatorIDs state;
  bi_GlobalSinkIDs := GlobalSinkIDs state;
  bi_PendingGaugeIDs := PendingGaugeIDs state;
  bi_NewGaugePendingIDs := ids.1;
  bi_GaugeVoidIDs := ids.2 |}.

(** The updates of the state after a committed batch. *)
Definition apply_result (result : TBBatchResult) : M Sys unit :=
  per ← range_s (br_PerResource result);
  _ ← update (λ st, {| st with ExceededResources := foldl exceeded_step (ExceededResources st) per |});
  gus ← range_s (br_GaugeUpdates result);
  _ ← foldM (λ _ '(clusterID, resources),
        kvs ← range_s resources;
        update (λ st, {| st with PendingGaugeIDs :=
          <[clusterID := foldl pending_step (default ∅ (PendingGaugeIDs st !! clusterID)) kvs]>
            (PendingGaugeIDs st) |})) tt gus;
  update (λ st,
    let '(seqs, ack) := foldl processed_step (ProcessedSeqs st, LastAck st) (CurBatch st) in
    {| st with ProcessedSeqs := seqs; LastAck := ack; CurBatch := [] |}).

(** The projection of the balances into PostgreSQL; errors are only logged. *)
Definition refresh_projection (state : TenantAccountingState) : M Sys unit :=
  balResult ← try (activity maximumAttempts
                (on_ledger (LookupAccountBalances {| li_TenantQuotaIDs := AccountMap state |})));
  match balResult with
  | inl _ => mret tt
  | inr balResult =>
      _ ← try (activity maximumAttempts (UpdateQuotaSnapshots
            {| us_TenantID := TenantID state; us_TenantUUID := TenantUUID state;
               us_AccountMap := ∅; us_Snapshots := lr_Balances balResult |}));
      _ ← try (activity maximumAttempts (CheckSoftLimits
            {| cs_TenantID := TenantID state; cs_Snapshots := lr_Balances balResult |}));
      mret tt
  end.

Definition flushBatch : M Sys unit :=
  state ← gets sys_state;
  if decide (length (CurBatch state) = 0%nat) then mret tt else
  _ ← update (λ st, {| st with FlushSeqNo := u64 (FlushSeqNo st + 1) |});
  let seqNo := u64 (FlushSeqNo state + 1) in
  ids ← lift (gauge_ids_loop (TenantUUID state) seqNo (∅, ∅) (hb_resources (CurBatch state)));
  result ← wrap_err "SubmitTBBatch"
             (activity maximumAttempts (on_ledger (SubmitTBBatch (batch_input state ids))));
  _ ← apply_result result;
  refresh_projection state.

(** [m[k]] of a map with byte-array values: the zero array when absent. *)
Definition lookup_zero (m : idmap) (k : string) : bytes16 := default zero16 (m !! k).

(** The balances after an adjustment, for the caller and for PostgreSQL. *)
Definition refresh_after_credit (state : TenantAccountingState) (resource : string)
    : M Sys IssueCreditResult :=
  balResult ← try (activity maximumAttempts
                (on_ledger (LookupAccountBalances {| li_TenantQuotaIDs := AccountMap state |})));
  match balResult with
  | inl _ => mret {| ic_Balances := ∅ |}
  | inr balResult =>
      _ ← try (activity maximumAttempts (UpdateQuotaSnapshots
            {| us_TenantID := TenantID state; us_TenantUUID := TenantUUID state;
               us_AccountMap := ∅; us_Snapshots := lr_Balances balResult |}));
      _ ← try (activity maximumAttempts (ResetSoftLimitAlert
            {| rs_TenantID := TenantID state; rs_ResourceType := resource |}));
      mret {| ic_Balances := lr_Balances balResult |}
  end.

(** The input of the allocation activity. *)
Definition credit_input (state : TenantAccountingState) (sig : QuotaAdjustmentSignal)
    (transferID : bytes16) : SubmitAllocationInput :=
  let resource := qa_ResourceType sig in
  {| ai_TenantUUID := TenantUUID state;
     ai_TenantQuotaIDs := {[resource := lookup_zero (AccountMap state) resource]};
     ai_GlobalOperatorIDs := {[resource := lookup_zero (GlobalOperatorIDs state) resource]};
     ai_Credits := {[resource := qa_Amount sig]};
     ai_PeriodStartNs := 0;
     ai_TransferIDs := {[resource := transferID]} |}.

Definition flushAdjustment (sig : QuotaAdjustmentSignal) : M Sys IssueCreditResult :=
  state ← gets sys_state;
  _ ← update (λ st, {| st with FlushSeqNo := u64 (FlushSeqNo st + 1) |});
  let seqNo := u64 (FlushSeqNo state + 1) in
  let resource := qa_ResourceType sig in
  ledger ← lift (LedgerID resource);
  let transferID := Uint128ToBytes (DeriveAllocationTransferID (TenantUUID state) seqNo ledger) in
  _ ← activity maximumAttempts
        (on_ledger (SubmitAllocationTransfers (credit_input state sig transferID)));
  _ ← update (λ st, {| st with ExceededResources := delete resource (ExceededResources st) |});
  refresh_after_credit state resource.

(** The heartbeat case of the selector.  The error of a flush is only logged. *)
Definition on_heartbeat (sig : HeartbeatSignal) : M Sys unit :=
  state ← gets sys_state;
  if match ProcessedSeqs state !! hb_ClusterID sig with
     | Some prev => bool_decide (hb_SequenceNumber sig ≤ prev)
     | None => false
     end
  then mret tt else
  _ ← update (λ st, {| st with CurBatch := CurBatch st ++ [sig] |});
  state ← gets sys_state;
  if decide (batchSizeThreshold ≤ Z.of_nat (length (CurBatch state))) then
    _ ← try flushBatch;
    _ ← update (λ st, {| st with CurrentFlushInterval := baseFlushInterval |});
    resetTimer
  else mret tt.

(** The registration case. *)
Definition on_register (sig : RegisterClusterSignal) : M Sys unit :=
  update (λ st, match ProcessedSeqs st !! rg_ClusterID sig with
                | Some _ => st
                | None => {| st with ProcessedSeqs := <[rg_ClusterID sig := 0]> (ProcessedSeqs st) |}
                end).

(** The timer case. *)
Definition on_timer : M Sys unit :=
  state ← gets sys_state;
  let hadActivity := bool_decide (0 < length (CurBatch state))%nat in
  _ ← try flushBatch;
  _ ← (if hadActivity then update (λ st, {| st with CurrentFlushInterval := baseFlushInterval |})
       else update (λ st,
         let next := i64 (CurrentFlushInterval st * 2) in
         {| st with CurrentFlushInterval :=
              if decide (next > maxFlushInterval) then maxFlushInterval else next |}));
  resetTimer.

(** The credit update: its validator and its handler. *)
Definition validate_credit (state : TenantAccountingState) (sig : QuotaAdjustmentSignal)
    : outcome unit :=
  if decide (qa_Amount sig ≤ 0) then Err (EMsg "amount must be positive")
  else match AccountMap state !! qa_ResourceType sig with
       | None => Err (EMsg "unknown resource type: %s")
       | Some _ => Ok tt
       end.

Definition on_credit (sig : QuotaAdjustmentSignal) : M Sys IssueCreditResult :=
  state ← gets sys_state;
  _ ← lift (validate_credit state sig);
  result ← try (flushAdjustment sig);
  _ ← update (λ st, {| st with CurrentFlushInterval := baseFlushInterval |});
  _ ← resetTimer;
  match result with
  | inl e => fail e
  | inr r => mret r
  end.

(** Continue-As-New: flush, then carry the live state. *)
Definition carry (state : TenantAccountingState) : TenantAccountingInput :=
  {| in_TenantID := TenantID state;
     in_TenantUUID := TenantUUID state;
     in_AccountMap := AccountMap state;
     in_GlobalOperatorIDs := GlobalOperatorIDs state;
     in_GlobalSinkIDs := GlobalSinkIDs state;
     CarryProcessedSeqs := ProcessedSeqs state;
     CarryPendingGaugeIDs := PendingGaugeIDs state;
     CarryExceededResources := ExceededResources state;
     CarryLastAck := LastAck state;
     CarryFlushSeqNo := FlushSeqNo state |}.

Definition continue_as_new : M Sys TenantAccountingInput :=
  _ ← try flushBatch;
  state ← gets sys_state;
  mret (carry state).

(** The two query handlers. *)
Definition query_last_ack (state : TenantAccountingState) : Z := LastAck state.
Definition query_exceeded (state : TenantAccountingState) : gmap string bool :=
  ExceededResources state.

(** The workflow as it enters its loop: the first timer is armed. *)
Definition start (input : TenantAccountingInput) (w : World) : Sys :=
  (resetTimer {| sys_state := initial_state input; sys_timer := 0; sys_world := w |}).2.

(** What the selector can pick, and the credit update. *)
Inductive event :=
  | EvHeartbeat (sig : HeartbeatSignal)
  | EvRegister (sig : RegisterClusterSignal)
  | EvTimer
  | EvCredit (sig : QuotaAdjustmentSignal).

Definition handle (ev : event) : M Sys unit :=
  match ev with
  | EvHeartbeat sig => on_heartbeat sig
  | EvRegister sig => on_register sig
  | EvTimer => on_timer
  | EvCredit sig => _ ← try (on_credit sig); mret tt
  end.

(** One turn: an event, then Continue-As-New if it is suggested; the fresh run
    starts from the carried state with a new timer. *)
Definition loop_step (ev : event) (suggested : bool) : M Sys unit :=
  _ ← handle ev;
  if suggested then
    input ← continue_as_new;
    _ ← modify (λ s, {| s with sys_state := initial_state input |});
    resetTimer
  else mret tt.

(** Executions: turns, and actions of the rest of the system in between. *)
Inductive step (others : relation World) : relation Sys :=
  | step_turn ev suggested s s' :
      loop_step ev suggested s = (Ok tt, s') → step others s s'
  | step_others s w :
      others (sys_world s) w → step others s {| s with sys_world := w |}.
End workflow.
