(* ===== verification/AccountingProps.v ===== *)
(** * Properties of the tenant accounting workflow *)

From S2P Require Import Prelude Domain TigerBeetle TBRef Ids Transfers Accounts LedgerProps.
From S2P Require Import World ActivitiesTB ActivitiesTBProps AllocationProps ActivitiesPG AccountingWorkflow.
From S2P Require Postgres.
Import Postgres(PGServer).

(** ** The loops over the result of a batch *)

#[local] Arguments exceeded_step : simpl never.
#[local] Arguments pending_step : simpl never.

(** [ExceededResources] after the loop, whatever order it runs in. *)
Lemma exceeded_lookup (per : gmap string ResourceBatchResult) kvs (m : gmap string bool) r :
  kvs ≡ₚ map_to_list per →
  foldl exceeded_step m kvs !! r =
  match per !! r with
  | Some rr => if rb_ExceedsCredits rr then Some true
               else if rb_Accepted rr then None else m !! r
  | None => m !! r
  end.
Proof.
  intros Hp. assert (NoDup kvs.*1) as Hnd by (rewrite Hp; apply NoDup_fst_map_to_list).
  assert (per = list_to_map kvs) as ->.
  { rewrite (list_to_map_proper _ _ Hnd Hp). by rewrite list_to_map_to_list. }
  clear Hp. revert m. induction kvs as [|[k rr] kvs IH]; intros m; simpl; [by rewrite lookup_empty|].
  inv Hnd. rewrite IH by done. destruct (decide (r = k)) as [->|Hne].
  - rewrite lookup_insert_eq, not_elem_of_list_to_map_1 by done.
    unfold exceeded_step. destruct (rb_ExceedsCredits rr); [by rewrite lookup_insert_eq|].
    destruct (rb_Accepted rr); [by rewrite lookup_delete_eq|done].
  - rewrite lookup_insert_ne by done.
    assert (exceeded_step m (k, rr) !! r = m !! r) as ->; [|done]. unfold exceeded_step.
    destruct (rb_ExceedsCredits rr); [by rewrite lookup_insert_ne|].
    destruct (rb_Accepted rr); [by rewrite lookup_delete_ne|done].
Qed.

Lemma pending_lookup (ids : idmap) kvs (m : idmap) r :
  kvs ≡ₚ map_to_list ids →
  foldl pending_step m kvs !! r =
  match ids !! r with
  | Some id => if decide (id = zero16) then None else Some id
  | None => m !! r
  end.
Proof.
  intros Hp. assert (NoDup kvs.*1) as Hnd by (rewrite Hp; apply NoDup_fst_map_to_list).
  assert (ids = list_to_map kvs) as ->.
  { rewrite (list_to_map_proper _ _ Hnd Hp). by rewrite list_to_map_to_list. }
  clear Hp. revert m. induction kvs as [|[k id] kvs IH]; intros m; simpl; [by rewrite lookup_empty|].
  inv Hnd. rewrite IH by done. destruct (decide (r = k)) as [->|Hne].
  - rewrite lookup_insert_eq, not_elem_of_list_to_map_1 by done. unfold pending_step.
    case_decide; [by rewrite lookup_delete_eq|by rewrite lookup_insert_eq].
  - rewrite lookup_insert_ne by done.
    assert (pending_step m (k, id) !! r = m !! r) as ->; [|done]. unfold pending_step.
    case_decide; [by rewrite lookup_delete_ne|by rewrite lookup_insert_ne].
Qed.

(** [ProcessedSeqs] and [LastAck] only move up, and past the whole batch. *)
Definition seqs_le (m m' : gmap string Z) : Prop :=
  ∀ c p, m !! c = Some p → ∃ p', m' !! c = Some p' ∧ p ≤ p'.

#[export] Instance seqs_le_preorder : PreOrder seqs_le.
Proof.
  split.
  - intros m c p Hp. eauto with lia.
  - intros m1 m2 m3 H1 H2 c p Hp. destruct (H1 c p Hp) as (p1 & Hp1 & ?).
    destruct (H2 c p1 Hp1) as (p2 & Hp2 & ?). eauto with lia.
Qed.

Lemma processed_step_le acc hb :
  seqs_le acc.1 (processed_step acc hb).1 ∧ acc.2 ≤ (processed_step acc hb).2 ∧
  hb_SequenceNumber hb ≤ (processed_step acc hb).2 ∧
  ∃ p, (processed_step acc hb).1 !! hb_ClusterID hb = Some p ∧ hb_SequenceNumber hb ≤ p.
Proof.
  destruct acc as [seqs ack]. unfold processed_step. cbn [fst snd].
  assert (∀ q, seqs !! hb_ClusterID hb = None ∨
    (∃ p, seqs !! hb_ClusterID hb = Some p ∧ p ≤ q) → seqs_le seqs (<[hb_ClusterID hb := q]> seqs)) as Hins.
  { intros q Hq c p Hp. destruct (decide (c = hb_ClusterID hb)) as [->|Hne].
    - exists q. rewrite lookup_insert_eq. split; [done|]. destruct Hq as [|(p' & ? & ?)]; simplify_eq; lia.
    - exists p. rewrite lookup_insert_ne by done. split; [done|lia]. }
  split_and!.
  - destruct (seqs !! hb_ClusterID hb) as [prev|] eqn:E; [|by auto].
    case_decide; [apply Hins; right; eauto with lia|done].
  - case_decide; lia.
  - case_decide; lia.
  - destruct (seqs !! hb_ClusterID hb) as [prev|] eqn:E.
    + case_decide; [exists (hb_SequenceNumber hb); rewrite lookup_insert_eq; split; [done|lia]|].
      exists prev. split; [done|lia].
    + exists (hb_SequenceNumber hb). rewrite lookup_insert_eq. split; [done|lia].
Qed.

Lemma processed_fold hbs acc :
  let acc' := foldl processed_step acc hbs in
  seqs_le acc.1 acc'.1 ∧ acc.2 ≤ acc'.2 ∧
  ∀ hb, hb ∈ hbs → hb_SequenceNumber hb ≤ acc'.2 ∧
    ∃ p, acc'.1 !! hb_ClusterID hb = Some p ∧ hb_SequenceNumber hb ≤ p.
Proof.
  revert acc. induction hbs as [|hb hbs IH]; intros acc; simpl.
  { split_and!; [done|lia|]. by intros hb ?%elem_of_nil. }
  destruct (processed_step_le acc hb) as (S1 & A1 & B1 & p & Hp & Hle).
  destruct (IH (processed_step acc hb)) as (S2 & A2 & B2). split_and!; [by etrans|lia|].
  intros hb' [->|Hin]%elem_of_cons; [|by apply B2]. split; [lia|].
  destruct (S2 _ _ Hp) as (p' & Hp' & ?). eauto with lia.
Qed.

(** ** Frames *)

Section frames.
Context `{TL : TigerBeetleLaws} `{B : Blake3} `{G : GoRange} `{P : PGServer} `{U : UUIDPkg}.
Context `{T : !Temporal} `{TeL : !TemporalLaws T}.
Implicit Types (s : Sys) (w : World).

Definition frame : relation Sys := λ s s',
  sys_state s' = sys_state s ∧ sys_timer s' = sys_timer s ∧
  ledger_grows (sys_world s) (sys_world s').

#[export] Instance frame_preorder : PreOrder frame.
Proof.
  split.
  - intros s. by split_and!.
  - intros s1 s2 s3 (A1 & B1 & C1) (A2 & B2 & C2). split_and!; [congruence..|by etrans].
Qed.

Lemma same_ledger_grows {A} (m : M World A) : keeps same_ledger m → keeps ledger_grows m.
Proof.
  intros Hm w o w' He. apply Hm in He. unfold same_ledger in He. unfold ledger_grows. rewrite He. apply extends_refl.
Qed.

Lemma SubmitTBBatch_ran input : keeps ran (SubmitTBBatch input).
Proof. intros e o e' (ts & E & _)%SubmitTBBatch_batch. by exists ts. Qed.

Lemma LookupAccountBalances_ran input : keeps ran (LookupAccountBalances input).
Proof. apply quiet_ran. intros e o e' Hr. by apply LookupAccountBalances_spec in Hr as [? _]. Qed.

#[local] Instance ran_pre : PreOrder ran := ran_preorder.

Lemma activity_frame {A} n (m : M World A) : keeps ledger_grows m → keeps frame (activity n m).
Proof.
  intros Hm s o s' He. unfold activity, zoom in He.
  destruct (ExecuteActivity n m (sys_world s)) as [r w] eqn:E. injection He as <- <-.
  split_and!; [done..|]. simpl. eapply ExecuteActivity_keeps; [apply _|exact Hm| |exact E].
  apply others_grow.
Qed.

Lemma range_s_frame {A} (m : gmap string A) : keeps frame (range_s m).
Proof. intros s o s' He. inv He. split_and!; [done..|]. apply extends_refl. Qed.

(** An activity whose error is only logged always lets the handler go on. *)
Lemma try_activity {A} n (m : M World A) s :
  keeps ledger_grows m → ∃ r s', try (activity n m) s = (Ok r, s') ∧ frame s s'.
Proof.
  intros Hm. unfold try. destruct (activity n m s) as [o s'] eqn:E.
  pose proof (activity_frame n m Hm _ _ _ E) as Hf. destruct o as [a|e|p]; [by eauto..|].
  exfalso. unfold activity, zoom in E. destruct (ExecuteActivity n m (sys_world s)) as [r w] eqn:E'.
  injection E as -> <-. by eapply ExecuteActivity_no_panic.
Qed.

Lemma bal_grows input : keeps ledger_grows (on_ledger (LookupAccountBalances input)).
Proof. apply on_ledger_grows, LookupAccountBalances_ran. Qed.
Lemma snap_grows input : keeps ledger_grows (UpdateQuotaSnapshots input).
Proof. apply same_ledger_grows, UpdateQuotaSnapshots_same_ledger. Qed.
Lemma soft_grows input : keeps ledger_grows (CheckSoftLimits input).
Proof. apply same_ledger_grows, CheckSoftLimits_same_ledger. Qed.
Lemma reset_grows input : keeps ledger_grows (ResetSoftLimitAlert input).
Proof. apply same_ledger_grows, ResetSoftLimitAlert_same_ledger. Qed.

(** A computation that always returns and stays in the frame. *)
Definition goes_on {A} (m : M Sys A) : Prop :=
  ∀ s, ∃ a s', m s = (Ok a, s') ∧ frame s s'.

Lemma goes_on_ret {A} (a : A) : goes_on (mret a).
Proof. intros s. by exists a, s. Qed.

Lemma goes_on_try {A C} n (m : M World A) (k : error + A → M Sys C) :
  keeps ledger_grows m → (∀ r, goes_on (k r)) → goes_on (try (activity n m) ≫= k).
Proof.
  intros Hm Hk s. destruct (try_activity n m s Hm) as (r & s1 & E1 & F1).
  rewrite (bind_Ok _ _ _ _ _ E1). destruct (Hk r s1) as (b & s2 & E2 & F2).
  exists b, s2. split; [done|]. by etrans.
Qed.

Lemma refresh_projection_goes_on st : goes_on (refresh_projection st).
Proof.
  apply goes_on_try; [apply bal_grows|]. intros [e|bal]; [apply goes_on_ret|].
  apply goes_on_try; [apply snap_grows|]. intros _.
  apply goes_on_try; [apply soft_grows|]. intros _. apply goes_on_ret.
Qed.

Lemma refresh_after_credit_goes_on st r : goes_on (refresh_after_credit st r).
Proof.
  apply goes_on_try; [apply bal_grows|]. intros [e|bal]; [apply goes_on_ret|].
  apply goes_on_try; [apply snap_grows|]. intros _.
  apply goes_on_try; [apply reset_grows|]. intros _. apply goes_on_ret.
Qed.

(** ** A flush *)

(** How a committed batch changes the state. *)
Definition applied (result : TBBatchResult) (st st' : TenantAccountingState) : Prop :=
  ∃ exceeded pending,
    st' = {| st with
      ExceededResources := exceeded; PendingGaugeIDs := pending;
      ProcessedSeqs := (foldl processed_step (ProcessedSeqs st, LastAck st) (CurBatch st)).1;
      LastAck := (foldl processed_step (ProcessedSeqs st, LastAck st) (CurBatch st)).2;
      CurBatch := [] |} ∧
    (∀ r, exceeded !! r = match br_PerResource result !! r with
       | Some rr => if rb_ExceedsCredits rr then Some true
                    else if rb_Accepted rr then None else ExceededResources st !! r
       | None => ExceededResources st !! r
       end) ∧
    (∀ c r, lookup2 pending c r = match lookup2 (br_GaugeUpdates result) c r with
       | Some id => if decide (id = zero16) then None else Some id
       | None => lookup2 (PendingGaugeIDs st) c r
       end).

Lemma update_eq f s : update f s = (Ok tt, {| s with sys_state := f (sys_state s) |}).
Proof. done. Qed.

Lemma lookup2_insert_eq (m : idmap2) c v r : lookup2 (<[c := v]> m) c r = v !! r.
Proof. unfold lookup2. by rewrite lookup_insert_eq. Qed.
Lemma lookup2_insert_ne (m : idmap2) c c' v r :
  c' ≠ c → lookup2 (<[c := v]> m) c' r = lookup2 m c' r.
Proof. intros Hne. unfold lookup2. by rewrite lookup_insert_ne. Qed.
Lemma lookup2_None (m : idmap2) c r : m !! c = None → lookup2 m c r = None.
Proof. intros Hm. unfold lookup2. by rewrite Hm. Qed.

Definition set_pending (m : idmap2) (st : TenantAccountingState) : TenantAccountingState :=
  {| st with PendingGaugeIDs := m |}.

(** The loop over the gauge updates. *)
Lemma gauge_loop kvs s :
  NoDup kvs.*1 →
  ∃ pending s', foldM (λ _ '(clusterID, resources),
        kvs ← range_s resources;
        update (λ st, {| st with PendingGaugeIDs :=
          <[clusterID := foldl pending_step (default ∅ (PendingGaugeIDs st !! clusterID)) kvs]>
            (PendingGaugeIDs st) |})) tt kvs s = (Ok tt, s') ∧
    sys_state s' = set_pending pending (sys_state s) ∧
    sys_timer s' = sys_timer s ∧ ledger_grows (sys_world s) (sys_world s') ∧
    ∀ c r, lookup2 pending c r = match lookup2 (list_to_map kvs) c r with
      | Some id => if decide (id = zero16) then None else Some id
      | None => lookup2 (PendingGaugeIDs (sys_state s)) c r
      end.
Proof.
  revert s. induction kvs as [|[c0 res] kvs IH]; intros s Hnd; cbn [foldM].
  { exists (PendingGaugeIDs (sys_state s)), s. split_and!; [done|by destruct s as [[]]|done|apply extends_refl|].
    done. }
  inv Hnd. set (kvs0 := range_order (env_seed (w_env (sys_world s))) res).
  assert (kvs0 ≡ₚ map_to_list res) as Hp by apply range_order_perm.
  set (m0 := foldl pending_step (default ∅ (PendingGaugeIDs (sys_state s) !! c0)) kvs0).
  edestruct IH as (pending & s' & Hf & Hst & Htm & Hw & Hl); [done|].
  exists pending, s'. split_and!; [exact Hf|by rewrite Hst|by rewrite Htm|by etrans; [|exact Hw]; apply extends_refl|].
  intros c r. rewrite Hl, list_to_map_cons. cbn [sys_state PendingGaugeIDs].
  destruct (decide (c = c0)) as [->|Hne].
  - rewrite (lookup2_None (list_to_map kvs)) by (by apply not_elem_of_list_to_map_1).
    rewrite !lookup2_insert_eq, (pending_lookup res _ _ _ Hp).
    destruct (res !! r); [done|]. unfold lookup2.
    by destruct (PendingGaugeIDs (sys_state s) !! c0).
  - by rewrite !lookup2_insert_ne by done.
Qed.

Lemma range_s_eq {A} (m : gmap string A) s :
  ∃ kvs s', range_s m s = (Ok kvs, s') ∧ kvs ≡ₚ map_to_list m ∧ frame s s'.
Proof.
  destruct (range_s m s) as [o s'] eqn:E. pose proof (range_s_frame _ _ _ _ E) as F. inv E.
  eexists _, _. split_and!; [done|apply range_order_perm|done].
Qed.

Lemma apply_result_ok result s :
  ∃ s', apply_result result s = (Ok tt, s') ∧ applied result (sys_state s) (sys_state s') ∧
    sys_timer s' = sys_timer s ∧ ledger_grows (sys_world s) (sys_world s').
Proof.
  unfold apply_result.
  destruct (range_s_eq (br_PerResource result) s) as (per & s1 & E1 & Hper & S1 & T1 & W1).
  rewrite (bind_Ok _ _ _ _ _ E1), (bind_Ok _ _ _ _ _ (update_eq _ _)).
  match goal with |- ∃ s', (range_s ?m ≫= ?k) ?x = _ ∧ _ => set (s2 := x) end.
  destruct (range_s_eq (br_GaugeUpdates result) s2) as (gus & s3 & E3 & Hgus & S3 & T3 & W3).
  rewrite (bind_Ok _ _ _ _ _ E3).
  assert (NoDup gus.*1) as Hnd by (rewrite Hgus; apply NoDup_fst_map_to_list).
  destruct (gauge_loop gus s3 Hnd) as (pending & s4 & E4 & S4 & T4 & W4 & Hp).
  rewrite (bind_Ok _ _ _ _ _ E4), update_eq. eexists. split; [done|]. cbn [sys_state sys_timer sys_world].
  split_and!; [|rewrite T4, T3; exact T1|by etrans; [exact W1|etrans; [exact W3|exact W4]]].
  exists (foldl exceeded_step (ExceededResources (sys_state s)) per), pending. split_and!.
  - rewrite S4, S3. subst s2. cbn [sys_state]. rewrite S1. unfold set_pending. cbn.
    by destruct (foldl processed_step _ _).
  - intros r. by apply exceeded_lookup.
  - intros c r. rewrite Hp, S3. subst s2. cbn [sys_state]. rewrite S1. cbn.
    rewrite (list_to_map_proper _ _ Hnd Hgus). by rewrite list_to_map_to_list.
Qed.

Lemma gauge_ids_step_total tenant seqNo acc hb r :
  r ∈ AllResources → ∃ acc', gauge_ids_step tenant seqNo acc (hb, r) = Ok acc'.
Proof.
  intros Hr. unfold gauge_ids_step. destruct acc as [news voids].
  destruct (negb (IsGauge r)); [by eexists|].
  destruct (LedgerID_total r Hr) as (l & -> & _). simpl.
  destruct (news !! hb_ClusterID hb); by eexists.
Qed.

Lemma gauge_ids_total tenant seqNo acc hbs :
  ∃ ids, gauge_ids_loop tenant seqNo acc (hb_resources hbs) = Ok ids.
Proof.
  assert (∀ p, p ∈ hb_resources hbs → p.2 ∈ AllResources) as Hall.
  { intros [hb r] Hp. by apply elem_of_hb_resources in Hp as [_ Hr]. }
  revert acc. induction (hb_resources hbs) as [|[hb r] l IH]; intros acc; [by eexists|].
  destruct (gauge_ids_step_total tenant seqNo acc hb r) as [acc' Hs]; [apply (Hall (hb, r)); left|].
  cbn [gauge_ids_loop]. rewrite Hs. apply IH. intros. apply Hall. by right.
Qed.

Definition bump (st : TenantAccountingState) : TenantAccountingState :=
  {| st with FlushSeqNo := u64 (FlushSeqNo st + 1) |}.

(** The three ways a flush can end. *)
Inductive flush_result (s : Sys) : outcome unit → Sys → Prop :=
  | flush_empty : CurBatch (sys_state s) = [] → flush_result s (Ok tt) s
  | flush_failed e s' :
      CurBatch (sys_state s) ≠ [] → sys_state s' = bump (sys_state s) →
      flush_result s (Err e) s'
  | flush_done ids result w0 w1 s' :
      CurBatch (sys_state s) ≠ [] →
      gauge_ids_loop (TenantUUID (sys_state s)) (FlushSeqNo (bump (sys_state s))) (∅, ∅)
        (hb_resources (CurBatch (sys_state s))) = Ok ids →
      ledger_grows (sys_world s) w0 →
      on_ledger (SubmitTBBatch (batch_input (sys_state s) ids)) w0 = (Ok result, w1) →
      ledger_grows w1 (sys_world s') →
      applied result (bump (sys_state s)) (sys_state s') →
      flush_result s (Ok tt) s'.

Lemma batch_grows input : keeps ledger_grows (on_ledger (SubmitTBBatch input)).
Proof. apply on_ledger_grows, SubmitTBBatch_ran. Qed.

Lemma activity_Ok {A} n (m : M World A) s a s' :
  keeps ledger_grows m → activity n m s = (Ok a, s') →
  sys_state s' = sys_state s ∧ sys_timer s' = sys_timer s ∧
  ∃ w0, ledger_grows (sys_world s) w0 ∧ m w0 = (Ok a, sys_world s').
Proof.
  intros Hm He. pose proof (activity_frame n m Hm _ _ _ He) as (Hs & Ht & _).
  split_and!; [done..|]. unfold activity, zoom in He.
  destruct (ExecuteActivity n m (sys_world s)) as [r w] eqn:E. injection He as -> <-. simpl.
  eapply ExecuteActivity_Ok; [apply _|done| |exact E]. apply others_grow.
Qed.

Lemma activity_no_panic {A} n (m : M World A) s p s' : activity n m s ≠ (Panic p, s').
Proof.
  unfold activity, zoom. destruct (ExecuteActivity n m (sys_world s)) as [r w] eqn:E.
  intros [= -> _]. by eapply ExecuteActivity_no_panic.
Qed.

Lemma flushBatch_cases s o s' :
  flushBatch s = (o, s') →
  flush_result s o s' ∧ sys_timer s' = sys_timer s ∧ ledger_grows (sys_world s) (sys_world s').
Proof.
  unfold flushBatch. intros Hf. rewrite bind_cases in Hf. cbn [gets] in Hf. case_decide as Hz.
  { inv Hf. apply nil_length_inv in Hz. split_and!; [by constructor|done|apply extends_refl]. }
  assert (CurBatch (sys_state s) ≠ []) as Hne by (intros Hn; by rewrite Hn in Hz).
  rewrite (bind_Ok _ _ _ _ _ (update_eq _ _)) in Hf.
  destruct (gauge_ids_total (TenantUUID (sys_state s)) (u64 (FlushSeqNo (sys_state s) + 1)) (∅, ∅)
    (CurBatch (sys_state s))) as [ids Hids].
  rewrite Hids in Hf. rewrite bind_cases in Hf. cbn [lift] in Hf.
  match type of Hf with (_ ≫= _) ?x = _ => set (s1 := x) in Hf end.
  rewrite bind_cases in Hf. unfold wrap_err in Hf.
  destruct (activity maximumAttempts _ s1) as [r s2] eqn:Ea.
  pose proof (activity_frame _ _ (batch_grows _) _ _ _ Ea) as (S2 & T2 & W2).
  destruct r as [result|e|p].
  - destruct (activity_Ok _ _ _ _ _ (batch_grows _) Ea) as (_ & _ & w0 & Hw0 & Hrun).
    destruct (apply_result_ok result s2) as (s3 & E3 & Happ & T3 & W3).
    rewrite (bind_Ok _ _ _ _ _ E3) in Hf.
    destruct (refresh_projection_goes_on (sys_state s) s3) as ([] & s4 & E4 & S4 & T4 & W4).
    rewrite E4 in Hf. inv Hf. split_and!.
    + eapply flush_done; [done|exact Hids|exact Hw0|exact Hrun|by etrans|].
      rewrite S4. by rewrite S2 in Happ.
    + rewrite T4, T3, T2. done.
    + etrans; [exact W2|]. by etrans.
  - inv Hf. split_and!; [by eapply flush_failed; [done|rewrite S2]|done|done].
  - by apply activity_no_panic in Ea.
Qed.


(** ** Progress along executions *)

(** What never goes back: the identity of the tenant, the processed sequence
    numbers, the acknowledgement and the ledger; flush numbers advance by at most
    [k] (modulo the width). *)
Definition advance (k : Z) : relation Sys := λ s s',
  let st := sys_state s in let st' := sys_state s' in
  TenantID st' = TenantID st ∧ TenantUUID st' = TenantUUID st ∧
  AccountMap st' = AccountMap st ∧ GlobalOperatorIDs st' = GlobalOperatorIDs st ∧
  GlobalSinkIDs st' = GlobalSinkIDs st ∧
  seqs_le (ProcessedSeqs st) (ProcessedSeqs st') ∧ LastAck st ≤ LastAck st' ∧
  (0 ≤ FlushSeqNo st → FlushSeqNo st + k < 2 ^ 64 →
   FlushSeqNo st ≤ FlushSeqNo st' ≤ FlushSeqNo st + k) ∧
  ledger_grows (sys_world s) (sys_world s').

Lemma advance_refl k s s' :
  0 ≤ k → sys_state s' = sys_state s → ledger_grows (sys_world s) (sys_world s') → advance k s s'.
Proof. intros Hk E W. unfold advance. rewrite E. split_and!; try done; lia. Qed.

Lemma advance_trans k1 k2 s1 s2 s3 :
  0 ≤ k1 → 0 ≤ k2 → advance k1 s1 s2 → advance k2 s2 s3 → advance (k1 + k2) s1 s3.
Proof.
  intros Hk1 Hk2 (A1 & A2 & A3 & A4 & A5 & A6 & A7 & A8 & A9) (B1 & B2 & B3 & B4 & B5 & B6 & B7 & B8 & B9).
  unfold advance. split_and!; try congruence; try by etrans.
  intros H0 H1. destruct (A8 H0) as [L1 U1]; [lia|]. destruct (B8 ltac:(lia)) as [L2 U2]; lia.
Qed.

Lemma advance_weaken k k' s s' : k ≤ k' → advance k s s' → advance k' s s'.
Proof.
  intros Hk (A1 & A2 & A3 & A4 & A5 & A6 & A7 & A8 & A9). unfold advance. split_and!; try done.
  intros H0 H1. destruct (A8 H0); lia.
Qed.

Lemma bump_seq st : 0 ≤ FlushSeqNo st → FlushSeqNo st + 1 < 2 ^ 64 →
  FlushSeqNo (bump st) = FlushSeqNo st + 1.
Proof. intros. unfold bump. simpl. apply u64_id. unfold in_u64. lia. Qed.

Lemma flushBatch_advance s o s' : flushBatch s = (o, s') → advance 1 s s'.
Proof.
  intros (Hr & _ & Hw)%flushBatch_cases. destruct Hr as [He|e s' He Hst|ids result w0 w1 s' He Hi Hw0 Hrun Hw1 Happ].
  - by apply advance_refl; [lia|..].
  - unfold advance. rewrite Hst. simpl. split_and!; try done.
    intros ??. rewrite u64_id by (unfold in_u64; lia). lia.
  - destruct Happ as (ex & pe & Heq & _). unfold advance. rewrite Heq. simpl.
    destruct (processed_fold (CurBatch (sys_state s)) (ProcessedSeqs (sys_state s), LastAck (sys_state s)))
      as (P1 & P2 & _). split_and!; try done.
    intros ??. rewrite u64_id by (unfold in_u64; lia). lia.
Qed.

Lemma alloc_grows input : keeps ledger_grows (on_ledger (SubmitAllocationTransfers input)).
Proof. apply on_ledger_grows, SubmitAllocationTransfers_ran. Qed.

(** The three ways an adjustment can end. *)
Inductive credit_result (s : Sys) (sig : QuotaAdjustmentSignal) : outcome IssueCreditResult → Sys → Prop :=
  | credit_panics p s' :
      LedgerID (qa_ResourceType sig) = Panic p → sys_state s' = bump (sys_state s) →
      credit_result s sig (Panic p) s'
  | credit_failed l e s' :
      LedgerID (qa_ResourceType sig) = Ok l → sys_state s' = bump (sys_state s) →
      ExecuteActivity maximumAttempts (on_ledger (SubmitAllocationTransfers
        (credit_input (sys_state s) sig (DeriveAllocationTransferID (TenantUUID (sys_state s))
          (FlushSeqNo (bump (sys_state s))) l)))) (sys_world s) = (Err e, sys_world s') →
      credit_result s sig (Err e) s'
  | credit_done l res w0 w1 s' :
      LedgerID (qa_ResourceType sig) = Ok l →
      ledger_grows (sys_world s) w0 →
      on_ledger (SubmitAllocationTransfers (credit_input (sys_state s) sig
        (DeriveAllocationTransferID (TenantUUID (sys_state s)) (FlushSeqNo (bump (sys_state s))) l))) w0
        = (Ok tt, w1) →
      ExecuteActivity maximumAttempts (on_ledger (SubmitAllocationTransfers
        (credit_input (sys_state s) sig (DeriveAllocationTransferID (TenantUUID (sys_state s))
          (FlushSeqNo (bump (sys_state s))) l)))) (sys_world s) = (Ok tt, w1) →
      ledger_grows w1 (sys_world s') →
      sys_state s' = (λ st, {| st with ExceededResources :=
        delete (qa_ResourceType sig) (ExceededResources st) |}) (bump (sys_state s)) →
      credit_result s sig (Ok res) s'.

Lemma flushAdjustment_cases sig s o s' :
  flushAdjustment sig s = (o, s') →
  credit_result s sig o s' ∧ ledger_grows (sys_world s) (sys_world s').
Proof.
  unfold flushAdjustment. intros Hf. rewrite bind_cases in Hf. cbn [gets] in Hf.
  rewrite (bind_Ok _ _ _ _ _ (update_eq _ _)) in Hf.
  match type of Hf with (_ ≫= _) ?x = _ => set (s1 := x) in Hf end.
  rewrite bind_cases in Hf. unfold lift in Hf at 1.
  destruct (LedgerID (qa_ResourceType sig)) as [l|e|p] eqn:El.
  - rewrite bind_cases in Hf.
    destruct (activity maximumAttempts _ s1) as [r s2] eqn:Ea.
    pose proof (activity_frame _ _ (alloc_grows _) _ _ _ Ea) as (S2 & T2 & W2).
    destruct r as [[]|e|p].
    + destruct (activity_Ok _ _ _ _ _ (alloc_grows _) Ea) as (_ & _ & w0 & Hw0 & Hrun).
      rewrite (bind_Ok _ _ _ _ _ (update_eq _ _)) in Hf.
      match type of Hf with refresh_after_credit _ _ ?x = _ => set (s3 := x) in Hf end.
      destruct (refresh_after_credit_goes_on (sys_state s) (qa_ResourceType sig) s3)
        as (res & s4 & E4 & S4 & T4 & W4).
      rewrite E4 in Hf. inv Hf. split; [|etrans; [exact W2|exact W4]].
      eapply credit_done; [done|exact Hw0|exact Hrun| |exact W4|].
      { unfold activity, zoom in Ea. subst s1. cbn [sys_world] in Ea.
        destruct (ExecuteActivity _ _ _) as [r w] eqn:Ex. by injection Ea as -> <-. }
      rewrite S4. subst s3. simpl. by rewrite S2.
    + inv Hf. split; [|done]. eapply credit_failed; [done|by rewrite S2|].
      unfold activity, zoom in Ea. subst s1. cbn [sys_world] in Ea.
      destruct (ExecuteActivity _ _ _) as [r w] eqn:Ex. by injection Ea as -> <-.
    + by apply activity_no_panic in Ea.
  - unfold LedgerID in El. by repeat case_decide.
  - inv Hf. split; [by constructor|apply extends_refl].
Qed.

(** The update handler: rejected by the validator, or the adjustment followed by a
    reset of the interval and of the timer. *)
Lemma on_credit_cases sig s o s' :
  on_credit sig s = (o, s') →
  (∃ e, o = Err e ∧ s' = s ∧
     (qa_Amount sig ≤ 0 ∨ AccountMap (sys_state s) !! qa_ResourceType sig = None)) ∨
  (0 < qa_Amount sig ∧ is_Some (AccountMap (sys_state s) !! qa_ResourceType sig) ∧
   ∃ s1, flushAdjustment sig s = (o, s1) ∧ sys_world s' = sys_world s1 ∧
     ((∀ x, o ≠ Panic x) → sys_timer s' = baseFlushInterval ∧
        sys_state s' = (λ st, {| st with CurrentFlushInterval := baseFlushInterval |}) (sys_state s1))).
Proof.
  intros E. unfold on_credit in E. rewrite bind_cases in E. cbn [gets] in E.
  rewrite bind_cases in E. unfold lift in E at 1. unfold validate_credit in E.
  case_decide as Ha; [inv E; eauto 10|].
  destruct (AccountMap (sys_state s) !! qa_ResourceType sig) as [q|] eqn:Eq; [|inv E; eauto 10].
  right. split_and!; [lia|eauto|]. rewrite bind_cases in E. unfold try in E.
  destruct (flushAdjustment sig s) as [[r|e|x] s1] eqn:Ef; inv E;
    (eexists; split; [done|]); (split; [done|]); intros Hx; [done..|]. by destruct (Hx x).
Qed.

Lemma flushAdjustment_advance sig s o s' : flushAdjustment sig s = (o, s') → advance 1 s s'.
Proof.
  intros [Hr Hw]%flushAdjustment_cases.
  assert (∀ st', (st' = bump (sys_state s) ∨ ∃ ex, st' = (λ st, {| st with ExceededResources := ex |})
    (bump (sys_state s))) → sys_state s' = st' → advance 1 s s') as Hb.
  { intros st' Hor E. unfold advance. rewrite E.
    destruct Hor as [->|[ex ->]]; simpl; (split_and!; try done);
      intros ??; rewrite u64_id by (unfold in_u64; lia); lia. }
  destruct Hr; eapply Hb; [by left|done|by left|done|by right; eexists|done].
Qed.

Lemma try_eq {A} (m : M Sys A) s o s' : try m s = (o, s') → ∃ o0, m s = (o0, s').
Proof. unfold try. destruct (m s) as [[] ?]; intros Ht; inv Ht; eauto. Qed.

Lemma update_advance f s :
  (∀ st, TenantID (f st) = TenantID st ∧ TenantUUID (f st) = TenantUUID st ∧
     AccountMap (f st) = AccountMap st ∧ GlobalOperatorIDs (f st) = GlobalOperatorIDs st ∧
     GlobalSinkIDs (f st) = GlobalSinkIDs st ∧ seqs_le (ProcessedSeqs st) (ProcessedSeqs (f st)) ∧
     LastAck (f st) = LastAck st ∧ FlushSeqNo (f st) = FlushSeqNo st) →
  advance 0 s {| s with sys_state := f (sys_state s) |}.
Proof.
  intros Hf. destruct (Hf (sys_state s)) as (A1 & A2 & A3 & A4 & A5 & A6 & A7 & A8).
  unfold advance. simpl. rewrite A7, A8. split_and!; try done; lia.
Qed.

(** A computation whose every outcome advances by at most [k]. *)
Definition adv {A} (k : Z) (m : M Sys A) : Prop := 0 ≤ k ∧ ∀ s o s', m s = (o, s') → advance k s s'.

Lemma adv_bind {A C} k1 k2 (m : M Sys A) (f : A → M Sys C) :
  adv k1 m → (∀ a, adv k2 (f a)) → 0 ≤ k2 → adv (k1 + k2) (m ≫= f).
Proof.
  intros [Hk1 Hm] Hf Hk2. split; [lia|]. intros s o s' Hb. rewrite bind_cases in Hb.
  destruct (m s) as [r s1] eqn:E. apply Hm in E. destruct r as [a|e|p].
  - eapply advance_trans; [done..|exact E|]. by eapply Hf.
  - inv Hb. eapply advance_weaken; [|exact E]. lia.
  - inv Hb. eapply advance_weaken; [|exact E]. lia.
Qed.

Lemma adv_frame {A} (m : M Sys A) : keeps frame m → adv 0 m.
Proof. intros Hm. split; [lia|]. intros s o s' (Hs & _ & Hw)%Hm. by apply advance_refl. Qed.

Lemma adv_try {A} k (m : M Sys A) : adv k m → adv k (try m).
Proof. intros [Hk Hm]. split; [done|]. intros s o s' [o0 Hr]%try_eq. by eapply Hm. Qed.

Lemma adv_weaken {A} k k' (m : M Sys A) : k ≤ k' → adv k m → adv k' m.
Proof. intros Hk [H0 Hm]. split; [lia|]. intros s o s' Hr. eapply advance_weaken; [done|by eapply Hm]. Qed.

Lemma adv_update f :
  (∀ st, TenantID (f st) = TenantID st ∧ TenantUUID (f st) = TenantUUID st ∧
     AccountMap (f st) = AccountMap st ∧ GlobalOperatorIDs (f st) = GlobalOperatorIDs st ∧
     GlobalSinkIDs (f st) = GlobalSinkIDs st ∧ seqs_le (ProcessedSeqs st) (ProcessedSeqs (f st)) ∧
     LastAck (f st) = LastAck st ∧ FlushSeqNo (f st) = FlushSeqNo st) → adv 0 (update f).
Proof. intros Hf. split; [lia|]. intros s o s' Hu. inv Hu. by apply update_advance. Qed.

Lemma adv_gets {A} (f : Sys → A) : adv 0 (gets f).
Proof. split; [lia|]. intros s o s' Hu. inv Hu. apply advance_refl; [lia|done|apply extends_refl]. Qed.

Lemma adv_resetTimer : adv 0 resetTimer.
Proof. split; [lia|]. intros s o s' Hu. inv Hu. apply advance_refl; [simpl; lia|done|apply extends_refl]. Qed.

Lemma adv_pure {A} (o0 : outcome A) : adv 0 (lift o0).
Proof. split; [lia|]. intros s o s' Hu. inv Hu. apply advance_refl; [lia|done|apply extends_refl]. Qed.

Lemma adv_ret {A} (a : A) : adv 0 (mret a).
Proof. apply (adv_pure (Ok a)). Qed.

Lemma adv_flush : adv 1 flushBatch.
Proof. split; [lia|]. apply flushBatch_advance. Qed.

Lemma adv_heartbeat sig : adv 1 (on_heartbeat sig).
Proof.
  unfold on_heartbeat. apply (adv_bind 0 1); [apply adv_gets| |lia]. intros st.
  case_match; [eapply adv_weaken; [|apply adv_ret]; lia|].
  apply (adv_bind 0 1); [by apply adv_update| |lia]. intros _.
  apply (adv_bind 0 1); [apply adv_gets| |lia]. intros st'.
  case_decide; [|eapply adv_weaken; [|apply adv_ret]; lia].
  apply (adv_bind 1 0); [apply adv_try, adv_flush| |lia]. intros _.
  apply (adv_bind 0 0); [by apply adv_update| |lia]. intros _. apply adv_resetTimer.
Qed.

Lemma adv_register sig : adv 1 (on_register sig).
Proof.
  eapply (adv_weaken 0); [lia|]. apply adv_update. intros st.
  destruct (ProcessedSeqs st !! rg_ClusterID sig) as [p|] eqn:E; split_and!; try done.
  intros c p Hp. exists p. simpl. rewrite lookup_insert_ne; [split; [done|lia]|congruence].
Qed.

Lemma adv_timer : adv 1 on_timer.
Proof.
  unfold on_timer. apply (adv_bind 0 1); [apply adv_gets| |lia]. intros st.
  apply (adv_bind 1 0); [apply adv_try, adv_flush| |lia]. intros _.
  apply (adv_bind 0 0); [|intros _; apply adv_resetTimer|lia]. case_match; by apply adv_update.
Qed.

Lemma adv_credit sig : adv 1 (on_credit sig).
Proof.
  unfold on_credit. apply (adv_bind 0 1); [apply adv_gets| |lia]. intros st.
  apply (adv_bind 0 1); [apply adv_pure| |lia]. intros _.
  apply (adv_bind 1 0); [|intros r|lia].
  { apply adv_try. split; [lia|]. apply flushAdjustment_advance. }
  apply (adv_bind 0 0); [by apply adv_update| |lia]. intros _.
  apply (adv_bind 0 0); [apply adv_resetTimer| |lia]. intros _. destruct r; [apply (adv_pure (Err e))|apply adv_ret].
Qed.

Lemma adv_handle ev : adv 1 (handle ev).
Proof.
  destruct ev; cbn [handle]; [apply adv_heartbeat|apply adv_register|apply adv_timer|].
  apply (adv_bind 1 0); [apply adv_try, adv_credit|intros; apply adv_ret|lia].
Qed.

Lemma adv_loop_step ev suggested : adv 2 (loop_step ev suggested).
Proof.
  unfold loop_step. apply (adv_bind 1 1); [apply adv_handle| |lia]. intros _.
  destruct suggested; [|eapply adv_weaken; [|apply adv_ret]; lia].
  split; [lia|]. intros s o s' Hb. unfold continue_as_new in Hb. rewrite bind_assoc in Hb.
  rewrite bind_cases in Hb. destruct (try flushBatch s) as [r s1] eqn:E.
  apply (adv_try 1 _ adv_flush) in E. destruct r as [r|e|p]; [|by inv Hb..].
  inv Hb. eapply (advance_trans 1 0); [lia..|exact E|].
  unfold advance. simpl. split_and!; try done; lia.
Qed.

Lemma step_advance s s' : step others s s' → advance 2 s s'.
Proof.
  destruct 1 as [ev suggested s s' Hl|s w Ho].
  - by eapply (proj2 (adv_loop_step ev suggested)).
  - apply advance_refl; [lia|done|]. by apply others_grow.
Qed.

Lemma steps_advance n s s' : nsteps (step others) n s s' → advance (2 * Z.of_nat n) s s'.
Proof.
  induction 1 as [s|n s1 s2 s3 H1 H2 IH]; [by apply advance_refl; [lia|..]|].
  replace (2 * Z.of_nat (S n)) with (2 + 2 * Z.of_nat n) by lia.
  eapply advance_trans; [lia..|by apply step_advance|done].
Qed.

Lemma rtc_advance s s' : rtc (step others) s s' → ∃ n, advance (2 * Z.of_nat n) s s'.
Proof. intros [n Hn]%rtc_nsteps. exists n. by apply steps_advance. Qed.

(** ** Properties of executions *)

Lemma flush_processed s s' hb :
  flushBatch s = (Ok tt, s') → hb ∈ CurBatch (sys_state s) →
  CurBatch (sys_state s') = [] ∧ hb_SequenceNumber hb ≤ LastAck (sys_state s') ∧
  ∃ p, ProcessedSeqs (sys_state s') !! hb_ClusterID hb = Some p ∧ hb_SequenceNumber hb ≤ p.
Proof.
  intros (Hr & _)%flushBatch_cases Hin. inversion Hr as [He| |ids result w0 w1 s1 He Hi Hw0 Hrun Hw1 Happ]; subst.
  { rewrite He in Hin. by apply elem_of_nil in Hin. }
  destruct Happ as (ex & pe & Heq & _). rewrite Heq. simpl. split; [done|].
  by apply (processed_fold (CurBatch (sys_state s)) (ProcessedSeqs (sys_state s), LastAck (sys_state s))).
Qed.

(** A heartbeat is processed at most once (I-2). Once a flush containing a
    heartbeat has succeeded, every later heartbeat of that cluster with the same
    or a smaller sequence number is dropped without any effect: after any number
    of later signals, timers, credit updates, failed or successful flushes,
    Continue-As-New restarts and actions of the rest of the system. *)
Theorem processed_heartbeat_is_dropped : ∀ s s1 s2 hb sig,
  hb ∈ CurBatch (sys_state s) →
  flushBatch s = (Ok tt, s1) →
  rtc (step others) s1 s2 →
  hb_ClusterID sig = hb_ClusterID hb →
  hb_SequenceNumber sig ≤ hb_SequenceNumber hb →
  on_heartbeat sig s2 = (Ok tt, s2).
Proof.
  intros s s1 s2 hb sig Hin Hf Hrtc Hc Hle.
  destruct (flush_processed _ _ _ Hf Hin) as (_ & _ & p & Hp & Hpl).
  destruct (rtc_advance _ _ Hrtc) as (n & _ & _ & _ & _ & _ & Hseq & _).
  destruct (Hseq _ _ Hp) as (p' & Hp' & Hpp).
  unfold on_heartbeat. rewrite bind_cases. cbn [gets]. rewrite Hc, Hp'.
  by rewrite bool_decide_eq_true_2 by lia.
Qed.

(** Flush numbers are never used twice. The number that a flush or a credit
    adjustment derives its transfer IDs from is smaller than the number of every
    flush or adjustment that happens any number of turns later, Continue-As-New
    included, as long as the counter stays within 64 bits; so, unless the
    truncated hash collides, no two of them share a gauge or allocation ID. *)
Theorem flush_numbers_never_reused : ∀ n s o s1 s2,
  (flushBatch s = (o, s1) ∧ CurBatch (sys_state s) ≠ [] ∨
   ∃ sig o', flushAdjustment sig s = (o', s1)) →
  nsteps (step others) n s1 s2 →
  0 ≤ FlushSeqNo (sys_state s) →
  FlushSeqNo (sys_state s) + 2 * Z.of_nat n + 2 < 2 ^ 64 →
  FlushSeqNo (bump (sys_state s)) = FlushSeqNo (sys_state s) + 1 ∧
  FlushSeqNo (sys_state s) + 1 < FlushSeqNo (bump (sys_state s2)).
Proof.
  intros n s o s1 s2 Hf Hn H0 Hb.
  assert (FlushSeqNo (sys_state s1) = FlushSeqNo (bump (sys_state s))) as E1.
  { destruct Hf as [[Hf Hne]|(sig & o' & Hf)].
    - apply flushBatch_cases in Hf as (Hr & _).
      destruct Hr as [He|e s' He Hst|ids result w0 w1 s' He Hi Hw0 Hrun Hw1 Happ]; [done|by rewrite Hst|].
      destruct Happ as (ex & pe & Heq & _). by rewrite Heq.
    - apply flushAdjustment_cases in Hf as [Hr _].
      by destruct Hr as [p s' _ ->|l e s' _ -> _|l res w0 w1 s' _ _ _ _ _ ->]. }
  rewrite bump_seq in E1 |- * by lia. split; [done|].
  apply steps_advance in Hn as (_ & _ & _ & _ & _ & _ & _ & Hseq & _).
  destruct Hseq as [L Ub]; [lia..|]. rewrite bump_seq by lia. lia.
Qed.

(** Acknowledgements and the ledger only move forward. Along every execution
    of the workflow the processed sequence number of each cluster and the
    acknowledged sequence number never decrease, no committed transfer leaves the
    ledger, and the tenant's identity and accounts stay the same. *)
Theorem accounting_is_monotone : ∀ s s',
  rtc (step others) s s' →
  let st := sys_state s in let st' := sys_state s' in
  seqs_le (ProcessedSeqs st) (ProcessedSeqs st') ∧ LastAck st ≤ LastAck st' ∧
  ledger_grows (sys_world s) (sys_world s') ∧
  TenantID st' = TenantID st ∧ TenantUUID st' = TenantUUID st ∧ AccountMap st' = AccountMap st ∧
  GlobalOperatorIDs st' = GlobalOperatorIDs st ∧ GlobalSinkIDs st' = GlobalSinkIDs st.
Proof.
  intros s s' Hrtc. destruct (rtc_advance _ _ Hrtc) as (n & A1 & A2 & A3 & A4 & A5 & A6 & A7 & _ & A9).
  by split_and!.
Qed.

End frames.
