(* ===== verification/CreditProps.v ===== *)
(** * Credits are issued exactly once; usage is committed or refused

    The two theorems about money that span the layers: workflow, Temporal's
    retries, activity, ledger package and TigerBeetle. *)

From S2P Require Import Prelude Domain TigerBeetle TBRef Ids Transfers Accounts LedgerProps.
From S2P Require Import World ActivitiesTB ActivitiesTBProps AllocationProps ActivitiesPG AccountingWorkflow.
From S2P Require Import AccountingProps.
From S2P Require Postgres.
Import Postgres(PGServer).

Section money.
Context `{TL : TigerBeetleLaws} `{B : Blake3} `{G : GoRange} `{P : PGServer} `{U : UUIDPkg}.
Context `{T : !Temporal} `{TeL : !TemporalLaws T}.
Implicit Types (s : Sys) (w : World) (e : Env).

#[local] Existing Instance ran_preorder.

Definition ledger_of s : TBState := env_tb (w_env (sys_world s)).

(** ** Credits *)

(** The transfer that credits the tenant. *)
Definition credit_transfer (st : TenantAccountingState) (sig : QuotaAdjustmentSignal)
    (l : Z) (id op quota : bytes16) : Transfer :=
  {| tr_ID := id; tr_DebitAccountID := op; tr_CreditAccountID := quota;
     tr_Amount := ToUint128 (u64 (qa_Amount sig)); tr_PendingID := zero16;
     tr_UserData128 := TenantUUID st; tr_UserData64 := 0; tr_Ledger := l;
     tr_Code := CodeQuotaAllocation; tr_Flags := no_flags |}.

Lemma credit_ready st sig id op e a :
  id ≠ zero16 → GlobalOperatorIDs st !! qa_ResourceType sig = Some op →
  account_at (env_tb e) op = Some a → DebitsMustNotExceedCredits (ac_Flags a) = false →
  allocation_ready (credit_input st sig id) e.
Proof.
  intros Hid Hop Ha Hf. unfold credit_input, allocation_ready.
  cbn [ai_Credits ai_TransferIDs ai_GlobalOperatorIDs]. split_and!.
  - rewrite map_size_singleton. lia.
  - intros r c [<- _]%lookup_singleton_Some. exists id. by rewrite lookup_singleton_eq.
  - by intros r1 r2 i [<- _]%lookup_singleton_Some [<- _]%lookup_singleton_Some.
  - intros r op' a' [_ <-]%lookup_singleton_Some. unfold lookup_zero. rewrite Hop. simpl.
    intros Ha'. congruence.
Qed.

Lemma credit_prepared st sig id id' : prepared (credit_input st sig id) id' → id' = id.
Proof. intros (r & _ & Hr). simpl in Hr. by apply lookup_singleton_Some in Hr as [_ <-]. Qed.

(** What a credit adjustment leaves in the ledger under its derived ID, after
    whatever number of attempts, lost results and interleaved actions of others. *)
Lemma credit_lands : ∀ s sig l op quota a o s',
  let st := sys_state s in
  let id := DeriveAllocationTransferID (TenantUUID st) (FlushSeqNo (bump st)) l in
  LedgerID (qa_ResourceType sig) = Ok l →
  AccountMap st !! qa_ResourceType sig = Some quota →
  GlobalOperatorIDs st !! qa_ResourceType sig = Some op →
  account_at (ledger_of s) op = Some a → DebitsMustNotExceedCredits (ac_Flags a) = false →
  id ≠ zero16 → transfer_at (ledger_of s) id = None →
  (∀ w w', others w w' → transfer_at (env_tb (w_env w)) id = None →
           transfer_at (env_tb (w_env w')) id = None) →
  flushAdjustment sig s = (o, s') →
  match o with
  | Ok _ => transfer_at (ledger_of s') id = Some (credit_transfer st sig l id op quota)
  | Err _ => transfer_at (ledger_of s') id = None ∨
             transfer_at (ledger_of s') id = Some (credit_transfer st sig l id op quota)
  | Panic _ => False
  end.
Proof.
  intros s sig l op quota a o s' st id Hl Hquota Hop Ha Hf Hid Hfree Hothers Hadj.
  pose proof (λ o' w', allocation_executed (credit_input st sig id) maximumAttempts (sys_world s) o' w'
    (qa_ResourceType sig) (qa_Amount sig) op quota id l
    (credit_ready st sig id op (w_env (sys_world s)) a Hid Hop Ha Hf)
    ltac:(intros r op' Hr; simpl in Hr; apply lookup_singleton_Some in Hr as [_ <-];
          unfold lookup_zero; rewrite Hop; by exists a)
    ltac:(intros w1 w2 Hw id' ->%credit_prepared; by apply Hothers) Hfree
    ltac:(apply lookup_singleton_eq)
    ltac:(unfold credit_input, lookup_zero; simpl; by rewrite lookup_singleton_eq, Hop)
    ltac:(unfold credit_input, lookup_zero; simpl; by rewrite lookup_singleton_eq, Hquota)
    ltac:(apply lookup_singleton_eq) Hl) as Hexec.
  apply flushAdjustment_cases in Hadj as [Hr _].
  destruct Hr as [p s' Hp _|l' e s' Hl' _ Hex|l' res w0 w1 s' Hl' Hw0 Hrun Hex Hw1 _]; [congruence|..];
    assert (l' = l) as -> by congruence; apply Hexec in Hex; [exact Hex|].
  by apply (proj1 Hw1) in Hex.
Qed.

(** C2: an issued credit is in the ledger exactly once. Suppose the tenant's
    quota account and the operator account of the resource are known, the
    operator account exists without a limit, the derived ID is free in the ledger
    and no other party writes a transfer under it. If the credit update returns
    successfully, after whatever number of attempts, lost results and interleaved
    actions of others, its amount was positive and the ledger holds under that ID
    exactly one transfer: the requested amount from the operator to the tenant's
    quota account; the resource is no longer reported as exceeded, while the other
    flags, the batch, the processed sequence numbers and the acknowledgement are
    as before, and the timer is armed with the base interval. If it fails, the
    ledger holds that transfer or none under the ID. *)
Theorem credit_issued_exactly_once : ∀ s sig l op quota a o s',
  let st := sys_state s in let st' := sys_state s' in
  let id := DeriveAllocationTransferID (TenantUUID st) (FlushSeqNo (bump st)) l in
  LedgerID (qa_ResourceType sig) = Ok l →
  AccountMap st !! qa_ResourceType sig = Some quota →
  GlobalOperatorIDs st !! qa_ResourceType sig = Some op →
  account_at (ledger_of s) op = Some a → DebitsMustNotExceedCredits (ac_Flags a) = false →
  id ≠ zero16 → transfer_at (ledger_of s) id = None →
  (∀ w w', others w w' → transfer_at (env_tb (w_env w)) id = None →
           transfer_at (env_tb (w_env w')) id = None) →
  on_credit sig s = (o, s') →
  match o with
  | Ok _ => 0 < qa_Amount sig ∧
      transfer_at (ledger_of s') id = Some (credit_transfer st sig l id op quota) ∧
      query_exceeded st' = delete (qa_ResourceType sig) (query_exceeded st) ∧
      CurBatch st' = CurBatch st ∧ ProcessedSeqs st' = ProcessedSeqs st ∧
      query_last_ack st' = query_last_ack st ∧ sys_timer s' = baseFlushInterval
  | Err _ => transfer_at (ledger_of s') id = None ∨
             transfer_at (ledger_of s') id = Some (credit_transfer st sig l id op quota)
  | Panic _ => False
  end.
Proof.
  intros s sig l op quota a o s' st st' id Hl Hquota Hop Ha Hf Hid Hfree Hothers Hc.
  apply on_credit_cases in Hc as [(e & -> & -> & _)|(Hpos & _ & s1 & Hadj & Hw & Hst)]; [by left|].
  pose proof (credit_lands _ _ _ _ _ _ _ _ Hl Hquota Hop Ha Hf Hid Hfree Hothers Hadj) as Hland.
  assert (ledger_of s' = ledger_of s1) as Hled by (unfold ledger_of; by rewrite Hw). rewrite Hled.
  destruct o as [res|e|x]; [|exact Hland|exact Hland]. destruct (Hst ltac:(done)) as [Ht Hs].
  apply flushAdjustment_cases in Hadj as [Hr _].
  inversion Hr as [| |l' res' w0 w1 s1' _ _ _ _ _ Hs1]; subst. unfold st'. rewrite Hs, Hs1. done.
Qed.

(** ** Usage *)






End money.
