(* ===== verification/LoopProps.v ===== *)
(** * Properties of the main loop of the accounting workflow

    Totality of the handlers, the batch and timer bounds, the effect of a credit
    update and the hand-over at Continue-As-New. *)

From S2P Require Import Prelude Domain TigerBeetle TBRef Ids Transfers Accounts LedgerProps.
From S2P Require Import World ActivitiesTB ActivitiesTBProps ActivitiesPG AccountingWorkflow.
From S2P Require Import AccountingProps.
From S2P Require Postgres.
Import Postgres(PGServer).

Section loop.
Context `{TL : TigerBeetleLaws} `{B : Blake3} `{G : GoRange} `{P : PGServer} `{U : UUIDPkg}.
Context `{T : !Temporal} `{TeL : !TemporalLaws T}.
Implicit Types (s : Sys).

(** ** Totality *)

(** A computation that returns normally from every state that satisfies [I],
    and keeps [I]. *)
Definition total_on (I : Sys → Prop) {A} (m : M Sys A) : Prop :=
  ∀ s, I s → ∃ a s', m s = (Ok a, s') ∧ I s'.

Lemma total_bind I {A C} (m : M Sys A) (k : A → M Sys C) :
  total_on I m → (∀ a, total_on I (k a)) → total_on I (m ≫= k).
Proof.
  intros Hm Hk s Hs. destruct (Hm s Hs) as (a & s1 & E1 & H1).
  rewrite (bind_Ok _ _ _ _ _ E1). by apply Hk.
Qed.

Lemma total_ret I {A} (a : A) : total_on I (mret a).
Proof. intros s Hs. by exists a, s. Qed.

Lemma total_gets I {A} (f : Sys → A) : total_on I (gets f).
Proof. intros s Hs. by exists (f s), s. Qed.

(** The accounts of the tenant are those of declared resources. *)
Definition known_accounts s : Prop :=
  ∀ r, is_Some (AccountMap (sys_state s) !! r) → r ∈ AllResources.

Lemma total_update f :
  (∀ st, AccountMap (f st) = AccountMap st) → total_on known_accounts (update f).
Proof.
  intros Hf s Hs. rewrite update_eq. eexists _, _. split; [done|]. intros r. simpl. rewrite Hf. apply Hs.
Qed.

Lemma total_resetTimer : total_on known_accounts resetTimer.
Proof. intros s Hs. by eexists _, _. Qed.

Lemma try_flush_total : total_on known_accounts (try flushBatch).
Proof.
  intros s Hs. unfold try. destruct (flushBatch s) as [o s'] eqn:E.
  pose proof (flushBatch_advance _ _ _ E) as (_ & _ & Ham & _).
  assert (known_accounts s') as Hs' by (intros r; rewrite Ham; apply Hs).
  destruct (flushBatch_cases _ _ _ E) as [Hr _].
  destruct Hr; by eexists _, _.
Qed.

Lemma heartbeat_total sig : total_on known_accounts (on_heartbeat sig).
Proof.
  unfold on_heartbeat. apply total_bind; [apply total_gets|]. intros st.
  case_match; [apply total_ret|].
  apply total_bind; [by apply total_update|]. intros _.
  apply total_bind; [apply total_gets|]. intros st'. case_decide; [|apply total_ret].
  apply total_bind; [apply try_flush_total|]. intros _.
  apply total_bind; [by apply total_update|]. intros _. apply total_resetTimer.
Qed.

Lemma register_total sig : total_on known_accounts (on_register sig).
Proof. apply total_update. intros st. by case_match. Qed.

Lemma timer_total : total_on known_accounts on_timer.
Proof.
  unfold on_timer. apply total_bind; [apply total_gets|]. intros st.
  apply total_bind; [apply try_flush_total|]. intros _.
  apply total_bind; [case_match; by apply total_update|]. intros _. apply total_resetTimer.
Qed.

(** The validator lets only declared resources through, so deriving the
    transfer ID cannot panic. *)
Lemma credit_total sig : total_on known_accounts (try (on_credit sig)).
Proof.
  intros s Hs. unfold try. destruct (on_credit sig s) as [o s'] eqn:E.
  pose proof (proj2 (adv_credit sig) _ _ _ E) as (_ & _ & Ham & _).
  assert (known_accounts s') as Hs' by (intros r; rewrite Ham; apply Hs).
  destruct o as [a|e|p]; [by eexists _, _..|]. exfalso.
  unfold on_credit in E. rewrite bind_cases in E. cbn [gets] in E.
  rewrite bind_cases in E. unfold lift in E at 1.
  unfold validate_credit in E. case_decide; [done|].
  destruct (AccountMap (sys_state s) !! qa_ResourceType sig) as [q|] eqn:Eq; [|done].
  rewrite bind_cases in E. unfold try in E.
  destruct (flushAdjustment sig s) as [o1 s1] eqn:Ef.
  destruct (flushAdjustment_cases _ _ _ _ Ef) as [Hr _].
  destruct Hr as [p' s1 Hp|l e s1 _ _ _|l res w0 w1 s1 _ _ _ _ _ _]; [|done..].
  destruct (LedgerID_total (qa_ResourceType sig)) as (l & Hl & _); [apply Hs; by eexists|congruence].
Qed.

Lemma handle_total ev : total_on known_accounts (handle ev).
Proof.
  destruct ev; cbn [handle]; [apply heartbeat_total|apply register_total|apply timer_total|].
  apply total_bind; [apply credit_total|]. intros. apply total_ret.
Qed.

(** The loop never crashes. For a tenant whose accounts are those of
    declared resources, every turn of the main loop returns normally, whatever
    signal, timer or credit request arrives, whether or not Continue-As-New is
    suggested and however the activities end; and the accounts stay well-formed.
    In particular a credit request for an undeclared resource is turned down by
    the validator before the ledger number of the resource is asked for. *)
Theorem loop_never_crashes : ∀ ev suggested s,
  known_accounts s →
  ∃ s', loop_step ev suggested s = (Ok tt, s') ∧ known_accounts s'.
Proof.
  intros ev suggested s Hs.
  assert (total_on known_accounts (loop_step ev suggested)) as Ht.
  { unfold loop_step. apply total_bind; [apply handle_total|]. intros _.
    destruct suggested; [|apply total_ret].
    intros s1 Hs1. unfold continue_as_new.
    destruct (try_flush_total s1 Hs1) as (r & s2 & E2 & Hs2).
    rewrite bind_assoc, (bind_Ok _ _ _ _ _ E2). by eexists _, _. }
  destruct (Ht s Hs) as ([] & s' & E & Hs'). eauto.
Qed.

(** ** The flush timer *)

Definition interval_ok s : Prop :=
  baseFlushInterval ≤ CurrentFlushInterval (sys_state s) ≤ maxFlushInterval ∧
  baseFlushInterval ≤ sys_timer s ≤ maxFlushInterval.

Lemma flush_interval s o s' :
  flushBatch s = (o, s') →
  CurrentFlushInterval (sys_state s') = CurrentFlushInterval (sys_state s) ∧ sys_timer s' = sys_timer s.
Proof.
  intros (Hr & Ht & _)%flushBatch_cases. split; [|done].
  destruct Hr as [|e s' _ Hst|ids result w0 w1 s' _ _ _ _ _ Happ]; [done|by rewrite Hst|].
  destruct Happ as (ex & pe & Heq & _). by rewrite Heq.
Qed.

Lemma credit_interval sig s o s' :
  on_credit sig s = (o, s') → interval_ok s → interval_ok s'.
Proof.
  intros E Hs. unfold on_credit in E. rewrite bind_cases in E. cbn [gets] in E.
  rewrite bind_cases in E. unfold lift in E at 1.
  destruct (validate_credit (sys_state s) sig) as [[]| |]; [|by inv E..].
  rewrite bind_cases in E. unfold try in E.
  destruct (flushAdjustment sig s) as [o1 s1] eqn:Ef.
  destruct (flushAdjustment_cases _ _ _ _ Ef) as [Hr _].
  destruct o1 as [a|e|p]; [inv E; split; simpl; unfold baseFlushInterval, maxFlushInterval, second; lia..|].
  inv E. inversion Hr as [p' s2 Hp Hst| |]; subst.
  unfold flushAdjustment in Ef. rewrite bind_cases in Ef. cbn [gets] in Ef.
  rewrite (bind_Ok _ _ _ _ _ (update_eq _ _)) in Ef. rewrite bind_cases in Ef. unfold lift in Ef at 1.
  rewrite Hp in Ef. inv Ef. done.
Qed.

Lemma handle_interval ev s o s' :
  handle ev s = (o, s') → interval_ok s → interval_ok s'.
Proof.
  intros E Hs. destruct ev as [sig|sig| |sig]; cbn [handle] in E.
  - unfold on_heartbeat in E. rewrite bind_cases in E. cbn [gets] in E.
    destruct (match ProcessedSeqs (sys_state s) !! hb_ClusterID sig with
              | Some prev => _ | None => _ end); [by inv E|].
    rewrite (bind_Ok _ _ _ _ _ (update_eq _ _)), bind_cases in E. cbn [gets] in E.
    case_decide; [|by inv E]. rewrite bind_cases in E. unfold try in E.
    destruct (flushBatch _) as [o1 s1] eqn:Ef. pose proof (flush_interval _ _ _ Ef) as [Hi Ht].
    simpl in Hi, Ht. destruct o1; inv E; split; simpl;
      unfold baseFlushInterval, maxFlushInterval, second in *; try lia;
      destruct Hs as [??]; unfold baseFlushInterval, maxFlushInterval, second in *; lia.
  - unfold on_register in E. rewrite update_eq in E. inv E. unfold interval_ok. simpl.
    destruct Hs. by case_match.
  - unfold on_timer in E. rewrite bind_cases in E. cbn [gets] in E.
    rewrite bind_cases in E. unfold try in E.
    destruct (flushBatch s) as [o1 s1] eqn:Ef. pose proof (flush_interval _ _ _ Ef) as [Hi Ht].
    unfold interval_ok in *. rewrite <- Hi, <- Ht in Hs.
    assert (i64 (CurrentFlushInterval (sys_state s1) * 2) = CurrentFlushInterval (sys_state s1) * 2) as Hd.
    { apply i64_id. unfold in_i64, baseFlushInterval, maxFlushInterval, second in *. lia. }
    destruct o1; try (inv E; done);
      (destruct (bool_decide _); inv E; simpl;
       [unfold baseFlushInterval, maxFlushInterval, second; lia|]);
      rewrite Hd; case_decide; unfold baseFlushInterval, maxFlushInterval, second in *; lia.
  - rewrite bind_cases in E. destruct (try (on_credit sig) s) as [r s1] eqn:Et.
    apply try_eq in Et as [o0 Et]. apply (credit_interval _ _ _ _ Et) in Hs.
    destruct r; by inv E.
Qed.

(** The flush interval stays between two and sixty seconds. In every state
    that an execution reaches from a fresh start, the adaptive interval and the
    armed timer lie within [baseFlushInterval] and [maxFlushInterval]; an idle
    timer firing doubles the interval up to the maximum (the doubling never
    overflows) and a firing with a batch sets it back to the base. *)
Theorem flush_interval_bounded : ∀ input w s,
  rtc (step others) (start input w) s →
  interval_ok s ∧
  ∀ s', on_timer s = (Ok tt, s') →
    CurrentFlushInterval (sys_state s') =
      (if bool_decide (CurBatch (sys_state s) = []) then
         Z.min (2 * CurrentFlushInterval (sys_state s)) maxFlushInterval
       else baseFlushInterval) ∧
    sys_timer s' = CurrentFlushInterval (sys_state s').
Proof.
  intros input w s Hrtc.
  assert (interval_ok s) as Hs.
  { apply (rtc_ind_r (R := step others) interval_ok (start input w)); [..|exact Hrtc].
    - split; simpl; unfold baseFlushInterval, maxFlushInterval, second; lia.
    - intros y z _ Hyz Hy. destruct Hyz as [ev sug y z Hl|y w' Ho]; [|done].
      unfold loop_step in Hl. apply bind_Ok_inv in Hl as ([] & y1 & Hh & Hl).
      apply (handle_interval _ _ _ _ Hh) in Hy. destruct sug; [|by inv Hl].
      unfold continue_as_new in Hl. rewrite bind_assoc in Hl.
      apply bind_Ok_inv in Hl as (r & y2 & Hf & Hl). inv Hl. split; simpl;
        unfold baseFlushInterval, maxFlushInterval, second; lia. }
  split; [done|]. intros s' E. unfold on_timer in E. rewrite bind_cases in E. cbn [gets] in E.
  rewrite bind_cases in E. unfold try in E.
  destruct (flushBatch s) as [o1 s1] eqn:Ef. pose proof (flush_interval _ _ _ Ef) as [Hi Ht].
  assert (i64 (CurrentFlushInterval (sys_state s1) * 2) = CurrentFlushInterval (sys_state s1) * 2) as Hd.
  { apply i64_id. destruct Hs as [Hs _]. rewrite <- Hi in Hs.
    unfold in_i64, baseFlushInterval, maxFlushInterval, second in *. lia. }
  destruct (CurBatch (sys_state s)) as [|hb l] eqn:Hb; simpl in E.
  - destruct o1; inv E; simpl; rewrite Hd, Hi; (split; [|done]);
      case_decide; unfold maxFlushInterval, second in *; lia.
  - destruct o1; by inv E.
Qed.

(** ** Heartbeats *)

Definition seen s (sig : HeartbeatSignal) : bool :=
  match ProcessedSeqs (sys_state s) !! hb_ClusterID sig with
  | Some prev => bool_decide (hb_SequenceNumber sig ≤ prev)
  | None => false
  end.

Definition push (sig : HeartbeatSignal) s : Sys :=
  (update (λ st, {| st with CurBatch := CurBatch st ++ [sig] |}) s).2.

(** A heartbeat is dropped, kept or flushed, never lost. A heartbeat that was
    already processed changes nothing. Any other one is appended to the batch;
    below the size threshold that is all. At the threshold the batch is flushed
    at once: if the flush succeeds the batch is empty and every heartbeat of it is
    marked processed, if it fails the whole batch, the new heartbeat included, is
    kept. So after a turn the batch has reached the threshold only when the
    ledger could not be written. *)
Theorem heartbeat_never_lost : ∀ s sig o s',
  on_heartbeat sig s = (o, s') →
  let batch := CurBatch (sys_state s) ++ [sig] in
  if seen s sig then s' = s
  else if decide (Z.of_nat (length batch) < batchSizeThreshold) then
    sys_state s' = sys_state (push sig s) ∧ sys_world s' = sys_world s
  else
    (CurBatch (sys_state s') = [] ∧
     ∀ hb, hb ∈ batch → ∃ p, ProcessedSeqs (sys_state s') !! hb_ClusterID hb = Some p ∧
                             hb_SequenceNumber hb ≤ p) ∨
    (CurBatch (sys_state s') = batch ∧ ∃ e s1, flushBatch (push sig s) = (Err e, s1)).
Proof.
  intros s sig o s' E batch. unfold on_heartbeat in E. rewrite bind_cases in E. cbn [gets] in E.
  fold (seen s sig) in E. destruct (seen s sig); [by inv E|].
  rewrite (bind_Ok _ _ _ _ _ (update_eq _ _)), bind_cases in E. cbn [gets] in E.
  change (let s1 := push sig s in
    (if decide (batchSizeThreshold ≤ Z.of_nat (length (CurBatch (sys_state s1))))
     then (_ ← try flushBatch; _ ← update (λ st, {| st with CurrentFlushInterval := baseFlushInterval |});
           resetTimer) else mret tt) s1 = (o, s')) in E.
  cbv zeta in E. change (CurBatch (sys_state (push sig s))) with batch in E.
  destruct (decide (Z.of_nat (length batch) < batchSizeThreshold)) as [Hlt|Hge].
  { rewrite decide_False in E by lia. by inv E. }
  rewrite decide_True in E by lia. rewrite bind_cases in E. unfold try in E.
  destruct (flushBatch (push sig s)) as [o1 s1] eqn:Ef.
  destruct (flushBatch_cases _ _ _ Ef) as [Hr _]. destruct o1 as [[]|e|p].
  - left. inv E. simpl. split.
    + by destruct (flush_processed _ _ sig Ef) as [? _];
        [apply elem_of_app; right; by apply list_elem_of_singleton|].
    + intros hb Hhb. by destruct (flush_processed _ _ hb Ef Hhb) as (_ & _ & Hp).
  - right. inv E. inversion Hr as [|e' s' He Hst|]; subst. simpl. rewrite Hst. split; [done|]. eauto.
  - by inversion Hr.
Qed.

(** ** Continue-As-New *)

(** Continue-As-New hands the live state over, and loses the batch exactly
    when its flush fails. The fresh run starts with the processed sequence
    numbers, gauge reservations, exceeded flags, acknowledgement, flush number and
    accounts that the old run ended with, an empty batch and the base interval. If
    the flush before the hand-over succeeded, no heartbeat was pending; if it
    failed, the heartbeats of the batch are neither processed nor carried. *)
Theorem continue_as_new_hands_over : ∀ s input s',
  continue_as_new s = (Ok input, s') →
  let st' := sys_state s' in
  initial_state input = {| st' with CurBatch := []; CurrentFlushInterval := baseFlushInterval |} ∧
  match (flushBatch s).1 with
  | Ok _ => CurBatch st' = []
  | _ => CurBatch st' = CurBatch (sys_state s) ∧ CurBatch st' ≠ [] ∧
         ProcessedSeqs st' = ProcessedSeqs (sys_state s)
  end.
Proof.
  intros s input s' E. unfold continue_as_new in E. rewrite bind_cases in E. unfold try in E.
  destruct (flushBatch s) as [o1 s1] eqn:Ef. destruct (flushBatch_cases _ _ _ Ef) as [Hr _].
  destruct Hr as [He|e s1 He Hst|ids result w0 w1 s1 He Hi Hw0 Hrun Hw1 Happ]; inv E.
  - simpl. split; [done|done].
  - simpl. split; [by destruct (sys_state s')|]. by rewrite Hst.
  - simpl. split; [by destruct (sys_state s')|]. destruct Happ as (ex & pe & Heq & _). by rewrite Heq.
Qed.
End loop.
