(* ===== verification/Meter.v ===== *)
(** * The accounting workflow implements a meter

    An abstract meter counts each heartbeat: an incoming one is dropped when it is
    not newer than what was counted for its cluster, otherwise it waits; waiting
    heartbeats are counted together, or lost together.  Every execution of the
    workflow is simulated by the meter. *)

From S2P Require Import Prelude Domain TigerBeetle TBRef Ids Transfers Accounts LedgerProps.
From S2P Require Import World ActivitiesTB ActivitiesTBProps ActivitiesPG AccountingWorkflow.
From S2P Require Import AccountingProps LoopProps.
From S2P Require Postgres.
Import Postgres(PGServer).

(** ** The meter *)

Record Meter := {
  mt_seen : gmap string Z;
  mt_ack : Z;
  mt_waiting : list HeartbeatSignal;
  mt_dropped : list HeartbeatSignal;
  mt_counted : list HeartbeatSignal;
  mt_lost : list HeartbeatSignal;
}.

(** Not newer than what was counted. *)
Definition stale (seen : gmap string Z) (hb : HeartbeatSignal) : Prop :=
  ∃ p, seen !! hb_ClusterID hb = Some p ∧ hb_SequenceNumber hb ≤ p.

(** The greatest number of a cluster in a list. *)
Definition highest (q : list HeartbeatSignal) (c : string) : option Z :=
  foldl (λ o hb, if decide (hb_ClusterID hb = c)
                 then union_with (λ a b, Some (Z.max a b)) o (Some (hb_SequenceNumber hb)) else o) None q.

(** One step, with the heartbeats that arrive in it. *)
Inductive meter_step : list HeartbeatSignal → Meter → Meter → Prop :=
  | meter_drop hb m :
      stale (mt_seen m) hb → meter_step [hb] m {| m with mt_dropped := mt_dropped m ++ [hb] |}
  | meter_accept hb m :
      ¬ stale (mt_seen m) hb → meter_step [hb] m {| m with mt_waiting := mt_waiting m ++ [hb] |}
  | meter_count m seen :
      (∀ c, seen !! c = union_with (λ a b, Some (Z.max a b)) (mt_seen m !! c) (highest (mt_waiting m) c)) →
      meter_step [] m {| m with mt_seen := seen;
        mt_ack := foldl Z.max (mt_ack m) (hb_SequenceNumber <$> mt_waiting m);
        mt_waiting := []; mt_counted := mt_counted m ++ mt_waiting m |}
  | meter_lose m :
      meter_step [] m {| m with mt_waiting := []; mt_lost := mt_lost m ++ mt_waiting m |}
  | meter_register c m :
      mt_seen m !! c = None → meter_step [] m {| m with mt_seen := <[c := 0]> (mt_seen m) |}.

Inductive meter_run : list HeartbeatSignal → Meter → Meter → Prop :=
  | meter_done m : meter_run [] m m
  | meter_next l1 l2 m1 m2 m3 : meter_step l1 m1 m2 → meter_run l2 m2 m3 → meter_run (l1 ++ l2) m1 m3.

Lemma meter_run_app l1 l2 m1 m2 m3 : meter_run l1 m1 m2 → meter_run l2 m2 m3 → meter_run (l1 ++ l2) m1 m3.
Proof. induction 1; intros; [done|]. rewrite <- app_assoc. econstructor; eauto. Qed.

Lemma meter_once l m m' : meter_step l m m' → meter_run l m m'.
Proof. intros H. rewrite <- (app_nil_r l). econstructor; [done|constructor]. Qed.

(** ** What the meter guarantees *)

Lemma stale_mono seen seen' hb : seqs_le seen seen' → stale seen hb → stale seen' hb.
Proof.
  intros Hle (p & Hp & Hs). destruct (Hle _ _ Hp) as (p' & Hp' & ?). exists p'. split; [done|lia].
Qed.

Lemma highest_snoc q hb c :
  highest (q ++ [hb]) c = if decide (hb_ClusterID hb = c)
    then union_with (λ a b, Some (Z.max a b)) (highest q c) (Some (hb_SequenceNumber hb)) else highest q c.
Proof. unfold highest. by rewrite foldl_snoc. Qed.

Lemma highest_elem q hb : hb ∈ q → ∃ p, highest q (hb_ClusterID hb) = Some p ∧ hb_SequenceNumber hb ≤ p.
Proof.
  induction q as [|x q IH] using rev_ind; [by intros ?%elem_of_nil|].
  rewrite highest_snoc. intros [Hq|Hq]%elem_of_app.
  - destruct (IH Hq) as (p & Hp & Hle). rewrite Hp. case_decide; [|eauto]. eexists. split; [done|lia].
  - apply list_elem_of_singleton in Hq as ->. rewrite decide_True by done.
    destruct (highest q _); eexists; (split; [done|lia]).
Qed.

Lemma meter_step_seen l m m' : meter_step l m m' → seqs_le (mt_seen m) (mt_seen m').
Proof.
  destruct 1 as [| |m seen Hs| |c m Hc]; try done; cbn [mt_seen].
  - intros c p Hp. rewrite Hs, Hp. destruct (highest _ c); cbn; eexists; (split; [done|lia]).
  - intros c' p Hp. exists p. split; [|lia]. rewrite lookup_insert_ne; congruence.
Qed.

Record meter_ok (past : list HeartbeatSignal) (m : Meter) : Prop := {
  mo_all : mt_dropped m ++ mt_counted m ++ mt_lost m ++ mt_waiting m ≡ₚ past;
  mo_dropped hb : hb ∈ mt_dropped m → stale (mt_seen m) hb;
  mo_counted hb : hb ∈ mt_counted m → stale (mt_seen m) hb;
}.

Lemma meter_step_ok past l m m' : meter_step l m m' → meter_ok past m → meter_ok (past ++ l) m'.
Proof.
  intros Hstep [Ha Hd Hc]. pose proof (meter_step_seen _ _ _ Hstep) as Hle.
  destruct Hstep as [hb m Hst|hb m Hst|m seen Hs|m|c m Hnew];
    split; cbn [mt_dropped mt_counted mt_lost mt_waiting mt_seen] in *.
  - rewrite <- Ha. solve_Permutation.
  - intros hb' [Hh|Hh]%elem_of_app; [by apply Hd|]. by apply list_elem_of_singleton in Hh as ->.
  - done.
  - rewrite <- Ha. solve_Permutation.
  - done.
  - done.
  - rewrite <- Ha. solve_Permutation.
  - intros hb Hh. by eapply stale_mono, Hd.
  - intros hb [Hh|Hh]%elem_of_app; [by eapply stale_mono, Hc|].
    destruct (highest_elem _ _ Hh) as (p & Hp & Hlp). exists (match mt_seen m !! hb_ClusterID hb with
      Some q => Z.max q p | None => p end). rewrite Hs, Hp. destruct (mt_seen m !! _); cbn; (split; [done|lia]).
  - rewrite <- Ha. solve_Permutation.
  - done.
  - done.
  - by rewrite app_nil_r.
  - intros hb Hh. by eapply stale_mono, Hd.
  - intros hb Hh. by eapply stale_mono, Hc.
Qed.

Lemma meter_run_ok past l m m' : meter_run l m m' → meter_ok past m → meter_ok (past ++ l) m'.
Proof.
  intros Hrun. revert past. induction Hrun as [|l1 l2 m1 m2 m3 Hs Hrun IH]; intros past Hok; [by rewrite app_nil_r|].
  rewrite app_assoc. apply IH. by eapply meter_step_ok.
Qed.

(** ** The marks of a flush *)

Lemma processed_fold_marks q seqs ack :
  (∀ c, (foldl processed_step (seqs, ack) q).1 !! c =
        union_with (λ a b, Some (Z.max a b)) (seqs !! c) (highest q c)) ∧
  (foldl processed_step (seqs, ack) q).2 = foldl Z.max ack (hb_SequenceNumber <$> q).
Proof.
  induction q as [|hb q [IHs IHa]] using rev_ind.
  { split; [|done]. intros c. cbn. by destruct (seqs !! c). }
  rewrite foldl_snoc, fmap_app, foldl_app. cbn [fmap list_fmap foldl].
  destruct (foldl processed_step (seqs, ack) q) as [seqs1 ack1]. cbn [fst snd] in *. split.
  - intros c. rewrite highest_snoc. unfold processed_step. cbn [fst].
    destruct (decide (hb_ClusterID hb = c)) as [<-|Hne].
    + pose proof (IHs (hb_ClusterID hb)) as E.
      destruct (seqs !! hb_ClusterID hb) as [p|], (highest q (hb_ClusterID hb)) as [h|]; cbn in E |- *;
        rewrite E; try case_decide; rewrite ?lookup_insert_eq, ?E; f_equal; lia.
    + rewrite <- IHs. repeat case_match; rewrite ?lookup_insert_ne by done; done.
  - unfold processed_step. cbn [snd]. rewrite <- IHa. case_decide; lia.
Qed.

(** ** The simulation *)

Section simulation.
Context `{TL : TigerBeetleLaws} `{B : Blake3} `{G : GoRange} `{P : PGServer} `{U : UUIDPkg}.
Context `{T : !Temporal} `{TeL : !TemporalLaws T}.
Implicit Types (s : Sys).

(** What the meter sees of the workflow. *)
Definition shows (st : TenantAccountingState) (m : Meter) : Prop :=
  mt_seen m = ProcessedSeqs st ∧ mt_ack m = LastAck st ∧ mt_waiting m = CurBatch st.

Definition meter_start (input : TenantAccountingInput) : Meter :=
  {| mt_seen := CarryProcessedSeqs input; mt_ack := CarryLastAck input; mt_waiting := [];
     mt_dropped := []; mt_counted := []; mt_lost := [] |}.

Definition arrivals (ev : event) : list HeartbeatSignal :=
  match ev with EvHeartbeat hb => [hb] | _ => [] end.

(** Turns of the loop with the heartbeats that arrive, and the rest of the system. *)
Inductive turns : list HeartbeatSignal → Sys → Sys → Prop :=
  | turns_nil s : turns [] s s
  | turns_turn ev suggested l s1 s2 s3 :
      loop_step ev suggested s1 = (Ok tt, s2) → turns l s2 s3 → turns (arrivals ev ++ l) s1 s3
  | turns_others l s1 w s3 :
      others (sys_world s1) w → turns l {| s1 with sys_world := w |} s3 → turns l s1 s3.

(** A flush is a counting step, or nothing. *)
Lemma flush_simulated s o s' m :
  flushBatch s = (o, s') → shows (sys_state s) m →
  ∃ m', meter_run [] m m' ∧ shows (sys_state s') m' ∧ (o = Ok tt → mt_waiting m' = [] ∧ mt_lost m' = mt_lost m).
Proof.
  intros [Hr _]%flushBatch_cases (Hs & Ha & Hw).
  destruct Hr as [He|e s' Hne Hst|ids result w0 w1 s' Hne _ _ _ _ (ex & pe & Heq & _)].
  - exists m. split_and!; [constructor|done|]. intros _. by rewrite Hw.
  - exists m. split_and!; [constructor| |done]. by rewrite Hst.
  - destruct (processed_fold_marks (mt_waiting m) (mt_seen m) (mt_ack m)) as [Hm1 Hm2].
    eexists. split; [apply meter_once, (meter_count m _ Hm1)|]. rewrite Heq. unfold shows. cbn.
    rewrite <- Hs, <- Ha, <- Hw, Hm2. done.
Qed.

Lemma try_flush_simulated s o s' m :
  try flushBatch s = (o, s') → shows (sys_state s) m → ∃ m', meter_run [] m m' ∧ shows (sys_state s') m'.
Proof. intros [o0 E]%try_eq Hm. destruct (flush_simulated _ _ _ _ E Hm) as (m' & ? & ? & _). eauto. Qed.

Lemma try_Ok {A} (c : M Sys A) s r s' :
  try c s = (Ok r, s') → ∃ o, c s = (o, s') ∧ ∀ x, o ≠ Panic x.
Proof. unfold try. destruct (c s) as [[a|e|p] s1]; intros [= <- <-]; by eexists. Qed.

(** An adjustment does not touch what the meter sees. *)
Lemma credit_simulated sig s r s' m :
  try (on_credit sig) s = (Ok r, s') → shows (sys_state s) m → shows (sys_state s') m.
Proof.
  intros (o & E & Ho)%try_Ok Hm.
  apply on_credit_cases in E as [(e & _ & -> & _)|(_ & _ & s1 & Ef & _ & Hst)]; [done|].
  destruct (Hst Ho) as [_ ->]. apply flushAdjustment_cases in Ef as [Hr _].
  cbv beta. destruct Hr as [p sx _ E|l e sx _ E _|l res w0 w1 sx _ _ _ _ _ E];
    [by destruct (Ho p)|rewrite E; exact Hm|rewrite E; exact Hm].
Qed.

Lemma heartbeat_simulated hb s r s' m :
  on_heartbeat hb s = (Ok r, s') → shows (sys_state s) m →
  ∃ m', meter_run [hb] m m' ∧ shows (sys_state s') m'.
Proof.
  intros E Hm. pose proof Hm as (Hs & Ha & Hw). unfold on_heartbeat in E. rewrite bind_cases in E. cbn [gets] in E.
  fold (seen s hb) in E.
  assert (seen s hb = true ↔ stale (mt_seen m) hb) as Hseen.
  { unfold seen, stale. rewrite Hs. destruct (ProcessedSeqs (sys_state s) !! hb_ClusterID hb) as [p|].
    - rewrite bool_decide_eq_true. naive_solver.
    - naive_solver. }
  destruct (seen s hb).
  { inv E. eexists. split; [apply meter_once, meter_drop; by apply Hseen|done]. }
  rewrite (bind_Ok _ _ _ _ _ (update_eq _ _)), bind_cases in E. cbn [gets] in E.
  set (s1 := {| s with sys_state := _ |}) in E.
  set (m1 := {| m with mt_waiting := mt_waiting m ++ [hb] |}).
  assert (meter_run [hb] m m1) as Hrun1.
  { apply meter_once, meter_accept. intros Hst. by apply Hseen in Hst. }
  assert (shows (sys_state s1) m1) as Hm1 by (split_and!; [done..|]; cbn; by rewrite Hw).
  case_decide; [|inv E; by exists m1].
  apply bind_Ok_inv in E as (r2 & s2 & E2 & E).
  destruct (try_flush_simulated _ _ _ _ E2 Hm1) as (m2 & Hrun2 & Hm2).
  rewrite (bind_Ok _ _ _ _ _ (update_eq _ _)) in E. inv E. exists m2.
  split; [exact (meter_run_app [hb] [] _ _ _ Hrun1 Hrun2)|done].
Qed.

Lemma handle_simulated ev s s' m :
  handle ev s = (Ok tt, s') → shows (sys_state s) m →
  ∃ m', meter_run (arrivals ev) m m' ∧ shows (sys_state s') m'.
Proof.
  intros E Hm. destruct ev as [hb|sig| |sig]; cbn [handle arrivals] in *.
  - by eapply heartbeat_simulated.
  - unfold on_register in E. rewrite update_eq in E. inv E. cbn [sys_state].
    destruct Hm as (Hs & Ha & Hw). destruct (ProcessedSeqs (sys_state s) !! rg_ClusterID sig) eqn:Ep.
    + exists m. split; [constructor|done].
    + eexists. split; [apply meter_once, meter_register; by rewrite Hs|]. unfold shows. cbn. by rewrite Hs.
  - unfold on_timer in E. rewrite bind_cases in E. cbn [gets] in E. apply bind_Ok_inv in E as (r2 & s2 & E2 & E).
    destruct (try_flush_simulated _ _ _ _ E2 Hm) as (m2 & Hrun2 & Hm2). exists m2. split; [done|].
    apply bind_Ok_inv in E as ([] & s3 & E3 & E). injection E as <-. cbn [sys_state].
    destruct (bool_decide _); rewrite update_eq in E3; by inv E3.
  - apply bind_Ok_inv in E as (r & s1 & E1 & E). inv E. exists m. split; [constructor|].
    by eapply credit_simulated.
Qed.

(** A turn is simulated; Continue-As-New counts or loses what waits. *)
Lemma loop_step_simulated ev suggested s s' m :
  loop_step ev suggested s = (Ok tt, s') → shows (sys_state s) m →
  ∃ m', meter_run (arrivals ev) m m' ∧ shows (sys_state s') m'.
Proof.
  intros E Hm. unfold loop_step in E. apply bind_Ok_inv in E as ([] & s1 & E1 & E).
  destruct (handle_simulated _ _ _ _ E1 Hm) as (m1 & Hrun1 & Hm1).
  destruct suggested; [|inv E; eauto].
  apply bind_Ok_inv in E as (input & s2 & E2 & E). unfold continue_as_new in E2.
  apply bind_Ok_inv in E2 as (r & s3 & E3 & E2). injection E2 as <- <-.
  destruct (try_flush_simulated _ _ _ _ E3 Hm1) as (m2 & Hrun2 & Hm2). inv E. cbn [sys_state].
  exists {| m2 with mt_waiting := []; mt_lost := mt_lost m2 ++ mt_waiting m2 |}. split.
  - rewrite <- (app_nil_r (arrivals ev)). eapply meter_run_app; [exact Hrun1|].
    eapply (meter_run_app [] []); [exact Hrun2|]. apply meter_once, meter_lose.
  - destruct Hm2 as (Hs & Ha & _). by split_and!.
Qed.

Lemma turns_simulated l s s' m :
  turns l s s' → shows (sys_state s) m → ∃ m', meter_run l m m' ∧ shows (sys_state s') m'.
Proof.
  intros Ht. revert m. induction Ht as [s|ev sg l s1 s2 s3 E Ht IH|l s1 w s3 _ Ht IH]; intros m Hm.
  - exists m. split; [constructor|done].
  - destruct (loop_step_simulated _ _ _ _ _ E Hm) as (m1 & Hrun1 & Hm1).
    destruct (IH m1 Hm1) as (m2 & Hrun2 & Hm2). exists m2. split; [by eapply meter_run_app|done].
  - by apply IH.
Qed.

(** The accounting workflow implements the meter. Every execution from a fresh
    start, with any signals, timers, credits, failed flushes, restarts and actions of
    the rest of the system, is an execution of the meter that takes in the same
    heartbeats, and the workflow's processed numbers, acknowledgement and batch are
    the meter's. So at every moment each heartbeat that arrived is in exactly one
    place: dropped, not newer than a counted one of its cluster; counted, and no
    newer than the processed number of its cluster; lost when a run handed over; or
    still in the batch. *)
Theorem workflow_refines_meter : ∀ input w l s,
  turns l (start input w) s →
  ∃ m, meter_run l (meter_start input) m ∧ shows (sys_state s) m ∧
    mt_dropped m ++ mt_counted m ++ mt_lost m ++ CurBatch (sys_state s) ≡ₚ l ∧
    ∀ hb, hb ∈ mt_dropped m ∨ hb ∈ mt_counted m → stale (ProcessedSeqs (sys_state s)) hb.
Proof.
  intros input w l s Ht. destruct (turns_simulated _ _ _ (meter_start input) Ht) as (m & Hrun & Hm); [done|].
  exists m. destruct (meter_run_ok [] _ _ _ Hrun) as [Ha Hd Hc].
  { split; [done|by intros hb ?%elem_of_nil..]. }
  destruct Hm as (Hs & Hack & Hw). rewrite <- Hw, <- Hs. split_and!; [done..|naive_solver].
Qed.

(** ** Progress *)




End simulation.
