(* ===== verification/WorkflowWitnesses.v ===== *)
(** * Concrete runs of the accounting workflow

    A Temporal that loses the result of the first attempt of every activity and
    runs it again, over the reference ledger and a database without faults. *)

From S2P Require Import Prelude Domain TigerBeetle TBRef Ids Transfers Accounts LedgerProps.
From S2P Require Import World ActivitiesTB ActivitiesTBProps ActivitiesPG AccountingWorkflow.
From S2P Require Import AccountingProps CreditProps LoopProps Meter.
From S2P Require Postgres.
Import Postgres(PGServer).

Definition lossy_execute {A} (n : nat) (m : M World A) : M World A := λ w,
  match n with
  | S (S _) =>
      match m (m w).2 with
      | (Panic _, w') => (Err (EMsg "panic"), w')
      | r => r
      end
  | _ => (Err (EMsg "not started"), w)
  end.

#[export] Instance lossy_temporal : Temporal := {| ExecuteActivity := @lossy_execute |}.

Lemma lossy_attempts {A} (n : nat) (m : M World A) w o w' :
  lossy_execute n m w = (o, w') → attempts (λ _ _, False) m n w o w'.
Proof.
  unfold lossy_execute. destruct n as [|[|n]]; [intros He; inv He; constructor..|].
  destruct (m w) as [o1 w1] eqn:E1. simpl. intros He.
  eapply attempt_failed; [exact E1|].
  destruct (m w1) as [[a|e|p] w2] eqn:E2; inv He.
  - by eapply attempt_last.
  - eapply attempt_failed; [exact E2|constructor].
  - eapply attempt_failed; [exact E2|constructor].
Qed.

#[export] Instance lossy_temporal_laws : TemporalLaws lossy_temporal := {|
  others := λ _ _, False;
  others_grow := λ _ _ (H : False), match H with end;
  ExecuteActivity_attempts := @lossy_attempts |}.

Definition demo_state (batch : list HeartbeatSignal) : TenantAccountingState :=
  {| TenantID := demo_tenant; TenantUUID := demo_id 77; ProcessedSeqs := ∅;
     AccountMap := demo_quota; GlobalOperatorIDs := demo_operators; GlobalSinkIDs := demo_sinks;
     CurBatch := batch; LastAck := 0; CurrentFlushInterval := baseFlushInterval;
     PendingGaugeIDs := ∅; ExceededResources := {[ResourceCPUHours := true]}; FlushSeqNo := 0 |}.

Definition demo_sys : Sys :=
  {| sys_state := demo_state [demo_hb 1 10 2; demo_hb 2 20 3]; sys_timer := baseFlushInterval;
     sys_world := demo_world |}.

Definition flushed : Sys := (flushBatch demo_sys).2.

Lemma flushed_succeeds : succeeds (flushBatch demo_sys) = true.
Proof. by vm_compute. Qed.

Lemma flushed_eq : flushBatch demo_sys = (Ok tt, flushed).
Proof. exact (unit_ok (flushBatch demo_sys) flushed_succeeds). Qed.

(** One idle timer turn that continues as new. *)
Definition turned : Sys := (loop_step EvTimer true flushed).2.

Lemma turned_succeeds : succeeds (loop_step EvTimer true flushed) = true.
Proof. by vm_compute. Qed.

Lemma turned_step : step others flushed turned.
Proof.
  exact (step_turn others EvTimer true flushed turned
           (unit_ok (loop_step EvTimer true flushed) turned_succeeds)).
Qed.

Lemma processed_heartbeat_is_dropped_witness :
  on_heartbeat (demo_hb 1 99 9) turned = (Ok tt, turned) ∧
  ProcessedSeqs (sys_state turned) !! "c1" = Some 2.
Proof.
  split; [|by vm_compute].
  apply (processed_heartbeat_is_dropped demo_sys flushed turned (demo_hb 2 20 3) (demo_hb 1 99 9)).
  - right. left.
  - apply flushed_eq.
  - apply rtc_once, turned_step.
  - done.
  - simpl. lia.
Defined.

Lemma flush_numbers_never_reused_witness :
  FlushSeqNo (bump (sys_state demo_sys)) = 1 ∧ 1 < FlushSeqNo (bump (sys_state turned)).
Proof.
  apply (flush_numbers_never_reused 1 demo_sys (Ok tt) flushed turned).
  - left. split; [apply flushed_eq|done].
  - eapply nsteps_l; [apply turned_step|constructor].
  - simpl. lia.
  - simpl. lia.
Defined.

Lemma accounting_is_monotone_witness :
  LastAck (sys_state flushed) = 2 ∧ LastAck (sys_state flushed) ≤ LastAck (sys_state turned).
Proof.
  split; [by vm_compute|].
  apply (accounting_is_monotone flushed turned). apply rtc_once, turned_step.
Defined.

(** A tenant with an account but no CPU account in the ledger: the ledger
    activity fails and the batch is kept. *)
Definition broken_sys : Sys :=
  {| demo_sys with sys_world := {| demo_world with w_env :=
       {| env_tb := ref_empty : TBState; env_ids := 0; env_seed := 0 |} |} |}.


Definition demo_credit : QuotaAdjustmentSignal :=
  {| qa_ResourceType := ResourceCPUHours; qa_Amount := 25; qa_Reason := ""; qa_Code := 101 |}.

Lemma credit_issued_exactly_once_witness :
  let id := DeriveAllocationTransferID (demo_id 77) 1 1 in
  transfer_at (ledger_of (on_credit demo_credit demo_sys).2) id =
    Some (credit_transfer (sys_state demo_sys) demo_credit 1 id (demo_id 11) (demo_id 21)) ∧
  credits_posted (balance_of (account_of (ledger_of (on_credit demo_credit demo_sys).2)
                                (demo_id 21))) = 125.
Proof.
  intros id. split; [|by vm_compute].
  apply (credit_issued_exactly_once demo_sys demo_credit 1 (demo_id 11) (demo_id 21)
    (account_of demo_tb (demo_id 11))
    (Ok (value_of {| ic_Balances := ∅ |} (on_credit demo_credit demo_sys)))).
  - by vm_compute.
  - by vm_compute.
  - by vm_compute.
  - apply account_of_ok. by vm_compute.
  - by vm_compute.
  - apply (bool_decide_unpack _). by vm_compute.
  - by vm_compute.
  - intros w w' [].
  - refine (value_ok _ (on_credit demo_credit demo_sys) _). by vm_compute.
Defined.


Lemma loop_never_crashes_witness :
  ∃ s', loop_step (EvCredit {| demo_credit with qa_ResourceType := "gpu" |}) true demo_sys = (Ok tt, s').
Proof.
  destruct (loop_never_crashes (EvCredit {| demo_credit with qa_ResourceType := "gpu" |}) true demo_sys)
    as (s' & E & _); [|by exists s'].
  intros r. simpl. unfold demo_quota.
  rewrite lookup_insert_is_Some, lookup_singleton_is_Some. intros [<-|[_ <-]];
    apply elem_of_AllResources; auto.
Defined.

Lemma flush_interval_bounded_witness :
  let input := carry (sys_state flushed) in
  let s := (loop_step EvTimer false (start input demo_world)).2 in
  CurrentFlushInterval (sys_state s) = 4 * second ∧ interval_ok s.
Proof.
  intros input s. split; [by vm_compute|].
  apply (flush_interval_bounded input demo_world s). apply rtc_once.
  apply (step_turn _ EvTimer false). apply unit_ok. by vm_compute.
Defined.

Lemma heartbeat_never_lost_witness :
  CurBatch (sys_state (on_heartbeat (demo_hb 3 1 1) demo_sys).2) =
  CurBatch (sys_state demo_sys) ++ [demo_hb 3 1 1].
Proof.
  pose proof (heartbeat_never_lost demo_sys (demo_hb 3 1 1) (on_heartbeat (demo_hb 3 1 1) demo_sys).1
    (on_heartbeat (demo_hb 3 1 1) demo_sys).2 ltac:(apply surjective_pairing)) as Hn.
  change (seen demo_sys (demo_hb 3 1 1)) with false in Hn. cbv beta iota zeta in Hn.
  rewrite decide_True in Hn by by vm_compute. destruct Hn as [-> _]. done.
Defined.

(** The batch of a run that continues as new while the ledger is failing. *)
Lemma continue_as_new_hands_over_witness :
  let r := continue_as_new broken_sys in
  let input := value_of (carry (sys_state broken_sys)) r in
  CurBatch (sys_state r.2) ≠ [] ∧ CurBatch (initial_state input) = [] ∧
  ProcessedSeqs (initial_state input) !! "c1" = None.
Proof.
  intros r input.
  destruct (continue_as_new_hands_over broken_sys input r.2) as [Hinit Hlost].
  - apply value_ok. by vm_compute.
  - assert ((flushBatch broken_sys).1 ≠ Ok tt) as Hf by by vm_compute.
    destruct (flushBatch broken_sys).1 as [[]| |]; [done|..];
      (split_and!; [apply Hlost|by rewrite Hinit|]; rewrite Hinit; destruct Hlost as (_ & _ & Hp);
       exact (f_equal (lookup "c1") Hp)).
Defined.

(** Two heartbeats from the start, then the timer. *)
Definition metered_input : TenantAccountingInput := carry (demo_state []).
Abbreviation metered0 := (start metered_input demo_world) (only parsing).
Abbreviation metered1 := (loop_step (EvHeartbeat (demo_hb 1 10 2)) false metered0) (only parsing).
Abbreviation metered2 := (loop_step (EvHeartbeat (demo_hb 1 10 2)) false metered1.2) (only parsing).
Abbreviation metered3 := (loop_step EvTimer false metered2.2) (only parsing).

Lemma metered_turns :
  turns [demo_hb 1 10 2; demo_hb 1 10 2] metered0 metered3.2 ∧ turns [demo_hb 1 10 2] metered1.2 metered2.2.
Proof.
  assert (succeeds metered1 = true) as E1 by by vm_compute.
  assert (succeeds metered2 = true) as E2 by by vm_compute.
  assert (succeeds metered3 = true) as E3 by by vm_compute.
  split.
  - eapply (turns_turn (EvHeartbeat _) false); [exact (unit_ok _ E1)|].
    eapply (turns_turn (EvHeartbeat _) false []); [exact (unit_ok _ E2)|].
    eapply (turns_turn EvTimer false); [exact (unit_ok _ E3)|constructor].
  - eapply (turns_turn (EvHeartbeat _) false); [exact (unit_ok _ E2)|constructor].
Qed.

Lemma workflow_refines_meter_witness :
  CurBatch (sys_state metered3.2) = [] ∧
  ∃ m, mt_dropped m ++ mt_counted m ++ mt_lost m ++ CurBatch (sys_state metered3.2) ≡ₚ
       [demo_hb 1 10 2; demo_hb 1 10 2].
Proof.
  split; [by vm_compute|].
  destruct (workflow_refines_meter metered_input demo_world _ _ (proj1 metered_turns)) as (m & _ & _ & Hm & _).
  exists m. exact Hm.
Defined.


(** A batch that the ledger refuses for lack of credits, under a Temporal that loses
    the result of the first attempt: the second attempt finds the ID already failed,
    which [submitBatch] treats as an unexpected result.  The batch stays and every
    later flush of it fails too. *)
Definition over_sys : Sys :=
  {| sys_state := demo_state [demo_hb 1 1000 2]; sys_timer := baseFlushInterval; sys_world := demo_world |}.

Example refused_batch_is_stuck :
  let once := flushBatch over_sys in
  let twice := flushBatch once.2 in
  succeeds once = false ∧ CurBatch (sys_state once.2) = [demo_hb 1 1000 2] ∧
  succeeds twice = false ∧ CurBatch (sys_state twice.2) = [demo_hb 1 1000 2].
Proof. vm_compute. repeat split. Qed.
