(* ===== verification/Interleaving.v ===== *)
(** * The accounting workflow with its waits (internal/accounting/workflow_accounting.go)

    [AccountingWorkflow] runs each handler to its end.  Here the handlers are
    coroutines that wait for their activities, as Temporal runs them: the main loop
    is one coroutine, every credit update is another one, and they share the state
    of the workflow.  The flush timer is a future that can be cancelled; the
    selector of the loop holds on to the future that was current when it was built.

    An attempt of an activity may be lost: it is counted, and what it does may happen
    at any later time ([c_orphans]), also when the workflow has given up waiting or
    has continued as new. *)

From S2P Require Import Prelude Domain TigerBeetle TBRef Ids Transfers Accounts LedgerProps.
From S2P Require Import World ActivitiesTB ActivitiesPG Coroutines AccountingWorkflow.
From S2P Require Postgres.
Import Postgres(PGServer).

(** ** Timers and the memory of a run *)

Inductive timer_status := Running | Fired | Canceled.

#[export] Instance timer_status_dec : EqDecision timer_status.
Proof. solve_decision. Defined.

Record Timer := { tm_duration : Z; tm_status : timer_status }.

(** The memory that the coroutines of a run share.  [timerFuture] and [cancelTimer]
    are assigned together: both are the timer number [p_cur].  [p_canceled] tells
    that the run was cancelled ([ctx.Err() != nil]). *)
Record Proc `{TigerBeetle} := {
  p_sys : Sys;
  p_timers : list Timer;
  p_cur : nat;
  p_canceled : bool;
}.
Arguments Proc {_}.
Arguments Build_Proc {_} _ _ _ _.

Definition stop_timer (t : Timer) : Timer :=
  match tm_status t with
  | Running => {| tm_duration := tm_duration t; tm_status := Canceled |}
  | _ => t
  end.

(** ** The activities of the workflow *)

Inductive act : Type → Type :=
  | ASubmitTBBatch (input : TBBatchInput) : act TBBatchResult
  | ASubmitAllocationTransfers (input : SubmitAllocationInput) : act unit
  | ALookupAccountBalances (input : LookupAccountBalancesInput) : act LookupAccountBalancesResult
  | AUpdateQuotaSnapshots (input : UpdateQuotaSnapshotsInput) : act unit
  | ACheckSoftLimits (input : CheckSoftLimitsInput) : act unit
  | AResetSoftLimitAlert (input : ResetSoftLimitAlertInput) : act unit.

Section workflow.
Context `{TigerBeetle} `{Blake3} `{GoRange} `{PGServer} `{UUIDPkg}.

Definition exec {R} (a : act R) : M World R :=
  match a with
  | ASubmitTBBatch input => on_ledger (SubmitTBBatch input)
  | ASubmitAllocationTransfers input => on_ledger (SubmitAllocationTransfers input)
  | ALookupAccountBalances input => on_ledger (LookupAccountBalances input)
  | AUpdateQuotaSnapshots input => UpdateQuotaSnapshots input
  | ACheckSoftLimits input => CheckSoftLimits input
  | AResetSoftLimitAlert input => ResetSoftLimitAlert input
  end.

(** ** Pieces of local computation *)

Definition p_state (s : Proc) : TenantAccountingState := sys_state (p_sys s).
Definition p_world (s : Proc) : World := sys_world (p_sys s).
Definition set_world (w : World) (s : Proc) : Proc :=
  {| s with p_sys := {| (p_sys s) with sys_world := w |} |}.

Definition on_sys {A} (m : M Sys A) : M Proc A := zoom p_sys (λ x s, {| s with p_sys := x |}) m.

Definition cancelTimer : M Proc unit :=
  modify (λ s, {| s with p_timers := alter stop_timer (p_cur s) (p_timers s) |}).

(** [resetTimer]: a new timer, born cancelled when the run is. *)
Definition newTimer : M Proc unit :=
  _ ← on_sys resetTimer;
  modify (λ s, {| s with
    p_timers := p_timers s ++ [{| tm_duration := sys_timer (p_sys s);
      tm_status := if p_canceled s then Canceled else Running |}];
    p_cur := length (p_timers s) |}).

Definition base_interval : M Proc unit :=
  on_sys (update (λ st, {| st with CurrentFlushInterval := baseFlushInterval |})).

(** The number and the input of a flush; nothing when the batch is empty. *)
Definition flush_begin : M Sys (option TBBatchInput) :=
  state ← gets sys_state;
  if decide (length (CurBatch state) = 0%nat) then mret None else
  _ ← update (λ st, {| st with FlushSeqNo := u64 (FlushSeqNo st + 1) |});
  let seqNo := u64 (FlushSeqNo state + 1) in
  ids ← lift (gauge_ids_loop (TenantUUID state) seqNo (∅, ∅) (hb_resources (CurBatch state)));
  mret (Some (batch_input state ids)).

(** The number and the input of an adjustment. *)
Definition adjust_begin (sig : QuotaAdjustmentSignal) : M Sys SubmitAllocationInput :=
  state ← gets sys_state;
  _ ← update (λ st, {| st with FlushSeqNo := u64 (FlushSeqNo st + 1) |});
  let seqNo := u64 (FlushSeqNo state + 1) in
  ledger ← lift (LedgerID (qa_ResourceType sig));
  mret (credit_input state sig
    (Uint128ToBytes (DeriveAllocationTransferID (TenantUUID state) seqNo ledger))).

(** ** The coroutines *)

Abbreviation co := (prog Proc act).

Definition flushBatch_co : co (error + unit) :=
  begun ← here (on_sys flush_begin);
  match begun with
  | None => mret (inr tt)
  | Some input =>
      result ← await maximumAttempts (ASubmitTBBatch input);
      match result with
      | inl e => mret (inl (EWrap "SubmitTBBatch" e))
      | inr result =>
          _ ← here (on_sys (apply_result result));
          state ← here (gets p_state);
          bal ← await maximumAttempts (ALookupAccountBalances {| li_TenantQuotaIDs := AccountMap state |});
          match bal with
          | inl _ => mret (inr tt)
          | inr bal =>
              state ← here (gets p_state);
              _ ← await maximumAttempts (AUpdateQuotaSnapshots
                    {| us_TenantID := TenantID state; us_TenantUUID := TenantUUID state;
                       us_AccountMap := ∅; us_Snapshots := lr_Balances bal |});
              state ← here (gets p_state);
              _ ← await maximumAttempts (ACheckSoftLimits
                    {| cs_TenantID := TenantID state; cs_Snapshots := lr_Balances bal |});
              mret (inr tt)
          end
      end
  end.

Definition flushAdjustment_co (sig : QuotaAdjustmentSignal) : co (error + IssueCreditResult) :=
  input ← here (on_sys (adjust_begin sig));
  done ← await maximumAttempts (ASubmitAllocationTransfers input);
  match done with
  | inl e => mret (inl e)
  | inr _ =>
      _ ← here (on_sys (update (λ st, {| st with ExceededResources :=
            delete (qa_ResourceType sig) (ExceededResources st) |})));
      state ← here (gets p_state);
      bal ← await maximumAttempts (ALookupAccountBalances {| li_TenantQuotaIDs := AccountMap state |});
      match bal with
      | inl _ => mret (inr {| ic_Balances := ∅ |})
      | inr bal =>
          state ← here (gets p_state);
          _ ← await maximumAttempts (AUpdateQuotaSnapshots
                {| us_TenantID := TenantID state; us_TenantUUID := TenantUUID state;
                   us_AccountMap := ∅; us_Snapshots := lr_Balances bal |});
          state ← here (gets p_state);
          _ ← await maximumAttempts (AResetSoftLimitAlert
                {| rs_TenantID := TenantID state; rs_ResourceType := qa_ResourceType sig |});
          mret (inr {| ic_Balances := lr_Balances bal |})
      end
  end.

(** The heartbeat case up to the threshold: is the batch full? *)
Definition take_in (sig : HeartbeatSignal) : M Sys bool :=
  state ← gets sys_state;
  if match ProcessedSeqs state !! hb_ClusterID sig with
     | Some prev => bool_decide (hb_SequenceNumber sig ≤ prev)
     | None => false
     end
  then mret false else
  _ ← update (λ st, {| st with CurBatch := CurBatch st ++ [sig] |});
  gets (λ s, bool_decide (batchSizeThreshold ≤ Z.of_nat (length (CurBatch (sys_state s))))).

Definition on_heartbeat_co (sig : HeartbeatSignal) : co unit :=
  full ← here (on_sys (take_in sig));
  if (full : bool) then
    _ ← here cancelTimer;
    _ ← flushBatch_co;
    _ ← here base_interval;
    here newTimer
  else mret tt.

Definition on_register_co (sig : RegisterClusterSignal) : co unit := here (on_sys (on_register sig)).

Definition adapt_interval (hadActivity : bool) : M Proc unit :=
  if hadActivity then base_interval
  else on_sys (update (λ st,
         let next := i64 (CurrentFlushInterval st * 2) in
         {| st with CurrentFlushInterval :=
              if decide (next > maxFlushInterval) then maxFlushInterval else next |})).

Definition on_timer_co : co unit :=
  hadActivity ← here (gets (λ s, bool_decide (0 < length (CurBatch (p_state s)))%nat));
  _ ← flushBatch_co;
  _ ← here (adapt_interval hadActivity);
  here newTimer.

(** The handler of the update; its validator is [validate_credit]. *)
Definition on_credit_co (sig : QuotaAdjustmentSignal) : co (error + IssueCreditResult) :=
  _ ← here cancelTimer;
  result ← flushAdjustment_co sig;
  _ ← here base_interval;
  _ ← here newTimer;
  mret result.

Definition continue_as_new_co : co TenantAccountingInput :=
  _ ← here cancelTimer;
  _ ← flushBatch_co;
  here (gets (λ s, carry (p_state s))).

(** How a turn of the loop ends: at the next [Select], with the timer future that is
    current now; with a fresh run; or with the end of the workflow. *)
Inductive next := NSelect (fut : nat) | NRestart (input : TenantAccountingInput) | NEnded.

Definition turn (handler : co unit) (suggested : bool) : co next :=
  _ ← handler;
  canceled ← here (gets p_canceled);
  if (canceled : bool) then _ ← here cancelTimer; mret NEnded
  else if suggested then input ← continue_as_new_co; mret (NRestart input)
  else fut ← here (gets p_cur); mret (NSelect fut).

(** A run as it reaches its first [Select]. *)
Definition boot (input : TenantAccountingInput) (w : World) : Proc :=
  (newTimer {| p_sys := {| sys_state := initial_state input; sys_timer := 0; sys_world := w |};
               p_timers := []; p_cur := 0; p_canceled := false |}).2.

(** ** Configurations and their steps *)

Abbreviation th := (thread Proc act).

Inductive main := AtSelect (fut : nat) | InTurn (t : th next) | Ended.

Record Conf := {
  c_proc : Proc;
  c_main : main;
  c_updates : list (th (error + IssueCreditResult));
  c_orphans : list {R : Type & act R};
}.

Definition initial (input : TenantAccountingInput) (w : World) : Conf :=
  {| c_proc := boot input w; c_main := AtSelect 0; c_updates := []; c_orphans := [] |}.

(** One step of a coroutine, with the activities whose attempts are left behind. *)
Definition thread_step {A} (t : th A) (s : Proc) (t' : th A) (s' : Proc)
    (left_behind : list {R : Type & act R}) : Prop :=
  match t with
  | Finished _ => False
  | Blocked n a k =>
      (∃ n', n = S n' ∧ t' = Blocked n' a k ∧ s' = s ∧ left_behind = [existT _ a]) ∨
      (∃ n' r w, n = S n' ∧ exec a (p_world s) = (Ok r, w) ∧
         t' = Ready a (inr r) k ∧ s' = set_world w s ∧ left_behind = []) ∨
      (∃ e, t' = Ready a (inl e) k ∧ s' = s ∧ left_behind = [existT _ a])
  | Ready a r k => run (k r) s = (Ok t', s') ∧ left_behind = []
  end.

(** The activities that abandoned updates leave behind. *)
Definition abandoned (ts : list (th (error + IssueCreditResult))) : list {R : Type & act R} :=
  t ← ts; match t with Blocked _ a _ => [existT _ a] | _ => [] end.

(** Where the main coroutine stands after a stretch.  The end of a run abandons the
    updates that have not finished. *)
Definition settle (t : th next) (c : Conf) : Conf :=
  match t with
  | Finished (NSelect fut) => {| c with c_main := AtSelect fut |}
  | Finished (NRestart input) =>
      {| c_proc := boot input (p_world (c_proc c)); c_main := AtSelect 0; c_updates := [];
         c_orphans := c_orphans c ++ abandoned (c_updates c) |}
  | Finished NEnded =>
      {| c_proc := c_proc c; c_main := Ended; c_updates := [];
         c_orphans := c_orphans c ++ abandoned (c_updates c) |}
  | _ => {| c with c_main := InTurn t |}
  end.

Definition timer_ready (s : Proc) (fut : nat) : Prop :=
  ∃ t, p_timers s !! fut = Some t ∧ tm_status t ≠ Running.

(** A step, with the heartbeats that the loop receives in it. *)
Inductive conf_step (others : relation World) : list HeartbeatSignal → Conf → Conf → Prop :=
  | cs_heartbeat sig suggested fut c t s :
      c_main c = AtSelect fut → run (turn (on_heartbeat_co sig) suggested) (c_proc c) = (Ok t, s) →
      conf_step others [sig] c (settle t {| c with c_proc := s |})
  | cs_register sig suggested fut c t s :
      c_main c = AtSelect fut → run (turn (on_register_co sig) suggested) (c_proc c) = (Ok t, s) →
      conf_step others [] c (settle t {| c with c_proc := s |})
  | cs_timer suggested fut c t s :
      c_main c = AtSelect fut → timer_ready (c_proc c) fut →
      run (turn on_timer_co suggested) (c_proc c) = (Ok t, s) →
      conf_step others [] c (settle t {| c with c_proc := s |})
  | cs_main c t t' s os :
      c_main c = InTurn t → thread_step t (c_proc c) t' s os →
      conf_step others [] c (settle t' {| c with c_proc := s; c_orphans := c_orphans c ++ os |})
  | cs_credit sig c t s :
      c_main c ≠ Ended → validate_credit (p_state (c_proc c)) sig = Ok tt →
      run (on_credit_co sig) (c_proc c) = (Ok t, s) →
      conf_step others [] c {| c with c_proc := s; c_updates := c_updates c ++ [t] |}
  | cs_update i c t t' s os :
      c_updates c !! i = Some t → thread_step t (c_proc c) t' s os →
      conf_step others [] c {| c with c_proc := s; c_updates := <[i := t']> (c_updates c);
                                      c_orphans := c_orphans c ++ os |}
  | cs_fire i t c :
      p_timers (c_proc c) !! i = Some t → tm_status t = Running →
      conf_step others [] c {| c with c_proc := {| (c_proc c) with
        p_timers := <[i := {| tm_duration := tm_duration t; tm_status := Fired |}]> (p_timers (c_proc c)) |} |}
  | cs_cancel c :
      conf_step others [] c {| c with c_proc := {| (c_proc c) with
        p_timers := stop_timer <$> p_timers (c_proc c); p_canceled := true |} |}
  | cs_orphan a o w c :
      a ∈ c_orphans c → exec (projT2 a) (p_world (c_proc c)) = (o, w) →
      conf_step others [] c {| c with c_proc := set_world w (c_proc c) |}
  | cs_others w c :
      others (p_world (c_proc c)) w →
      conf_step others [] c {| c with c_proc := set_world w (c_proc c) |}.

(** Runs of [n] steps. *)
Inductive conf_run (others : relation World) : nat → list HeartbeatSignal → Conf → Conf → Prop :=
  | conf_done c : conf_run others 0 [] c c
  | conf_more n l1 l2 c1 c2 c3 :
      conf_run others n l1 c1 c2 → conf_step others l2 c2 c3 → conf_run others (S n) (l1 ++ l2) c1 c3.
End workflow.
