(* ===== verification/InterleavingProps.v ===== *)
(** * Invariants of the interleaved workflow

    An assertion for every wait of the coroutines, a relation for every stretch of
    local computation, and the invariant of all configurations that follows. *)

From S2P Require Import Prelude Domain TigerBeetle TBRef Ids Transfers Accounts LedgerProps.
From S2P Require Import World ActivitiesTB ActivitiesTBProps ActivitiesPG Coroutines AccountingWorkflow.
From S2P Require Import AccountingProps LoopProps Meter Interleaving.
From S2P Require Postgres.
Import Postgres(PGServer).

(** ** Relations on states *)

(** What no step changes. *)
Definition fixed (st st' : TenantAccountingState) : Prop :=
  TenantID st' = TenantID st ∧ TenantUUID st' = TenantUUID st ∧ AccountMap st' = AccountMap st ∧
  GlobalOperatorIDs st' = GlobalOperatorIDs st ∧ GlobalSinkIDs st' = GlobalSinkIDs st.

(** What the credit updates leave alone. *)
Definition same_batch (st st' : TenantAccountingState) : Prop :=
  CurBatch st' = CurBatch st ∧ ProcessedSeqs st' = ProcessedSeqs st ∧ LastAck st' = LastAck st ∧
  PendingGaugeIDs st' = PendingGaugeIDs st.

#[export] Instance fixed_preorder : PreOrder fixed.
Proof. split; [by intros st|]. intros st1 st2 st3. unfold fixed. naive_solver congruence. Qed.
#[export] Instance same_batch_preorder : PreOrder same_batch.
Proof. split; [by intros st|]. intros st1 st2 st3. unfold same_batch. naive_solver congruence. Qed.

(** Timers are never removed; one that is no longer running stays so. *)
Definition timers_le (ts ts' : list Timer) : Prop :=
  ∀ i t, ts !! i = Some t → ∃ t', ts' !! i = Some t' ∧ tm_duration t' = tm_duration t ∧
    (tm_status t ≠ Running → tm_status t' = tm_status t).

#[export] Instance timers_le_preorder : PreOrder timers_le.
Proof.
  split; [intros ts i t Hi; by exists t|]. intros ts1 ts2 ts3 H12 H23 i t Hi.
  destruct (H12 i t Hi) as (t2 & Hi2 & Hd2 & Hs2). destruct (H23 i t2 Hi2) as (t3 & Hi3 & Hd3 & Hs3).
  exists t3. split_and!; [done|congruence|]. intros Hr. rewrite Hs3; [by apply Hs2|by rewrite Hs2].
Qed.

Lemma timers_le_length ts ts' : timers_le ts ts' → (length ts ≤ length ts')%nat.
Proof.
  intros Hle. destruct (length ts) as [|n] eqn:En; [lia|].
  destruct (lookup_lt_is_Some_2 ts n) as [t Ht]; [lia|].
  destruct (Hle n t Ht) as (t' & ?%lookup_lt_Some & _). lia.
Qed.

Lemma timers_le_app ts ts' : timers_le ts (ts ++ ts').
Proof. intros i t Hi. exists t. split_and!; [by apply lookup_app_l_Some|done..]. Qed.

Lemma stop_timer_le t : tm_duration (stop_timer t) = tm_duration t ∧
  (tm_status t ≠ Running → tm_status (stop_timer t) = tm_status t).
Proof. unfold stop_timer. by destruct (tm_status t) eqn:Et. Qed.

Lemma timers_le_alter i ts : timers_le ts (alter stop_timer i ts).
Proof.
  intros j t Hj. destruct (decide (j = i)) as [->|Hne].
  - exists (stop_timer t). rewrite list_lookup_alter_eq, Hj. split; [done|]. apply stop_timer_le.
  - exists t. rewrite list_lookup_alter_ne by done. done.
Qed.

Lemma timers_le_fmap ts : timers_le ts (stop_timer <$> ts).
Proof.
  intros j t Hj. exists (stop_timer t). rewrite list_lookup_fmap, Hj. split; [done|]. apply stop_timer_le.
Qed.

(** ** Requests and their numbers *)

Section props.
Context `{TL : TigerBeetleLaws} `{B : Blake3} `{G : GoRange} `{P : PGServer} `{U : UUIDPkg}.
Implicit Types (s : Proc) (c : Conf).

Abbreviation wait := (option {R : Type & act R}).

(** Ledger and database are as they were. *)
Definition quiet_world (w w' : World) : Prop :=
  env_tb (w_env w') = env_tb (w_env w) ∧ w_db w' = w_db w ∧ w_alerts w' = w_alerts w.

#[export] Instance quiet_world_preorder : PreOrder quiet_world.
Proof. split; [by intros w|]. intros w1 w2 w3. unfold quiet_world. naive_solver congruence. Qed.

(** The batches and the credits are the requests that carry derived IDs. *)
Definition is_request (a : {R : Type & act R}) : bool :=
  match projT2 a with
  | ASubmitTBBatch _ | ASubmitAllocationTransfers _ => true
  | _ => false
  end.

(** The IDs of a request are derived from the number [n]. *)
Definition numbered (a : {R : Type & act R}) (n : Z) : Prop :=
  match projT2 a with
  | ASubmitTBBatch input =>
      gauge_ids_loop (bi_TenantUUID input) n (∅, ∅) (hb_resources (bi_Heartbeats input)) =
      Ok (bi_NewGaugePendingIDs input, bi_GaugeVoidIDs input)
  | ASubmitAllocationTransfers input =>
      ∃ r l, LedgerID r = Ok l ∧
        ai_TransferIDs input = {[r := Uint128ToBytes (DeriveAllocationTransferID (ai_TenantUUID input) n l)]}
  | _ => True
  end.

(** A stretch that ends with the wait [w]: a new request takes the next number. *)
Record seg (w : wait) s0 s : Prop := {
  sg_fixed : fixed (p_state s0) (p_state s);
  sg_timers : timers_le (p_timers s0) (p_timers s);
  sg_canceled : p_canceled s = p_canceled s0;
  sg_world : quiet_world (p_world s0) (p_world s);
  sg_number : if from_option is_request false w
              then FlushSeqNo (p_state s) = u64 (FlushSeqNo (p_state s0) + 1) ∧
                   ∀ a, w = Some a → numbered a (FlushSeqNo (p_state s))
              else FlushSeqNo (p_state s) = FlushSeqNo (p_state s0);
}.

(** A stretch that does not touch the batch. *)
Definition Gquiet (w : wait) s0 s : Prop := seg w s0 s ∧ same_batch (p_state s0) (p_state s).

Lemma Gquiet_refl w s : from_option is_request false w = false → Gquiet w s s.
Proof. intros Hw. split; [|done]. split; [done..|]. by rewrite Hw. Qed.

Lemma Gquiet_trans w s0 s1 s2 : Gquiet None s0 s1 → Gquiet w s1 s2 → Gquiet w s0 s2.
Proof.
  intros [[F1 T1 C1 W1 N1] B1] [[F2 T2 C2 W2 N2] B2]. split; [|by etrans]. split; [by etrans..|congruence|by etrans|].
  cbn in N1. by rewrite N1 in N2.
Qed.

(** The invariant of the memory of a run. *)
Record Inv s : Prop := {
  iv_accounts : ∀ r, is_Some (AccountMap (p_state s) !! r) → r ∈ AllResources;
  iv_cur : (p_cur s < length (p_timers s))%nat;
  iv_interval : baseFlushInterval ≤ CurrentFlushInterval (p_state s) ≤ maxFlushInterval;
  iv_timers : Forall (λ t, baseFlushInterval ≤ tm_duration t ≤ maxFlushInterval) (p_timers s);
}.

(** The assertions at the waits of the main coroutine and of the updates. *)
Definition pre_main R (a : act R) s : Prop :=
  match a with
  | ASubmitTBBatch input =>
      CurBatch (p_state s) ≠ [] ∧ ∃ ids, input = batch_input (p_state s) ids
  | _ => CurBatch (p_state s) = []
  end.
Definition pre_credit R (a : act R) s : Prop :=
  match a with ASubmitTBBatch _ => False | _ => True end.

(** The stretch after the answer to a batch applies it; no other touches the batch. *)
Definition Gmain R (a : act R) : error + R → wait → relation Proc :=
  match a with
  | ASubmitTBBatch input => λ r, match r with
      | inr result => λ w s0 s, seg w s0 s ∧ applied result (p_state s0) (p_state s)
      | inl _ => Gquiet
      end
  | _ => λ _, Gquiet
  end.
(** An update makes one request, at its beginning, and ends by arming a new timer. *)
Definition rearmed s0 s : Prop :=
  p_cur s = length (p_timers s0) ∧
  p_timers s = p_timers s0 ++ [{| tm_duration := baseFlushInterval;
    tm_status := if p_canceled s0 then Canceled else Running |}].
Definition Gresume (w : wait) s0 s : Prop :=
  Gquiet w s0 s ∧ (w = None → rearmed s0 s) ∧ from_option is_request false w = false.
Definition Gcredit R (a : act R) (r : error + R) : wait → relation Proc := Gresume.
(** Its first stretch cancels the current timer. *)
Definition Gbegin (w : wait) s0 s : Prop :=
  Gquiet w s0 s ∧ from_option is_request false w = true ∧ p_cur s = p_cur s0 ∧
  p_timers s = alter stop_timer (p_cur s0) (p_timers s0).

(** How a turn ends. *)
Definition Qnext (nx : next) s : Prop :=
  match nx with
  | NSelect fut => fut = p_cur s
  | NRestart input => input = carry (p_state s)
  | NEnded => True
  end.

Abbreviation good_main := (good Inv pre_main Gmain Qnext).
Abbreviation good_credit := (good Inv pre_credit Gcredit (λ _ _, True)).

(** ** The pieces *)

Lemma cancelTimer_quiet s : Inv s → ∃ s', cancelTimer s = (Ok tt, s') ∧ Inv s' ∧ Gquiet None s s' ∧
  p_state s' = p_state s.
Proof.
  intros [A1 A2 A3 A4]. eexists. split; [done|]. split_and!; [|split; [split|]|]; try done.
  - split; cbn; [done|by rewrite length_alter|done|].
    apply Forall_alter; [done|]. intros t Ht Hb. by rewrite (proj1 (stop_timer_le t)).
  - apply timers_le_alter.
Qed.

Lemma newTimer_quiet s : Inv s → ∃ s', newTimer s = (Ok tt, s') ∧ Inv s' ∧ Gquiet None s s'.
Proof.
  intros [A1 A2 A3 A4]. eexists. split; [done|]. split_and!; [|split; [split|]]; try done.
  - split; cbn; [done|rewrite length_app; cbn; lia|done|].
    apply Forall_app. split; [done|]. by constructor.
  - apply timers_le_app.
Qed.

(** A change of the interval. *)
Lemma interval_quiet s i :
  Inv s → baseFlushInterval ≤ i ≤ maxFlushInterval →
  let s' := {| s with p_sys := {| (p_sys s) with sys_state :=
    (λ st, {| st with CurrentFlushInterval := i |}) (p_state s) |} |} in
  Inv s' ∧ Gquiet None s s'.
Proof. intros [A1 A2 A3 A4] Hi. cbn zeta. by split; [|split; [split|]]. Qed.

Lemma base_interval_quiet s : Inv s → ∃ s', base_interval s = (Ok tt, s') ∧ Inv s' ∧ Gquiet None s s'.
Proof.
  intros Hi. eexists. split; [done|]. apply (interval_quiet s baseFlushInterval Hi).
  unfold baseFlushInterval, maxFlushInterval, second. lia.
Qed.

Lemma adapt_interval_quiet b s :
  Inv s → ∃ s', adapt_interval b s = (Ok tt, s') ∧ Inv s' ∧ Gquiet None s s'.
Proof.
  intros Hi. destruct b; [by apply base_interval_quiet|]. eexists. split; [done|]. cbn zeta.
  pose proof (iv_interval _ Hi) as Hb. unfold baseFlushInterval, maxFlushInterval, second in *.
  apply interval_quiet; [done|]. unfold baseFlushInterval, maxFlushInterval, second. cbn.
  change (sys_state (p_sys s)) with (p_state s). rewrite i64_id by (unfold in_i64; lia).
  case_decide; lia.
Qed.

(** ** The numbered pieces *)

Definition bump_p s : Proc := {| s with p_sys := {| (p_sys s) with sys_state := bump (p_state s) |} |}.

Lemma bump_p_inv s : Inv s → Inv (bump_p s).
Proof. by intros [A1 A2 A3 A4]. Qed.

Lemma bump_p_quiet s (a : {R : Type & act R}) :
  is_request a = true → numbered a (FlushSeqNo (bump (p_state s))) → Gquiet (Some a) s (bump_p s).
Proof.
  intros Hr Hn. split; [|done]. split; [done..|]. cbn [from_option]. rewrite Hr.
  split; [done|]. by intros a' [= <-].
Qed.

Lemma flush_begin_empty s : CurBatch (p_state s) = [] → on_sys flush_begin s = (Ok None, s).
Proof.
  intros He. unfold on_sys, zoom, flush_begin. rewrite bind_cases. cbn [gets].
  change (sys_state (p_sys s)) with (p_state s). rewrite He. cbn. by destruct s.
Qed.

Lemma flush_begin_full s :
  CurBatch (p_state s) ≠ [] →
  ∃ ids, let input := batch_input (p_state s) ids in
    on_sys flush_begin s = (Ok (Some input), bump_p s) ∧
    numbered (existT _ (ASubmitTBBatch input)) (FlushSeqNo (bump (p_state s))).
Proof.
  intros Hne.
  destruct (gauge_ids_total (TenantUUID (p_state s)) (u64 (FlushSeqNo (p_state s) + 1)) (∅, ∅)
    (CurBatch (p_state s))) as [ids Hids].
  exists ids. cbn zeta. split; [|by destruct ids].
  unfold on_sys, zoom, flush_begin. rewrite bind_cases. cbn [gets].
  change (sys_state (p_sys s)) with (p_state s).
  rewrite decide_False by (intros Hz%nil_length_inv; done).
  rewrite (bind_Ok _ _ _ _ _ (update_eq _ _)), bind_cases. cbn [lift]. by rewrite Hids.
Qed.

Lemma adjust_begin_ok s sig :
  Inv s → is_Some (AccountMap (p_state s) !! qa_ResourceType sig) →
  ∃ input, on_sys (adjust_begin sig) s = (Ok input, bump_p s) ∧
    numbered (existT _ (ASubmitAllocationTransfers input)) (FlushSeqNo (bump (p_state s))).
Proof.
  intros Hi Hr. destruct (LedgerID_total (qa_ResourceType sig)) as (l & Hl & _); [by apply (iv_accounts _ Hi)|].
  eexists. split.
  - unfold on_sys, zoom, adjust_begin. rewrite bind_cases. cbn [gets].
    rewrite (bind_Ok _ _ _ _ _ (update_eq _ _)), bind_cases. cbn [lift]. by rewrite Hl.
  - by exists (qa_ResourceType sig), l.
Qed.

(** Applying a result reads the ledger's answer only. *)
Lemma apply_result_quiet result :
  keeps (λ s s' : Sys, quiet_world (sys_world s) (sys_world s')) (apply_result result).
Proof.
  assert (PreOrder (λ s s' : Sys, quiet_world (sys_world s) (sys_world s'))) as Hpre.
  { split; [by intros s|]. intros s1 s2 s3 H12 H23. by etrans. }
  assert (∀ A (m : gmap string A), keeps (λ s s' : Sys, quiet_world (sys_world s) (sys_world s')) (range_s m)).
  { intros A m s o s' E. by inv E. }
  assert (∀ f, keeps (λ s s' : Sys, quiet_world (sys_world s) (sys_world s')) (update f)).
  { intros f s o s' E. by inv E. }
  unfold apply_result. keeps_tac.
Qed.

Lemma apply_result_p result s :
  Inv s → ∃ s', on_sys (apply_result result) s = (Ok tt, s') ∧ Inv s' ∧ seg None s s' ∧
    applied result (p_state s) (p_state s') ∧ CurBatch (p_state s') = [].
Proof.
  intros [A1 A2 A3 A4]. destruct (apply_result_ok result (p_sys s)) as (x & E & Ha & Ht & _).
  pose proof (apply_result_quiet _ _ _ _ E) as Hq.
  exists {| s with p_sys := x |}. unfold on_sys, zoom. rewrite E. split; [done|].
  pose proof Ha as (ex & pe & Hst & _). unfold p_state. cbn [p_sys].
  split_and!; [| |done|by rewrite Hst].
  - split; unfold p_state; cbn [p_sys p_timers p_cur]; [rewrite Hst|done|rewrite Hst|done]; done.
  - split; unfold p_state; cbn [p_sys]; [rewrite Hst|..]; try done. cbn. by rewrite Hst.
Qed.

(** ** The coroutines *)

Lemma good_piece {A X} pre Ga (Q : A → Proc → Prop) (m : M Proc X) k s b s' :
  m s = (Ok b, s') → Gquiet None s s' → good Inv pre Ga Q Gquiet (k b) s' s' →
  good Inv pre Ga Q Gquiet (PDo m k) s s.
Proof.
  intros Em Hq Hk. exists b, s'. split; [done|]. eapply good_weaken; [done| |exact Hk].
  intros w s2. by apply Gquiet_trans.
Qed.

Lemma good_assoc {A X Y} pre Ga (Q : A → Proc → Prop) G0 (p : prog Proc act X) (f : X → prog Proc act Y) g s0 s :
  good Inv pre Ga Q G0 (p ≫= λ x, f x ≫= g) s0 s → good Inv pre Ga Q G0 ((p ≫= f) ≫= g) s0 s.
Proof.
  revert G0 s0 s. induction p as [x|Z m k IH|R n e k IH]; intros G0 s0 s; [done|..].
  - intros (b & s1 & Em & Hk). exists b, s1. split; [done|]. by apply IH.
  - intros (? & ? & ? & Hk). split_and!; [done..|]. intros r s1 Hi Hp. by apply IH, Hk.
Qed.

(** A flush, before whatever the handler goes on with. *)
Lemma good_flush {A} (Q : A → Proc → Prop) (f : error + unit → prog Proc act A) s :
  Inv s → (∀ x s1, Inv s1 → good Inv pre_main Gmain Q Gquiet (f x) s1 s1) →
  good Inv pre_main Gmain Q Gquiet (flushBatch_co ≫= f) s s.
Proof.
  intros Hi Hf. destruct (decide (CurBatch (p_state s) = [])) as [He|Hne].
  { eapply good_piece; [by apply flush_begin_empty|by apply Gquiet_refl|]. by apply Hf. }
  destruct (flush_begin_full s Hne) as (ids & Eb & Hn).
  eexists _, _. split; [exact Eb|]. split_and!; [by apply bump_p_quiet|by apply bump_p_inv|by split; [|exists ids]|].
  intros [e|result] s1 H1 [Hne1 _]; [by apply Hf|].
  destruct (apply_result_p result s1 H1) as (s2 & Ea & H2 & Hs & Happ & Hemp).
  eexists _, _. split; [exact Ea|]. eexists _, _. split; [done|]. split_and!; [|done..|].
  { split; [|done]. by destruct Hs. }
  intros [e|bal] s3 H3 Hb3; [by apply Hf|].
  eapply good_piece; [done|by apply Gquiet_refl|]. split_and!; [by apply Gquiet_refl|done..|].
  intros r4 s4 H4 Hb4. eapply good_piece; [done|by apply Gquiet_refl|]. split_and!; [by apply Gquiet_refl|done..|].
  intros r5 s5 H5 Hb5. by apply Hf.
Qed.

(** The end of a turn: cancellation, Continue-As-New or the next [Select]. *)
Definition rest (suggested : bool) (_ : unit) : prog Proc act next :=
  canceled ← here (gets p_canceled);
  if (canceled : bool) then _ ← here cancelTimer; mret NEnded
  else if suggested then input ← continue_as_new_co; mret (NRestart input)
  else fut ← here (gets p_cur); mret (NSelect fut).

Lemma good_rest suggested s : Inv s → good_main Gquiet (rest suggested tt) s s.
Proof.
  intros Hi. eapply good_piece; [done|by apply Gquiet_refl|]. destruct (cancelTimer_quiet s Hi) as (s1 & E1 & H1 & Q1 & _).
  destruct (p_canceled s).
  { eapply good_piece; [exact E1|done|]. split_and!; [by apply Gquiet_refl|done..]. }
  destruct suggested.
  - eapply good_piece; [exact E1|done|].
    apply (good_assoc _ _ _ _ flushBatch_co). apply good_flush; [done|]. intros x s2 H2.
    eapply good_piece; [done|by apply Gquiet_refl|]. split_and!; [by apply Gquiet_refl|done..].
  - eapply good_piece; [done|by apply Gquiet_refl|]. split_and!; [by apply Gquiet_refl|done..].
Qed.

Lemma good_rearm suggested s :
  Inv s → good_main Gquiet (here newTimer ≫= rest suggested) s s.
Proof.
  intros Hi. destruct (newTimer_quiet s Hi) as (s1 & E1 & H1 & Q1).
  eapply good_piece; [exact E1|done|]. by apply good_rest.
Qed.

(** ** What a turn does to the batch *)

(** Was the heartbeat processed before? *)
Definition old_news (st : TenantAccountingState) (sig : HeartbeatSignal) : bool :=
  match ProcessedSeqs st !! hb_ClusterID sig with
  | Some prev => bool_decide (hb_SequenceNumber sig ≤ prev)
  | None => false
  end.

(** The first stretch of a turn, with the heartbeats that it receives. *)
Inductive intake : list HeartbeatSignal → relation TenantAccountingState :=
  | in_quiet st st' : fixed st st' → same_batch st st' → intake [] st st'
  | in_drop sig st st' :
      old_news st sig = true → fixed st st' → same_batch st st' → intake [sig] st st'
  | in_take sig st st' :
      old_news st sig = false → fixed st st' →
      same_batch {| st with CurBatch := CurBatch st ++ [sig] |} st' → intake [sig] st st'
  | in_register sig st st' :
      ProcessedSeqs st !! rg_ClusterID sig = None → fixed st st' →
      same_batch {| st with ProcessedSeqs := <[rg_ClusterID sig := 0]> (ProcessedSeqs st) |} st' →
      intake [] st st'.

Definition Gintake (l : list HeartbeatSignal) (w : wait) s0 s : Prop :=
  seg w s0 s ∧ intake l (p_state s0) (p_state s).

Lemma intake_quiet l st1 st2 st3 :
  intake l st1 st2 → fixed st2 st3 → same_batch st2 st3 → intake l st1 st3.
Proof.
  intros Hm Hf Hb.
  destruct Hm; [apply in_quiet|eapply in_drop|eapply in_take|eapply in_register]; (done || by etrans).
Qed.

Lemma Gintake_quiet l w s0 s1 s2 : Gintake l None s0 s1 → Gquiet w s1 s2 → Gintake l w s0 s2.
Proof.
  intros [[F1 T1 C1 W1 N1] I1] [[F2 T2 C2 W2 N2] B2]. split; [|by eapply intake_quiet].
  split; [by etrans..|congruence|by etrans|]. cbn in N1. by rewrite N1 in N2.
Qed.

(** A first piece that takes something in, then a quiet stretch. *)
Lemma good_intake {A X} l (Q : A → Proc → Prop) (m : M Proc X) k s b s' :
  m s = (Ok b, s') → Gintake l None s s' → good Inv pre_main Gmain Q Gquiet (k b) s' s' →
  good Inv pre_main Gmain Q (Gintake l) (PDo m k) s s.
Proof.
  intros Em Hq Hk. exists b, s'. split; [done|]. eapply good_weaken; [done| |exact Hk].
  intros w s2. by apply Gintake_quiet.
Qed.

Lemma take_in_ok sig s :
  Inv s → ∃ full s', on_sys (take_in sig) s = (Ok full, s') ∧ Inv s' ∧ Gintake [sig] None s s'.
Proof.
  intros [A1 A2 A3 A4]. unfold on_sys, zoom, take_in. rewrite bind_cases. cbn [gets].
  change (sys_state (p_sys s)) with (p_state s). fold (old_news (p_state s) sig).
  destruct (old_news (p_state s) sig) eqn:Eo.
  - eexists _, _. split; [done|]. split; [done|]. split; [done|]. by apply in_drop.
  - rewrite (bind_Ok _ _ _ _ _ (update_eq _ _)). eexists _, _. split; [done|].
    split; [done|]. split; [done|]. by apply in_take.
Qed.

Lemma on_register_ok sig s :
  Inv s → ∃ s', on_sys (on_register sig) s = (Ok tt, s') ∧ Inv s' ∧ Gintake [] None s s'.
Proof.
  intros [A1 A2 A3 A4]. eexists. split; [done|]. unfold p_state in *.
  destruct (ProcessedSeqs (sys_state (p_sys s)) !! rg_ClusterID sig) eqn:Ep.
  - split; [split|split; [split|]]; unfold p_state; cbn; rewrite ?Ep; try done. by apply in_quiet.
  - split; [split|split; [split|]]; unfold p_state; cbn; rewrite ?Ep; try done. by eapply in_register.
Qed.

Lemma good_heartbeat sig suggested s :
  Inv s → good_main (Gintake [sig]) (turn (on_heartbeat_co sig) suggested) s s.
Proof.
  intros Hi. destruct (take_in_ok sig s Hi) as (full & s1 & E1 & H1 & Q1).
  eapply good_intake; [exact E1|exact Q1|]. destruct full; [|by apply good_rest].
  destruct (cancelTimer_quiet s1 H1) as (s2 & E2 & H2 & Q2 & _).
  eapply good_piece; [exact E2|exact Q2|].
  apply (good_assoc _ _ _ _ flushBatch_co). apply good_flush; [done|]. intros x s3 H3.
  destruct (base_interval_quiet s3 H3) as (s4 & E4 & H4 & Q4).
  eapply good_piece; [exact E4|exact Q4|]. by apply good_rearm.
Qed.

Lemma good_register sig suggested s :
  Inv s → good_main (Gintake []) (turn (on_register_co sig) suggested) s s.
Proof.
  intros Hi. destruct (on_register_ok sig s Hi) as (s1 & E1 & H1 & Q1).
  eapply good_intake; [exact E1|exact Q1|]. by apply good_rest.
Qed.

Lemma good_timer suggested s : Inv s → good_main (Gintake []) (turn on_timer_co suggested) s s.
Proof.
  intros Hi. eapply good_intake; [done| |].
  { split; [by apply Gquiet_refl|]. by apply in_quiet. }
  apply (good_assoc _ _ _ _ flushBatch_co). apply good_flush; [done|]. intros x s3 H3.
  destruct (adapt_interval_quiet (bool_decide (0 < length (CurBatch (p_state s)))%nat) s3 H3) as (s4 & E4 & H4 & Q4).
  eapply good_piece; [exact E4|exact Q4|]. by apply good_rearm.
Qed.

Lemma clear_flag_quiet r s :
  Inv s → ∃ s', on_sys (update (λ st, {| st with ExceededResources := delete r (ExceededResources st) |})) s =
    (Ok tt, s') ∧ Inv s' ∧ Gquiet None s s'.
Proof. intros [A1 A2 A3 A4]. eexists. split; [done|]. by split; [|split; [split|]]. Qed.

(** Between two waits of an update. *)
Lemma good_wait {A R} (p : error + R → prog Proc act A) n (a : act R) (Q : A → Proc → Prop) s0 s :
  is_request (existT _ a) = false → pre_credit _ a s → Inv s → Gquiet None s0 s →
  (∀ r s1, Inv s1 → good Inv pre_credit Gcredit Q (Gcredit _ a r) (p r) s1 s1) →
  good Inv pre_credit Gcredit Q Gresume (PAct n a p) s0 s.
Proof.
  intros Hr Hp Hi Hq Hk. split; [|by split_and!; [..|intros; apply Hk]]. split; [|by split].
  eapply Gquiet_trans; [exact Hq|]. by apply Gquiet_refl.
Qed.

Lemma good_credit_end {A} (x : A) s :
  Inv s → good Inv pre_credit Gcredit (λ _ _, True) Gresume
    (_ ← here base_interval; _ ← here newTimer; mret x) s s.
Proof.
  intros Hi. destruct (base_interval_quiet s Hi) as (s1 & E1 & H1 & Q1).
  destruct (newTimer_quiet s1 H1) as (s2 & E2 & H2 & Q2).
  exists tt, s1. split; [exact E1|]. exists tt, s2. split; [exact E2|].
  split; [|done]. split; [by eapply Gquiet_trans|]. split; [|done]. intros _.
  unfold base_interval, on_sys, zoom in E1. injection E1 as <-. by injection E2 as <-.
Qed.

Lemma good_credit_update sig s :
  Inv s → validate_credit (p_state s) sig = Ok tt → good_credit Gbegin (on_credit_co sig) s s.
Proof.
  intros Hi Hv. destruct (cancelTimer_quiet s Hi) as (s1 & E1 & H1 & Q1 & Hst).
  destruct (adjust_begin_ok s1 sig H1) as (input & E2 & Hn).
  { rewrite Hst. unfold validate_credit in Hv. case_decide; [done|]. by destruct (AccountMap (p_state s) !! _). }
  eexists _, _. split; [exact E1|]. eexists _, _. split; [exact E2|].
  split; [|split_and!; [by apply bump_p_inv|done|]].
  { split; [|split_and!; [done|by injection E1 as <-..]]. eapply Gquiet_trans; [exact Q1|]. by apply bump_p_quiet. }
  intros [e|[]] s3 H3 _; [by apply good_credit_end|].
  destruct (clear_flag_quiet (qa_ResourceType sig) s3 H3) as (s4 & E4 & H4 & Q4).
  eexists _, _. split; [exact E4|]. eexists _, _. split; [done|].
  eapply good_wait; [done..|]. intros [e|bal] s5 H5; [by apply good_credit_end|].
  eexists _, _. split; [done|]. eapply good_wait; [done..|by apply Gquiet_refl|]. intros r6 s6 H6.
  eexists _, _. split; [done|]. eapply good_wait; [done..|by apply Gquiet_refl|]. intros r7 s7 H7.
  by apply good_credit_end.
Qed.
End props.
