(* ===== verification/InterleavingClaims.v ===== *)
(** * What holds of every interleaving of the accounting workflow

    The main loop and any number of credit updates run as coroutines; attempts of
    activities are lost and take effect late, timers fire or are cancelled, the run
    is cancelled or continues as new, and other parties act on the world. *)

From S2P Require Import Prelude Domain TigerBeetle TBRef Ids Transfers Accounts LedgerProps.
From S2P Require Import World ActivitiesTB ActivitiesTBProps ActivitiesPG Coroutines AccountingWorkflow.
From S2P Require Import AccountingProps LoopProps Meter Interleaving InterleavingProps.
From S2P Require Postgres.
Import Postgres(PGServer).

Section claims.
Context `{TL : TigerBeetleLaws} `{B : Blake3} `{G : GoRange} `{P : PGServer} `{U : UUIDPkg}.
Context (env : relation World).
Implicit Types (s : Proc) (c : Conf).

Abbreviation main_ok := (thread_ok Inv pre_main Gmain Qnext).
Abbreviation credit_ok := (thread_ok Inv pre_credit Gcredit (λ _ _, True)).

(** ** One coroutine *)

Lemma stretch_ok {A} pre Ga (Q : A → Proc → Prop) G0 (p : prog Proc act A) s t s' :
  good Inv pre Ga Q G0 p s s → run p s = (Ok t, s') →
  G0 (waits_for t) s s' ∧ Inv s' ∧ thread_ok Inv pre Ga Q t s'.
Proof. intros (t0 & s0 & E & HG & HI & Ht)%good_run Hr. rewrite E in Hr. injection Hr as <- <-. done. Qed.

(** A change of the world alone. *)
Lemma Inv_world w s : Inv s → Inv (set_world w s).
Proof. by intros []. Qed.

(** The two kinds of step: the coroutine runs, or something happens to its activity. *)
Inductive stepped {A} (pre : ∀ R, act R → Proc → Prop) Ga (Q : A → Proc → Prop)
    (t : thread Proc act A) s (t' : thread Proc act A) s' (os : list {R : Type & act R}) : Prop :=
  | stepped_run R (a : act R) r k :
      t = Ready a r k → pre _ a s → Ga _ a r (waits_for t') s s' → os = [] →
      stepped pre Ga Q t s t' s' os
  | stepped_act R n (a : act R) k w :
      t = Blocked n a k → ((∃ n', t' = Blocked n' a k) ∨ (∃ r, t' = Ready a r k)) → s' = set_world w s →
      (∀ x, x ∈ os → x = existT _ a) → (w = p_world s ∨ ∃ o, exec a (p_world s) = (o, w)) →
      stepped pre Ga Q t s t' s' os.

Lemma set_world_self s : set_world (p_world s) s = s.
Proof. by destruct s as [[]]. Qed.

Lemma thread_step_ok {A} pre Ga (Q : A → Proc → Prop) t s t' s' os :
  (∀ R (a : act R) w s, pre R a s → pre R a (set_world w s)) →
  Inv s → thread_ok Inv pre Ga Q t s → thread_step t s t' s' os →
  Inv s' ∧ thread_ok Inv pre Ga Q t' s' ∧ stepped pre Ga Q t s t' s' os.
Proof.
  intros Hstable Hi Hok Hstep. destruct t as [a|R n a k|R a r k]; cbn [thread_step] in Hstep; [done|..].
  - destruct Hok as [Hp Hk]. destruct Hstep as [(n' & -> & -> & -> & ->)|[(n' & r & w & -> & E & -> & -> & ->)|(e & -> & -> & ->)]].
    + split_and!; [done|by split|]. eapply (stepped_act _ _ _ _ _ _ _ _ _ _ _ _ (p_world s)); [done|by eauto|by rewrite set_world_self| |by left].
      by intros x ->%list_elem_of_singleton.
    + split_and!; [by apply Inv_world|by split; [apply Hstable|auto]|].
      eapply (stepped_act _ _ _ _ _ _ _ _ _ _ _ _ w); [done|by eauto|done|by intros x ?%elem_of_nil|by eauto].
    + split_and!; [done|by split; [|auto]|].
      eapply (stepped_act _ _ _ _ _ _ _ _ _ _ _ _ (p_world s)); [done|by eauto|by rewrite set_world_self| |by left].
      by intros x ->%list_elem_of_singleton.
  - destruct Hok as [Hp Hk], Hstep as [Hr ->].
    destruct (stretch_ok _ _ _ _ _ _ _ _ (Hk s Hi Hp) Hr) as (HG & HI & Ht). split_and!; [done..|].
    by eapply stepped_run.
Qed.

(** ** The invariant of all configurations *)

Definition is_finished {A} (t : thread Proc act A) : bool :=
  match t with Finished _ => true | _ => false end.

Record conf_ok c : Prop := {
  co_inv : Inv (c_proc c);
  co_main : match c_main c with
            | AtSelect fut => (fut < length (p_timers (c_proc c)))%nat
            | InTurn t => main_ok t (c_proc c) ∧ is_finished t = false
            | Ended => True
            end;
  co_updates : Forall (λ t, credit_ok t (c_proc c)) (c_updates c);
}.

(** What the rest of the configuration may do under a coroutine. *)
Definition undisturbed s s' : Prop :=
  fixed (p_state s) (p_state s') ∧ same_batch (p_state s) (p_state s') ∧ timers_le (p_timers s) (p_timers s').

Lemma pre_main_stable R (a : act R) s s' : undisturbed s s' → pre_main R a s → pre_main R a s'.
Proof.
  intros ((F1 & F2 & F3 & F4 & F5) & (B1 & B2 & B3 & B4) & _).
  destruct a; cbn; rewrite ?B1; try done. intros [Hne (ids & ->)]. split; [done|]. exists ids.
  unfold batch_input. by rewrite F1, F2, F3, F4, F5, B1, B4.
Qed.

Lemma credit_ok_any {A} (t : thread Proc act A) s s' : credit_ok t s → credit_ok t s'.
Proof. by destruct t as [a|R n a k|R a r k]. Qed.

Lemma main_stable c s' :
  undisturbed (c_proc c) s' → conf_ok c →
  match c_main c with
  | AtSelect fut => (fut < length (p_timers s'))%nat
  | InTurn t => main_ok t s' ∧ is_finished t = false
  | Ended => True
  end.
Proof.
  intros Hu [_ Hm _]. destruct (c_main c) as [fut|t|]; [|destruct Hm as [Hm Hf]; split; [|done]|done].
  - destruct Hu as (_ & _ & Ht%timers_le_length). lia.
  - destruct t as [a|R n a k|R a r k]; [done|..]; destruct Hm as [Hp Hk]; (split; [|done]); by eapply pre_main_stable.
Qed.

Lemma updates_stable s s' (ts : list (thread Proc act (error + IssueCreditResult))) :
  Forall (λ t, credit_ok t s) ts → Forall (λ t, credit_ok t s') ts.
Proof. apply Forall_impl. intros t. apply credit_ok_any. Qed.

(** The environment: the world changes, timers fire or are cancelled. *)
Lemma conf_ok_env c s' :
  Inv s' → undisturbed (c_proc c) s' → conf_ok c → conf_ok {| c with c_proc := s' |}.
Proof.
  intros Hi Hu Hok. split; [done|exact (main_stable c s' Hu Hok)|]. exact (updates_stable _ _ _ (co_updates _ Hok)).
Qed.

Lemma Gquiet_undisturbed w s s' : Gquiet w s s' → undisturbed s s'.
Proof. intros [[F T C W N] Sb]. unfold undisturbed. by split_and!. Qed.

Lemma boot_inv input w :
  (∀ r, is_Some (in_AccountMap input !! r) → r ∈ AllResources) → Inv (boot input w).
Proof.
  intros Hr. split; [exact Hr|apply Nat.lt_0_succ|done|].
  by constructor.
Qed.

Lemma settle_ok t c :
  Inv (c_proc c) → main_ok t (c_proc c) → Forall (λ t, credit_ok t (c_proc c)) (c_updates c) →
  conf_ok (settle t c).
Proof.
  intros Hi Ht Hu. destruct t as [[fut|input|]|R n a k|R a r k]; cbn [settle].
  - cbn in Ht. subst fut. split; [done|by apply iv_cur|done].
  - cbn in Ht. subst input. split; [|apply Nat.lt_0_succ|constructor]. apply boot_inv. apply (iv_accounts _ Hi).
  - by split.
  - by split.
  - by split.
Qed.

(** ** Steps *)

(** What a step does to the state of the workflow: a stretch that takes in what
    arrives, or one that applies a batch; then possibly the start of a fresh run. *)
Definition counts_up (st st' : TenantAccountingState) : Prop :=
  FlushSeqNo st' = FlushSeqNo st ∨ FlushSeqNo st' = u64 (FlushSeqNo st + 1).
Definition moved (l : list HeartbeatSignal) (st st' : TenantAccountingState) : Prop :=
  ∃ st1, counts_up st st1 ∧ (intake l st st1 ∨ l = [] ∧ CurBatch st ≠ [] ∧ ∃ result, applied result st st1) ∧
    (st' = st1 ∨ st' = initial_state (carry st1)).

Lemma settle_state t c :
  main_ok t (c_proc c) →
  p_state (c_proc (settle t c)) = p_state (c_proc c) ∨
  p_state (c_proc (settle t c)) = initial_state (carry (p_state (c_proc c))).
Proof.
  intros Ht. destruct t as [[fut|input|]|R n a k|R a r k]; cbn [settle]; try by left.
  cbn in Ht. subst input. by right.
Qed.

Lemma seg_counts w s s' : seg w s s' → counts_up (p_state s) (p_state s').
Proof.
  intros [_ _ _ _ Hn]. unfold counts_up. destruct (from_option is_request false w); [right|by left]. apply Hn.
Qed.

Lemma turn_step_ok l (p : prog Proc act next) c t s :
  conf_ok c → good Inv pre_main Gmain Qnext (Gintake l) p (c_proc c) (c_proc c) → run p (c_proc c) = (Ok t, s) →
  conf_ok (settle t {| c with c_proc := s |}) ∧
  moved l (p_state (c_proc c)) (p_state (c_proc (settle t {| c with c_proc := s |}))).
Proof.
  intros Hok Hg Hr. destruct (stretch_ok _ _ _ _ _ _ _ _ Hg Hr) as ([Hs Hin] & Hi & Ht). split.
  - apply settle_ok; [done..|]. exact (updates_stable _ _ _ (co_updates _ Hok)).
  - exists (p_state s). split_and!; [by eapply seg_counts|by left|].
    by apply (settle_state t {| c with c_proc := s |}).
Qed.

Lemma Gmain_moved R (a : act R) r w s s' :
  pre_main R a s → Gmain R a r w s s' →
  seg w s s' ∧ (intake [] (p_state s) (p_state s') ∨
                CurBatch (p_state s) ≠ [] ∧ ∃ result, applied result (p_state s) (p_state s')).
Proof.
  assert (Gquiet w s s' → seg w s s' ∧ (intake [] (p_state s) (p_state s') ∨
    CurBatch (p_state s) ≠ [] ∧ ∃ result, applied result (p_state s) (p_state s'))) as Hq.
  { intros [Hs Hb]. split; [done|]. left. apply in_quiet; [apply Hs|done]. }
  destruct a; cbn [pre_main Gmain]; auto. destruct r as [e|result]; [by auto|].
  intros [Hne _] [Hs Ha]. eauto.
Qed.

Lemma moved_quiet s s' :
  counts_up (p_state s) (p_state s') → fixed (p_state s) (p_state s') → same_batch (p_state s) (p_state s') →
  moved [] (p_state s) (p_state s').
Proof. intros Hc Hf Hb. eexists. split_and!; [done|left; by apply in_quiet|by left]. Qed.

Lemma moved_same s s' : p_state s' = p_state s → moved [] (p_state s) (p_state s').
Proof. intros E. apply moved_quiet; rewrite E; [by left|done|done]. Qed.

Lemma main_step_ok c t t' s os :
  conf_ok c → c_main c = InTurn t → thread_step t (c_proc c) t' s os →
  let c' := settle t' {| c with c_proc := s; c_orphans := c_orphans c ++ os |} in
  conf_ok c' ∧ moved [] (p_state (c_proc c)) (p_state (c_proc c')).
Proof.
  intros Hok Em Hstep. pose proof (co_main _ Hok) as Hm. rewrite Em in Hm. destruct Hm as [Hm _].
  destruct (thread_step_ok pre_main _ _ _ _ _ _ _ (λ R a w s, pre_main_stable R a s (set_world w s)
    (conj (reflexivity _) (conj (reflexivity _) (reflexivity _)))) (co_inv _ Hok) Hm Hstep) as (Hi & Ht & Hs).
  cbv zeta. split.
  - apply settle_ok; [done..|]. exact (updates_stable _ _ _ (co_updates _ Hok)).
  - exists (p_state s). apply and_assoc. split; [|by apply (settle_state t' {| c with c_proc := s; c_orphans := _ |})].
    destruct Hs as [R a r k -> Hp HG ->|R n a k w -> _ -> _ _].
    + destruct (Gmain_moved _ _ _ _ _ _ Hp HG) as [Hsg [Hin|[Hne Ha]]]; eauto 6 using seg_counts.
    + split; [by left|]. left. by apply in_quiet.
Qed.

Lemma conf_ok_updates c s ts os :
  conf_ok c → Inv s → undisturbed (c_proc c) s → Forall (λ t, credit_ok t s) ts →
  conf_ok {| c_proc := s; c_main := c_main c; c_updates := ts; c_orphans := os |}.
Proof. intros Hok Hi Hu Ht. split; [done|exact (main_stable c s Hu Hok)|done]. Qed.

Lemma update_step_ok i c t t' s os :
  conf_ok c → c_updates c !! i = Some t → thread_step t (c_proc c) t' s os →
  Inv s ∧ undisturbed (c_proc c) s ∧ Forall (λ t, credit_ok t s) (<[i := t']> (c_updates c)) ∧
  stepped pre_credit Gcredit (λ _ _, True) t (c_proc c) t' s os.
Proof.
  intros Hok Ei Hstep. pose proof (co_updates _ Hok) as Hu.
  destruct (thread_step_ok pre_credit Gcredit (λ _ _, True) _ _ _ _ _ (λ R a w s Hp, Hp) (co_inv _ Hok)
    (proj1 (Forall_lookup _ _) Hu _ _ Ei) Hstep) as (Hi & Ht & Hs).
  split_and!; [done| |apply Forall_insert; [exact (updates_stable _ _ _ Hu)|done]|done].
  destruct Hs as [R a r k -> Hp [HG _] ->|R n a k w -> _ -> _ _]; [by eapply Gquiet_undisturbed|done].
Qed.

(** Every step keeps the invariant. *)
Lemma conf_step_ok l c c' :
  conf_ok c → conf_step env l c c' →
  conf_ok c' ∧ moved l (p_state (c_proc c)) (p_state (c_proc c')).
Proof.
  intros Hok Hstep. pose proof (co_inv _ Hok) as Hi.
  destruct Hstep as [sig sg fut c t s Em Er|sig sg fut c t s Em Er|sg fut c t s Em _ Er|c t t' s os Em Et
    |sig c t s _ Hv Er|i c t t' s os Ei Et|i t c Ei Es|c|a o w c _ _|w c _].
  - by eapply turn_step_ok; [|apply good_heartbeat|].
  - by eapply turn_step_ok; [|apply good_register|].
  - by eapply turn_step_ok; [|apply good_timer|].
  - by apply (main_step_ok c t).
  - destruct (stretch_ok _ _ _ _ _ _ _ _ (good_credit_update _ _ Hi Hv) Er) as ([HG _] & Hi' & Ht).
    pose proof (Gquiet_undisturbed _ _ _ HG) as Hu.
    split; [|apply moved_quiet; [eapply seg_counts, HG|apply Hu..]].
    apply conf_ok_updates; [done..|]. apply Forall_app. split; [|by constructor].
    exact (updates_stable _ _ _ (co_updates _ Hok)).
  - destruct (update_step_ok _ _ _ _ _ _ Hok Ei Et) as (Hi' & Hu & Hts & Hst).
    split; [by apply conf_ok_updates|]. apply moved_quiet; [|apply Hu..].
    destruct Hst as [R a r k -> Hp [[HG _] _] ->|R n a k w -> _ -> _ _]; [by eapply seg_counts|by left].
  - split; [|by apply moved_same]. apply conf_ok_env; [|split_and!; [done..|]|done].
    + destruct Hi as [A1 A2 A3 A4]. split; cbn; [done|by rewrite length_insert|done|].
      apply Forall_insert; [done|]. cbn. exact (proj1 (Forall_lookup _ _) A4 _ _ Ei).
    + intros j t' Hj. cbn. destruct (decide (j = i)) as [->|Hne].
      * rewrite Ei in Hj. injection Hj as <-. eexists. rewrite list_lookup_insert_eq by by eapply lookup_lt_Some.
        split_and!; [done..|]. by rewrite Es.
      * exists t'. by rewrite list_lookup_insert_ne.
  - split; [|by apply moved_same]. apply conf_ok_env; [|split_and!; [done..|apply timers_le_fmap]|done].
    destruct Hi as [A1 A2 A3 A4]. split; cbn; [done|by rewrite length_fmap|done|].
    apply Forall_fmap. revert A4. apply Forall_impl. intros t. cbn. by rewrite (proj1 (stop_timer_le t)).
  - split; [|by apply moved_same]. apply conf_ok_env; [by apply Inv_world|done|done].
  - split; [|by apply moved_same]. apply conf_ok_env; [by apply Inv_world|done|done].
Qed.

Definition known_input (input : TenantAccountingInput) : Prop :=
  ∀ r, is_Some (in_AccountMap input !! r) → r ∈ AllResources.

Lemma initial_ok input w : known_input input → conf_ok (initial input w).
Proof. intros Hk. split; [by apply boot_inv|apply Nat.lt_0_succ|constructor]. Qed.

Lemma conf_run_ok n l c c' : conf_ok c → conf_run env n l c c' → conf_ok c'.
Proof. intros Hok Hrun. induction Hrun; [done|]. by eapply conf_step_ok; [apply IHHrun|]. Qed.

(** ** Refinement of the meter *)







(** ** The batch in flight *)

(** The batch that a coroutine has submitted and not yet applied. *)
Definition batch_in_flight {A} (t : thread Proc act A) : option TBBatchInput :=
  match t with
  | Blocked _ a _ | Ready a _ _ => match a with ASubmitTBBatch input => Some input | _ => None end
  | Finished _ => None
  end.

(** C6: a batch is applied to exactly the heartbeats that were submitted, whatever
    credit updates and other events happen while it is in flight. In every reachable
    configuration the batch that the loop waits for has the heartbeats, the accounts
    and the gauge reservations of the present state, it is not empty, and no credit
    update has a batch in flight; and when its result arrives and the loop goes on,
    that result is applied to that state. *)
Theorem batch_in_flight_is_applied : ∀ input w n l c t,
  known_input input → conf_run env n l (initial input w) c → c_main c = InTurn t →
  (∀ b, batch_in_flight t = Some b →
    CurBatch (p_state (c_proc c)) ≠ [] ∧ ∃ ids, b = batch_input (p_state (c_proc c)) ids) ∧
  (∀ i u, c_updates c !! i = Some u → batch_in_flight u = None) ∧
  (∀ b result k t' s', t = Ready (ASubmitTBBatch b) (inr result) k → run (k (inr result)) (c_proc c) = (Ok t', s') →
    applied result (p_state (c_proc c)) (p_state s')).
Proof.
  intros input w n l c t Hk Hrun Em. pose proof (conf_run_ok _ _ _ _ (initial_ok _ _ Hk) Hrun) as [Hi Hm Hu].
  rewrite Em in Hm. destruct Hm as [Hm _]. split_and!.
  - intros b Hb. destruct t as [|R m a k|R a r k]; [done|..]; destruct Hm as [Hp _]; destruct a; by simplify_eq/=.
  - intros i u Hiu. pose proof (proj1 (Forall_lookup _ _) Hu _ _ Hiu) as Ht.
    destruct u as [|R m a k|R a r k]; [done|..]; destruct Ht as [Hp _]; by destruct a.
  - intros b result k t' s' -> Hr. destruct Hm as [Hp Hg].
    by destruct (stretch_ok _ _ _ _ _ _ _ _ (Hg _ Hi Hp) Hr) as ([_ Ha] & _).
Qed.

(** ** Timers *)

(** C17: the timer that a credit update arms is not the one that the loop waits for.
    When an update arrives while the loop waits for its current timer, the timer is
    cancelled and with that the timer case becomes ready: the loop flushes at once,
    next to the credit. When an update ends while the loop waits at a [Select], it
    arms a timer of the base interval that the loop does not wait for: the loop goes
    on waiting for the timer it was built with, however long that one runs. *)
Theorem credit_timer_is_not_awaited : ∀ input w n l c fut,
  known_input input → conf_run env n l (initial input w) c → c_main c = AtSelect fut →
  (∀ sig t s, fut = p_cur (c_proc c) → validate_credit (p_state (c_proc c)) sig = Ok tt →
     run (on_credit_co sig) (c_proc c) = (Ok t, s) → timer_ready s fut) ∧
  (∀ i R (a : act R) r k x s, c_updates c !! i = Some (Ready a r k) →
     run (k r) (c_proc c) = (Ok (Finished x), s) → p_canceled (c_proc c) = false →
     p_timers s !! p_cur s = Some {| tm_duration := baseFlushInterval; tm_status := Running |} ∧
     p_cur s ≠ fut ∧ p_timers s !! fut = p_timers (c_proc c) !! fut).
Proof.
  intros input w n l c fut Hk Hrun Em. pose proof (conf_run_ok _ _ _ _ (initial_ok _ _ Hk) Hrun) as [Hi Hm Hu].
  rewrite Em in Hm. split.
  - intros sig t s -> Hv Hr.
    destruct (stretch_ok _ _ _ _ _ _ _ _ (good_credit_update _ _ Hi Hv) Hr) as ((_ & _ & Hc & Ht) & _).
    destruct (lookup_lt_is_Some_2 _ _ Hm) as [tm Htm]. exists (stop_timer tm).
    rewrite Ht, list_lookup_alter_eq, Htm. split; [done|]. unfold stop_timer. by destruct (tm_status tm) eqn:E; rewrite ?E.
  - intros i R a r k x s Hiu Hr Hc. destruct (proj1 (Forall_lookup _ _) Hu _ _ Hiu) as [Hp Hg].
    destruct (stretch_ok _ _ _ _ _ _ _ _ (Hg _ Hi Hp) Hr) as ((_ & Hre & _) & _).
    destruct (Hre eq_refl) as [Ecur Ets]. rewrite Hc in Ets. rewrite Ecur, Ets. split_and!; [|lia|].
    + by rewrite lookup_app_r, Nat.sub_diag by lia.
    + by rewrite lookup_app_l by lia.
Qed.
End claims.
