(* ===== verification/InterleavingNumbers.v ===== *)
(** * Numbers, progress and termination of the interleaved workflow

    No two requests in flight use the same flush number; the loop never gets stuck
    and every turn of it ends. *)

From S2P Require Import Prelude Domain TigerBeetle TBRef Ids Transfers Accounts LedgerProps.
From S2P Require Import World ActivitiesTB ActivitiesTBProps ActivitiesPG Coroutines AccountingWorkflow.
From S2P Require Import AccountingProps LoopProps Meter Interleaving InterleavingProps InterleavingClaims.
From S2P Require Postgres.
Import Postgres(PGServer).

Section claims.
Context `{TL : TigerBeetleLaws} `{B : Blake3} `{G : GoRange} `{P : PGServer} `{U : UUIDPkg}.
Context (env : relation World).
Implicit Types (s : Proc) (c : Conf).

Abbreviation main_ok := (thread_ok Inv pre_main Gmain Qnext).

(** ** Numbers *)

Definition thread_numbered {A} (t : thread Proc act A) (n : Z) : Prop :=
  match t with
  | Blocked _ a _ | Ready a _ _ => numbered (existT _ a) n
  | Finished _ => True
  end.
Definition main_numbered (m : main) (n : Z) : Prop :=
  match m with InTurn t => thread_numbered t n | _ => True end.

Abbreviation flush_no c := (FlushSeqNo (p_state (c_proc c))).

(** The coroutines own different numbers, all of them given out already; so are the
    numbers of the attempts left behind. *)
Record numbers_ok c (nm : Z) (nums : list Z) : Prop := {
  no_distinct : NoDup (nm :: nums);
  no_given : Forall (λ n, n ≤ flush_no c) (nm :: nums);
  no_main : main_numbered (c_main c) nm;
  no_updates : Forall2 thread_numbered (c_updates c) nums;
  no_orphans : Forall (λ a, ∃ n, n ≤ flush_no c ∧ numbered a n) (c_orphans c);
}.

Lemma run_numbered {A} (p : prog Proc act A) w s s0 t s' :
  run p s = (Ok t, s') → seg w s0 s' → w = waits_for t →
  0 ≤ FlushSeqNo (p_state s0) → FlushSeqNo (p_state s0) + 1 < 2 ^ 64 →
  FlushSeqNo (p_state s') = FlushSeqNo (p_state s0) + 1 ∧ thread_numbered t (FlushSeqNo (p_state s')) ∨
  FlushSeqNo (p_state s') = FlushSeqNo (p_state s0) ∧ ∀ n, thread_numbered t n.
Proof.
  intros Hr [_ _ _ _ Hn] -> H0 H1. revert s Hr. induction p as [a|X m k IH|R n a k _]; intros s Hr; cbn [run] in Hr.
  - injection Hr as <- <-. by right.
  - apply bind_Ok_inv in Hr as (x & s1 & _ & Hr). by eapply IH.
  - injection Hr as <- <-. cbn in Hn. destruct (is_request (existT R a)) eqn:Er.
    + destruct Hn as [-> Hn]. left. split; [apply u64_id; unfold in_u64; lia|]. by apply Hn.
    + right. split; [done|]. intros n'. cbn. by destruct a.
Qed.

Lemma given_mono (l : list Z) a b : a ≤ b → Forall (λ n, n ≤ a) l → Forall (λ n, n ≤ b) l.
Proof. intros Hab. apply Forall_impl. intros n ?. lia. Qed.

Lemma orphans_mono (l : list {R : Type & act R}) a b :
  a ≤ b → Forall (λ x, ∃ n, n ≤ a ∧ numbered x n) l → Forall (λ x, ∃ n, n ≤ b ∧ numbered x n) l.
Proof. intros Hab. apply Forall_impl. intros x (n & ? & ?). exists n. split; [lia|done]. Qed.

Lemma abandoned_numbered ts nums b :
  Forall2 thread_numbered ts nums → Forall (λ n, n ≤ b) nums →
  Forall (λ x, ∃ n, n ≤ b ∧ numbered x n) (abandoned ts).
Proof.
  induction 1 as [|t n ts nums Ht _ IH]; intros Hb; [constructor|]. inv Hb. cbn.
  apply Forall_app. split; [|by apply IH]. destruct t; [constructor| |constructor]. constructor; [by exists n|done].
Qed.

(** A run that ends: its updates become attempts left behind. *)
Lemma cleared_numbers c s m nm nums :
  FlushSeqNo (p_state s) = flush_no c → numbers_ok c nm nums → main_numbered m nm →
  numbers_ok {| c_proc := s; c_main := m; c_updates := [];
                c_orphans := c_orphans c ++ abandoned (c_updates c) |} nm [].
Proof.
  intros Es [Hnd Hg _ Hu Ho] Hm. inv Hg. split; cbn [c_proc c_main c_updates c_orphans]; rewrite ?Es.
  - apply NoDup_singleton.
  - by constructor.
  - done.
  - constructor.
  - apply Forall_app. split; [done|by eapply abandoned_numbered].
Qed.

(** The main coroutine after a stretch. *)
Lemma settle_numbers t c nm nums :
  numbers_ok {| c with c_main := InTurn t |} nm nums → main_ok t (c_proc c) →
  flush_no (settle t c) = flush_no c ∧ ∃ nums', numbers_ok (settle t c) nm nums'.
Proof.
  intros Hn Hok. pose proof Hn as [Hnd Hg Hm Hu Ho].
  destruct t as [[fut|input|]|R n a k|R a r k]; cbn [settle]; try by split; [|by exists nums].
  - cbn in Hok. subst input. split; [done|]. exists [].
    by refine (cleared_numbers _ _ _ _ nums _ Hn _).
  - split; [done|]. exists []. by refine (cleared_numbers _ _ _ _ nums _ Hn _).
Qed.

(** A coroutine ran: all numbers given out before are smaller than a new one. *)
Lemma fresh_number c nm nums n : numbers_ok c nm nums → flush_no c < n → n ∉ nm :: nums.
Proof. intros Hn Hlt Hin. pose proof (proj1 (list.Forall_forall _ _) (no_given _ _ _ Hn) n Hin) as Hle. cbn in Hle. lia. Qed.

Lemma main_ran_numbers c nm nums (p : prog Proc act next) t s :
  numbers_ok c nm nums → 0 ≤ flush_no c → flush_no c + 1 < 2 ^ 64 →
  run p (c_proc c) = (Ok t, s) → seg (waits_for t) (c_proc c) s → main_ok t s →
  let c' := settle t {| c with c_proc := s |} in
  flush_no c ≤ flush_no c' ≤ flush_no c + 1 ∧ ∃ nm' nums', numbers_ok c' nm' nums'.
Proof.
  intros Hn H0 H1 Hr Hs Hok. cbv zeta. pose proof Hn as [Hnd Hg Hm Hu Ho].
  assert (∃ nm', numbers_ok {| c_proc := s; c_main := InTurn t; c_updates := c_updates c; c_orphans := c_orphans c |}
    nm' nums ∧ flush_no c ≤ FlushSeqNo (p_state s) ≤ flush_no c + 1) as (nm' & Hn' & Hle).
  { destruct (run_numbered p _ _ _ _ _ Hr Hs eq_refl H0 H1) as [[En Ht]|[En Ht]].
    - exists (FlushSeqNo (p_state s)). rewrite En. split; [|lia]. rewrite En in Ht.
      pose proof (fresh_number _ _ _ (flush_no c + 1) Hn ltac:(lia)) as Hf.
      inv Hg. inv Hnd. split; cbn [c_proc c_main c_updates c_orphans]; rewrite ?En; [|..|done| |].
      + constructor; [set_solver|done].
      + constructor; [lia|]. eapply given_mono; [|done]. lia.
      + done.
      + eapply orphans_mono; [|done]. lia.
    - exists nm. split; [|lia]. split; cbn [c_proc c_main c_updates c_orphans]; rewrite ?En; [done..|by apply Ht|done|done]. }
  destruct (settle_numbers t {| c with c_proc := s |} nm' nums Hn' Hok) as [Ef (nums' & Hn'')].
  rewrite Ef. split; [exact Hle|]. eauto.
Qed.

(** Something happens to the activity that a coroutine waits for. *)
Lemma stepped_act_numbered {A} (t t' : thread Proc act A) R (a : act R) n k num os :
  t = Blocked n a k → ((∃ n', t' = Blocked n' a k) ∨ (∃ r, t' = Ready a r k)) →
  thread_numbered t num → (∀ x, x ∈ os → x = existT R a) →
  thread_numbered t' num ∧ is_finished t' = false ∧ ∀ b, num ≤ b → Forall (λ x, ∃ n, n ≤ b ∧ numbered x n) os.
Proof.
  intros -> Ht' Hn Hos. split_and!; [by destruct Ht' as [[? ->]|[? ->]]..|].
  intros b Hb. apply list.Forall_forall. intros x ->%Hos. by exists num.
Qed.

Lemma main_step_numbers c nm nums t t' s os :
  conf_ok c → numbers_ok c nm nums → 0 ≤ flush_no c → flush_no c + 1 < 2 ^ 64 →
  c_main c = InTurn t → thread_step t (c_proc c) t' s os →
  let c' := settle t' {| c with c_proc := s; c_orphans := c_orphans c ++ os |} in
  flush_no c ≤ flush_no c' ≤ flush_no c + 1 ∧ ∃ nm' nums', numbers_ok c' nm' nums'.
Proof.
  intros Hok Hn H0 H1 Em Hstep. pose proof (co_main _ Hok) as Hm. rewrite Em in Hm. destruct Hm as [Hm _].
  destruct (thread_step_ok pre_main _ _ _ _ _ _ _ (λ R a w s, pre_main_stable R a s (set_world w s)
    (conj (reflexivity _) (conj (reflexivity _) (reflexivity _)))) (co_inv _ Hok) Hm Hstep) as (Hi & Ht & Hs).
  destruct Hs as [R a r k -> Hp HG ->|R n a k w Et Ht' -> Hos _].
  - destruct Hstep as [Hr _]. destruct (Gmain_moved _ _ _ _ _ _ Hp HG) as [Hseg _].
    rewrite app_nil_r. exact (main_ran_numbers c nm nums _ _ _ Hn H0 H1 Hr Hseg Ht).
  - pose proof Hn as [Hnd Hg Hmn Hu Ho]. rewrite Em in Hmn. cbn in Hmn.
    destruct (stepped_act_numbered _ _ _ _ _ _ _ _ Et Ht' Hmn Hos) as (Hn' & Hf & Hos').
    destruct (settle_numbers t' {| c with c_proc := set_world w (c_proc c); c_orphans := c_orphans c ++ os |} nm nums)
      as [Ef (nums' & Hn'')]; [|done|].
    + split; [done..|]. apply Forall_app. split; [exact Ho|]. apply Hos'. by inv Hg.
    + cbv zeta. rewrite Ef. split; [|by eauto]. change (flush_no c ≤ flush_no c ≤ flush_no c + 1). lia.
Qed.

(** A coroutine of an update: a new one, or number [i]. *)
Lemma update_ran_numbers c nm nums (p : prog Proc act (error + IssueCreditResult)) t s :
  numbers_ok c nm nums → 0 ≤ flush_no c → flush_no c + 1 < 2 ^ 64 →
  run p (c_proc c) = (Ok t, s) → seg (waits_for t) (c_proc c) s →
  flush_no c ≤ FlushSeqNo (p_state s) ≤ flush_no c + 1 ∧
  (from_option is_request false (waits_for t) = true →
     ∃ nums', numbers_ok {| c with c_proc := s; c_updates := c_updates c ++ [t] |} nm nums') ∧
  (∀ i, from_option is_request false (waits_for t) = false → (i < length (c_updates c))%nat →
     numbers_ok {| c with c_proc := s; c_updates := <[i := t]> (c_updates c) |} nm nums).
Proof.
  intros Hn H0 H1 Hr Hs. pose proof Hn as [Hnd Hg Hm Hu Ho].
  assert (is_finished t = false → is_Some (waits_for t)) as Hw.
  { clear -Hr. revert Hr. generalize (c_proc c). induction p as [x|X m k IH|R n a k _]; intros s0 Hr; cbn [run] in Hr.
    - by injection Hr as <- _.
    - apply bind_Ok_inv in Hr as (x & s1 & _ & Hr). by eapply IH.
    - injection Hr as <- _. by eexists. }
  split; [|split].
  - destruct (run_numbered p _ _ _ _ _ Hr Hs eq_refl H0 H1) as [[En _]|[En _]]; lia.
  - intros Hq. pose proof (sg_number _ _ _ Hs) as Hsn. rewrite Hq in Hsn. destruct Hsn as [En Ha].
    rewrite u64_id in En by (unfold in_u64; lia).
    pose proof (fresh_number _ _ _ (flush_no c + 1) Hn ltac:(lia)) as Hf.
    exists (nums ++ [flush_no c + 1]). split; cbn [c_proc c_main c_updates c_orphans]; rewrite ?En; [| |done| |].
    + rewrite app_comm_cons. apply list.NoDup_app. split_and!; [done| |apply NoDup_singleton].
      intros x Hx ->%list_elem_of_singleton. done.
    + rewrite app_comm_cons. apply Forall_app. split; [eapply given_mono; [|done]; lia|]. constructor; [lia|done].
    + apply Forall2_app; [done|]. constructor; [|done]. rewrite En in Ha. destruct t; cbn in *; [done| |done]. by apply Ha.
    + eapply orphans_mono; [|done]. lia.
  - intros i Hq Hi. pose proof (sg_number _ _ _ Hs) as En. rewrite Hq in En.
    split; cbn [c_proc c_main c_updates c_orphans]; rewrite ?En; [done..| |done].
    destruct (lookup_lt_is_Some_2 (c_updates c) i Hi) as [t0 Et0].
    destruct (Forall2_lookup_l _ _ _ _ _ Hu Et0) as (n0 & En0 & _).
    rewrite <- (list_insert_id nums i n0 En0). apply Forall2_insert; [done|].
    destruct t as [x|R n a k|R a r k]; [done| |by destruct Hw]. cbn in *. by destruct a.
Qed.

Lemma conf_step_numbers l c c' nm nums :
  conf_ok c → conf_step env l c c' → numbers_ok c nm nums → 0 ≤ flush_no c → flush_no c + 1 < 2 ^ 64 →
  flush_no c ≤ flush_no c' ≤ flush_no c + 1 ∧ ∃ nm' nums', numbers_ok c' nm' nums'.
Proof.
  intros Hok Hstep Hn H0 H1. pose proof (co_inv _ Hok) as Hi.
  assert (∀ p l t s, good Inv pre_main Gmain Qnext (Gintake l) p (c_proc c) (c_proc c) → run p (c_proc c) = (Ok t, s) →
    flush_no c ≤ flush_no (settle t {| c with c_proc := s |}) ≤ flush_no c + 1 ∧
    ∃ nm' nums', numbers_ok (settle t {| c with c_proc := s |}) nm' nums') as Hturn.
  { intros p l0 t s Hg Hr. destruct (stretch_ok _ _ _ _ _ _ _ _ Hg Hr) as ([Hs _] & _ & Ht).
    by apply (main_ran_numbers c nm nums p). }
  assert (∀ s', p_state s' = p_state (c_proc c) → flush_no c ≤ FlushSeqNo (p_state s') ≤ flush_no c + 1 ∧
    ∃ nm' nums', numbers_ok {| c with c_proc := s' |} nm' nums') as Henv.
  { intros s' Es. rewrite Es. split; [lia|]. exists nm, nums. destruct Hn. by split; cbn; rewrite ?Es. }
  destruct Hstep as [sig sg fut c t s Em Er|sig sg fut c t s Em Er|sg fut c t s Em _ Er|c t t' s os Em Et
    |sig c t s _ Hv Er|i c t t' s os Ei Et|i t c Ei Es|c|a o w c _ _|w c _].
  - by eapply Hturn; [apply good_heartbeat|].
  - by eapply Hturn; [apply good_register|].
  - by eapply Hturn; [apply good_timer|].
  - by apply (main_step_numbers c nm nums t).
  - destruct (stretch_ok _ _ _ _ _ _ _ _ (good_credit_update _ _ Hi Hv) Er) as (([Hs _] & Hq & _) & _ & _).
    destruct (update_ran_numbers c nm nums _ _ _ Hn H0 H1 Er Hs) as (Hle & Hnew & _).
    split; [exact Hle|]. destruct (Hnew Hq) as [nums' ?]. eauto.
  - destruct (update_step_ok _ _ _ _ _ _ Hok Ei Et) as (_ & _ & _ & Hst).
    destruct Hst as [R a r k -> Hp ([Hs _] & _ & Hq) ->|R n a k w Eb Ht' -> Hos _].
    + destruct Et as [Er _]. destruct (update_ran_numbers c nm nums _ _ _ Hn H0 H1 Er Hs) as (Hle & _ & Hins).
      split; [exact Hle|]. rewrite app_nil_r. exists nm, nums. apply Hins; [done|by eapply lookup_lt_Some].
    + pose proof Hn as [Hnd Hg Hm Hu Ho]. destruct (Forall2_lookup_l _ _ _ _ _ Hu Ei) as (n0 & En0 & Hn0).
      destruct (stepped_act_numbered _ _ _ _ _ _ _ _ Eb Ht' Hn0 Hos) as (Hn' & _ & Hos').
      split; [change (flush_no c ≤ flush_no c ≤ flush_no c + 1); lia|]. exists nm, nums.
      split; [done..| |].
      * cbn. rewrite <- (list_insert_id nums i n0 En0). by apply Forall2_insert.
      * apply Forall_app. split; [done|]. apply Hos'.
        apply (proj1 (Forall_lookup _ _) Hg (S i)). done.
  - by apply (Henv {| (c_proc c) with p_timers := _ |}).
  - by apply (Henv {| (c_proc c) with p_timers := _; p_canceled := true |}).
  - by apply (Henv (set_world w (c_proc c))).
  - by apply (Henv (set_world w (c_proc c))).
Qed.

Lemma conf_run_numbers n l c c' nm nums :
  conf_ok c → conf_run env n l c c' → numbers_ok c nm nums → 0 ≤ flush_no c → flush_no c + Z.of_nat n < 2 ^ 64 →
  flush_no c ≤ flush_no c' ≤ flush_no c + Z.of_nat n ∧ ∃ nm' nums', numbers_ok c' nm' nums'.
Proof.
  intros Hok Hrun Hn H0. induction Hrun as [c|n l1 l2 c1 c2 c3 Hrun IH Hstep]; intros Hb; [split; [lia|by eauto]|].
  destruct (IH Hok Hn H0 ltac:(lia)) as [Hle (nm1 & nums1 & Hn1)].
  destruct (conf_step_numbers _ _ _ _ _ (conf_run_ok _ _ _ _ _ Hok Hrun) Hstep Hn1) as [Hle2 Hex]; [lia|lia|].
  split; [lia|done].
Qed.

(** C5: requests that are in flight together never share a number. In every reachable
    configuration, as long as the counter stays within 64 bits, there are numbers,
    all different, for the loop and for the updates, such that the gauge IDs of the
    batch in flight and the transfer ID of each credit in flight are derived from the
    number of their coroutine; all these numbers, and those of attempts that were
    left behind, also by a run that has continued as new, have been given out: they
    are at most the counter, and the next request takes the counter plus one. *)
Theorem concurrent_requests_distinct : ∀ input w n l c,
  known_input input → conf_run env n l (initial input w) c →
  0 ≤ CarryFlushSeqNo input → CarryFlushSeqNo input + Z.of_nat n + 1 < 2 ^ 64 →
  ∃ nm nums, NoDup (nm :: nums) ∧ main_numbered (c_main c) nm ∧ Forall2 thread_numbered (c_updates c) nums ∧
    Forall (λ a, ∃ k, k ≤ flush_no c ∧ numbered a k) (c_orphans c) ∧
    Forall (λ k, k ≤ flush_no c < FlushSeqNo (bump (p_state (c_proc c)))) (nm :: nums).
Proof.
  intros input w n l c Hk Hrun H0 Hb.
  destruct (conf_run_numbers _ _ _ _ (CarryFlushSeqNo input) [] (initial_ok _ _ Hk) Hrun) as [Hle (nm & nums & Hn)].
  - split; cbn; [apply NoDup_singleton|constructor; [done|constructor]|done|constructor|constructor].
  - done.
  - change (CarryFlushSeqNo input + Z.of_nat n < 2 ^ 64). lia.
  - change (CarryFlushSeqNo input ≤ flush_no c ≤ CarryFlushSeqNo input + Z.of_nat n) in Hle.
    destruct Hn as [Hnd Hg Hm Hu Ho]. exists nm, nums. split_and!; [done..|].
    revert Hg. apply Forall_impl. intros k Hle'. split; [done|]. cbn [bump FlushSeqNo].
    rewrite u64_id; unfold in_u64; lia.
Qed.
End claims.
