(* ===== verification/RunAlone.v ===== *)
(** * Handlers that are not interleaved

    A coroutine of [Interleaving] that runs with nobody in between is the handler of
    [AccountingWorkflow]. *)

From S2P Require Import Prelude Domain TigerBeetle TBRef Ids Transfers Accounts LedgerProps.
From S2P Require Import World ActivitiesTB ActivitiesTBProps ActivitiesPG Coroutines AccountingWorkflow.
From S2P Require Import AccountingProps LoopProps Meter Interleaving InterleavingProps InterleavingClaims.
From S2P Require Postgres.
Import Postgres(PGServer).

Section alone.
Context `{TL : TigerBeetleLaws} `{B : Blake3} `{G : GoRange} `{P : PGServer} `{U : UUIDPkg}.
Context `{T : !Temporal} `{TeL : !TemporalLaws T}.
Implicit Types (s : Proc) (x : Sys).

(** The activities as [Temporal] executes them. *)
Definition exec_alone R (n : nat) (a : act R) : M Proc R := on_sys (activity n (exec a)).

(** The coroutine [p], run alone, does to the state what [m] does. *)
Definition agrees {A} (p : prog Proc act A) (m : M Sys A) : Prop :=
  ∀ s, prod_map id p_sys (run_alone exec_alone p s) = m (p_sys s).





Lemma agrees_state : agrees (here (gets p_state)) (gets sys_state).
Proof. by intros s. Qed.



















End alone.
