(* ===== verification/InterleavingWitnesses.v ===== *)
(** * Concrete interleavings of the accounting workflow

    An executable scheduler for the steps of [Interleaving], and runs in which a
    credit overlaps a flush. *)

From S2P Require Import Prelude Domain TigerBeetle TBRef Ids Transfers Accounts LedgerProps.
From S2P Require Import World ActivitiesTB ActivitiesTBProps ActivitiesPG Coroutines AccountingWorkflow.
From S2P Require Import AccountingProps LoopProps Meter WorkflowWitnesses Interleaving InterleavingProps.
From S2P Require Import InterleavingClaims InterleavingNumbers InterleavingProgress RunAlone.
From S2P Require Postgres.
Import Postgres(PGServer).

(** ** The scheduler *)

(** What can happen to a coroutine, and to the configuration. *)
Inductive happening := Lose | Answer | GiveUp (e : error) | Resume.
Inductive choice :=
  | ChHeartbeat (sig : HeartbeatSignal)
  | ChTimer (suggested : bool)
  | ChMain (h : happening)
  | ChCredit (sig : QuotaAdjustmentSignal)
  | ChUpdate (i : nat) (h : happening)
  | ChFire (i : nat).

Section scheduler.
Context `{TigerBeetle} `{Blake3} `{GoRange} `{PGServer} `{UUIDPkg}.

Definition move_thread {A} (h : happening) (t : thread Proc act A) (s : Proc)
    : option (thread Proc act A * Proc * list {R : Type & act R}) :=
  match t with
  | Finished _ => None
  | Blocked n a k =>
      match h, n with
      | Lose, S n => Some (Blocked n a k, s, [existT _ a])
      | Answer, S _ =>
          match exec a (p_world s) with
          | (Ok r, w) => Some (Ready a (inr r) k, set_world w s, [])
          | _ => None
          end
      | GiveUp e, _ => Some (Ready a (inl e) k, s, [existT _ a])
      | _, _ => None
      end
  | Ready a r k =>
      match h with
      | Resume => match run (k r) s with (Ok t', s') => Some (t', s', []) | _ => None end
      | _ => None
      end
  end.

Lemma move_thread_step {A} h (t : thread Proc act A) s t' s' os :
  move_thread h t s = Some (t', s', os) → thread_step t s t' s' os.
Proof.
  unfold move_thread. destruct t as [a|R n a k|R a r k]; [done|..].
  - destruct h as [| |e|]; [destruct n as [|n]; [done|]..| |done].
    + intros [= <- <- <-]. left. by exists n.
    + destruct (exec a (p_world s)) as [[r| |] w] eqn:E; intros [= <- <- <-]. right. left. by exists n, r, w.
    + intros [= <- <- <-]. right. right. by exists e.
  - destruct h; [done..|]. destruct (run (k r) s) as [[t1| |] s1] eqn:E; intros [= <- <- <-]. by split.
Qed.

Definition begin (p : prog Proc act next) (c : Conf) : option Conf :=
  match run p (c_proc c) with
  | (Ok t, s) => Some (settle t {| c with c_proc := s |})
  | _ => None
  end.

Definition is_ready (s : Proc) (fut : nat) : bool :=
  match p_timers s !! fut with
  | Some t => bool_decide (tm_status t ≠ Running)
  | None => false
  end.

Definition choose (ch : choice) (c : Conf) : option (list HeartbeatSignal * Conf) :=
  match ch with
  | ChHeartbeat sig =>
      match c_main c with
      | AtSelect _ => pair [sig] <$> begin (turn (on_heartbeat_co sig) false) c
      | _ => None
      end
  | ChTimer sg =>
      match c_main c with
      | AtSelect fut => if is_ready (c_proc c) fut then pair [] <$> begin (turn on_timer_co sg) c else None
      | _ => None
      end
  | ChMain h =>
      match c_main c with
      | InTurn t => '(t', s, os) ← move_thread h t (c_proc c);
          Some ([], settle t' {| c with c_proc := s; c_orphans := c_orphans c ++ os |})
      | _ => None
      end
  | ChCredit sig =>
      match c_main c, validate_credit (p_state (c_proc c)) sig, run (on_credit_co sig) (c_proc c) with
      | Ended, _, _ => None
      | _, Ok tt, (Ok t, s) => Some ([], {| c with c_proc := s; c_updates := c_updates c ++ [t] |})
      | _, _, _ => None
      end
  | ChUpdate i h => t ← c_updates c !! i; '(t', s, os) ← move_thread h t (c_proc c);
      Some ([], {| c with c_proc := s; c_updates := <[i := t']> (c_updates c); c_orphans := c_orphans c ++ os |})
  | ChFire i => t ← p_timers (c_proc c) !! i;
      if decide (tm_status t = Running) then Some ([], {| c with c_proc := {| (c_proc c) with
        p_timers := <[i := {| tm_duration := tm_duration t; tm_status := Fired |}]> (p_timers (c_proc c)) |} |})
      else None
  end.

Lemma choose_step env ch c l c' : choose ch c = Some (l, c') → conf_step env l c c'.
Proof.
  assert (∀ p l0, pair l0 <$> begin p c = Some (l, c') →
    ∃ t s, run p (c_proc c) = (Ok t, s) ∧ l = l0 ∧ c' = settle t {| c with c_proc := s |}) as Hbegin.
  { intros p l0 Hb. unfold begin in Hb. destruct (run p (c_proc c)) as [[t| |] s]; simplify_eq/=. eauto. }
  intros Hc. destruct ch as [sig|sg|h|sig|i h|i]; cbn [choose] in Hc.
  - destruct (c_main c) as [fut|t|] eqn:Em; [|done..]. destruct (Hbegin _ _ Hc) as (t & s & E & -> & ->). by eapply cs_heartbeat.
  - destruct (c_main c) as [fut|t|] eqn:Em; [|done..]. destruct (is_ready (c_proc c) fut) eqn:Er; [|done].
    destruct (Hbegin _ _ Hc) as (t & s & E & -> & ->). eapply cs_timer; [done| |exact E].
    unfold is_ready in Er. destruct (p_timers (c_proc c) !! fut) as [tm|] eqn:Et; [|done].
    apply bool_decide_eq_true in Er. by exists tm.
  - destruct (c_main c) as [fut|t|] eqn:Em; [done| |done].
    apply bind_Some in Hc as ([[t' s] os] & E & Hc). simplify_eq. eapply cs_main; [done|by eapply move_thread_step].
  - destruct (validate_credit (p_state (c_proc c)) sig) as [[]| |] eqn:Ev; [|by destruct (c_main c)..].
    destruct (run (on_credit_co sig) (c_proc c)) as [[t'| |] s] eqn:E; [|by destruct (c_main c)..].
    destruct (c_main c) as [fut|t|] eqn:Em; simplify_eq; rewrite <- Em; (eapply cs_credit; [by rewrite Em|done|exact E]).
  - apply bind_Some in Hc as (t & Ei & Hc). apply bind_Some in Hc as ([[t' s] os] & E & Hc). simplify_eq.
    eapply cs_update; [done|by eapply move_thread_step].
  - apply bind_Some in Hc as (t & Ei & Hc). case_decide as Hr; simplify_eq. by apply cs_fire.
Qed.

(** A schedule: the heartbeats received and the final configuration. *)
Fixpoint schedule (chs : list choice) (c : Conf) : option (list HeartbeatSignal * Conf) :=
  match chs with
  | [] => Some ([], c)
  | ch :: chs => '(l1, c1) ← choose ch c; '(l2, c2) ← schedule chs c1; Some (l1 ++ l2, c2)
  end.

Lemma schedule_run env chs c l c' :
  schedule chs c = Some (l, c') → conf_run env (length chs) l c c'.
Proof.
  assert (∀ n l1 l2 c1 c2 c3, conf_step env l1 c1 c2 → conf_run env n l2 c2 c3 → conf_run env (S n) (l1 ++ l2) c1 c3) as Hcons.
  { intros n l1 l2 c1 c2 c3 Hs Hr. revert l1 c1 Hs. induction Hr as [c2|n l2 l3 c2 c3 c4 Hr IH Hs']; intros l1 c1 Hs.
    - rewrite app_nil_r. apply (conf_more env 0 [] l1 c1 c1); [constructor|done].
    - rewrite app_assoc. eapply conf_more; [by apply IH|done]. }
  revert c l. induction chs as [|ch chs IH]; intros c l Hs; cbn [schedule] in Hs; [injection Hs as <- <-; constructor|].
  apply bind_Some in Hs as ([l1 c1] & E1 & Hs). apply bind_Some in Hs as ([l2 c2] & E2 & Hs). simplify_eq.
  eapply Hcons; [by eapply choose_step|by apply IH].
Qed.
End scheduler.

(** ** A credit that overlaps a flush *)

(** A heartbeat arrives and the timer fires; while the batch is in flight, a credit
    arrives and is committed; then both coroutines go on. *)
Definition overlap : list choice :=
  [ChHeartbeat (demo_hb 1 10 2); ChFire 0; ChTimer false; ChCredit demo_credit; ChMain Lose;
   ChUpdate 0 Answer; ChMain Answer; ChUpdate 0 Resume; ChMain Resume; ChUpdate 0 Answer; ChMain Answer].

Definition overlap_start : Conf := initial metered_input demo_world.
Definition overlap_end : list HeartbeatSignal * Conf := default ([], overlap_start) (schedule overlap overlap_start).

Definition selects (m : main) : option nat := match m with AtSelect fut => Some fut | _ => None end.
Definition in_turn (m : main) : bool := match m with InTurn _ => true | _ => false end.
Definition is_some {A} (o : option A) : bool := match o with Some _ => true | None => false end.

Lemma default_some {A} (d : A) o : is_some o = true → o = Some (default d o).
Proof. by destruct o. Qed.

Lemma overlap_run : conf_run (λ _ _, False) 11 overlap_end.1 overlap_start overlap_end.2.
Proof.
  apply (schedule_run _ overlap). rewrite <- surjective_pairing. apply default_some. by vm_compute.
Qed.

Lemma overlap_known : known_input metered_input.
Proof.
  intros r [q Hq]. change (demo_quota !! r = Some q) in Hq. unfold demo_quota in Hq.
  apply lookup_insert_Some in Hq as [[<- _]|[_ [<- _]%lookup_singleton_Some]]; apply (bool_decide_unpack _); by vm_compute.
Qed.


Lemma concurrent_requests_distinct_witness :
  ∃ nm nums, NoDup (nm :: nums) ∧ length nums = 1%nat ∧ Forall (λ k, k ≤ 2) (nm :: nums).
Proof.
  destruct (concurrent_requests_distinct (λ _ _, False) metered_input demo_world 11 overlap_end.1 overlap_end.2
    overlap_known overlap_run) as (nm & nums & Hnd & _ & Hu & _ & Hle).
  - cbn. lia.
  - cbn. lia.
  - exists nm, nums. split_and!; [done| |].
    + rewrite <- (list.Forall2_length _ _ _ Hu). by vm_compute.
    + revert Hle. apply Forall_impl. intros k [Hk _].
      replace 2 with (FlushSeqNo (p_state (c_proc overlap_end.2))) by by vm_compute. exact Hk.
Defined.


Lemma loop_never_stuck_witness : ∃ t, c_main overlap_end.2 = InTurn t ∧
  ∃ t' s os, thread_step t (c_proc overlap_end.2) t' s os.
Proof.
  destruct (loop_never_stuck (λ _ _, False) metered_input demo_world 11 overlap_end.1 overlap_end.2
    overlap_known overlap_run) as (_ & Hm & _).
  assert (in_turn (c_main overlap_end.2) = true) as Ht by by vm_compute.
  destruct (c_main overlap_end.2) as [fut|t|] eqn:Em; [done| |done].
  exists t. split; [done|]. by apply Hm.
Defined.

(** The batch in flight, its attempt answered. *)
Definition answered : list choice :=
  [ChHeartbeat (demo_hb 1 10 2); ChFire 0; ChTimer false; ChMain Answer; ChCredit demo_credit].
Definition answered_end : list HeartbeatSignal * Conf := default ([], overlap_start) (schedule answered overlap_start).
Lemma answered_run : conf_run (λ _ _, False) 5 answered_end.1 overlap_start answered_end.2.
Proof. apply (schedule_run _ answered). rewrite <- surjective_pairing. apply default_some. by vm_compute. Qed.

Lemma batch_in_flight_is_applied_witness :
  ∃ t b ids, c_main answered_end.2 = InTurn t ∧ batch_in_flight t = Some b ∧
    b = batch_input (p_state (c_proc answered_end.2)) ids ∧ bi_Heartbeats b = [demo_hb 1 10 2].
Proof.
  assert (in_turn (c_main answered_end.2) = true) as Ht by by vm_compute.
  destruct (c_main answered_end.2) as [fut|t|] eqn:Em; [done| |done].
  destruct (batch_in_flight_is_applied (λ _ _, False) metered_input demo_world 5 answered_end.1 answered_end.2 t
    overlap_known answered_run Em) as (Hb & _).
  assert (match c_main answered_end.2 with InTurn t => is_some (batch_in_flight t) | _ => false end = true) as Hs by by vm_compute.
  rewrite Em in Hs. destruct (batch_in_flight t) as [b|] eqn:Eb; [|done].
  destruct (Hb b eq_refl) as (_ & ids & E). exists t, b, ids. split_and!; [done..|]. rewrite E. by vm_compute.
Defined.

(** An idle loop, a credit that cancels its timer, and the end of the credit. *)
Definition idle : list choice := [ChCredit demo_credit; ChTimer false; ChUpdate 0 (GiveUp (EMsg "timeout"))].
Definition idle_end : list HeartbeatSignal * Conf := default ([], overlap_start) (schedule idle overlap_start).
Lemma idle_run : conf_run (λ _ _, False) 3 idle_end.1 overlap_start idle_end.2.
Proof. apply (schedule_run _ idle). rewrite <- surjective_pairing. apply default_some. by vm_compute. Qed.

(** The update ends with an error; the loop waits for timer 1, of four seconds, and
    not for timer 2, of two seconds. *)
Definition ended : option Conf := snd <$> schedule (idle ++ [ChUpdate 0 Resume]) overlap_start.
Lemma credit_timer_is_not_awaited_witness :
  c_main idle_end.2 = AtSelect 1 ∧
  (∀ a r k x s, c_updates idle_end.2 !! 0%nat = Some (Ready (R := unit) a r k) →
     run (k r) (c_proc idle_end.2) = (Ok (Finished x), s) → p_cur s ≠ 1%nat) ∧
  (c ← ended; Some (selects (c_main c), p_cur (c_proc c), tm_duration <$> p_timers (c_proc c))) =
    Some (Some 1%nat, 2%nat, [2 * second; 4 * second; 2 * second]).
Proof.
  assert (selects (c_main idle_end.2) = Some 1%nat) as Hs by by vm_compute.
  assert (c_main idle_end.2 = AtSelect 1) as Em by (destruct (c_main idle_end.2); by simplify_eq/=).
  split; [done|]. split; [|by vm_compute].
  destruct (credit_timer_is_not_awaited (λ _ _, False) metered_input demo_world 3 idle_end.1 idle_end.2 1
    overlap_known idle_run Em) as [_ Hend].
  intros a r k x s Hu Hr. apply (Hend 0%nat unit a r k x s Hu Hr). by vm_compute.
Defined.

(** A timer turn with a batch that gives up waiting for the ledger. *)
Definition batch_start : Conf :=
  (default ([], overlap_start) (schedule [ChHeartbeat (demo_hb 1 10 2); ChFire 0] overlap_start)).2.
Lemma turn_terminates_witness :
  ∃ t s1 t', run (turn on_timer_co false) (c_proc batch_start) = (Ok t, s1) ∧ is_finished t = false ∧
    advances 1 t t' ∧ (1 ≤ 56)%nat.
Proof.
  assert (match (run (turn on_timer_co false) (c_proc batch_start)).1 with
          | Ok (Blocked _ _ _) => true | _ => false end = true) as Hb by by vm_compute.
  destruct (run (turn on_timer_co false) (c_proc batch_start)) as [[t| |] s1] eqn:E; [|done..].
  destruct t as [nx|R n a k|R a r k]; [done| |done].
  assert (advances 1 (Blocked n a k) (Ready a (inl (EMsg "timeout")) k)) as Ha.
  { eapply (adv_cons _ _ s1 _ s1); [|constructor]. right. right. by exists (EMsg "timeout"). }
  exists (Blocked n a k), s1, (Ready a (inl (EMsg "timeout")) k). split_and!; [done..|].
  exact (turn_terminates on_timer_co false _ _ _ _ _ h_timer E Ha).
Defined.


(** ** A refusal that arrives late *)

(** The batch exceeds the credits and is refused; before the loop goes on, a credit
    that would cover it is committed and clears the flag; then the loop applies the
    refusal and sets the flag again: the tenant is reported as out of credits while
    the ledger has 125 credits and no debits. *)
Definition late_refusal : list choice :=
  [ChHeartbeat (demo_hb 1 110 2); ChFire 0; ChTimer false; ChMain Answer; ChCredit demo_credit;
   ChUpdate 0 Answer; ChUpdate 0 Resume; ChMain Resume].

Example late_refusal_overrides_credit :
  (c ← snd <$> schedule late_refusal overlap_start;
   let st := p_state (c_proc c) in
   let b := balance_of (account_of (env_tb (w_env (p_world (c_proc c)))) (demo_id 21)) in
   Some (ExceededResources st !! ResourceCPUHours, CurBatch st, credits_posted b, debits_posted b)) =
  Some (Some true, [], 125, 0).
Proof. vm_compute. reflexivity. Qed.
