(* ===== verification/Overdraft.v ===== *)
(** * A tenant never spends more than its credits

    From the creation of the quota accounts through every interleaving of the
    accounting workflow. *)

From S2P Require Import Prelude Domain TigerBeetle TBRef Ids Transfers Accounts LedgerProps.
From S2P Require Import World ActivitiesTB ActivitiesTBProps AllocationProps ActivitiesPG Coroutines AccountingWorkflow.
From S2P Require Import AccountingProps LoopProps Meter WorkflowWitnesses Interleaving InterleavingProps.
From S2P Require Import InterleavingClaims InterleavingWitnesses.
From S2P Require Postgres.
Import Postgres(PGServer).

Section overdraft.
Context `{TL : TigerBeetleLaws} `{B : Blake3} `{G : GoRange} `{P : PGServer} `{U : UUIDPkg}.
Implicit Types (s : Proc) (c : Conf) (w : World).

Definition tb_of w : TBState := env_tb (w_env w).

(** ** The ledger keeps accounts and their limits *)

(** Accounts stay, with their fixed fields, and those within their limit stay within. *)
Definition orderly : relation World := λ w w', ∀ id,
  (∀ x, static_of <$> account_at (tb_of w) id = Some x → static_of <$> account_at (tb_of w') id = Some x) ∧
  (within_limit (tb_of w) id → within_limit (tb_of w') id).

#[export] Instance orderly_preorder : PreOrder orderly.
Proof.
  split; [by intros w id|]. intros w1 w2 w3 H12 H23 id.
  destruct (H12 id) as [A1 B1], (H23 id) as [A2 B2]. split; auto.
Qed.

Lemma ran_orderly w w' : ran (w_env w) (w_env w') → orderly w w'.
Proof.
  intros [ts Ets] id. unfold tb_of. rewrite Ets. split; [|by apply within_limit_final].
  intros x. generalize (env_tb (w_env w)). clear. induction ts as [|t ts IH]; intros s Hx; [done|].
  destruct (create_transfer t s) as [r s1] eqn:E. rewrite (final_state_cons _ _ _ _ _ _ E).
  apply IH. by rewrite (create_transfer_static _ _ _ _ _ E).
Qed.

Lemma on_ledger_orderly {A} (m : M Env A) : keeps ran m → keeps orderly (on_ledger m).
Proof.
  intros Hm w o w' E. unfold on_ledger, zoom in E. destruct (m (w_env w)) as [r e] eqn:Em. injection E as <- <-.
  apply ran_orderly. by eapply Hm.
Qed.

Lemma same_ledger_orderly {A} (m : M World A) : keeps same_ledger m → keeps orderly m.
Proof. intros Hm w o w' E%Hm id. unfold tb_of. unfold same_ledger in E. by rewrite E. Qed.

Lemma exec_orderly {R} (a : act R) : keeps orderly (exec a).
Proof.
  destruct a; cbn [exec].
  - apply on_ledger_orderly, SubmitTBBatch_ran.
  - apply on_ledger_orderly, SubmitAllocationTransfers_ran.
  - apply on_ledger_orderly, LookupAccountBalances_ran.
  - apply same_ledger_orderly, UpdateQuotaSnapshots_same_ledger.
  - apply same_ledger_orderly, CheckSoftLimits_same_ledger.
  - apply same_ledger_orderly, ResetSoftLimitAlert_same_ledger.
Qed.

Lemma quiet_orderly w w' : quiet_world w w' → orderly w w'.
Proof. intros (E & _) id. unfold tb_of. by rewrite E. Qed.

(** ** Every step *)

Section steps.
Context (env : relation World).
Hypothesis env_orderly : ∀ w w', env w w' → orderly w w'.

Lemma settle_world t c : p_world (c_proc (settle t c)) = p_world (c_proc c).
Proof. by destruct t as [[fut|input|]|R n a k|R a r k]. Qed.

Lemma stepped_orderly {A} pre Ga (Q : A → Proc → Prop) t s t' s' os :
  (∀ R (a : act R) r wt s s', pre R a s → Ga R a r wt s s' → seg wt s s') →
  stepped pre Ga Q t s t' s' os → orderly (p_world s) (p_world s').
Proof.
  intros Hseg [R a r k _ Hp HG _|R n a k w _ _ -> _ [->|[o E]]].
  - eapply quiet_orderly, sg_world. by eapply Hseg.
  - done.
  - by eapply exec_orderly.
Qed.

Lemma conf_step_orderly l c c' :
  conf_ok c → conf_step env l c c' → orderly (p_world (c_proc c)) (p_world (c_proc c')).
Proof.
  intros Hok Hstep. pose proof (co_inv _ Hok) as Hi.
  assert (∀ p l t s, good Inv pre_main Gmain Qnext (Gintake l) p (c_proc c) (c_proc c) → run p (c_proc c) = (Ok t, s) →
    orderly (p_world (c_proc c)) (p_world (c_proc (settle t {| c with c_proc := s |})))) as Hturn.
  { intros p l0 t s Hg Hr. destruct (stretch_ok _ _ _ _ _ _ _ _ Hg Hr) as ([Hs _] & _).
    rewrite settle_world. eapply quiet_orderly, sg_world, Hs. }
  destruct Hstep as [sig sg fut c t s Em Er|sig sg fut c t s Em Er|sg fut c t s Em _ Er|c t t' s os Em Et
    |sig c t s _ Hv Er|i c t t' s os Ei Et|i t c Ei Es|c|a o w c _ Ex|w c He].
  - by eapply Hturn; [apply good_heartbeat|].
  - by eapply Hturn; [apply good_register|].
  - by eapply Hturn; [apply good_timer|].
  - pose proof (co_main _ Hok) as Hm. rewrite Em in Hm. destruct Hm as [Hm _].
    destruct (thread_step_ok pre_main _ _ _ _ _ _ _ (λ R a w s, pre_main_stable R a s (set_world w s)
      (conj (reflexivity _) (conj (reflexivity _) (reflexivity _)))) Hi Hm Et) as (_ & _ & Hs).
    rewrite settle_world. eapply stepped_orderly; [|exact Hs]. intros. by eapply Gmain_moved.
  - destruct (stretch_ok _ _ _ _ _ _ _ _ (good_credit_update _ _ Hi Hv) Er) as (([Hs _] & _) & _).
    eapply quiet_orderly, sg_world, Hs.
  - destruct (update_step_ok _ _ _ _ _ _ Hok Ei Et) as (_ & _ & _ & Hs).
    eapply stepped_orderly; [|exact Hs]. intros R a r w s0 s1 _ [[HG _] _]. exact HG.
  - done.
  - done.
  - by eapply exec_orderly.
  - by apply env_orderly.
Qed.

Lemma conf_run_orderly n l c c' :
  conf_ok c → conf_run env n l c c' → orderly (p_world (c_proc c)) (p_world (c_proc c')).
Proof.
  intros Hok Hrun. induction Hrun as [c|n l1 l2 c1 c2 c3 Hrun IH Hstep]; [done|].
  etrans; [by apply IH|]. eapply conf_step_orderly; [|done]. by eapply conf_run_ok.
Qed.
End steps.

(** ** The accounts of a new tenant *)

Definition funded (a : Account) : Prop :=
  debits_pending (balance_of a) + debits_posted (balance_of a) ≤ credits_posted (balance_of a).

Lemma created_within i cs st rs st' id :
  run_events create_account i cs st = (rs, st') → Forall funded cs → within_limit st id → within_limit st' id.
Proof.
  revert i st rs. induction cs as [|a cs IH]; intros i st rs Hr Hcs Hw; simpl in Hr; [by injection Hr as _ <-|].
  destruct (create_account a st) as [r st1] eqn:E1.
  destruct (run_events create_account (S i) cs st1) as [rs1 st2] eqn:E2. inv Hcs.
  eapply IH; [exact E2|done|]. destruct r as [r|].
  - destruct (create_account_rejected _ _ _ _ id E1) as [Heq _]. intros x Hx. rewrite Heq in Hx. by apply Hw.
  - destruct (create_account_commits _ _ _ id E1) as (_ & Heq & _). intros x Hx. rewrite Heq in Hx.
    case_decide; [|by apply Hw]. by injection Hx as <-.
Qed.

Lemma quota_accounts_within tenant ids e result e' id :
  CreateTenantQuotaAccounts tenant ids e = (Ok result, e') →
  within_limit (env_tb e) id → within_limit (env_tb e') id.
Proof.
  intros Hc Hw. unfold CreateTenantQuotaAccounts in Hc.
  apply bind_Ok_inv in Hc as ([[m accs] ks] & e1 & Hf & Hc).
  apply bind_Ok_inv in Hc as (rs & e2 & Hcall & Hc). apply tb_call_accounts in Hcall.
  apply bind_Ok_inv in Hc as ([] & e3 & Hchk & Hc). injection Hchk as Hchk <-. injection Hc as <- <-.
  apply (foldM_inv (λ acc x, env_tb x = env_tb e ∧ Forall funded acc.1.2)) in Hf as [E1 Hfun]; [|by split|].
  - eapply created_within; [exact Hcall|done|]. by rewrite E1.
  - clear. intros [[m accs] ks] r e1 [[m' accs'] ks'] e1' _ [E1 Hf] Hb. cbn in Hf |- *.
    apply bind_Ok_inv in Hb as (id & e2 & Hid & Hb).
    apply bind_Ok_inv in Hb as (l & e3 & Hl & Hb). injection Hl as Hl <-. injection Hb as <- <- <- <-.
    split; [destruct (ids !! r); by inv Hid|]. apply Forall_app. split; [done|]. constructor; [|done].
    by vm_compute.
Qed.

(** C4: a tenant never spends more than its credits. Take a ledger whose limited
    accounts are within their limits, and let [CreateTenantQuotaAccounts] succeed. Run
    the accounting workflow on the accounts that it returned: in every interleaving of
    the loop with credit updates, lost and late attempts, restarts and orderly other
    parties, each quota account of the tenant exists and its posted and reserved usage
    together is at most its credits. *)
Theorem tenant_never_overdrawn : ∀ (env : relation World) tenant ids e accounts e1 input w n l c,
  (∀ w w', env w w' → orderly w w') → (∀ id, within_limit (env_tb e) id) →
  CreateTenantQuotaAccounts tenant ids e = (Ok accounts, e1) →
  tb_of w = env_tb e1 → in_AccountMap input = Uint128ToBytes <$> accounts →
  conf_run env n l (initial input w) c →
  ∀ r, r ∈ AllResources → ∃ id a, in_AccountMap input !! r = Some id ∧
    account_at (tb_of (p_world (c_proc c))) (UUIDToUint128 id) = Some a ∧
    debits_posted (balance_of a) + debits_pending (balance_of a) ≤ credits_posted (balance_of a).
Proof.
  intros env tenant ids e accounts e1 input w n l c Henv Hw Hc Etb Eacc Hrun r Hr.
  destruct (quota_accounts_created _ _ _ _ _ Hc) as [Hdom Hacc].
  assert (known_input input) as Hk.
  { intros r' Hr'. rewrite Eacc, lookup_fmap, fmap_is_Some in Hr'. apply elem_of_dom in Hr'.
    rewrite Hdom in Hr'. by apply elem_of_list_to_set in Hr'. }
  assert (is_Some (accounts !! r)) as [id Hid].
  { apply elem_of_dom. rewrite Hdom. by apply elem_of_list_to_set. }
  destruct (Hacc r id Hid) as (_ & ledger & _ & Hst).
  destruct (conf_run_orderly env Henv _ _ _ _ (initial_ok _ _ Hk) Hrun id) as [Hstat Hlim].
  assert (tb_of (p_world (c_proc (initial input w))) = env_tb e1) as E0 by exact Etb. rewrite E0 in Hstat, Hlim.
  specialize (Hstat _ Hst). specialize (Hlim (quota_accounts_within _ _ _ _ _ _ Hc (Hw id))).
  destruct (account_at (tb_of (p_world (c_proc c))) id) as [a|] eqn:Ea; [|done].
  exists (Uint128ToBytes id), a. rewrite Eacc, lookup_fmap, Hid. split; [done|]. split; [by rewrite UUIDToUint128_id|].
  rewrite Z.add_comm. apply Hlim; [done|]. cbn in Hstat. unfold static_of in Hstat.
  by injection Hstat as _ _ _ ->.
Qed.
End overdraft.

(** ** A concrete tenant *)

Definition empty_env : Env := {| env_tb := ref_empty : TBState; env_ids := 0; env_seed := 0 |}.
Definition new_accounts : outcome (gmap string Uint128) * Env :=
  CreateTenantQuotaAccounts (demo_id 77) {[ResourceCPUHours := demo_id 21]} empty_env.
Definition new_input : TenantAccountingInput :=
  {| metered_input with in_AccountMap := Uint128ToBytes <$> value_of ∅ new_accounts |}.
Definition new_world : World := {| demo_world with w_env := new_accounts.2 |}.
Definition new_run : list choice :=
  [ChHeartbeat (demo_hb 1 10 2); ChFire 0; ChTimer false; ChCredit demo_credit; ChMain Lose].
Definition new_end : list HeartbeatSignal * Conf :=
  default ([], initial new_input new_world) (schedule new_run (initial new_input new_world)).

Lemma tenant_never_overdrawn_witness :
  ∃ a, account_at (tb_of (p_world (c_proc new_end.2))) (demo_id 21) = Some a ∧
    debits_posted (balance_of a) + debits_pending (balance_of a) ≤ credits_posted (balance_of a).
Proof.
  destruct (tenant_never_overdrawn (λ _ _, False) (demo_id 77) {[ResourceCPUHours := demo_id 21]} empty_env
    (value_of ∅ new_accounts) new_accounts.2 new_input new_world 5 new_end.1 new_end.2)
    with (r := ResourceCPUHours) as (id & a & Hid & Ha & Hle).
  - done.
  - intros id a Ha. by vm_compute in Ha.
  - apply value_ok. by vm_compute.
  - done.
  - done.
  - apply (schedule_run _ new_run). rewrite <- surjective_pairing. apply default_some. by vm_compute.
  - by left.
  - exists a. split; [|done]. assert (id = demo_id 21) as ->; [|by rewrite UUIDToUint128_id in Ha].
    assert (in_AccountMap new_input !! ResourceCPUHours = Some (demo_id 21)) as E by by vm_compute. congruence.
Defined.
