(* ===== verification/Provisioning.v ===== *)
(** * Provisioning (internal/accounting/workflow_provisioning.go)

    The tenant provisioning workflow and the cluster registration workflow.
    The Temporal server is not part of the repository: [TemporalServer] has the
    calls that the workflows and the gateway make, and [TemporalServerLaws] what
    they rely on. *)

From S2P Require Import Prelude Domain TigerBeetle TBRef Ids Transfers Accounts LedgerProps.
From S2P Require Import World ActivitiesTB ActivitiesPG AccountingWorkflow.
From S2P Require Postgres.
Import Postgres(PGServer).

Record TenantProvisioningInput := {
  tp_TenantID : string;
  tp_TenantUUID : bytes16;
  tp_Name : string;
  tp_BillingTier : string;
  tp_Credits : gmap string Z;
  tp_GlobalOperatorIDs : idmap;
  tp_GlobalSinkIDs : idmap;
  tp_PeriodStartNs : Z;
}.

Record TenantProvisioningResult := { pr_AccountMap : idmap }.

Record RegisterClusterWorkflowInput := {
  rc_ClusterID : string;
  rc_TenantID : string;
  rc_CloudProvider : string;
  rc_Region : string;
}.

Definition AccountingWorkflowID (tenantID : string) : string := "tenant-accounting-" +:+ tenantID.
Definition ProvisioningWorkflowID (tenantID : string) : string := "tenant-provisioning-" +:+ tenantID.
Definition ClusterRegistrationWorkflowID (clusterID : string) : string :=
  "cluster-registration-" +:+ clusterID.

(** ** The Temporal server *)

(** The payloads of the two signals. *)
Inductive payload := PHeartbeat (sig : HeartbeatSignal) | PRegister (sig : RegisterClusterSignal).

Class TemporalServer := {
  TSState : Type;
  (** the accounting workflows that are running, with the input they started from *)
  running : TSState → string → option TenantAccountingInput;
  (** the signals delivered to a workflow, in order *)
  inbox : TSState → string → list (string * payload);
  (** the present state of a running accounting workflow, as its queries see it *)
  workflow_state : TSState → string → option TenantAccountingState;
  StartChild : string → TenantAccountingInput → M TSState unit;
  SignalWorkflow : string → string → payload → M TSState unit;
  QueryWorkflow : string → string → M TSState TenantAccountingState;
}.

(** An error of a start means that nothing was started; an error of a signal
    leaves open whether it was delivered; queries read. *)
Class TemporalServerLaws (TS : TemporalServer) := {
  StartChild_Ok id input s s' :
    StartChild id input s = (Ok tt, s') →
    running s id = None ∧ running s' id = Some input ∧
    (∀ id', id' ≠ id → running s' id' = running s id');
  StartChild_Err id input s e s' :
    StartChild id input s = (Err e, s') →
    (∀ id', running s' id' = running s id') ∧
    (errors_Is ErrAlreadyStarted e = true → is_Some (running s id));
  StartChild_no_panic id input s p s' : StartChild id input s ≠ (Panic p, s');
  SignalWorkflow_Ok id name p s s' :
    SignalWorkflow id name p s = (Ok tt, s') →
    is_Some (running s id) ∧ inbox s' id = inbox s id ++ [(name, p)] ∧
    (∀ id', id' ≠ id → inbox s' id' = inbox s id') ∧ (∀ id', running s' id' = running s id');
  SignalWorkflow_Err id name p s e s' :
    SignalWorkflow id name p s = (Err e, s') →
    (inbox s' id = inbox s id ∨ inbox s' id = inbox s id ++ [(name, p)]) ∧
    (∀ id', id' ≠ id → inbox s' id' = inbox s id') ∧ (∀ id', running s' id' = running s id');
  SignalWorkflow_no_panic id name p s q s' : SignalWorkflow id name p s ≠ (Panic q, s');
  QueryWorkflow_Ok id q s st s' :
    QueryWorkflow id q s = (Ok st, s') → workflow_state s id = Some st;
  QueryWorkflow_reads id q s o s' :
    QueryWorkflow id q s = (o, s') →
    (∀ id', inbox s' id' = inbox s id') ∧ (∀ id', running s' id' = running s id');
  QueryWorkflow_no_panic id q s p s' : QueryWorkflow id q s ≠ (Panic p, s');
}.

(** The world of the activities and the Temporal server. *)
Record Platform `{TigerBeetle} `{TemporalServer} := {
  pf_world : World;
  pf_temporal : TSState;
}.
Arguments Platform {_ _}.
Arguments Build_Platform {_ _} _ _.

(** ** The workflows *)

Section provisioning.
Context `{TigerBeetle} `{Blake3} `{GoRange} `{PGServer} `{UUIDPkg} `{!Temporal} `{TemporalServer}.

Definition on_world {A} (m : M World A) : M Platform A :=
  zoom pf_world (λ w p, {| p with pf_world := w |}) m.
Definition on_temporal {A} (m : M TSState A) : M Platform A :=
  zoom pf_temporal (λ t p, {| p with pf_temporal := t |}) m.
Definition execute {A} (m : M World A) : M Platform A := on_world (ExecuteActivity maximumAttempts m).

(** The transfer IDs of the initial allocation. *)
Definition allocTransferIDs (input : TenantProvisioningInput) : M Platform idmap :=
  kvs ← on_world (range_w (tp_Credits input));
  foldM (λ m '(r, _),
    let seqNo := u64 (tp_PeriodStartNs input) in
    ledger ← lift (LedgerID r);
    mret (<[r := Uint128ToBytes (DeriveAllocationTransferID (tp_TenantUUID input) seqNo ledger)]> m))
    ∅ kvs.

Definition allocation_input (input : TenantProvisioningInput) (accountIDs transferIDs : idmap)
    : SubmitAllocationInput :=
  {| ai_TenantUUID := tp_TenantUUID input;
     ai_TenantQuotaIDs := accountIDs;
     ai_GlobalOperatorIDs := tp_GlobalOperatorIDs input;
     ai_Credits := tp_Credits input;
     ai_PeriodStartNs := tp_PeriodStartNs input;
     ai_TransferIDs := transferIDs |}.

(** The input of the accounting workflow: nothing is carried. *)
Definition accounting_input (input : TenantProvisioningInput) (accountIDs : idmap)
    : TenantAccountingInput :=
  {| in_TenantID := tp_TenantID input;
     in_TenantUUID := tp_TenantUUID input;
     in_AccountMap := accountIDs;
     in_GlobalOperatorIDs := tp_GlobalOperatorIDs input;
     in_GlobalSinkIDs := tp_GlobalSinkIDs input;
     CarryProcessedSeqs := ∅; CarryPendingGaugeIDs := ∅; CarryExceededResources := ∅;
     CarryLastAck := 0; CarryFlushSeqNo := 0 |}.

(** Step 5: start the accounting workflow, or reuse the one that is running. *)
Definition start_accounting (input : TenantProvisioningInput) (accountIDs : idmap)
    : M Platform unit :=
  r ← try (on_temporal (StartChild (AccountingWorkflowID (tp_TenantID input))
                                   (accounting_input input accountIDs)));
  match r with
  | inr _ => mret tt
  | inl err => if errors_Is ErrAlreadyStarted err then mret tt
               else fail (EWrap "start TenantAccountingWorkflow" err)
  end.

Definition TenantProvisioningWorkflow (input : TenantProvisioningInput)
    : M Platform TenantProvisioningResult :=
  _ ← wrap_err "InsertTenant" (execute (InsertTenant
        {| it_TenantID := tp_TenantID input; it_Name := tp_Name input;
           it_BillingTier := tp_BillingTier input |}));
  tbResult ← wrap_err "CreateTenantTBAccounts" (execute (on_ledger (CreateTenantTBAccounts
        {| ci_TenantUUID := tp_TenantUUID input |})));
  _ ← wrap_err "InsertTBAccountMapping" (execute (InsertTBAccountMapping
        {| im_TenantID := tp_TenantID input; im_AccountMap := cr_AccountIDs tbResult; im_GlobalMap := ∅ |}));
  ids ← allocTransferIDs input;
  _ ← wrap_err "SubmitAllocationTransfers" (execute (on_ledger (SubmitAllocationTransfers
        (allocation_input input (cr_AccountIDs tbResult) ids))));
  _ ← start_accounting input (cr_AccountIDs tbResult);
  mret {| pr_AccountMap := cr_AccountIDs tbResult |}.

Definition RegisterClusterWorkflow (input : RegisterClusterWorkflowInput) : M Platform unit :=
  _ ← wrap_err "InsertCluster" (execute (InsertCluster
        {| icl_ClusterID := rc_ClusterID input; icl_TenantID := rc_TenantID input;
           icl_CloudProvider := rc_CloudProvider input; icl_Region := rc_Region input |}));
  let workflowID := AccountingWorkflowID (rc_TenantID input) in
  on_temporal (SignalWorkflow workflowID SignalRegisterCluster
                 (PRegister {| rg_ClusterID := rc_ClusterID input |})).
End provisioning.
