(* ===== verification/ProvisioningProps.v ===== *)
(** * What provisioning and registration leave behind *)

From S2P Require Import Prelude Domain TigerBeetle TBRef Ids Transfers Accounts LedgerProps.
From S2P Require Import World ActivitiesTB ActivitiesTBProps AllocationProps ActivitiesPG AccountingWorkflow.
From S2P Require Import Provisioning.
From S2P Require Postgres.
Import Postgres(PGServer, tenants, workload_clusters, tb_account_ids, Tables, tn_Name, tn_BillingTier,
  tn_Status, ta_TbAccountID, wc_TenantID, wc_Status).

(** ** Workflow identities *)

(** Workflow IDs identify. The ID of an accounting workflow determines its
    tenant, likewise for provisioning and cluster registration, and no two of
    the three kinds of IDs ever coincide. With Temporal's rule of one open
    workflow per ID this gives the one accounting workflow per tenant that the
    code calls invariant I-1. *)
Theorem workflow_ids_separate : ∀ a b,
  (AccountingWorkflowID a = AccountingWorkflowID b ↔ a = b) ∧
  (ProvisioningWorkflowID a = ProvisioningWorkflowID b ↔ a = b) ∧
  (ClusterRegistrationWorkflowID a = ClusterRegistrationWorkflowID b ↔ a = b) ∧
  AccountingWorkflowID a ≠ ProvisioningWorkflowID b ∧
  AccountingWorkflowID a ≠ ClusterRegistrationWorkflowID b ∧
  ProvisioningWorkflowID a ≠ ClusterRegistrationWorkflowID b.
Proof.
  intros a b. unfold AccountingWorkflowID, ProvisioningWorkflowID, ClusterRegistrationWorkflowID.
  split_and!; try (split; [by intros ?%(inj (String.append _))|by intros ->]); done.
Qed.

Section provisioned.
Context `{TL : TigerBeetleLaws} `{B : Blake3} `{G : GoRange} `{P : PGServer} `{U : UUIDPkg}.
Context `{T : !Temporal} `{TeL : !TemporalLaws T} `{TS : TemporalServer} `{TSL : !TemporalServerLaws TS}.
Implicit Types (p : Platform) (w : World) (input : TenantProvisioningInput).

#[local] Existing Instance ran_preorder.

(** ** Steps of the workflow *)

Lemma execute_Ok {A} (R : relation World) `{!PreOrder R} (m : M World A) p a p' :
  keeps R m → (∀ w w', others w w' → R w w') → execute m p = (Ok a, p') →
  pf_temporal p' = pf_temporal p ∧ R (pf_world p) (pf_world p') ∧
  ∃ w0, R (pf_world p) w0 ∧ m w0 = (Ok a, pf_world p').
Proof.
  intros Hm Ho He. unfold execute, on_world, zoom in He.
  destruct (ExecuteActivity maximumAttempts m (pf_world p)) as [r w] eqn:E. injection He as -> <-.
  split; [done|]. split; [by eapply ExecuteActivity_keeps|]. by eapply ExecuteActivity_Ok.
Qed.

Lemma execute_temporal {A} (m : M World A) p o p' :
  execute m p = (o, p') → pf_temporal p' = pf_temporal p.
Proof.
  unfold execute, on_world, zoom. destruct (ExecuteActivity _ m _) as [r w]. intros He. by inv He.
Qed.

(** Creating accounts keeps the transfers and the accounts of the ledger. *)
Definition accounts_added : relation Env := λ e e',
  (∀ id, transfer_at (env_tb e') id = transfer_at (env_tb e) id) ∧
  (∀ id a, account_at (env_tb e) id = Some a → account_at (env_tb e') id = Some a).
#[local] Instance accounts_added_preorder : PreOrder accounts_added.
Proof.
  split; [by split|]. intros e1 e2 e3 [T1 A1] [T2 A2]. split; [|auto]. intros id. by rewrite T2.
Qed.

Lemma accounts_transfers i cs s rs s' id :
  run_events create_account i cs s = (rs, s') → transfer_at s' id = transfer_at s id.
Proof.
  revert i s rs. induction cs as [|c cs IH]; intros i s rs Hr; simpl in Hr; [by inv Hr|].
  destruct (create_account c s) as [r s1] eqn:E1.
  destruct (run_events create_account (S i) cs s1) as [rs1 s2] eqn:E2. inv Hr.
  rewrite (IH _ _ _ E2). destruct r as [r|].
  - by destruct (create_account_rejected _ _ _ _ id E1) as [_ ->].
  - by destruct (create_account_commits _ _ _ id E1) as (_ & _ & ->).
Qed.

Lemma CreateAccounts_adds cs : keeps accounts_added (tb_call (CreateAccounts cs)).
Proof.
  assert (∀ e e', env_tb e' = (run_events create_account 0 cs (env_tb e)).2 → accounts_added e e') as Hrun.
  { intros e e' E. destruct (run_events create_account 0 cs (env_tb e)) as [rs s] eqn:Er. simpl in E.
    rewrite <- E in Er. split; intros; [by eapply accounts_transfers|by eapply accounts_kept]. }
  intros e o e' He. unfold tb_call, zoom in He.
  destruct (CreateAccounts cs (env_tb e)) as [r s] eqn:E. injection He as <- <-.
  destruct r as [rs|x|x].
  - apply CreateAccounts_ok in E. apply Hrun. by rewrite E.
  - apply CreateAccounts_err in E as [->| ->]; [done|by apply Hrun].
  - by apply CreateAccounts_no_panic in E.
Qed.

Lemma RandomID_adds : keeps accounts_added RandomID.
Proof. intros e o e' He. inv He. done. Qed.
Lemma range_adds {A} (m : gmap string A) : keeps accounts_added (range m).
Proof. intros e o e' He. inv He. done. Qed.
#[local] Hint Resolve CreateAccounts_adds RandomID_adds range_adds : credit.

Lemma CreateTenantTBAccounts_adds ci : keeps accounts_added (CreateTenantTBAccounts ci).
Proof.
  unfold CreateTenantTBAccounts, CreateTenantQuotaAccounts. keeps_tac.
  destruct b as [[m accs] rs]. keeps_tac.
Qed.

(** The result of the activity: the created accounts. *)
Lemma CreateTenantTBAccounts_Ok ci e res e' :
  CreateTenantTBAccounts ci e = (Ok res, e') →
  dom (cr_AccountIDs res) = list_to_set (C := gset string) AllResources ∧
  ∀ r id, cr_AccountIDs res !! r = Some id → ∃ l, LedgerID r = Ok l ∧
    static_of <$> account_at (env_tb e') id = Some (id, l, AccountCodeTenantQuota, quota_flags).
Proof.
  intros Hc. unfold CreateTenantTBAccounts in Hc. apply bind_Ok_inv in Hc as (ids & e1 & Hq & Hc).
  apply wrap_Ok, quota_accounts_created in Hq as [Hdom Hacc].
  apply bind_Ok_inv in Hc as (kvs & e2 & Hr & Hc). apply range_env in Hr as (E2 & ? & [= <-] & Hp).
  injection Hc as <- <-. cbn [cr_AccountIDs]. rewrite (range_collect Uint128ToBytes _ _ Hp).
  rewrite E2. split; [by rewrite dom_fmap_L|]. intros r id. rewrite lookup_fmap_Some.
  intros (id' & <- & Hid). by destruct (Hacc r id' Hid) as [_ ?].
Qed.

(** The transfers of some IDs stay absent while the ledger grows. *)
Definition calm (ids : bytes16 → Prop) : relation World := λ w w',
  ledger_grows w w' ∧ ∀ id, ids id → transfer_at (env_tb (w_env w)) id = None →
                            transfer_at (env_tb (w_env w')) id = None.
#[local] Instance calm_preorder ids : PreOrder (calm ids).
Proof. split; [by split|]. intros w1 w2 w3 [A1 B1] [A2 B2]. split; [by etrans|auto]. Qed.

Lemma same_ledger_calm {A} ids (m : M World A) : keeps same_ledger m → keeps (calm ids) m.
Proof.
  intros Hm w o w' He. apply Hm in He. unfold same_ledger in He. unfold calm, ledger_grows.
  rewrite He. split; [apply extends_refl|done].
Qed.

Lemma CreateTenantTBAccounts_calm ids ci : keeps (calm ids) (on_ledger (CreateTenantTBAccounts ci)).
Proof.
  intros w o w' He. unfold on_ledger, zoom in He.
  destruct (CreateTenantTBAccounts ci (w_env w)) as [r e] eqn:E. injection He as <- <-.
  apply CreateTenantTBAccounts_adds in E as [Ht Ha]. split; [split|]; simpl.
  - intros id t. by rewrite Ht.
  - intros id a Hid. by rewrite (Ha _ _ Hid).
  - intros id _. by rewrite Ht.
Qed.

Lemma InsertTenant_same_ledger it : keeps same_ledger (InsertTenant it).
Proof. unfold InsertTenant, parse_uuid. keeps_tac. Qed.
Lemma InsertCluster_same_ledger ic : keeps same_ledger (InsertCluster ic).
Proof. unfold InsertCluster, parse_uuid. keeps_tac. Qed.
Lemma InsertTBAccountMapping_same_ledger im : keeps same_ledger (InsertTBAccountMapping im).
Proof. unfold InsertTBAccountMapping, parse_uuid. keeps_tac. Qed.

(** ** Rows of the tenant *)

Section rows.
Context (tenant : bytes16).

(** The rows of the tenant in [tenants] and [tb_account_ids] stay as they are. *)
Definition rows_same : relation World := λ w w',
  tenants (tables_of w') !! tenant = tenants (tables_of w) !! tenant ∧
  ∀ r a, tb_account_ids (tables_of w') !! (tenant, r, a) = tb_account_ids (tables_of w) !! (tenant, r, a).

#[export] Instance rows_same_preorder : PreOrder rows_same.
Proof.
  split; [by split|]. intros w1 w2 w3 [A1 B1] [A2 B2]. split; [congruence|].
  intros r a. by rewrite B2.
Qed.

Lemma on_ledger_rows {A} (m : M Env A) : keeps rows_same (on_ledger m).
Proof.
  intros w o w' He. unfold on_ledger, zoom in He. destruct (m (w_env w)). injection He as <- <-. by split.
Qed.

(** Only the account mapping of the tenant may get new rows, those of [accts]. *)
Definition rows_mapped (accts : idmap) : relation World := λ w w',
  tenants (tables_of w') !! tenant = tenants (tables_of w) !! tenant ∧
  ∀ r a row, tb_account_ids (tables_of w') !! (tenant, r, a) = Some row →
    tb_account_ids (tables_of w) !! (tenant, r, a) = Some row ∨
    ∃ id, accts !! r = Some id ∧ ta_TbAccountID row = vec_to_list id.

#[export] Instance rows_mapped_preorder accts : PreOrder (rows_mapped accts).
Proof.
  split; [split; [done|by left]|]. intros w1 w2 w3 [A1 B1] [A2 B2]. split; [congruence|].
  intros r a row Hr. destruct (B2 r a row Hr) as [Hr2|]; [by apply B1|by right].
Qed.

Lemma rows_same_mapped accts w w' : rows_same w w' → rows_mapped accts w w'.
Proof. intros [A B']. split; [done|]. intros r a row Hr. left. by rewrite <- B'. Qed.

(** A statement that touches one row of a table. *)
Lemma on_db_tables {A} (R : relation World) (stmt : nat → Tables → outcome (A * Tables)) :
  (∀ w w', tables_of w' = tables_of w → R w w') →
  (∀ w w' n a, stmt n (tables_of w) = Ok (a, tables_of w') → R w w') →
  keeps R (on_db (Postgres.query stmt)).
Proof.
  intros Hsame Hstmt w o w' He. unfold on_db, zoom, Postgres.query in He.
  destruct (Postgres.db_fault (w_db w) _).
  - destruct (stmt (Postgres.db_calls (w_db w)) (Postgres.db_tables (w_db w))) as [[a t]| |] eqn:E;
      injection He as <- <-; [by eapply Hstmt|by apply Hsame..].
  - injection He as <- <-. by apply Hsame.
  - destruct (stmt (Postgres.db_calls (w_db w)) (Postgres.db_tables (w_db w))) as [[a t]| |] eqn:E;
      injection He as <- <-; [by eapply Hstmt|by apply Hsame..].
Qed.

Definition mapping_same : relation World := λ w w',
  ∀ r a, tb_account_ids (tables_of w') !! (tenant, r, a) = tb_account_ids (tables_of w) !! (tenant, r, a).
#[export] Instance mapping_same_preorder : PreOrder mapping_same.
Proof. split; [done|]. intros w1 w2 w3 H1 H2 r a. by rewrite H2. Qed.

Lemma InsertTenant_mapping it : keeps mapping_same (InsertTenant it).
Proof.
  unfold InsertTenant, parse_uuid. keeps_tac. apply on_db_tables.
  - intros w w' Heq r k. by rewrite Heq.
  - intros w w' n x Hs r k.
    apply outcome_bind_Ok in Hs as (_ & _ & Hs). apply outcome_bind_Ok in Hs as (_ & _ & Hs).
    injection Hs as _ <-. done.
Qed.

(** The row that a successful [InsertTenant] leaves. *)
Definition tenant_row (it : InsertTenantInput) w : Prop := ∃ row,
  tenants (tables_of w) !! tenant = Some row ∧ tn_Name row = it_Name it ∧
  tn_BillingTier row = it_BillingTier it ∧ tn_Status row = "active".

Lemma InsertTenant_row it w w' :
  uuid_Parse (it_TenantID it) = Some tenant → InsertTenant it w = (Ok tt, w') → tenant_row it w'.
Proof.
  intros Hp Hi. unfold InsertTenant in Hi. apply bind_Ok_inv in Hi as (u & w1 & Hu & Hi).
  apply parse_uuid_Ok in Hu as [-> Hu]. assert (u = tenant) as -> by congruence.
  apply bind_Ok_inv in Hi as (row & w1 & Hq & Hr). injection Hr as <-.
  apply on_db_query in Hq as (_ & t & Hs & Ht).
  apply outcome_bind_Ok in Hs as (_ & _ & Hs). apply outcome_bind_Ok in Hs as (_ & _ & Hs).
  injection Hs as _ <-. unfold tenant_row. rewrite Ht. eexists. split; [apply lookup_insert_eq|done].
Qed.

(** One account of the loop. *)
Definition map_account (r : string) (id : bytes16) : M World unit :=
  wrap_err "InsertTBAccountMapping %s"
    (on_db (Postgres.InsertTBAccountMapping tenant r "tenant_quota" (vec_to_list id))).

Lemma map_account_stmt t t' r (id : bytes16) n u :
  (_ ← Postgres.check (bool_decide ("tenant_quota" ∈ ["operator"; "tenant_quota"; "sink"])) Postgres.ErrCheck;
   match tb_account_ids t !! (tenant, r, "tenant_quota") with
   | Some _ => Ok (tt, t)
   | None =>
       _ ← Postgres.check (Postgres.tenant_exists t tenant) Postgres.ErrForeignKey;
       Ok (tt, {| t with tb_account_ids :=
         <[(tenant, r, "tenant_quota") := {| Postgres.ta_TenantID := tenant; Postgres.ta_ResourceType := r;
            Postgres.ta_AccountType := "tenant_quota"; ta_TbAccountID := vec_to_list id;
            Postgres.ta_CreatedAt := Postgres.pg_now n |}]> (tb_account_ids t) |})
   end) = Ok (u, t') →
  tenants t' !! tenant = tenants t !! tenant ∧
  is_Some (tb_account_ids t' !! (tenant, r, "tenant_quota")) ∧
  (∀ r' a row, tb_account_ids t' !! (tenant, r', a) = Some row →
     tb_account_ids t !! (tenant, r', a) = Some row ∨
     r' = r ∧ ta_TbAccountID row = vec_to_list id) ∧
  ∀ k, is_Some (tb_account_ids t !! k) → is_Some (tb_account_ids t' !! k).
Proof.
  intros Hs. apply outcome_bind_Ok in Hs as (_ & _ & Hs).
  destruct (tb_account_ids t !! (tenant, r, "tenant_quota")) as [row0|] eqn:Hold.
  - injection Hs as _ <-. split_and!; [done|by rewrite Hold|by left|done].
  - apply outcome_bind_Ok in Hs as (_ & _ & Hs). injection Hs as _ <-. cbn [tb_account_ids tenants].
    split_and!; [done|by rewrite lookup_insert_eq| |].
    + intros r' a row [[[= <- <-] <-]|[_ ?]]%lookup_insert_Some; [by right|by left].
    + intros k Hk. apply lookup_insert_is_Some. destruct (decide ((tenant, r, "tenant_quota") = k)); auto.
Qed.

Lemma map_account_mapped accts r id :
  accts !! r = Some id → keeps (rows_mapped accts) (map_account r id).
Proof.
  intros Hr. apply keeps_wrap, on_db_tables.
  - intros w w' Heq. split; rewrite Heq; [done|by left].
  - intros w w' n u (Ht & _ & Hrows & _)%map_account_stmt. split; [done|].
    intros r' a row [?|[-> ?]]%Hrows; [by left|right; eauto].
Qed.

Lemma map_account_Ok r id w w' :
  map_account r id w = (Ok tt, w') →
  is_Some (tb_account_ids (tables_of w') !! (tenant, r, "tenant_quota")) ∧
  ∀ k, is_Some (tb_account_ids (tables_of w) !! k) → is_Some (tb_account_ids (tables_of w') !! k).
Proof.
  intros Hm. apply wrap_Ok, on_db_query in Hm as (_ & t & Hs & <-).
  apply map_account_stmt in Hs. tauto.
Qed.

Lemma map_loop kvs w w' :
  foldM (λ _ '(r, id), map_account r id) tt kvs w = (Ok tt, w') →
  (∀ r id, (r, id) ∈ kvs → is_Some (tb_account_ids (tables_of w') !! (tenant, r, "tenant_quota"))) ∧
  ∀ k, is_Some (tb_account_ids (tables_of w) !! k) → is_Some (tb_account_ids (tables_of w') !! k).
Proof.
  revert w. induction kvs as [|[r id] kvs IH]; intros w Hf; simpl in Hf.
  { inv Hf. split; [|done]. by intros r id ?%elem_of_nil. }
  apply bind_Ok_inv in Hf as ([] & w1 & Hm & Hf). apply map_account_Ok in Hm as [Hr Hk].
  destruct (IH _ Hf) as [Hin Hk']. split; [|auto].
  intros r' id' [[= -> ->]|Hin']%elem_of_cons; [by apply Hk'|by eapply Hin].
Qed.

Lemma InsertTBAccountMapping_mapped im :
  uuid_Parse (im_TenantID im) = Some tenant →
  keeps (rows_mapped (im_AccountMap im)) (InsertTBAccountMapping im).
Proof.
  intros Hp w o w' He. unfold InsertTBAccountMapping, parse_uuid in He. rewrite Hp, bind_cases in He.
  simpl in He. rewrite bind_cases in He.
  destruct (range_w (im_AccountMap im) w) as [r w1] eqn:Er. pose proof Er as Er'. injection Er' as <- _.
  apply range_w_Ok in Er as (Hdb & _ & Hperm).
  transitivity w1; [apply rows_same_mapped; split; unfold tables_of; by rewrite Hdb|].
  clear Hdb. revert w1 He. assert (∀ r id, (r, id) ∈ range_order (env_seed (w_env w)) (im_AccountMap im) →
    im_AccountMap im !! r = Some id) as Hin.
  { intros r id Hi. rewrite Hperm in Hi. by apply elem_of_map_to_list. }
  clear Hperm. induction (range_order _ _) as [|[r id] kvs IH]; intros w1 He; simpl in He; [by inv He|].
  rewrite bind_cases in He. destruct (wrap_err _ _ w1) as [[[]|x|x] w2] eqn:Em;
    pose proof (map_account_mapped (im_AccountMap im) r id (Hin r id ltac:(left)) _ _ _ Em) as Hm;
    [|by inv He..].
  etrans; [exact Hm|]. eapply IH; [|exact He]. intros. apply Hin. by right.
Qed.
End rows.

(** ** The provisioning workflow *)

Definition alloc_id input (l : Z) : bytes16 :=
  Uint128ToBytes (DeriveAllocationTransferID (tp_TenantUUID input) (u64 (tp_PeriodStartNs input)) l).

Lemma alloc_ids_loop input (kvs : list (string * Z)) (m m' : idmap) p p' :
  foldM (λ m '(r, _),
      let seqNo := u64 (tp_PeriodStartNs input) in
      ledger ← lift (LedgerID r);
      mret (<[r := Uint128ToBytes (DeriveAllocationTransferID (tp_TenantUUID input) seqNo ledger)]> m))
      m kvs p = (Ok m', p') →
  p' = p ∧ (∀ r, r ∈ kvs.*1 → ∃ l, LedgerID r = Ok l ∧ m' !! r = Some (alloc_id input l)) ∧
  (∀ r, r ∉ kvs.*1 → m' !! r = m !! r).
Proof.
  revert m p. induction kvs as [|[r c] kvs IH]; intros m p Hf; simpl in Hf.
  { inv Hf. split_and!; [done| |done]. by intros r ?%elem_of_nil. }
  apply bind_Ok_inv in Hf as (m1 & q1 & Hb & Hf). apply bind_Ok_inv in Hb as (l & q2 & Hl & Hb).
  injection Hl as Hl <-. injection Hb as <- <-. destruct (IH _ _ Hf) as (-> & Hin & Hout).
  split_and!; [done| |].
  - intros r' [->|Hr']%elem_of_cons; [|by apply Hin].
    destruct (decide (r ∈ kvs.*1)) as [Hd|Hd]; [by apply Hin|].
    exists l. split; [done|]. by rewrite Hout, lookup_insert_eq.
  - intros r' [Hne Hr']%not_elem_of_cons. by rewrite Hout, lookup_insert_ne by done.
Qed.

(** The prepared IDs: one per credited resource, whatever the order in which the
    map of credits is walked. *)
Lemma allocTransferIDs_Ok input p ids p' :
  allocTransferIDs input p = (Ok ids, p') →
  pf_temporal p' = pf_temporal p ∧ w_db (pf_world p') = w_db (pf_world p) ∧
  env_tb (w_env (pf_world p')) = env_tb (w_env (pf_world p)) ∧
  (∀ r, is_Some (tp_Credits input !! r) → ∃ l, LedgerID r = Ok l ∧ ids !! r = Some (alloc_id input l)) ∧
  (∀ r id, ids !! r = Some id → ∃ l, is_Some (tp_Credits input !! r) ∧ LedgerID r = Ok l ∧
     id = alloc_id input l).
Proof.
  intros Ha. unfold allocTransferIDs in Ha. apply bind_Ok_inv in Ha as (kvs & p1 & Hr & Hf).
  unfold on_world, zoom in Hr. destruct (range_w _ _) as [o w1] eqn:Er. injection Hr as -> <-.
  pose proof Er as (Hdb & _ & Hp)%range_w_Ok.
  assert (env_tb (w_env w1) = env_tb (w_env (pf_world p))) as Htb by (injection Er as _ <-; done).
  destruct (alloc_ids_loop _ _ _ _ _ _ Hf) as (-> & Hin & Hout). split_and!; [done..| |].
  - intros r [c Hc]. apply Hin. apply list_elem_of_fmap. exists (r, c). split; [done|].
    rewrite Hp. by apply elem_of_map_to_list.
  - intros r id Hid. destruct (decide (r ∈ kvs.*1)) as [Hd|Hd].
    + destruct (Hin r Hd) as (l & Hl & Hm). exists l. split_and!; [|done|congruence].
      apply list_elem_of_fmap in Hd as ([r' c] & -> & Hd). rewrite Hp in Hd.
      apply elem_of_map_to_list in Hd. by exists c.
    + rewrite Hout, lookup_empty in Hid by done. done.
Qed.

(** The derived IDs of this allocation. *)
Definition alloc_ids input (id : bytes16) : Prop := ∃ r l,
  is_Some (tp_Credits input !! r) ∧ LedgerID r = Ok l ∧ id = alloc_id input l.

(** A fresh tenant: its UUID is new to the database, its derived IDs are new to
    the ledger and do not collide, and the operator accounts exist without a
    limit. *)
Record provisioning_ready input p (tenant : bytes16) : Prop := {
  ready_parse : uuid_Parse (tp_TenantID input) = Some tenant;
  ready_size : Z.of_nat (size (tp_Credits input)) < 2 ^ 32;
  ready_distinct : ∀ l1 l2, alloc_id input l1 = alloc_id input l2 →
    1 ≤ l1 ≤ 3 → 1 ≤ l2 ≤ 3 → l1 = l2;
  ready_fresh : ∀ id, alloc_ids input id →
    id ≠ zero16 ∧ transfer_at (env_tb (w_env (pf_world p))) id = None;
  ready_operators : ∀ r op, tp_GlobalOperatorIDs input !! r = Some op →
    ∃ a, account_at (env_tb (w_env (pf_world p))) op = Some a ∧
         DebitsMustNotExceedCredits (ac_Flags a) = false;
  ready_rows : ∀ r a, tb_account_ids (tables_of (pf_world p)) !! (tenant, r, a) = None;
}.

(** The allocation step starts in a state in which it cannot be refused. *)
Lemma provisioning_allocation_ready input p tenant w accts ids :
  provisioning_ready input p tenant → calm (alloc_ids input) (pf_world p) w →
  (∀ r, is_Some (tp_Credits input !! r) → ∃ l, LedgerID r = Ok l ∧ ids !! r = Some (alloc_id input l)) →
  (∀ r id, ids !! r = Some id → ∃ l, is_Some (tp_Credits input !! r) ∧ LedgerID r = Ok l ∧
     id = alloc_id input l) →
  allocation_ready (allocation_input input accts ids) (w_env w) ∧
  (∀ r op, tp_GlobalOperatorIDs input !! r = Some op → is_Some (account_at (env_tb (w_env w)) op)) ∧
  (∀ id, prepared (allocation_input input accts ids) id → alloc_ids input id).
Proof.
  intros [_ Hsz Hdist Hfresh Hops _] [[_ Hst] _] Hin Hout.
  assert (∀ r op, tp_GlobalOperatorIDs input !! r = Some op → ∃ a, account_at (env_tb (w_env w)) op = Some a ∧
    DebitsMustNotExceedCredits (ac_Flags a) = false) as Hops'.
  { intros r op Hr. destruct (Hops r op Hr) as (a & Ha & Hf). specialize (Hst op a Ha).
    destruct (account_at (env_tb (w_env w)) op) as [a'|] eqn:Ha'; [|done]. exists a'. split; [done|].
    unfold static_of in Hst. simpl in Hst. assert (ac_Flags a' = ac_Flags a) as -> by congruence. done. }
  split; [unfold allocation_ready; cbn; split_and!; [done|..]|split].
  - intros r c Hc. destruct (Hin r ltac:(eauto)) as (l & Hl & Hid). exists (alloc_id input l).
    split; [done|]. apply Hfresh. exists r, l. split_and!; [by exists c|done..].
  - intros r1 r2 id (l1 & _ & Hl1 & ->)%Hout (l2 & _ & Hl2 & Heq)%Hout.
    assert (l1 = l2) as ->; [|by eapply LedgerID_inj].
    apply Hdist; [done|by eapply LedgerID_Ok..].
  - intros r op a (a' & Ha' & Hf)%Hops' Ha. congruence.
  - intros r op (a & Ha & _)%Hops'. by exists a.
  - intros id (r & Hc & (l & _ & Hl & ->)%Hout). by exists r, l.
Qed.

Definition insert_input input : InsertTenantInput :=
  {| it_TenantID := tp_TenantID input; it_Name := tp_Name input; it_BillingTier := tp_BillingTier input |}.
Definition mapping_input input (accts : idmap) : InsertTBAccountMappingInput :=
  {| im_TenantID := tp_TenantID input; im_AccountMap := accts; im_GlobalMap := ∅ |}.

Lemma start_accounting_Ok input accts p p' :
  start_accounting input accts p = (Ok tt, p') →
  pf_world p' = pf_world p ∧
  ∃ ai, running (pf_temporal p') (AccountingWorkflowID (tp_TenantID input)) = Some ai ∧
    (running (pf_temporal p) (AccountingWorkflowID (tp_TenantID input)) = None →
     ai = accounting_input input accts).
Proof.
  unfold start_accounting. rewrite bind_cases. unfold try, on_temporal, zoom.
  destruct (StartChild _ _ (pf_temporal p)) as [[[]|e|x] t] eqn:E.
  - intros Hs. inv Hs. split; [done|]. apply StartChild_Ok in E as (_ & Hr & _). by eexists.
  - destruct (errors_Is ErrAlreadyStarted e) eqn:Ee; intros Hs; inv Hs. split; [done|].
    apply StartChild_Err in E as [Hsame Hr]. destruct (Hr Ee) as [ai Hai]. simpl.
    rewrite Hsame. exists ai. split; [done|]. congruence.
  - intros Hs. inv Hs.
Qed.

(** *** The activities of the workflow, each executed to its end *)

Section steps.
Context (input : TenantProvisioningInput) (tenant : bytes16).
Hypothesis Hparse : uuid_Parse (tp_TenantID input) = Some tenant.
Hypothesis Hor : ∀ w w', others w w' → rows_same tenant w w'.
Hypothesis Hoc : ∀ w w', others w w' → calm (alloc_ids input) w w'.

Lemma insert_step p p' :
  execute (InsertTenant (insert_input input)) p = (Ok tt, p') →
  pf_temporal p' = pf_temporal p ∧ calm (alloc_ids input) (pf_world p) (pf_world p') ∧
  mapping_same tenant (pf_world p) (pf_world p') ∧ tenant_row tenant (insert_input input) (pf_world p').
Proof.
  intros He.
  destruct (execute_Ok _ _ _ _ _ (same_ledger_calm _ _ (InsertTenant_same_ledger _)) Hoc He)
    as (Ht & Hc & w1 & _ & Hrun).
  destruct (execute_Ok (mapping_same tenant) _ _ _ _
    (InsertTenant_mapping tenant _) (λ w w' Hw, proj2 (Hor w w' Hw)) He) as (_ & Hm & _).
  split_and!; [done..|]. by apply (InsertTenant_row tenant (insert_input input) _ _ Hparse) in Hrun.
Qed.

Lemma accounts_step ci p tb p' :
  execute (on_ledger (CreateTenantTBAccounts ci)) p = (Ok tb, p') →
  pf_temporal p' = pf_temporal p ∧ calm (alloc_ids input) (pf_world p) (pf_world p') ∧
  rows_same tenant (pf_world p) (pf_world p') ∧
  dom (cr_AccountIDs tb) = list_to_set (C := gset string) AllResources ∧
  ∀ r id, cr_AccountIDs tb !! r = Some id → ∃ l, LedgerID r = Ok l ∧
    static_of <$> account_at (env_tb (w_env (pf_world p'))) id =
      Some (id, l, AccountCodeTenantQuota, quota_flags).
Proof.
  intros He.
  destruct (execute_Ok _ _ _ _ _ (CreateTenantTBAccounts_calm _ _) Hoc He) as (Ht & Hc & w & _ & Hrun).
  destruct (execute_Ok _ _ _ _ _ (on_ledger_rows tenant _) Hor He) as (_ & Hs & _).
  apply on_ledger_Ok in Hrun as [Hrun _]. by apply CreateTenantTBAccounts_Ok in Hrun as [Hdom Hacc].
Qed.

Lemma mapping_step accts p p' :
  (∀ r a, tb_account_ids (tables_of (pf_world p)) !! (tenant, r, a) = None) →
  execute (InsertTBAccountMapping (mapping_input input accts)) p = (Ok tt, p') →
  pf_temporal p' = pf_temporal p ∧ calm (alloc_ids input) (pf_world p) (pf_world p') ∧
  tenants (tables_of (pf_world p')) !! tenant = tenants (tables_of (pf_world p)) !! tenant ∧
  ∀ r id, accts !! r = Some id → ∃ row,
    tb_account_ids (tables_of (pf_world p')) !! (tenant, r, "tenant_quota") = Some row ∧
    ta_TbAccountID row = vec_to_list id.
Proof.
  intros Hnone He.
  destruct (execute_Ok _ _ _ _ _ (same_ledger_calm _ _ (InsertTBAccountMapping_same_ledger _)) Hoc He)
    as (Ht & Hc & _).
  destruct (execute_Ok _ _ _ _ _ (InsertTBAccountMapping_mapped tenant (mapping_input input accts) Hparse)
    (λ w w' Hw, rows_same_mapped tenant _ w w' (Hor w w' Hw)) He) as (_ & [Hten Hrows] & w0 & _ & Hrun).
  split_and!; [done..|]. intros r id Hr.
  unfold InsertTBAccountMapping in Hrun. apply bind_Ok_inv in Hrun as (u & w1 & Hu & Hrun).
  apply parse_uuid_Ok in Hu as [-> Hu]. simpl in Hu. assert (u = tenant) as -> by congruence.
  apply bind_Ok_inv in Hrun as (kvs & w2 & Hk & Hf). apply range_w_Ok in Hk as (_ & _ & Hperm).
  destruct (map_loop tenant kvs w2 (pf_world p') Hf) as [Hin _].
  destruct (Hin r id) as [row Hrow]; [rewrite Hperm; by apply elem_of_map_to_list|].
  exists row. split; [done|]. destruct (Hrows _ _ _ Hrow) as [Hold|(id' & Hid' & ->)].
  - by rewrite Hnone in Hold.
  - simpl in Hid'. congruence.
Qed.

Lemma allocation_step p0 p accts ids p' :
  provisioning_ready input p0 tenant → calm (alloc_ids input) (pf_world p0) (pf_world p) →
  (∀ r, is_Some (tp_Credits input !! r) → ∃ l, LedgerID r = Ok l ∧ ids !! r = Some (alloc_id input l)) →
  (∀ r id, ids !! r = Some id → ∃ l, is_Some (tp_Credits input !! r) ∧ LedgerID r = Ok l ∧
     id = alloc_id input l) →
  execute (on_ledger (SubmitAllocationTransfers (allocation_input input accts ids))) p = (Ok tt, p') →
  pf_temporal p' = pf_temporal p ∧ ledger_grows (pf_world p) (pf_world p') ∧
  rows_same tenant (pf_world p) (pf_world p') ∧
  ∀ r credits op quota, tp_Credits input !! r = Some credits →
     tp_GlobalOperatorIDs input !! r = Some op → accts !! r = Some quota →
     ∃ l, LedgerID r = Ok l ∧ transfer_at (env_tb (w_env (pf_world p'))) (alloc_id input l) =
       Some (alloc_transfer (allocation_input input ∅ ∅) credits l (alloc_id input l) op quota).
Proof.
  intros Hready Hc Hin Hout He.
  destruct (provisioning_allocation_ready _ _ _ _ accts ids Hready Hc Hin Hout) as (Har & Hops & Hpre).
  destruct (execute_Ok _ _ _ _ _ (on_ledger_grows _ (SubmitAllocationTransfers_ran _)) others_grow He)
    as (Ht & Hg & _).
  destruct (execute_Ok _ _ _ _ _ (on_ledger_rows tenant _) Hor He) as (_ & Hs & _).
  split_and!; [done..|]. intros r credits op quota Hcr Hop Hq.
  destruct (Hin r ltac:(by exists credits)) as (l & Hl & Hid). exists l. split; [done|].
  unfold execute, on_world, zoom in He.
  destruct (ExecuteActivity _ _ (pf_world p)) as [o w'] eqn:Hex. injection He as -> <-.
  refine (allocation_executed (allocation_input input accts ids) _ _ (Ok tt) w' r credits op quota
    (alloc_id input l) l Har Hops _ _ Hcr Hop Hq Hid Hl Hex).
  - intros w1 w2 Hw id Hp. apply (Hoc _ _ Hw). by apply Hpre.
  - assert (alloc_ids input (alloc_id input l)) as Hai by (exists r, l; split_and!; [by exists credits|done..]).
    apply Hc; [done|]. by apply (ready_fresh _ _ _ Hready).
Qed.
End steps.

(** What the provisioning workflow of a fresh tenant leaves when it returns, after
    whatever retries and lost results: the tenant's row, for every declared
    resource a mapped account that exists in the ledger with the tenant-quota code
    and the limit flag, every credited resource credited by exactly one transfer
    under the derived ID, and the running accounting workflow, with exactly these
    accounts if it was not running before. *)
Lemma provisioning_built : ∀ input p result p' tenant,
  provisioning_ready input p tenant →
  (∀ w w', others w w' → rows_same tenant w w' ∧
     ∀ id, alloc_ids input id → transfer_at (env_tb (w_env w)) id = None →
           transfer_at (env_tb (w_env w')) id = None) →
  TenantProvisioningWorkflow input p = (Ok result, p') →
  let ledger := env_tb (w_env (pf_world p')) in
  tenant_row tenant (insert_input input) (pf_world p') ∧
  dom (pr_AccountMap result) = list_to_set (C := gset string) AllResources ∧
  (∀ r id, pr_AccountMap result !! r = Some id →
     (∃ l, LedgerID r = Ok l ∧
        static_of <$> account_at ledger id = Some (id, l, AccountCodeTenantQuota, quota_flags)) ∧
     ∃ row, tb_account_ids (tables_of (pf_world p')) !! (tenant, r, "tenant_quota") = Some row ∧
        ta_TbAccountID row = vec_to_list id) ∧
  (∀ r credits op quota, tp_Credits input !! r = Some credits →
     tp_GlobalOperatorIDs input !! r = Some op → pr_AccountMap result !! r = Some quota →
     ∃ l, LedgerID r = Ok l ∧ transfer_at ledger (alloc_id input l) =
       Some (alloc_transfer (allocation_input input ∅ ∅) credits l (alloc_id input l) op quota)) ∧
  ∃ ai, running (pf_temporal p') (AccountingWorkflowID (tp_TenantID input)) = Some ai ∧
    (running (pf_temporal p) (AccountingWorkflowID (tp_TenantID input)) = None →
     ai = accounting_input input (pr_AccountMap result)).
Proof.
  intros input p result p' tenant Hready Hothers Hrun ledger.
  assert (∀ w w', others w w' → calm (alloc_ids input) w w') as Hoc.
  { intros w w' Hw. split; [by apply others_grow|by apply Hothers]. }
  assert (∀ w w', others w w' → rows_same tenant w w') as Hor by (intros; by apply Hothers).
  pose proof (ready_parse _ _ _ Hready) as Hparse.
  unfold TenantProvisioningWorkflow in Hrun.
  apply bind_Ok_inv in Hrun as ([] & p1 & H1%wrap_Ok & Hrun).
  apply bind_Ok_inv in Hrun as (tb & p2 & H2%wrap_Ok & Hrun).
  apply bind_Ok_inv in Hrun as ([] & p3 & H3%wrap_Ok & Hrun).
  apply bind_Ok_inv in Hrun as (ids & p4 & H4 & Hrun).
  apply bind_Ok_inv in Hrun as ([] & p5 & H5%wrap_Ok & Hrun).
  apply bind_Ok_inv in Hrun as ([] & p6 & H6 & Hrun). injection Hrun as <- <-.
  apply (insert_step input tenant Hparse Hor Hoc) in H1 as (T1 & C1 & M1 & (row & Hrow & Hrow')).
  apply (accounts_step input tenant Hor Hoc) in H2 as (T2 & C2 & [R2 M2] & Hdom & Hacc).
  apply (mapping_step input tenant Hparse Hor Hoc) in H3 as (T3 & C3 & R3 & Hmap).
  2: { intros r a. rewrite M2, M1. by apply (ready_rows _ _ _ Hready). }
  apply allocTransferIDs_Ok in H4 as (T4 & D4 & L4 & Hin & Hout).
  assert (calm (alloc_ids input) (pf_world p3) (pf_world p4)) as C4.
  { split; [unfold ledger_grows; rewrite L4; apply extends_refl|by rewrite L4]. }
  apply (allocation_step input tenant Hor Hoc p) in H5 as (T5 & G5 & [R5 M5] & Hcred); [|done| |done..].
  2: { do 3 (etrans; [eassumption|]). done. }
  apply start_accounting_Ok in H6 as (W6 & ai & Hai & Hnew).
  unfold ledger. rewrite W6. cbn [pr_AccountMap]. split_and!; [|done| |done|].
  - exists row. split; [|done]. unfold tables_of in *. by rewrite R5, D4, R3, R2.
  - intros r id Hid. split.
    + destruct (Hacc r id Hid) as (l & Hl & Hst). exists l. split; [done|].
      assert (ledger_grows (pf_world p2) (pf_world p5)) as [_ Hg].
      { etrans; [apply C3|]. etrans; [apply C4|done]. }
      destruct (account_at (env_tb (w_env (pf_world p2))) id) as [a|] eqn:Ha; [|done].
      by rewrite (Hg id a Ha).
    + destruct (Hmap r id Hid) as (mrow & Hm & Hid'). exists mrow. split; [|done].
      unfold tables_of in *. by rewrite M5, D4.
  - exists ai. split; [done|]. rewrite <- T1, <- T2, <- T3, <- T4, <- T5. done.
Qed.
(** ** Failures *)

Lemma execute_running {A} (m : M World A) p o p' :
  execute m p = (o, p') → ∀ id, running (pf_temporal p') id = running (pf_temporal p) id.
Proof. intros ->%execute_temporal. done. Qed.

Definition same_running : relation Platform := λ p p',
  ∀ id, running (pf_temporal p') id = running (pf_temporal p) id.
#[local] Instance same_running_preorder : PreOrder same_running.
Proof. split; [done|]. intros p1 p2 p3 H1 H2 id. by rewrite H2. Qed.

Lemma execute_same {A} (m : M World A) : keeps same_running (execute m).
Proof. intros p o p' He id. by eapply execute_running. Qed.
Lemma on_world_same {A} (m : M World A) : keeps same_running (on_world m).
Proof. intros p o p' He. unfold on_world, zoom in He. destruct (m (pf_world p)). by inv He. Qed.
#[local] Hint Resolve execute_same on_world_same : credit.

(** A computation that leaves the running workflows alone unless it succeeds. *)
Definition clean {A} (m : M Platform A) : Prop :=
  ∀ p o p', m p = (o, p') → (∀ a, o ≠ Ok a) → same_running p p'.

Lemma clean_bind {A C} (m : M Platform A) (k : A → M Platform C) :
  keeps same_running m → (∀ a, clean (k a)) → clean (m ≫= k).
Proof.
  intros Hm Hk p o p' He Ho. rewrite bind_cases in He. destruct (m p) as [r p1] eqn:E.
  apply Hm in E. destruct r as [a| |]; [|by inv He..]. etrans; [exact E|]. by eapply Hk.
Qed.

Lemma start_clean {A} input accts (a : A) : clean (_ ← start_accounting input accts; mret a).
Proof.
  intros p o p' He Ho. rewrite bind_cases in He. unfold start_accounting in He. rewrite bind_cases in He.
  unfold try, on_temporal, zoom in He.
  destruct (StartChild _ _ (pf_temporal p)) as [[[]|e|x] t] eqn:E.
  - injection He as <- _. by destruct (Ho a).
  - apply StartChild_Err in E as [Hsame _]. destruct (errors_Is ErrAlreadyStarted e); by injection He as <- <-.
  - by apply StartChild_no_panic in E.
Qed.

(** A failed provisioning starts no accounting workflow. Whatever step
    fails, including the last one, and whatever panic an unknown resource
    causes, the set of running accounting workflows is the same as before. *)
Theorem failed_provisioning_starts_nothing : ∀ input p o p',
  TenantProvisioningWorkflow input p = (o, p') → (∀ r, o ≠ Ok r) →
  ∀ id, running (pf_temporal p') id = running (pf_temporal p) id.
Proof.
  intros input. change (clean (TenantProvisioningWorkflow input)). unfold TenantProvisioningWorkflow.
  do 3 (apply clean_bind; [keeps_tac|intros ?]). apply clean_bind.
  { unfold allocTransferIDs. keeps_tac. }
  intros ?. apply clean_bind; [keeps_tac|intros ?]. apply start_clean.
Qed.

(** The tenant's row stays. *)
Definition row_stays (tenant : bytes16) : relation World := λ w w',
  is_Some (tenants (tables_of w) !! tenant) → is_Some (tenants (tables_of w') !! tenant).
#[local] Instance row_stays_preorder tenant : PreOrder (row_stays tenant).
Proof. split; [by intros w Hw|]. intros w1 w2 w3 H1 H2 Hw. by apply H2, H1. Qed.

Lemma InsertTenant_stays tenant it : keeps (row_stays tenant) (InsertTenant it).
Proof.
  unfold InsertTenant, parse_uuid. keeps_tac. apply on_db_tables.
  - intros w w' Heq. unfold row_stays. by rewrite Heq.
  - intros w w' n x Hs Hrow.
    apply outcome_bind_Ok in Hs as (_ & _ & Hs). apply outcome_bind_Ok in Hs as (_ & _ & Hs).
    injection Hs as _ <-. apply lookup_insert_is_Some.
    destruct (decide (a = tenant)); auto.
Qed.

Lemma InsertTenant_taken tenant it w w' :
  uuid_Parse (it_TenantID it) = Some tenant → is_Some (tenants (tables_of w) !! tenant) →
  InsertTenant it w ≠ (Ok tt, w').
Proof.
  intros Hp Hrow Hi. unfold InsertTenant in Hi. apply bind_Ok_inv in Hi as (u & w1 & Hu & Hi).
  apply parse_uuid_Ok in Hu as [-> Hu]. assert (u = tenant) as -> by congruence.
  apply bind_Ok_inv in Hi as (row & w1 & Hq & _). apply on_db_query in Hq as (_ & t & Hs & _).
  apply outcome_bind_Ok in Hs as (_ & _ & Hs). apply outcome_bind_Ok in Hs as (u0 & Hc & _).
  unfold Postgres.tenant_exists in Hc. by rewrite bool_decide_eq_true_2 in Hc.
Qed.

(** A tenant can be provisioned once. When the tenant's row exists, the
    provisioning workflow fails at its first step, whatever the attempts do,
    as long as nobody removes the row: no account is created, no credit is
    issued, no workflow is started. So a provisioning whose first activity took
    effect but was not acknowledged cannot be repeated under the same ID, and the
    branch for an accounting workflow that is already running is not reached by
    provisioning a tenant again. *)
Theorem reprovisioning_fails : ∀ input p o p' tenant,
  uuid_Parse (tp_TenantID input) = Some tenant →
  is_Some (tenants (tables_of (pf_world p)) !! tenant) →
  (∀ w w', others w w' → is_Some (tenants (tables_of w) !! tenant) →
     is_Some (tenants (tables_of w') !! tenant)) →
  TenantProvisioningWorkflow input p = (o, p') →
  (∃ e, o = Err (EWrap "InsertTenant" e)) ∧ pf_temporal p' = pf_temporal p ∧
  ((∀ w w', others w w' → same_ledger w w') → same_ledger (pf_world p) (pf_world p')).
Proof.
  intros input p o p' tenant Hparse Hrow Hothers Hrun.
  unfold TenantProvisioningWorkflow in Hrun. rewrite bind_cases in Hrun. unfold wrap_err in Hrun at 1.
  fold (insert_input input) in Hrun. unfold execute, on_world, zoom in Hrun.
  destruct (ExecuteActivity maximumAttempts (InsertTenant (insert_input input)) (pf_world p))
    as [[[]|e|x] w] eqn:E.
  - destruct (ExecuteActivity_Ok (row_stays tenant) _ _ _ _ _ (InsertTenant_stays _ _) Hothers E)
      as (w0 & Hw0 & Hi). by apply (InsertTenant_taken tenant) in Hi; [|done|apply Hw0].
  - injection Hrun as <- <-. split_and!; [by eexists|done|]. intros Hsame. simpl.
    by eapply (ExecuteActivity_keeps same_ledger _ _ (InsertTenant_same_ledger _) Hsame).
  - by apply ExecuteActivity_no_panic in E.
Qed.

(** ** Cluster registration *)

(** When the registration workflow returns, the database holds the cluster's row,
    healthy and owned by the tenant it was registered for, and the tenant's
    accounting workflow, which is running, has received exactly one more signal:
    the registration of this cluster. *)
Lemma registration_known : ∀ (input : RegisterClusterWorkflowInput) p p',
  RegisterClusterWorkflow input p = (Ok tt, p') →
  ∃ cluster tenant row,
    uuid_Parse (rc_ClusterID input) = Some cluster ∧ uuid_Parse (rc_TenantID input) = Some tenant ∧
    workload_clusters (tables_of (pf_world p')) !! cluster = Some row ∧
    wc_TenantID row = tenant ∧ wc_Status row = "healthy" ∧
    let id := AccountingWorkflowID (rc_TenantID input) in
    is_Some (running (pf_temporal p') id) ∧
    inbox (pf_temporal p') id = inbox (pf_temporal p) id ++
      [(SignalRegisterCluster, PRegister {| rg_ClusterID := rc_ClusterID input |})] ∧
    ∀ id', id' ≠ id → inbox (pf_temporal p') id' = inbox (pf_temporal p) id'.
Proof.
  intros input p p' Hrun. unfold RegisterClusterWorkflow in Hrun.
  apply bind_Ok_inv in Hrun as ([] & p1 & H1%wrap_Ok & Hsig).
  destruct (execute_Ok ledger_grows _ _ _ _
    (λ w o w' He, proj1 (same_ledger_calm (λ _, False) _ (InsertCluster_same_ledger _) w o w' He))
    others_grow H1) as (Ht & _ & w0 & _ & Hi).
  unfold InsertCluster in Hi. apply bind_Ok_inv in Hi as (cluster & w1 & Hc & Hi).
  apply parse_uuid_Ok in Hc as [-> Hc]. apply bind_Ok_inv in Hi as (tenant & w2 & Hu & Hi).
  apply parse_uuid_Ok in Hu as [-> Hu]. apply bind_Ok_inv in Hi as (row & w3 & Hq & Hr).
  injection Hr as ->. apply on_db_query in Hq as (_ & t & Hs & Htab).
  do 3 apply outcome_bind_Ok in Hs as (_ & _ & Hs). injection Hs as <- <-.
  unfold on_temporal, zoom in Hsig. destruct (SignalWorkflow _ _ _ (pf_temporal p1)) as [r ts] eqn:Es.
  injection Hsig as -> <-. apply SignalWorkflow_Ok in Es as (Hrn & Hin & Hout & Hsame).
  exists cluster, tenant. eexists. cbn [pf_world pf_temporal]. rewrite Ht in *.
  split; [done|]. split; [done|]. split; [rewrite Htab; apply lookup_insert_eq|].
  split; [done|]. split; [done|]. split; [by rewrite Hsame|done].
Qed.
End provisioned.

(** ** Concrete runs *)

(** A Temporal that runs each activity once. *)
Definition prompt_execute {A} (n : nat) (m : M World A) : M World A := λ w,
  match n with
  | S _ => match m w with
           | (Panic _, w') => (Err (EMsg "panic"), w')
           | r => r
           end
  | _ => (Err (EMsg "not started"), w)
  end.

Lemma prompt_attempts {A} (n : nat) (m : M World A) w o w' :
  prompt_execute n m w = (o, w') → attempts (λ _ _, False) m n w o w'.
Proof.
  unfold prompt_execute. destruct n as [|n]; [intros He; inv He; constructor|].
  destruct (m w) as [[a|e|x] w1] eqn:E; intros He; inv He.
  - by eapply attempt_last.
  - eapply attempt_failed; [exact E|constructor].
  - eapply attempt_failed; [exact E|constructor].
Qed.

#[local] Instance prompt_temporal : Temporal := {| ExecuteActivity := @prompt_execute |}.
#[local] Instance prompt_temporal_laws : TemporalLaws prompt_temporal := {|
  others := λ _ _, False;
  others_grow := λ _ _ (H : False), match H with end;
  ExecuteActivity_attempts := @prompt_attempts |}.

(** A server that keeps the running workflows and their inboxes in maps. *)
Record DemoServer := {
  ds_running : gmap string TenantAccountingInput;
  ds_inbox : gmap string (list (string * payload));
  ds_states : gmap string TenantAccountingState;
}.

#[export] Instance demo_service : TemporalServer := {|
  TSState := DemoServer;
  running s id := ds_running s !! id;
  inbox s id := default [] (ds_inbox s !! id);
  workflow_state s id := ds_states s !! id;
  StartChild id input := λ s,
    match ds_running s !! id with
    | Some _ => (Err (EWrap "child" ErrAlreadyStarted), s)
    | None => (Ok tt, {| s with ds_running := <[id := input]> (ds_running s);
                                ds_states := <[id := initial_state input]> (ds_states s) |})
    end;
  SignalWorkflow id name p := λ s,
    match ds_running s !! id with
    | Some _ => (Ok tt, {| s with ds_inbox :=
                   <[id := default [] (ds_inbox s !! id) ++ [(name, p)]]> (ds_inbox s) |})
    | None => (Err (EMsg "workflow not found"), s)
    end;
  QueryWorkflow id q := λ s,
    match ds_states s !! id with
    | Some st => (Ok st, s)
    | None => (Err (EMsg "workflow not found"), s)
    end |}.

#[export] Instance demo_service_laws : TemporalServerLaws demo_service.
Proof.
  split; simpl.
  - intros id input s s'. destruct (ds_running s !! id); intros He; inv He. simpl.
    split_and!; [done|apply lookup_insert_eq|intros; by rewrite lookup_insert_ne].
  - intros id input s e s'. destruct (ds_running s !! id); intros He; by inv He.
  - intros id input s x s'. by destruct (ds_running s !! id).
  - intros id name x s s'. destruct (ds_running s !! id); intros He; inv He. simpl.
    split_and!; [done|by rewrite lookup_insert_eq|intros; by rewrite lookup_insert_ne|done].
  - intros id name x s e s'. destruct (ds_running s !! id); intros He; inv He. auto.
  - intros id name x s e s'. by destruct (ds_running s !! id).
  - intros id q s st s'. destruct (ds_states s !! id); intros He; by inv He.
  - intros id q s o s'. destruct (ds_states s !! id); intros He; by inv He.
  - intros id q s x s'. by destruct (ds_states s !! id).
Qed.

Definition demo_provisioning (n : Z) : TenantProvisioningInput :=
  {| tp_TenantID := uuid_String (demo_id n); tp_TenantUUID := demo_id n; tp_Name := "acme";
     tp_BillingTier := "pro"; tp_Credits := {[ResourceCPUHours := 1000000]};
     tp_GlobalOperatorIDs := demo_operators; tp_GlobalSinkIDs := demo_sinks; tp_PeriodStartNs := 5 |}.

Definition demo_platform : Platform :=
  {| pf_world := demo_world; pf_temporal := {| ds_running := ∅; ds_inbox := ∅; ds_states := ∅ |} |}.

Lemma demo_alloc_ids n id :
  alloc_ids (demo_provisioning n) id → id = alloc_id (demo_provisioning n) 1.
Proof.
  intros (r & l & [c Hc] & Hl & ->). simpl in Hc. apply lookup_singleton_Some in Hc as [<- _].
  by injection Hl as <-.
Qed.

Lemma demo_ready : provisioning_ready (demo_provisioning 78) demo_platform (demo_id 78).
Proof.
  split.
  - apply uuid_roundtrip.
  - simpl. rewrite map_size_singleton. lia.
  - intros l1 l2 Heq H1 H2.
    assert (∀ l, 1 ≤ l ≤ 3 → l = 1 ∨ l = 2 ∨ l = 3) as Hl by lia.
    destruct (Hl l1 H1) as [->|[->| ->]], (Hl l2 H2) as [->|[->| ->]]; try done;
      exfalso; revert Heq; apply (bool_decide_unpack _); by vm_compute.
  - intros id ->%demo_alloc_ids. split; [apply (bool_decide_unpack _); by vm_compute|by vm_compute].
  - intros r op Hop.
    assert (map_Forall (λ _ i, (if account_at (env_tb demo_env) i is Some a
      then negb (DebitsMustNotExceedCredits (ac_Flags a)) else false) = true) demo_operators) as Hall
      by (apply (bool_decide_unpack _); by vm_compute).
    specialize (Hall r op Hop). cbv beta in Hall. change (env_tb (w_env (pf_world demo_platform))) with (env_tb demo_env).
    destruct (account_at (env_tb demo_env) op) as [a|]; [|done]. exists a. split; [done|].
    by destruct (DebitsMustNotExceedCredits (ac_Flags a)).
  - intros r a. apply lookup_empty.
Qed.

Definition provisioned : Platform := (TenantProvisioningWorkflow (demo_provisioning 78) demo_platform).2.

Lemma provisioned_succeeds :
  succeeds (TenantProvisioningWorkflow (demo_provisioning 78) demo_platform) = true.
Proof. by vm_compute. Qed.

(** The tenant of the demo database again. *)
Definition again : outcome TenantProvisioningResult * Platform :=
  TenantProvisioningWorkflow (demo_provisioning 77) demo_platform.

Lemma reprovisioning_fails_witness : ∃ e, again.1 = Err (EWrap "InsertTenant" e).
Proof.
  apply (reprovisioning_fails (demo_provisioning 77) demo_platform again.1 again.2 (demo_id 77)).
  - apply uuid_roundtrip.
  - eexists. apply lookup_singleton_eq.
  - intros w w' [].
  - apply surjective_pairing.
Defined.

Lemma failed_provisioning_starts_nothing_witness :
  running (pf_temporal again.2) (AccountingWorkflowID (uuid_String (demo_id 77))) = None.
Proof.
  rewrite (failed_provisioning_starts_nothing (demo_provisioning 77) demo_platform again.1 again.2).
  - apply lookup_empty.
  - apply surjective_pairing.
  - intros r. by vm_compute.
Defined.

Definition demo_registration : RegisterClusterWorkflowInput :=
  {| rc_ClusterID := uuid_String (demo_id 901); rc_TenantID := uuid_String (demo_id 78);
     rc_CloudProvider := "aws"; rc_Region := "eu-west-1" |}.

Lemma registered_succeeds : succeeds (RegisterClusterWorkflow demo_registration provisioned) = true.
Proof. by vm_compute. Qed.
