(* ===== verification/Floats.v ===== *)
(** * Float64 arithmetic of the gateway

    The gateway converts integers to [float64], divides two of them and compares
    the quotient with the literal 0.8 (status of a quota), converts sequence
    numbers (Valkey scores) and scales an integer by the literals 0.50 and 0.99
    (percentiles); the message rate and the simulator add, multiply and divide.  A finite non-negative [float64] is a pair of a mantissa and an
    exponent, [m * 2^e]; every operation is the exact result rounded to 53 bits,
    half to even.  The numbers involved stay far from the subnormal and the
    overflow range. *)

From S2P Require Import Prelude.
From Stdlib Require Import Floats.SpecFloat.

(** Nearest integer to [p / q] for [0 < q], half to even. *)
Definition round_half_even (p q : Z) : Z :=
  let d := p / q in
  let r := p mod q in
  if decide (2 * r < q) then d
  else if decide (q < 2 * r) then d + 1
  else if Z.even d then d else d + 1.

(** [float64(n)] for [0 <= n]: an integer again. *)
Definition float64 (n : Z) : Z :=
  if decide (n < 2 ^ 53) then n
  else let e := Z.log2 n - 52 in round_half_even n (2 ^ e) * 2 ^ e.

(** A [float64] value [m * 2^e]. *)
Record float := Float { fl_m : Z; fl_e : Z }.

(** The quotient of two integers in the [float64] format, [0 <= a] and [0 < b]. *)
Definition float_div (a b : Z) : float :=
  if decide (a = 0) then Float 0 0 else
  let e := Z.log2 a - Z.log2 b - 52 in
  let num := a * 2 ^ Z.max 0 (- e) in
  let den := b * 2 ^ Z.max 0 e in
  if decide (num < den * 2 ^ 52) then Float (round_half_even (2 * num) den) (e - 1)
  else Float (round_half_even num den) e.

(** [x >= y] *)
Definition float_ge (x y : float) : bool :=
  bool_decide (fl_m y * 2 ^ Z.max 0 (fl_e y - fl_e x) ≤ fl_m x * 2 ^ Z.max 0 (fl_e x - fl_e y)).

(** The literals 0.8 and 0.99 as the compiler rounds them. *)
Definition literal_0_8 : float := Float 7205759403792794 (-53).
Definition literal_0_99 : float := Float 8917127262193582 (-53).

(** [int(float64(n) * x)] for [0 <= n < 2^53] and a literal [x] below one. *)
Definition scaled_index (n : Z) (x : float) : Z :=
  let p := n * fl_m x in
  let k := Z.max 0 (Z.log2 p - 52) in
  Z.shiftr (round_half_even p (2 ^ k) * 2 ^ k) (- fl_e x).

(** Rounding of [m * 2^e], and the operations on non-negative values that the
    metrics and the simulator use. *)
Definition float_norm (m e : Z) : float :=
  if decide (m < 2 ^ 53) then Float m e
  else let k := Z.log2 m - 52 in Float (round_half_even m (2 ^ k)) (e + k).

Definition float_of_Z (n : Z) : float := float_norm n 0.
Definition float_mul (x y : float) : float := float_norm (fl_m x * fl_m y) (fl_e x + fl_e y).
Definition float_add (x y : float) : float :=
  let e := Z.min (fl_e x) (fl_e y) in
  float_norm (fl_m x * 2 ^ (fl_e x - e) + fl_m y * 2 ^ (fl_e y - e)) e.
Definition float_quot (x y : float) : float :=
  let q := float_div (fl_m x) (fl_m y) in Float (fl_m q) (fl_e q + fl_e x - fl_e y).

(** [int64(x)] *)
Definition float_trunc (x : float) : Z :=
  if decide (0 ≤ fl_e x) then fl_m x * 2 ^ fl_e x else fl_m x / 2 ^ (- fl_e x).

(** ** Agreement with the Standard Library's specification of binary64 *)

Definition sf_of_Z (n : Z) : spec_float := binary_normalize 53 1024 n 0 false.
Definition sf_of_float (x : float) : spec_float := binary_normalize 53 1024 (fl_m x) (fl_e x) false.

Definition div_agrees (a b : Z) : bool :=
  match SFcompare (SFdiv 53 1024 (sf_of_Z a) (sf_of_Z b)) (sf_of_float (float_div (float64 a) (float64 b)))
  with Some Eq => true | _ => false end.

Example div_agrees_samples :
  forallb (λ '(a, b), div_agrees a b)
    [(0, 7); (1, 3); (2, 3); (4, 5); (799999, 1000000); (800000, 1000000); (1, 2 ^ 62);
     (2 ^ 62 + 12345, 3); (2 ^ 63 - 1, 2 ^ 63 - 1); (2 ^ 53 + 1, 2 ^ 53 - 1); (123456789, 987654321)] = true.
Proof. vm_compute. reflexivity. Qed.

Example conversion_samples :
  forallb (λ n, match SFcompare (sf_of_Z n) (sf_of_Z (float64 n)) with
                | Some Eq => bool_decide (float64 n mod 2 ^ Z.max 0 (Z.log2 n - 52) = 0)
                | _ => false end)
    [0; 1; 2 ^ 53 - 1; 2 ^ 53; 2 ^ 53 + 1; 2 ^ 53 + 3; 2 ^ 60 + 127; 2 ^ 60 + 128; 2 ^ 60 + 129;
     2 ^ 60 + 384; 2 ^ 64 - 1; 2 ^ 63 + 1023; 2 ^ 63 + 1025] = true.
Proof. vm_compute. reflexivity. Qed.

Definition ops_agree (x y : float) : bool :=
  let agree f g := match SFcompare (f (sf_of_float x) (sf_of_float y)) (sf_of_float (g x y)) with
                   | Some Eq => true | _ => false end in
  agree (SFmul 53 1024) float_mul && agree (SFadd 53 1024) float_add && agree (SFdiv 53 1024) float_quot.

Example ops_agree_samples :
  forallb (λ '(x, y), ops_agree x y)
    [(Float 3 (-1), Float 5 0); (literal_0_8, literal_0_99); (Float 1 0, literal_0_8);
     (Float (2 ^ 53 - 1) 0, Float (2 ^ 53 - 1) (-52)); (Float 1 60, Float 1 (-60));
     (Float 7 0, Float 3 0); (Float 500000001 0, Float 1000000007 (-30))] = true.
Proof. vm_compute. reflexivity. Qed.

Example literal_samples :
  SFcompare (sf_of_float literal_0_8) (SFdiv 53 1024 (sf_of_Z 4) (sf_of_Z 5)) = Some Eq ∧
  SFcompare (sf_of_float literal_0_99) (SFdiv 53 1024 (sf_of_Z 99) (sf_of_Z 100)) = Some Eq.
Proof. vm_compute. split; reflexivity. Qed.

(** ** Rounding *)

Lemma round_half_even_spec p q :
  0 < q → let m := round_half_even p q in
  (2 * m - 1) * q ≤ 2 * p ≤ (2 * m + 1) * q ∧
  (2 * p = (2 * m - 1) * q ∨ 2 * p = (2 * m + 1) * q → Z.even m = true).
Proof.
  intros Hq m. unfold m, round_half_even.
  pose proof (Z.div_mod p q ltac:(lia)) as Hdm. pose proof (Z.mod_pos_bound p q Hq) as Hr.
  set (d := p / q) in *. set (r := p mod q) in *.
  repeat case_decide; [split; [|intros [|]]; nia..|].
  destruct (Z.even d) eqn:Hd; [split; [nia|]; intros; done|]. split; [nia|].
  intros _. rewrite Z.even_add, Hd. done.
Qed.

Lemma round_half_even_mono p1 p2 q :
  0 < q → p1 ≤ p2 → round_half_even p1 q ≤ round_half_even p2 q.
Proof.
  intros Hq Hp.
  pose proof (round_half_even_spec p1 q Hq) as [H1 E1]. pose proof (round_half_even_spec p2 q Hq) as [H2 E2].
  set (m1 := round_half_even p1 q) in *. set (m2 := round_half_even p2 q) in *. cbv zeta in *.
  destruct (Z.le_gt_cases m1 m2) as [|Hgt]; [done|]. exfalso.
  assert (m1 = m2 + 1) as Heq by nia. subst m1. rewrite Heq in *.
  assert (Z.even (m2 + 1) = true) as A by (apply E1; left; nia).
  assert (Z.even m2 = true) as A2 by (apply E2; right; nia).
  rewrite Z.even_add, A2 in A. done.
Qed.

Lemma round_half_even_ge p q m :
  0 < q → Z.even m = true → m ≤ round_half_even p q ↔ (2 * m - 1) * q ≤ 2 * p.
Proof.
  intros Hq He. pose proof (round_half_even_spec p q Hq) as [Hs Ht].
  set (n := round_half_even p q) in *. cbv zeta in *. split; [nia|]. intros Hm.
  destruct (Z.le_gt_cases m n) as [|Hlt]; [done|]. exfalso.
  assert (m = n + 1) as -> by nia.
  assert (Z.even n = true) as A by (apply Ht; right; nia). rewrite Z.even_add, A in He. done.
Qed.

Lemma round_half_even_exact m q : 0 < q → round_half_even (m * q) q = m.
Proof.
  intros Hq. unfold round_half_even. rewrite Z.div_mul, Z.mod_mul by lia. by rewrite decide_True by lia.
Qed.

(** ** Conversion of integers *)

Lemma float64_exact n : n ≤ 2 ^ 53 → float64 n = n.
Proof.
  intros Hn. unfold float64. case_decide; [done|]. assert (n = 2 ^ 53) as -> by lia.
  vm_compute. reflexivity.
Qed.

Lemma float64_binade n :
  2 ^ 53 ≤ n → 2 ^ Z.log2 n ≤ float64 n ≤ 2 ^ (Z.log2 n + 1).
Proof.
  intros Hn. unfold float64. rewrite decide_False by lia.
  pose proof (Z.log2_spec n ltac:(lia)) as [Hlo Hhi].
  assert (53 ≤ Z.log2 n) as Hl by (apply Z.log2_le_pow2; lia).
  set (l := Z.log2 n) in *. cbv zeta. set (q := 2 ^ (l - 52)).
  assert (0 < q) as Hq by (apply Z.pow_pos_nonneg; lia).
  assert (2 ^ l = 2 ^ 52 * q) as E1 by (unfold q; rewrite <- Z.pow_add_r by lia; f_equal; lia).
  assert (2 ^ Z.succ l = 2 ^ 53 * q) as E2 by (unfold q; rewrite <- Z.pow_add_r by lia; f_equal; lia).
  replace (l + 1) with (Z.succ l) by lia. rewrite E1 in *. rewrite E2 in *.
  pose proof (round_half_even_mono (2 ^ 52 * q) n q Hq ltac:(lia)) as M1.
  pose proof (round_half_even_mono n (2 ^ 53 * q) q Hq ltac:(lia)) as M2.
  rewrite round_half_even_exact in M1, M2 by done. nia.
Qed.

(** Conversion is monotone, so a greater score means a greater sequence number. *)
Lemma float64_mono n m : n ≤ m → float64 n ≤ float64 m.
Proof.
  intros Hnm. destruct (Z.lt_ge_cases n (2 ^ 53)) as [Hn|Hn].
  - rewrite (float64_exact n) by lia. destruct (Z.lt_ge_cases m (2 ^ 53)) as [Hm|Hm].
    + by rewrite (float64_exact m) by lia.
    + pose proof (float64_binade m Hm) as [Hb _].
      assert (2 ^ 53 ≤ 2 ^ Z.log2 m); [|lia].
      apply Z.pow_le_mono_r; [lia|]. apply Z.log2_le_pow2; lia.
  - pose proof (float64_binade n Hn) as [_ Hb]. pose proof (float64_binade m ltac:(lia)) as [Hb' _].
    pose proof (Z.log2_le_mono n m Hnm) as Hl.
    destruct (Z.eq_dec (Z.log2 n) (Z.log2 m)) as [He|He].
    + unfold float64. rewrite !decide_False by lia. rewrite He. cbv zeta.
      assert (53 ≤ Z.log2 m) as Hlm by (apply Z.log2_le_pow2; lia).
      assert (0 < 2 ^ (Z.log2 m - 52)) as Hq by (apply Z.pow_pos_nonneg; lia).
      pose proof (round_half_even_mono n m _ Hq Hnm). nia.
    + assert (2 ^ (Z.log2 n + 1) ≤ 2 ^ Z.log2 m); [|lia].
      apply Z.pow_le_mono_r; [lia|]. lia.
Qed.

(** ** The 80 percent threshold *)

(** Scaling of the quotient: the mantissa has 53 bits. *)
Lemma float_div_binade a b :
  0 < a → 0 < b →
  let e := Z.log2 a - Z.log2 b - 52 in
  b * 2 ^ Z.max 0 e * 2 ^ 51 < a * 2 ^ Z.max 0 (- e) < b * 2 ^ Z.max 0 e * 2 ^ 53.
Proof.
  intros Ha Hb e. pose proof (Z.log2_spec a Ha) as [Ha1 Ha2]. pose proof (Z.log2_spec b Hb) as [Hb1 Hb2].
  pose proof (Z.log2_nonneg a). pose proof (Z.log2_nonneg b).
  set (la := Z.log2 a) in *. set (lb := Z.log2 b) in *.
  assert (2 ^ Z.succ la = 2 * 2 ^ la) as Sa by (apply Z.pow_succ_r; lia).
  assert (2 ^ Z.succ lb = 2 * 2 ^ lb) as Sb by (apply Z.pow_succ_r; lia).
  destruct (Z.le_gt_cases e 0) as [He|He].
  - rewrite (Z.max_l 0 e), (Z.max_r 0 (- e)) by lia. rewrite Z.mul_1_r.
    assert (2 ^ la * 2 ^ (- e) = 2 ^ lb * 2 ^ 52) as E.
    { rewrite <- !Z.pow_add_r by lia. f_equal. unfold e. lia. }
    assert (0 < 2 ^ (- e)) by (apply Z.pow_pos_nonneg; lia). nia.
  - rewrite (Z.max_r 0 e), (Z.max_l 0 (- e)) by lia. rewrite Z.mul_1_r.
    assert (2 ^ la = 2 ^ lb * 2 ^ 52 * 2 ^ e) as E.
    { rewrite <- !Z.pow_add_r by lia. f_equal. unfold e. lia. }
    assert (0 < 2 ^ e) by (apply Z.pow_pos_nonneg; lia). nia.
Qed.

Lemma float_div_spec a b :
  0 < a → 0 < b → ∃ num den,
  let e := fl_e (float_div a b) in
  0 < den ∧ den * 2 ^ 52 ≤ num < den * 2 ^ 53 ∧ fl_m (float_div a b) = round_half_even num den ∧
  num * b * 2 ^ Z.max 0 e = a * den * 2 ^ Z.max 0 (- e).
Proof.
  intros Ha Hb. pose proof (float_div_binade a b Ha Hb) as Hbin. unfold float_div.
  rewrite decide_False by lia. cbv zeta in *. set (e := Z.log2 a - Z.log2 b - 52) in *.
  assert (0 < 2 ^ Z.max 0 e) by (apply Z.pow_pos_nonneg; lia).
  case_decide as Hd; cbn [fl_e fl_m].
  - exists (2 * (a * 2 ^ Z.max 0 (- e))), (b * 2 ^ Z.max 0 e). split_and!; [nia|nia|nia|done|].
    destruct (Z.le_gt_cases e 0).
    + rewrite (Z.max_l 0 e), (Z.max_r 0 (- e)), (Z.max_l 0 (e - 1)), (Z.max_r 0 (- (e - 1))) by lia.
      replace (- (e - 1)) with (Z.succ (- e)) by lia. rewrite Z.pow_succ_r by lia. lia.
    + rewrite (Z.max_r 0 e), (Z.max_l 0 (- e)), (Z.max_r 0 (e - 1)), (Z.max_l 0 (- (e - 1))) by lia.
      replace e with (Z.succ (e - 1)) at 2 by lia. rewrite Z.pow_succ_r by lia. lia.
  - exists (a * 2 ^ Z.max 0 (- e)), (b * 2 ^ Z.max 0 e). split_and!; [nia|nia|nia|done|lia].
Qed.

Lemma literal_0_8_arith u t :
  0 < t → t ≤ 2 ^ 53 → (2 * 7205759403792794 - 1) * t ≤ 2 ^ 54 * u ↔ 4 * t ≤ 5 * u.
Proof. lia. Qed.

(** [float64(used)/float64(total) >= 0.8] decides the exact comparison. *)
Lemma ratio_ge_0_8 used total :
  0 ≤ used ≤ 2 ^ 53 → 0 < total ≤ 2 ^ 53 →
  float_ge (float_div (float64 used) (float64 total)) literal_0_8 = true ↔ 4 * total ≤ 5 * used.
Proof.
  intros Hu Ht. rewrite !float64_exact by lia. unfold float_ge. rewrite bool_decide_eq_true.
  destruct (Z.eq_dec used 0) as [->|Hnz].
  { unfold float_div. rewrite decide_True by done. simpl. lia. }
  destruct (float_div_spec used total ltac:(lia) ltac:(lia)) as (num & den & Hden & Hrange & Hm & Heq).
  cbv zeta in *. set (e := fl_e (float_div used total)) in *. rewrite Hm. unfold literal_0_8. cbn [fl_m fl_e].
  assert (2 ^ 52 ≤ round_half_even num den ≤ 2 ^ 53) as Hb.
  { pose proof (round_half_even_mono (2 ^ 52 * den) num den Hden ltac:(lia)) as M1.
    pose proof (round_half_even_mono num (2 ^ 53 * den) den Hden ltac:(lia)) as M2.
    rewrite round_half_even_exact in M1, M2 by done. lia. }
  destruct (Z.lt_trichotomy e (-53)) as [He|[He|He]].
  - assert (2 ^ 1 ≤ 2 ^ Z.max 0 (-53 - e)) by (apply Z.pow_le_mono_r; lia).
    rewrite (Z.max_l 0 (e - -53)) by lia.
    rewrite (Z.max_l 0 e), (Z.max_r 0 (- e)) in Heq by lia.
    assert (2 ^ 54 ≤ 2 ^ (- e)) by (apply Z.pow_le_mono_r; lia). split; [nia|].
    intros Hge. exfalso.
    assert (used * den * 2 ^ 54 ≤ used * den * 2 ^ (- e)) by (apply Z.mul_le_mono_nonneg_l; nia).
    assert (num * total < den * 2 ^ 53 * total) by nia.
    assert (den * (2 * used) < den * total) as Hlt by lia.
    apply Z.mul_lt_mono_pos_l in Hlt; lia.
  - rewrite He in *. change (Z.max 0 (-53 - -53)) with 0. change (2 ^ 0) with 1.
    rewrite !Z.mul_1_r. change (Z.max 0 (-53)) with 0 in Heq. change (Z.max 0 (- -53)) with 53 in Heq.
    rewrite (round_half_even_ge num den) by done. rewrite <- (literal_0_8_arith used total) by lia. nia.
  - rewrite (Z.max_l 0 (-53 - e)), (Z.max_r 0 (e - -53)) by lia.
    assert (2 ^ 1 ≤ 2 ^ (e - -53)) by (apply Z.pow_le_mono_r; lia).
    assert (2 ^ Z.max 0 (- e) ≤ 2 ^ 52) by (apply Z.pow_le_mono_r; lia).
    assert (1 ≤ 2 ^ Z.max 0 e) by (apply (Z.pow_le_mono_r 2 0); lia).
    assert (0 < 2 ^ Z.max 0 (- e)) by (apply Z.pow_pos_nonneg; lia).
    split; [intros _|nia].
    assert (total * 2 ^ 52 ≤ used * 2 ^ 52); [|lia].
    assert (den * 2 ^ 52 * total ≤ num * total) by (apply Z.mul_le_mono_nonneg_r; lia).
    assert (num * total * 1 ≤ num * total * 2 ^ Z.max 0 e) by (apply Z.mul_le_mono_nonneg_l; nia).
    assert (used * den * 2 ^ Z.max 0 (- e) ≤ used * den * 2 ^ 52) by (apply Z.mul_le_mono_nonneg_l; nia).
    assert (den * (total * 2 ^ 52) ≤ den * (used * 2 ^ 52)) as Hle by lia.
    by apply Z.mul_le_mono_pos_l in Hle.
Qed.

(** ** Percentile indices *)

Definition latRingSize : Z := 2048.

(** For every possible number of samples both indices are inside the buffer and
    in order: checked for all sizes of the ring. *)
Lemma percentile_indices n :
  0 < n ≤ latRingSize →
  0 ≤ n / 2 ≤ scaled_index n literal_0_99 ∧ scaled_index n literal_0_99 < n ∧
  99 * n - 100 < 100 * scaled_index n literal_0_99 ≤ 99 * n.
Proof.
  assert (forallb (λ i, let n := Z.of_nat i + 1 in let k := scaled_index n literal_0_99 in
    (n / 2 <=? k) && (k <? n) && (99 * n - 100 <? 100 * k) && (100 * k <=? 99 * n)) (seq 0 2048) = true) as Hall
    by (vm_compute; reflexivity).
  unfold latRingSize. intros Hn. rewrite forallb_forall in Hall.
  specialize (Hall (Z.to_nat (n - 1))). cbv zeta in Hall.
  replace (Z.of_nat (Z.to_nat (n - 1)) + 1) with n in Hall by lia.
  specialize (Hall ltac:(apply in_seq; lia)).
  apply andb_true_iff in Hall as [[[H1 H2]%andb_true_iff H3]%andb_true_iff H4].
  pose proof (Z.div_pos n 2 ltac:(lia) ltac:(lia)). lia.
Qed.
