(* ===== verification/Dedup.v ===== *)
(** * Gateway deduplication (internal/gateway/dedup.go)

    The interface [Deduplicator] as a class with what the handlers rely on, the
    in-memory implementation with its pruning loop, and the Valkey one.  Valkey is
    a parameter: sorted sets with one member, [ZADD GT CH] and [EXPIRE]. *)

From S2P Require Import Prelude Floats.

(** ** The interface *)

(** [IsDuplicate] at the time [now], on the state of the deduplicator. *)
Class Deduplicator (D : Type) := {
  IsDuplicate : Z → string → Z → D → bool * D;
}.

(** What a client may rely on, for sequence numbers up to [dedup_max]: the state
    remembers only numbers that were presented, and a number is called a duplicate
    only if one at least as large is remembered for the same cluster. *)
Class DedupLaws (D : Type) `{Deduplicator D} := {
  remembers : D → string → Z → Prop;
  dedup_max : Z;
  dedup_true now c seq d d' :
    seq ≤ dedup_max → IsDuplicate now c seq d = (true, d') →
    ∃ seq', seq ≤ seq' ∧ remembers d c seq';
  dedup_remembers now c seq d b d' c' q :
    seq ≤ dedup_max → IsDuplicate now c seq d = (b, d') → remembers d' c' q →
    remembers d c' q ∨ (c' = c ∧ q = seq);
}.

(** ** In memory *)

Record dedupEntry := { de_seq : Z; de_seenAt : Z }.
Record MemDedup := { md_entries : gmap string dedupEntry; md_ttl : Z }.

Definition NewMemDedup (ttl : Z) : MemDedup := {| md_entries := ∅; md_ttl := ttl |}.

Definition mem_IsDuplicate (now : Z) (clusterID : string) (seq : Z) (d : MemDedup) : bool * MemDedup :=
  let advance := {| d with md_entries :=
                      <[clusterID := {| de_seq := seq; de_seenAt := now |}]> (md_entries d) |} in
  match md_entries d !! clusterID with
  | None => (false, advance)
  | Some e => if decide (seq > de_seq e) then (false, advance) else (true, d)
  end.


#[export] Instance mem_dedup : Deduplicator MemDedup := {| IsDuplicate := mem_IsDuplicate |}.

(** ** Valkey *)

Class Valkey := {
  VState : Type;
  (** the score of the member "s" of a key, an integer-valued float *)
  score : VState → string → option Z;
  (** [ZADD key GT CH score s]: the number of changed members *)
  ZAddGTCH : string → Z → M VState Z;
  Expire : string → Z → M VState unit;
}.

(** Documented behaviour: [GT] only raises an existing score and adds a missing
    member, [CH] counts the change; a failed call may or may not have been
    executed; [EXPIRE] does not touch scores. *)
Class ValkeyLaws (V : Valkey) := {
  ZAdd_Ok key x s n s' :
    ZAddGTCH key x s = (Ok n, s') →
    n = (match score s key with Some y => if decide (y < x) then 1 else 0 | None => 1 end) ∧
    score s' key = Some (match score s key with Some y => Z.max x y | None => x end) ∧
    ∀ key', key' ≠ key → score s' key' = score s key';
  ZAdd_Err key x s e s' :
    ZAddGTCH key x s = (Err e, s') →
    (score s' key = score s key ∨
     score s' key = Some (match score s key with Some y => Z.max x y | None => x end)) ∧
    ∀ key', key' ≠ key → score s' key' = score s key';
  ZAdd_no_panic key x s p s' : ZAddGTCH key x s ≠ (Panic p, s');
  Expire_score key ttl s o s' key' :
    Expire key ttl s = (o, s') → score s' key' = score s key';
}.

Record redisDedup `{Valkey} := { rd_client : VState; rd_ttl : Z }.
Arguments redisDedup {_}.

Definition dedup_key (clusterID : string) : string := "dedup:" +:+ clusterID.

(** Fails open: an error of the client means "not a duplicate". *)
Definition redis_IsDuplicate `{Valkey} (now : Z) (clusterID : string) (seq : Z) (d : redisDedup)
    : bool * redisDedup :=
  let key := dedup_key clusterID in
  match ZAddGTCH key (float64 seq) (rd_client d) with
  | (Ok changed, s) =>
      let '(_, s) := Expire key (rd_ttl d) s in
      (bool_decide (changed = 0), {| d with rd_client := s |})
  | (_, s) => (false, {| d with rd_client := s |})
  end.

#[export] Instance redis_dedup `{Valkey} : Deduplicator redisDedup :=
  {| IsDuplicate := redis_IsDuplicate |}.

(** ** The implementations keep the promise *)

#[export] Instance mem_dedup_laws : DedupLaws MemDedup.
Proof.
  refine {| remembers d c q := de_seq <$> md_entries d !! c = Some q; dedup_max := 2 ^ 64 |}.
  - intros now c seq d d' _. simpl. unfold mem_IsDuplicate.
    destruct (md_entries d !! c) as [e|]; [|done]. case_decide; [done|]. intros _.
    exists (de_seq e). split; [lia|done].
  - intros now c seq d b d' c' q _. simpl. unfold mem_IsDuplicate.
    assert (remembers_insert : ∀ m : gmap string dedupEntry,
      de_seq <$> <[c := {| de_seq := seq; de_seenAt := now |}]> m !! c' = Some q →
      de_seq <$> m !! c' = Some q ∨ (c' = c ∧ q = seq)).
    { intros m. destruct (decide (c' = c)) as [->|Hne]; [rewrite lookup_insert_eq|rewrite lookup_insert_ne by done].
      - intros [= <-]. by right.
      - by left. }
    destruct (md_entries d !! c) as [e|]; [case_decide|]; intros Hd; inv Hd; auto.
Defined.

Lemma dedup_key_inj c c' : dedup_key c = dedup_key c' → c = c'.
Proof. apply (inj (String.append "dedup:")). Qed.

(** Above 2^53 the score is rounded, so the promise is made up to there. *)
#[export] Instance redis_dedup_laws `{VL : ValkeyLaws} : DedupLaws redisDedup.
Proof.
  refine {| remembers d c q := score (rd_client d) (dedup_key c) = Some q; dedup_max := 2 ^ 53 |}.
  - intros now c seq d d' Hs. simpl. unfold redis_IsDuplicate. rewrite float64_exact by done.
    destruct (ZAddGTCH _ _ _) as [[n|e|x] s] eqn:E; [|done..].
    apply ZAdd_Ok in E as (-> & _). destruct (Expire _ _ s) as [o s'].
    destruct (score (rd_client d) (dedup_key c)) as [y|]; [case_decide|]; try done.
    intros _. exists y. split; [lia|done].
  - intros now c seq d b d' c' q Hs. simpl. unfold redis_IsDuplicate. rewrite float64_exact by done.
    assert (∀ s : VState, (∀ key', key' ≠ dedup_key c → score s key' = score (rd_client d) key') →
      (score s (dedup_key c) = score (rd_client d) (dedup_key c) ∨ score s (dedup_key c) =
         Some (match score (rd_client d) (dedup_key c) with Some y => Z.max seq y | None => seq end)) →
      score s (dedup_key c') = Some q →
      score (rd_client d) (dedup_key c') = Some q ∨ (c' = c ∧ q = seq)) as Hcase.
    { intros s Hne Hc Hq. destruct (decide (c' = c)) as [->|Hn].
      - destruct Hc as [Hc|Hc]; [left; congruence|].
        destruct (score (rd_client d) (dedup_key c)) as [y|]; [|right; split; congruence].
        destruct (Z.max_spec seq y) as [[_ Hm]|[_ Hm]]; rewrite Hm in Hc;
          [left; congruence|right; split; congruence].
      - left. rewrite <- Hne; [done|]. intros Hk. by apply dedup_key_inj in Hk. }
    destruct (ZAddGTCH _ _ _) as [[n|e|x] s] eqn:E.
    + apply ZAdd_Ok in E as (_ & Hc & Hne). destruct (Expire _ _ s) as [o s'] eqn:Ex.
      intros Hd. inv Hd. simpl. rewrite (Expire_score _ _ _ _ _ _ Ex). apply Hcase; auto.
    + apply ZAdd_Err in E as [Hc Hne]. intros Hd. inv Hd. by apply Hcase.
    + by apply ZAdd_no_panic in E.
Defined.

(** ** Runs *)

(** Calls of [IsDuplicate] on one deduplicator, with what else may happen to its
    state in between: pruning, expiry, and in general anything that only forgets. *)
Section runs.
Context `{DL : DedupLaws D}.




End runs.


(** ** The in-memory deduplicator, exactly *)


(** A sequence of calls: time, cluster and sequence number. *)
Fixpoint answers (ops : list (Z * string * Z)) (d : MemDedup) : list bool :=
  match ops with
  | [] => []
  | (now, c, seq) :: ops => let '(b, d') := IsDuplicate now c seq d in b :: answers ops d'
  end.

(** A number at least [seq] was presented for [c]. *)
Definition presented (ops : list (Z * string * Z)) (c : string) (seq : Z) : Prop :=
  ∃ now q, (now, c, q) ∈ ops ∧ seq ≤ q.

Lemma answers_exact past ops d :
  (∀ c seq, (∃ e, md_entries d !! c = Some e ∧ seq ≤ de_seq e) ↔ presented past c seq) →
  ∀ i now c seq b, ops !! i = Some (now, c, seq) → answers ops d !! i = Some b →
  b = true ↔ presented (past ++ take i ops) c seq.
Proof.
  revert past d. induction ops as [|[[now0 c0] seq0] ops IH]; intros past d Hd i now c seq b Hi Hb; [done|].
  simpl in Hb. unfold mem_IsDuplicate in Hb.
  destruct i as [|i].
  - injection Hi as -> -> ->. rewrite app_nil_r, <- Hd.
    destruct (md_entries d !! c) as [e|]; [case_decide|]; injection Hb as <-.
    + split; [done|]. intros (e' & [= <-] & ?). lia.
    + split; [|done]. intros _. exists e. split; [done|lia].
    + split; [done|]. by intros (e' & ? & _).
  - simpl in Hi. cbn [take].
    assert (∀ d', (∀ c1 q, (∃ e, md_entries d' !! c1 = Some e ∧ q ≤ de_seq e) ↔
        presented (past ++ [(now0, c0, seq0)]) c1 q) → answers ops d' !! i = Some b →
      b = true ↔ presented (past ++ (now0, c0, seq0) :: take i ops) c seq) as Hnext.
    { intros d' Hd' Hb'. rewrite cons_middle, app_assoc. by eapply IH. }
    assert (∀ c1 q, presented (past ++ [(now0, c0, seq0)]) c1 q ↔
      presented past c1 q ∨ (c1 = c0 ∧ q ≤ seq0)) as Hsnoc.
    { intros c1 q. unfold presented. setoid_rewrite elem_of_app. setoid_rewrite list_elem_of_singleton.
      split; [|naive_solver]. intros (n & q' & [Hin|[= -> -> ->]] & Hq); [left; eauto|by right]. }
    destruct (md_entries d !! c0) as [e|] eqn:He; [case_decide as Hgt|]; simpl in Hb;
      eapply Hnext; try exact Hb; intros c1 q; rewrite Hsnoc, <- Hd; cbn [md_entries].
    + destruct (decide (c1 = c0)) as [->|Hne]; [rewrite lookup_insert_eq, He|by rewrite lookup_insert_ne; naive_solver].
      split; [intros (e' & [= <-] & Hq); by right|].
      intros [(e' & [= <-] & Hq)|[_ Hq]]; eexists; (split; [done|simpl; lia]).
    + split; [naive_solver|]. intros [?|[-> Hq]]; [done|]. exists e. split; [done|lia].
    + destruct (decide (c1 = c0)) as [->|Hne]; [rewrite lookup_insert_eq, He|by rewrite lookup_insert_ne; naive_solver].
      split; [intros (e' & [= <-] & Hq); by right|].
      intros [(e' & ? & _)|[_ Hq]]; [done|]. eexists; (split; [done|simpl; lia]).
Qed.

(** Between two prunings the in-memory deduplicator is exact. On a fresh one,
    the answer to a call is "duplicate" if and only if an earlier call presented
    the same cluster with a sequence number at least as large. *)
Theorem mem_dedup_exact : ∀ ttl ops i now c seq b,
  ops !! i = Some (now, c, seq) → answers ops (NewMemDedup ttl) !! i = Some b →
  b = true ↔ presented (take i ops) c seq.
Proof.
  intros ttl ops i now c seq b. apply (answers_exact []). intros c' q. simpl. split.
  - intros (e & He & _). by rewrite lookup_empty in He.
  - intros (n & q' & Hin & _). by apply elem_of_nil in Hin.
Qed.

Lemma mem_dedup_exact_witness :
  ∃ b, answers [(0, "a", 5); (1, "b", 7); (2, "a", 5)] (NewMemDedup 10) !! 2%nat = Some b ∧
       (b = true ↔ presented [(0, "a", 5); (1, "b", 7)] "a" 5).
Proof.
  exists true. split; [by vm_compute|].
  apply (mem_dedup_exact 10 [(0, "a", 5); (1, "b", 7); (2, "a", 5)] 2 2 "a" 5); by vm_compute.
Defined.




(** ** Above 2^53 the Valkey scores collide *)

(** A sequence number that was never presented is called a duplicate: 2^53 + 1
    after 2^53, whose scores are equal. *)
Theorem redis_drops_new_above_2_53 `{VL : ValkeyLaws} : ∀ now c (d d1 : redisDedup) n s o,
  score (rd_client d) (dedup_key c) = None →
  ZAddGTCH (dedup_key c) (float64 (2 ^ 53)) (rd_client d) = (Ok n, s) →
  redis_IsDuplicate now c (2 ^ 53) d = (false, d1) →
  ZAddGTCH (dedup_key c) (float64 (2 ^ 53 + 1)) (rd_client d1) = o → (∃ n1 s1, o = (Ok n1, s1)) →
  ∃ d2, redis_IsDuplicate now c (2 ^ 53 + 1) d1 = (true, d2).
Proof.
  intros now c d d1 n s o Hnone Hadd Hd Ho (n1 & s1 & ->). unfold redis_IsDuplicate in *. rewrite Hadd in Hd.
  apply ZAdd_Ok in Hadd as (_ & Hs & _). rewrite Hnone in Hs. destruct (Expire _ _ s) as [o' s'] eqn:Ex.
  injection Hd as Hn <-. cbn [rd_client rd_ttl] in *. rewrite Ho. apply ZAdd_Ok in Ho as (-> & _ & _).
  rewrite (Expire_score _ _ _ _ _ _ Ex), Hs.
  assert (float64 (2 ^ 53 + 1) = float64 (2 ^ 53)) as -> by by vm_compute.
  rewrite decide_False by lia. destruct (Expire _ _ s1) as [o2 s2]. eexists. by rewrite bool_decide_eq_true_2.
Qed.

(** A Valkey of one map that never fails. *)
#[export] Instance demo_valkey : Valkey := {|
  VState := gmap string Z;
  score s key := s !! key;
  ZAddGTCH key x := λ s : gmap string Z,
    match s !! key with
    | Some y => if decide (y < x) then (Ok 1, <[key := x]> s) else (Ok 0, s)
    | None => (Ok 1, <[key := x]> s)
    end;
  Expire key ttl := λ s, (Ok tt, s) |}.

#[export] Instance demo_valkey_laws : ValkeyLaws demo_valkey.
Proof.
  split; simpl.
  - intros key x s n s'. destruct (s !! key) as [y|] eqn:E; [case_decide|]; intros He; inv He;
      (split_and!; [done| |intros; by rewrite ?lookup_insert_ne]).
    + rewrite lookup_insert_eq. f_equal. lia.
    + rewrite E. f_equal. lia.
    + by rewrite lookup_insert_eq.
  - intros key x s e s'. destruct (s !! key); [case_decide|]; done.
  - intros key x s e s'. destruct (s !! key); [case_decide|]; done.
  - intros key ttl s o s' key' He. by inv He.
Qed.
