(* ===== verification/Streams.v ===== *)
(** * The stream manager (internal/gateway/stream_manager.go)

    One entry per cluster.  Time is an argument of the operations that read the
    clock; the lock makes each operation one step. *)

From S2P Require Import Prelude.

Record StreamEntry := {
  se_ClusterID : string;
  se_ConnectedAt : Z;
  se_LastSeen : Z;
}.

Record StreamManager := { sm_streams : gmap string StreamEntry }.

Definition NewStreamManager : StreamManager := {| sm_streams := ∅ |}.

(** The two readings of the clock. *)
Definition Register (now1 now2 : Z) (clusterID : string) (m : StreamManager)
    : StreamEntry * StreamManager :=
  let e := {| se_ClusterID := clusterID; se_ConnectedAt := now1; se_LastSeen := now2 |} in
  (e, {| sm_streams := <[clusterID := e]> (sm_streams m) |}).

Definition Deregister (clusterID : string) (m : StreamManager) : StreamManager :=
  {| sm_streams := delete clusterID (sm_streams m) |}.

Definition Touch (now : Z) (clusterID : string) (m : StreamManager) : StreamManager :=
  match sm_streams m !! clusterID with
  | Some e => {| sm_streams := <[clusterID := {| e with se_LastSeen := now |}]> (sm_streams m) |}
  | None => m
  end.

(** The IDs in the order the map is walked. *)
Definition ActiveClusters `{GoRange} (seed : nat) (m : StreamManager) : list string :=
  (range_order seed (sm_streams m)).*1.

(** ** Histories *)

Inductive stream_op := OpRegister (now1 now2 : Z) (c : string) | OpTouch (now : Z) (c : string)
  | OpDeregister (c : string).

Definition apply_op (m : StreamManager) (op : stream_op) : StreamManager :=
  match op with
  | OpRegister now1 now2 c => (Register now1 now2 c m).2
  | OpTouch now c => Touch now c m
  | OpDeregister c => Deregister c m
  end.

(** The connection state of a cluster as the history tells it: decided by the last
    registration or deregistration. *)
Definition connected_step (c : string) (b : bool) (op : stream_op) : bool :=
  match op with
  | OpRegister _ _ c' => if decide (c' = c) then true else b
  | OpDeregister c' => if decide (c' = c) then false else b
  | OpTouch _ _ => b
  end.
Definition connected (ops : list stream_op) (c : string) : bool := foldl (connected_step c) false ops.

Lemma streams_connected ops c :
  is_Some (sm_streams (foldl apply_op NewStreamManager ops) !! c) ↔ connected ops c = true.
Proof.
  unfold connected. induction ops as [|op ops IH] using rev_ind; [simpl; rewrite lookup_empty; by split; [intros []|]|].
  rewrite !foldl_snoc. set (m := foldl apply_op NewStreamManager ops) in *.
  destruct op as [n1 n2 c'|n c'|c']; simpl.
  - rewrite lookup_insert_is_Some. case_decide; naive_solver.
  - unfold Touch. destruct (sm_streams m !! c') as [e|] eqn:E; [|done]. simpl.
    rewrite lookup_insert_is_Some, <- IH. destruct (decide (c' = c)) as [->|]; [|naive_solver].
    rewrite E. naive_solver.
  - rewrite lookup_delete_is_Some. case_decide; naive_solver.
Qed.

(** The stream manager reports the connected clusters. After any history of
    operations, [ActiveClusters] lists exactly the clusters whose last
    registration was not followed by a deregistration, each once, in whatever
    order the map is walked. *)
Theorem active_clusters_exact `{GoRange} : ∀ seed ops,
  let ids := ActiveClusters seed (foldl apply_op NewStreamManager ops) in
  NoDup ids ∧ ∀ c, c ∈ ids ↔ connected ops c = true.
Proof.
  intros seed ops ids. unfold ids, ActiveClusters.
  rewrite (range_order_perm seed). split; [apply NoDup_fst_map_to_list|]. intros c.
  rewrite <- streams_connected, range_order_perm, list_elem_of_fmap. split.
  - intros ([c' e] & -> & He%elem_of_map_to_list). by exists e.
  - intros [e He]. exists (c, e). split; [done|]. by apply elem_of_map_to_list.
Qed.

(** A cluster that reconnects before its old stream ends disappears when it ends:
    the old stream deregisters the entry of the new one. *)
Theorem reconnected_cluster_is_lost : ∀ c t1 t2 t3 t4,
  connected [OpRegister t1 t2 c; OpRegister t3 t4 c; OpDeregister c] c = false.
Proof. intros c t1 t2 t3 t4. unfold connected. simpl. by rewrite !decide_True. Qed.
