(* ===== verification/Latency.v ===== *)
(** * The latency ring (internal/gateway/heartbeat_handler.go)

    recordLatency and Percentiles of the heartbeat handler.  The lock makes each
    of them one step. *)

From stdpp Require Import sorting.
From S2P Require Import Prelude Transfers Floats.

Definition ringLen : nat := 2048.

Record LatRing := {
  latRing : list Z;
  latPos : nat;
  latFull : bool;
}.

Definition new_ring : LatRing := {| latRing := replicate ringLen 0; latPos := 0; latFull := false |}.

(** [d.Microseconds()] of a duration in nanoseconds. *)
Definition Microseconds (d : Z) : Z := Z.quot d 1000.

Definition recordLatency (d : Z) (h : LatRing) : LatRing :=
  let ring := <[latPos h := Microseconds d]> (latRing h) in
  let pos := S (latPos h) in
  if decide (ringLen ≤ pos)%nat then {| latRing := ring; latPos := 0; latFull := true |}
  else {| latRing := ring; latPos := pos; latFull := latFull h |}.

Definition literal_0_5 : float := Float 1 (-1).

Definition Percentiles (h : LatRing) : outcome (Z * Z) :=
  let n := if latFull h then ringLen else latPos h in
  if decide (n = 0%nat) then Ok (0, 0) else
  let buf := merge_sort Z.le (take n (latRing h)) in
  p50 ← index buf (Z.to_nat (scaled_index (Z.of_nat n) literal_0_5));
  p99 ← index buf (Z.to_nat (scaled_index (Z.of_nat n) literal_0_99));
  Ok (p50, p99).

(** ** What the ring holds *)

(** The last [n] elements. *)
Definition lastn {A} (n : nat) (l : list A) : list A := drop (length l - n) l.

Lemma lastn_length {A} n (l : list A) : length (lastn n l) = Nat.min n (length l).
Proof. unfold lastn. rewrite length_drop. lia. Qed.

Lemma lastn_snoc {A} n (l : list A) x :
  lastn n (l ++ [x]) = if decide (n ≤ length l)%nat
                       then match n with O => [] | S _ => drop 1 (lastn n l) ++ [x] end
                       else l ++ [x].
Proof.
  unfold lastn. rewrite length_app. simpl. case_decide as Hn.
  - destruct n as [|n]; [by rewrite drop_ge; [|rewrite length_app; simpl; lia]|].
    rewrite drop_app_le, drop_drop by lia. do 2 f_equal. lia.
  - by replace (length l + 1 - n)%nat with 0%nat by lia.
Qed.

Definition ring_holds (xs : list Z) (h : LatRing) : Prop :=
  length (latRing h) = ringLen ∧ (latPos h < ringLen)%nat ∧
  if latFull h then (ringLen ≤ length xs)%nat ∧
    drop (latPos h) (latRing h) ++ take (latPos h) (latRing h) = lastn ringLen xs
  else take (latPos h) (latRing h) = xs.

Lemma take_insert_S {A} (l : list A) i x :
  (i < length l)%nat → take (S i) (<[i := x]> l) = take i l ++ [x].
Proof.
  intros Hi. rewrite (take_S_r _ _ x); [by rewrite take_insert_ge by lia|].
  by apply list_lookup_insert_eq.
Qed.

Lemma ring_step xs h d :
  ring_holds xs h → ring_holds (xs ++ [Microseconds d]) (recordLatency d h).
Proof.
  intros (Hlen & Hpos & Hc). unfold recordLatency. set (x := Microseconds d).
  assert (take (S (latPos h)) (<[latPos h := x]> (latRing h)) = take (latPos h) (latRing h) ++ [x]) as Ht
    by (apply take_insert_S; lia).
  assert (drop (S (latPos h)) (<[latPos h := x]> (latRing h)) = drop 1 (drop (latPos h) (latRing h))) as Hdr.
  { rewrite drop_insert_lt by lia. rewrite drop_drop. f_equal. lia. }
  assert (latFull h = true → drop (S (latPos h)) (<[latPos h := x]> (latRing h)) ++
    take (S (latPos h)) (<[latPos h := x]> (latRing h)) = lastn ringLen (xs ++ [x])) as Hfull.
  { intros Hf. rewrite Hf in Hc. destruct Hc as [Hge Hl]. rewrite lastn_snoc, decide_True by done.
    unfold ringLen at 1. rewrite <- Hl, Ht, Hdr, drop_app_le, app_assoc; [done|].
    rewrite length_drop. lia. }
  assert (latFull h = false → length xs = latPos h) as Hshort.
  { intros Hf. rewrite Hf in Hc. rewrite <- Hc, length_take. lia. }
  destruct (decide (ringLen ≤ S (latPos h))%nat) as [Hw|Hw].
  - assert (S (latPos h) = ringLen) as Hs by lia. split_and!; simpl; [by rewrite length_insert|unfold ringLen; lia|].
    rewrite length_app. cbn [length]. rewrite drop_0, take_0, app_nil_r.
    destruct (latFull h) eqn:Hf.
    + destruct Hc as [Hge _]. split; [lia|]. rewrite <- Hfull by done.
      rewrite drop_ge by (rewrite length_insert; lia). by rewrite take_ge by (rewrite length_insert; lia).
    + specialize (Hshort eq_refl). split; [lia|]. unfold lastn. rewrite length_app. cbn [length].
      replace (length xs + 1 - ringLen)%nat with 0%nat by lia. rewrite drop_0, <- Hc, <- Ht.
      by rewrite take_ge by (rewrite length_insert; lia).
  - split_and!; simpl; [by rewrite length_insert|lia|]. destruct (latFull h) eqn:Hf.
    + destruct Hc as [Hge _]. split; [rewrite length_app; lia|]. by apply Hfull.
    + by rewrite Ht, Hc.
Qed.

Lemma ring_history ds : ring_holds (Microseconds <$> ds) (foldl (λ h d, recordLatency d h) new_ring ds).
Proof.
  induction ds as [|d ds IH] using rev_ind.
  - split_and!; [apply length_replicate|unfold ringLen; simpl; lia|done].
  - rewrite foldl_snoc, fmap_app. by apply ring_step.
Qed.

Lemma sorted_lookup (l : list Z) i j x y :
  StronglySorted Z.le l → (i ≤ j)%nat → l !! i = Some x → l !! j = Some y → x ≤ y.
Proof.
  intros Hs. revert i j. induction Hs as [|z l Hs IH Hz]; intros i j Hij Hi Hj; [done|].
  destruct i as [|i], j as [|j]; simpl in Hi, Hj; [|..|by eapply (IH i j); [lia|..]]; [assert (x = y) by congruence; lia| |lia].
  injection Hi as <-. rewrite list.Forall_forall in Hz. apply Hz. by eapply list_elem_of_lookup_2.
Qed.

(** C25: the reported percentiles are order statistics of the last 2048 durations.
    After any history of recorded durations, [Percentiles] returns without a
    panic; with no samples it reports zeros, otherwise the elements at the
    positions n/2 and floor(0.99 n) of the sorted last n = min(2048, recorded)
    durations in microseconds, and the median is at most the 99th percentile. *)
Theorem percentiles_exact : ∀ ds,
  let xs := lastn ringLen (Microseconds <$> ds) in
  let n := length xs in
  ∃ p50 p99, Percentiles (foldl (λ h d, recordLatency d h) new_ring ds) = Ok (p50, p99) ∧
  if decide (n = 0%nat) then p50 = 0 ∧ p99 = 0 else
  ∃ sorted i, sorted ≡ₚ xs ∧ StronglySorted Z.le sorted ∧
    sorted !! (n / 2)%nat = Some p50 ∧ sorted !! i = Some p99 ∧ p50 ≤ p99 ∧
    99 * Z.of_nat n - 100 < 100 * Z.of_nat i ≤ 99 * Z.of_nat n.
Proof.
  intros ds xs n. destruct (ring_history ds) as (Hlen & Hpos & Hc).
  set (h := foldl (λ h d, recordLatency d h) new_ring ds) in *. unfold Percentiles.
  assert (∃ m, (if latFull h then ringLen else latPos h) = m ∧ m = n ∧ take m (latRing h) ≡ₚ xs) as (m & -> & -> & Hperm).
  { eexists. split; [done|]. unfold n, xs. destruct (latFull h).
    - destruct Hc as [Hge Hl]. rewrite lastn_length. split; [lia|].
      rewrite <- Hl, take_ge by lia. rewrite Permutation_app_comm. by rewrite take_drop.
    - assert (length (Microseconds <$> ds) = latPos h) as Hl by (rewrite <- Hc, length_take; lia).
      rewrite lastn_length. split; [lia|]. rewrite Hc. unfold lastn.
      by replace (length (Microseconds <$> ds) - ringLen)%nat with 0%nat by lia. }
  destruct (decide (n = 0%nat)) as [Hz|Hz]; [by exists 0, 0|].
  set (buf := merge_sort Z.le (take n (latRing h))).
  assert (buf ≡ₚ xs) as Hbuf by (rewrite <- Hperm; apply merge_sort_Permutation).
  assert (length buf = n) as Hn by by rewrite Hbuf.
  assert (StronglySorted Z.le buf) as Hsort by (apply StronglySorted_merge_sort; apply _).
  assert (n ≤ ringLen)%nat as Hmax by (unfold n, xs; rewrite lastn_length; lia).
  pose proof (percentile_indices (Z.of_nat n)) as (H50 & H99 & Hr); [unfold latRingSize, ringLen in *; lia|].
  set (i := scaled_index (Z.of_nat n) literal_0_99) in *.
  assert (Z.to_nat (scaled_index (Z.of_nat n) literal_0_5) = (n / 2)%nat) as ->.
  { unfold scaled_index, literal_0_5. cbn [fl_m fl_e]. rewrite Z.mul_1_r.
    assert (Z.log2 (Z.of_nat n) < 53) as Hl.
    { apply Z.log2_lt_pow2; unfold ringLen in *; lia. }
    rewrite Z.max_l by lia. rewrite Z.pow_0_r, Z.mul_1_r. rewrite <- (Z.mul_1_r (Z.of_nat n)).
    rewrite round_half_even_exact by lia. change (- -1) with 1. rewrite Z.shiftr_div_pow2 by lia.
    change (2 ^ 1) with (Z.of_nat 2). rewrite <- Nat2Z.inj_div. apply Nat2Z.id. }
  assert (n / 2 < n)%nat as Hhalf by (apply Nat.div_lt; lia).
  assert (∃ p, buf !! (n / 2)%nat = Some p) as [p50 Hp50] by (apply lookup_lt_is_Some_2; lia).
  assert (∃ p, buf !! Z.to_nat i = Some p) as [p99 Hp99] by (apply lookup_lt_is_Some_2; lia).
  exists p50, p99. split.
  { unfold index. rewrite Hp50, Hp99. unfold mbind, outcome_bind. reflexivity. }
  exists buf, (Z.to_nat i). split_and!; [done..| |lia|lia].
  eapply (sorted_lookup buf); [done| |exact Hp50|exact Hp99].
  apply Nat2Z.inj_le. rewrite Nat2Z.inj_div, Z2Nat.id by lia. lia.
Qed.
