(* ===== verification/Heartbeat.v ===== *)
(** * The heartbeat handler (internal/gateway/heartbeat_handler.go)

    The unary RPC, the parts of the bidirectional stream and what they share.
    The handler's state holds the deduplicator, the stream manager, the cache of
    cluster owners, the counters, and the platform it talks to.  The clock and the
    cancellation of the request context are oracles read one after the other. *)

From stdpp Require Import pretty.
From S2P Require Import Prelude Domain TigerBeetle TBRef Ids Transfers Accounts LedgerProps.
From S2P Require Import World ActivitiesTB ActivitiesPG AccountingWorkflow Provisioning.
From S2P Require Import Floats Dedup Streams Latency.
From S2P Require Postgres.
Import Postgres(PGServer, QuotaSnapshot, qs_ResourceType, qs_CreditsTotal, qs_DebitsPosted,
  qs_DebitsPending, qs_Available).

(** ** Messages (common.pb.go, heartbeat.pb.go) *)

Inductive Status :=
  | STATUS_UNSPECIFIED | STATUS_OK | STATUS_QUOTA_WARNING | STATUS_QUOTA_EXCEEDED | STATUS_DEGRADED.
#[export] Instance Status_eq_dec : EqDecision Status.
Proof. solve_decision. Defined.

Definition Status_number (s : Status) : Z :=
  match s with
  | STATUS_UNSPECIFIED => 0 | STATUS_OK => 1 | STATUS_QUOTA_WARNING => 2
  | STATUS_QUOTA_EXCEEDED => 3 | STATUS_DEGRADED => 4
  end.

Inductive Command_Type := TYPE_UNSPECIFIED | TYPE_THROTTLE | TYPE_SCALE_DOWN | TYPE_SHUTDOWN.

Record QuotaInfo := {
  qi_ResourceType : string;
  qi_Used : Z;
  qi_Limit : Z;
  qi_Available : Z;
  qi_Status : Status;
}.

Record Command := { cmd_Type : Command_Type; cmd_Reason : string }.

(** The fields that the server reads; [hr_Timestamp] is seconds and nanoseconds. *)
Record HeartbeatRequest := {
  hr_ClusterId : string;
  hr_Timestamp : option (Z * Z);
  hr_ActiveNodes : Z;
  hr_CpuMillisecondsDelta : Z;
  hr_MemoryMbSecondsDelta : Z;
  hr_SequenceNumber : Z;
}.

Record HeartbeatResponse := {
  hp_Status : Status;
  hp_Quotas : list QuotaInfo;
  hp_AckSequence : Z;
  hp_PendingCommands : list Command;
}.

(** ** Pure parts *)

(** [encoding/hex]: the value of a digit, and the bytes decoded before the first
    invalid digit or the odd end. *)
Definition hex_digit (c : Ascii.ascii) : option Z :=
  let n := Z.of_nat (Ascii.nat_of_ascii c) in
  if bool_decide (48 ≤ n ≤ 57) then Some (n - 48)
  else if bool_decide (97 ≤ n ≤ 102) then Some (n - 87)
  else if bool_decide (65 ≤ n ≤ 70) then Some (n - 55)
  else None.

Fixpoint hex_decode (s : string) : list Z :=
  match s with
  | String a (String b rest) =>
      match hex_digit a, hex_digit b with
      | Some x, Some y => (x * 16 + y) :: hex_decode rest
      | _, _ => []
      end
  | _ => []
  end.

Definition uuidToBytes `{UUIDPkg} (id : string) : bytes16 :=
  match uuid_Parse id with
  | None => copy_bytes 16 (hex_decode id)
  | Some u => u
  end.

Definition overallStatus (quotas : list QuotaInfo) : Status :=
  let worst := foldl (λ worst q,
    if decide (Status_number (qi_Status q) > Status_number worst) then qi_Status q else worst)
    STATUS_UNSPECIFIED quotas in
  if decide (worst = STATUS_UNSPECIFIED) then STATUS_OK else worst.

Definition shutdown_reason (q : QuotaInfo) : string :=
  "quota exceeded: " +:+ qi_ResourceType q +:+ " (available: " +:+ pretty (qi_Available q) +:+ ")".

Definition buildPendingCommands (quotas : list QuotaInfo) : list Command :=
  omap (λ q, if decide (qi_Status q = STATUS_QUOTA_EXCEEDED)
             then Some {| cmd_Type := TYPE_SHUTDOWN; cmd_Reason := shutdown_reason q |}
             else None) quotas.

(** [total > 0 && float64(used)/float64(total) >= 0.8] *)
Definition near_limit (used total : Z) : bool :=
  bool_decide (total > 0) && bool_decide (0 ≤ used) &&
  float_ge (float_div (float64 used) (float64 total)) literal_0_8.

(** One row of the loop over the quota snapshots. *)
Definition quota_of (exceededResources : gmap string bool) (s : QuotaSnapshot) : QuotaInfo :=
  let available := default 0 (qs_Available s) in
  let used := if IsGauge (qs_ResourceType s) then qs_DebitsPending s else qs_DebitsPosted s in
  let status :=
    if bool_decide (qs_Available s = None) || bool_decide (available ≤ 0) ||
       default false (exceededResources !! qs_ResourceType s) then STATUS_QUOTA_EXCEEDED
    else if near_limit used (qs_CreditsTotal s) then STATUS_QUOTA_WARNING
    else STATUS_OK in
  {| qi_ResourceType := qs_ResourceType s; qi_Used := used; qi_Limit := qs_CreditsTotal s;
     qi_Available := available; qi_Status := status |}.

Definition response (ack : Z) (quotas : list QuotaInfo) : HeartbeatResponse :=
  {| hp_Status := overallStatus quotas; hp_Quotas := quotas; hp_AckSequence := ack;
     hp_PendingCommands := buildPendingCommands quotas |}.

(** The signal built from a request. *)
Definition signal_of `{UUIDPkg} (req : HeartbeatRequest) : HeartbeatSignal :=
  {| hb_ClusterID := hr_ClusterId req;
     hb_ClusterUUID := uuidToBytes (hr_ClusterId req);
     hb_SequenceNumber := hr_SequenceNumber req;
     hb_CPUMillisecondsDelta := hr_CpuMillisecondsDelta req;
     hb_MemoryMBSecondsDelta := hr_MemoryMbSecondsDelta req;
     hb_ActiveNodes := hr_ActiveNodes req;
     hb_HeartbeatTimestampNs := match hr_Timestamp req with
                                | Some (secs, nanos) => i64 (secs * 1000000000 + nanos)
                                | None => 0
                                end |}.

(** ** The handler *)

Record Gateway `{TigerBeetle} `{TemporalServer} (D : Type) := {
  gw_dedup : D;
  gw_streams : StreamManager;
  gw_cache : gmap string string;
  gw_inbound : Z;
  gw_lat : LatRing;
  gw_platform : Platform;
  gw_clock : nat → Z;
  gw_reads : nat;
  gw_done : nat → bool;
  gw_waits : nat;
}.
Arguments gw_dedup {_ _ _} _.
Arguments gw_streams {_ _ _} _.
Arguments gw_cache {_ _ _} _.
Arguments gw_inbound {_ _ _} _.
Arguments gw_lat {_ _ _} _.
Arguments gw_platform {_ _ _} _.
Arguments gw_clock {_ _ _} _.
Arguments gw_reads {_ _ _} _.
Arguments gw_done {_ _ _} _.
Arguments gw_waits {_ _ _} _.

Section handler.
Context `{TigerBeetle} `{TemporalServer} `{PGServer} `{UUIDPkg} {D : Type} `{Deduplicator D}.
Abbreviation GW := (Gateway D) (only parsing).

Definition time_Now : M GW Z := λ g,
  (Ok (gw_clock g (gw_reads g)), {| g with gw_reads := S (gw_reads g) |}).

(** [select { case <-ctx.Done(): ...; case <-time.After(...): }]: whether the
    context won. *)
Definition ctx_Done : M GW bool := λ g,
  (Ok (gw_done g (gw_waits g)), {| g with gw_waits := S (gw_waits g) |}).

Definition on_platform {A} (m : M Platform A) : M GW A :=
  zoom gw_platform (λ p g, {| g with gw_platform := p |}) m.
Definition on_pg {A} (m : M Postgres.DB A) : M GW A := on_platform (on_world (on_db m)).

Definition is_duplicate (clusterID : string) (seq : Z) : M GW bool :=
  now ← time_Now;
  dup ← gets (λ g, IsDuplicate now clusterID seq (gw_dedup g));
  _ ← modify (λ g, {| g with gw_dedup := dup.2 |});
  mret dup.1.

Definition record_latency (t0 : Z) : M GW unit :=
  t1 ← time_Now;
  modify (λ g, {| g with gw_lat := recordLatency (t1 - t0) (gw_lat g) |}).

(** The loop over the attempts of [resolveTenantID]. *)
Fixpoint resolve_loop (clusterID : string) (clusterUUID : bytes16) (attempts : nat)
    (attempt : nat) (lastErr : error) : M GW string :=
  match attempts with
  | O => fail (EWrap "GetCluster %s" lastErr)
  | S attempts =>
      cancelled ← (if decide (attempt = 0%nat) then mret false else ctx_Done);
      if (cancelled : bool) then fail ErrCanceled else
      r ← try (on_pg (Postgres.GetCluster clusterUUID));
      match r with
      | inr cluster =>
          let tenantID := uuid_String (Postgres.wc_TenantID cluster) in
          _ ← modify (λ g, {| g with gw_cache := <[clusterID := tenantID]> (gw_cache g) |});
          mret tenantID
      | inl err =>
          if errors_Is ErrNoRows err then fail (EWrap "GetCluster %s" err)
          else resolve_loop clusterID clusterUUID attempts (S attempt) err
      end
  end.

Definition resolveTenantID (clusterID : string) : M GW string :=
  cache ← gets gw_cache;
  match cache !! clusterID with
  | Some v => mret v
  | None =>
      match uuid_Parse clusterID with
      | None => fail (EWrap "cluster ID is not a valid UUID" (EMsg "invalid UUID"))
      | Some clusterUUID => resolve_loop clusterID clusterUUID 3 0 (EMsg "nil")
      end
  end.

Definition signalHeartbeat (req : HeartbeatRequest) : M GW unit :=
  tenantID ← wrap_err "resolve tenant for cluster %s" (resolveTenantID (hr_ClusterId req));
  on_platform (on_temporal (SignalWorkflow (AccountingWorkflowID tenantID) SignalHeartbeat
                              (PHeartbeat (signal_of req)))).

(** The acknowledged sequence number and the quotas. *)
Definition queryWorkflowState (clusterID : string) : M GW (Z * list QuotaInfo) :=
  tenantID ← resolveTenantID clusterID;
  let tenantWorkflowID := AccountingWorkflowID tenantID in
  st ← on_platform (on_temporal (QueryWorkflow tenantWorkflowID QueryLastTBAck));
  let ack := query_last_ack st in
  ex ← try (on_platform (on_temporal (QueryWorkflow tenantWorkflowID QueryExceededResources)));
  let exceededResources := match ex with inr st => query_exceeded st | inl _ => ∅ end in
  match uuid_Parse tenantID with
  | None => mret (ack, [])
  | Some tenantUUID =>
      snapshots ← try (on_pg (Postgres.GetQuotaSnapshots tenantUUID));
      match snapshots with
      | inl _ => mret (ack, [])
      | inr snapshots => mret (ack, quota_of exceededResources <$> snapshots)
      end
  end.

(** The unary RPC. *)
Definition Heartbeat (r : HeartbeatRequest) : M GW HeartbeatResponse :=
  let clusterID := hr_ClusterId r in
  _ ← modify (λ g, {| g with gw_inbound := u64 (gw_inbound g + 1) |});
  dup ← is_duplicate clusterID (hr_SequenceNumber r);
  _ ← (if (dup : bool) then mret tt else
       t0 ← time_Now;
       err ← try (signalHeartbeat r);
       _ ← record_latency t0;
       match err with
       | inl e => fail (EWrap "internal" e)
       | inr _ => mret tt
       end);
  q ← try (queryWorkflowState clusterID);
  let '(ack, quotas) := match q with inr q => q | inl _ => (0, []) end in
  mret (response ack quotas).

(** ** The stream *)

(** The body of the receive loop up to the channel: the cluster of the stream, and
    whether the message goes on. *)
Definition receive (clusterID : string) (req : HeartbeatRequest) : M GW (string * bool) :=
  clusterID ← (if decide (clusterID = "") then
      now1 ← time_Now; now2 ← time_Now;
      _ ← modify (λ g, {| g with gw_streams := (Register now1 now2 (hr_ClusterId req) (gw_streams g)).2 |});
      mret (hr_ClusterId req)
    else mret clusterID);
  _ ← modify (λ g, {| g with gw_inbound := u64 (gw_inbound g + 1) |});
  now ← time_Now;
  _ ← modify (λ g, {| g with gw_streams := Touch now clusterID (gw_streams g) |});
  dup ← is_duplicate clusterID (hr_SequenceNumber req);
  mret (clusterID, negb dup).

(** The retries of the dispatcher; a cancelled context ends the dispatcher. *)
Inductive dispatched := Delivered | GaveUp (e : error) | Cancelled.

Fixpoint dispatch_loop (req : HeartbeatRequest) (attempts attempt : nat) (err : error)
    : M GW dispatched :=
  match attempts with
  | O => mret (GaveUp err)
  | S attempts =>
      cancelled ← (if decide (attempt = 0%nat) then mret false else ctx_Done);
      if (cancelled : bool) then mret Cancelled else
      r ← try (signalHeartbeat req);
      match r with
      | inr _ => mret Delivered
      | inl e => dispatch_loop req attempts (S attempt) e
      end
  end.

Definition dispatch (req : HeartbeatRequest) : M GW dispatched :=
  t0 ← time_Now;
  r ← dispatch_loop req 4 0 (EMsg "nil");
  match r with
  | Cancelled => mret Cancelled
  | _ => _ ← record_latency t0; mret r
  end.

(** One tick of the send loop: the response, when there is one to send. *)
Definition tick (clusterID : string) : M GW (option HeartbeatResponse) :=
  if decide (clusterID = "") then mret None else
  q ← try (queryWorkflowState clusterID);
  match q with
  | inl _ => mret None
  | inr (ack, quotas) => mret (Some (response ack quotas))
  end.

(** The end of the stream. *)
Definition close_stream (clusterID : string) : M GW unit :=
  if decide (clusterID = "") then mret tt
  else modify (λ g, {| g with gw_streams := Deregister clusterID (gw_streams g) |}).
End handler.
