(* ===== verification/HeartbeatProps.v ===== *)
(** * Properties of the heartbeat handler *)

From stdpp Require Import sorting.
From S2P Require Import Prelude Domain TigerBeetle TBRef Ids Transfers Accounts LedgerProps.
From S2P Require Import World ActivitiesTB ActivitiesPG AccountingWorkflow Provisioning.
From S2P Require Import Floats Dedup Streams Latency Heartbeat.
From S2P Require Postgres.
Import Postgres(PGServer, QuotaSnapshot, Tables, workload_clusters, WorkloadCluster, wc_TenantID,
  qs_ResourceType, qs_CreditsTotal, qs_DebitsPosted, qs_DebitsPending, qs_Available).

(** ** Responses *)

Abbreviation worse := (λ worst q,
  if decide (Status_number (qi_Status q) > Status_number worst) then qi_Status q else worst) (only parsing).













(** ** Frames of the handler *)

Section handler.
Context `{TL : TigerBeetleLaws} `{TS : TemporalServer} `{TSL : !TemporalServerLaws TS}.
Context `{P : PGServer} `{U : UUIDPkg} {D : Type} `{DD : Deduplicator D}.
Abbreviation GW := (Gateway D) (only parsing).
Implicit Types (g : GW) (c t id : string).

Definition tables_gw g : Tables := tables_of (pf_world (gw_platform g)).
Definition inbox_gw g id := inbox (pf_temporal (gw_platform g)) id.

(** The tenant that owns a cluster, by the database. *)
Definition owns g c t : Prop := ∃ u row,
  uuid_Parse c = Some u ∧ workload_clusters (tables_gw g) !! u = Some row ∧
  t = uuid_String (wc_TenantID row).

(** The cache holds owners. *)
Definition cache_ok g : Prop := ∀ c t, gw_cache g !! c = Some t → owns g c t.

(** Nothing changes but the clock, the counters and the cache, which only gets
    owners. *)
Definition reads : relation GW := λ g g',
  gw_dedup g' = gw_dedup g ∧ gw_streams g' = gw_streams g ∧ tables_gw g' = tables_gw g ∧
  (∀ id, inbox_gw g' id = inbox_gw g id) ∧
  (∀ c t, gw_cache g' !! c = Some t → gw_cache g !! c = Some t ∨ owns g c t).

#[export] Instance reads_preorder : PreOrder reads.
Proof.
  split; [intros g; split_and!; auto|].
  intros g1 g2 g3 (A1 & B1 & C1 & D1 & E1) (A2 & B2 & C2 & D2 & E2). split_and!; [congruence..| |].
  - intros id. by rewrite D2.
  - intros c t Hc. destruct (E2 c t Hc) as [Hc2|Ho]; [by apply E1|]. right.
    unfold owns in *. by rewrite <- C1.
Qed.

Lemma reads_cache_ok g g' : reads g g' → cache_ok g → cache_ok g'.
Proof.
  intros (_ & _ & Ht & _ & Hc) Hok c t Hct. unfold owns. rewrite Ht.
  destruct (Hc c t Hct) as [Hold|]; [by apply Hok|done].
Qed.

Lemma time_Now_reads : keeps reads (time_Now : M GW Z).
Proof. intros g o g' He. inv He. split_and!; auto. Qed.
Lemma ctx_Done_reads : keeps reads (ctx_Done : M GW bool).
Proof. intros g o g' He. inv He. split_and!; auto. Qed.
Lemma record_latency_reads (t0 : Z) : keeps reads (record_latency t0 : M GW unit).
Proof.
  unfold record_latency. apply keeps_bind; [apply _|apply time_Now_reads|].
  intros t1 g o g' He. inv He. split_and!; auto.
Qed.

(** A statement that only reads. *)
Lemma on_pg_reads {A} (stmt : nat → Tables → outcome (A * Tables)) :
  (∀ n tb a tb', stmt n tb = Ok (a, tb') → tb' = tb) →
  keeps reads (on_pg (Postgres.query stmt) : M GW A).
Proof.
  intros Hs g o g' He. unfold on_pg, on_platform, on_world, on_db, zoom, Postgres.query in He.
  destruct (Postgres.db_fault _ _); [|injection He as <- <-; split_and!; auto|].
  all: destruct (stmt _ _) as [[a tb]| |] eqn:E; injection He as <- <-; split_and!; auto.
  all: by apply Hs in E.
Qed.

Lemma GetCluster_reads u : keeps reads (on_pg (Postgres.GetCluster u) : M GW WorkloadCluster).
Proof.
  apply on_pg_reads. intros n tb a tb'. destruct (workload_clusters tb !! u); intros He; by inv He.
Qed.
Lemma GetQuotaSnapshots_reads u : keeps reads (on_pg (Postgres.GetQuotaSnapshots u) : M GW _).
Proof. apply on_pg_reads. intros n tb a tb' He. by inv He. Qed.

Lemma QueryWorkflow_gw id q : keeps reads (on_platform (on_temporal (QueryWorkflow id q)) : M GW _).
Proof.
  intros g o g' He. unfold on_platform, on_temporal, zoom in He.
  destruct (QueryWorkflow id q _) as [r ts] eqn:E. injection He as <- <-.
  apply QueryWorkflow_reads in E as [Hi _]. split_and!; auto.
Qed.
#[local] Hint Resolve time_Now_reads ctx_Done_reads record_latency_reads GetCluster_reads
  GetQuotaSnapshots_reads QueryWorkflow_gw : credit.

Lemma on_pg_Ok {A} (stmt : nat → Tables → outcome (A * Tables)) g a g' :
  on_pg (Postgres.query stmt) g = (Ok a, g') →
  stmt (Postgres.db_calls (w_db (pf_world (gw_platform g)))) (tables_gw g) = Ok (a, tables_gw g').
Proof.
  unfold on_pg, on_platform, on_world, on_db, zoom, Postgres.query.
  destruct (Postgres.db_fault _ _); [|by intros [=]|].
  - destruct (stmt _ _) as [[a' tb]| |] eqn:E; intros He; inv He. done.
  - by destruct (stmt _ _) as [[a' tb]| |].
Qed.

Lemma on_pg_no_panic {A} (stmt : nat → Tables → outcome (A * Tables)) g p g' :
  (∀ n tb q, stmt n tb ≠ Panic q) → on_pg (Postgres.query stmt) g ≠ (Panic p, g').
Proof.
  intros Hs. unfold on_pg, on_platform, on_world, on_db, zoom, Postgres.query.
  destruct (Postgres.db_fault _ _); [|by intros [=]|];
    (destruct (stmt _ _) as [[a tb]| |q] eqn:E; [by intros [=]|by intros [=]|]).
  - by apply Hs in E.
  - by intros [=].
Qed.

(** ** Resolving the owner *)

Lemma GetCluster_no_panic u g p g' : on_pg (Postgres.GetCluster u) g ≠ (Panic p, g').
Proof. apply on_pg_no_panic. intros n tb q. by destruct (workload_clusters tb !! u). Qed.

Lemma GetCluster_Ok u g row g' :
  on_pg (Postgres.GetCluster u) g = (Ok row, g') → workload_clusters (tables_gw g) !! u = Some row.
Proof.
  intros He%on_pg_Ok. by destruct (workload_clusters (tables_gw g) !! u); inv He.
Qed.

Lemma resolve_loop_spec c u n k e g o g' :
  uuid_Parse c = Some u → resolve_loop c u n k e g = (o, g') →
  reads g g' ∧ match o with Ok t => owns g c t | Err _ => True | Panic _ => False end.
Proof.
  intros Hu. revert k e g. induction n as [|n IH]; intros k e g; cbn [resolve_loop].
  { intros He. by inv He. }
  rewrite bind_cases. destruct ((if decide (k = 0%nat) then mret false else ctx_Done) g) as [r g1] eqn:E1.
  assert (reads g g1 ∧ ∃ b, r = Ok b) as [R1 [b ->]].
  { case_decide; [injection E1 as <- <-; split; [done|eauto]|].
    split; [by eapply ctx_Done_reads|]. injection E1 as <- _. eauto. }
  destruct b; [intros He; by inv He|]. rewrite bind_cases. unfold try.
  destruct (on_pg (Postgres.GetCluster u) g1) as [r g2] eqn:E2.
  pose proof (GetCluster_reads u _ _ _ E2) as R2. destruct r as [row|err|p].
  - apply GetCluster_Ok in E2. intros He. inv He.
    assert (owns g c (uuid_String (wc_TenantID row))) as Ho.
    { exists u, row. destruct R1 as (_ & _ & Ht & _). by rewrite Ht in E2. }
    split; [|done]. etrans; [exact R1|]. etrans; [exact R2|]. split_and!; auto. simpl.
    intros c' t' [[-> <-]|[_ ?]]%lookup_insert_Some; [|by left]. right. unfold owns in *.
    destruct R1 as (_ & _ & Ht1 & _), R2 as (_ & _ & Ht2 & _). by rewrite Ht2, Ht1.
  - destruct (errors_Is ErrNoRows err); intros He; [inv He; split; [by etrans|done]|].
    apply IH in He as [R3 Ho]. split; [etrans; [exact R1|]; by etrans|].
    destruct o; [|done..]. unfold owns in *. destruct R1 as (_ & _ & Ht1 & _), R2 as (_ & _ & Ht2 & _).
    by rewrite Ht2, Ht1 in Ho.
  - by apply GetCluster_no_panic in E2.
Qed.

Lemma resolve_spec c g o g' :
  cache_ok g → resolveTenantID c g = (o, g') →
  reads g g' ∧ match o with Ok t => owns g c t | Err _ => True | Panic _ => False end.
Proof.
  intros Hok. unfold resolveTenantID, gets. rewrite bind_cases. cbv beta iota.
  destruct (gw_cache g !! c) as [t|] eqn:Hc; [intros He; inv He; split; [done|by apply Hok]|].
  destruct (uuid_Parse c) as [u|] eqn:Hu; [|intros He; by inv He]. by apply resolve_loop_spec.
Qed.

(** ** Signalling *)

(** The one workflow that gets signals, and what it gets. *)
Definition signals (g g' : GW) (id : string) (l : list (string * payload)) : Prop :=
  gw_dedup g' = gw_dedup g ∧ gw_streams g' = gw_streams g ∧ tables_gw g' = tables_gw g ∧
  inbox_gw g' id = inbox_gw g id ++ l ∧ (∀ id', id' ≠ id → inbox_gw g' id' = inbox_gw g id') ∧
  (∀ c t, gw_cache g' !! c = Some t → gw_cache g !! c = Some t ∨ owns g c t).

Lemma reads_signals g g' id : reads g g' → signals g g' id [].
Proof.
  intros (A & B & C & E & F). split_and!; auto. by rewrite app_nil_r.
Qed.


Lemma signals_trans g1 g2 g3 id l1 l2 :
  signals g1 g2 id l1 → signals g2 g3 id l2 → signals g1 g3 id (l1 ++ l2).
Proof.
  intros (A1 & B1 & C1 & D1 & E1 & F1) (A2 & B2 & C2 & D2 & E2 & F2). split_and!; [congruence..| | |].
  - by rewrite D2, D1, app_assoc.
  - intros id' Hne. by rewrite E2, E1.
  - intros c t Hc. destruct (F2 c t Hc) as [Hc2|Ho]; [by apply F1|]. right. unfold owns in *. by rewrite <- C1.
Qed.

Lemma signals_cache_ok g g' id l : signals g g' id l → cache_ok g → cache_ok g'.
Proof.
  intros (_ & _ & Ht & _ & _ & Hc) Hok c t Hct. unfold owns. rewrite Ht.
  destruct (Hc c t Hct) as [Hold|]; [by apply Hok|done].
Qed.


Definition heartbeat_event (req : HeartbeatRequest) : string * payload :=
  (SignalHeartbeat, PHeartbeat (signal_of req)).

Lemma signalHeartbeat_spec req g o g' :
  cache_ok g → signalHeartbeat req g = (o, g') →
  match o with
  | Ok _ => ∃ t, owns g (hr_ClusterId req) t ∧
      signals g g' (AccountingWorkflowID t) [heartbeat_event req]
  | Err _ => reads g g' ∨ ∃ t l, owns g (hr_ClusterId req) t ∧ (l = [] ∨ l = [heartbeat_event req]) ∧
      signals g g' (AccountingWorkflowID t) l
  | Panic _ => False
  end.
Proof.
  intros Hok He. unfold signalHeartbeat in He. rewrite bind_cases in He. unfold wrap_err in He.
  destruct (resolveTenantID (hr_ClusterId req) g) as [r g1] eqn:E1.
  apply (resolve_spec _ _ _ _ Hok) in E1 as [R1 Ho]. destruct r as [t|e|x]; [|inv He; by left|done].
  unfold on_platform, on_temporal, zoom in He.
  destruct (SignalWorkflow _ _ _ _) as [r ts] eqn:E2. injection He as <- <-.
  destruct R1 as (A & B & C & E & F).
  destruct r as [[]|e|x]; [apply SignalWorkflow_Ok in E2 as (_ & Hi & Hne & _)| |by apply SignalWorkflow_no_panic in E2].
  - exists t. split; [done|]. split_and!; auto.
    + unfold inbox_gw. simpl. rewrite Hi. f_equal. apply E.
    + intros id' Hid. unfold inbox_gw. simpl. rewrite Hne by done. apply E.
  - apply SignalWorkflow_Err in E2 as (Hi & Hne & _). right. exists t.
    assert (∃ l, (l = [] ∨ l = [heartbeat_event req]) ∧
      inbox ts (AccountingWorkflowID t) = inbox_gw g (AccountingWorkflowID t) ++ l) as (l & Hl & Hil).
    { rewrite <- E. destruct Hi as [Hi|Hi]; [exists []; rewrite app_nil_r; auto|exists [heartbeat_event req]; auto]. }
    exists l. split; [done|]. split; [done|]. split_and!; auto.
    intros id' Hid. unfold inbox_gw. simpl. rewrite Hne by done. apply E.
Qed.

Lemma query_spec c g o g' :
  cache_ok g → queryWorkflowState c g = (o, g') → reads g g' ∧ ∀ p, o ≠ Panic p.
Proof.
  intros Hok He. unfold queryWorkflowState in He. rewrite bind_cases in He.
  destruct (resolveTenantID c g) as [r g1] eqn:E1. apply (resolve_spec _ _ _ _ Hok) in E1 as [R1 Ho].
  destruct r as [t|e|x]; [|by inv He|done].
  rewrite bind_cases in He. destruct (on_platform (on_temporal (QueryWorkflow _ QueryLastTBAck)) g1)
    as [r g2] eqn:E2. assert (∀ p, r ≠ Panic p) as Hnp.
  { unfold on_platform, on_temporal, zoom in E2. destruct (QueryWorkflow _ _ _) as [r' ts] eqn:Eq.
    injection E2 as <- _. intros p ->. by apply QueryWorkflow_no_panic in Eq. }
  apply QueryWorkflow_gw in E2. destruct r as [st|e|x]; [|inv He; split; [by etrans|done]|by destruct (Hnp x)].
  rewrite bind_cases in He. unfold try in He at 1.
  destruct (on_platform (on_temporal (QueryWorkflow _ QueryExceededResources)) g2) as [r g3] eqn:E3.
  assert (∀ p, r ≠ Panic p) as Hnp3.
  { unfold on_platform, on_temporal, zoom in E3. destruct (QueryWorkflow _ _ _) as [r' ts] eqn:Eq.
    injection E3 as <- _. intros p ->. by apply QueryWorkflow_no_panic in Eq. }
  apply QueryWorkflow_gw in E3.
  assert (reads g g3) as R3 by (etrans; [exact R1|]; by etrans).
  destruct r as [st'|e|x]; [| |by destruct (Hnp3 x)];
    (destruct (uuid_Parse t) as [u|]; [|inv He; split; [exact R3|done]];
     rewrite bind_cases in He; unfold try in He;
     destruct (on_pg (Postgres.GetQuotaSnapshots u) g3) as [r g4] eqn:E4;
     pose proof (GetQuotaSnapshots_reads u _ _ _ E4) as R4;
     destruct r as [rows|e'|x]; [inv He; split; [by etrans|done]|inv He; split; [by etrans|done]|];
     exfalso; revert E4; apply on_pg_no_panic; done).
Qed.

(** ** The unary RPC *)

(** The answer of the deduplicator to a request that arrives now. *)
Definition dedup_now (g : GW) (c : string) (seq : Z) : bool * D :=
  IsDuplicate (gw_clock g (gw_reads g)) c seq (gw_dedup g).

(** The state after the deduplicator was asked. *)
Definition asked (g g' : GW) (d : D) : Prop :=
  gw_dedup g' = d ∧ gw_streams g' = gw_streams g ∧ tables_gw g' = tables_gw g ∧
  (∀ id, inbox_gw g' id = inbox_gw g id) ∧ gw_cache g' = gw_cache g.

Lemma asked_cache_ok g g' d : asked g g' d → cache_ok g → cache_ok g'.
Proof. intros (_ & _ & Ht & _ & Hc) Hok c t Hct. unfold owns. rewrite Ht, Hc in *. by apply Hok. Qed.

Lemma is_duplicate_spec c (seq : Z) g : ∃ g1,
  is_duplicate c seq g = (Ok (dedup_now g c seq).1, g1) ∧ asked g g1 (dedup_now g c seq).2.
Proof. eexists. split; [reflexivity|]. split_and!; auto. Qed.

Lemma signal_and_record r g o g' :
  cache_ok g →
  (t0 ← time_Now; err ← try (signalHeartbeat r); _ ← record_latency t0;
   match err with inl e => fail (EWrap "internal" e) | inr _ => mret tt end) g = (o, g') →
  match o with
  | Ok _ => ∃ t, owns g (hr_ClusterId r) t ∧ signals g g' (AccountingWorkflowID t) [heartbeat_event r]
  | Err _ => reads g g' ∨ ∃ t l, owns g (hr_ClusterId r) t ∧ (l = [] ∨ l = [heartbeat_event r]) ∧
               signals g g' (AccountingWorkflowID t) l
  | Panic _ => False
  end.
Proof.
  intros Hok He. rewrite bind_cases in He. destruct (time_Now g) as [t0 g1] eqn:E0.
  pose proof (time_Now_reads _ _ _ E0) as R0. injection E0 as <- _.
  rewrite bind_cases in He. unfold try in He.
  destruct (signalHeartbeat r g1) as [s g2] eqn:Es.
  apply (signalHeartbeat_spec _ _ _ _ (reads_cache_ok _ _ R0 Hok)) in Es.
  assert (∀ t, owns g1 (hr_ClusterId r) t → owns g (hr_ClusterId r) t) as Hown.
  { intros t. unfold owns. destruct R0 as (_ & _ & Ht & _). by rewrite Ht. }
  assert (∀ (k : unit → M GW unit) o, (record_latency (gw_clock g (gw_reads g)) ≫= k) g2 = (o, g') →
    ∃ g3, reads g2 g3 ∧ k tt g3 = (o, g')) as Hrec.
  { intros k o0 Hk. rewrite bind_cases in Hk.
    destruct (record_latency (gw_clock g (gw_reads g)) g2) as [u g3] eqn:Er.
    pose proof (record_latency_reads _ _ _ _ Er) as R3. injection Er as <- _. by exists g3. }
  destruct s as [[]|e|x]; [| |done]; apply Hrec in He as (g3 & R3 & He); inv He.
  - destruct Es as (t & Ho & Hs). exists t. split; [by apply Hown|].
    apply (signals_trans _ g1 _ _ [] [_]); [by apply reads_signals|].
    rewrite <- (app_nil_r [_]). eapply signals_trans; [exact Hs|by apply reads_signals].
  - destruct Es as [R2|(t & l & Ho & Hl & Hs)]; [left; etrans; [exact R0|]; by etrans|].
    right. exists t, l. split_and!; [by apply Hown|done|].
    apply (signals_trans _ g1 _ _ [] l); [by apply reads_signals|].
    rewrite <- (app_nil_r l). eapply signals_trans; [exact Hs|by apply reads_signals].
Qed.

Lemma Heartbeat_spec r g o g' :
  cache_ok g → Heartbeat r g = (o, g') →
  ∃ g1, asked g g1 (dedup_now g (hr_ClusterId r) (hr_SequenceNumber r)).2 ∧
  if (dedup_now g (hr_ClusterId r) (hr_SequenceNumber r)).1
  then reads g1 g' ∧ ∃ resp, o = Ok resp
  else match o with
       | Ok _ => ∃ t, owns g (hr_ClusterId r) t ∧ signals g1 g' (AccountingWorkflowID t) [heartbeat_event r]
       | Err _ => reads g1 g' ∨ ∃ t l, owns g (hr_ClusterId r) t ∧ (l = [] ∨ l = [heartbeat_event r]) ∧
                    signals g1 g' (AccountingWorkflowID t) l
       | Panic _ => False
       end.
Proof.
  intros Hok He. unfold Heartbeat in He. cbv zeta in He.
  set (g0 := {| g with gw_inbound := u64 (gw_inbound g + 1) |}).
  erewrite (bind_Ok (modify _) _ g tt g0) in He by reflexivity.
  destruct (is_duplicate_spec (hr_ClusterId r) (hr_SequenceNumber r) g0) as (g1 & Ed & Hask0).
  rewrite (bind_Ok _ _ _ _ _ Ed) in He.
  change (dedup_now g0 (hr_ClusterId r) (hr_SequenceNumber r))
    with (dedup_now g (hr_ClusterId r) (hr_SequenceNumber r)) in *.
  assert (asked g g1 (dedup_now g (hr_ClusterId r) (hr_SequenceNumber r)).2) as Hask by exact Hask0.
  pose proof (asked_cache_ok _ _ _ Hask Hok) as Hok1. exists g1. split; [done|].
  assert (∀ t, owns g1 (hr_ClusterId r) t → owns g (hr_ClusterId r) t) as Hown.
  { intros t. unfold owns. destruct Hask as (_ & _ & Ht & _). by rewrite Ht. }
  assert (∀ g2, cache_ok g2 → ∀ o g', (q ← try (queryWorkflowState (hr_ClusterId r));
     let '(ack, quotas) := match q with inr q => q | inl _ => (0, []) end in
     mret (response ack quotas)) g2 = (o, g') → reads g2 g' ∧ ∃ resp, o = Ok resp) as Hquery.
  { intros g2 Hok2 o0 g0' Hq. rewrite bind_cases in Hq. unfold try in Hq.
    destruct (queryWorkflowState (hr_ClusterId r) g2) as [q g3] eqn:Eq.
    apply (query_spec _ _ _ _ Hok2) in Eq as [Rq Hp].
    destruct q as [[ack qs]|e|x]; [| |by destruct (Hp x)]; inv Hq; eauto. }
  destruct (dedup_now g (hr_ClusterId r) (hr_SequenceNumber r)).1.
  - erewrite (bind_Ok (mret tt) _ g1 tt g1) in He by reflexivity. by apply Hquery.
  - rewrite bind_cases in He.
    match type of He with context [match ?m g1 with _ => _ end] => destruct (m g1) as [s g2] eqn:Es end.
    apply signal_and_record in Es; [|done]. destruct s as [[]|e|x]; [|inv He|done].
    + destruct Es as (t & Ho & Hs). apply Hquery in He as [Rq [resp ->]]; [|by eapply signals_cache_ok].
      exists t. split; [by apply Hown|]. rewrite <- (app_nil_r [_]).
      eapply signals_trans; [exact Hs|by apply reads_signals].
    + destruct Es as [?|(t & l & Ho & Hl & Hs)]; [by left|]. right. exists t, l. by split_and!; [apply Hown|..].
Qed.

(** A new heartbeat that is answered was signalled once, to the owner. *)
Lemma Heartbeat_delivers r g resp g' :
  cache_ok g → (dedup_now g (hr_ClusterId r) (hr_SequenceNumber r)).1 = false →
  Heartbeat r g = (Ok resp, g') →
  ∃ t, owns g (hr_ClusterId r) t ∧
    inbox_gw g' (AccountingWorkflowID t) = inbox_gw g (AccountingWorkflowID t) ++ [heartbeat_event r] ∧
    ∀ id, id ≠ AccountingWorkflowID t → inbox_gw g' id = inbox_gw g id.
Proof.
  intros Hok Hd He. apply (Heartbeat_spec _ _ _ _ Hok) in He as (g1 & (_ & _ & _ & Hi1 & _) & He).
  rewrite Hd in He. destruct He as (t & Ho & (_ & _ & _ & Hi & Hne & _)). exists t.
  split_and!; [done|by rewrite Hi, Hi1|]. intros id Hid. by rewrite Hne, Hi1.
Qed.

(** C20: a unary heartbeat reaches the workflow of the cluster's owner. As long as
    the cache holds owners, which the handler maintains, a request that the
    deduplicator lets through and that is answered with success has added exactly
    one signal to exactly one inbox: this heartbeat, to the accounting workflow of
    the tenant that the database names as the owner of the cluster. A request that
    the deduplicator drops adds nothing and is still answered. On an error the
    signal was added once or not at all. The handler never panics. *)
Theorem heartbeat_reaches_owner : ∀ r g o g',
  cache_ok g → Heartbeat r g = (o, g') →
  let dup := (dedup_now g (hr_ClusterId r) (hr_SequenceNumber r)).1 in
  cache_ok g' ∧ tables_gw g' = tables_gw g ∧
  match o with
  | Ok _ =>
      if dup then ∀ id, inbox_gw g' id = inbox_gw g id
      else ∃ t, owns g (hr_ClusterId r) t ∧
        inbox_gw g' (AccountingWorkflowID t) = inbox_gw g (AccountingWorkflowID t) ++
          [(SignalHeartbeat, PHeartbeat (signal_of r))] ∧
        ∀ id, id ≠ AccountingWorkflowID t → inbox_gw g' id = inbox_gw g id
  | Err _ => dup = false ∧
      ((∀ id, inbox_gw g' id = inbox_gw g id) ∨
       ∃ t, owns g (hr_ClusterId r) t ∧
        inbox_gw g' (AccountingWorkflowID t) = inbox_gw g (AccountingWorkflowID t) ++
          [(SignalHeartbeat, PHeartbeat (signal_of r))] ∧
        ∀ id, id ≠ AccountingWorkflowID t → inbox_gw g' id = inbox_gw g id)
  | Panic _ => False
  end.
Proof.
  intros r g o g' Hok He dup. apply (Heartbeat_spec _ _ _ _ Hok) in He as (g1 & Hask & He). fold dup in He.
  pose proof (asked_cache_ok _ _ _ Hask Hok) as Hok1. destruct Hask as (_ & _ & Ht1 & Hi1 & _).
  assert (∀ t l, signals g1 g' (AccountingWorkflowID t) l →
    inbox_gw g' (AccountingWorkflowID t) = inbox_gw g (AccountingWorkflowID t) ++ l ∧
    ∀ id, id ≠ AccountingWorkflowID t → inbox_gw g' id = inbox_gw g id) as Hsig.
  { intros t l (_ & _ & _ & Hi & Hne & _). rewrite Hi, Hi1. split; [done|].
    intros id Hid. by rewrite Hne, Hi1. }
  assert (∀ t l, signals g1 g' (AccountingWorkflowID t) l → cache_ok g' ∧ tables_gw g' = tables_gw g) as Hkeep.
  { intros t l Hs. split; [by eapply signals_cache_ok|]. destruct Hs as (_ & _ & Ht & _). congruence. }
  assert (reads g1 g' → cache_ok g' ∧ tables_gw g' = tables_gw g ∧ ∀ id, inbox_gw g' id = inbox_gw g id) as Hread.
  { intros R. split; [by eapply reads_cache_ok|]. destruct R as (_ & _ & Ht & Hi & _).
    split; [congruence|]. intros id. by rewrite Hi. }
  destruct dup.
  - destruct He as [R [resp ->]]. apply Hread in R. naive_solver.
  - destruct o as [resp|e|x]; [| |done].
    + destruct He as (t & Ho & Hs). destruct (Hkeep _ _ Hs). destruct (Hsig _ _ Hs). split_and!; [done..|]. by exists t.
    + destruct He as [R|(t & l & Ho & Hl & Hs)]; [apply Hread in R; naive_solver|].
      destruct (Hkeep _ _ Hs). destruct (Hsig _ _ Hs) as [Hi Hne]. split_and!; [done..|].
      destruct Hl as [->| ->]; [left|right; by exists t].
      intros id. destruct (decide (id = AccountingWorkflowID t)) as [->|]; [by rewrite Hi, app_nil_r|by apply Hne].
Qed.
End handler.

(** ** A failed heartbeat and its retry *)

Section retry.
Context `{TL : TigerBeetleLaws} `{TS : TemporalServer} `{TSL : !TemporalServerLaws TS}.
Context `{P : PGServer} `{U : UUIDPkg}.

(** C23: the gateway does not accept a heartbeat twice, even if the first try
    failed. With the in-memory deduplicator, when a unary heartbeat is answered
    with an error, repeating the same request is answered with success and sends
    nothing: the deduplicator remembers the sequence number of the failed try. So
    a heartbeat whose signal was not delivered is lost although the client
    retries as it should. *)
Theorem failed_heartbeat_is_not_resent : ∀ r (g g1 g2 : Gateway MemDedup) e o,
  cache_ok g → Heartbeat r g = (Err e, g1) → Heartbeat r g1 = (o, g2) →
  (∃ resp, o = Ok resp) ∧ ∀ id, inbox_gw g2 id = inbox_gw g1 id.
Proof.
  intros r g g1 g2 e o Hok H1 H2. pose proof H1 as H1'.
  apply (Heartbeat_spec _ _ _ _ Hok) in H1' as (ga & Hask & He).
  pose proof (asked_cache_ok _ _ _ Hask Hok) as Hoka.
  set (c := hr_ClusterId r) in *. set (seq := hr_SequenceNumber r) in *.
  destruct (dedup_now g c seq) as [dup d] eqn:Ed. simpl in *.
  destruct dup; [by destruct He as [_ [resp ?]]|].
  assert (cache_ok g1 ∧ gw_dedup g1 = d) as [Hok1 Hd].
  { destruct Hask as (Hd & _). destruct He as [R|(t & l & _ & _ & Hs)].
    - split; [by eapply reads_cache_ok|]. destruct R as (-> & _). done.
    - split; [by eapply signals_cache_ok|]. destruct Hs as (-> & _). done. }
  assert (∃ x, md_entries d !! c = Some x ∧ de_seq x = seq) as (x & Hx & Hseq).
  { unfold dedup_now in Ed. simpl in Ed. unfold mem_IsDuplicate in Ed.
    destruct (md_entries (gw_dedup g) !! c) as [x|]; [case_decide; [|done]|]; inv Ed; eexists; cbn [md_entries]; rewrite lookup_insert_eq; by split. }
  apply (Heartbeat_spec _ _ _ _ Hok1) in H2 as (gb & Haskb & H2).
  assert ((dedup_now g1 c seq).1 = true) as Hdup.
  { unfold dedup_now. simpl. unfold mem_IsDuplicate. rewrite Hd, Hx. by rewrite decide_False by lia. }
  fold c seq in H2, Haskb. rewrite Hdup in H2. destruct H2 as [(_ & _ & _ & Hi & _) Hresp].
  split; [done|]. intros id. rewrite Hi. by destruct Haskb as (_ & _ & _ & -> & _).
Qed.
End retry.

(** ** The stream *)

Section stream.
Context `{TL : TigerBeetleLaws} `{TS : TemporalServer} `{TSL : !TemporalServerLaws TS}.
Context `{P : PGServer} `{U : UUIDPkg}.
Abbreviation GW := (Gateway MemDedup) (only parsing).
Implicit Types (g : GW).





(** ** The pieces of a step *)





(** ** Invariant of a stream *)








End stream.
