(* ===== verification/HeartbeatWitnesses.v ===== *)
(** * Concrete runs of the heartbeat handler *)

From stdpp Require Import sorting.
From S2P Require Import Prelude Domain TigerBeetle TBRef Ids Transfers Accounts LedgerProps.
From S2P Require Import World ActivitiesTB ActivitiesTBProps ActivitiesPG AccountingWorkflow Provisioning ProvisioningProps.
From S2P Require Import Floats Dedup Streams Latency Heartbeat HeartbeatProps.
From S2P Require Postgres.
Import Postgres(QuotaSnapshot).

#[local] Existing Instances prompt_temporal prompt_temporal_laws.



Definition demo_gateway : Gateway MemDedup :=
  {| gw_dedup := NewMemDedup 300; gw_streams := NewStreamManager; gw_cache := ∅; gw_inbound := 0;
     gw_lat := new_ring; gw_platform := (RegisterClusterWorkflow demo_registration provisioned).2;
     gw_clock n := Z.of_nat n; gw_reads := 0; gw_done _ := false; gw_waits := 0 |}.

Lemma demo_cache_ok : cache_ok demo_gateway.
Proof. intros c t Hc. cbn [gw_cache demo_gateway] in Hc. by rewrite lookup_empty in Hc. Qed.

Definition demo_request (cluster : string) (seq : Z) : HeartbeatRequest :=
  {| hr_ClusterId := cluster; hr_Timestamp := Some (1700000000, 5); hr_ActiveNodes := 2;
     hr_CpuMillisecondsDelta := 10; hr_MemoryMbSecondsDelta := 20; hr_SequenceNumber := seq |}.

Definition known : string := uuid_String (demo_id 901).
Definition unknown : string := uuid_String (demo_id 902).

Lemma beat_succeeds : succeeds (Heartbeat (demo_request known 1) demo_gateway) = true.
Proof. by vm_compute. Qed.

Lemma beat_is_new : (dedup_now demo_gateway (hr_ClusterId (demo_request known 1))
  (hr_SequenceNumber (demo_request known 1))).1 = false.
Proof. by vm_compute. Qed.

Lemma heartbeat_reaches_owner_witness :
  ∃ t, owns demo_gateway known t ∧
    inbox_gw (Heartbeat (demo_request known 1) demo_gateway).2 (AccountingWorkflowID t) =
    inbox_gw demo_gateway (AccountingWorkflowID t) ++
      [(SignalHeartbeat, PHeartbeat (signal_of (demo_request known 1)))].
Proof.
  destruct (heartbeat_reaches_owner (demo_request known 1) demo_gateway _ _ demo_cache_ok
    (value_ok (response 0 []) _ beat_succeeds)) as (_ & _ & Hr).
  rewrite beat_is_new in Hr. destruct Hr as (t & Ho & Hi & _). exact (ex_intro _ t (conj Ho Hi)).
Defined.

Abbreviation failed_try := (Heartbeat (demo_request unknown 1) demo_gateway) (only parsing).

Lemma failed_try_fails : ∃ e, failed_try = (Err e, failed_try.2).
Proof.
  assert (match failed_try.1 with Err _ => true | _ => false end = true) as He by by vm_compute.
  revert He. generalize failed_try. intros [[a|e|x] g] He; [done|by exists e|done].
Qed.

Lemma failed_heartbeat_is_not_resent_witness :
  ∃ resp, (Heartbeat (demo_request unknown 1) failed_try.2).1 = Ok resp.
Proof.
  destruct failed_try_fails as [e He].
  exact (proj1 (failed_heartbeat_is_not_resent (demo_request unknown 1) demo_gateway failed_try.2
    (Heartbeat (demo_request unknown 1) failed_try.2).2 e
    (Heartbeat (demo_request unknown 1) failed_try.2).1 demo_cache_ok He (surjective_pairing _))).
Defined.




Abbreviation after_receive := (receive "" (demo_request known 4) demo_gateway) (only parsing).



