(* ===== verification/CivilTime.v ===== *)
(** * Timestamps as text: [t.UTC().Format("2006-01-02T15:04:05Z")]

    The handlers render every timestamp of the database this way.  A time is a
    number of nanoseconds since the Unix epoch; the date is computed in 400-year
    eras that start on the first of March. *)

From stdpp Require Import pretty.
From Stdlib Require Import Ascii.
From S2P Require Import Prelude.

(** ** Dates *)

Definition daysPerEra : Z := 146097.
Definition epochDays : Z := 719468.

Record civil := Civil { cv_year : Z; cv_month : Z; cv_day : Z }.

(** Century, four-year cycle, year and day of year of the day [doe] of an era; the
    last century and the last year of a cycle may be one day longer. *)
Definition year_of_doe (doe : Z) : Z * Z :=
  let c := Z.min (doe / 36524) 3 in
  let doc := doe - 36524 * c in
  let q := doc / 1461 in
  let doq := doc - 1461 * q in
  let a := Z.min (doq / 365) 3 in
  (100 * c + 4 * q + a, doq - 365 * a).

(** Months are counted from March: the first [mp] of them have
    [(153 * mp + 2) / 5] days. *)
Definition civil_of_doe (doe : Z) : civil :=
  let '(yoe, doy) := year_of_doe doe in
  let mp := (5 * doy + 2) / 153 in
  let month := if decide (mp < 10) then mp + 3 else mp - 9 in
  Civil (yoe + if decide (month ≤ 2) then 1 else 0) month (doy - (153 * mp + 2) / 5 + 1).

Definition civil_of_days (days : Z) : civil :=
  let z := days + epochDays in
  let c := civil_of_doe (z mod daysPerEra) in
  Civil (cv_year c + z / daysPerEra * 400) (cv_month c) (cv_day c).

(** ** Text *)

Definition digit (n : Z) : string :=
  String (Ascii.ascii_of_nat (48 + Z.to_nat n)) EmptyString.

(** The last [w] decimal digits of [n]. *)
Fixpoint digits (w : nat) (n : Z) : string :=
  match w with
  | O => EmptyString
  | S w => digits w (n / 10) +:+ digit (n mod 10)
  end.

(** The year with at least four digits. *)
Definition year_text (y : Z) : string :=
  if decide (0 ≤ y < 10000) then digits 4 y
  else if decide (y < 0) then
    "-" +:+ (if decide (- y < 10000) then digits 4 (- y) else pretty (- y))
  else pretty y.

Definition nanosPerSecond : Z := 1000000000.

Definition format_utc (t : Z) : string :=
  let secs := t / nanosPerSecond in
  let c := civil_of_days (secs / 86400) in
  let s := secs mod 86400 in
  year_text (cv_year c) +:+ "-" +:+ digits 2 (cv_month c) +:+ "-" +:+ digits 2 (cv_day c) +:+ "T" +:+
  digits 2 (s / 3600) +:+ ":" +:+ digits 2 (s / 60 mod 60) +:+ ":" +:+ digits 2 (s mod 60) +:+ "Z".

(** The Unix epoch, the last second before it, a leap day and a far day. *)
Example format_samples :
  format_utc 0 = "1970-01-01T00:00:00Z" ∧ format_utc (-1) = "1969-12-31T23:59:59Z" ∧
  format_utc (1709164800 * nanosPerSecond + 999999999) = "2024-02-29T00:00:00Z" ∧
  format_utc (253402300799 * nanosPerSecond) = "9999-12-31T23:59:59Z".
Proof. vm_compute. done. Qed.

(** ** Reading the text back *)






(** ** The calendar *)











(** ** Round trip *)










