(* ===== verification/ProvisioningHandler.v ===== *)
(** * The provisioning RPCs (internal/gateway/provisioning_handler.go)

    RegisterTenant and RegisterCluster.  The handler starts a workflow through the
    Temporal client and waits for its result: [WorkflowClient] is that call, with
    what the handler relies on in [WorkflowClientLaws].  The state of the handler
    is the platform, the UUIDs that [uuid.New] will draw and the clock. *)

From S2P Require Import Prelude Domain TigerBeetle TBRef Ids Transfers Accounts LedgerProps.
From S2P Require Import World ActivitiesTB ActivitiesPG AccountingWorkflow Provisioning.
From S2P Require Postgres.
Import Postgres(PGServer, UUID).

(** ** Messages (provisioning.pb.go) *)

Record RegisterTenantRequest := {
  rt_Name : string;
  rt_BillingTier : string;
  rt_CpuHoursCredits : Z;
  rt_MemoryGbHoursCredits : Z;
  rt_ActiveNodesLimit : Z;
}.
Record RegisterTenantResponse := { rt_TenantId : string }.

Record RegisterClusterRequest := {
  rq_TenantId : string;
  rq_CloudProvider : string;
  rq_Region : string;
}.
Record RegisterClusterResponse := { rq_ClusterId : string }.

(** ** The Temporal client *)

(** [ExecuteWorkflow(...)] followed by [run.Get]: an error when the workflow could
    not be started, otherwise what waiting for it gave. *)
Class WorkflowClient `{TigerBeetle} `{TemporalServer} := {
  ExecuteWorkflow : ∀ {A}, string → M Platform A → M Platform (outcome A);
}.

(** A result was returned by the workflow function, run on the platform. *)
Class WorkflowClientLaws `{TigerBeetle} `{TemporalServer} (C : WorkflowClient) := {
  ExecuteWorkflow_Ok A id (body : M Platform A) p a p' :
    ExecuteWorkflow id body p = (Ok (Ok a), p') → body p = (Ok a, p');
}.

(** ** The handler *)

(** The codes of [connect.NewError]; the error becomes its cause. *)
Definition CodeInternal : string := "internal".
Definition CodeInvalidArgument : string := "invalid_argument".

Record Service `{TigerBeetle} `{TemporalServer} := {
  sv_platform : Platform;
  sv_uuids : nat → UUID;
  sv_drawn : nat;
  sv_clock : nat → Z;
  sv_reads : nat;
}.
Arguments Service {_ _}.
Arguments Build_Service {_ _} _ _ _ _ _.

(** [h.globalAccounts] *)
Abbreviation GlobalAccounts := (gmap GlobalAccountKey bytes16) (only parsing).

Definition defaultCredits (tier : string) : gmap string Z :=
  if decide (tier = "pro") then
    {[ResourceCPUHours := 1000000; ResourceMemoryGBHours := 1000000; ResourceActiveNodes := 20]}
  else if decide (tier = "starter") then
    {[ResourceCPUHours := 200000; ResourceMemoryGBHours := 200000; ResourceActiveNodes := 5]}
  else
    {[ResourceCPUHours := 10000; ResourceMemoryGBHours := 10000; ResourceActiveNodes := 2]}.

(** [if v > 0 { credits[r] = v }] *)
Definition override (r : string) (v : Z) (credits : gmap string Z) : gmap string Z :=
  if decide (v > 0) then <[r := v]> credits else credits.

Definition requested_credits (r : RegisterTenantRequest) : gmap string Z :=
  override ResourceActiveNodes (rt_ActiveNodesLimit r)
    (override ResourceMemoryGBHours (rt_MemoryGbHoursCredits r)
      (override ResourceCPUHours (rt_CpuHoursCredits r) (defaultCredits (rt_BillingTier r)))).

(** The loop over [domain.AllResources] for one account type. *)
Definition global_ids (globals : GlobalAccounts) (accountType : string) : idmap :=
  foldl (λ ids res, match globals !! (res, accountType) with
                    | Some id => <[res := id]> ids
                    | None => ids
                    end) ∅ AllResources.

Definition provisioning_input `{UUIDPkg} (globals : GlobalAccounts) (r : RegisterTenantRequest)
    (tenantID : UUID) (now : Z) : TenantProvisioningInput :=
  {| tp_TenantID := uuid_String tenantID;
     tp_TenantUUID := tenantID;
     tp_Name := rt_Name r;
     tp_BillingTier := rt_BillingTier r;
     tp_Credits := requested_credits r;
     tp_GlobalOperatorIDs := global_ids globals AccountTypeOperator;
     tp_GlobalSinkIDs := global_ids globals AccountTypeSink;
     tp_PeriodStartNs := now |}.

Section handler.
Context `{TigerBeetle} `{Blake3} `{GoRange} `{PGServer} `{UUIDPkg} `{!Temporal} `{TemporalServer}.
Context `{!WorkflowClient}.

Definition uuid_New : M Service UUID := λ s,
  (Ok (sv_uuids s (sv_drawn s)), {| s with sv_drawn := S (sv_drawn s) |}).
Definition service_Now : M Service Z := λ s,
  (Ok (sv_clock s (sv_reads s)), {| s with sv_reads := S (sv_reads s) |}).
Definition on_service {A} (m : M Platform A) : M Service A :=
  zoom sv_platform (λ p s, {| s with sv_platform := p |}) m.

(** Start a workflow and wait for it, with the two error texts. *)
Definition run_workflow {A} (start_err get_err id : string) (body : M Platform A) : M Service A :=
  run ← wrap_err CodeInternal (wrap_err start_err (on_service (ExecuteWorkflow id body)));
  wrap_err CodeInternal (wrap_err get_err (lift run)).

Definition RegisterTenant (globals : GlobalAccounts) (r : RegisterTenantRequest)
    : M Service RegisterTenantResponse :=
  tenantID ← uuid_New;
  now ← service_Now;
  _ ← run_workflow "start provisioning workflow" "provisioning workflow failed"
        (ProvisioningWorkflowID (uuid_String tenantID))
        (TenantProvisioningWorkflow (provisioning_input globals r tenantID now));
  mret {| rt_TenantId := uuid_String tenantID |}.

Definition RegisterCluster (r : RegisterClusterRequest) : M Service RegisterClusterResponse :=
  clusterID ← uuid_New;
  _ ← run_workflow "start cluster workflow" "cluster registration failed"
        (ClusterRegistrationWorkflowID (uuid_String clusterID))
        (RegisterClusterWorkflow
           {| rc_ClusterID := uuid_String clusterID; rc_TenantID := rq_TenantId r;
              rc_CloudProvider := rq_CloudProvider r; rc_Region := rq_Region r |});
  mret {| rq_ClusterId := uuid_String clusterID |}.
End handler.
