(* ===== verification/Onboarding.v ===== *)
(** * Onboarding: what the provisioning RPCs leave behind

    A tenant that was registered has a funded wallet and a running accounting
    workflow; a cluster that was registered is served by the heartbeat handler. *)

From S2P Require Import Prelude Domain TigerBeetle TBRef Ids Transfers Accounts LedgerProps.
From S2P Require Import World ActivitiesTB ActivitiesTBProps AllocationProps ActivitiesPG AccountingWorkflow.
From S2P Require Import Provisioning ProvisioningProps Floats Dedup Streams Latency Heartbeat HeartbeatProps.
From S2P Require Import HeartbeatWitnesses ProvisioningHandler.
From S2P Require Postgres.
Import Postgres(PGServer, UUID, tenants, workload_clusters, tb_account_ids, Tables, tn_Name, tn_BillingTier,
  tn_Status, ta_TbAccountID, wc_TenantID, wc_Status).

(** ** The credits of a request *)

(** The amount a request asks for: the explicit one when positive, otherwise the
    tier's. *)
Definition explicit_credit (r : RegisterTenantRequest) (res : string) : Z :=
  if decide (res = ResourceCPUHours) then rt_CpuHoursCredits r
  else if decide (res = ResourceMemoryGBHours) then rt_MemoryGbHoursCredits r
  else rt_ActiveNodesLimit r.

Definition tier_credit (tier res : string) : Z :=
  let gauge := bool_decide (res = ResourceActiveNodes) in
  if decide (tier = "pro") then if gauge then 20 else 1000000
  else if decide (tier = "starter") then if gauge then 5 else 200000
  else if gauge then 2 else 10000.

Definition credit_for (r : RegisterTenantRequest) (res : string) : Z :=
  if decide (explicit_credit r res > 0) then explicit_credit r res
  else tier_credit (rt_BillingTier r) res.

Lemma defaultCredits_lookup tier res :
  res ∈ AllResources → defaultCredits tier !! res = Some (tier_credit tier res).
Proof.
  intros Hr%elem_of_AllResources. unfold defaultCredits, tier_credit.
  destruct Hr as [->|[->| ->]], (decide (tier = "pro")), (decide (tier = "starter")); reflexivity.
Qed.

Lemma override_lookup r v m res :
  override r v m !! res = if decide (res = r ∧ v > 0) then Some v else m !! res.
Proof.
  unfold override. repeat case_decide; destruct_and?; subst; try lia; try tauto.
  - apply lookup_insert_eq.
  - rewrite lookup_insert_ne; [done|]. naive_solver.
Qed.

Lemma requested_credits_lookup r res :
  res ∈ AllResources → requested_credits r !! res = Some (credit_for r res).
Proof.
  intros Hr. unfold requested_credits, credit_for, explicit_credit.
  rewrite !override_lookup, defaultCredits_lookup by done. apply elem_of_AllResources in Hr.
  destruct Hr as [->|[->| ->]]; repeat (case_decide; destruct_and?; try done); try tauto; lia.
Qed.

Lemma requested_credits_dom r res : is_Some (requested_credits r !! res) → res ∈ AllResources.
Proof.
  intros [c Hc]. apply elem_of_AllResources. unfold requested_credits in Hc.
  rewrite !override_lookup in Hc.
  do 3 (case_decide as Hd; [destruct Hd as [-> _]; tauto|clear Hd]).
  unfold defaultCredits in Hc. repeat case_decide;
    repeat (apply lookup_insert_Some in Hc as [[<- _]|[_ Hc]]; [tauto|]);
    apply lookup_singleton_Some in Hc as [<- _]; tauto.
Qed.

Lemma requested_credits_size r : size (requested_credits r) = 3%nat.
Proof.
  assert (dom (requested_credits r) = list_to_set (C := gset string) AllResources) as Hd.
  { apply set_eq. intros res. rewrite elem_of_dom, elem_of_list_to_set. split.
    - apply requested_credits_dom.
    - intros Hr. rewrite requested_credits_lookup by done. eauto. }
  rewrite <- size_dom, Hd. reflexivity.
Qed.

Lemma global_ids_lookup globals at_ res :
  global_ids globals at_ !! res = if decide (res ∈ AllResources) then globals !! (res, at_) else None.
Proof.
  unfold global_ids. induction AllResources as [|r rs IH] using rev_ind; [apply lookup_empty|].
  rewrite foldl_snoc. set (m := foldl _ ∅ rs) in *.
  destruct (decide (res = r)) as [->|Hne].
  - rewrite decide_True by set_solver. destruct (globals !! (r, at_)) as [id|] eqn:E.
    + apply lookup_insert_eq.
    + rewrite IH. case_decide; done.
  - rewrite (decide_ext (res ∈ rs ++ [r]) (res ∈ rs)) by set_solver. rewrite <- IH.
    destruct (globals !! (r, at_)); [by rewrite lookup_insert_ne|done].
Qed.

(** ** RegisterTenant *)

Section onboarding.
Context `{TL : TigerBeetleLaws} `{B : Blake3} `{G : GoRange} `{P : PGServer} `{U : UUIDPkg}.
Context `{T : !Temporal} `{TeL : !TemporalLaws T} `{TS : TemporalServer} `{TSL : !TemporalServerLaws TS}.
Context `{UL : !UUIDLaws U} `{C : !WorkflowClient} `{CL : !WorkflowClientLaws C}.
Implicit Types (sv : Service) (w : World).

Definition drawn sv : UUID := sv_uuids sv (sv_drawn sv).
Definition clock_now sv : Z := sv_clock sv (sv_reads sv).
Definition sv_world sv : World := pf_world (sv_platform sv).
Definition sv_ledger sv : TBState := env_tb (w_env (sv_world sv)).

(** The ID of the initial allocation of a resource with ledger [l]. *)
Definition first_id sv (l : Z) : bytes16 :=
  Uint128ToBytes (DeriveAllocationTransferID (drawn sv) (u64 (clock_now sv)) l).

(** The UUID that will be drawn is new and its derived IDs do not collide; the
    operator accounts of the handler exist without a limit. *)
Record onboarding_ready (globals : gmap GlobalAccountKey bytes16) sv : Prop := {
  onb_rows r a : tb_account_ids (tables_of (sv_world sv)) !! (drawn sv, r, a) = None;
  onb_ids l : 1 ≤ l ≤ 3 → first_id sv l ≠ zero16 ∧ transfer_at (sv_ledger sv) (first_id sv l) = None;
  onb_distinct l1 l2 : 1 ≤ l1 ≤ 3 → 1 ≤ l2 ≤ 3 → first_id sv l1 = first_id sv l2 → l1 = l2;
  onb_idle : running (pf_temporal (sv_platform sv)) (AccountingWorkflowID (uuid_String (drawn sv))) = None;
  onb_operators r op : globals !! (r, AccountTypeOperator) = Some op →
    ∃ a, account_at (sv_ledger sv) op = Some a ∧ DebitsMustNotExceedCredits (ac_Flags a) = false;
}.

Lemma onboarding_provisioning_ready globals r sv :
  onboarding_ready globals sv →
  provisioning_ready (provisioning_input globals r (drawn sv) (clock_now sv)) (sv_platform sv) (drawn sv).
Proof.
  intros [Hrows Hids Hdist Hidle Hops]. split.
  - apply uuid_roundtrip.
  - cbn [tp_Credits provisioning_input]. rewrite requested_credits_size. lia.
  - intros l1 l2 Heq H1 H2. by apply Hdist.
  - intros id (res & l & _ & Hl%LedgerID_Ok & ->). apply Hids. tauto.
  - intros res op. cbn [tp_GlobalOperatorIDs provisioning_input]. rewrite global_ids_lookup.
    case_decide; [|done]. apply Hops.
  - apply Hrows.
Qed.

Lemma run_workflow_Ok {A} e1 e2 id (body : M Platform A) sv a sv' :
  run_workflow e1 e2 id body sv = (Ok a, sv') →
  ∃ p', body (sv_platform sv) = (Ok a, p') ∧ sv' = {| sv with sv_platform := p' |}.
Proof.
  intros (run & sv1 & H1%wrap_Ok%wrap_Ok & H2%wrap_Ok%wrap_Ok)%bind_Ok_inv.
  injection H2 as -> <-. unfold on_service, zoom in H1.
  destruct (ExecuteWorkflow _ _ _) as [o p'] eqn:E. injection H1 as -> <-.
  apply ExecuteWorkflow_Ok in E. eauto.
Qed.

(** C26: a registered tenant has a funded wallet. When RegisterTenant returns for a
    UUID that is new and whose derived IDs do not collide, the answer names that
    tenant; the database holds its row with the requested name and tier; every
    resource has a quota account in the ledger, limited and mapped in the
    database, and has been credited by exactly one transfer from the operator
    account of the server: the requested amount when it is positive, otherwise
    the default of the tier; and the accounting workflow of the tenant is running
    with exactly these accounts and nothing carried over. *)
Theorem register_tenant_funds_wallet : ∀ globals r sv resp sv',
  onboarding_ready globals sv →
  (∀ w w', others w w' → rows_same (drawn sv) w w' ∧
     ∀ l, 1 ≤ l ≤ 3 → transfer_at (env_tb (w_env w)) (first_id sv l) = None →
          transfer_at (env_tb (w_env w')) (first_id sv l) = None) →
  RegisterTenant globals r sv = (Ok resp, sv') →
  rt_TenantId resp = uuid_String (drawn sv) ∧
  (∃ row, tenants (tables_of (sv_world sv')) !! drawn sv = Some row ∧ tn_Name row = rt_Name r ∧
     tn_BillingTier row = rt_BillingTier r ∧ tn_Status row = "active") ∧
  ∃ accounts : idmap,
    (∀ res, res ∈ AllResources → ∃ quota l, accounts !! res = Some quota ∧ LedgerID res = Ok l ∧
       static_of <$> account_at (sv_ledger sv') quota = Some (quota, l, AccountCodeTenantQuota, quota_flags) ∧
       (∃ row, tb_account_ids (tables_of (sv_world sv')) !! (drawn sv, res, "tenant_quota") = Some row ∧
          ta_TbAccountID row = vec_to_list quota) ∧
       ∀ op, globals !! (res, AccountTypeOperator) = Some op →
         ∃ t, transfer_at (sv_ledger sv') (first_id sv l) = Some t ∧
           tr_DebitAccountID t = op ∧ tr_CreditAccountID t = quota ∧ tr_Ledger t = l ∧
           tr_Amount t = ToUint128 (u64 (credit_for r res))) ∧
    running (pf_temporal (sv_platform sv')) (AccountingWorkflowID (uuid_String (drawn sv))) =
      Some (accounting_input (provisioning_input globals r (drawn sv) (clock_now sv)) accounts).
Proof.
  intros globals r sv resp sv' Hready Hothers Hrun.
  pose proof (onboarding_provisioning_ready globals r sv Hready) as Hpr.
  apply bind_Ok_inv in Hrun as (u & sv1 & Hu & Hrun). injection Hu as <- <-.
  apply bind_Ok_inv in Hrun as (now & sv2 & Hn & Hrun). injection Hn as <- <-.
  apply bind_Ok_inv in Hrun as (res & sv3 & (p' & Hb & ->)%run_workflow_Ok & Hrun).
  injection Hrun as <- <-. cbn [sv_platform sv_reads sv_clock] in Hb.
  eapply provisioning_built in Hb as (Hrow & Hdom & Hacc & Hcred & ai & Hai & Hnew); [|exact Hpr|].
  2: { intros w w' [Hr Hf]%Hothers. split; [done|]. intros id (x & l & _ & Hl%LedgerID_Ok & ->).
       apply Hf. tauto. }
  split; [done|]. split; [exact Hrow|]. exists (pr_AccountMap res). split.
  - intros x Hx. destruct (LedgerID_total x Hx) as (l & Hl & _).
    assert (is_Some (pr_AccountMap res !! x)) as [quota Hq]
      by (apply elem_of_dom; rewrite Hdom; by apply elem_of_list_to_set).
    exists quota, l. destruct (Hacc x quota Hq) as [(l' & Hl' & Hst) Hm].
    assert (l' = l) as -> by congruence. split_and!; [done..|]. intros op Hop.
    destruct (Hcred x (credit_for r x) op quota) as (l' & Hl2 & Ht); [..|assert (l' = l) as -> by congruence].
    + by apply requested_credits_lookup.
    + cbn [tp_GlobalOperatorIDs provisioning_input]. by rewrite global_ids_lookup, decide_True.
    + done.
    + eexists. split; [exact Ht|]. done.
  - rewrite (Hnew (onb_idle _ _ Hready)) in Hai. exact Hai.
Qed.

(** ** RegisterCluster *)

Lemma registered_row r sv resp sv' :
  RegisterCluster r sv = (Ok resp, sv') →
  rq_ClusterId resp = uuid_String (drawn sv) ∧ ∃ tenant row,
    uuid_Parse (rq_TenantId r) = Some tenant ∧
    workload_clusters (tables_of (sv_world sv')) !! drawn sv = Some row ∧
    wc_TenantID row = tenant ∧ wc_Status row = "healthy" ∧
    let id := AccountingWorkflowID (rq_TenantId r) in
    is_Some (running (pf_temporal (sv_platform sv')) id) ∧
    inbox (pf_temporal (sv_platform sv')) id = inbox (pf_temporal (sv_platform sv)) id ++
      [(SignalRegisterCluster, PRegister {| rg_ClusterID := rq_ClusterId resp |})] ∧
    ∀ id', id' ≠ id → inbox (pf_temporal (sv_platform sv')) id' = inbox (pf_temporal (sv_platform sv)) id'.
Proof.
  intros Hrun. apply bind_Ok_inv in Hrun as (u & sv1 & Hu & Hrun). injection Hu as <- <-.
  apply bind_Ok_inv in Hrun as ([] & sv2 & (p' & Hb & ->)%run_workflow_Ok & Hrun).
  injection Hrun as <- <-. split; [done|].
  apply registration_known in Hb as (cluster & tenant & row & Hc & Ht & Hrow & Hrest).
  cbn [rc_ClusterID rc_TenantID] in *. rewrite uuid_roundtrip in Hc. injection Hc as <-.
  by exists tenant, row.
Qed.

(** C27: a registered cluster is served. When RegisterCluster returns, the cluster
    of the answer is stored, healthy, under the tenant of the request. If a
    gateway on the resulting platform then answers a heartbeat of that cluster
    that its deduplicator has not seen, the accounting workflow of the tenant has
    received exactly the registration followed by the heartbeat, and no other
    workflow has received anything. (The tenant is named in canonical form, as
    RegisterTenant answers.) *)
Theorem registered_cluster_is_served {D} `{Deduplicator D} : ∀ r tenant sv resp sv' (g g' : Gateway D) req hresp,
  rq_TenantId r = uuid_String tenant →
  RegisterCluster r sv = (Ok resp, sv') →
  gw_platform g = sv_platform sv' → cache_ok g →
  hr_ClusterId req = rq_ClusterId resp →
  (dedup_now g (hr_ClusterId req) (hr_SequenceNumber req)).1 = false →
  Heartbeat req g = (Ok hresp, g') →
  let id := AccountingWorkflowID (uuid_String tenant) in
  (∃ row, workload_clusters (tables_of (sv_world sv')) !! drawn sv = Some row ∧
     wc_TenantID row = tenant ∧ wc_Status row = "healthy") ∧
  inbox_gw g' id = inbox (pf_temporal (sv_platform sv)) id ++
    [(SignalRegisterCluster, PRegister {| rg_ClusterID := rq_ClusterId resp |});
     (SignalHeartbeat, PHeartbeat (signal_of req))] ∧
  ∀ id', id' ≠ id → inbox_gw g' id' = inbox (pf_temporal (sv_platform sv)) id'.
Proof.
  intros r tenant sv resp sv' g g' req hresp Ht Hreg Hg Hok Hc Hdup Hhb id. subst id.
  apply registered_row in Hreg as (Hid & t & row & Hp & Hrow & Hten & Hst & _ & Hin & Hout).
  rewrite Ht, uuid_roundtrip in Hp. injection Hp as <-. rewrite Ht in Hin, Hout.
  apply (Heartbeat_delivers _ _ _ _ Hok Hdup) in Hhb as (t & (u & row' & Hu & Hrow' & ->) & Hi & Ho).
  unfold tables_gw in Hrow'. rewrite Hc, Hid, uuid_roundtrip in Hu. injection Hu as <-.
  rewrite Hg in Hrow'. unfold sv_world in Hrow. rewrite Hrow in Hrow'. injection Hrow' as <-. rewrite Hten in Hi, Ho.
  split; [by exists row|]. unfold inbox_gw in *. rewrite Hg in Hi, Ho. split.
  - rewrite Hi, Hin, <- app_assoc. done.
  - intros id' Hne. by rewrite Ho, Hout.
Qed.
End onboarding.

(** ** Concrete runs *)

#[local] Existing Instances prompt_temporal prompt_temporal_laws.

(** A client that runs the workflow and reports its result. *)
Definition prompt_workflow {A} (id : string) (body : M Platform A) : M Platform (outcome A) := λ p,
  let '(o, p') := body p in (Ok o, p').

#[export] Instance prompt_client : WorkflowClient := {| ExecuteWorkflow := @prompt_workflow |}.
#[export] Instance prompt_client_laws : WorkflowClientLaws prompt_client.
Proof.
  split. intros A id body p a p'. simpl. unfold prompt_workflow. destruct (body p) as [o p1].
  intros He. by inv He.
Qed.

Definition demo_globals : gmap GlobalAccountKey bytes16 :=
  {[(ResourceCPUHours, AccountTypeOperator) := demo_id 11;
    (ResourceActiveNodes, AccountTypeOperator) := demo_id 13;
    (ResourceCPUHours, AccountTypeSink) := demo_id 31]}.

(** The UUIDs 78, 79, ... will be drawn. *)
Definition demo_service_state : Service :=
  {| sv_platform := demo_platform; sv_uuids n := demo_id (78 + Z.of_nat n); sv_drawn := 0;
     sv_clock n := 5 + Z.of_nat n; sv_reads := 0 |}.

Definition demo_signup : RegisterTenantRequest :=
  {| rt_Name := "acme"; rt_BillingTier := "pro"; rt_CpuHoursCredits := 1500000;
     rt_MemoryGbHoursCredits := 0; rt_ActiveNodesLimit := -1 |}.

Lemma small_ledgers l : 1 ≤ l ≤ 3 → l = 1 ∨ l = 2 ∨ l = 3.
Proof. lia. Qed.

Lemma demo_onboarding_ready : onboarding_ready demo_globals demo_service_state.
Proof.
  split.
  - intros r a. apply lookup_empty.
  - intros l [->|[->| ->]]%small_ledgers; (split; [apply (bool_decide_unpack _); by vm_compute|by vm_compute]).
  - intros l1 l2 [->|[->| ->]]%small_ledgers [->|[->| ->]]%small_ledgers Heq; try done;
      exfalso; revert Heq; apply (bool_decide_unpack _); by vm_compute.
  - apply lookup_empty.
  - intros r op Hop.
    assert (map_Forall (λ k i, k.2 = AccountTypeOperator → (if account_at (env_tb demo_env) i is Some a
      then negb (DebitsMustNotExceedCredits (ac_Flags a)) else false) = true) demo_globals) as Hall
      by (apply (bool_decide_unpack _); by vm_compute).
    specialize (Hall _ _ Hop eq_refl). cbv beta in Hall. change (sv_ledger demo_service_state) with (env_tb demo_env).
    destruct (account_at (env_tb demo_env) op) as [a|]; [|done]. exists a. split; [done|].
    by destruct (DebitsMustNotExceedCredits (ac_Flags a)).
Qed.

Lemma signup_succeeds : succeeds (RegisterTenant demo_globals demo_signup demo_service_state) = true.
Proof. by vm_compute. Qed.

Lemma register_tenant_funds_wallet_witness :
  ∃ row, tenants (tables_of (sv_world (RegisterTenant demo_globals demo_signup demo_service_state).2)) !!
    drawn demo_service_state = Some row ∧ tn_BillingTier row = "pro".
Proof.
  destruct (register_tenant_funds_wallet demo_globals demo_signup demo_service_state
    (value_of {| rt_TenantId := "" |} (RegisterTenant demo_globals demo_signup demo_service_state))
    (RegisterTenant demo_globals demo_signup demo_service_state).2 demo_onboarding_ready)
    as (_ & (row & Hrow & _ & Htier & _) & _).
  - intros w w' [].
  - exact (value_ok _ _ signup_succeeds).
  - exists row. exact (conj Hrow Htier).
Defined.

Definition tenant_78 : string := uuid_String (demo_id 78).

Definition demo_join : RegisterClusterRequest :=
  {| rq_TenantId := tenant_78; rq_CloudProvider := "aws"; rq_Region := "eu-west-1" |}.

Abbreviation signed_up := (RegisterTenant demo_globals demo_signup demo_service_state).2 (only parsing).
Abbreviation joined := (RegisterCluster demo_join (RegisterTenant demo_globals demo_signup demo_service_state).2)
  (only parsing).

Lemma join_succeeds : succeeds joined = true.
Proof. by vm_compute. Qed.

Definition joined_gateway : Gateway MemDedup :=
  {| gw_dedup := NewMemDedup 300; gw_streams := NewStreamManager; gw_cache := ∅; gw_inbound := 0;
     gw_lat := new_ring; gw_platform := sv_platform joined.2;
     gw_clock n := Z.of_nat n; gw_reads := 0; gw_done _ := false; gw_waits := 0 |}.

Lemma joined_cache_ok : cache_ok joined_gateway.
Proof. intros c t Hc. cbn [gw_cache joined_gateway] in Hc. by rewrite lookup_empty in Hc. Qed.

Definition joined_id : string := rq_ClusterId (value_of {| rq_ClusterId := "" |} joined).

Lemma joined_beat : succeeds (Heartbeat (demo_request joined_id 1) joined_gateway) = true.
Proof. by vm_compute. Qed.

Lemma joined_new : (dedup_now joined_gateway (hr_ClusterId (demo_request joined_id 1))
  (hr_SequenceNumber (demo_request joined_id 1))).1 = false.
Proof. by vm_compute. Qed.

Lemma registered_cluster_is_served_witness :
  ∃ row, workload_clusters (tables_of (sv_world joined.2)) !! drawn signed_up = Some row ∧
    wc_TenantID row = demo_id 78.
Proof.
  destruct (registered_cluster_is_served demo_join (demo_id 78) signed_up _ joined.2 joined_gateway _
    (demo_request joined_id 1) _ eq_refl (value_ok {| rq_ClusterId := "" |} _ join_succeeds) eq_refl
    joined_cache_ok eq_refl joined_new (value_ok (response 0 []) _ joined_beat)) as ((row & Hrow & Ht & _) & _).
  exists row. exact (conj Hrow Ht).
Defined.
