(* ===== verification/AdminHandler.v ===== *)
(** * The admin RPCs (internal/gateway/admin_handler.go)

    IssueTenantCredit sends an update to the tenant's accounting workflow and waits
    for its result; the other RPCs read or update PostgreSQL.  The update call of
    the Temporal client is the parameter [UpdateClient]. *)

From S2P Require Import Prelude Domain TigerBeetle TBRef Ids Transfers Accounts LedgerProps.
From S2P Require Import World ActivitiesTB ActivitiesPG AccountingWorkflow Provisioning.
From S2P Require Import Floats Dedup Streams Latency Heartbeat CivilTime ProvisioningHandler.
From S2P Require Postgres.
Import Postgres(PGServer, UUID, QuotaSnapshot, qs_ResourceType, qs_CreditsTotal, qs_DebitsPosted,
  qs_DebitsPending, qs_Available, Tenant, tn_ID, tn_Name, tn_BillingTier, tn_Status, tn_CreatedAt,
  CreditAdjustment, ca_ID, ca_ResourceType, ca_Amount, ca_Reason, ca_TbTransferID, ca_CreatedAt,
  WorkloadCluster, wc_ID, wc_TenantID, wc_CloudProvider, wc_Region, wc_Status, wc_LastHeartbeat,
  wc_AgentVersion).

(** ** Messages (admin.pb.go, common.pb.go) *)

Record IssueTenantCreditRequest := {
  ir_TenantId : string;
  ir_ResourceType : string;
  ir_Amount : Z;
  ir_Reason : string;
}.
(** The handler leaves the field [TransferId] empty. *)
Record IssueTenantCreditResponse := { ip_TransferId : string; ip_Quotas : list QuotaInfo }.

Record TenantSummary := {
  ts_Id : string;
  ts_Name : string;
  ts_BillingTier : string;
  ts_Status : string;
  ts_CreatedAt : string;
}.

Record CreditAdjustmentEntry := {
  ce_Id : string;
  ce_ResourceType : string;
  ce_Amount : Z;
  ce_Reason : string;
  ce_TransferId : string;
  ce_CreatedAt : string;
}.

Record ClusterSummary := {
  cl_Id : string;
  cl_TenantId : string;
  cl_CloudProvider : string;
  cl_Region : string;
  cl_Status : string;
  cl_LastHeartbeat : string;
  cl_AgentVersion : string;
}.

(** ** Pure parts *)

(** The status that both quota loops of this file compute. *)
Definition line_status (exceeded : bool) (used total : Z) : Status :=
  if exceeded then STATUS_QUOTA_EXCEEDED
  else if near_limit used total then STATUS_QUOTA_WARNING else STATUS_OK.

(** One line of the answer to a credit, from the balances of the ledger. *)
Definition credit_line (resourceType : string) (snap : QuotaSnapshotData) : QuotaInfo :=
  let available := i64 (i64 (sd_CreditsTotal snap - sd_DebitsPosted snap) - sd_DebitsPending snap) in
  let used := if IsGauge resourceType then sd_DebitsPending snap else sd_DebitsPosted snap in
  {| qi_ResourceType := resourceType; qi_Used := used; qi_Limit := sd_CreditsTotal snap;
     qi_Available := available;
     qi_Status := line_status (bool_decide (available ≤ 0)) used (sd_CreditsTotal snap) |}.

(** One line of ListTenantQuotas, from a row of the projection. *)
Definition quota_line (s : QuotaSnapshot) : QuotaInfo :=
  let available := default 0 (qs_Available s) in
  let used := if IsGauge (qs_ResourceType s) then qs_DebitsPending s else qs_DebitsPosted s in
  {| qi_ResourceType := qs_ResourceType s; qi_Used := used; qi_Limit := qs_CreditsTotal s;
     qi_Available := available;
     qi_Status := line_status (bool_decide (qs_Available s = None) || bool_decide (available ≤ 0))
                    used (qs_CreditsTotal s) |}.

Definition hex_char (n : Z) : Ascii.ascii :=
  Ascii.ascii_of_nat (Z.to_nat (if decide (n < 10) then 48 + n else 87 + n)).

(** [fmt.Sprintf("%x", b)] of a byte slice. *)
Definition hex_encode (b : list Z) : string :=
  foldr (λ x s, String (hex_char (x / 16)) (String (hex_char (x mod 16)) s)) EmptyString b.

Section rows.
Context `{UUIDPkg}.

Definition tenant_summary (t : Tenant) : TenantSummary :=
  {| ts_Id := uuid_String (tn_ID t); ts_Name := tn_Name t; ts_BillingTier := tn_BillingTier t;
     ts_Status := tn_Status t; ts_CreatedAt := format_utc (tn_CreatedAt t) |}.

Definition adjustment_entry (r : CreditAdjustment) : CreditAdjustmentEntry :=
  {| ce_Id := uuid_String (ca_ID r); ce_ResourceType := ca_ResourceType r; ce_Amount := ca_Amount r;
     ce_Reason := default "" (ca_Reason r);
     ce_TransferId := if decide (length (ca_TbTransferID r) = 16%nat)
                      then hex_encode (ca_TbTransferID r) else "";
     ce_CreatedAt := format_utc (ca_CreatedAt r) |}.

Definition cluster_summary (c : WorkloadCluster) : ClusterSummary :=
  {| cl_Id := uuid_String (wc_ID c); cl_TenantId := uuid_String (wc_TenantID c);
     cl_CloudProvider := wc_CloudProvider c; cl_Region := wc_Region c; cl_Status := wc_Status c;
     cl_LastHeartbeat := match wc_LastHeartbeat c with Some t => format_utc t | None => "" end;
     cl_AgentVersion := default "" (wc_AgentVersion c) |}.
End rows.

(** ** The update call of the Temporal client *)

(** [UpdateWorkflow] waiting for completion, followed by [handle.Get]. *)
Class UpdateClient `{TigerBeetle} `{TemporalServer} := {
  UpdateWorkflow : string → string → QuotaAdjustmentSignal → M Platform (outcome IssueCreditResult);
}.

(** A result was returned by the update handler, run on the state of the workflow
    and on the platform.  Nothing is assumed of a failed update: it may have run
    to any outcome, or not at all. *)
Class UpdateClientLaws `{TigerBeetle} `{Blake3} `{GoRange} `{PGServer} `{UUIDPkg} `{!Temporal}
    `{TemporalServer} (C : UpdateClient) := {
  UpdateWorkflow_Ok id sig p res p' :
    UpdateWorkflow id UpdateIssueCredit sig p = (Ok (Ok res), p') →
    ∃ s s', sys_world s = pf_world p ∧ workflow_state (pf_temporal p) id = Some (sys_state s) ∧
      on_credit sig s = (Ok res, s') ∧
      pf_world p' = sys_world s' ∧ workflow_state (pf_temporal p') id = Some (sys_state s');
}.

(** ** The handlers *)

Section admin.
Context `{TigerBeetle} `{GoRange} `{PGServer} `{UUIDPkg} `{TemporalServer} `{!UpdateClient}.

Definition on_admin_db {A} (m : M Postgres.DB A) : M Service A := on_service (on_world (on_db m)).

(** [uuid.Parse] of an ID of the request. *)
Definition parse_id (what id : string) : M Service UUID :=
  match uuid_Parse id with
  | Some u => mret u
  | None => fail (EWrap CodeInvalidArgument (EWrap what (EMsg "invalid UUID")))
  end.

(** A query whose error is answered as internal. *)
Definition internal {A} (what : string) (m : M Service A) : M Service A :=
  wrap_err CodeInternal (wrap_err what m).

Definition IssueTenantCredit (r : IssueTenantCreditRequest) : M Service IssueTenantCreditResponse :=
  if decide (ir_Amount r ≤ 0)
  then fail (EWrap CodeInvalidArgument (EMsg "amount must be positive"))
  else
  let sig := {| qa_ResourceType := ir_ResourceType r; qa_Amount := ir_Amount r;
                qa_Reason := ir_Reason r; qa_Code := CodeQuotaAdjustment mod 2 ^ 16 |} in
  let workflowID := AccountingWorkflowID (ir_TenantId r) in
  handle ← internal "update workflow" (on_service (UpdateWorkflow workflowID UpdateIssueCredit sig));
  result ← internal "update result" (lift handle);
  balances ← on_service (on_world (range_w (ic_Balances result)));
  mret {| ip_TransferId := ""; ip_Quotas := (λ '(resourceType, snap), credit_line resourceType snap) <$> balances |}.

Definition ListTenantQuotas (tenantId : string) : M Service (list QuotaInfo) :=
  tenantUUID ← parse_id "invalid tenant ID" tenantId;
  snapshots ← internal "GetQuotaSnapshots" (on_admin_db (Postgres.GetQuotaSnapshots tenantUUID));
  mret (quota_line <$> snapshots).

Definition ListTenants : M Service (list TenantSummary) :=
  rows ← internal "ListTenants" (on_admin_db Postgres.ListTenants);
  mret (tenant_summary <$> rows).

Definition ListCreditAdjustments (tenantId : string) : M Service (list CreditAdjustmentEntry) :=
  tenantUUID ← parse_id "invalid tenant ID" tenantId;
  rows ← internal "ListCreditAdjustmentsByTenant"
           (on_admin_db (Postgres.ListCreditAdjustmentsByTenant tenantUUID));
  mret (adjustment_entry <$> rows).

Definition admin_DeleteTenant (tenantId : string) : M Service unit :=
  tenantUUID ← parse_id "invalid tenant ID" tenantId;
  internal "DeleteTenant" (on_admin_db (Postgres.DeleteTenant tenantUUID)).

Definition admin_DeregisterCluster (clusterId : string) : M Service unit :=
  clusterUUID ← parse_id "invalid cluster ID" clusterId;
  internal "DeregisterCluster" (on_admin_db (Postgres.DeregisterCluster clusterUUID)).

Definition ListClusters (tenantId : string) : M Service (list ClusterSummary) :=
  tenantUUID ← parse_id "invalid tenant ID" tenantId;
  rows ← internal "ListClustersByTenant" (on_admin_db (Postgres.ListClustersByTenant tenantUUID));
  mret (cluster_summary <$> rows).
End admin.
