(* ===== verification/AdminProps.v ===== *)
(** * What the admin RPCs show and change *)

From stdpp Require Import sorting.
From S2P Require Import Prelude Domain TigerBeetle TBRef Ids Transfers Accounts LedgerProps.
From S2P Require Import World ActivitiesTB ActivitiesTBProps AllocationProps ActivitiesPG AccountingWorkflow.
From S2P Require Import AccountingProps CreditProps Provisioning ProvisioningProps.
From S2P Require Import Floats Dedup Streams Latency Heartbeat HeartbeatProps CivilTime ProvisioningHandler.
From S2P Require Import Onboarding AdminHandler.
From S2P Require Postgres.
Import Postgres(PGServer, UUID, Tables, QuotaSnapshot, quota_snapshots, qs_TenantID, qs_ResourceType, qs_CreditsTotal,
  qs_DebitsPosted, qs_DebitsPending, qs_Available, Tenant, tenants, tn_ID, tn_CreatedAt, tn_DeletedAt,
  WorkloadCluster, workload_clusters, wc_ID, wc_TenantID, wc_DeregisteredAt).

(** ** Quota lines *)

(** The lines that the credit RPC computes from balances, that ListTenantQuotas
    computes from the row that projects them, and that the heartbeat handler
    computes from that row when the ledger has rejected nothing. *)
Lemma lines_agree tenant r snap row :
  projects tenant r snap row → credit_line r snap = quota_line row.
Proof.
  intros (_ & Hr & Hc & Hd & Hp & Ha & H1 & H2). unfold credit_line, quota_line.
  rewrite (i64_id (sd_CreditsTotal snap - sd_DebitsPosted snap)) by done. rewrite i64_id by done.
  rewrite Ha, Hr, Hc, Hd, Hp. reflexivity.
Qed.

Lemma heartbeat_line ex row :
  default false (ex !! qs_ResourceType row) = false → quota_of ex row = quota_line row.
Proof. intros Hex. unfold quota_of, quota_line, line_status. by rewrite Hex, orb_false_r. Qed.

(** Rows of the projection are stored under their own keys. *)
Definition snapshots_wf (t : Tables) : Prop := ∀ k row,
  quota_snapshots t !! k = Some row → k = (qs_TenantID row, qs_ResourceType row).

(** No line for a resource that no row of the tenant has. *)
Lemma no_lines {K} (tenant : UUID) (r : string) (l : list (K * QuotaSnapshot)) :
  (∀ kv, kv ∈ l → ¬ (qs_TenantID kv.2 = tenant ∧ qs_ResourceType kv.2 = r)) →
  filter (λ q, qi_ResourceType q = r) (quota_line <$> filter (λ s, qs_TenantID s = tenant) l.*2) = [].
Proof.
  intros Hl. apply elem_of_nil_inv. intros q [Hr Hq]%list_elem_of_filter.
  revert Hr. destruct (proj1 (list_elem_of_fmap _ _ _) Hq) as (s & -> & [Ht Hs]%list_elem_of_filter).
  apply list_elem_of_fmap in Hs as (kv & -> & Hkv). intros Hr. by apply (Hl kv Hkv).
Qed.

Section admin.
Context `{TL : TigerBeetleLaws} `{B : Blake3} `{G : GoRange} `{P : PGServer} `{U : UUIDPkg}.
Context `{T : !Temporal} `{TeL : !TemporalLaws T} `{TS : TemporalServer}.
Implicit Types (sv : Service) (w : World).

Lemma on_admin_query {A} (stmt : nat → Tables → outcome (A * Tables)) what sv a sv' :
  internal what (on_admin_db (Postgres.query stmt)) sv = (Ok a, sv') →
  sv_ledger sv' = sv_ledger sv ∧ pf_temporal (sv_platform sv') = pf_temporal (sv_platform sv) ∧
  ∃ n t, stmt n (tables_of (sv_world sv)) = Ok (a, t) ∧ tables_of (sv_world sv') = t.
Proof.
  intros Hq%wrap_Ok%wrap_Ok. unfold on_admin_db, on_service, on_world, zoom in Hq.
  destruct (on_db (Postgres.query stmt) (pf_world (sv_platform sv))) as [o w'] eqn:E. injection Hq as -> <-.
  assert (same_ledger (pf_world (sv_platform sv)) w') as Hs by (eapply on_db_same_ledger; exact E).
  apply on_db_query in E as (_ & t & Hst & Ht). split_and!; [exact Hs|done|]. by eauto.
Qed.

Lemma parse_id_Ok what id sv u sv' : parse_id what id sv = (Ok u, sv') → sv' = sv ∧ uuid_Parse id = Some u.
Proof. unfold parse_id. destruct (uuid_Parse id); intros Hp; by inv Hp. Qed.

Lemma ListTenantQuotas_Ok tenantId sv quotas sv' :
  ListTenantQuotas tenantId sv = (Ok quotas, sv') →
  tables_of (sv_world sv') = tables_of (sv_world sv) ∧
  ∃ tenant, uuid_Parse tenantId = Some tenant ∧
    quotas ≡ₚ quota_line <$>
      filter (λ r, qs_TenantID r = tenant) (map_to_list (quota_snapshots (tables_of (sv_world sv)))).*2.
Proof.
  intros (u & sv1 & [-> Hu]%parse_id_Ok & Hl)%bind_Ok_inv.
  apply bind_Ok_inv in Hl as (snaps & sv2 & (_ & _ & n & t & Hq & Ht)%on_admin_query & Hl).
  injection Hl as <- <-. injection Hq as <- <-. split; [done|]. exists u. split; [done|].
  by rewrite (Postgres.rows_perm n).
Qed.

(** C28: the dashboards agree. After a projection of balances that succeeded, the
    quotas that ListTenantQuotas answers contain, for each projected resource,
    exactly the line that the credit RPC computes from the balances themselves,
    and the heartbeat handler computes the same line from the stored row when the
    ledger has not rejected the resource. The three are separate pieces of code:
    one computes the available amount in 64-bit arithmetic, the others read the
    column that the database generates. *)
Theorem quota_views_agree : ∀ input w w' sv quotas sv' ex,
  snapshots_wf (tables_of w) →
  UpdateQuotaSnapshots input w = (Ok tt, w') → sv_world sv = w' →
  ListTenantQuotas (us_TenantID input) sv = (Ok quotas, sv') →
  ∀ r snap, us_Snapshots input !! r = Some snap →
  filter (λ q, qi_ResourceType q = r) quotas = [credit_line r snap] ∧
  (default false (ex !! r) = false → ∃ tenant row, uuid_Parse (us_TenantID input) = Some tenant ∧
     quota_snapshots (tables_of w') !! (tenant, r) = Some row ∧ quota_of ex row = credit_line r snap).
Proof.
  intros input w w' sv quotas sv' ex Hwf Hu Hsv Hl r snap Hr.
  apply snapshots_projected in Hu as (tenant & Ht & _ & Hin & Hout).
  destruct (Hin r snap Hr) as (row & Hrow & Hp). pose proof Hp as (Hten & Hres & _).
  rewrite (lines_agree _ _ _ _ Hp). split.
  2: { intros Hex. exists tenant, row. split_and!; [done..|]. apply heartbeat_line. by rewrite Hres. }
  apply ListTenantQuotas_Ok in Hl as (_ & tenant' & Ht' & Hq). rewrite Hsv in Hq.
  assert (tenant' = tenant) as -> by congruence.
  apply Permutation_singleton_r. rewrite Hq. clear Hq.
  assert (∀ k row', quota_snapshots (tables_of w') !! k = Some row' →
    qs_TenantID row' = tenant → qs_ResourceType row' = r → k = (tenant, r)) as Hkey.
  { intros k row' Hk H1 H2. destruct (decide (k = (tenant, r))) as [|Hne]; [done|]. exfalso. apply Hne.
    destruct k as [t0 r0]. destruct (decide (t0 = tenant ∧ is_Some (us_Snapshots input !! r0))) as [[-> [s0 Hs0]]|Hn].
    - destruct (Hin r0 s0 Hs0) as (row0 & Hrow0 & _ & Hr0 & _). congruence.
    - rewrite Hout in Hk; [apply Hwf in Hk; congruence|]. intros r1 Hr1 [= -> ->]. by apply Hn. }
  rewrite <- (map_to_list_delete _ _ _ Hrow). cbn [fmap list_fmap snd].
  rewrite filter_cons_True by done. cbn [fmap list_fmap]. rewrite filter_cons_True by done.
  rewrite no_lines; [done|]. intros [k row'] Hk. simpl. apply elem_of_map_to_list, lookup_delete_Some in Hk.
  destruct Hk as [Hne Hk]. intros [H1 H2]. by apply Hne, eq_sym, (Hkey k row').
Qed.

(** ** Credits *)

Context `{C : !UpdateClient} `{CL : !UpdateClientLaws C}.


(** ** Removals *)

Context `{UL : !UUIDLaws U} `{TSL : !TemporalServerLaws TS}.




End admin.
