(* ===== verification/AdminWitnesses.v ===== *)
(** * Concrete runs of the admin RPCs *)

From S2P Require Import Prelude Domain TigerBeetle TBRef Ids Transfers Accounts LedgerProps.
From S2P Require Import World ActivitiesTB ActivitiesTBProps AllocationProps ActivitiesPG AccountingWorkflow.
From S2P Require Import AccountingProps CreditProps Provisioning ProvisioningProps.
From S2P Require Import Floats Dedup Streams Latency Heartbeat HeartbeatProps HeartbeatWitnesses CivilTime.
From S2P Require Import ProvisioningHandler Onboarding AdminHandler AdminProps.
From S2P Require Postgres.
Import Postgres(PGServer, UUID, Tables, quota_snapshots, workload_clusters, wc_TenantID).

#[local] Existing Instances prompt_temporal prompt_temporal_laws.

(** An update client that runs the handler on the stored state. *)
Definition prompt_update (id name : string) (sig : QuotaAdjustmentSignal)
    : M Platform (outcome IssueCreditResult) := λ p,
  match ds_states (pf_temporal p) !! id with
  | None => (Err (EMsg "workflow not found"), p)
  | Some st =>
      let '(o, s') := on_credit sig {| sys_state := st; sys_timer := 0; sys_world := pf_world p |} in
      let t := pf_temporal p : DemoServer in
      (Ok o, {| pf_world := sys_world s';
                pf_temporal := {| t with ds_states := <[id := sys_state s']> (ds_states t) |} |})
  end.

#[export] Instance prompt_updates : UpdateClient := {| UpdateWorkflow := prompt_update |}.
#[export] Instance prompt_updates_laws : UpdateClientLaws prompt_updates.
Proof.
  split. intros id sig p res p'. simpl. unfold prompt_update.
  destruct (ds_states (pf_temporal p) !! id) as [st|] eqn:E; [|done].
  destruct (on_credit _ _) as [o s'] eqn:Ec. intros He. injection He as -> <-.
  eexists _, s'. split_and!; [| |exact Ec|done|apply lookup_insert_eq]; done.
Qed.

(** The tenant of the onboarding example. *)
Abbreviation signed_up := (RegisterTenant demo_globals demo_signup demo_service_state).2 (only parsing).







(** Balances projected for the tenant of the demo database, then listed. *)
Definition projection : UpdateQuotaSnapshotsInput :=
  {| us_TenantID := demo_tenant; us_TenantUUID := demo_id 77; us_AccountMap := ∅; us_Snapshots := demo_snapshots |}.

Definition projected_service : Service :=
  {| sv_platform := {| pf_world := (UpdateQuotaSnapshots projection demo_world).2;
                       pf_temporal := pf_temporal demo_platform |};
     sv_uuids n := demo_id (78 + Z.of_nat n); sv_drawn := 0; sv_clock n := 0; sv_reads := 0 |}.

Lemma projection_succeeds : succeeds (UpdateQuotaSnapshots projection demo_world) = true.
Proof. by vm_compute. Qed.

Lemma listing_succeeds : succeeds (ListTenantQuotas demo_tenant projected_service) = true.
Proof. by vm_compute. Qed.

Lemma demo_snapshots_wf : snapshots_wf (tables_of demo_world).
Proof. intros k row Hk. simpl in Hk. by rewrite lookup_empty in Hk. Qed.

Lemma quota_views_agree_witness : ∃ snap,
  filter (λ q, qi_ResourceType q = "cpu_hours") (value_of [] (ListTenantQuotas demo_tenant projected_service))
    = [credit_line "cpu_hours" snap].
Proof.
  eexists.
  exact (proj1 (quota_views_agree projection demo_world (UpdateQuotaSnapshots projection demo_world).2
    projected_service _ _ ∅ demo_snapshots_wf (unit_ok _ projection_succeeds) eq_refl
    (value_ok [] _ listing_succeeds) "cpu_hours" _ (lookup_singleton_eq _ _))).
Defined.

(** The cluster that joined is deregistered and sends another heartbeat. *)
Abbreviation joined := (RegisterCluster demo_join (RegisterTenant demo_globals demo_signup demo_service_state).2)
  (only parsing).
Abbreviation removed := (admin_DeregisterCluster joined_id joined.2) (only parsing).







