(* ===== verification/ServerProps.v ===== *)
(** * The server process: authentication, start-up, migrations *)

From stdpp Require Import sorting.
From Stdlib Require Import Ascii.
From S2P Require Import Prelude Domain TigerBeetle TBRef Ids Transfers Accounts LedgerProps Server.

(** ** White space *)

(** A string made of white space. *)
Inductive blank (ps : list string) : string → Prop :=
  | blank_nil : blank ps ""
  | blank_cons p s : p ∈ ps → blank ps s → blank ps (p +:+ s).

Lemma strip_Some p s r : strip p s = Some r ↔ s = p +:+ r.
Proof.
  revert s. induction p as [|a p IH]; intros s; cbn [strip].
  - split; [by intros [= ->]|by intros ->].
  - destruct s as [|b s]; [done|]. case_decide as Hab.
    + subst b. rewrite IH. split; [by intros ->|by intros [= ->]].
    + split; [done|]. intros [= -> _]. done.
Qed.

Lemma strip_any_Some ps s r : strip_any ps s = Some r → ∃ p, p ∈ ps ∧ s = p +:+ r.
Proof.
  induction ps as [|p ps IH]; cbn [strip_any]; [done|].
  destruct (strip p s) as [r'|] eqn:E.
  - intros [= <-]. apply strip_Some in E. exists p. split; [left|done].
  - intros (p' & Hp & ->)%IH. exists p'. split; [by right|done].
Qed.

Lemma strip_any_None ps s : strip_any ps s = None → ∀ p r, p ∈ ps → s ≠ p +:+ r.
Proof.
  induction ps as [|p ps IH]; cbn [strip_any]; [intros _ ?? ?%elem_of_nil; done|].
  destruct (strip p s) as [r'|] eqn:E; [done|]. intros HN p' r [->|Hp]%elem_of_cons.
  - intros Hs%strip_Some. congruence.
  - by apply IH.
Qed.

(** No word is a prefix of another one. *)
Definition prefix_free (ps : list string) : Prop :=
  ("" ∉ ps) ∧ ∀ p q r1 r2, p ∈ ps → q ∈ ps → p +:+ r1 = q +:+ r2 → p = q.

Lemma strip_any_word ps p r : prefix_free ps → p ∈ ps → strip_any ps (p +:+ r) = Some r.
Proof.
  intros [_ Hpf] Hp. destruct (strip_any ps (p +:+ r)) as [r'|] eqn:E.
  - apply strip_any_Some in E as (q & Hq & E). assert (p = q) as <- by by eapply Hpf.
    f_equal. symmetry. by eapply (inj (String.append p)).
  - by destruct (strip_any_None _ _ E p r).
Qed.

Lemma trim_left_blank ps fuel s :
  prefix_free ps → (String.length s ≤ fuel)%nat → blank ps s → trim_left ps fuel s = "".
Proof.
  intros Hpf. revert s. induction fuel as [|fuel IH]; intros s Hl Hs.
  - destruct s; [done|cbn in Hl; lia].
  - cbn [trim_left]. destruct Hs as [|p s Hp Hs].
    + destruct (strip_any ps "") as [r|] eqn:E; [|done].
      apply strip_any_Some in E as (p & Hp & E). exfalso. destruct p; [|done]. by apply Hpf.
    + rewrite strip_any_word by done. apply IH; [|done]. rewrite string_length_app in Hl.
      destruct p; [by destruct Hpf|]. cbn in Hl. lia.
Qed.

(** What [trim_left] removes is white space. *)
Lemma trim_left_split ps fuel s : ∃ w, blank ps w ∧ s = w +:+ trim_left ps fuel s.
Proof.
  revert s. induction fuel as [|fuel IH]; intros s; cbn [trim_left]; [exists ""; by split; [constructor|]|].
  destruct (strip_any ps s) as [r|] eqn:E; [|exists ""; by split; [constructor|]].
  apply strip_any_Some in E as (p & Hp & ->). destruct (IH r) as (w & Hw & Hr).
  exists (p +:+ w). split; [by constructor|]. by rewrite <- string_app_assoc, <- Hr.
Qed.

Lemma string_rev_app s1 s2 : string_rev (s1 +:+ s2) = string_rev s2 +:+ string_rev s1.
Proof.
  induction s1 as [|a s1 IH]; [cbn; by rewrite string_app_nil_r|].
  rewrite string_app_cons. cbn [string_rev]. by rewrite IH, string_app_assoc.
Qed.

Lemma string_rev_rev s : string_rev (string_rev s) = s.
Proof. induction s as [|a s IH]; [done|]. cbn [string_rev]. by rewrite string_rev_app, IH. Qed.

Lemma blank_app ps s1 s2 : blank ps s1 → blank ps s2 → blank ps (s1 +:+ s2).
Proof. induction 1; intros; [done|]. rewrite <- string_app_assoc. constructor; auto. Qed.

Lemma blank_rev ps s : blank (string_rev <$> ps) s → blank ps (string_rev s).
Proof.
  induction 1 as [|p s Hp Hs IH]; [constructor|]. apply list_elem_of_fmap in Hp as (q & -> & Hq).
  rewrite string_rev_app, string_rev_rev. apply blank_app; [done|].
  rewrite <- (string_app_nil_r q). by repeat constructor.
Qed.

(** Decidable form of [prefix_free]. *)
Fixpoint string_prefix (p s : string) : bool :=
  match p, s with
  | EmptyString, _ => true
  | String a p, String b s => bool_decide (a = b) && string_prefix p s
  | _, _ => false
  end.

Lemma app_prefix p q r1 r2 : p +:+ r1 = q +:+ r2 → string_prefix p q || string_prefix q p = true.
Proof.
  revert q. induction p as [|a p IH]; intros [|b q]; cbn; try done.
  intros [= <- H]. rewrite !bool_decide_eq_true_2 by done. cbn. by apply IH.
Qed.

Lemma prefix_free_dec ps :
  forallb (λ p, bool_decide (p ≠ "") && forallb (λ q, negb (string_prefix p q || string_prefix q p) ||
    bool_decide (p = q)) ps) ps = true → prefix_free ps.
Proof.
  rewrite forallb_True_iff. intros H. split.
  - intros He. apply H in He. by apply andb_prop in He as [He%bool_decide_eq_true _].
  - intros p q r1 r2 Hp Hq Heq%app_prefix. apply H in Hp.
    apply andb_prop in Hp as [_ Hp]. rewrite forallb_True_iff in Hp. apply Hp in Hq.
    rewrite Heq in Hq. by apply bool_decide_eq_true in Hq.
Qed.

Lemma TrimSpace_blank s : TrimSpace s = "" ↔ blank go_spaces s.
Proof.
  assert (prefix_free go_spaces) as Hpf by (apply prefix_free_dec; by vm_compute).
  unfold TrimSpace. split.
  - intros H. destruct (trim_left_split go_spaces (String.length s) s) as (w & Hw & Hs).
    set (s1 := trim_left go_spaces (String.length s) s) in *.
    destruct (trim_left_split (string_rev <$> go_spaces) (String.length s1) (string_rev s1)) as (v & Hv & Hr).
    apply (f_equal string_rev) in H. rewrite string_rev_rev in H. cbn [string_rev] in H.
    rewrite H, string_app_nil_r in Hr.
    rewrite Hs. apply blank_app; [done|]. rewrite <- (string_rev_rev s1), Hr. by apply blank_rev.
  - intros Hs. by rewrite (trim_left_blank go_spaces).
Qed.

(** ** Authentication *)

Definition all_procedures : list string :=
  HeartbeatServiceProcedures ++ AdminServiceProcedures ++ ProvisioningServiceProcedures.

Lemma mux_procedure r : rq_Path r ∈ all_procedures → mux r = RPC (rq_Path r).
Proof.
  intros Hp. assert (cleanPath (rq_Path r) = rq_Path r ∧ match_pattern (rq_Path r) = RPC (rq_Path r) ∧
    rq_Path r +:+ "/" ∉ [HeartbeatServicePrefix; AdminServicePrefix; ProvisioningServicePrefix])
    as (Hc & Hm & Hn).
  { revert Hp. generalize (rq_Path r). apply (forallb_decide (λ p, cleanPath p = p ∧ match_pattern p = RPC p ∧
      p +:+ "/" ∉ [HeartbeatServicePrefix; AdminServicePrefix; ProvisioningServicePrefix])).
    by vm_compute. }
  unfold mux. rewrite Hc.
  replace (if decide (rq_Method r = "CONNECT") then rq_Path r else rq_Path r) with (rq_Path r)
    by by case_decide.
  rewrite decide_False by done. by rewrite decide_True.
Qed.

Lemma api_token_blank env :
  APIToken (Load env) = "" ↔ ∀ v, env !! "API_TOKEN" = Some v → blank go_spaces v.
Proof.
  unfold Load. cbn [APIToken]. unfold getEnv. destruct (env !! "API_TOKEN") as [v|].
  - rewrite TrimSpace_blank. naive_solver.
  - naive_solver.
Qed.

(** C31: the bearer token guards every route. Authentication is off exactly when
    API_TOKEN is unset or white space; otherwise a request that does not present
    the token gets 401, except GET /sim and GET /ui, which get the page and the
    redirect to it; in particular it never reaches an RPC, the statistics or the
    report. A request that presents the token, or any request when authentication
    is off, gets what the routes give it, and every procedure of the three
    services is routed to its handler. *)
Theorem bearer_token_guards_routes : ∀ env r,
  let cfg := Load env in
  (APIToken cfg = "" ↔ ∀ v, env !! "API_TOKEN" = Some v → blank go_spaces v) ∧
  (APIToken cfg ≠ "" → rq_Authorization r ≠ "Bearer " +:+ APIToken cfg →
   serve cfg r = if decide (rq_Method r = "GET" ∧ rq_Path r = "/sim") then Page
                 else if decide (rq_Method r = "GET" ∧ rq_Path r = "/ui") then MovedPermanently "/sim"
                 else Unauthorized) ∧
  (APIToken cfg = "" ∨ rq_Authorization r = "Bearer " +:+ APIToken cfg → serve cfg r = mux r) ∧
  (rq_Path r ∈ all_procedures → mux r = RPC (rq_Path r)).
Proof.
  intros env r cfg. split_and!; [apply api_token_blank| | |apply mux_procedure].
  - intros Ht Ha. unfold serve, bearerAuth. rewrite (decide_False (P := APIToken cfg = "")) by done.
    rewrite (decide_False (P := rq_Authorization r = _)) by done.
    destruct (decide (rq_Method r = "GET" ∧ rq_Path r = "/sim")) as [[Hm Hp]|Hs].
    { rewrite decide_True by tauto. unfold mux. by rewrite Hm, Hp. }
    destruct (decide (rq_Method r = "GET" ∧ rq_Path r = "/ui")) as [[Hm Hp]|Hu].
    { rewrite decide_True by tauto. unfold mux. by rewrite Hm, Hp. }
    by rewrite decide_False by tauto.
  - intros [Ht|Ha]; unfold serve, bearerAuth.
    + by rewrite decide_True.
    + case_decide; [done|]. case_decide; [done|]. by rewrite decide_True.
Qed.

(** ** Connecting *)

Section connecting.
Context {A : Type} (connect : nat → error + A) (stopped_before stopped_waiting : nat → bool).

(** Attempt [j] ran, failed, and the pause after it was not interrupted. *)
Definition attempt_failed (j : nat) : Prop :=
  stopped_before j = false ∧ stopped_waiting j = false ∧ ∃ e, connect j = inl e.

Lemma connect_loop_result tries k :
  (k + tries = 31)%nat → (1 ≤ k ≤ 30)%nat →
  match connect_loop connect stopped_before stopped_waiting tries k with
  | Connected a => ∃ n, (k ≤ n ≤ 30)%nat ∧ stopped_before n = false ∧ connect n = inr a ∧
      ∀ j, (k ≤ j < n)%nat → attempt_failed j
  | Exit e => connect 30 = inl e ∧ stopped_before 30 = false ∧ ∀ j, (k ≤ j < 30)%nat → attempt_failed j
  | Stopped => ∃ n, (k ≤ n ≤ 30)%nat ∧ (∀ j, (k ≤ j < n)%nat → attempt_failed j) ∧
      (stopped_before n = true ∨ (n < 30)%nat ∧ stopped_waiting n = true)
  end.
Proof.
  revert k. induction tries as [|tries IH]; intros k Hk Hr; [lia|]. cbn [connect_loop].
  destruct (stopped_before k) eqn:Hb; [exists k; split_and!; [lia..| |by left]; lia|].
  destruct (connect k) as [e|a] eqn:Hc; [|exists k; split_and!; [lia..|done|done|lia]].
  destruct (decide (k = 30%nat)) as [->|Hne]; [split_and!; [done..|lia]|].
  destruct (stopped_waiting k) eqn:Hw; [exists k; split_and!; [lia..| |right; split; [lia|done]]; lia|].
  assert (∀ n j, (∀ j, (S k ≤ j < n)%nat → attempt_failed j) → (k ≤ j < n)%nat → attempt_failed j) as Hext.
  { intros n j Hj Hjn. destruct (decide (j = k)) as [->|]; [by split_and!; eauto|]. apply Hj. lia. }
  specialize (IH (S k) ltac:(lia) ltac:(lia)). destruct (connect_loop _ _ _ tries (S k)) as [a| |e'].
  - destruct IH as (n & ? & ? & ? & ?). exists n. split_and!; [lia..|done|done|eauto].
  - destruct IH as (n & ? & ? & ?). exists n. split_and!; [lia..|eauto|done].
  - destruct IH as (? & ? & ?). split_and!; [done..|eauto].
Qed.

(** The loops that connect to TigerBeetle and Temporal end. They make at most
    thirty attempts, each one after the failure of the one before, and return the
    client of the first attempt that succeeds; the process exits exactly when
    attempt thirty fails, with its error, and returns without a client exactly
    when the context ended before an attempt or during a pause. *)
Theorem connecting_terminates :
  match connect_with_retries connect stopped_before stopped_waiting with
  | Connected a => ∃ n, (1 ≤ n ≤ 30)%nat ∧ stopped_before n = false ∧ connect n = inr a ∧
      ∀ j, (1 ≤ j < n)%nat → attempt_failed j
  | Exit e => connect 30 = inl e ∧ stopped_before 30 = false ∧ ∀ j, (1 ≤ j < 30)%nat → attempt_failed j
  | Stopped => ∃ n, (1 ≤ n ≤ 30)%nat ∧ (∀ j, (1 ≤ j < n)%nat → attempt_failed j) ∧
      (stopped_before n = true ∨ (n < 30)%nat ∧ stopped_waiting n = true)
  end.
Proof. apply (connect_loop_result 30 1); lia. Qed.
End connecting.

(** ** Migrations *)

Section migrations.
Context {S : Type} (Exec : string → M S unit).

(** The files were executed in this order, each to its end. *)
Inductive applied : list dir_entry → S → S → Prop :=
  | applied_nil s : applied [] s s
  | applied_cons e d l s1 s2 s3 :
      de_Data e = inr d → Exec d s1 = (Ok tt, s2) → applied l s2 s3 → applied (e :: l) s1 s3.

(** What remained when the run stopped with [o]. *)
Definition stopped_at (rest : list dir_entry) (s : S) (o : outcome unit) (s' : S) : Prop :=
  match rest with
  | [] => o = Ok tt ∧ s' = s
  | e :: _ =>
      match de_Data e with
      | inl err => o = Err (EWrap "read migration %s" err) ∧ s' = s
      | inr d => ∃ r, Exec d s = (r, s') ∧ match r with
                 | Ok _ => False
                 | Err err => o = Err (EWrap "apply migration %s" err)
                 | Panic p => o = Panic p
                 end
      end
  end.

Definition files (l : list dir_entry) : list dir_entry := filter (λ e, de_IsDir e = false) l.

Lemma migrations_loop l s o s' :
  foldM (λ _ e, apply_migration Exec e) tt l s = (o, s') →
  ∃ pre rest s1, files l = pre ++ rest ∧ applied pre s s1 ∧ stopped_at rest s1 o s'.
Proof.
  revert s. induction l as [|e l IH]; intros s H.
  - inv H. exists [], [], s'. split_and!; [done|constructor|done].
  - cbn [foldM] in H. rewrite bind_cases in H. unfold apply_migration in H at 1. unfold files in *.
    rewrite filter_cons. destruct (de_IsDir e) eqn:Hd.
    + rewrite decide_False by done. by apply IH.
    + rewrite decide_True by done. destruct (de_Data e) as [err|d] eqn:Hda; cbn in H.
      * inv H. exists [], (e :: filter (λ e, de_IsDir e = false) l), s'.
        split_and!; [done|constructor|]. cbn. by rewrite Hda.
      * unfold mbind, M_bind, lift, wrap_err in H.
        destruct (Exec d s) as [[[]|err|p] s1] eqn:Hx.
        { apply IH in H as (pre & rest & s2 & -> & Hp & Hs). exists (e :: pre), rest, s2.
          split_and!; [done| |done]. by econstructor. }
        all: inv H; exists [], (e :: filter (λ e, de_IsDir e = false) l), s;
          (split_and!; [done|constructor|]); cbn; rewrite Hda; by eexists.
Qed.

(** Migrations run in the order of their names. The files of the directory, the
    subdirectories left out, are taken sorted by name; a run executes a prefix of
    that list, each file once and to its end, and stops at the first file that
    cannot be read or applied, with the error of that file; it succeeds exactly
    when the prefix is the whole list. *)
Theorem migrations_in_order : ∀ entries s o s',
  RunMigrations Exec (inr entries) None s = (o, s') →
  ∃ sorted pre rest s1, sorted ≡ₚ entries ∧ Sorted name_le sorted ∧
    files sorted = pre ++ rest ∧ applied pre s s1 ∧ stopped_at rest s1 o s'.
Proof.
  intros entries s o s' H. cbn in H.
  assert (Total name_le) as Ht by (intros a b; apply String.le_total).
  exists (merge_sort name_le entries).
  apply migrations_loop in H as (pre & rest & s1 & ? & ? & ?). exists pre, rest, s1.
  split_and!; [apply merge_sort_Permutation|by apply Sorted_merge_sort|done..].
Qed.
End migrations.

Lemma migrations_in_order_witness :
  let ex (q : string) : M (list string) unit :=
    λ s, if decide (q = "bad") then (Err (EMsg "syntax error"), s) else (Ok tt, s ++ [q]) in
  let f n d := {| de_Name := n; de_IsDir := false; de_Data := inr d |} in
  let entries := [f "0002_b.sql" "two"; f "0003_c.sql" "bad"; f "0001_a.sql" "one"] in
  RunMigrations ex (inr entries) None [] =
    (Err (EWrap "apply migration %s" (EMsg "syntax error")), ["one"; "two"]) ∧
  ∃ sorted pre rest s1, sorted ≡ₚ entries ∧ Sorted name_le sorted ∧
    files sorted = pre ++ rest ∧ applied ex pre [] s1 ∧
    stopped_at ex rest s1 (Err (EWrap "apply migration %s" (EMsg "syntax error"))) ["one"; "two"].
Proof.
  intros ex f entries. assert (RunMigrations ex (inr entries) None [] =
    (Err (EWrap "apply migration %s" (EMsg "syntax error")), ["one"; "two"])) as H by by vm_compute.
  split; [exact H|]. exact (migrations_in_order ex entries [] _ _ H).
Defined.

(** ** Global accounts *)

Section start.
Context `{TL : TigerBeetleLaws}.

Definition global_keys : list GlobalAccountKey :=
  r ← AllResources; at_ ← [AccountTypeOperator; AccountTypeSink]; [(r, at_)].

(** The IDs are drawn one by one in the order of the keys. *)
Lemma global_accounts_draw l m accs ks e m' accs' ks' e' :
  foldM (global_account_step ∅) (m, accs, ks) l e = (Ok (m', accs', ks'), e') → NoDup l →
  env_ids e' = (env_ids e + length l)%nat ∧
  (∀ i k, l !! i = Some k → m' !! k = Some (types_ID (env_ids e + i))) ∧
  (∀ k, k ∉ l → m' !! k = m !! k).
Proof.
  revert m accs ks e. induction l as [|[r at_] l IH]; intros m accs ks e H Hnd.
  - inv H. split_and!; [cbn; lia|done|done].
  - cbn [foldM] in H. apply bind_Ok_inv in H as ([[m1 accs1] ks1] & e1 & Hs & H).
    apply list.NoDup_cons in Hnd as [Hn Hnd].
    apply IH in H as (Hi & Hin & Hout); [|done].
    unfold global_account_step in Hs. rewrite lookup_empty in Hs.
    apply bind_Ok_inv in Hs as (id & e2 & Hid & Hs). injection Hid as <- <-.
    apply bind_Ok_inv in Hs as (? & ? & Hl & Hs). injection Hl as _ <-.
    apply bind_Ok_inv in Hs as (? & ? & Hl & Hs). injection Hl as _ <-. injection Hs as <- _ _ <-.
    cbn [env_ids length] in *. split_and!.
    + lia.
    + intros [|i] k Hk; cbn in Hk.
      * injection Hk as <-. rewrite Hout by done. by rewrite lookup_insert_eq, Nat.add_0_r.
      * rewrite (Hin _ _ Hk). do 2 f_equal. lia.
    + intros k [Hne Hk]%not_elem_of_cons. rewrite Hout by done. by rewrite lookup_insert_ne.
Qed.

Lemma boot_globals_ids e globals e' :
  boot_globals e = (Ok globals, e') →
  (∀ i k, global_keys !! i = Some k → globals !! k = Some (types_ID (env_ids e + i))) ∧
  (∀ k, k ∉ global_keys → globals !! k = None).
Proof.
  intros H. apply bind_Ok_inv in H as (ids & e1 & H%wrap_Ok & Hr). injection Hr as <- <-.
  unfold CreateGlobalAccounts in H. apply bind_Ok_inv in H as ([[m accs] ks] & e3 & Hf & H).
  apply bind_Ok_inv in H as (rs & e4 & _ & H). apply bind_Ok_inv in H as (? & e5 & _ & H).
  injection H as <- <-.
  apply global_accounts_draw in Hf as (_ & Hin & Hout); [|apply (bool_decide_unpack _); by vm_compute].
  split; intros; rewrite lookup_fmap.
  - by erewrite Hin.
  - by rewrite Hout.
Qed.

Lemma globals_for_provisioning_lookup globals k :
  globals_for_provisioning globals !! k = if decide (k ∈ global_keys) then globals !! k else None.
Proof.
  unfold globals_for_provisioning. fold global_keys.
  induction global_keys as [|x ks IH] using rev_ind; [apply lookup_empty|].
  rewrite foldl_snoc. set (m := foldl _ ∅ ks) in *.
  destruct (decide (k = x)) as [->|Hne].
  - rewrite decide_True by set_solver. destruct (globals !! x) as [id|] eqn:E.
    + apply lookup_insert_eq.
    + rewrite IH. by case_decide.
  - rewrite (decide_ext (k ∈ ks ++ [x]) (k ∈ ks)) by set_solver. rewrite <- IH.
    destruct (globals !! x); [by rewrite lookup_insert_ne|done].
Qed.

(** What a start gives the provisioning handler. Its map holds exactly the
    operator and the sink of each declared resource, every one an account without a
    balance limit that exists in the ledger; and every ID is one that this start
    drew, so that when the generator does not repeat itself a later start, on
    whatever ledger, gives the handler other accounts for every key: nothing is
    found again. *)
Theorem start_creates_fresh_globals : ∀ e globals e' e2 globals2 e2',
  boot_globals e = (Ok globals, e') → boot_globals e2 = (Ok globals2, e2') →
  (∀ i j, (env_ids e ≤ i < env_ids e + 6)%nat → (env_ids e2 ≤ j < env_ids e2 + 6)%nat →
    types_ID i ≠ types_ID j) →
  ∀ k,
  match globals_for_provisioning globals !! k with
  | Some id =>
      k ∈ global_keys ∧
      (∃ a, account_at (env_tb e') id = Some a ∧ DebitsMustNotExceedCredits (ac_Flags a) = false) ∧
      ∃ id2, globals_for_provisioning globals2 !! k = Some id2 ∧ id2 ≠ id
  | None => k ∉ global_keys
  end.
Proof.
  intros e globals e' e2 globals2 e2' H1 H2 Hdiff k.
  destruct (boot_globals_ids _ _ _ H1) as [Hin1 _]. destruct (boot_globals_ids _ _ _ H2) as [Hin2 _].
  rewrite !globals_for_provisioning_lookup. case_decide as Hk; [|done].
  destruct (list_elem_of_lookup_1 _ _ Hk) as [i Hi]. rewrite (Hin1 _ _ Hi), (Hin2 _ _ Hi).
  assert (i < 6)%nat by by apply lookup_lt_Some in Hi. split_and!; [done| |].
  - apply bind_Ok_inv in H1 as (ids & e1 & H1%wrap_Ok & Hr). injection Hr as <- <-.
    destruct k as [r role]. pose proof (global_accounts_created _ _ _ _ H1 r role) as Hg.
    specialize (Hin1 _ _ Hi). rewrite lookup_fmap in Hin1.
    destruct (ids !! (r, role)) as [id|]; [|done]. injection Hin1 as <-.
    destruct Hg as (_ & l & c & _ & _ & Hg). destruct (account_at (env_tb e1) id) as [a|] eqn:Ea; [|done].
    exists a. split; [done|]. injection Hg as _ _ _ Hg. by rewrite Hg.
  - eexists. split; [done|]. intros Heq. symmetry in Heq. revert Heq. apply Hdiff; lia.
Qed.
End start.

(** ** Witness *)

Lemma start_creates_fresh_globals_witness :
  let run := boot_globals demo_env in
  let again := boot_globals run.2 in
  match globals_for_provisioning (value_of ∅ run) !! (ResourceCPUHours, AccountTypeOperator) with
  | Some id => ∃ id2, globals_for_provisioning (value_of ∅ again) !!
                        (ResourceCPUHours, AccountTypeOperator) = Some id2 ∧ id2 ≠ id
  | None => False
  end.
Proof.
  intros run again.
  assert (run = (Ok (value_of ∅ run), run.2)) as Hrun by (apply value_ok; by vm_compute).
  assert (again = (Ok (value_of ∅ again), again.2)) as Hagain by (apply value_ok; by vm_compute).
  assert (∀ i j, (env_ids demo_env ≤ i < env_ids demo_env + 6)%nat →
    (env_ids run.2 ≤ j < env_ids run.2 + 6)%nat → types_ID i ≠ types_ID j) as Hids.
  { assert (env_ids run.2 = 6%nat) as -> by by vm_compute. intros i j Hi Hj.
    assert ((i, j) ∈ (i ← seq 0 6; j ← seq 6 6; [(i, j)])) as Hij.
    { apply list_elem_of_bind. exists i. split; [|apply elem_of_seq; cbn in Hi; lia].
      apply list_elem_of_bind. exists j. split; [left|apply elem_of_seq; lia]. }
    revert Hij. apply (forallb_decide (λ p : nat * nat, types_ID p.1 ≠ types_ID p.2)). by vm_compute. }
  pose proof (start_creates_fresh_globals demo_env _ _ run.2 _ _ Hrun Hagain Hids
    (ResourceCPUHours, AccountTypeOperator)) as H.
  destruct (globals_for_provisioning (value_of ∅ run) !! (ResourceCPUHours, AccountTypeOperator)).
  - apply H.
  - apply H. apply (bool_decide_unpack _). by vm_compute.
Defined.
