(* ===== verification/Startup.v ===== *)
(** * Starting and stopping the processes

    [main] of cmd/server and cmd/worker with the constructors they call (ledger/client.go,
    db/postgres.go, accounting/worker.go).  A process is a program over a journal of
    what it acquires, releases and serves; [os.Exit] is an error, which skips the
    deferred calls.  The answers of the network are arguments. *)

From Stdlib Require Import Ascii.
From S2P Require Import Prelude Domain TigerBeetle TBRef Ids Transfers Accounts LedgerProps.
From S2P Require Import Floats Dedup Server ServerProps.

(** ** Addresses (ledger/client.go) *)

Fixpoint has_char (a : ascii) (s : string) : bool :=
  match s with
  | String b s => bool_decide (a = b) || has_char a s
  | EmptyString => false
  end.

(** The parts before and after the last occurrence of a character. *)
Fixpoint split_last (a : ascii) (s : string) : option (string * string) :=
  match s with
  | EmptyString => None
  | String b s =>
      match split_last a s with
      | Some (l, r) => Some (String b l, r)
      | None => if decide (a = b) then Some ("", s) else None
      end
  end.

(** [net.SplitHostPort]: the host may be in brackets; brackets stand nowhere else, and
    colons in the host only with brackets. *)
Definition SplitHostPort (hostport : string) : option (string * string) :=
  '(pre, port) ← split_last ":"%char hostport;
  match pre with
  | String "[" rest =>
      '(host, after) ← split_last "]"%char rest;
      if decide (after = "" ∧ has_char "]"%char host = false ∧ has_char "["%char host = false ∧
                 has_char "]"%char port = false ∧ has_char "["%char port = false)
      then Some (host, port) else None
  | _ => if has_char ":"%char pre || has_char "["%char hostport || has_char "]"%char hostport then None
         else Some (pre, port)
  end.

Example split_samples :
  SplitHostPort "localhost:3000" = Some ("localhost", "3000") ∧ SplitHostPort "[::1]:3000" = Some ("::1", "3000") ∧
  SplitHostPort "::1:3000" = None ∧ SplitHostPort "3000" = None ∧ SplitHostPort "[::1]" = None ∧
  SplitHostPort "[a]b:1" = None ∧ SplitHostPort ":3000" = Some ("", "3000").
Proof. vm_compute. done. Qed.

(** IP addresses of package net, and the resolver. *)
Class Net := {
  IP : Type;
  ParseIP : string → option IP;
  is_IPv4 : IP → bool;  (* [ip.To4() != nil] *)
  IP_String : IP → string;
  LookupHost : string → error + list string;
}.


Definition resolveAddr `{Net} (addr : string) : error + string :=
  match SplitHostPort addr with
  | None => inr addr
  | Some (host, port) =>
      match ParseIP host with
      | Some _ => inr addr
      | None =>
          match LookupHost host with
          | inl e => inl (EWrap "lookup %q" e)
          | inr [] => inl (EMsg "lookup %q: %!w(<nil>)")
          | inr (first :: _) =>
              match ParseIP first with
              | None => inl (EMsg "invalid resolved IP %q")
              | Some ip => inr (if is_IPv4 ip then IP_String ip +:+ ":" +:+ port
                                else "[" +:+ IP_String ip +:+ "]:" +:+ port)
              end
          end
      end
  end.








(** Any two texts: an instance with names for addresses. *)
Definition demo_net : Net :=
  {| IP := bool; ParseIP s := if decide (s = "10.0.0.7") then Some true else if decide (s = "fd00::7") then Some false else None;
     is_IPv4 := id; IP_String b := if b then "10.0.0.7" else "fd00::7";
     LookupHost h := if decide (h = "tb") then inr ["fd00::7"; "10.0.0.7"] else inl (EMsg "no such host") |}.


(** ** Constructors *)

(** [ledger.NewClient]: the resolved address that it connects to. *)
Definition ledger_NewClient `{Net} (tb_connect : string → option error) (address : string) : error + string :=
  match resolveAddr address with
  | inl e => inl (EWrap "resolve TB address %q" e)
  | inr resolved =>
      match tb_connect resolved with
      | Some e => inl (EWrap "tigerbeetle.NewClient" e)
      | None => inr resolved
      end
  end.

(** [db.NewPool] *)
Definition NewPool (pgxpool_New Ping : option error) : error + unit :=
  match pgxpool_New with
  | Some e => inl (EWrap "pgxpool.New" e)
  | None => match Ping with Some e => inl (EWrap "postgres ping" e) | None => inr tt end
  end.

(** [accounting.NewClient] *)
Record temporal_Options := {
  op_HostPort : string;
  op_Namespace : string;
  op_Credentials : option string;
  op_TLS : bool;
}.
Definition temporal_options (host namespace apiKey : string) : temporal_Options :=
  if decide (apiKey = "") then
    {| op_HostPort := host; op_Namespace := namespace; op_Credentials := None; op_TLS := false |}
  else {| op_HostPort := host; op_Namespace := namespace; op_Credentials := Some apiKey; op_TLS := true |}.
Definition temporal_NewClient (Dial : temporal_Options → option error) (host namespace apiKey : string) : error + unit :=
  match Dial (temporal_options host namespace apiKey) with
  | Some e => inl (EWrap "temporal.Dial" e)
  | None => inr tt
  end.

(** What [StartWorker] registers. *)
Definition registered_workflows : list string :=
  ["TenantAccountingWorkflow"; "TenantProvisioningWorkflow"; "RegisterClusterWorkflow"].

(** ** Processes *)

Inductive resource := Signals | Pool | LedgerClient | TemporalClient | Worker | ValkeyClient.

#[export] Instance resource_eq_dec : EqDecision resource.
Proof. solve_decision. Defined.

Inductive entry :=
  | Acquired (r : resource)
  | Released (r : resource)
  | Migrated
  | DebugListening
  | Serving (cfg : Config) (shared_dedup : bool) (globals : gmap GlobalAccountKey bytes16)
  | Working (workflows : list string)
  | ShutDown (failed : option error).

Section processes.
Context `{TB : TigerBeetle} {D : Type}.

Record Machine := {
  mc_journal : list entry;
  mc_env : Env;
  mc_db : D;
}.

Definition note (e : entry) : M Machine unit := modify (λ s, {| s with mc_journal := mc_journal s ++ [e] |}).
Definition on_env {A} (m : M Env A) : M Machine A := zoom mc_env (λ e s, {| s with mc_env := e |}) m.
Definition on_database {A} (m : M D A) : M Machine A := zoom mc_db (λ d s, {| s with mc_db := d |}) m.

(** [must(err, label)] and its expansions: [os.Exit(1)] on an error. *)
Definition must {A} (r : error + A) : M Machine A :=
  match r with inl e => fail e | inr a => mret a end.

(** [r] is acquired, its release deferred, and the rest of the function runs: a return
    runs the deferred call, [os.Exit] does not. *)
Definition holding (r : resource) (rest : M Machine unit) : M Machine unit :=
  _ ← note (Acquired r); _ ← rest; note (Released r).

(** The loops of the start: the context may end them, which returns from [main]. *)
Definition connected {A} (b : boot A) (rest : A → M Machine unit) : M Machine unit :=
  match b with
  | Connected a => rest a
  | Stopped => mret tt
  | Exit e => fail e
  end.

(** The network and the signals during one execution. *)
Context (net : nat → Net) (tb_connect : nat → string → option error) (Dial : nat → temporal_Options → option error).
Context (pgxpool_New Ping : option error) (migrations : error + list dir_entry) (acquire_conn : option error).
Context (Exec : string → M D unit) (worker_Start : option error) (valkey_reachable : bool).
Context (tb_stopped tb_waiting temporal_stopped temporal_waiting : nat → bool).
Context (ListenAndServe Shutdown : option error).

Definition connect_ledger (cfg : Config) : boot string :=
  connect_with_retries (λ k, @ledger_NewClient (net k) (tb_connect k) (TigerBeetleAddr cfg)) tb_stopped tb_waiting.
Definition connect_temporal (cfg : Config) : boot unit :=
  connect_with_retries (λ k, temporal_NewClient (Dial k) (TemporalHost cfg) (TemporalNamespace cfg) (TemporalAPIKey cfg))
    temporal_stopped temporal_waiting.

Definition option_error (o : option error) : error + unit := match o with Some e => inl e | None => inr tt end.

(** From the deduplicator on: the handlers, the server, and its end, by a failure to
    listen, which exits, or by a signal. *)
Definition serve_requests (cfg : Config) (globals : gmap GlobalAccountKey bytes16) : M Machine unit :=
  _ ← note (Serving cfg valkey_reachable (globals_for_provisioning globals));
  _ ← must (option_error ListenAndServe);
  note (ShutDown Shutdown).

Definition server_main (env : gmap string string) : M Machine unit :=
  let cfg := Load env in
  holding Signals (
    _ ← must (NewPool pgxpool_New Ping);
    holding Pool (
      _ ← on_database (RunMigrations Exec migrations acquire_conn);
      _ ← note Migrated;
      connected (connect_ledger cfg) (λ _,
        holding LedgerClient (
          globals ← on_env boot_globals;
          connected (connect_temporal cfg) (λ _,
            holding TemporalClient (
              _ ← must (option_error worker_Start);
              holding Worker (
                _ ← note DebugListening;
                _ ← must (match SplitHostPort (RedisAddr cfg) with
                          | Some hp => inr hp
                          | None => inl (EMsg "parse redis addr")
                          end);
                if valkey_reachable then holding ValkeyClient (serve_requests cfg globals)
                else serve_requests cfg globals))))))).

(** cmd/worker: the same resources without retries, migrations and RPCs. *)
Definition worker_main (env : gmap string string) : M Machine unit :=
  let cfg := Load env in
  holding Signals (
    _ ← must (NewPool pgxpool_New Ping);
    holding Pool (
      _ ← must (@ledger_NewClient (net 1) (tb_connect 1) (TigerBeetleAddr cfg));
      holding LedgerClient (
        _ ← must (temporal_NewClient (Dial 1%nat) (TemporalHost cfg) (TemporalNamespace cfg) (TemporalAPIKey cfg));
        holding TemporalClient (
          _ ← must (option_error worker_Start);
          holding Worker (note (Working registered_workflows)))))).

(** ** Order *)

Definition acquired (es : list entry) : list resource := omap (λ e, match e with Acquired r => Some r | _ => None end) es.
Definition released (es : list entry) : list resource := omap (λ e, match e with Released r => Some r | _ => None end) es.

(** When a program returns, what it acquired it has released in the opposite order; when it
    exits, it has released nothing. *)
Definition orderly {A} (p : M Machine A) : Prop := ∀ s, ∃ es,
  mc_journal (p s).2 = mc_journal s ++ es ∧
  match (p s).1 with
  | Ok _ => released es = reverse (acquired es)
  | Err _ => released es = []
  | Panic _ => True
  end.

(** A program that neither acquires nor releases. *)
Definition quiet {A} (p : M Machine A) : Prop := ∀ s, ∃ es,
  mc_journal (p s).2 = mc_journal s ++ es ∧ acquired es = [] ∧ released es = [].

Lemma orderly_quiet {A} (p : M Machine A) : quiet p → orderly p.
Proof.
  intros Hp s. destruct (Hp s) as (es & Hj & Ha & Hr). exists es. split; [done|]. rewrite Ha, Hr. by destruct (p s).1.
Qed.

Lemma orderly_bind {A C} (p : M Machine A) (k : A → M Machine C) :
  quiet p → (∀ a, orderly (k a)) → orderly (p ≫= k).
Proof.
  intros Hp Hk s. destruct (Hp s) as (es & Hj & Ha & Hr). rewrite bind_cases.
  destruct (p s) as [[a|e|q] s1]; cbn [fst snd] in *; [|exists es; by rewrite ?Hr..].
  destruct (Hk a s1) as (es' & Hj' & Hm). exists (es ++ es'). unfold acquired, released in *.
  rewrite Hj', Hj, app_assoc, !omap_app, Ha, Hr. by split.
Qed.

Lemma orderly_holding r rest : orderly rest → orderly (holding r rest).
Proof.
  intros Hrest s. unfold holding, note, modify. rewrite bind_cases. cbn [fst snd]. rewrite bind_cases.
  set (s1 := {| s with mc_journal := mc_journal s ++ [Acquired r] |}).
  destruct (Hrest s1) as (es & Hj & Hm). cbn [mc_journal s1] in Hj.
  destruct (rest s1) as [[[]|e|q] s2]; cbn [fst snd] in *.
  - exists ([Acquired r] ++ es ++ [Released r]). cbn [mc_journal]. rewrite Hj, <- !app_assoc. split; [done|].
    assert (acquired ([Acquired r] ++ es ++ [Released r]) = r :: acquired es) as ->.
    { unfold acquired. rewrite !omap_app. cbn. by rewrite app_nil_r. }
    rewrite reverse_cons, <- Hm. unfold released. by rewrite !omap_app.
  - exists ([Acquired r] ++ es). rewrite Hj, <- app_assoc. by split.
  - exists ([Acquired r] ++ es). rewrite Hj, <- app_assoc. by split.
Qed.

Lemma quiet_ret {A} (a : A) : quiet (mret a).
Proof. intros s. exists []. by rewrite app_nil_r. Qed.
Lemma quiet_must {A} (r : error + A) : quiet (must r).
Proof. intros s. exists []. rewrite app_nil_r. by destruct r. Qed.
Lemma quiet_note e : (∀ r, e ≠ Acquired r ∧ e ≠ Released r) → quiet (note e).
Proof. intros He s. exists [e]. split; [done|]. destruct e as [r|r| | | | |]; [by destruct (He r)..|done|done|done|done|done]. Qed.
Lemma quiet_env {A} (m : M Env A) : quiet (on_env m).
Proof. intros s. exists []. rewrite app_nil_r. unfold on_env, zoom. by destruct (m (mc_env s)). Qed.
Lemma quiet_database {A} (m : M D A) : quiet (on_database m).
Proof. intros s. exists []. rewrite app_nil_r. unfold on_database, zoom. by destruct (m (mc_db s)). Qed.
Lemma orderly_connected {A} (b : boot A) rest : (∀ a, orderly (rest a)) → orderly (connected b rest).
Proof. intros Hr. destruct b as [a| |e]; [apply Hr|apply orderly_quiet, quiet_ret|]. intros s. exists []. by rewrite app_nil_r. Qed.

Lemma serve_requests_orderly cfg globals : orderly (serve_requests cfg globals).
Proof.
  apply orderly_bind; [by apply quiet_note|]. intros _. apply orderly_bind; [apply quiet_must|]. intros _.
  by apply orderly_quiet, quiet_note.
Qed.

Ltac orderly_step :=
  repeat first
    [ apply orderly_holding | apply orderly_connected; intros ? | apply serve_requests_orderly
    | apply orderly_bind; [first [apply quiet_must | apply quiet_env | apply quiet_database | by apply quiet_note]|intros ?]
    | by apply orderly_quiet, quiet_note ].

Lemma server_main_orderly env : orderly (server_main env).
Proof. unfold server_main. orderly_step. destruct valkey_reachable; orderly_step. Qed.
Lemma worker_main_orderly env : orderly (worker_main env).
Proof. unfold worker_main. orderly_step. Qed.

(** Everything that the start needs has succeeded. *)
Definition ready (env : gmap string string) (s : Machine) : Prop :=
  NewPool pgxpool_New Ping = inr tt ∧ (RunMigrations Exec migrations acquire_conn (mc_db s)).1 = Ok tt ∧
  (∃ a, connect_ledger (Load env) = Connected a) ∧ (∃ g, (boot_globals (mc_env s)).1 = Ok g) ∧
  connect_temporal (Load env) = Connected tt ∧ worker_Start = None ∧ is_Some (SplitHostPort (RedisAddr (Load env))).

Definition serves (e : entry) : bool := match e with Serving _ _ _ => true | _ => false end.

(** One step of a program; a state that does not serve. *)
Ltac unroll := repeat (rewrite bind_cases; cbn [fst snd fail mret M_ret mc_journal mc_env mc_db app]).
Ltac not_serving :=
  intros [= <- <-]; cbn [mc_journal fst];
  split; [split; [intros (? & ? & ? & ?)|intros ?; exfalso; naive_solver]|intros ????];
  repeat match goal with
         | H : _ ∈ _ :: _ |- _ => apply elem_of_cons in H as [H|H]; [done|]
         | H : _ ∈ [] |- _ => by apply elem_of_nil in H
         end.

(** C32: the server serves exactly when everything it needs is there, and cleans up in the
    right order. It begins to serve if and only if the database answered, the migrations
    went through, the ledger and Temporal were reached within their retries, the global
    accounts exist, the worker started and the address of Valkey is well formed (Valkey itself
    may be down); it then serves the configuration of the environment with these
    accounts, and shares the deduplication iff Valkey is there. When the process returns, everything that it acquired is
    released, in the opposite order; when it exits with an error, nothing is. *)
Theorem server_start_is_orderly : ∀ env s, mc_journal s = [] →
  let '(r, s') := server_main env s in
  ((∃ c d g, Serving c d g ∈ mc_journal s') ↔ ready env s) ∧
  (∀ c d g, Serving c d g ∈ mc_journal s' → c = Load env ∧ d = valkey_reachable ∧
     ∃ globals, (boot_globals (mc_env s)).1 = Ok globals ∧ g = globals_for_provisioning globals) ∧
  match r with
  | Ok _ => released (mc_journal s') = reverse (acquired (mc_journal s'))
  | Err _ => released (mc_journal s') = []
  | Panic _ => True
  end.
Proof.
  intros env s Hs. destruct (server_main_orderly env s) as (es & Hj & Hm). rewrite Hs in Hj. cbn in Hj. rewrite <- Hj in Hm.
  destruct (server_main env s) as [r s'] eqn:E. cbn [fst snd] in *. apply and_assoc. split; [|done]. clear es Hj Hm.
  revert E. unfold server_main, ready. generalize (Load env) as cfg. intros cfg.
  unfold holding, connected, serve_requests, must, option_error, note, modify, on_env, on_database, zoom.
  destruct s as [j e d]. cbn in Hs. subst j.
  destruct (NewPool pgxpool_New Ping) as [err|[]]; unroll; [by not_serving|].
  destruct (RunMigrations Exec migrations acquire_conn d) as [[[]| |] d1]; unroll; [|by not_serving..].
  destruct (connect_ledger cfg) as [a| |err]; unroll; [|by not_serving..].
  destruct (boot_globals e) as [[globals| |] e1]; unroll; [|by not_serving..].
  destruct (connect_temporal cfg) as [[]| |err]; unroll; [|by not_serving..].
  destruct worker_Start as [err|]; unroll; [by not_serving|].
  destruct (SplitHostPort (RedisAddr cfg)) as [hp|]; unroll; [|by not_serving].
  destruct valkey_reachable, ListenAndServe; unroll; intros [= <- <-]; cbn [mc_journal];
    (split; [split; [intros _; by eauto 10|intros _; exists cfg; do 2 eexists; by repeat (apply list_elem_of_here || apply list_elem_of_further)]
            |intros c d0 g Hin; repeat (apply elem_of_cons in Hin as [Hin|Hin]; [first [done|injection Hin as -> -> ->; by eauto]|]);
               by apply elem_of_nil in Hin]).
Qed.
End processes.

(** ** A concrete start *)

Definition demo_machine : Machine (D := list string) :=
  {| mc_journal := []; mc_env := {| env_tb := ref_empty : TBState; env_ids := 0; env_seed := 0 |}; mc_db := [] |}.
Definition demo_exec (sql : string) : M (list string) unit := modify (λ d, d ++ [sql]).
Definition one_migration : list dir_entry := [{| de_Name := "001.sql"; de_IsDir := false; de_Data := inr "CREATE" |}].

(** The ledger is reached at the second attempt, Valkey is down, and a signal ends the server. *)
Definition demo_main : M (Machine (D := list string)) unit :=
  server_main (λ _, demo_net) (λ k _, if decide (k = 1%nat) then Some (EMsg "refused") else None) (λ _ _, None)
    None None (inr one_migration) None demo_exec None false (λ _, false) (λ _, false) (λ _, false) (λ _, false) None None {["TIGERBEETLE_ADDR" := "tb:3000"]}.

Lemma server_start_is_orderly_witness :
  (∃ c d g, Serving c d g ∈ mc_journal (demo_main demo_machine).2) ∧
  released (mc_journal (demo_main demo_machine).2) = [Worker; TemporalClient; LedgerClient; Pool; Signals].
Proof.
  pose proof (server_start_is_orderly (λ _, demo_net) (λ k _, if decide (k = 1%nat) then Some (EMsg "refused") else None)
    (λ _ _, None) None None (inr one_migration) None demo_exec None false (λ _, false) (λ _, false) (λ _, false)
    (λ _, false) None None {["TIGERBEETLE_ADDR" := "tb:3000"]} demo_machine eq_refl) as H.
  fold demo_main in H. destruct (demo_main demo_machine) as [r s'] eqn:E. destruct H as ([_ Hs] & _ & _).
  split; [|by rewrite <- (f_equal snd E); vm_compute]. apply Hs. clear.
  assert (match (boot_globals (mc_env demo_machine)).1 with Ok _ => true | _ => false end = true) as Hg by by vm_compute.
  refine (conj eq_refl (conj _ (conj _ (conj _ (conj _ (conj eq_refl _)))))).
  - by vm_compute.
  - exists "[fd00::7]:3000". by vm_compute.
  - destruct (boot_globals (mc_env demo_machine)).1 as [g| |]; [by exists g|done..].
  - by vm_compute.
  - exists ("localhost", "6379"). by vm_compute.
Defined.
