(* ===== verification/WebUI.v ===== *)
(** * The web UI (internal/webui/handler.go)

    The runtime statistics and the cross-tenant report.  The figures of the Go
    runtime are an argument; the handler shares the database, the message counter,
    the latency ring and the stream registry with the heartbeat gateway. *)

From S2P Require Import Prelude Domain TigerBeetle TBRef Ids Transfers Accounts.
From S2P Require Import World ActivitiesTB ActivitiesPG Provisioning.
From S2P Require Import Floats Dedup Streams Latency Heartbeat CivilTime.
From S2P Require Postgres.
Import Postgres(PGServer, QuotaSnapshot, qs_TenantID, qs_ResourceType, qs_CreditsTotal, qs_DebitsPosted,
  qs_DebitsPending, qs_Available, qs_SnapshotAt, WorkloadCluster, wc_ID, wc_TenantID, wc_CloudProvider,
  wc_Region, wc_Status, wc_LastHeartbeat).

(** ** The message rate (heartbeat_handler.go: MsgRate) *)

Record RateMeter := { rateLastVal : Z; rateLastAt : Z }.

(** The zero [time.Time], the first of January of year 1. *)
Definition zero_time : Z := -62135596800 * nanosPerSecond.
Definition new_meter : RateMeter := {| rateLastVal := 0; rateLastAt := zero_time |}.

(** [t.Sub(u)]: saturates at the range of a [Duration]. *)
Definition time_Sub (t u : Z) : Z := Z.max (- 2 ^ 63) (Z.min (2 ^ 63 - 1) (t - u)).

(** [d.Seconds()] of a non-negative duration. *)
Definition Seconds (d : Z) : float :=
  float_add (float_of_Z (d / nanosPerSecond))
    (float_quot (float_of_Z (d mod nanosPerSecond)) (float_of_Z nanosPerSecond)).

Definition MsgRate (now cur : Z) (m : RateMeter) : float * Z * RateMeter :=
  let d := time_Sub now (rateLastAt m) in
  let rate := if decide (0 < d)
              then float_quot (float_of_Z (u64 (cur - rateLastVal m))) (Seconds d)
              else Float 0 0 in
  (rate, cur, {| rateLastVal := cur; rateLastAt := now |}).

(** ** Payloads *)

Record runtimeStats := {
  st_Goroutines : Z;
  st_HeapAllocMB : float;
  st_HeapSysMB : float;
  st_GCRuns : Z;
  st_UptimeS : Z;
  st_ActiveStreams : nat;
  st_MsgPerSec : float;
  st_MsgTotal : Z;
  st_SignalP50Us : Z;
  st_SignalP99Us : Z;
}.

Record quotaSnapshotJSON := {
  qj_TenantID : string;
  qj_ResourceType : string;
  qj_CreditsTotal : Z;
  qj_DebitsPosted : Z;
  qj_DebitsPending : Z;
  qj_Available : Z;
  qj_SnapshotAt : string;
}.

Record staleClusterJSON := {
  sj_ID : string;
  sj_TenantID : string;
  sj_CloudProvider : string;
  sj_Region : string;
  sj_Status : string;
  sj_LastHeartbeat : string;
}.

Record reportPayload := {
  rp_QuotaSnapshots : list quotaSnapshotJSON;
  rp_StaleClusters : list staleClusterJSON;
}.

(** What [runtime.ReadMemStats] and [NumGoroutine] return. *)
Record memstats := { ms_Goroutines : Z; ms_HeapAlloc : Z; ms_HeapSys : Z; ms_NumGC : Z }.

(** ** The handlers *)

Record UI `{TigerBeetle} `{TemporalServer} (D : Type) := {
  ui_gw : Gateway D;
  ui_rate : RateMeter;
  ui_start : Z;
}.
Arguments ui_gw {_ _ _} _.
Arguments ui_rate {_ _ _} _.
Arguments ui_start {_ _ _} _.

Section ui.
Context `{TigerBeetle} `{TemporalServer} `{PGServer} `{UUIDPkg} `{GoRange} {D : Type}.

Definition on_gw {A} (m : M (Gateway D) A) : M (UI D) A :=
  zoom ui_gw (λ g u, {| u with ui_gw := g |}) m.

(** [x / 1024 / 1024] *)
Definition megabytes (bytes : Z) : float :=
  float_quot (float_quot (float_of_Z bytes) (float_of_Z 1024)) (float_of_Z 1024).

Definition serveStats (ms : memstats) (seed : nat) : M (UI D) runtimeStats :=
  activeStreams ← gets (λ u, length (ActiveClusters seed (gw_streams (ui_gw u))));
  now ← on_gw time_Now;
  rate ← gets (λ u, MsgRate now (gw_inbound (ui_gw u)) (ui_rate u));
  _ ← modify (λ u, {| u with ui_rate := rate.2 |});
  lat ← gets (λ u, Percentiles (gw_lat (ui_gw u)));
  pq ← lift lat;
  now ← on_gw time_Now;
  start ← gets ui_start;
  mret {| st_Goroutines := ms_Goroutines ms; st_HeapAllocMB := megabytes (ms_HeapAlloc ms);
          st_HeapSysMB := megabytes (ms_HeapSys ms); st_GCRuns := ms_NumGC ms;
          st_UptimeS := float_trunc (Seconds (time_Sub now start));
          st_ActiveStreams := activeStreams; st_MsgPerSec := rate.1.1; st_MsgTotal := rate.1.2;
          st_SignalP50Us := pq.1; st_SignalP99Us := pq.2 |}.

(** The same figures on the debug server (cmd/server/main.go), with the last pause of
    the collector from the ring of 256 that the runtime keeps. *)
Definition gc_pause_us (numGC : Z) (pauseNs : list Z) : outcome Z :=
  match pauseNs !! Z.to_nat (u32 (numGC + 255) mod 256) with
  | Some ns => Ok (ns / 1000)
  | None => Panic "index out of range"
  end.

Definition debug_stats (ms : memstats) (pauseNs : list Z) (seed : nat) : M (UI D) (runtimeStats * Z) :=
  stats ← serveStats ms seed;
  pause ← lift (gc_pause_us (ms_NumGC ms) pauseNs);
  mret (stats, pause).

Definition snapshot_json (s : QuotaSnapshot) : quotaSnapshotJSON :=
  {| qj_TenantID := uuid_String (qs_TenantID s); qj_ResourceType := qs_ResourceType s;
     qj_CreditsTotal := qs_CreditsTotal s; qj_DebitsPosted := qs_DebitsPosted s;
     qj_DebitsPending := qs_DebitsPending s; qj_Available := default 0 (qs_Available s);
     qj_SnapshotAt := format_utc (qs_SnapshotAt s) |}.

Definition stale_json (c : WorkloadCluster) : staleClusterJSON :=
  {| sj_ID := uuid_String (wc_ID c); sj_TenantID := uuid_String (wc_TenantID c);
     sj_CloudProvider := wc_CloudProvider c; sj_Region := wc_Region c; sj_Status := wc_Status c;
     sj_LastHeartbeat := match wc_LastHeartbeat c with Some t => format_utc t | None => "" end |}.

(** An error is answered with status 500 and its text. *)
Definition serveReport : M (UI D) reportPayload :=
  snapshots ← wrap_err "GetAllQuotaSnapshots: " (on_gw (on_pg Postgres.GetAllQuotaSnapshots));
  now ← on_gw time_Now;
  let staleThreshold := Some (now - 5 * 60 * nanosPerSecond) in
  staleClusters ← wrap_err "ListStaleClusters: " (on_gw (on_pg (Postgres.ListStaleClusters staleThreshold)));
  mret {| rp_QuotaSnapshots := snapshot_json <$> snapshots; rp_StaleClusters := stale_json <$> staleClusters |}.
End ui.

(** The index into the ring of pauses is the last one written, and in range. *)
Lemma gc_pause_last numGC pauseNs :
  0 < numGC < 2 ^ 32 → length pauseNs = 256%nat →
  ∃ ns, pauseNs !! Z.to_nat ((numGC - 1) mod 256) = Some ns ∧ gc_pause_us numGC pauseNs = Ok (ns / 1000).
Proof.
  intros Hn Hl. unfold gc_pause_us.
  assert (u32 (numGC + 255) mod 256 = (numGC - 1) mod 256) as ->.
  { unfold u32. change (2 ^ 32) with (256 * 2 ^ 24). rewrite Z.rem_mul_r by lia.
    replace (numGC + 255) with (numGC - 1 + 1 * 256) by lia. rewrite Z_mod_plus_full.
    rewrite (Z.mul_comm 256), Z_mod_plus_full. apply Z.mod_mod. lia. }
  pose proof (Z.mod_pos_bound (numGC - 1) 256 ltac:(lia)) as Hb.
  destruct (lookup_lt_is_Some_2 pauseNs (Z.to_nat ((numGC - 1) mod 256)) ltac:(lia)) as [ns Hns].
  exists ns. by rewrite Hns.
Qed.
