(* ===== verification/WebUIProps.v ===== *)
(** * What the report of the web UI shows *)

From stdpp Require Import sorting.
From S2P Require Import Prelude Domain TigerBeetle TBRef Ids Transfers Accounts LedgerProps.
From S2P Require Import World ActivitiesTB ActivitiesTBProps ActivitiesPG AccountingWorkflow Provisioning.
From S2P Require Import ProvisioningProps Floats Dedup Streams Latency Heartbeat HeartbeatProps.
From S2P Require Import HeartbeatWitnesses CivilTime WebUI.
From S2P Require Postgres.
Import Postgres(PGServer, UUID, Tables, workload_clusters, quota_snapshots, WorkloadCluster, wc_Status,
  wc_LastHeartbeat, heartbeat_le).

Section report.
Context `{TL : TigerBeetleLaws} `{TS : TemporalServer} `{TSL : !TemporalServerLaws TS}.
Context `{P : PGServer} `{U : UUIDPkg} {D : Type} `{DD : Deduplicator D}.
Implicit Types (g : Gateway D) (u : UI D).

Lemma Heartbeat_keeps_tables r g o g' :
  cache_ok g → Heartbeat r g = (o, g') → tables_gw g' = tables_gw g.
Proof.
  intros Hok He. apply (Heartbeat_spec _ _ _ _ Hok) in He as (g1 & (_ & _ & Ht & _) & He).
  rewrite <- Ht. destruct (dedup_now _ _ _).1.
  - destruct He as [(_ & _ & -> & _) _]. done.
  - destruct o as [resp|e|x]; [| |done].
    + destruct He as (t & _ & _ & _ & -> & _). done.
    + destruct He as [(_ & _ & -> & _)|(t & l & _ & _ & _ & _ & -> & _)]; done.
Qed.

(** No heartbeat since the threshold, by the row. *)
Definition silent (threshold : Z) (r : WorkloadCluster) : Prop :=
  match wc_LastHeartbeat r with None => True | Some h => h < threshold end.
#[local] Instance silent_dec threshold r : Decision (silent threshold r).
Proof. unfold silent. case_match; apply _. Defined.

(** The clusters that count as stale at a threshold. *)
Definition stale_rows (threshold : Z) (t : Tables) : list WorkloadCluster :=
  filter (λ r, (wc_Status r ∉ ["deregistered"; "suspended"]) ∧ silent threshold r)
    (map_to_list (workload_clusters t)).*2.

Lemma on_gw_Ok {A} (m : M (Gateway D) A) u a u' :
  on_gw m u = (Ok a, u') → ∃ g', m (ui_gw u) = (Ok a, g') ∧ u' = {| u with ui_gw := g' |}.
Proof. unfold on_gw, zoom. destruct (m (ui_gw u)) as [o g']. intros [= -> <-]. eauto. Qed.

(** A statement that only reads leaves the tables and the clock. *)
Lemma on_pg_read {A} (f : nat → Tables → A) g a g' :
  on_pg (Postgres.query (λ n t, Ok (f n t, t))) g = (Ok a, g') →
  (∃ n, a = f n (tables_gw g)) ∧ tables_gw g' = tables_gw g ∧ gw_clock g' = gw_clock g ∧ gw_reads g' = gw_reads g.
Proof.
  intros H. pose proof (on_pg_Ok _ _ _ _ H) as [= <- Ht].
  unfold on_pg, on_platform, on_world, on_db, zoom, Postgres.query in H.
  destruct (Postgres.db_fault _ _); inv H; split_and!; eauto.
Qed.

#[local] Instance heartbeat_le_total : Total heartbeat_le.
Proof. intros a b. unfold heartbeat_le. repeat case_match; auto. lia. Qed.

Lemma serveReport_Ok u rep u' :
  serveReport u = (Ok rep, u') →
  let g := ui_gw u in
  let t := tables_gw g in
  tables_gw (ui_gw u') = t ∧
  rp_QuotaSnapshots rep ≡ₚ snapshot_json <$> (map_to_list (quota_snapshots t)).*2 ∧
  ∃ rows, rp_StaleClusters rep = stale_json <$> rows ∧ Sorted heartbeat_le rows ∧
    rows ≡ₚ stale_rows (gw_clock g (gw_reads g) - 5 * 60 * nanosPerSecond) t.
Proof.
  intros H g t. unfold serveReport in H.
  apply bind_Ok_inv in H as (snaps & u1 & (g1 & H1 & ->)%wrap_Ok%on_gw_Ok & H).
  apply on_pg_read in H1 as ((n1 & ->) & Ht1 & Hc1 & Hr1).
  apply bind_Ok_inv in H as (now & u2 & (g2 & H2 & ->)%on_gw_Ok & H). injection H2 as <- <-.
  apply bind_Ok_inv in H as (stale & u3 & (g3 & H3 & ->)%wrap_Ok%on_gw_Ok & H).
  apply on_pg_read in H3 as ((n3 & ->) & Ht3 & _ & _). injection H as <- <-.
  cbn [ui_gw] in *. rewrite Hc1, Hr1 in *.
  split; [exact (eq_trans Ht3 Ht1)|]. cbn [rp_QuotaSnapshots rp_StaleClusters]. split.
  - by rewrite merge_sort_Permutation, Postgres.rows_perm.
  - eexists. split; [done|]. split; [apply Sorted_merge_sort; apply _|].
    etrans; [apply merge_sort_Permutation|]. etrans; [apply Postgres.rows_perm|].
    change (tables_gw _) with (tables_gw g1). rewrite Ht1. unfold stale_rows.
    erewrite (list_filter_iff _ _); [done|]. intros r. fold g. unfold Postgres.stale_since, silent.
    destruct (wc_LastHeartbeat r); [rewrite bool_decide_eq_true|]; tauto.
Qed.

(** C35: the report does not see heartbeats. After a heartbeat was handled, whatever
    its outcome, the report lists as stale, in the order of their last heartbeat,
    exactly the clusters that are not deregistered or suspended and whose row, as
    it was before the heartbeat, records none in the last five minutes; the
    snapshots are the rows of all tenants. So a cluster whose row has no heartbeat,
    as every registered cluster's, is reported stale right after its heartbeat. *)
Theorem report_misses_heartbeats : ∀ r u o g' rep u',
  cache_ok (ui_gw u) → Heartbeat r (ui_gw u) = (o, g') →
  serveReport {| u with ui_gw := g' |} = (Ok rep, u') →
  let t := tables_gw (ui_gw u) in
  rp_QuotaSnapshots rep ≡ₚ snapshot_json <$> (map_to_list (quota_snapshots t)).*2 ∧
  (∃ rows, rp_StaleClusters rep = stale_json <$> rows ∧ Sorted heartbeat_le rows ∧
     rows ≡ₚ stale_rows (gw_clock g' (gw_reads g') - 5 * 60 * nanosPerSecond) t) ∧
  ∀ id row, uuid_Parse (hr_ClusterId r) = Some id → workload_clusters t !! id = Some row →
    wc_LastHeartbeat row = None → wc_Status row = "healthy" → stale_json row ∈ rp_StaleClusters rep.
Proof.
  intros r u o g' rep u' Hok He Hrep t. pose proof (Heartbeat_keeps_tables _ _ _ _ Hok He) as Ht.
  apply serveReport_Ok in Hrep as (_ & Hs & rows & Hst & Hsort & Hperm). cbn [ui_gw] in *.
  rewrite Ht in Hs, Hperm. fold t in Hs, Hperm. split_and!; [done|by exists rows|].
  intros id row _ Hrow Hh Hstat. rewrite Hst. apply list_elem_of_fmap. exists row. split; [done|].
  rewrite Hperm. apply list_elem_of_filter. split.
  - split; [rewrite Hstat; set_solver|]. unfold silent. by rewrite Hh.
  - apply list_elem_of_fmap. exists (id, row). split; [done|]. by apply elem_of_map_to_list.
Qed.
End report.

(** ** Witness *)

Definition demo_ui : UI MemDedup := {| ui_gw := demo_gateway; ui_rate := new_meter; ui_start := 0 |}.
Abbreviation demo_beat := (Heartbeat (demo_request known 1) demo_gateway) (only parsing).
Abbreviation demo_report := (serveReport {| demo_ui with ui_gw := demo_beat.2 |}) (only parsing).

Lemma demo_report_succeeds : succeeds demo_report = true.
Proof. by vm_compute. Qed.

Lemma report_misses_heartbeats_witness :
  succeeds demo_beat = true ∧
  ∃ row, wc_LastHeartbeat row = None ∧
    stale_json row ∈ rp_StaleClusters (value_of {| rp_QuotaSnapshots := []; rp_StaleClusters := [] |} demo_report).
Proof.
  split; [by vm_compute|].
  assert (∃ row, workload_clusters (tables_gw demo_gateway) !! demo_id 901 = Some row ∧
    wc_LastHeartbeat row = None ∧ wc_Status row = "healthy") as (row & Hrow & Hh & Hs).
  { assert (match workload_clusters (tables_gw demo_gateway) !! demo_id 901 with
            | Some row => bool_decide (wc_LastHeartbeat row = None ∧ wc_Status row = "healthy")
            | None => false end = true) as Hb by by vm_compute.
    destruct (workload_clusters (tables_gw demo_gateway) !! demo_id 901) as [row|]; [|done].
    exists row. split; [done|]. by apply bool_decide_eq_true in Hb. }
  exists row. split; [exact Hh|].
  refine (proj2 (proj2 (report_misses_heartbeats (demo_request known 1) demo_ui demo_beat.1 demo_beat.2 _
    demo_report.2 demo_cache_ok (surjective_pairing _) (value_ok _ _ demo_report_succeeds)))
    (demo_id 901) row _ Hrow Hh Hs).
  by vm_compute.
Defined.
