(* ===== verification/Format.v ===== *)
(** * Text that Go's fmt, strings and time packages make

    The verbs of [fmt.Sprintf] that the screen uses, [strings.Join], [strings.Repeat]
    and the clock format. *)

From stdpp Require Import pretty.
From S2P Require Import Prelude Floats CivilTime.

(** [%.kf]: the exact binary value rounded to [k] decimals, half to even. *)
Definition rounded_to (k : nat) (x : float) : Z :=
  round_half_even (Z.abs (fl_m x) * 10 ^ Z.of_nat k * 2 ^ Z.max 0 (fl_e x)) (2 ^ Z.max 0 (- fl_e x)).
Definition fixed_text (k : nat) (q : Z) : string :=
  pretty (q / 10 ^ Z.of_nat k) +:+ "." +:+ digits k (q mod 10 ^ Z.of_nat k).
Definition fixed (k : nat) (x : float) : string :=
  (if decide (fl_m x < 0) then "-" else "") +:+ fixed_text k (rounded_to k x).

(** [n] spaces. *)
Fixpoint spaces (n : nat) : string :=
  match n with O => "" | S n => " " +:+ spaces n end.

(** The width of a verb: spaces on the left. *)
Definition pad_left (w : nat) (s : string) : string := spaces (w - String.length s) +:+ s.

(** [%02d]; the sign counts for the width. *)
Definition two_digits (n : Z) : string := (if decide (0 ≤ n < 10) then "0" else "") +:+ pretty n.

(** [strings.Repeat(" ", count)] *)
Definition Repeat (count : Z) : outcome string :=
  if decide (count < 0) then Panic "strings: negative Repeat count" else Ok (spaces (Z.to_nat count)).

(** [strings.Join] *)
Definition Join (elems : list string) (sep : string) : string := String.concat sep elems.

(** [int(d.Seconds())] of a duration: the [float64] sum of its whole seconds and the
    rest, truncated; negative durations are symmetric. *)
Definition seconds_of (d : Z) : Z :=
  let f d := float_trunc (float_add (float_of_Z (d / nanosPerSecond)) (float_div (d mod nanosPerSecond) nanosPerSecond)) in
  if decide (d < 0) then - f (- d) else f d.

(** The time zone of the machine: seconds to add to UTC at an instant. *)
Class LocalZone := { zone_offset : Z → Z }.

(** [t.Format("15:04:05")] *)
Definition clock `{LocalZone} (t : Z) : string :=
  let s := (t / nanosPerSecond + zone_offset t) mod 86400 in
  digits 2 (s / 3600) +:+ ":" +:+ digits 2 (s / 60 mod 60) +:+ ":" +:+ digits 2 (s mod 60).

Example format_verbs :
  fixed 1 (float_div 1 4) = "0.2" ∧ fixed 1 (float_div 3 4) = "0.8" ∧ fixed 2 (float_div 1234567 1000) = "1234.57" ∧
  fixed 1 (Float (-1) (-5)) = "-0.0" ∧ pad_left 5 (fixed 1 (Float 100 0)) = "100.0" ∧ pad_left 5 (fixed 1 (Float 5 0)) = "  5.0" ∧
  two_digits 7 = "07" ∧ two_digits 61 = "61" ∧ two_digits (-5) = "-5" ∧ Join ["a"; "b"; "c"] ", " = "a, b, c" ∧
  seconds_of 61999999999 = 61 ∧ seconds_of (-1500000000) = -1.
Proof. vm_compute. done. Qed.

(** ** Rounding *)

(** The quotient of two integers, printed with one decimal, is the closest tenth. *)
Lemma tenth_of_quotient n d :
  0 < n ≤ 2 ^ 50 → 0 < d → (20 | d) →
  2 * Z.abs (rounded_to 1 (float_div n d) * d - 10 * n) ≤ d.
Proof.
  intros Hn Hd [c Hc]. destruct (float_div_spec n d ltac:(lia) Hd) as (num & den & Hden & Hnum & Hm & Heq).
  cbv zeta in *. unfold rounded_to. set (e := fl_e (float_div n d)) in *. set (m := fl_m (float_div n d)) in *.
  destruct (Z.le_gt_cases 0 e) as [He|He].
  { exfalso. rewrite (Z.max_r 0 e), (Z.max_l 0 (- e)) in Heq by lia. change (2 ^ 0) with 1 in Heq.
    assert (1 ≤ 2 ^ e) by (apply (Z.pow_le_mono_r 2 0); lia).
    assert (num * 1 ≤ num * (d * 2 ^ e)) as Hge by (apply Z.mul_le_mono_nonneg_l; nia).
    assert (den * 2 ^ 52 ≤ den * n) as Hle by lia. apply Z.mul_le_mono_pos_l in Hle; lia. }
  rewrite (Z.max_l 0 e), (Z.max_r 0 (- e)) in * by lia. change (2 ^ 0) with 1 in *. rewrite !Z.mul_1_r in *.
  assert (0 < 2 ^ (- e)) as HP by (apply Z.pow_pos_nonneg; lia). set (P := 2 ^ (- e)) in *.
  assert (4 * d ≤ P) as HPd.
  { assert (den * (2 ^ 52 * d) ≤ den * (n * P)) as Hle by nia. apply Z.mul_le_mono_pos_l in Hle; [|done]. nia. }
  destruct (round_half_even_spec num den Hden) as [Hr1 _]. cbv zeta in Hr1. rewrite <- Hm in Hr1.
  assert (0 ≤ m) as Hm0 by nia. rewrite (Z.abs_eq m) by done. change (10 ^ Z.of_nat 1) with 10.
  destruct (round_half_even_spec (m * 10) P HP) as [Hr2 _]. cbv zeta in Hr2. set (q := round_half_even (m * 10) P) in *.
  assert (- d ≤ 2 * m * d - 2 * n * P ≤ d) as Hr3.
  { assert (den * (2 * m * d - 2 * n * P) ≤ den * d) as A1 by nia.
    assert (den * (- d) ≤ den * (2 * m * d - 2 * n * P)) as A2 by nia.
    apply Z.mul_le_mono_pos_l in A1, A2; lia. }
  set (X := q * d - 10 * n). assert (∃ x, X = 10 * x) as [x Hx] by (exists (2 * c * q - n); unfold X; nia).
  assert (2 * P * X ≤ P * d + 10 * d ∧ - (P * d + 10 * d) ≤ 2 * P * X) as [B1 B2].
  { destruct Hr2 as [R1 R2]. apply (Z.mul_le_mono_nonneg_r _ _ d ltac:(lia)) in R1, R2. unfold X. lia. }
  rewrite Hx, Hc in *. clearbody X q m P. clear Hnum Heq Hr1 Hr2 Hr3 Hm. nia.
Qed.
