(* ===== verification/Scenario.v ===== *)
(** * The demo scenario (cmd/simulator/scenario.go) and the messages of its screen

    The steps, the data that the screen shows, and the messages that the driver and
    the terminal send to it (ui.go). *)

From S2P Require Import Prelude.
From S2P Require Import Floats.

(** ** scenario.go *)

Definition StepProvision : Z := 0.
Definition StepStartClusters : Z := 1.
Definition StepRecordUsage : Z := 2.
Definition StepExhaust : Z := 3.
Definition StepSurgePack : Z := 4.
Definition StepIdempotency : Z := 5.
Definition StepSummary : Z := 6.

Record ScenarioStep := {
  sc_Name : string;
  sc_AutoAdvance : bool;
  sc_Duration : Z;  (* nanoseconds *)
}.

Definition Scenario : list ScenarioStep :=
  [ {| sc_Name := "Provision tenant wallets"; sc_AutoAdvance := true; sc_Duration := 3 * 1000000000 |};
    {| sc_Name := "Start clusters streaming"; sc_AutoAdvance := true; sc_Duration := 3 * 1000000000 |};
    {| sc_Name := "Record usage"; sc_AutoAdvance := false; sc_Duration := 0 |};
    {| sc_Name := "Drive to exhaustion"; sc_AutoAdvance := false; sc_Duration := 0 |};
    {| sc_Name := "Surge pack top-up"; sc_AutoAdvance := false; sc_Duration := 0 |};
    {| sc_Name := "Idempotency proof"; sc_AutoAdvance := false; sc_Duration := 0 |};
    {| sc_Name := "Final summary"; sc_AutoAdvance := false; sc_Duration := 0 |} ].

Inductive EventKind :=
  | EventHeartbeatACK | EventUsageDebit | EventHardLimit | EventSoftLimit | EventSurgePack
  | EventDuplicate | EventInfo.

Record Event := {
  ev_Timestamp : Z;
  ev_Kind : EventKind;
  ev_Message : string;
  ev_TenantIdx : Z;
}.

(** The zero [LastSeen] is [None]. *)
Record ClusterState := {
  cs_Name : string;
  cs_Region : string;
  cs_Speed : string;
  cs_Connected : bool;
  cs_Seq : Z;
  cs_AckSeq : Z;
  cs_RateDesc : string;
  cs_LastSeen : option Z;
}.

Record QuotaState := {
  qu_Resource : string;
  qu_Used : Z;
  qu_Limit : Z;
  qu_Available : Z;
  qu_Pct : float;
  qu_Status : string;
}.

(** The counters that the simulator maintains. *)
Record TBStats := {
  tb_TransfersTotal : Z;
  tb_Rejected : Z;
  tb_Idempotent : Z;
}.
Definition no_stats : TBStats := {| tb_TransfersTotal := 0; tb_Rejected := 0; tb_Idempotent := 0 |}.

Record ServerStats := {
  ss_Goroutines : Z;
  ss_HeapAllocMB : float;
  ss_HeapSysMB : float;
  ss_GCRuns : Z;
  ss_GCPauseUS : Z;
  ss_UptimeS : Z;
  ss_ActiveStreams : Z;
  ss_MsgPerSec : float;
  ss_MsgTotal : Z;
  ss_SignalP50Us : Z;
  ss_SignalP99Us : Z;
  ss_Ok : bool;
}.
Definition no_server_stats : ServerStats :=
  {| ss_Goroutines := 0; ss_HeapAllocMB := Float 0 0; ss_HeapSysMB := Float 0 0; ss_GCRuns := 0;
     ss_GCPauseUS := 0; ss_UptimeS := 0; ss_ActiveStreams := 0; ss_MsgPerSec := Float 0 0;
     ss_MsgTotal := 0; ss_SignalP50Us := 0; ss_SignalP99Us := 0; ss_Ok := false |}.

(** ** The messages of ui.go *)

(** [OtherMsg] is a message of the libraries, for example a frame of the animation of
    a progress bar. *)
Inductive tea_Msg :=
  | KeyMsg (key : string)
  | WindowSizeMsg (width height : Z)
  | tickMsg
  | stepAdvanceMsg (step : Z)
  | eventMsg (e : Event)
  | quotaUpdateMsg (tenantIdx : Z) (quotas : list QuotaState)
  | clusterUpdateMsg (tenantIdx : Z) (clusters : list ClusterState)
  | tbStatsUpdateMsg (tenantIdx : Z) (stats : TBStats)
  | serverStatsMsg (stats : ServerStats)
  | clusterHeartbeatMsg (tenantIdx : Z) (label : string) (seq ackSeq lastSeen : Z)
  | OtherMsg (payload : list Z).
