(* ===== verification/Screen.v ===== *)
(** * The screen model of the demo (cmd/simulator/ui.go)

    The styles, the state of the screen and [Update], which handles one message of
    the TUI loop.  The progress bar, the viewport and the layout functions are
    libraries: the class [Widgets] has their operations, [WidgetLaws] what the screen
    relies on. *)

From S2P Require Import Prelude Floats Format Scenario.

(** ** Styles *)

(** A style is what its builder has set. *)
Record Style := {
  st_Bold : bool;
  st_Italic : bool;
  st_Foreground : option string;
  st_Background : option string;
  st_Padding : Z * Z;
  st_RoundedBorder : bool;
  st_BorderForeground : option string;
  st_Width : option Z;
}.
Definition NewStyle : Style :=
  {| st_Bold := false; st_Italic := false; st_Foreground := None; st_Background := None; st_Padding := (0, 0);
     st_RoundedBorder := false; st_BorderForeground := None; st_Width := None |}.

Definition Foreground (c : string) (s : Style) : Style := {| s with st_Foreground := Some c |}.
Definition Bold (s : Style) : Style := {| s with st_Bold := true |}.

Definition styleBorder : Style := {| NewStyle with st_RoundedBorder := true; st_BorderForeground := Some "240" |}.
Definition styleTitle : Style := Foreground "214" (Bold NewStyle).
Definition styleDim : Style := Foreground "241" NewStyle.
Definition styleGreen : Style := Foreground "82" NewStyle.
Definition styleYellow : Style := Foreground "214" NewStyle.
Definition styleRed : Style := Foreground "196" NewStyle.
Definition styleBlue : Style := Foreground "69" NewStyle.
Definition styleBold : Style := Bold NewStyle.
Definition styleHeader : Style :=
  {| NewStyle with st_Background := Some "235"; st_Foreground := Some "252"; st_Padding := (0, 1) |}.
Definition styleKeyHint : Style := {| (Foreground "241" NewStyle) with st_Italic := true |}.
Definition styleTabActive : Style := Foreground "214" (Bold NewStyle).
Definition styleTabInactive : Style := Foreground "241" NewStyle.

(** ** The widgets *)

Class Widgets := {
  (* lipgloss: [style.Render], [Width], [JoinVertical(Left, ...)], [JoinHorizontal(Top, ...)] *)
  Render : Style → string → string;
  Width : string → Z;
  JoinVertical : list string → string;
  JoinHorizontal : list string → string;
  (* the command that a widget returns, nil included *)
  widget_Cmd : Type;
  (* bubbles/progress: [New] with the default gradient, no percentage and a width *)
  progress : Type;
  progress_zero : progress;
  progress_New : Z → progress;
  progress_setWidth : Z → progress → progress;
  SetPercent : float → progress → progress * widget_Cmd;
  progress_Update : tea_Msg → progress → option progress * widget_Cmd;
  progress_View : progress → string;
  (* bubbles/viewport *)
  viewport : Type;
  viewport_New : Z → Z → viewport;
  viewport_setSize : Z → Z → viewport → viewport;
  SetContent : string → viewport → viewport;
  GotoBottom : viewport → viewport;
  viewport_Update : tea_Msg → viewport → viewport * widget_Cmd;
  viewport_View : viewport → string;
}.

(** [strings.ReplaceAll(s, "\r\n", "\n")], which the viewport does to its content. *)
Fixpoint unix_lines (s : string) : string :=
  match s with
  | String a ((String b _) as rest) =>
      if decide (a = Ascii.ascii_of_nat 13 ∧ b = Ascii.ascii_of_nat 10) then unix_lines rest
      else String a (unix_lines rest)
  | _ => s
  end.

(** [math.Max(0, math.Min(1, p))] *)
Definition clamp (p : float) : float :=
  if decide (fl_m p < 0) then Float 0 0 else if float_ge p (Float 1 0) then Float 1 0 else p.

(** The text of a viewport changes only by [SetContent], the target of a bar only by
    [SetPercent]: [Update] scrolls the one and animates the other. *)
Class WidgetLaws (W : Widgets) := {
  content : viewport → string;
  content_New : ∀ w h, content (viewport_New w h) = "";
  content_setSize : ∀ w h v, content (viewport_setSize w h v) = content v;
  content_SetContent : ∀ s v, content (SetContent s v) = unix_lines s;
  content_GotoBottom : ∀ v, content (GotoBottom v) = content v;
  content_Update : ∀ msg v, content (viewport_Update msg v).1 = content v;
  Percent : progress → float;
  Percent_New : ∀ w, Percent (progress_New w) = Float 0 0;
  Percent_setWidth : ∀ w b, Percent (progress_setWidth w b) = Percent b;
  Percent_SetPercent : ∀ p b, Percent (SetPercent p b).1 = clamp p;
  Percent_Update : ∀ msg b b', (progress_Update msg b).1 = Some b' → Percent b' = Percent b;
}.

Section screen.
Context `{W : Widgets} `{LZ : LocalZone}.

(** ** The event log *)

Definition event_line (e : Event) : string :=
  let ts := clock (ev_Timestamp e) in
  match ev_Kind e with
  | EventHardLimit => Render styleRed ("  " +:+ ts +:+ " x " +:+ ev_Message e)
  | EventSoftLimit => Render styleYellow ("  " +:+ ts +:+ " ! " +:+ ev_Message e)
  | EventSurgePack => Render styleGreen ("  " +:+ ts +:+ " + " +:+ ev_Message e)
  | EventDuplicate => Render styleBlue ("  " +:+ ts +:+ " ~ " +:+ ev_Message e)
  | EventHeartbeatACK => Render styleGreen ("  " +:+ ts +:+ " > " +:+ ev_Message e)
  | EventUsageDebit | EventInfo => Render styleDim ("  " +:+ ts +:+ "   " +:+ ev_Message e)
  end.

(** The loop over the events, from the newest back: [i] runs from [len(events)-1] while
    it is at least [len(events)-20], each line goes in front. *)
Fixpoint log_loop (events : list Event) (rounds i : nat) (lines : list string) : list string :=
  match rounds, i with
  | S rounds, S i => match events !! i with
                     | Some e => log_loop events rounds i (event_line e :: lines)
                     | None => lines
                     end
  | _, _ => lines
  end.

Definition renderEventLog (events : list Event) : string :=
  if decide (length events = 0)%nat then Render styleDim "  (waiting for events...)"
  else Join (log_loop events 20 (length events) []) (String (Ascii.ascii_of_nat 10) "").

(** ** The model *)

Record tenantUIState := {
  tu_name : string;
  tu_tier : string;
  tu_quotas : list QuotaState;
  tu_clusters : list ClusterState;
  tu_tbStats : TBStats;
  tu_events : list Event;
  tu_progressBars : gmap string progress;
  tu_eventLog : viewport;
}.

Record Model := {
  m_width : Z;
  m_height : Z;
  m_currentStep : Z;
  m_stepStart : Z;
  m_paused : bool;
  m_elapsed : Z;
  m_tenants : list tenantUIState;
  m_selectedTenant : Z;
  m_serverStats : ServerStats;
  m_debugURL : string;
}.

(** The commands that [Init] and [Update] return. *)
Inductive tea_Cmd :=
  | Quit | StartCmd | StepCmd (step : Z) | tickCmd | serverStatsPollCmd (debugURL : string)
  | WidgetCmd (cmd : widget_Cmd).

Definition newTenantUIState (name tier : string) (quotas : list QuotaState) : tenantUIState :=
  {| tu_name := name; tu_tier := tier; tu_quotas := quotas; tu_clusters := []; tu_tbStats := no_stats;
     tu_events := []; tu_progressBars := foldl (λ bars q, <[qu_Resource q := progress_New 36]> bars) ∅ quotas;
     tu_eventLog := viewport_New 50 8 |}.

Definition limit_of (resource : string) (limit : Z) : QuotaState :=
  {| qu_Resource := resource; qu_Used := 0; qu_Limit := limit; qu_Available := 0; qu_Pct := Float 0 0;
     qu_Status := "" |}.

Definition initialModel (debugURL : string) (now : Z) : Model :=
  {| m_width := 0; m_height := 0; m_currentStep := 0; m_stepStart := now; m_paused := false; m_elapsed := 0;
     m_tenants :=
       [ newTenantUIState "Acme Corp" "pro"
           [limit_of "cpu_hours" 1500000; limit_of "memory_gb_hours" 1000000; limit_of "active_nodes" 20];
         newTenantUIState "Globex Inc" "starter"
           [limit_of "cpu_hours" 500000; limit_of "memory_gb_hours" 500000; limit_of "active_nodes" 10] ];
     m_selectedTenant := 0; m_serverStats := no_server_stats; m_debugURL := debugURL |}.

Definition Init (m : Model) : list tea_Cmd := [tickCmd; StartCmd; serverStatsPollCmd (m_debugURL m)].

(** ** Update *)

(** [if idx >= 0 && idx < len(m.tenants) { f(&m.tenants[idx]) }] *)
Definition on_tenant (idx : Z) (f : tenantUIState → tenantUIState) (m : Model) : Model :=
  if decide (0 ≤ idx < Z.of_nat (length (m_tenants m)))
  then {| m with m_tenants := alter f (Z.to_nat idx) (m_tenants m) |}
  else m.

Definition log_event (e : Event) (t : tenantUIState) : tenantUIState :=
  let events := tu_events t ++ [e] in
  let events := if decide (50 < length events)%nat then drop (length events - 50) events else events in
  {| t with tu_events := events; tu_eventLog := GotoBottom (SetContent (renderEventLog events) (tu_eventLog t)) |}.

(** [q.Pct / 100.0] *)
Definition bar_percent (q : QuotaState) : float :=
  let x := qu_Pct q in
  if decide (fl_m x < 0)
  then let y := float_quot (Float (- fl_m x) (fl_e x)) (Float 100 0) in Float (- fl_m y) (fl_e y)
  else float_quot x (Float 100 0).

(** The loop over the quotas of a message. *)
Definition set_bar (st : gmap string progress * list tea_Cmd) (q : QuotaState)
    : gmap string progress * list tea_Cmd :=
  match st.1 !! qu_Resource q with
  | Some bar => let '(bar, cmd) := SetPercent (bar_percent q) bar in
                (<[qu_Resource q := bar]> st.1, st.2 ++ [WidgetCmd cmd])
  | None => st
  end.
Definition set_bars (quotas : list QuotaState) (bars : gmap string progress) := foldl set_bar (bars, []) quotas.

Definition on_quotas (idx : Z) (quotas : list QuotaState) (m : Model) : Model * list tea_Cmd :=
  (on_tenant idx (λ t, {| t with tu_quotas := quotas; tu_progressBars := (set_bars quotas (tu_progressBars t)).1 |}) m,
   if decide (0 ≤ idx)
   then from_option (λ t, (set_bars quotas (tu_progressBars t)).2) [] (m_tenants m !! Z.to_nat idx)
   else []).

Definition see_heartbeat (label : string) (seq ackSeq lastSeen : Z) (c : ClusterState) : ClusterState :=
  if decide (cs_Name c = "Cluster " +:+ label)
  then {| c with cs_Seq := seq; cs_AckSeq := ackSeq; cs_LastSeen := Some lastSeen |} else c.

Definition at_step (step now : Z) (m : Model) : Model := {| m with m_currentStep := step; m_stepStart := now |}.

Definition resize (w h : Z) (m : Model) : Model :=
  let barW := Z.quot w 2 - 10 in
  let barW := if decide (barW < 10) then 10 else barW in
  {| m with m_width := w; m_height := h;
            m_tenants := (λ t, {| t with tu_eventLog := viewport_setSize (Z.quot w 2 - 4) 10 (tu_eventLog t);
                                         tu_progressBars := progress_setWidth barW <$> tu_progressBars t |})
                         <$> m_tenants m |}.

(** The keys other than those that quit.  The last component is what is stored in
    [driver.paused], if anything. *)
Definition on_key (key : string) (now : Z) (m : Model) : Model * list tea_Cmd * option bool :=
  if decide (key = " ") then
    let p := negb (m_paused m) in ({| m with m_paused := p |}, [], Some p)
  else if decide (key = "tab") then
    ({| m with m_selectedTenant := Z.rem (m_selectedTenant m + 1) (Z.of_nat (length (m_tenants m)) + 1) |}, [], None)
  else if decide (key ∈ ["n"; "N"]) then
    let next := if decide (Z.of_nat (length Scenario) - 1 ≤ m_currentStep m)
                then StepExhaust else m_currentStep m + 1 in
    (at_step next now m, [StepCmd next], None)
  else if decide (key ∈ ["r"; "R"]) then (at_step 0 now m, [StepCmd 0], None)
  else (m, [], None).

(** A tick of the clock: the steps that advance by themselves. *)
Definition on_tick (now : Z) (m : Model) : outcome (Model * list tea_Cmd) :=
  if m_paused m then Ok (m, [tickCmd]) else
  let elapsed := now - m_stepStart m in
  let m := {| m with m_elapsed := elapsed |} in
  match (if decide (0 ≤ m_currentStep m) then Scenario !! Z.to_nat (m_currentStep m) else None) with
  | None => Panic "index out of range"
  | Some step =>
      if decide (sc_AutoAdvance step = true ∧ 0 < sc_Duration step ∧ sc_Duration step ≤ elapsed ∧
                 m_currentStep m < Z.of_nat (length Scenario) - 1)
      then let next := m_currentStep m + 1 in Ok (at_step next now m, [StepCmd next; tickCmd])
      else Ok (m, [tickCmd])
  end.

(** The switch of [Update]. *)
Definition on_msg (msg : tea_Msg) (now : Z) (m : Model) : outcome (Model * list tea_Cmd * option bool) :=
  match msg with
  | KeyMsg key => Ok (on_key key now m)
  | WindowSizeMsg w h => Ok (resize w h m, [], None)
  | tickMsg => '(m, cmds) ← on_tick now m; Ok (m, cmds, None)
  | stepAdvanceMsg step => Ok (at_step step now m, [], None)
  | eventMsg e => Ok (on_tenant (ev_TenantIdx e) (log_event e) m, [], None)
  | quotaUpdateMsg idx quotas => Ok (on_quotas idx quotas m, None)
  | clusterUpdateMsg idx clusters => Ok (on_tenant idx (λ t, {| t with tu_clusters := clusters |}) m, [], None)
  | clusterHeartbeatMsg idx label seq ackSeq lastSeen =>
      Ok (on_tenant idx (λ t, {| t with tu_clusters := see_heartbeat label seq ackSeq lastSeen <$> tu_clusters t |}) m,
          [], None)
  | tbStatsUpdateMsg idx stats => Ok (on_tenant idx (λ t, {| t with tu_tbStats := stats |}) m, [], None)
  | serverStatsMsg stats => Ok ({| m with m_serverStats := stats |}, [serverStatsPollCmd (m_debugURL m)], None)
  | OtherMsg _ => Ok (m, [], None)
  end.

(** The loop after the switch: every widget of every tenant gets the message.
    [tea.Batch] runs the commands concurrently, so that their order says nothing. *)
Definition update_widgets (msg : tea_Msg) (t : tenantUIState) : tenantUIState :=
  {| t with tu_progressBars := (λ bar, default bar (progress_Update msg bar).1) <$> tu_progressBars t;
            tu_eventLog := (viewport_Update msg (tu_eventLog t)).1 |}.
Definition widget_cmds (msg : tea_Msg) (t : tenantUIState) : list tea_Cmd :=
  ((λ kb, WidgetCmd (progress_Update msg kb.2).2) <$> map_to_list (tu_progressBars t)) ++
  [WidgetCmd (viewport_Update msg (tu_eventLog t)).2].

Definition quits (msg : tea_Msg) : bool :=
  match msg with KeyMsg key => bool_decide (key ∈ ["q"; "Q"; "ctrl+c"]) | _ => false end.

Definition Update (msg : tea_Msg) (now : Z) (m : Model) : outcome (Model * list tea_Cmd * option bool) :=
  if quits msg then Ok (m, [Quit], None) else
  '(m, cmds, p) ← on_msg msg now m;
  Ok ({| m with m_tenants := update_widgets msg <$> m_tenants m |},
      cmds ++ (m_tenants m ≫= widget_cmds msg), p).
End screen.
