(* ===== verification/View.v ===== *)
(** * What the screen of the demo shows (cmd/simulator/ui.go)

    [View] and its parts, as text over the layout functions of [Widgets]. *)

From stdpp Require Import pretty.
From S2P Require Import Prelude Floats Format Scenario Screen.

Definition newline : string := String (Ascii.ascii_of_nat 10) "".

(** ** Helpers *)

Definition connectedCount (clusters : list ClusterState) : nat :=
  foldl (λ n c, if cs_Connected c then S n else n) 0%nat clusters.

Definition resourceLabel (r : string) : string :=
  if decide (r = "cpu_hours") then "CPU Hours"
  else if decide (r = "memory_gb_hours") then "Memory GB-Hours"
  else if decide (r = "active_nodes") then "Active Nodes"
  else r.

Definition fmtNum (n : Z) : string :=
  if decide (1000000 ≤ n) then fixed 1 (float_div (float64 n) 1000000) +:+ "M"
  else if decide (1000 ≤ n) then fixed 1 (float_div (float64 n) 1000) +:+ "K"
  else pretty n.

(** [m.tenants[m.selectedTenant]] *)
Definition index {A} (l : list A) (i : Z) : outcome A :=
  match (if decide (0 ≤ i) then l !! Z.to_nat i else None) with
  | Some x => Ok x
  | None => Panic "index out of range"
  end.

Section view.
Context `{W : Widgets} `{LZ : LocalZone}.

Definition connectedStr (connected : bool) : string :=
  if connected then Render styleGreen "connected" else Render styleRed "disconnected".

(** ** The left column *)

Definition alarm : Style := Bold (Foreground "196" NewStyle).

(** Label, percentage and badge by status. *)
Definition quota_style (status label pctStr : string) : string * string * string :=
  if decide (status = "exceeded") then
    (Render alarm label, Render alarm pctStr, "  " +:+ Render styleRed "x HARD LIMIT")
  else if decide (status = "warning") then
    (Render styleYellow label, Render styleYellow pctStr, "  " +:+ Render styleYellow "! warning")
  else (Render styleBold label, Render styleGreen pctStr, "").

(** The four lines of a quota. *)
Definition quota_lines (bars : gmap string progress) (inner : Z) (q : QuotaState) : outcome (list string) :=
  let bar := default progress_zero (bars !! qu_Resource q) in
  let pctStr := pad_left 5 (fixed 1 (qu_Pct q)) +:+ "%" in
  let '(labelStyled, pctStyled, badge) := quota_style (qu_Status q) (resourceLabel (qu_Resource q)) pctStr in
  let gap := inner - Width labelStyled - Width pctStr in
  let gap := if decide (gap < 1) then 1 else gap in
  fill ← Repeat gap;
  Ok [labelStyled +:+ fill +:+ pctStyled;
      progress_View bar +:+ badge;
      Render styleDim ("  used: " +:+ fmtNum (qu_Used q) +:+ " / limit: " +:+ fmtNum (qu_Limit q));
      ""].

Fixpoint quota_blocks (bars : gmap string progress) (inner : Z) (quotas : list QuotaState) (lines : list string)
    : outcome (list string) :=
  match quotas with
  | [] => Ok lines
  | q :: quotas => ls ← quota_lines bars inner q; quota_blocks bars inner quotas (lines ++ ls)
  end.

Definition renderLeftColumn (m : Model) (width : Z) : outcome string :=
  t ← index (m_tenants m) (m_selectedTenant m);
  let inner := width - 4 in
  let title := "TENANT: " +:+ tu_name t +:+ " (" +:+ tu_tier t +:+ ")" in
  lines ← quota_blocks (tu_progressBars t) inner (tu_quotas t)
    [Render styleTitle title;
     Render styleDim ("Clusters: " +:+ pretty (Z.of_nat (connectedCount (tu_clusters t))) +:+ " active");
     ""];
  Ok (Render {| styleBorder with st_Width := Some width |} (Join lines newline)).

(** ** The right column *)

Definition timeline_line (currentStep : Z) (i : nat) (s : ScenarioStep) : string :=
  let prefix := if decide (Z.of_nat i < currentStep) then Render styleGreen "v"
                else if decide (Z.of_nat i = currentStep) then Render styleBlue ">"
                else Render styleDim " " in
  "  " +:+ prefix +:+ " " +:+ pretty (Z.of_nat i + 1) +:+ ". " +:+ sc_Name s.

(** A count, in its colour when it is not zero. *)
Definition count_text (style : Style) (n : Z) : string :=
  if decide (0 < n) then Render style (pretty n) else Render styleDim (pretty n).

Definition renderTBStats (s : TBStats) : string :=
  Render styleTitle "TB STATS" +:+ newline +:+
  ("  Transfers submitted: " +:+ Render styleGreen (pretty (tb_TransfersTotal s)) +:+ newline) +:+
  ("  Rejected (exceeds_credits): " +:+ count_text styleRed (tb_Rejected s) +:+ newline) +:+
  ("  Idempotent (exists): " +:+ count_text styleBlue (tb_Idempotent s)).

Definition renderRightColumn (m : Model) (width : Z) : outcome string :=
  t ← index (m_tenants m) (m_selectedTenant m);
  let timeline := Join ([Render styleTitle "SCENARIO TIMELINE"; ""] ++ imap (timeline_line (m_currentStep m)) Scenario)
                       newline in
  let eventSection := Render styleTitle "EVENT LOG" +:+ newline +:+ viewport_View (tu_eventLog t) in
  let content := JoinVertical [timeline; ""; eventSection; ""; renderTBStats (tu_tbStats t)] in
  Ok (Render {| styleBorder with st_Width := Some width |} content).

(** ** The clusters *)

Definition cluster_panel (c : ClusterState) : string :=
  let dot := if cs_Connected c then Render styleGreen "●" else Render styleRed "○" in
  let lastStr := from_option clock "" (cs_LastSeen c) in
  Render styleBorder
    (" " +:+ dot +:+ " " +:+ cs_Name c +:+ "  " +:+ Render styleDim (cs_Region c) +:+ " " +:+
       Render styleDim ("(" +:+ cs_Speed c +:+ ")") +:+ newline +:+
     " stream: " +:+ connectedStr (cs_Connected c) +:+ newline +:+
     " seq: " +:+ pretty (cs_Seq c) +:+ "  ack: " +:+ pretty (cs_AckSeq c) +:+ newline +:+
     " rate: " +:+ cs_RateDesc c +:+ newline +:+
     " last: " +:+ lastStr).

Definition renderClusterRow (m : Model) : outcome string :=
  t ← index (m_tenants m) (m_selectedTenant m);
  Ok (JoinHorizontal (cluster_panel <$> tu_clusters t)).

(** ** The statistics tab *)

(** The totals over the tenants, as Go's [int]. *)
Definition total_stats (m : Model) : TBStats :=
  foldl (λ s t, {| tb_TransfersTotal := i64 (tb_TransfersTotal s + tb_TransfersTotal (tu_tbStats t));
                   tb_Rejected := i64 (tb_Rejected s + tb_Rejected (tu_tbStats t));
                   tb_Idempotent := i64 (tb_Idempotent s + tb_Idempotent (tu_tbStats t)) |}) no_stats (m_tenants m).

Definition uptime_text (s : Z) : string :=
  if decide (60 ≤ s) then pretty (Z.quot s 60) +:+ "m " +:+ pretty (Z.rem s 60) +:+ "s" else pretty s +:+ "s".

Definition p99_text (us : Z) : string :=
  let text := pretty us +:+ " µs" in
  if decide (50000 < us) then Render styleRed text
  else if decide (10000 < us) then Render styleYellow text
  else Render styleDim text.

Definition renderServerStats (m : Model) (width : Z) : string :=
  let s := m_serverStats m in
  let statusLine := if ss_Ok s then Render styleGreen "● live"
                    else Render styleRed ("○ unreachable (" +:+ m_debugURL m +:+ ")") in
  let gcPauseStr := fixed 2 (float_div (float64 (ss_GCPauseUS s)) 1000) +:+ " ms" in
  let total := total_stats m in
  let msgPerSecStr := if decide (0 < fl_m (ss_MsgPerSec s))
                      then Render styleGreen (fixed 1 (ss_MsgPerSec s) +:+ " msg/s")
                      else Render styleDim "—" in
  let content := Join
    [ Render styleTitle "SERVER STATS" +:+ "  " +:+ statusLine;
      "";
      Render styleBold "Throughput";
      "  Inbound:       " +:+ msgPerSecStr +:+ "  (total: " +:+ pretty (ss_MsgTotal s) +:+ ")";
      "  Active Streams:" +:+ Render styleGreen (pretty (ss_ActiveStreams s));
      "  signal p50:    " +:+ Render styleDim (pretty (ss_SignalP50Us s) +:+ " µs");
      "  signal p99:    " +:+ p99_text (ss_SignalP99Us s);
      "";
      Render styleBold "Go Runtime";
      "  Goroutines:    " +:+ Render styleGreen (pretty (ss_Goroutines s));
      "  Heap Alloc:    " +:+ Render styleGreen (fixed 1 (ss_HeapAllocMB s) +:+ " MB");
      "  GC Runs:       " +:+ Render styleDim (pretty (ss_GCRuns s)) +:+ "  pause: " +:+ Render styleDim gcPauseStr;
      "  Uptime:        " +:+ Render styleDim (uptime_text (ss_UptimeS s));
      "";
      Render styleBold "TigerBeetle (all tenants)";
      "  Transfers submitted: " +:+ Render styleGreen (pretty (tb_TransfersTotal total));
      "  Rejected (exceeds_credits): " +:+ count_text styleRed (tb_Rejected total);
      "  Idempotent (exists): " +:+ count_text styleBlue (tb_Idempotent total);
      "";
      Render styleDim ("pprof: " +:+ m_debugURL m +:+ "/debug/pprof/") ] newline in
  Render {| styleBorder with st_Width := Some width |} content.

(** ** The whole screen *)

Definition tab (selected : bool) (name : string) : string :=
  if selected then Render styleTabActive ("[" +:+ name +:+ "]") else Render styleTabInactive name.

(** The labels of the tenants, then the one of the statistics. *)
Definition tabs (m : Model) : list string :=
  imap (λ i t, tab (bool_decide (Z.of_nat i = m_selectedTenant m)) (tu_name t)) (m_tenants m) ++
  [tab (bool_decide (m_selectedTenant m = Z.of_nat (length (m_tenants m)))) "Server Stats"].

Definition header (m : Model) : string :=
  let elapsed := seconds_of (m_elapsed m) in
  let timeStr := "[" +:+ two_digits (Z.quot elapsed 60) +:+ ":" +:+ two_digits (Z.rem elapsed 60) +:+ "]" in
  Render styleHeader
    (" BYOC Cloud Credit System — Live Demo   " +:+ timeStr +:+ "   " +:+ Join (tabs m) "  " +:+ "   " +:+
     Render styleKeyHint "[TAB] switch" +:+ " ").

Definition hints : string :=
  Render styleKeyHint "[SPACE] pause   [N] next step   [R] restart   [TAB] switch tenant   [Q] quit".

Definition View (m : Model) : outcome string :=
  if decide (m_width m = 0) then Ok "Loading..."
  else if decide (m_selectedTenant m = Z.of_nat (length (m_tenants m))) then
    Ok (JoinVertical [header m; renderServerStats m (m_width m - 4); hints])
  else
    let leftWidth := Z.quot (m_width m) 2 - 2 in
    leftCol ← renderLeftColumn m leftWidth;
    let rightWidth := m_width m - leftWidth - 4 in
    rightCol ← renderRightColumn m rightWidth;
    clusterRow ← renderClusterRow m;
    Ok (JoinVertical [header m; JoinHorizontal [leftCol; "  "; rightCol]; clusterRow; hints]).
End view.

(** ** Numbers *)

(** C40: an abbreviated number is the number, rounded to a tenth of its unit. Up to
    999 it is printed in full; above, the text is a count of tenths of a thousand or of
    a million that is off by at most half a tenth, although the code divides in
    floating point and rounds twice. *)
Theorem abbreviated_number_is_close : ∀ n,
  (n < 1000 → fmtNum n = pretty n) ∧
  (1000 ≤ n < 1000000 → ∃ q, fmtNum n = fixed_text 1 q +:+ "K" ∧ 2 * Z.abs (q * 1000 - 10 * n) ≤ 1000) ∧
  (1000000 ≤ n ≤ 2 ^ 50 → ∃ q, fmtNum n = fixed_text 1 q +:+ "M" ∧ 2 * Z.abs (q * 1000000 - 10 * n) ≤ 1000000).
Proof.
  assert (∀ n d, 0 < n ≤ 2 ^ 50 → 0 < d → fixed 1 (float_div (float64 n) d) = fixed_text 1 (rounded_to 1 (float_div n d)))
    as Hfix.
  { intros n d Hn Hd. rewrite float64_exact by lia. unfold fixed. rewrite decide_False; [done|].
    destruct (float_div_spec n d ltac:(lia) Hd) as (num & den & Hden & Hnum & Hm & _). rewrite Hm.
    pose proof (round_half_even_spec num den Hden). cbv zeta in *. nia. }
  intros n. unfold fmtNum. split_and!; intros Hn.
  - by rewrite !decide_False by lia.
  - rewrite decide_False, decide_True, Hfix by lia. eexists. split; [done|]. apply tenth_of_quotient; [lia..|by exists 50].
  - rewrite decide_True, Hfix by lia. eexists. split; [done|]. apply tenth_of_quotient; [lia..|by exists 50000].
Qed.

Lemma abbreviated_number_is_close_witness :
  fmtNum 999950 = "1000.0K" ∧ fmtNum 1499999 = "1.5M" ∧ fmtNum (-2000) = "-2000" ∧
  ∃ q, fmtNum 999950 = fixed_text 1 q +:+ "K" ∧ 2 * Z.abs (q * 1000 - 10 * 999950) ≤ 1000.
Proof. split_and!; [by vm_compute..|]. apply (abbreviated_number_is_close 999950). lia. Defined.
