(* ===== verification/Rpc.v ===== *)
(** * Clients and handlers of the three services (gen/.../creditsystemv1connect)

    The generated clients build one connect client per method for a URL, the generated
    handlers switch on the path.  The connect library is the class [ConnectRPC]: what it
    sends for a call.  The simulator (cmd/simulator/main.go) makes its clients here and
    polls the statistics of the server. *)

From Stdlib Require Import Ascii.
From S2P Require Import Prelude Server ServerProps Floats Scenario.

(** ** URLs *)

(** [strings.TrimRight(s, "/")] *)
Fixpoint drop_slashes (s : string) : string :=
  match s with
  | String a r => if decide (a = "/"%char) then drop_slashes r else s
  | EmptyString => EmptyString
  end.
Definition TrimRight (s : string) : string := string_rev (drop_slashes (string_rev s)).



(** ** HeartbeatService *)

Inductive heartbeat_method := HB_HeartbeatStream | HB_Heartbeat.

Definition heartbeat_procedure (m : heartbeat_method) : string :=
  match m with
  | HB_HeartbeatStream => "/creditsystem.v1.HeartbeatService/HeartbeatStream"
  | HB_Heartbeat => "/creditsystem.v1.HeartbeatService/Heartbeat"
  end.

(** The URL of the client of each method. *)
Record heartbeatServiceClient := {
  hc_heartbeatStream : string;
  hc_heartbeat : string;
}.

Definition NewHeartbeatServiceClient (baseURL : string) : heartbeatServiceClient :=
  let baseURL := TrimRight baseURL in
  {| hc_heartbeatStream := baseURL +:+ heartbeat_procedure HB_HeartbeatStream;
     hc_heartbeat := baseURL +:+ heartbeat_procedure HB_Heartbeat |}.



(** ** AdminService *)

Inductive admin_method :=
  | AD_IssueTenantCredit | AD_ListTenantQuotas | AD_ListTenants | AD_ListClusters
  | AD_ListCreditAdjustments | AD_DeleteTenant | AD_DeregisterCluster.

Definition admin_procedure (m : admin_method) : string :=
  match m with
  | AD_IssueTenantCredit => "/creditsystem.v1.AdminService/IssueTenantCredit"
  | AD_ListTenantQuotas => "/creditsystem.v1.AdminService/ListTenantQuotas"
  | AD_ListTenants => "/creditsystem.v1.AdminService/ListTenants"
  | AD_ListClusters => "/creditsystem.v1.AdminService/ListClusters"
  | AD_ListCreditAdjustments => "/creditsystem.v1.AdminService/ListCreditAdjustments"
  | AD_DeleteTenant => "/creditsystem.v1.AdminService/DeleteTenant"
  | AD_DeregisterCluster => "/creditsystem.v1.AdminService/DeregisterCluster"
  end.

Record adminServiceClient := {
  ac_issueTenantCredit : string;
  ac_listTenantQuotas : string;
  ac_listTenants : string;
  ac_listClusters : string;
  ac_listCreditAdjustments : string;
  ac_deleteTenant : string;
  ac_deregisterCluster : string;
}.

Definition NewAdminServiceClient (baseURL : string) : adminServiceClient :=
  let baseURL := TrimRight baseURL in
  {| ac_issueTenantCredit := baseURL +:+ admin_procedure AD_IssueTenantCredit;
     ac_listTenantQuotas := baseURL +:+ admin_procedure AD_ListTenantQuotas;
     ac_listTenants := baseURL +:+ admin_procedure AD_ListTenants;
     ac_listClusters := baseURL +:+ admin_procedure AD_ListClusters;
     ac_listCreditAdjustments := baseURL +:+ admin_procedure AD_ListCreditAdjustments;
     ac_deleteTenant := baseURL +:+ admin_procedure AD_DeleteTenant;
     ac_deregisterCluster := baseURL +:+ admin_procedure AD_DeregisterCluster |}.



(** ** ProvisioningService *)

Inductive provisioning_method := PR_RegisterTenant | PR_RegisterCluster.

Definition provisioning_procedure (m : provisioning_method) : string :=
  match m with
  | PR_RegisterTenant => "/creditsystem.v1.ProvisioningService/RegisterTenant"
  | PR_RegisterCluster => "/creditsystem.v1.ProvisioningService/RegisterCluster"
  end.

Record provisioningServiceClient := {
  pc_registerTenant : string;
  pc_registerCluster : string;
}.

Definition NewProvisioningServiceClient (baseURL : string) : provisioningServiceClient :=
  let baseURL := TrimRight baseURL in
  {| pc_registerTenant := baseURL +:+ provisioning_procedure PR_RegisterTenant;
     pc_registerCluster := baseURL +:+ provisioning_procedure PR_RegisterCluster |}.



(** ** The simulator's side *)

(** [os.Getenv] with a default for an unset or empty variable. *)
Definition env_or (env : gmap string string) (key fallback : string) : string :=
  let v := default "" (env !! key) in if decide (v = "") then fallback else v.

Definition simulator_serverURL (env : gmap string string) : string := env_or env "SERVER_URL" "http://localhost:8080".
Definition simulator_debugURL (env : gmap string string) : string := env_or env "DEBUG_URL" "http://localhost:6061".

(** The clients of [main]. *)
Definition simulator_clients (env : gmap string string)
    : provisioningServiceClient * adminServiceClient * heartbeatServiceClient :=
  let serverURL := simulator_serverURL env in
  (NewProvisioningServiceClient serverURL, NewAdminServiceClient serverURL, NewHeartbeatServiceClient serverURL).

(** The message of [serverStatsPollCmd]: the answer of [http.Get] is an error or a body,
    which decodes or does not. *)
Definition poll_message (answer : error + (error + ServerStats)) : tea_Msg :=
  match answer with
  | inr (inr s) => serverStatsMsg {| s with ss_Ok := true |}
  | inl _ | inr (inl _) => serverStatsMsg no_server_stats
  end.




(** ** Facts about URLs *)











