(* ===== verification/Simulator.v ===== *)
(** * The simulated clusters (cmd/simulator/main.go)

    The clusters, tenants and the driver of the demo.  A cluster agent is a pair of
    goroutines over the shared [ClusterSim]: the send loop ([on_exhaust],
    [on_replay], [on_ticker], one round of the [select] each) and the receive
    goroutine ([on_response]).  [Loop] holds the variables of one call of [run].
    The RPC clients act on a state of their own, the server's; messages to the
    screen are appended to [sm_ui], requests on the streams to [lp_sent].  The
    random numbers are arguments. *)

From stdpp Require Import pretty.
From S2P Require Import Prelude.
From S2P Require Import Floats Heartbeat ProvisioningHandler AdminHandler Scenario.

(** ** State *)

(** [exhaustCh] is either open or closed, [replayCh] a buffer of eight. *)
Record ClusterSim := {
  cl_id : string;
  cl_label : string;
  cl_tenantIdx : nat;
  cl_tickInterval : Z;
  cl_usageMult : float;
  cl_exhaustClosed : bool;
  cl_replayCh : list Z;
  cl_recentSeqs : list Z;
  cl_stopped : bool;
}.

Record TenantSim := {
  tn_idx : nat;
  tn_tenantID : string;
  tn_name : string;
  tn_tier : string;
  tn_clusters : list ClusterSim;
  tn_tbStats : TBStats;
}.

(** A request on the stream, with the acknowledgement it carries. *)
Record sent_request := { sq_request : HeartbeatRequest; sq_LastAckSequence : Z }.

(** The variables of [run]; [lp_live] until the send loop returns. *)
Record Loop := {
  lp_tenant : nat;
  lp_cluster : nat;
  lp_seq : Z;
  lp_lastAck : Z;
  lp_prevAck : Z;
  lp_exhaust : bool;
  lp_wasStopped : bool;
  lp_live : bool;
  lp_sent : list sent_request;
}.

Record Sim (Srv : Type) := {
  sm_server : Srv;
  sm_tenantID : string;
  sm_tenants : list TenantSim;
  sm_paused : bool;
  sm_loops : list Loop;
  sm_ui : list tea_Msg;
  sm_clock : nat → Z;
  sm_reads : nat;
}.
Arguments sm_server {_} _.
Arguments sm_tenantID {_} _.
Arguments sm_tenants {_} _.
Arguments sm_paused {_} _.
Arguments sm_loops {_} _.
Arguments sm_ui {_} _.
Arguments sm_clock {_} _.
Arguments sm_reads {_} _.

(** The clients of the two services. *)
Class Clients (Srv : Type) := {
  prov_RegisterTenant : RegisterTenantRequest → M Srv RegisterTenantResponse;
  prov_RegisterCluster : RegisterClusterRequest → M Srv RegisterClusterResponse;
  admin_IssueTenantCredit : IssueTenantCreditRequest → M Srv IssueTenantCreditResponse;
}.

(** ** Literals and helpers *)

Definition Millisecond : Z := 1000000.
Definition Second : Z := 1000000000.

Definition literal_0_4 : float := Float 7205759403792794 (-54).
Definition literal_half : float := Float 1 (-1).
Definition literal_0_6 : float := Float 5404319552844595 (-53).
Definition literal_0_3 : float := Float 5404319552844595 (-54).
Definition literal_0_15 : float := Float 5404319552844595 (-55).

Definition newClusterSim (label : string) (tenantIdx : nat) (tickInterval : Z) (usageMult : float) : ClusterSim :=
  {| cl_id := ""; cl_label := label; cl_tenantIdx := tenantIdx; cl_tickInterval := tickInterval;
     cl_usageMult := usageMult; cl_exhaustClosed := false; cl_replayCh := []; cl_recentSeqs := [];
     cl_stopped := false |}.

Definition rateDesc (d : Z) : string :=
  if decide (d < Second) then pretty (Second / d) +:+ " hb/s"
  else let secs := d / Second in
       if decide (secs ≤ 1) then "1 hb/s" else "1 hb/" +:+ pretty secs +:+ "s".

(** [NewScenarioDriver] *)
Definition new_tenants : list TenantSim :=
  [ {| tn_idx := 0; tn_tenantID := ""; tn_name := "Acme Corp"; tn_tier := "pro";
       tn_clusters := [ newClusterSim "A" 0 (25 * Millisecond) (Float 1 0);
                        newClusterSim "B" 0 (50 * Millisecond) literal_0_6;
                        newClusterSim "C" 0 (100 * Millisecond) literal_0_3 ];
       tn_tbStats := no_stats |};
    {| tn_idx := 1; tn_tenantID := ""; tn_name := "Globex Inc"; tn_tier := "starter";
       tn_clusters := [ newClusterSim "D" 1 (50 * Millisecond) literal_0_3;
                        newClusterSim "E" 1 (100 * Millisecond) literal_0_15 ];
       tn_tbStats := no_stats |} ].

Definition NewScenarioDriver {Srv} (server : Srv) (clock : nat → Z) : Sim Srv :=
  {| sm_server := server; sm_tenantID := ""; sm_tenants := new_tenants; sm_paused := false; sm_loops := [];
     sm_ui := []; sm_clock := clock; sm_reads := 0 |}.

(** ** Shared operations *)

Section simulator.
Context {Srv : Type} `{Clients Srv}.
Abbreviation SM := (Sim Srv) (only parsing).

Definition sim_Now : M SM Z := λ s, (Ok (sm_clock s (sm_reads s)), {| s with sm_reads := S (sm_reads s) |}).

(** [d.program.Send(msg)] *)
Definition Send (msg : tea_Msg) : M SM unit := modify (λ s, {| s with sm_ui := sm_ui s ++ [msg] |}).

Definition event (idx : nat) (kind : EventKind) (text : string) : M SM tea_Msg :=
  now ← sim_Now;
  mret (eventMsg {| ev_Timestamp := now; ev_Kind := kind; ev_Message := text; ev_TenantIdx := Z.of_nat idx |}).

Definition send_event (idx : nat) (kind : EventKind) (text : string) : M SM unit :=
  e ← event idx kind text; Send e.

(** [xs[i]] *)
Definition at_index {A} (xs : list A) (i : nat) : M SM A :=
  match xs !! i with Some x => mret x | None => panic "index out of range" end.

Definition tenant_at (i : nat) : M SM TenantSim := λ s, at_index (sm_tenants s) i s.
Definition cluster_at (i j : nat) : M SM ClusterSim := t ← tenant_at i; at_index (tn_clusters t) j.
Definition loop_at (n : nat) : M SM Loop := λ s, at_index (sm_loops s) n s.

Definition set_tenant (i : nat) (f : TenantSim → TenantSim) : M SM unit :=
  modify (λ s, {| s with sm_tenants := alter f i (sm_tenants s) |}).
Definition set_cluster (i j : nat) (f : ClusterSim → ClusterSim) : M SM unit :=
  set_tenant i (λ t, {| t with tn_clusters := alter f j (tn_clusters t) |}).
Definition set_loop (n : nat) (f : Loop → Loop) : M SM unit :=
  modify (λ s, {| s with sm_loops := alter f n (sm_loops s) |}).

(** The three counters: change them under the lock and show them. *)
Definition record_stats (i : nat) (f : TBStats → TBStats) : M SM unit :=
  _ ← set_tenant i (λ t, {| t with tn_tbStats := f (tn_tbStats t) |});
  t ← tenant_at i;
  Send (tbStatsUpdateMsg (Z.of_nat (tn_idx t)) (tn_tbStats t)).

Definition recordTransfers (i : nat) (n : Z) : M SM unit :=
  record_stats i (λ s, {| s with tb_TransfersTotal := i64 (tb_TransfersTotal s + n) |}).
Definition recordRejected (i : nat) : M SM unit :=
  record_stats i (λ s, {| s with tb_Rejected := i64 (tb_Rejected s + 1) |}).
Definition recordIdempotent (i : nat) : M SM unit :=
  record_stats i (λ s, {| s with tb_Idempotent := i64 (tb_Idempotent s + 1) |}).

(** ** The receive goroutine *)

Definition quota_state (q : QuotaInfo) : QuotaState :=
  {| qu_Resource := qi_ResourceType q; qu_Used := qi_Used q; qu_Limit := qi_Limit q;
     qu_Available := qi_Available q;
     qu_Pct := if decide (0 < qi_Limit q)
               then float_mul (float_quot (float_of_Z (qi_Used q)) (float_of_Z (qi_Limit q))) (float_of_Z 100)
               else Float 0 0;
     qu_Status := match qi_Status q with
                  | STATUS_QUOTA_WARNING => "warning"
                  | STATUS_QUOTA_EXCEEDED => "exceeded"
                  | _ => "ok"
                  end |}.

Definition has_kill (resp : HeartbeatResponse) : bool :=
  existsb (λ c, match cmd_Type c with TYPE_SHUTDOWN => true | _ => false end) (hp_PendingCommands resp).

(** Stop on the first kill command, resume on the first response without one. *)
Definition kill_signal (n : nat) (resp : HeartbeatResponse) : M SM unit :=
  l ← loop_at n;
  c ← cluster_at (lp_tenant l) (lp_cluster l);
  if has_kill resp && negb (lp_wasStopped l) then
    _ ← set_loop n (λ l, {| l with lp_wasStopped := true |});
    _ ← set_cluster (lp_tenant l) (lp_cluster l) (λ c, {| c with cl_stopped := true |});
    _ ← recordRejected (lp_tenant l);
    send_event (cl_tenantIdx c) EventHardLimit
      ("[" +:+ cl_label c +:+ "] KILL SIGNAL — stopping all heartbeats (hard limit hit)")
  else if negb (has_kill resp) && lp_wasStopped l then
    _ ← set_loop n (λ l, {| l with lp_wasStopped := false |});
    _ ← set_cluster (lp_tenant l) (lp_cluster l) (λ c, {| c with cl_stopped := false |});
    send_event (cl_tenantIdx c) EventInfo
      ("[" +:+ cl_label c +:+ "] RESUMED — quota restored, heartbeats resuming")
  else mret tt.

(** The body of the receive loop. *)
Definition on_response (n : nat) (resp : HeartbeatResponse) : M SM unit :=
  l ← loop_at n;
  c ← cluster_at (lp_tenant l) (lp_cluster l);
  let ack := hp_AckSequence resp in
  _ ← set_loop n (λ l, {| l with lp_lastAck := ack |});
  _ ← (if decide (lp_prevAck l < ack) then
         _ ← recordTransfers (lp_tenant l) (i64 (i64 (u64 (ack - lp_prevAck l)) * 3));
         set_loop n (λ l, {| l with lp_prevAck := ack |})
       else mret tt);
  _ ← (match hp_Quotas resp with
       | [] => mret tt
       | quotas => Send (quotaUpdateMsg (Z.of_nat (cl_tenantIdx c)) (quota_state <$> quotas))
       end);
  _ ← kill_signal n resp;
  _ ← (if decide (hp_Status resp = STATUS_QUOTA_WARNING)
       then send_event (cl_tenantIdx c) EventSoftLimit ("[" +:+ cl_label c +:+ "] SOFT LIMIT — approaching quota")
       else send_event (cl_tenantIdx c) EventHeartbeatACK ("[" +:+ cl_label c +:+ "] ack seq=" +:+ pretty ack));
  now ← sim_Now;
  l ← loop_at n;
  Send (clusterHeartbeatMsg (Z.of_nat (cl_tenantIdx c)) (cl_label c) (lp_seq l) ack now).

(** ** The send loop *)

(** [case <-s.exhaustCh]: ready when the channel is closed; it is replaced. *)
Definition on_exhaust (n : nat) : M SM unit :=
  l ← loop_at n;
  _ ← set_loop n (λ l, {| l with lp_exhaust := true |});
  set_cluster (lp_tenant l) (lp_cluster l) (λ c, {| c with cl_exhaustClosed := false |}).

Definition send_request (n : nat) (r : sent_request) : M SM unit :=
  set_loop n (λ l, {| l with lp_sent := lp_sent l ++ [r] |}).

(** [case replaySeq := <-s.replayCh]; an error of the send is ignored. *)
Definition on_replay (n : nat) : M SM unit :=
  l ← loop_at n;
  c ← cluster_at (lp_tenant l) (lp_cluster l);
  match cl_replayCh c with
  | [] => mret tt
  | replaySeq :: rest =>
      _ ← set_cluster (lp_tenant l) (lp_cluster l) (λ c, {| c with cl_replayCh := rest |});
      _ ← send_request n
            {| sq_request := {| hr_ClusterId := cl_id c; hr_Timestamp := None; hr_ActiveNodes := 4;
                                hr_CpuMillisecondsDelta := 1000; hr_MemoryMbSecondsDelta := 500;
                                hr_SequenceNumber := replaySeq |};
               sq_LastAckSequence := lp_lastAck l |};
      _ ← recordIdempotent (lp_tenant l);
      send_event (cl_tenantIdx c) EventDuplicate
        ("[" +:+ cl_label c +:+ "] replaying seq=" +:+ pretty replaySeq +:+
         " — deduped at workflow (processedSeqs)")
  end.

(** The random numbers of a round: [rand.N(4)], [rand.N(5)] and [rand.Float64()]. *)
Record draws := { dr_4 : Z; dr_5 : Z; dr_float : float }.

Definition tick_nodes (exhaust : bool) (d : draws) : Z := if exhaust then dr_5 d + 18 else dr_4 d + 2.

Definition tick_cpu (exhaust : bool) (d : draws) (tickMs nodes : Z) (usageMult : float) : Z :=
  let vCPUsPerNode := float_of_Z 2 in
  if exhaust then
    float_trunc (float_mul (float_mul (float_mul (float_mul (float_of_Z tickMs) vCPUsPerNode) (float_of_Z 8))
      (float_of_Z nodes)) usageMult)
  else
    let util := float_add literal_half (float_mul (dr_float d) literal_0_4) in
    float_trunc (float_mul (float_mul (float_mul (float_mul (float_of_Z tickMs) vCPUsPerNode)
      (float_of_Z nodes)) util) usageMult).

Definition tick_mem (tickMs nodes : Z) (usageMult : float) : Z :=
  float_trunc (float_mul (float_mul (float_mul (float_quot (float_of_Z tickMs) (float_of_Z 1000)) (float_of_Z 512))
    (float_of_Z nodes)) usageMult).

(** [append] and cut to the last ten. *)
Definition remember_seq (seq : Z) (recent : list Z) : list Z :=
  let recent := recent ++ [seq] in
  if decide (10 < length recent)%nat then drop (length recent - 10) recent else recent.

(** [case <-ticker.C]; [send_ok] is whether the stream took the message. *)
Definition on_ticker (n : nat) (d : draws) (send_ok : bool) : M SM unit :=
  l ← loop_at n;
  c ← cluster_at (lp_tenant l) (lp_cluster l);
  paused ← gets sm_paused;
  if paused || cl_stopped c then mret tt else
  let seq := u64 (lp_seq l + 1) in
  _ ← set_loop n (λ l, {| l with lp_seq := seq |});
  _ ← set_cluster (lp_tenant l) (lp_cluster l)
        (λ c, {| c with cl_recentSeqs := remember_seq seq (cl_recentSeqs c) |});
  let tickMs := cl_tickInterval c / Millisecond in
  let nodes := tick_nodes (lp_exhaust l) d in
  if (send_ok : bool) then
    send_request n
      {| sq_request := {| hr_ClusterId := cl_id c; hr_Timestamp := None; hr_ActiveNodes := nodes;
                          hr_CpuMillisecondsDelta := tick_cpu (lp_exhaust l) d tickMs nodes (cl_usageMult c);
                          hr_MemoryMbSecondsDelta := tick_mem tickMs nodes (cl_usageMult c);
                          hr_SequenceNumber := seq |};
         sq_LastAckSequence := lp_lastAck l |}
  else set_loop n (λ l, {| l with lp_live := false |}).

(** [go sim.run(d)]: a cluster without an ID does not start. *)
Definition run (i j : nat) : M SM unit :=
  c ← cluster_at i j;
  if decide (cl_id c = "") then mret tt else
  modify (λ s, {| s with sm_loops := sm_loops s ++
    [{| lp_tenant := i; lp_cluster := j; lp_seq := 0; lp_lastAck := 0; lp_prevAck := 0; lp_exhaust := false;
        lp_wasStopped := false; lp_live := true; lp_sent := [] |}] |}).

(** ** The steps of the driver *)

Definition on_server {A} (m : M Srv A) : M SM A := zoom sm_server (λ x s, {| s with sm_server := x |}) m.

Definition errMsg (idx : nat) (label : string) (e : error) : M SM tea_Msg :=
  event idx EventInfo ("ERROR [" +:+ label +:+ "]: %v").

(** [id[:8]] *)
Definition short_id (id : string) : M SM string :=
  if decide (8 ≤ String.length id)%nat then mret (String.substring 0 8 id) else panic "slice bounds out of range".

Definition acme_request : RegisterTenantRequest :=
  {| rt_Name := "Acme Corp"; rt_BillingTier := "pro"; rt_CpuHoursCredits := 1500000;
     rt_MemoryGbHoursCredits := 1000000; rt_ActiveNodesLimit := 20 |}.
Definition globex_request : RegisterTenantRequest :=
  {| rt_Name := "Globex Inc"; rt_BillingTier := "starter"; rt_CpuHoursCredits := 500000;
     rt_MemoryGbHoursCredits := 500000; rt_ActiveNodesLimit := 10 |}.

Definition stepProvision : M SM tea_Msg :=
  respA ← try (on_server (prov_RegisterTenant acme_request));
  match respA with
  | inl e => errMsg 0 "RegisterTenant Acme" e
  | inr respA =>
      _ ← set_tenant 0 (λ t, {| t with tn_tenantID := rt_TenantId respA |});
      _ ← modify (λ s, {| s with sm_tenantID := rt_TenantId respA |});
      respG ← try (on_server (prov_RegisterTenant globex_request));
      match respG with
      | inl e => errMsg 1 "RegisterTenant Globex" e
      | inr respG =>
          _ ← set_tenant 1 (λ t, {| t with tn_tenantID := rt_TenantId respG |});
          g ← short_id (rt_TenantId respG);
          _ ← send_event 1 EventInfo ("Tenant Globex Inc provisioned — wallets loaded tenant=" +:+ g);
          a ← short_id (rt_TenantId respA);
          event 0 EventInfo ("Tenant Acme Corp provisioned — wallets loaded tenant=" +:+ a)
      end
  end.

(** Tenant, cluster and region, in the order of registration. *)
Definition allClusters : list (nat * nat * string) :=
  [(0, 0, "us-east-1"); (0, 1, "eu-west-1"); (0, 2, "ap-south-1"); (1, 0, "us-west-2"); (1, 1, "ca-central-1")]%nat.

(** The loop that registers the clusters, with the message of the first error. *)
Fixpoint register_clusters (cls : list (nat * nat * string)) : M SM (option tea_Msg) :=
  match cls with
  | [] => mret None
  | (i, j, region) :: cls =>
      t ← tenant_at i;
      c ← cluster_at i j;
      r ← try (on_server (prov_RegisterCluster
            {| rq_TenantId := tn_tenantID t; rq_CloudProvider := "aws"; rq_Region := region |}));
      match r with
      | inl e => m ← errMsg i ("RegisterCluster " +:+ cl_label c) e; mret (Some m)
      | inr r => _ ← set_cluster i j (λ c, {| c with cl_id := rq_ClusterId r |}); register_clusters cls
      end
  end.

Definition shown (name region speed : string) (interval : Z) : ClusterState :=
  {| cs_Name := name; cs_Region := region; cs_Speed := speed; cs_Connected := true; cs_Seq := 0; cs_AckSeq := 0;
     cs_RateDesc := rateDesc interval; cs_LastSeen := None |}.

Definition stepStartClusters : M SM tea_Msg :=
  failed ← register_clusters allClusters;
  match failed with
  | Some m => mret m
  | None =>
      _ ← mapM (λ '(i, j, _), run i j) allClusters;
      _ ← Send (clusterUpdateMsg 1
            [shown "Cluster D" "us-west-2" "fast" (50 * Millisecond);
             shown "Cluster E" "ca-central-1" "slow" (100 * Millisecond)]);
      mret (clusterUpdateMsg 0
            [shown "Cluster A" "us-east-1" "fast" (25 * Millisecond);
             shown "Cluster B" "eu-west-1" "medium" (50 * Millisecond);
             shown "Cluster C" "ap-south-1" "slow" (100 * Millisecond)])
  end.

(** Closing a closed channel panics. *)
Definition stepExhaust : M SM tea_Msg :=
  _ ← set_tenant 0 (λ t, {| t with tn_clusters := (λ c, {| c with cl_stopped := false |}) <$> tn_clusters t |});
  a ← cluster_at 0 0;
  if cl_exhaustClosed a then panic "close of closed channel" else
  _ ← set_cluster 0 0 (λ c, {| c with cl_exhaustClosed := true |});
  event 0 EventSoftLimit "Cluster A ramping CPU — driving toward hard limit...".

Definition stepSurgePack : M SM tea_Msg :=
  id ← gets sm_tenantID;
  r ← try (on_server (admin_IssueTenantCredit
        {| ir_TenantId := id; ir_ResourceType := "cpu_hours"; ir_Amount := 500000;
           ir_Reason := "Emergency surge pack" |}));
  event 0 EventSurgePack
    match r with
    | inl _ => "Surge pack error: %v"
    | inr _ => "Surge pack applied — CPU wallet +500K credits; clusters will auto-resume"
    end.

(** The capacity of [replayCh]; a send on a full channel waits, which here is [None]. *)
Definition replayCap : nat := 8.

Fixpoint replay_all (seqs : list Z) : M SM bool :=
  match seqs with
  | [] => mret true
  | seq :: seqs =>
      a ← cluster_at 0 0;
      if decide (length (cl_replayCh a) < replayCap)%nat then
        _ ← set_cluster 0 0 (λ c, {| c with cl_replayCh := cl_replayCh c ++ [seq] |});
        replay_all seqs
      else mret false
  end.

(** [None]: the step waits for the cluster to take a number. *)
Definition stepIdempotency : M SM (option tea_Msg) :=
  a ← cluster_at 0 0;
  let seqs := take 3 (cl_recentSeqs a) in
  ok ← replay_all seqs;
  if (ok : bool) then
    m ← event 0 EventInfo ("Replaying " +:+ pretty (length seqs) +:+
      " sequences on real stream — dedup enforced by processedSeqs");
    mret (Some m)
  else mret None.

Definition runStep (step : Z) : M SM (option tea_Msg) :=
  if decide (step = StepProvision) then m ← stepProvision; mret (Some m)
  else if decide (step = StepStartClusters) then m ← stepStartClusters; mret (Some m)
  else if decide (step = StepRecordUsage) then
    m ← event 0 EventInfo "Recording usage — quota bars filling from real heartbeats..."; mret (Some m)
  else if decide (step = StepExhaust) then m ← stepExhaust; mret (Some m)
  else if decide (step = StepSurgePack) then m ← stepSurgePack; mret (Some m)
  else if decide (step = StepIdempotency) then stepIdempotency
  else if decide (step = StepSummary) then
    m ← event 0 EventInfo "Demo complete — all success criteria met."; mret (Some m)
  else mret None.
End simulator.
