(* ===== verification/SimulatorProps.v ===== *)
(** * What the simulated clusters do

    The kill signal, the sequence numbers and the steps of the demo. *)

From stdpp Require Import pretty.
From S2P Require Import Prelude.
From S2P Require Import Floats Dedup Heartbeat ProvisioningHandler AdminHandler Scenario Simulator.

(** ** One agent: a loop and its cluster *)

Section agents.
Context {Srv : Type} `{Clients Srv}.
Abbreviation SM := (Sim Srv) (only parsing).
Implicit Types (s : SM) (l : Loop) (c : ClusterSim).

Definition cluster_of s (i j : nat) : option ClusterSim := t ← sm_tenants s !! i; tn_clusters t !! j.

Definition at_agent s (n : nat) l c : Prop :=
  sm_loops s !! n = Some l ∧ cluster_of s (lp_tenant l) (lp_cluster l) = Some c.

Definition same_place l l' : Prop := lp_tenant l' = lp_tenant l ∧ lp_cluster l' = lp_cluster l.

(** The state with agent [n] replaced; stamps, counters and the screen aside. *)
Definition upd (n : nat) l c s s' : Prop :=
  sm_loops s' = <[n := l]> (sm_loops s) ∧ sm_paused s' = sm_paused s ∧
  (∀ i j, cluster_of s' i j = if decide (i = lp_tenant l ∧ j = lp_cluster l) then Some c else cluster_of s i j) ∧
  (∀ i, is_Some (sm_tenants s' !! i) ↔ is_Some (sm_tenants s !! i)).

Lemma upd_at n l c l' c' s s' :
  at_agent s n l c → upd n l' c' s s' → same_place l l' → at_agent s' n l' c'.
Proof.
  intros [Hl Hc] (Hls & _ & Hcs & _) Hp. split.
  - rewrite Hls. apply list_lookup_insert_eq. by eapply lookup_lt_Some.
  - by rewrite Hcs, decide_True.
Qed.

Lemma upd_trans n l1 c1 l2 c2 s s1 s2 :
  same_place l1 l2 → upd n l1 c1 s s1 → upd n l2 c2 s1 s2 → upd n l2 c2 s s2.
Proof.
  intros [Hp1 Hp2] (A1 & B1 & C1 & D1) (A2 & B2 & C2 & D2). split_and!.
  - by rewrite A2, A1, list_insert_insert_eq.
  - congruence.
  - intros i j. rewrite C2, C1. rewrite Hp1, Hp2. by case_decide.
  - intros i. by rewrite D2, D1.
Qed.

(** Runs to its end and replaces the agent. *)
Definition acts {A} (m : M SM A) (n : nat) s l c (a : A) : Prop :=
  ∃ s', m s = (Ok a, s') ∧ upd n l c s s'.

Lemma acts_bind {A B} (m : M SM A) (k : A → M SM B) n s l c l1 c1 l2 c2 a b :
  at_agent s n l c → acts m n s l1 c1 a → same_place l l1 → same_place l1 l2 →
  (∀ s1, at_agent s1 n l1 c1 → sm_paused s1 = sm_paused s → acts (k a) n s1 l2 c2 b) →
  acts (m ≫= k) n s l2 c2 b.
Proof.
  intros Hat (s1 & Hm & Hu) Hp1 Hp2 Hk.
  destruct (Hk s1) as (s2 & Hk2 & Hu2); [by eapply upd_at|apply Hu|].
  exists s2. rewrite (bind_Ok _ _ _ _ _ Hm). split; [done|]. by eapply upd_trans.
Qed.

(** ** The building blocks *)

Lemma upd_refl n l c s s' :
  at_agent s n l c → sm_loops s' = sm_loops s → sm_tenants s' = sm_tenants s → sm_paused s' = sm_paused s →
  upd n l c s s'.
Proof.
  intros [Hl Hc] E1 E2 E3. split_and!; [by rewrite list_insert_id| done| |by rewrite E2].
  intros i j. unfold cluster_of in *. rewrite E2. case_decide as Hd; [|done]. by destruct Hd as [-> ->].
Qed.

Lemma loop_at_run n s l c : at_agent s n l c → loop_at n s = (Ok l, s).
Proof. intros [Hl _]. unfold loop_at, at_index. by rewrite Hl. Qed.

Lemma cluster_at_cases i j s :
  cluster_at i j s = match cluster_of s i j with Some c => (Ok c, s) | None => (Panic "index out of range", s) end.
Proof.
  unfold cluster_at, tenant_at, cluster_of. rewrite bind_cases. unfold at_index at 1.
  destruct (sm_tenants s !! i) as [t|]; [|done]. cbn. unfold at_index. by destruct (tn_clusters t !! j).
Qed.

Lemma cluster_at_run n s l c : at_agent s n l c → cluster_at (lp_tenant l) (lp_cluster l) s = (Ok c, s).
Proof. intros [_ Hc]. by rewrite cluster_at_cases, Hc. Qed.

Lemma acts_loop_at n s l c : at_agent s n l c → acts (loop_at n) n s l c l.
Proof. intros Hat. exists s. split; [by eapply loop_at_run|by apply upd_refl]. Qed.

Lemma acts_cluster_at n s l c : at_agent s n l c → acts (cluster_at (lp_tenant l) (lp_cluster l)) n s l c c.
Proof. intros Hat. exists s. split; [by eapply cluster_at_run|by apply upd_refl]. Qed.

Lemma acts_ret {A} (a : A) n s l c : at_agent s n l c → acts (mret a) n s l c a.
Proof. intros Hat. exists s. split; [done|]. by apply upd_refl. Qed.

Lemma acts_Send m n s l c : at_agent s n l c → acts (Send m) n s l c tt.
Proof. intros Hat. eexists. split; [done|]. by apply upd_refl. Qed.

Lemma acts_send_event i k t n s l c : at_agent s n l c → acts (send_event i k t) n s l c tt.
Proof. intros Hat. eexists. split; [done|]. by apply upd_refl. Qed.

Lemma acts_Now n s l c : at_agent s n l c → ∃ z, acts sim_Now n s l c z.
Proof. intros Hat. eexists. eexists. split; [done|]. by apply upd_refl. Qed.

Lemma acts_paused n s l c : at_agent s n l c → acts (gets sm_paused) n s l c (sm_paused s).
Proof. intros Hat. eexists. split; [done|]. by apply upd_refl. Qed.

Lemma acts_set_loop f n s l c :
  at_agent s n l c → same_place l (f l) → acts (set_loop n f) n s (f l) c tt.
Proof.
  intros [Hl Hc] Hp. eexists. split; [done|]. split_and!; cbn [sm_loops sm_paused sm_tenants]; [|done| |done].
  - apply list_eq. intros m. destruct (decide (m = n)) as [->|Hne].
    + rewrite list_lookup_alter_eq, Hl. cbn. symmetry. apply list_lookup_insert_eq. by eapply lookup_lt_Some.
    + by rewrite list_lookup_alter_ne, list_lookup_insert_ne.
  - intros i j. case_decide as Hd; [|done]. destruct Hd as [-> ->]. destruct Hp as [-> ->]. done.
Qed.

Lemma acts_set_cluster f n s l c :
  at_agent s n l c → acts (set_cluster (lp_tenant l) (lp_cluster l) f) n s l (f c) tt.
Proof.
  intros [Hl Hc]. eexists. split; [done|]. split_and!; cbn [sm_loops sm_paused sm_tenants];
    [by rewrite list_insert_id|done| |].
  - intros i j. unfold cluster_of in *. cbn [sm_tenants]. apply bind_Some in Hc as (t & Ht & Hc).
    destruct (decide (i = lp_tenant l)) as [->|Hi].
    + rewrite list_lookup_alter_eq, Ht. cbn. destruct (decide (j = lp_cluster l)) as [->|Hj].
      * rewrite decide_True by done. by rewrite list_lookup_alter_eq, Hc.
      * rewrite decide_False by tauto. by rewrite list_lookup_alter_ne.
    + rewrite decide_False by tauto. by rewrite list_lookup_alter_ne.
  - intros i. destruct (decide (i = lp_tenant l)) as [->|Hi].
    + rewrite list_lookup_alter_eq. by destruct (sm_tenants s !! lp_tenant l).
    + by rewrite list_lookup_alter_ne.
Qed.

Lemma acts_record_stats f n s l c : at_agent s n l c → acts (record_stats (lp_tenant l) f) n s l c tt.
Proof.
  intros [Hl Hc]. unfold cluster_of in Hc. apply bind_Some in Hc as (t & Ht & Hc).
  eexists. split.
  { unfold record_stats. rewrite bind_cases. cbn [set_tenant modify]. rewrite bind_cases.
    unfold tenant_at, at_index. cbn [sm_tenants]. rewrite list_lookup_alter_eq, Ht. cbn. done. }
  split_and!; cbn [sm_loops sm_paused sm_tenants]; [by rewrite list_insert_id|done| |].
  - intros i j. unfold cluster_of. cbn [sm_tenants]. destruct (decide (i = lp_tenant l)) as [->|Hi].
    + rewrite list_lookup_alter_eq, Ht. cbn. case_decide as Hd; [|done]. by destruct Hd as [_ ->].
    + rewrite decide_False by tauto. by rewrite list_lookup_alter_ne.
  - intros i. destruct (decide (i = lp_tenant l)) as [->|Hi].
    + rewrite list_lookup_alter_eq. by destruct (sm_tenants s !! lp_tenant l).
    + by rewrite list_lookup_alter_ne.
Qed.

(** [astep H]: the next operation of a sequence runs by [H]. *)
Ltac astep Hat Hstep :=
  eapply acts_bind; [exact Hat|apply Hstep; try exact Hat; try by split|by split|try by split|];
  [..|clear Hat; intros ? Hat ?].

(** ** The receive goroutine *)

(** The flag after a response: set by the first kill, cleared by the first response
    without one. *)
Definition flag_after (kill was flag : bool) : bool :=
  if kill && negb was then true else if negb kill && was then false else flag.

Lemma kill_signal_acts resp n s l c :
  at_agent s n l c →
  acts (kill_signal n resp) n s {| l with lp_wasStopped := has_kill resp |}
    {| c with cl_stopped := flag_after (has_kill resp) (lp_wasStopped l) (cl_stopped c) |} tt.
Proof.
  intros Hat. unfold kill_signal. astep Hat acts_loop_at. astep Hat acts_cluster_at.
  unfold flag_after. destruct (has_kill resp) eqn:Hk, (lp_wasStopped l) eqn:Hw; cbn [andb negb].
  - replace ({| l with lp_wasStopped := true |}) with l by (destruct l; cbn in *; by rewrite Hw).
    replace ({| c with cl_stopped := cl_stopped c |}) with c by (by destruct c). by apply acts_ret.
  - astep Hat (acts_set_loop (λ l, {| l with lp_wasStopped := true |})).
    astep Hat (acts_set_cluster (λ c, {| c with cl_stopped := true |}) n _ _ _ Hat).
    astep Hat (acts_record_stats (λ x, {| x with tb_Rejected := i64 (tb_Rejected x + 1) |}) n _ _ _ Hat).
    by apply acts_send_event.
  - astep Hat (acts_set_loop (λ l, {| l with lp_wasStopped := false |})).
    astep Hat (acts_set_cluster (λ c, {| c with cl_stopped := false |}) n _ _ _ Hat).
    by apply acts_send_event.
  - replace ({| l with lp_wasStopped := false |}) with l by (destruct l; cbn in *; by rewrite Hw).
    replace ({| c with cl_stopped := cl_stopped c |}) with c by (by destruct c). by apply acts_ret.
Qed.

Definition responded (resp : HeartbeatResponse) l : Loop :=
  {| l with lp_lastAck := hp_AckSequence resp; lp_prevAck := Z.max (lp_prevAck l) (hp_AckSequence resp);
            lp_wasStopped := has_kill resp |}.

Lemma on_response_acts resp n s l c :
  at_agent s n l c →
  acts (on_response n resp) n s (responded resp l)
    {| c with cl_stopped := flag_after (has_kill resp) (lp_wasStopped l) (cl_stopped c) |} tt.
Proof.
  intros Hat. unfold on_response. astep Hat acts_loop_at. astep Hat acts_cluster_at. cbv zeta.
  set (ack := hp_AckSequence resp). set (l1 := {| l with lp_lastAck := ack |}).
  astep Hat (acts_set_loop (λ l, {| l with lp_lastAck := ack |})). fold l1 in Hat |- *.
  set (l2 := {| l1 with lp_prevAck := Z.max (lp_prevAck l) ack |}).
  eapply (acts_bind _ _ n _ l1 c l2 c); [exact Hat| |by split|by split|].
  { case_decide as Hd.
    - astep Hat (acts_record_stats
        (λ x, {| x with tb_TransfersTotal := i64 (tb_TransfersTotal x + i64 (i64 (u64 (ack - lp_prevAck l)) * 3)) |})
        n _ _ _ Hat).
      replace l2 with ({| l1 with lp_prevAck := ack |}) by (unfold l2; f_equal; lia).
      by apply (acts_set_loop (λ l, {| l with lp_prevAck := ack |})).
    - replace l2 with l1 by (unfold l2; destruct l; cbn in *; f_equal; lia). by apply acts_ret. }
  clear Hat. intros ? Hat _.
  eapply (acts_bind _ _ n _ l2 c l2 c); [exact Hat| |by split|by split|].
  { destruct (hp_Quotas resp); [by apply acts_ret|by apply acts_Send]. }
  clear Hat. intros ? Hat _.
  astep Hat (kill_signal_acts resp n _ _ _ Hat).
  eapply acts_bind; [exact Hat| |by split|by split|].
  { case_decide; by apply acts_send_event. }
  clear Hat. intros ? Hat _.
  destruct (acts_Now _ _ _ _ Hat) as [z Hz]. eapply acts_bind; [exact Hat|exact Hz|by split|by split|].
  clear Hat. intros ? Hat _. astep Hat acts_loop_at. by apply acts_Send.
Qed.

(** ** The send loop *)

Lemma on_exhaust_acts n s l c :
  at_agent s n l c →
  acts (on_exhaust n) n s {| l with lp_exhaust := true |} {| c with cl_exhaustClosed := false |} tt.
Proof.
  intros Hat. unfold on_exhaust. astep Hat acts_loop_at.
  astep Hat (acts_set_loop (λ l, {| l with lp_exhaust := true |})).
  exact (acts_set_cluster (λ c, {| c with cl_exhaustClosed := false |}) n _ _ _ Hat).
Qed.

Definition replay_request (l : Loop) (c : ClusterSim) (seq : Z) : sent_request :=
  {| sq_request := {| hr_ClusterId := cl_id c; hr_Timestamp := None; hr_ActiveNodes := 4;
                      hr_CpuMillisecondsDelta := 1000; hr_MemoryMbSecondsDelta := 500;
                      hr_SequenceNumber := seq |};
     sq_LastAckSequence := lp_lastAck l |}.

Lemma on_replay_acts n s l c seq rest :
  at_agent s n l c → cl_replayCh c = seq :: rest →
  acts (on_replay n) n s {| l with lp_sent := lp_sent l ++ [replay_request l c seq] |}
    {| c with cl_replayCh := rest |} tt.
Proof.
  intros Hat Hr. unfold on_replay. astep Hat acts_loop_at. astep Hat acts_cluster_at. rewrite Hr.
  astep Hat (acts_set_cluster (λ c, {| c with cl_replayCh := rest |}) n _ _ _ Hat).
  astep Hat (acts_set_loop (λ l0, {| l0 with lp_sent := lp_sent l0 ++ [replay_request l c seq] |})).
  astep Hat (acts_record_stats (λ x, {| x with tb_Idempotent := i64 (tb_Idempotent x + 1) |}) n _ _ _ Hat).
  by apply acts_send_event.
Qed.

Definition tick_request (l : Loop) (c : ClusterSim) (d : draws) : sent_request :=
  let tickMs := cl_tickInterval c / Millisecond in
  let nodes := tick_nodes (lp_exhaust l) d in
  {| sq_request := {| hr_ClusterId := cl_id c; hr_Timestamp := None; hr_ActiveNodes := nodes;
                      hr_CpuMillisecondsDelta := tick_cpu (lp_exhaust l) d tickMs nodes (cl_usageMult c);
                      hr_MemoryMbSecondsDelta := tick_mem tickMs nodes (cl_usageMult c);
                      hr_SequenceNumber := u64 (lp_seq l + 1) |};
     sq_LastAckSequence := lp_lastAck l |}.

(** The loop after a round of the ticker that was not held back. *)
Definition ticked (l : Loop) (c : ClusterSim) (d : draws) (ok : bool) : Loop :=
  if ok then {| l with lp_seq := u64 (lp_seq l + 1); lp_sent := lp_sent l ++ [tick_request l c d] |}
  else {| l with lp_seq := u64 (lp_seq l + 1); lp_live := false |}.

Lemma on_ticker_held n s l c d ok :
  at_agent s n l c → sm_paused s || cl_stopped c = true → acts (on_ticker n d ok) n s l c tt.
Proof.
  intros Hat Hh. unfold on_ticker. astep Hat acts_loop_at. astep Hat acts_cluster_at.
  eapply acts_bind; [exact Hat|by apply acts_paused|by split|by split|]. intros sx Hat1 E.
  replace (sm_paused _ || cl_stopped c) with true by congruence. by apply acts_ret.
Qed.

Lemma on_ticker_acts n s l c d ok :
  at_agent s n l c → sm_paused s = false → cl_stopped c = false →
  acts (on_ticker n d ok) n s (ticked l c d ok)
    {| c with cl_recentSeqs := remember_seq (u64 (lp_seq l + 1)) (cl_recentSeqs c) |} tt.
Proof.
  intros Hat Hp Hst. unfold on_ticker. astep Hat acts_loop_at; [by destruct ok|].
  astep Hat acts_cluster_at; [by destruct ok|].
  eapply acts_bind; [exact Hat|by apply acts_paused|by split|by destruct ok|]. intros sx Hat3 E3.
  replace (sm_paused _ || cl_stopped c) with false by (rewrite Hst, orb_false_r; congruence). cbv zeta.
  eapply acts_bind; [exact Hat3|
    apply (acts_set_loop (λ l0, {| l0 with lp_seq := u64 (lp_seq l + 1) |})); [exact Hat3|by split]
    |by split|by destruct ok|]. intros sy Hat4 _.
  eapply acts_bind; [exact Hat4|
    exact (acts_set_cluster (λ c0, {| c0 with cl_recentSeqs := remember_seq (u64 (lp_seq l + 1)) (cl_recentSeqs c0) |})
      n _ _ _ Hat4)|by split|by destruct ok|]. intros sz Hat5 _.
  destruct ok.
  - exact (acts_set_loop (λ l0, {| l0 with lp_sent := lp_sent l0 ++ [tick_request l c d] |}) n _ _ _
      Hat5 (conj eq_refl eq_refl)).
  - exact (acts_set_loop (λ l0, {| l0 with lp_live := false |}) n _ _ _ Hat5 (conj eq_refl eq_refl)).
Qed.
End agents.
