(* ===== verification/SimulatorClaims.v ===== *)
(** * Properties of the simulated clusters

    The agent refines its specification and obeys the kill signal; the driver's
    exhaustion step breaks that; the numbers that pass the gateway are those of the
    ticks; the screen model stays within its bounds. *)

From stdpp Require Import pretty.
From S2P Require Import Prelude.
From S2P Require Import Floats Dedup Heartbeat ProvisioningHandler AdminHandler Scenario Simulator SimulatorProps.

(** ** The kill signal *)

Inductive agent_event := Response (resp : HeartbeatResponse) | Tick (d : draws) (send_ok : bool) | Replay | Exhaust.



Definition sent_seqs (l : Loop) : list Z := (hr_SequenceNumber ∘ sq_request) <$> lp_sent l.


Section agents.
Context {Srv : Type} `{Clients Srv}.
Abbreviation SM := (Sim Srv) (only parsing).
Implicit Types (s : SM) (l : Loop) (c : ClusterSim).

Definition agent_op (n : nat) (ev : agent_event) : M SM unit :=
  match ev with
  | Response resp => on_response n resp
  | Tick d ok => on_ticker n d ok
  | Replay => on_replay n
  | Exhaust => on_exhaust n
  end.

Definition agent_ops (n : nat) (evs : list agent_event) : M SM unit :=
  foldM (λ _ ev, agent_op n ev) tt evs.

Lemma sent_seqs_snoc l l' r :
  lp_sent l' = lp_sent l ++ [r] → sent_seqs l' = sent_seqs l ++ [hr_SequenceNumber (sq_request r)].
Proof. unfold sent_seqs. intros ->. by rewrite fmap_app. Qed.




(** ** The exhaustion step *)

Lemma stepExhaust_Ok s m s' n l c :
  stepExhaust s = (Ok m, s') → at_agent s n l c → lp_tenant l = 0%nat →
  at_agent s' n l {| c with cl_stopped := false;
    cl_exhaustClosed := if decide (lp_cluster l = 0%nat) then true else cl_exhaustClosed c |} ∧
  sm_paused s' = sm_paused s.
Proof.
  intros He [Hl Hc] H0. unfold cluster_of in Hc. apply bind_Some in Hc as (t & Ht & Hc). rewrite H0 in Ht.
  unfold stepExhaust in He. apply bind_Ok_inv in He as (? & s1 & Hs1 & He). injection Hs1 as _ <-.
  apply bind_Ok_inv in He as (a & s2 & Ha & He). rewrite cluster_at_cases in Ha.
  destruct (cluster_of _ 0 0) as [a'|]; [|done]. injection Ha as -> <-.
  destruct (cl_exhaustClosed a); [done|].
  apply bind_Ok_inv in He as (? & s3 & Hs3 & He). injection Hs3 as _ <-.
  apply bind_Ok_inv in He as (now & s4 & Hs4 & He). injection Hs4 as _ <-. injection He as _ <-.
  split; [|done]. split; [done|]. unfold cluster_of. cbn [sm_tenants]. rewrite H0.
  rewrite !list_lookup_alter_eq, Ht. cbn [fmap option_fmap option_map mbind option_bind tn_clusters].
  destruct (decide (lp_cluster l = 0%nat)) as [E|E].
  - rewrite E in *. by rewrite list_lookup_alter_eq, list_lookup_fmap, Hc.
  - by rewrite list_lookup_alter_ne, list_lookup_fmap, Hc.
Qed.

Lemma responses_keep_flag n resps s l c :
  at_agent s n l c → lp_wasStopped l = true → Forall (λ r, has_kill r = true) resps →
  ∃ s' l', agent_ops n (Response <$> resps) s = (Ok tt, s') ∧ at_agent s' n l' c ∧
    sm_paused s' = sm_paused s ∧ lp_wasStopped l' = true ∧ lp_sent l' = lp_sent l.
Proof.
  intros Hat Hw Hr. revert s l Hat Hw. induction Hr as [|r resps Hk Hr IH]; intros s l Hat Hw.
  - by exists s, l.
  - destruct (on_response_acts r n s l c Hat) as (s1 & E1 & Hu1).
    assert ({| c with cl_stopped := flag_after (has_kill r) (lp_wasStopped l) (cl_stopped c) |} = c) as Hc
      by (rewrite Hk, Hw; by destruct c).
    rewrite Hc in Hu1.
    assert (at_agent s1 n (responded r l) c) as Hat1 by (eapply upd_at; [exact Hat|exact Hu1|by split]).
    destruct (IH s1 (responded r l) Hat1) as (s2 & l2 & E2 & Hat2 & Hp2 & Hw2 & Hs2); [done|].
    exists s2, l2. split_and!; [|done| |done..].
    + unfold agent_ops in *. cbn [foldM fmap list_fmap]. by rewrite (bind_Ok _ _ _ _ _ E1).
    + rewrite Hp2. apply Hu1.
Qed.

(** The exhaustion step makes a stopped cluster deaf to the kill signal. Take a
    cluster of the first tenant whose receive goroutine has seen a kill command,
    and run the step. However many responses with a shutdown command arrive after
    it, the cluster stays running, and the next tick sends a heartbeat. *)
Theorem exhaust_step_ignores_kill : ∀ n s m s1 l c resps d,
  at_agent s n l c → lp_tenant l = 0%nat → lp_wasStopped l = true → sm_paused s = false →
  stepExhaust s = (Ok m, s1) → Forall (λ r, has_kill r = true) resps →
  ∃ s2 s3 l3 c3, agent_ops n (Response <$> resps) s1 = (Ok tt, s2) ∧
    on_ticker n d true s2 = (Ok tt, s3) ∧ at_agent s3 n l3 c3 ∧ cl_stopped c3 = false ∧
    sent_seqs l3 = sent_seqs l ++ [lp_seq l3].
Proof.
  intros n s m s1 l c resps d Hat H0 Hw Hp He Hr.
  destruct (stepExhaust_Ok _ _ _ _ _ _ He Hat H0) as [Hat1 Hp1].
  destruct (responses_keep_flag n resps s1 l _ Hat1 Hw Hr) as (s2 & l2 & E2 & Hat2 & Hp2 & Hw2 & Hs2).
  destruct (on_ticker_acts n s2 l2 _ d true Hat2) as (s3 & E3 & Hu3); [congruence|done|].
  exists s2, s3. do 2 eexists. split_and!; [exact E2|exact E3|eapply upd_at; [exact Hat2|exact Hu3|by split]|done|].
  unfold ticked. erewrite (sent_seqs_snoc l2) by reflexivity. cbn [lp_seq tick_request sq_request hr_SequenceNumber].
  unfold sent_seqs. by rewrite Hs2.
Qed.

(** ** The cycle of the demo *)

(** The exhaustion channel of the first cluster is closed. *)
Definition signalled s : Prop := ∃ a, cluster_of s 0 0 = Some a ∧ cl_exhaustClosed a = true.

Definition stays_signalled : relation SM := λ s s', signalled s → signalled s'.
#[local] Instance stays_signalled_preorder : PreOrder stays_signalled.
Proof. split; [by intros s Hs|]. intros s1 s2 s3 H1 H2 Hs. auto. Qed.

Lemma event_signalled i k t : keeps stays_signalled (event i k t : M SM tea_Msg).
Proof. intros s o s' He. inv He. by intros Hs. Qed.

Lemma cluster_at_signalled i j : keeps stays_signalled (cluster_at i j : M SM ClusterSim).
Proof. intros s o s' He. rewrite cluster_at_cases in He. destruct (cluster_of s i j); inv He; by intros Hs. Qed.

Lemma on_server_signalled {A} (m : M Srv A) : keeps stays_signalled (on_server m).
Proof.
  intros s o s' He. unfold on_server, zoom in He. destruct (m (sm_server s)) as [r x].
  inv He. by intros Hs.
Qed.

Lemma push_signalled q :
  keeps stays_signalled (set_cluster 0 0 (λ c, {| c with cl_replayCh := cl_replayCh c ++ [q] |}) : M SM unit).
Proof.
  intros s o s' He. inv He. intros (a & Ha & Hc). unfold cluster_of in Ha.
  apply bind_Some in Ha as (t & Ht & Ha). eexists. split.
  - unfold cluster_of. cbn [sm_tenants]. rewrite list_lookup_alter_eq, Ht. cbn.
    by rewrite list_lookup_alter_eq, Ha.
  - done.
Qed.
#[local] Hint Resolve event_signalled cluster_at_signalled on_server_signalled push_signalled : credit.

Lemma replay_all_signalled seqs : keeps stays_signalled (replay_all seqs : M SM bool).
Proof. induction seqs as [|q seqs IH]; cbn [replay_all]; keeps_tac. Qed.
#[local] Hint Resolve replay_all_signalled : credit.

Lemma steps_signalled step :
  step = StepSurgePack ∨ step = StepIdempotency ∨ step = StepSummary →
  keeps stays_signalled (runStep step : M SM (option tea_Msg)).
Proof.
  intros [->|[->| ->]].
  - change (keeps stays_signalled (m ← stepSurgePack; mret (Some m) : M SM _)). unfold stepSurgePack. keeps_tac.
  - change (keeps stays_signalled (stepIdempotency : M SM _)). unfold stepIdempotency. keeps_tac.
  - change (keeps stays_signalled (m ← event 0 EventInfo "Demo complete — all success criteria met.";
      mret (Some m) : M SM _)). keeps_tac.
Qed.

Lemma stepExhaust_signals s m s' : stepExhaust s = (Ok m, s') → signalled s'.
Proof.
  unfold stepExhaust. intros He. apply bind_Ok_inv in He as (? & s1 & _ & He).
  apply bind_Ok_inv in He as (a & s2 & Ha & He). rewrite cluster_at_cases in Ha.
  destruct (cluster_of s1 0 0) as [a'|] eqn:Hc; [|done]. injection Ha as -> <-.
  destruct (cl_exhaustClosed a); [done|].
  apply bind_Ok_inv in He as (? & s3 & Hs3 & He). injection Hs3 as _ <-.
  apply event_signalled in He. apply He. unfold cluster_of in *. apply bind_Some in Hc as (t & Ht & Hc).
  eexists. split; [unfold cluster_of; cbn [sm_tenants]; rewrite list_lookup_alter_eq, Ht; cbn;
    by rewrite list_lookup_alter_eq, Hc|done].
Qed.

Lemma signalled_panics s : signalled s → (runStep StepExhaust s).1 = Panic "close of closed channel".
Proof.
  intros (a & Ha & Hc). unfold cluster_of in Ha. apply bind_Some in Ha as (t & Ht & Ha).
  change (runStep StepExhaust s) with ((m ← stepExhaust; mret (Some m) : M SM _) s). rewrite bind_cases.
  assert ((stepExhaust s).1 = Panic "close of closed channel") as He.
  { unfold stepExhaust. rewrite bind_cases. cbn [set_tenant modify]. rewrite bind_cases, cluster_at_cases.
    unfold cluster_of. cbn [sm_tenants]. rewrite list_lookup_alter_eq, Ht. cbn.
    rewrite list_lookup_fmap, Ha. cbn. by rewrite Hc. }
  destruct (stepExhaust s) as [o s']. cbn in He. by rewrite He.
Qed.

(** Going round the demo crashes it when the first cluster's send loop has ended.
    After the exhaustion step the channel stays closed until the loop takes the
    signal; if it does not, the surge pack, the idempotency step and the summary,
    whatever their outcome, leave it closed, and the exhaustion step that the next
    press of N starts panics. *)
Theorem second_exhaust_panics : ∀ s m s1 o2 s2 o3 s3 o4 s4,
  runStep StepExhaust s = (Ok m, s1) → runStep StepSurgePack s1 = (o2, s2) →
  runStep StepIdempotency s2 = (o3, s3) → runStep StepSummary s3 = (o4, s4) →
  (runStep StepExhaust s4).1 = Panic "close of closed channel".
Proof.
  intros s m s1 o2 s2 o3 s3 o4 s4 H1 H2 H3 H4. apply signalled_panics.
  apply steps_signalled in H2, H3, H4; [|tauto..]. apply H4, H3, H2.
  change (runStep StepExhaust s) with ((m ← stepExhaust; mret (Some m) : M SM _) s) in H1. apply bind_Ok_inv in H1 as (m1 & s' & H1 & Hr).
  injection Hr as _ <-. by eapply stepExhaust_signals.
Qed.

(** ** Sequence numbers *)


















End agents.

(** ** Witnesses *)

(** Clients that accept everything. *)
#[local] Instance demo_clients : Clients nat := {|
  prov_RegisterTenant _ n := (Ok {| rt_TenantId := "tenant-" +:+ pretty n |}, S n);
  prov_RegisterCluster _ n := (Ok {| rq_ClusterId := "cluster-" +:+ pretty n |}, S n);
  admin_IssueTenantCredit _ n := (Ok {| ip_TransferId := ""; ip_Quotas := [] |}, n) |}.

Definition demo_driver : Sim nat := NewScenarioDriver 0%nat (λ n, Z.of_nat n).
Abbreviation demo_started := (runStep StepStartClusters (runStep StepProvision demo_driver).2).2 (only parsing).

Definition kill_response : HeartbeatResponse :=
  {| hp_Status := STATUS_QUOTA_EXCEEDED; hp_Quotas := []; hp_AckSequence := 1;
     hp_PendingCommands := [{| cmd_Type := TYPE_SHUTDOWN; cmd_Reason := "" |}] |}.
Definition some_draws : draws := {| dr_4 := 1; dr_5 := 4; dr_float := Float 1 (-1) |}.

(** The agent of cluster A in a state. *)
Definition agent_A (s : Sim nat) : Loop * ClusterSim :=
  match sm_loops s !! 0%nat, cluster_of s 0 0 with
  | Some l, Some c => (l, c)
  | _, _ => ({| lp_tenant := 0; lp_cluster := 0; lp_seq := 0; lp_lastAck := 0; lp_prevAck := 0;
                lp_exhaust := false; lp_wasStopped := false; lp_live := false; lp_sent := [] |},
             newClusterSim "" 0 0 (Float 0 0))
  end.

Lemma agent_A_at s :
  bool_decide (is_Some (sm_loops s !! 0%nat) ∧ is_Some (cluster_of s 0 0) ∧
    lp_tenant (agent_A s).1 = 0%nat ∧ lp_cluster (agent_A s).1 = 0%nat) = true →
  at_agent s 0 (agent_A s).1 (agent_A s).2.
Proof.
  intros ([l Hl] & [c Hc] & Ht & Hcl)%bool_decide_eq_true. unfold agent_A in *. rewrite Hl, Hc in *.
  split; [done|]. cbn in Ht, Hcl |- *. by rewrite Ht, Hcl.
Qed.



Abbreviation demo_killed :=
  (agent_ops 0 [Tick some_draws true; Response kill_response] demo_started).2 (only parsing).

Lemma demo_killed_at : at_agent demo_killed 0 (agent_A demo_killed).1 (agent_A demo_killed).2.
Proof. apply agent_A_at. by vm_compute. Qed.

Lemma exhaust_step_ignores_kill_witness :
  ∃ s2 s3 l3 c3, agent_ops 0 (Response <$> [kill_response; kill_response]) (stepExhaust demo_killed).2 = (Ok tt, s2) ∧
    on_ticker 0 some_draws true s2 = (Ok tt, s3) ∧ at_agent s3 0 l3 c3 ∧ cl_stopped c3 = false ∧
    sent_seqs l3 = [1] ++ [lp_seq l3].
Proof.
  assert (sent_seqs (agent_A demo_killed).1 = [1]) as <- by (vm_compute; reflexivity).
  refine (exhaust_step_ignores_kill 0 demo_killed
    (eventMsg {| ev_Timestamp := Z.of_nat (sm_reads demo_killed); ev_Kind := EventSoftLimit;
       ev_Message := "Cluster A ramping CPU — driving toward hard limit..."; ev_TenantIdx := 0 |})
    (stepExhaust demo_killed).2 (agent_A demo_killed).1 (agent_A demo_killed).2
    [kill_response; kill_response] some_draws demo_killed_at _ _ _ _ _).
  1-3: vm_compute; reflexivity.
  - apply injective_projections; vm_compute; reflexivity.
  - repeat constructor.
Defined.

Abbreviation demo_round1 := (runStep StepExhaust demo_started) (only parsing).
Abbreviation demo_round2 := (runStep StepSurgePack demo_round1.2) (only parsing).
Abbreviation demo_round3 := (runStep StepIdempotency demo_round2.2) (only parsing).
Abbreviation demo_round4 := (runStep StepSummary demo_round3.2) (only parsing).

Lemma demo_round1_ok : match demo_round1.1 with Ok _ => true | _ => false end = true.
Proof. by vm_compute. Qed.

Lemma second_exhaust_panics_witness : (runStep StepExhaust demo_round4.2).1 = Panic "close of closed channel".
Proof.
  assert (∃ m, demo_round1 = (Ok m, demo_round1.2)) as [m Hm].
  { generalize demo_round1_ok. destruct demo_round1 as [[m|e|x] s1]; cbn; [|done..]. by exists m. }
  exact (second_exhaust_panics demo_started m demo_round1.2 demo_round2.1 demo_round2.2 demo_round3.1 demo_round3.2
    demo_round4.1 demo_round4.2 Hm (surjective_pairing _) (surjective_pairing _) (surjective_pairing _)).
Defined.

Abbreviation demo_ticked := (agent_op 0 (Tick some_draws true) demo_started) (only parsing).
Abbreviation demo_replaying := (stepIdempotency demo_ticked.2) (only parsing).
Abbreviation demo_replayed := (agent_op 0 Replay demo_replaying.2) (only parsing).



