(* ===== verification/ScreenProps.v ===== *)
(** * The screen of the demo shows what the driver sent *)

From S2P Require Import Prelude.
From S2P Require Import Floats Latency Format Scenario Screen View.







Section props.
Context `{W : Widgets} `{WL : !WidgetLaws W} `{LZ : LocalZone}.

(** One message after the other, with the time at which each is handled. *)
Fixpoint ui_run (m : Model) (msgs : list (tea_Msg * Z)) : outcome Model :=
  match msgs with
  | [] => Ok m
  | (msg, now) :: msgs => '(m, _, _) ← Update msg now m; ui_run m msgs
  end.


(** ** The log *)



(** ** The invariant of a tenant *)










(** ** The invariant of the screen *)










(** ** Rendering *)





End props.

(** ** A concrete screen *)

(** Widgets that draw plain text: a bar is its target and width, a viewport its text. *)
Definition plain_widgets : Widgets :=
  {| Render _ s := s; Width s := Z.of_nat (String.length s);
     JoinVertical l := Join l newline; JoinHorizontal l := Join l "|";
     widget_Cmd := unit; progress := float * Z; progress_zero := (Float 0 0, 0); progress_New w := (Float 0 0, w);
     progress_setWidth w b := (b.1, w); SetPercent p b := ((clamp p, b.2), tt); progress_Update _ b := (Some b, tt);
     progress_View b := "<" +:+ spaces (Z.to_nat (float_trunc (float_mul b.1 (float_of_Z b.2)))) +:+ ">";
     viewport := string; viewport_New _ _ := ""; viewport_setSize _ _ v := v; SetContent s _ := unix_lines s;
     GotoBottom v := v; viewport_Update _ v := (v, tt); viewport_View v := v |}.
Definition utc : LocalZone := {| zone_offset _ := 0 |}.


(** A cluster under the quota of its tenant, one warning, one event. *)
Definition demo_quotas : list QuotaState :=
  [ {| qu_Resource := "cpu_hours"; qu_Used := 1275000; qu_Limit := 1500000; qu_Available := 225000;
       qu_Pct := Float 85 0; qu_Status := "warning" |} ].
Definition demo_event : Event :=
  {| ev_Timestamp := 3723000000000; ev_Kind := EventSoftLimit; ev_Message := "85%"; ev_TenantIdx := 1 |}.
Definition demo_msgs : list (tea_Msg * Z) :=
  [(WindowSizeMsg 60 40, 0); (KeyMsg "tab", 1); (quotaUpdateMsg 1 demo_quotas, 2); (eventMsg demo_event, 3);
   (eventMsg {| demo_event with ev_TenantIdx := 7 |}, 4); (OtherMsg [1], 5)].

Definition demo_left : outcome string :=
  m ← @ui_run plain_widgets utc (@initialModel plain_widgets "http://x" 0) demo_msgs;
  @renderLeftColumn plain_widgets m 28.

Example left_column_text :
  demo_left = Ok (Join
    ["TENANT: Globex Inc (starter)"; "Clusters: 0 active"; "";
     "CPU Hours          85.0%"; "<                 >  ! warning"; "  used: 1.3M / limit: 1.5M"; ""] newline).
Proof. vm_compute. reflexivity. Qed.

